(* ===== verification/_CoqProject ===== *)
-Q . S2P
Prelude.v
BackupCodes.v
BackupCodesSpec.v
BackupCodesRoundTrip.v
BackupCodesPrivacy.v
SecureRandom.v
SecureRandomSpec.v
PasswordGenerator.v
PasswordTable.v
PasswordGeneratorSpec.v
TextDiff.v
TextDiffSpec.v
Csv.v
CsvSpec.v
MigrationReader.v
MigrationReaderSpec.v
MigrationRoundTrip.v
UriComponent.v
MigrationUri.v
MigrationUriSpec.v
Totp.v
TotpPlatform.v
Base32Spec.v
TotpUriSpec.v
ScanSession.v
ScanSessionSpec.v
Batch.v
BatchSpec.v
VaultQuota.v
VaultQuotaSpec.v
VaultQuotaOps.v
VaultQuotaLogic.v
VaultQuotaRules.v
VaultQuotaRequests.v
VaultQuotaSystem.v
VaultQuotaAlone.v
FullBackup.v
FullBackupSpec.v
FullBackupRoundTrip.v
ZipArchive.v
ZipArchiveSpec.v
ArchiveNames.v
ArchiveSegmentSpec.v
ArchiveNamesSpec.v
Admission.v
AdmissionSpec.v
AccountRecord.v
AuthProgram.v
Lockout.v
SecondFactor.v
AuthRequests.v
AuthSystem.v
AuthSafety.v
AuthRows.v
AuthSample.v
AuthInduction.v
SecondFactorSpec.v
LockoutSpec.v
SecondFactorMerge.v
DocumentObjects.v
DocumentObjectsSpec.v
DocumentStore.v
DocumentUploads.v
DocumentRequests.v
DocumentSystem.v
DocumentInvariant.v
DocumentSafety.v
DocumentRequestSafety.v
DocumentCompletionSafety.v
DocumentProtocolSpec.v
DocumentSample.v
DocumentBounds.v
DocumentRoundTrip.v
DocumentCipher.v
DocumentCipherSpec.v
DocumentReadSpec.v
DocumentReadSafety.v
