(* ===== verification/Prelude.v ===== *)
(** * H-Vault, a verification of its core

    H-Vault is an end-to-end encrypted password manager: a browser client (packages/client), a
    server (packages/server) that stores what it cannot read, and a library both share
    (packages/shared).  This development models the parts whose correctness rests on their own
    logic: parsers and writers of the formats the user's secrets pass through, the generation of
    secrets, and the protocols by which concurrent requests share counters and memory.

    ** How the library is laid out

    Every component has a file with its data and operations, named after the source file and
    keeping its names, and one or more files of theorems.  Numbers are [Z], wrapped at 32 bits
    where the source shifts; strings ([jsstr]) are lists of UTF-16 code units; an exception is the
    [Throw] of [result], with its [let?].  Loops that are not structural take fuel, and every
    component with fuel has a theorem that the fuel given is enough.

    - This file: strings, results, lists, slices, the shared tactics and hints.

    - Backup codes (shared/src/utils/backupCodes.ts).  BackupCodes: the five segmenters, the array
      tokenizer, per-item rules, [auto], merging and formatting.  BackupCodesSpec: the parser
      always answers (one unit of fuel more than the input's length), reports exactly the invalid
      items with their spans, and never accepts an invalid list.  BackupCodesRoundTrip: what is
      formatted parses back, and the tokenizer inverts the quoting of JSON strings.
      BackupCodesPrivacy: no message depends on the letters and digits of a code.

    - Random secrets (client/src/lib/secureRandom.ts, passwordGenerator.ts).  SecureRandom,
      SecureRandomSpec: the masked rejection loop over a stream of bytes.  PasswordGenerator: clamping a policy, the
      counting table and its cache, unranking, drawing.  PasswordTable relates the flat
      mixed-radix table to the recursion it tabulates; PasswordGeneratorSpec shows that counting
      is exact, that unranking is a bijection between the indices and the valid passwords, and
      that the generator is therefore uniform on them.  The loop of the draw is unbounded, so its
      theorem is about the first chunk of the stream in range.

    - Line diff (client/src/lib/textDiff.ts): TextDiff, TextDiffSpec.  The operations rewrite one
      text into the other and the hunks are a patch that applies.

    - CSV (client/src/services/import/csv.ts, export/csvWriter.ts): Csv, CsvSpec.

    - Authenticator exports (client/src/services/totpImport).  MigrationReader: the bounded
      protobuf reader.  MigrationReaderSpec: on any bytes it answers with a bounded payload or one
      of its own messages.  MigrationRoundTrip: it reads every payload an encoder writes.  Batch,
      BatchSpec: the parts of a batch, in any order.  ScanSession, ScanSessionSpec: the scanned
      keys, by reference in a heap, and their erasure.  MigrationUri, MigrationUriSpec: the link
      around a payload, its query and its base64, down to the accounts it carries.

    - TOTP values (client/src/lib/totp.ts).  UriComponent: ECMA-262's two URI functions.  Totp:
      base32, both stored shapes, the bounded URI builder.  TotpPlatform: a concrete platform for
      evaluations.  Base32Spec, TotpUriSpec.

    - Full backups (client/src/services/backup/fullBackupFormat.ts, and the row schema of
      shared/src/schemas/document.ts).  FullBackup: writer, reader, schemas.  FullBackupSpec: an
      accepted file is accounted for to the byte, and a codec for evaluations.  FullBackupRoundTrip: a written file reads back,
      and the one rule the writer does not check.


    - Document archives (client/src/services/documents).  ZipArchive (zipArchive.ts): the stored-only
      ZIP writer.  ZipArchiveSpec: two independent readers of the format, by directory and by
      stream, read back what was written, the size bounds, and that the checksum is the bit-serial
      CRC-32.  ArchiveNames (archiveNames.ts, with the name rules of download.ts and the
      folder chains of folderPath.ts): names made safe and unique.  ArchiveSegmentSpec: what one
      segment is, and that the search for a free name ends.  ArchiveNamesSpec: a whole
      run of placing, reserving, saving and throwing away.
    - Vault quota (server/src/utils/vaultQuota.ts, and the handlers of vaultController.ts that go
      through it).  VaultQuota: the bytes that count and the change of an update.  VaultQuotaOps:
      every request as a program of atomic database commands, interleaved with others, with time,
      with crashes and with the faults a driver reports.  VaultQuotaLogic, Rules,
      Requests: the invariant of the shared state and a precondition calculus in which each
      request is checked against any company.  VaultQuotaSystem: the theorems on all reachable
      states of an account whose rows all carry updatedAt (limits hold, counters never undercount,
      are exact without faults, and are repaired by a recount).  VaultQuotaAlone: one request alone refines a vault that has no counters.
      VaultQuotaSpec: the arithmetic of an update, and a storage engine for evaluations.

    - Authentication (server/src/utils/lockout.ts, accountStatus.ts, secondFactor.ts,
      twoFactorChallenge.ts, and the handlers of authController.ts and userController.ts that use
      them).  AccountRecord: the account row, with MongoDB's filters and updates as the data they
      are.  AuthProgram: requests as programs of atomic commands.  Lockout, SecondFactor,
      AuthRequests: the code.  AuthSystem: any number of requests on one account, interleaved with
      time, crashes and erasure, and the table of the writes they make.  AuthSafety: each request
      makes no other write.  AuthRows: what each write does to a row.  AuthInduction: invariants of
      the reachable states; the row keeps its types.  SecondFactorSpec: codes and challenges are
      single-use.  LockoutSpec: bounds of the brake, an episode is discharged once, and a reset
      that races with a lock; and, without resets and crashes, a locked owner has a link that works.
      SecondFactorMerge: merging a code's write into another.  AuthSample: single runs, and a
      [Crypto] for evaluations.  A theorem "on every reachable state" says whether it covers
      crashes and resets; requests have no fuel, each ends after the commands it lists.

    - Documents (server/src/utils/documentObjects.ts, controllers/documentController.ts,
      jobs/documentCleanup.ts, utils/storageBreaker.ts, utils/jobLock.ts).  DocumentObjects: keys,
      segment ranges, the checks of a completed ledger; DocumentObjectsSpec.  DocumentStore: staging
      rows, documents, objects, engine uploads and locks, and the atomic commands on them.
      DocumentUploads: opening, storing a part, completing, cancelling.  DocumentRequests: trash,
      restore, purge, reading a segment, and the three sweeps of the collector; every request as a
      program.  DocumentSystem: requests interleaved with time, crashes, failed calls, lost answers
      and expiring rows; what each of them may rely on, and what it is permitted.
      DocumentInvariant: a permitted command keeps both.  DocumentSafety, DocumentRequestSafety,
      DocumentCompletionSafety: every request is permitted what it does.  DocumentProtocolSpec: in
      every state reachable without the lost answer of an insert a document has its object, reads
      back, and fits the quota; with it, a document can lose its object.
      DocumentRoundTrip: a transfer nothing disturbs succeeds, and reads back as what was sent.
      DocumentBounds: the collector ends, and gives up on an engine that refuses.  DocumentSample:
      runs for the evaluations.

    - Document encryption in the browser (client/src/services/crypto/documentCryptoService.ts,
      services/documents/download.ts, the rename of stores/documentsStore.ts, and the schema of the
      sealed metadata in shared/src/schemas/document.ts).  DocumentCipher: keys, nonces, segments,
      sealed metadata, the verified read, the save to a chosen file, the rename.
      DocumentCipherSpec: what is sealed opens, the schema changes nothing but the spaces around
      tags, a nonce names its place.  DocumentReadSpec: a read against a server that answers
      anything.  DocumentReadSafety: what a read writes is what was sent, what was sealed reads
      back, a rename keeps the bytes; with a platform for evaluations.

    - Admission (server/src/utils/partSemaphore.ts, middleware/admission.ts): Admission,
      AdmissionSpec.  A memory budget over arrivals, closes and handlers as a step relation.

    ** What is assumed

    Code outside the repository is a parameter, with what the sources rely on as a class of laws,
    each with an instance that satisfies it: [webcrypto] (the bytes of the random generator),
    [Platform] and [PlatformLaws] (URL parsing, case mapping), the UTF-8 decoder and NFC of
    MigrationReader, [Storage] and [StorageLaws] (BSON sizes, casting), [TextCodec], [TextLaws]
    and [Zod] (JSON text, two string formats), [Crypto] and [CryptoLaws] (random values are fresh,
    hashes collide on nothing),
    [Unicode] and [UnicodeLaws] (normalisation and upper-casing, on and next to ASCII).  The quota theorems also assume what the
    sources state: a request holds a reservation for less than half the quiescence of the recount,
    and identifiers of created rows are fresh.  They further assume ([sound_row]) that every stored row
    carries updatedAt: vaultQuota.ts provides for a legacy row without it, but moving or trashing one
    grows its counted bytes and tells no counter (lemma placement_grows_legacy_row of VaultQuotaAlone,
    a finding), so on such a row counters can fall behind and the quota can be passed.  They cover the
    requests of VaultQuotaOps: creates, updates and moves, permanent deletes, withdrawals, the emptying
    and purging of the trash, recounts.
    The authentication theorems take the database's documented behaviour as given: an update of one
    document is atomic, its filter and operators mean what the manual says of the few used, a saved
    document writes its changed paths and the assigned ones it did not load.  What the requests ask of
    sessions, device proofs, trusted devices and the audit log is a command that may answer anything.
    The document theorems take a command of the database or the engine to be atomic, an object
    that is written to be readable, and, as documentController.ts does, a request that holds a
    completion lock or the vault-key exclusion lock to end before the lock lapses; they are about one
    account that is not erased, and do not cover a lost answer of the insert, which a theorem of its
    own shows to matter.  A cancel is known to them only by the row it claims, which is that of a
    single-segment transfer: of a multipart transfer a late cancel can answer success and the document
    still be committed (lemma late_cancel_answers_success).  The brake's theorems on bounds and links
    assume that no password is reset, and the one on links that no request crashes either.
    The theorems on document encryption take WebCrypto, UTF-8 and the case table as parameters
    ([Subtle], [Utf8Laws], [CaseMapping]): AES-GCM opens what it sealed, HKDF gives different inputs
    different keys, ASCII is its own UTF-8.  That nothing else opens is no law of a function: the
    theorem on the verified read asks it of the ciphertexts the server serves ([unforged]).  The fuel of the interrupted-purge sweep is its own bound on rows; the
    emptying of a trash takes its number of pages as a parameter, and what is proved of it holds for
    every number.

    ** What is not modelled

    Views, routes, configuration, models, mail, API clients and wiring have no logic of their own
    worth a model: they are calls of React, Express, Mongoose and S3.  Cryptography is WebCrypto's
    and the rendering sandbox third-party decoders.  The orchestration of transfers in the browser is left out.
    The imports of other managers, on top of the CSV reader, would be next.  Inside the modelled files, what is left out is: the /metrics snapshot
    and the order and time budget of a recount over many accounts (vaultQuota.ts), log hooks, the
    floating-point estimates of passwordEntropy.ts, file names of save dialogs, the sleep of the
    progressive delay, unlock tokens minted before they named a factor, and of documents the
    listings, the usage report, the server's update of sealed metadata and keys the collector cannot
    parse; of the document cipher the erasure of keys, the listing of rows and the save through a blob. *)
From stdpp Require Export base numbers list strings pretty option gmap.
From Stdlib Require Export ZArith Lia ZifyBool Sorted.

(** ** Strings as the program sees them

    A JavaScript string is a sequence of UTF-16 code units.  It is modelled as a
    [list Z], one entry per unit; [js] embeds an ASCII literal. *)

Abbreviation jsstr := (list Z).

Fixpoint js (s : string) : jsstr :=
  match s with
  | EmptyString => []
  | String a s' => Z.of_N (Ascii.N_of_ascii a) :: js s'
  end.

(** [jsq] is [js] with every circumflex read as a double quote. *)
Definition jsq (s : string) : jsstr := map (λ c, if (c =? 94)%Z then 34%Z else c) (js s).

(** [Number.prototype.toString] on an integer. *)
Definition num (n : Z) : jsstr := js (pretty n).

(** [String.prototype.charAt], with [None] for the empty string it answers past the end. *)
Definition charAt (s : jsstr) (i : nat) : option Z := s !! i.

(** [String.prototype.slice] on in-order, non-negative bounds. *)
Definition slice {A} (s : list A) (i j : nat) : list A := take (j - i) (drop i s).

(** [\s] of a regular expression, which is also what [trim] removes:
    WhiteSpace and LineTerminator of ECMA-262. *)
Definition is_ws (c : Z) : bool :=
  ((9 <=? c) && (c <=? 13) || (c =? 32) || (c =? 160) || (c =? 5760)
   || (8192 <=? c) && (c <=? 8202) || (c =? 8232) || (c =? 8233) || (c =? 8239)
   || (c =? 8287) || (c =? 12288) || (c =? 65279))%Z.

(** Length of the longest prefix of [l] whose units satisfy [p]. *)
Fixpoint span_len (p : Z -> bool) (l : jsstr) : nat :=
  match l with
  | c :: l' => if p c then S (span_len p l') else O
  | [] => O
  end.

Definition trimStart (s : jsstr) : jsstr := drop (span_len is_ws s) s.
Definition trimEnd (s : jsstr) : jsstr := rev (trimStart (rev s)).
Definition trim (s : jsstr) : jsstr := trimEnd (trimStart s).

(** The index reached by [while (i < s.length && p(s.charAt(i))) i += 1] from [i]. *)
Definition scan_while (p : Z -> bool) (s : jsstr) (i : nat) : nat :=
  (i + span_len p (drop i s))%nat.

(** First index at or after [i] whose unit satisfies [p]; [None] is the program's [-1]. *)
Definition find_from (p : Z -> bool) (s : jsstr) (i : nat) : option nat :=
  let k := scan_while (λ c, negb (p c)) s i in
  if (k <? length s)%nat then Some k else None.

(** [s.indexOf(c, i)] for a one-unit needle. *)
Definition indexOf (c : Z) (s : jsstr) (i : nat) : option nat := find_from (Z.eqb c) s i.

(** [s.includes(c)] for a one-unit needle. *)
Definition includes (s : jsstr) (c : Z) : bool := existsb (Z.eqb c) s.

Fixpoint starts_with (s p : jsstr) {struct p} : bool :=
  match p, s with
  | [], _ => true
  | b :: p', a :: s' => (a =? b)%Z && starts_with s' p'
  | _ :: _, [] => false
  end.

(** [Array.prototype.join]. *)
Fixpoint join (sep : jsstr) (parts : list jsstr) : jsstr :=
  match parts with
  | [] => []
  | [p] => p
  | p :: ps => p ++ sep ++ join sep ps
  end.

(** [s.split(c)] for a one-unit separator. *)
Fixpoint split_on (c : Z) (s : jsstr) : list jsstr :=
  match s with
  | [] => [[]]
  | x :: r =>
      if (x =? c)%Z then [] :: split_on c r
      else match split_on c r with [] => [[x]] | p :: ps => (x :: p) :: ps end
  end.

(** [toLowerCase] restricted to ASCII letters: exact on the strings it is used on here. *)
Definition lower_unit (c : Z) : Z := if ((65 <=? c) && (c <=? 90))%Z then (c + 32)%Z else c.
Definition toLowerCase (s : jsstr) : jsstr := map lower_unit s.

(** Iteration by code point ([for (const ch of s)]): a high surrogate followed by a
    low one is one element of two units. *)
Definition is_high (c : Z) : bool := ((55296 <=? c) && (c <=? 56319))%Z.
Definition is_low (c : Z) : bool := ((56320 <=? c) && (c <=? 57343))%Z.

Fixpoint code_points (s : jsstr) : list jsstr :=
  match s with
  | [] => []
  | a :: s1 =>
      match s1 with
      | b :: s2 => if is_high a && is_low b then [a; b] :: code_points s2
                   else [a] :: code_points s1
      | [] => [[a]]
      end
  end.

(** [String.fromCodePoint] on a valid code point. *)
Definition fromCodePoint (p : Z) : jsstr :=
  if (p <=? 65535)%Z then [p]
  else [(55296 + Z.shiftr (p - 65536) 10)%Z; (56320 + Z.land (p - 65536) 1023)%Z].

(** [Array.prototype.sort] by a numeric key: the stable insertion order. *)
Section sort.
Context {A : Type} (key : A -> Z).

Fixpoint insert_by (x : A) (l : list A) : list A :=
  match l with
  | [] => [x]
  | y :: l' => if (key x <=? key y)%Z then x :: l else y :: insert_by x l'
  end.

Definition sort_by (l : list A) : list A := foldr insert_by [] l.
End sort.

(** Results of code that throws: [Ok] a value or [Throw] the error thrown. *)
Inductive result (E A : Type) : Type :=
  | Ok (a : A)
  | Throw (e : E).
Arguments Ok {E A} _.
Arguments Throw {E A} _.

Definition result_bind {E A B} (m : result E A) (f : A -> result E B) : result E B :=
  match m with Ok a => f a | Throw e => Throw e end.

Declare Scope result_scope.
Delimit Scope result_scope with result.
Notation "'let?' x := m 'in' k" := (result_bind m (λ x, k))
  (at level 10, x pattern, m at level 100, k at level 200) : result_scope.

#[global] Arguments js : simpl never.
#[global] Arguments num : simpl never.
#[global] Arguments includes : simpl never.
#[global] Arguments find_from : simpl never.
#[global] Arguments trim : simpl never.

(** * Lemmas *)

Lemma Ok_inj {E A} (a b : A) : @Ok E A a = Ok b -> a = b.
Proof. by intros [=]. Qed.

Create HintDb hv.
Create Rewrite HintDb hvrw.

(** ** Positions in a string split as [pre ++ rest] *)

Section positions.
Context {A : Type}.
Implicit Types (pre rest s : list A).

Lemma lookup_app_here pre rest : (pre ++ rest) !! length pre = head rest.
Proof. rewrite lookup_app_r, Nat.sub_diag; [by destruct rest | done]. Qed.

Lemma lookup_app_at pre rest k : (pre ++ rest) !! (length pre + k)%nat = rest !! k.
Proof. rewrite lookup_app_r by lia. f_equal. lia. Qed.

Lemma drop_app_here pre rest k : drop (length pre + k) (pre ++ rest) = drop k rest.
Proof. rewrite drop_app_ge by lia. f_equal. lia. Qed.

Lemma slice_app_here pre rest k :
  slice (pre ++ rest) (length pre) (length pre + k) = take k rest.
Proof. unfold slice. rewrite drop_app_length. f_equal. lia. Qed.

Lemma slice_app_at pre rest i k :
  slice (pre ++ rest) (length pre + i) (length pre + i + k) = take k (drop i rest).
Proof. unfold slice. rewrite drop_app_here. f_equal. lia. Qed.

Lemma length_slice s i j : (j <= length s)%nat -> length (slice s i j) = (j - i)%nat.
Proof. intros. unfold slice. rewrite length_take, length_drop. lia. Qed.
End positions.

#[export] Hint Rewrite @lookup_app_here @lookup_app_at @drop_app_here @slice_app_here
  @slice_app_at : hvrw.

(** ** Scanning *)

Lemma span_len_le p l : (span_len p l <= length l)%nat.
Proof. induction l as [|c l IH]; cbn; [done|]. destruct (p c); lia. Qed.

Lemma span_len_all p l : forallb p l = true -> span_len p l = length l.
Proof.
  induction l as [|c l IH]; cbn; [done|]. intros [Hc Hl]%andb_true_iff.
  rewrite Hc. by rewrite IH.
Qed.

Lemma span_len_stop p l c r :
  forallb p l = true -> p c = false -> span_len p (l ++ c :: r) = length l.
Proof.
  induction l as [|d l IH]; cbn; intros Hl Hc; [by rewrite Hc|].
  apply andb_true_iff in Hl as [-> Hl]. by rewrite IH.
Qed.

Lemma span_len_take p l : forallb p (take (span_len p l) l) = true.
Proof. induction l as [|c l IH]; cbn; [done|]. destruct (p c) eqn:E; cbn; rewrite ?E; auto. Qed.

Lemma span_len_next p l c r : drop (span_len p l) l = c :: r -> p c = false.
Proof.
  induction l as [|d l IH]; cbn; [done|]. destruct (p d) eqn:E; cbn; [done|]. congruence.
Qed.

Lemma span_len_map p f l : (∀ c, p (f c) = p c) -> span_len p (map f l) = span_len p l.
Proof. intros Hf. induction l as [|c l IH]; cbn; [done|]. rewrite Hf. by destruct (p c); rewrite ?IH. Qed.

Lemma span_len_ext p q l : (∀ c, p c = q c) -> span_len p l = span_len q l.
Proof. intros H. induction l as [|c l IH]; cbn; [done|]. rewrite H. by destruct (q c); rewrite ?IH. Qed.

Lemma scan_while_ge p s i : (i <= scan_while p s i)%nat.
Proof. unfold scan_while. lia. Qed.

Lemma scan_while_le p s i : (i <= length s)%nat -> (scan_while p s i <= length s)%nat.
Proof.
  intros. unfold scan_while. pose proof (span_len_le p (drop i s)) as H1.
  rewrite length_drop in H1. lia.
Qed.

Lemma find_from_Some p s i k :
  find_from p s i = Some k -> (i <= k < length s)%nat /\ ∃ c, s !! k = Some c /\ p c = true.
Proof.
  unfold find_from. destruct (Nat.ltb_spec (scan_while (λ c, negb (p c)) s i) (length s)) as [Hlt|]; [|done].
  intros [= <-]. split; [split; [apply scan_while_ge|done]|].
  apply lookup_lt_is_Some in Hlt as [c Hc]. exists c. split; [done|].
  unfold scan_while in Hc. rewrite <- lookup_drop in Hc.
  rewrite <- (Nat.add_0_r (span_len _ _)), <- lookup_drop in Hc.
  destruct (drop (span_len (λ c, negb (p c)) (drop i s)) (drop i s)) eqn:E; [done|].
  cbn in Hc. injection Hc as ->. apply span_len_next in E. by apply negb_false_iff.
Qed.

Lemma find_from_hit p pre l c r :
  forallb (λ x, negb (p x)) l = true -> p c = true ->
  find_from p (pre ++ l ++ c :: r) (length pre) = Some (length pre + length l)%nat.
Proof.
  intros Hl Hc. unfold find_from, scan_while.
  rewrite drop_app_length.
  rewrite (span_len_stop _ l c r) by (try done; by rewrite Hc).
  rewrite !length_app. cbn [length].
  destruct (Nat.ltb_spec (length pre + length l) (length pre + (length l + S (length r)))); [done|lia].
Qed.

Lemma find_from_miss p pre l :
  forallb (λ x, negb (p x)) l = true -> find_from p (pre ++ l) (length pre) = None.
Proof.
  intros Hl. unfold find_from, scan_while.
  rewrite drop_app_length, span_len_all by done.
  rewrite length_app. destruct (Nat.ltb_spec (length pre + length l) (length pre + length l)); [lia|done].
Qed.

Lemma find_from_None p s i :
  find_from p s i = None -> ∀ k c, (i <= k)%nat -> s !! k = Some c -> p c = false.
Proof.
  unfold find_from. destruct (Nat.ltb_spec (scan_while (λ c, negb (p c)) s i) (length s)) as [|Hge]; [done|].
  intros _ k c Hik Hk. assert (k < scan_while (λ c, negb (p c)) s i)%nat as Hlt.
  { apply lookup_lt_Some in Hk. lia. }
  unfold scan_while in Hlt. pose proof (span_len_take (λ c, negb (p c)) (drop i s)) as Hall.
  rewrite forallb_forall in Hall. apply negb_true_iff, Hall, list_elem_of_In, list_elem_of_lookup.
  exists (k - i)%nat. rewrite lookup_take_lt by lia. rewrite lookup_drop.
  by replace (i + (k - i))%nat with k by lia.
Qed.

Lemma find_from_map p f s i :
  (∀ c, p (f c) = p c) -> find_from p (map f s) i = find_from p s i.
Proof.
  intros Hf. unfold find_from, scan_while. rewrite length_map.
  assert (drop i (map f s) = map f (drop i s)) as -> by (revert i; induction s; intros [|]; cbn; auto).
  rewrite span_len_map; [done|]. intros c. by rewrite Hf.
Qed.

(** ** Trimming *)

Lemma trimStart_suffix s : ∃ pre, s = pre ++ trimStart s.
Proof. exists (take (span_len is_ws s) s). unfold trimStart. by rewrite take_drop. Qed.

Lemma trimStart_stop c s : is_ws c = false -> trimStart (c :: s) = c :: s.
Proof. intros H. unfold trimStart. cbn. by rewrite H. Qed.

Lemma trimStart_ws l s : forallb is_ws l = true -> trimStart (l ++ s) = trimStart s.
Proof.
  induction l as [|c l IH]; [done|]. cbn. intros [Hc Hl]%andb_true_iff.
  unfold trimStart in *. cbn. rewrite Hc. cbn. by apply IH.
Qed.

Lemma trimEnd_stop s c : is_ws c = false -> trimEnd (s ++ [c]) = s ++ [c].
Proof.
  intros H. unfold trimEnd. rewrite rev_app_distr. cbn [rev app].
  rewrite trimStart_stop by done. cbn. by rewrite rev_involutive.
Qed.

Lemma length_trimStart_le s : (length (trimStart s) <= length s)%nat.
Proof. unfold trimStart. rewrite length_drop. lia. Qed.

Lemma length_trimEnd_le s : (length (trimEnd s) <= length s)%nat.
Proof.
  unfold trimEnd. rewrite length_rev. pose proof (length_trimStart_le (rev s)) as H.
  by rewrite length_rev in H.
Qed.

Lemma trimEnd_prefix s : ∃ post, s = trimEnd s ++ post.
Proof.
  destruct (trimStart_suffix (rev s)) as [pre H]. exists (rev pre). unfold trimEnd.
  rewrite <- rev_app_distr, <- H. by rewrite rev_involutive.
Qed.

(** A unit string with no white space anywhere is its own trim, behind any white space. *)
Lemma trim_solid l s : forallb is_ws l = true -> existsb is_ws s = false -> s <> [] -> trim (l ++ s) = s.
Proof.
  intros Hl Hs Hne. unfold trim. rewrite trimStart_ws by done.
  destruct (exists_last Hne) as (s' & c & ->).
  rewrite existsb_app in Hs. apply orb_false_iff in Hs as [Hs' Hc]. cbn in Hc.
  rewrite orb_false_r in Hc. assert (trimStart (s' ++ [c]) = s' ++ [c]) as ->; [|by apply trimEnd_stop].
  destruct s' as [|d s']; cbn [app existsb] in *; apply trimStart_stop; [done|].
  by apply orb_false_iff in Hs' as [].
Qed.

Lemma trim_solid_self s : existsb is_ws s = false -> s <> [] -> trim s = s.
Proof. intros. by apply (trim_solid [] s). Qed.

Lemma trim_ends c s d : is_ws c = false -> is_ws d = false -> trim (c :: s ++ [d]) = c :: s ++ [d].
Proof. intros Hc Hd. unfold trim. rewrite trimStart_stop by done. by apply (trimEnd_stop (c :: s)). Qed.

Lemma trimStart_length_span s : (length s - length (trimStart s))%nat = span_len is_ws s.
Proof. unfold trimStart. rewrite length_drop. pose proof (span_len_le is_ws s). lia. Qed.

Lemma length_trim_le s : (length (trim s) <= length (trimStart s))%nat.
Proof. apply length_trimEnd_le. Qed.

(** The trimmed text, at the offset the program computes for it, lies inside the text. *)
Lemma trim_span s : (length s - length (trimStart s) + length (trim s) <= length s)%nat.
Proof. pose proof (length_trimStart_le s). pose proof (length_trim_le s). lia. Qed.

Lemma trimStart_map f s : (∀ c, is_ws (f c) = is_ws c) -> trimStart (map f s) = map f (trimStart s).
Proof.
  intros Hf. unfold trimStart. rewrite span_len_map by done. generalize (span_len is_ws s).
  intros n. revert n. induction s; intros [|n]; cbn; auto.
Qed.

Lemma trimEnd_map f s : (∀ c, is_ws (f c) = is_ws c) -> trimEnd (map f s) = map f (trimEnd s).
Proof. intros Hf. unfold trimEnd. rewrite <- map_rev, trimStart_map by done. apply eq_sym, map_rev. Qed.

Lemma trim_map f s : (∀ c, is_ws (f c) = is_ws c) -> trim (map f s) = map f (trim s).
Proof. intros Hf. unfold trim. by rewrite trimStart_map, trimEnd_map. Qed.

(** ** The stable sort *)

Section sort_lemmas.
Context {A : Type} (key : A -> Z).

Lemma insert_by_perm x l : insert_by key x l ≡ₚ x :: l.
Proof.
  induction l as [|y l IH]; cbn; [done|]. destruct (key x <=? key y)%Z; [done|].
  rewrite IH. by constructor.
Qed.

Lemma sort_by_perm l : sort_by key l ≡ₚ l.
Proof. induction l as [|x l IH]; cbn; [done|]. rewrite insert_by_perm. by constructor. Qed.

Definition key_le (x y : A) : Prop := (key x <= key y)%Z.

Lemma insert_by_sorted x l :
  StronglySorted key_le l -> StronglySorted key_le (insert_by key x l).
Proof.
  induction 1 as [|y l Hl IH Hy]; cbn; [by repeat constructor|].
  destruct (Z.leb_spec (key x) (key y)).
  - constructor; [by constructor|]. constructor; [done|].
    eapply Forall_impl; [exact Hy|]. unfold key_le. intros. cbn in *. lia.
  - constructor; [done|]. rewrite insert_by_perm. constructor; [unfold key_le; lia|done].
Qed.

Lemma sort_by_sorted l : StronglySorted key_le (sort_by key l).
Proof. induction l; cbn; [constructor|]. by apply insert_by_sorted. Qed.

Lemma sort_by_nil l : sort_by key l = [] -> l = [].
Proof. intros H. pose proof (sort_by_perm l) as Hp. rewrite H in Hp. by apply Permutation_nil_l in Hp. Qed.

Lemma sort_by_Forall (P : A -> Prop) l : Forall P l -> Forall P (sort_by key l).
Proof. intros H. by rewrite (sort_by_perm l). Qed.

(** A list already in order is unchanged: the sort is stable. *)
Lemma sort_by_id l : StronglySorted key_le l -> sort_by key l = l.
Proof.
  induction 1 as [|x l Hl IH Hx]; [done|].
  change (insert_by key x (sort_by key l) = x :: l). rewrite IH.
  destruct l as [|y l]; [done|]. cbn. apply Forall_inv in Hx. unfold key_le in Hx.
  by destruct (Z.leb_spec (key x) (key y)); [|lia].
Qed.

(** Keys that are distinct leave one order. *)
Lemma sorted_unique l l' : StronglySorted key_le l -> StronglySorted key_le l' -> l ≡ₚ l' -> NoDup (map key l) -> l = l'.
Proof.
  intros Hl. revert l'. induction Hl as [|x l Hl IH Hx]; intros [|y l'] Hl' Hp Hd; [done|by apply Permutation_nil_l in Hp|by apply Permutation_nil_r in Hp|].
  apply StronglySorted_inv in Hl' as [Hl' Hy]. cbn [map] in Hd. apply NoDup_cons in Hd as [Hn Hd].
  assert (x = y) as ->.
  { assert (x ∈ y :: l') as [->|Hin]%elem_of_cons by (rewrite <- Hp; by left); [done|].
    assert (y ∈ x :: l) as [->|Hin']%elem_of_cons by (rewrite Hp; by left); [done|].
    rewrite Forall_forall in Hx, Hy. specialize (Hx _ Hin'). specialize (Hy _ Hin). unfold key_le in *.
    destruct Hn. replace (key x) with (key y) by lia. apply list_elem_of_In, in_map, list_elem_of_In, Hin'. }
  f_equal. apply IH; [done|by apply Permutation_cons_inv in Hp|done].
Qed.

Lemma sort_by_unique l l' : StronglySorted key_le l' -> l ≡ₚ l' -> NoDup (map key l') -> sort_by key l = l'.
Proof.
  intros Hl Hp Hd. symmetry. apply sorted_unique; [done|apply sort_by_sorted| |done]. by rewrite sort_by_perm.
Qed.
End sort_lemmas.

Lemma slice_mid {A} (pre l r : list A) :
  slice (pre ++ l ++ r) (length pre) (length pre + length l) = l.
Proof. rewrite slice_app_here. apply take_app_length. Qed.

Lemma span_len_hit p l c r :
  forallb p l = true -> p c = false -> span_len p (l ++ c :: r) = length l.
Proof. apply span_len_stop. Qed.

Lemma scan_while_stop p pre l c r :
  forallb p l = true -> p c = false ->
  scan_while p (pre ++ l ++ c :: r) (length pre) = (length pre + length l)%nat.
Proof. intros. unfold scan_while. rewrite drop_app_length. f_equal. by apply span_len_stop. Qed.

Lemma scan_while_end p pre l :
  forallb p l = true -> scan_while p (pre ++ l) (length pre) = (length pre + length l)%nat.
Proof. intros. unfold scan_while. rewrite drop_app_length. f_equal. by apply span_len_all. Qed.

Lemma join_cons sep c cs :
  join sep (c :: cs) = c ++ match cs with [] => [] | _ => sep ++ join sep cs end.
Proof. destruct cs; cbn; by rewrite ?app_nil_r. Qed.

(** ** Splitting *)

Lemma split_on_nonempty c s : split_on c s <> [].
Proof. induction s as [|x s IH]; cbn; [done|]. destruct (_ =? _)%Z; [done|]. by destruct (split_on c s). Qed.

Lemma split_on_plain c s : c ∉ s -> split_on c s = [s].
Proof.
  induction s as [|x s IH]; intros Hc; [done|]. apply not_elem_of_cons in Hc as [Hx Hc]. cbn [split_on].
  destruct (x =? c)%Z eqn:E; [lia|]. by rewrite (IH Hc).
Qed.

Lemma split_on_app c p s : split_on c (p ++ c :: s) = split_on c p ++ split_on c s.
Proof.
  induction p as [|x p IH]; cbn [app split_on]; [by rewrite Z.eqb_refl|]. rewrite IH. destruct (x =? c)%Z; [done|].
  pose proof (split_on_nonempty c p). by destruct (split_on c p).
Qed.

(** ** Loops over an index range *)

Lemma foldl_seq_inv {A} (P : nat -> A -> Prop) (f : A -> nat -> A) a b n :
  P b a -> (∀ i x, (b <= i < b + n)%nat -> P i x -> P (S i) (f x i)) ->
  P (b + n)%nat (foldl f a (seq b n)).
Proof.
  revert a b. induction n as [|n IH]; intros a b Ha Hf; cbn.
  - by rewrite Nat.add_0_r.
  - rewrite <- Nat.add_succ_comm. apply IH; [apply Hf; [lia|done]|].
    intros i x Hi. apply Hf. lia.
Qed.

(** A row-major index [row * width + column] names one row and one column. *)
Lemma flat_index_inj (w r r' c c' : nat) :
  (c < w)%nat -> (c' < w)%nat -> (r * w + c = r' * w + c')%nat -> r = r' /\ c = c'.
Proof.
  intros Hc Hc' E.
  assert (r = r') as ->; [|lia].
  destruct (Nat.lt_total r r') as [H|[H|H]]; [|done|]; exfalso; nia.
Qed.

Lemma flat_index_lt (w n r c : nat) : (c < w)%nat -> (r < n)%nat -> (r * w + c < n * w)%nat.
Proof. nia. Qed.

(** ** Decimal text *)

Definition is_digit (c : Z) : bool := ((48 <=? c) && (c <=? 57))%Z.

Lemma js_cons c s : js (String c s) = Z.of_N (Ascii.N_of_ascii c) :: js s.
Proof. done. Qed.

Lemma pretty_N_go_digits x s :
  forallb is_digit (js s) = true -> forallb is_digit (js (pretty_N_go x s)) = true.
Proof.
  revert s. induction (N.lt_wf_0 x) as [x _ IH]; intros s Hs.
  destruct (decide (0 < x)%N) as [Hx|Hx].
  - rewrite pretty_N_go_step by done. apply IH; [by apply N.div_lt|].
    rewrite js_cons. cbn [forallb]. rewrite Hs, andb_true_r.
    assert (x `mod` 10 < 10)%N as Hm by (by apply N.mod_lt). revert Hm.
    generalize (x `mod` 10)%N as m. intros m Hm.
    assert (m = 0 \/ m = 1 \/ m = 2 \/ m = 3 \/ m = 4 \/ m = 5 \/ m = 6 \/ m = 7 \/ m = 8 \/ m = 9)%N as Hd by lia.
    repeat destruct Hd as [->|Hd]; try reflexivity. by subst.
  - replace x with 0%N by lia. by rewrite pretty_N_go_0.
Qed.

(** A natural number prints as decimal digits. *)
Lemma num_digits n : (0 <= n)%Z -> forallb is_digit (num n) = true.
Proof.
  intros Hn. unfold num. destruct n as [|p|p]; [done| |lia].
  change (pretty (Z.pos p)) with (pretty_N_go (N.pos p) "").
  by apply pretty_N_go_digits.
Qed.

Lemma js_inj a b : js a = js b -> a = b.
Proof.
  revert b. induction a as [|c a IH]; intros [|d b]; unfold js; cbn; try done.
  fold js. intros [= Hc H]. apply IH in H as ->. f_equal.
  rewrite <- (Ascii.ascii_N_embedding c), <- (Ascii.ascii_N_embedding d). f_equal. lia.
Qed.

Lemma num_inj n m : num n = num m -> n = m.
Proof. intros H%js_inj. by apply (inj pretty). Qed.

(** Text split at its first unit that fails [p] is split uniquely. *)
Lemma split_at_first (p : Z -> bool) a b x y r s :
  forallb p a = true -> forallb p b = true -> p x = false -> p y = false ->
  a ++ x :: r = b ++ y :: s -> a = b /\ x = y /\ r = s.
Proof.
  revert b. induction a as [|c a IH]; intros [|d b] Ha Hb Hx Hy; cbn in *.
  - by intros [= -> ->].
  - intros [= -> ?]. by rewrite Hx in Hb.
  - intros [= -> ?]. by rewrite Hy in Ha.
  - apply andb_true_iff in Ha as [_ Ha], Hb as [_ Hb].
    intros [= -> H]. by destruct (IH b Ha Hb Hx Hy H) as (-> & -> & ->).
Qed.

(** A loop counting down is a right fold: it starts at the largest index. *)
Lemma foldr_seq_inv {A} (P : nat -> A -> Prop) (f : nat -> A -> A) a b n :
  P (b + n)%nat a -> (∀ i x, (b <= i < b + n)%nat -> P (S i) x -> P i (f i x)) ->
  P b (foldr f a (seq b n)).
Proof.
  revert b. induction n as [|n IH]; intros b Ha Hf; cbn.
  - by rewrite Nat.add_0_r in Ha.
  - apply Hf; [lia|]. apply IH; [by rewrite Nat.add_succ_comm|]. intros i x Hi. apply Hf. lia.
Qed.

Lemma slice_between {A} (s : list A) i j : (i <= j)%nat -> (j <= length s)%nat ->
  s = take i s ++ slice s i j ++ drop j s.
Proof.
  intros Hi Hj. unfold slice. rewrite <- (take_drop i s) at 1. f_equal.
  rewrite <- (take_drop (j - i) (drop i s)) at 1. f_equal. rewrite drop_drop. f_equal. lia.
Qed.

(** ** Bit fields *)

(** Bits placed above [s] do not meet a value below [2 ^ s]. *)
Lemma lor_shiftl a x s : (0 <= s)%Z -> (0 <= a < 2 ^ s)%Z -> Z.lor a (Z.shiftl x s) = (a + x * 2 ^ s)%Z.
Proof.
  intros Hs Ha. rewrite Z.shiftl_mul_pow2 by done.
  assert (Z.land a (x * 2 ^ s) = 0)%Z as H.
  { apply Z.bits_inj'. intros n Hn. rewrite Z.land_spec, Z.bits_0.
    destruct (Z.ltb_spec n s).
    - by rewrite Z.mul_pow2_bits_low, andb_false_r.
    - replace (Z.testbit a n) with false; [done|].
      symmetry. destruct (decide (a = 0)%Z) as [->|]; [apply Z.bits_0|].
      apply Z.bits_above_log2; [lia|].
      assert (Z.log2 a < s)%Z; [|lia]. apply Z.log2_lt_pow2; lia. }
  pose proof (Z.add_lor_land a (x * 2 ^ s)). lia.
Qed.

(** The low [k] bits and the rest. *)
Lemma land_low n k : (0 <= k)%Z -> Z.land n (2 ^ k - 1) = (n mod 2 ^ k)%Z.
Proof. intros. rewrite <- Z.land_ones by done. f_equal. rewrite Z.ones_equiv. lia. Qed.
