(* ===== verification/BackupCodes.v ===== *)
(** Backup-code input parsing ([packages/shared/src/utils/backupCodes.ts]).

    The five segmenters, the array-literal tokenizer, the per-item validation, the
    entry point [parseBackupCodes] with its [auto] detection, [mergeBackupCodes] and
    [formatBackupCodes].  Positions are code-unit offsets into the original input.
    Every scanning loop carries a fuel argument; [None] is "fuel exhausted", and
    [parseBackupCodes_total] shows that the fuel given, one more than the input's
    length, always suffices. *)
From S2P Require Import Prelude.
#[local] Open Scope Z_scope.
#[local] Coercion Z.of_nat : nat >-> Z.

(** * Formats, issues, results *)

Inductive BackupCodesFormat :=
  | Fmt_array | Fmt_comma | Fmt_space | Fmt_newline | Fmt_single.

(** A format a caller may ask for: one of the five, or [auto]. *)
Inductive BackupCodesInputFormat :=
  | In_format (f : BackupCodesFormat)
  | In_auto.

Inductive BackupCodesErrorCode :=
  | INPUT_TOO_LONG
  | TOO_MANY_CODES
  | EMPTY_ITEM
  | CODE_CONTAINS_WHITESPACE
  | CODE_INVISIBLE_CHAR
  | CODE_CONTAINS_BRACKET
  | CODE_CONTAINS_COMMA
  | CODE_CONTAINS_QUOTE
  | CODE_INVALID_CHAR
  | CODE_NO_ALPHANUMERIC
  | CODE_TOO_LONG
  | ARRAY_MISSING_OPEN
  | ARRAY_UNCLOSED
  | ARRAY_MISSING_COMMA
  | ARRAY_MISSING_QUOTE
  | ARRAY_UNEXPECTED_CHAR
  | ARRAY_UNTERMINATED_STRING
  | ARRAY_EMPTY_ELEMENT
  | ARRAY_UNQUOTED_VALUE
  | ARRAY_NESTED_ARRAY
  | ARRAY_OBJECT_ELEMENT
  | ARRAY_TEMPLATE_SUBSTITUTION
  | ARRAY_BAD_ESCAPE
  | ARRAY_TRAILING_CONTENT.

Record BackupCodesIssue := Issue {
  i_code : BackupCodesErrorCode;
  i_message : jsstr;
  i_hint : option jsstr;
  i_index : Z;
  i_length : Z;
  i_itemNumber : option Z
}.

Inductive BackupCodesParseResult :=
  | ParseOk (codes : list jsstr) (format : BackupCodesFormat) (detected : bool)
  | ParseFailed (format : BackupCodesFormat) (detected : bool)
      (issue : BackupCodesIssue) (issues : list BackupCodesIssue).

Record Limits := mkLimits { max : Z; maxCodeLength : Z; maxInputLength : Z }.

Definition MAX_LOGIN_BACKUP_CODES : Z := 50.
Definition MAX_LOGIN_BACKUP_CODE_LENGTH : Z := 128.
Definition MAX_LOGIN_BACKUP_CODES_INPUT_LENGTH : Z := 20000.

Record ParseBackupCodesOptions := mkOptions {
  o_format : option BackupCodesInputFormat;
  o_max : option Z;
  o_maxCodeLength : option Z;
  o_maxInputLength : option Z
}.

(** * Character rules *)

Definition CODE_PUNCTUATION : jsstr := js "-_.+/=".

(** [/[A-Za-z0-9]/] on one unit, and [test] of it on a string: some unit matches. *)
Definition is_alnum (c : Z) : bool :=
  ((65 <=? c) && (c <=? 90)) || ((97 <=? c) && (c <=? 122)) || ((48 <=? c) && (c <=? 57)).
Definition ALPHANUMERIC (s : jsstr) : bool := existsb is_alnum s.

Definition INVISIBLE (c : Z) : bool :=
  ((0 <=? c) && (c <=? 8)) || ((14 <=? c) && (c <=? 31)) || ((127 <=? c) && (c <=? 159))
  || (c =? 173) || ((8203 <=? c) && (c <=? 8207)) || (c =? 8288).

Definition BRACKETS : jsstr := js "[]{}".
Definition QUOTES : jsstr := [34; 39; 96].

Definition PUNCTUATION_NAMES (c : Z) : option jsstr :=
  match c with
  | 59 => Some (js "a semicolon (;)")
  | 58 => Some (js "a colon (:)")
  | 124 => Some (js "a vertical bar (|)")
  | 92 => Some (js "a backslash (\)")
  | 40 => Some (js "a parenthesis")
  | 41 => Some (js "a parenthesis")
  | 60 => Some (js "an angle bracket")
  | 62 => Some (js "an angle bracket")
  | 64 => Some (js "an at sign (@)")
  | 35 => Some (js "a number sign (#)")
  | 36 => Some (js "a dollar sign ($)")
  | 37 => Some (js "a percent sign (%)")
  | 94 => Some (js "a caret (^)")
  | 38 => Some (js "an ampersand (&)")
  | 42 => Some (js "an asterisk (*)")
  | 33 => Some (js "an exclamation mark (!)")
  | 63 => Some (js "a question mark (?)")
  | 126 => Some (js "a tilde (~)")
  | _ => None
  end.

Definition FORMAT_SWITCH_HINT (f : BackupCodesFormat) : jsstr :=
  match f with
  | Fmt_array => jsq "If your codes are in a list like [^code1^, ^code2^], choose the array format."
  | Fmt_comma => js "If your codes are separated by commas, choose the comma-separated format."
  | Fmt_space => js "If your codes are separated by spaces, choose the space-separated format."
  | Fmt_newline => js "If each code is on its own line, choose the one-code-per-line format."
  | Fmt_single => js "If you have only one code, choose the single-code format."
  end.

(** The loop of [isValidBackupCode] over the code points of [value]. *)
Fixpoint valid_loop (chars : list jsstr) (hasAlphanumeric : bool) : bool :=
  match chars with
  | [] => hasAlphanumeric
  | ch :: rest =>
      if ALPHANUMERIC ch then valid_loop rest true
      else
        match ch with
        | [c] => if includes CODE_PUNCTUATION c then valid_loop rest hasAlphanumeric else false
        | _ => false (* a surrogate pair occurs in no ASCII string *)
        end
  end.

Definition isValidBackupCode (value : jsstr) (maxLength : Z) : bool :=
  if (length value =? 0) || (maxLength <? length value) then false
  else valid_loop (code_points value) false.

(** * Issue construction *)

Definition makeIssue (code : BackupCodesErrorCode) (message : jsstr) (index len : Z)
    (itemNumber : option Z) (hint : option jsstr) : BackupCodesIssue :=
  Issue code message hint index len itemNumber.

Definition itemLabel (format : BackupCodesFormat) (itemNumber : Z) : jsstr :=
  match format with
  | Fmt_single => js "The code"
  | _ => js "Item " ++ num itemNumber
  end.

(** * Segmentation *)

Record ParsedItem := Item {
  value : jsstr;
  start : nat;
  len : nat;
  spanExact : bool;
  itemNumber : Z
}.

Record Segmentation := Seg { items : list ParsedItem; issues : list BackupCodesIssue }.

Definition tooManyCodesIssue (item : ParsedItem) (max : Z) : BackupCodesIssue :=
  makeIssue TOO_MANY_CODES
    (js "You can store at most " ++ num max ++ js " backup codes on one login. Item "
       ++ num (max + 1) ++ js " and anything after it must be removed.")
    (start item) (len item) (Some (max + 1)) None.

Definition segmentSingle (input : jsstr) (max : Z) : Segmentation :=
  let start := (length input - length (trimStart input))%nat in
  let value := trim input in
  let item := Item value start (length value) true 1 in
  if max <? 1 then Seg [] [tooManyCodesIssue item max] else Seg [item] [].

Definition is_line_break (c : Z) : bool := (c =? 10) || (c =? 13).

Definition nextLineBreak (input : jsstr) (from : nat) : option nat :=
  find_from is_line_break input from.

Fixpoint segmentNewline_loop (fuel : nat) (input : jsstr) (max : Z) (pos : nat)
    (items : list ParsedItem) : option Segmentation :=
  match fuel with
  | O => None
  | S fuel =>
      let brk := nextLineBreak input pos in
      let stop := match brk with None => length input | Some b => b end in
      let raw := slice input pos stop in
      let lead := (length raw - length (trimStart raw))%nat in
      let value := trim raw in
      let item := Item value (pos + lead) (length value) true (length items + 1) in
      if (0 <? length value) && (max <=? length items)
      then Some (Seg items [tooManyCodesIssue item max])
      else
        let items' := if 0 <? length value then items ++ [item] else items in
        match brk with
        | None => Some (Seg items' [])
        | Some b =>
            let pos' :=
              if bool_decide (charAt input b = Some 13) && bool_decide (charAt input (b + 1) = Some 10)
              then (b + 2)%nat else (b + 1)%nat in
            segmentNewline_loop fuel input max pos' items'
        end
  end.

Definition segmentNewline (input : jsstr) (max : Z) : option Segmentation :=
  segmentNewline_loop (S (length input)) input max 0 [].

Fixpoint segmentComma_loop (fuel : nat) (input : jsstr) (max : Z) (trailingComma : bool)
    (pos : nat) (itemNumber : Z) (items : list ParsedItem) (issues : list BackupCodesIssue)
    : option Segmentation :=
  match fuel with
  | O => None
  | S fuel =>
      let comma := indexOf 44 input pos in
      let stop := match comma with None => length input | Some c => c end in
      let raw := slice input pos stop in
      let lead := (length raw - length (trimStart raw))%nat in
      let value := trim raw in
      let itemNumber := itemNumber + 1 in
      let next items issues :=
        match comma with
        | None => Some (Seg items issues)
        | Some c => segmentComma_loop fuel input max trailingComma (c + 1) itemNumber items issues
        end in
      if length value =? 0 then
        let commaIndex := if itemNumber =? 1 then Z.of_nat stop else pos - 1 in
        let isTrailing := trailingComma && bool_decide (comma = None) in
        let hint :=
          if isTrailing then js "Remove the trailing comma at the end."
          else if itemNumber =? 1
          then js "The list starts with a comma. Remove it, or put a code before it."
          else js "There are two commas in a row. Remove the extra one, or put the missing code between them." in
        next items (issues ++ [makeIssue EMPTY_ITEM (js "Item " ++ num itemNumber ++ js " is empty.")
                                 commaIndex 1 (Some itemNumber) (Some hint)])
      else
        let item := Item value (pos + lead) (length value) true itemNumber in
        if max <=? length items then Some (Seg items (issues ++ [tooManyCodesIssue item max]))
        else next (items ++ [item]) issues
  end.

Definition segmentComma (input : jsstr) (max : Z) : option Segmentation :=
  let trailingComma := bool_decide (last (trimEnd input) = Some 44) in
  segmentComma_loop (S (length input)) input max trailingComma 0 0 [] [].

Fixpoint segmentSpace_loop (fuel : nat) (input : jsstr) (max : Z) (pos : nat)
    (items : list ParsedItem) : option Segmentation :=
  match fuel with
  | O => None
  | S fuel =>
      match charAt input pos with
      | None => Some (Seg items [])
      | Some c =>
          if is_ws c then segmentSpace_loop fuel input max (pos + 1) items
          else
            let stop := scan_while (λ c, negb (is_ws c)) input pos in
            let item := Item (slice input pos stop) pos (stop - pos) true (length items + 1) in
            if max <=? length items then Some (Seg items [tooManyCodesIssue item max])
            else segmentSpace_loop fuel input max stop (items ++ [item])
      end
  end.

Definition segmentSpace (input : jsstr) (max : Z) : option Segmentation :=
  segmentSpace_loop (S (length input)) input max 0 [].

(** * The array-literal tokenizer *)

Definition is_hex (c : Z) : bool :=
  ((48 <=? c) && (c <=? 57)) || ((97 <=? c) && (c <=? 102)) || ((65 <=? c) && (c <=? 70)).

(** [/^[0-9a-fA-F]+$/]. *)
Definition HEX (s : jsstr) : bool := (0 <? length s) && forallb is_hex s.

(** [/^[0-9]$/] on the result of a [charAt]. *)
Definition DIGIT (c : option Z) : bool :=
  match c with Some c => (48 <=? c) && (c <=? 57) | None => false end.

Definition hex_value (c : Z) : Z :=
  if c <=? 57 then c - 48 else if c <=? 70 then c - 55 else c - 87.

(** [parseInt(digits, 16)] on a string of hex digits. *)
Definition parse_hex (digits : jsstr) : Z := fold_left (λ acc c, 16 * acc + hex_value c) digits 0.

Definition BAD_ESCAPE_HINT : jsstr := js "Backup codes do not need escapes. Remove the backslash.".

Inductive Literal :=
  | LiteralOk (value : jsstr) (stop : nat)
  | LiteralFailed (issue : BackupCodesIssue).

Inductive Escape :=
  | EscapeOk (text : jsstr) (next : nat)
  | EscapeFailed (issue : BackupCodesIssue).

Definition unterminated (start stop : Z) (itemNumber : Z) (atLineBreak : bool) : BackupCodesIssue :=
  makeIssue ARRAY_UNTERMINATED_STRING
    (if atLineBreak
     then js "Item " ++ num itemNumber ++ js " is missing its closing quote before the end of the line."
     else js "Item " ++ num itemNumber ++ js " is missing its closing quote.")
    start (Z.max 1 (stop - start)) (Some itemNumber)
    (Some (if atLineBreak
           then js "A quoted code cannot be split across two lines. Add the closing quote at the end of the line."
           else js "Add a quote at the end of item " ++ num itemNumber ++ js ", then close the list with ] .")).

Definition badEscape (message : jsstr) (index len : Z) (itemNumber : Z) (hint : option jsstr)
    : BackupCodesIssue :=
  makeIssue ARRAY_BAD_ESCAPE message index len (Some itemNumber) hint.

(** [s.indexOf] for the closing brace of [\u{...}], then the digits between the braces. *)
Definition readBracedEscape (src : jsstr) (backslash : nat) (itemNumber : Z) : Escape :=
  let incomplete :=
    EscapeFailed (badEscape
      (js "Item " ++ num itemNumber
         ++ js " has an incomplete \u escape. It needs four hex digits (\u0041) or braces (\u{1F600}).")
      backslash 2 itemNumber None) in
  match indexOf 125 src (backslash + 3) with
  | None => incomplete
  | Some close =>
      let digits := slice src (backslash + 3) close in
      if (length digits =? 0) || (6 <? length digits) || negb (HEX digits) then incomplete
      else
        let point := parse_hex digits in
        if 1114111 <? point then
          EscapeFailed (badEscape
            (js "Item " ++ num itemNumber
               ++ js " has a \u{ } escape above the largest code point (10FFFF).")
            backslash (close + 1 - backslash) itemNumber None)
        else EscapeOk (fromCodePoint point) (close + 1)
  end.

Definition readUnicodeEscape (src : jsstr) (backslash : nat) (itemNumber : Z) : Escape :=
  if bool_decide (charAt src (backslash + 2) = Some 123)
  then readBracedEscape src backslash itemNumber
  else
    let digits := slice src (backslash + 2) (backslash + 6) in
    if (length digits <? 4) || negb (HEX digits) then
      EscapeFailed (badEscape
        (js "Item " ++ num itemNumber
           ++ js " has an incomplete \u escape. It needs four hex digits (\u0041) or braces (\u{1F600}).")
        backslash (2 + length digits) itemNumber None)
    else EscapeOk [parse_hex digits] (backslash + 6).

Definition readHexEscape (src : jsstr) (backslash : nat) (itemNumber : Z) : Escape :=
  let digits := slice src (backslash + 2) (backslash + 4) in
  if (length digits <? 2) || negb (HEX digits) then
    EscapeFailed (badEscape
      (js "Item " ++ num itemNumber
         ++ js " has an incomplete \x escape. It needs exactly two hex digits, like \x41.")
      backslash (2 + length digits) itemNumber None)
  else EscapeOk [parse_hex digits] (backslash + 4).

Definition readEscape (src : jsstr) (backslash : nat) (itemNumber : Z) : Escape :=
  match charAt src (backslash + 1) with
  | None => EscapeFailed (unterminated backslash (length src) itemNumber false)
  | Some ch =>
      if (ch =? 10) || (ch =? 8232) || (ch =? 8233) then EscapeOk [] (backslash + 2)
      else if ch =? 13 then
        EscapeOk [] (if bool_decide (charAt src (backslash + 2) = Some 10)
                     then (backslash + 3)%nat else (backslash + 2)%nat)
      else if ch =? 110 then EscapeOk [10] (backslash + 2)
      else if ch =? 116 then EscapeOk [9] (backslash + 2)
      else if ch =? 114 then EscapeOk [13] (backslash + 2)
      else if ch =? 98 then EscapeOk [8] (backslash + 2)
      else if ch =? 102 then EscapeOk [12] (backslash + 2)
      else if ch =? 118 then EscapeOk [11] (backslash + 2)
      else if (ch =? 48) && negb (DIGIT (charAt src (backslash + 2)))
      then EscapeOk [0] (backslash + 2)
      else if DIGIT (Some ch) then
        EscapeFailed (badEscape
          (js "Item " ++ num itemNumber
             ++ js " contains a backslash followed by a digit, which is not a valid escape.")
          backslash 2 itemNumber (Some BAD_ESCAPE_HINT))
      else if ch =? 120 then readHexEscape src backslash itemNumber
      else if ch =? 117 then readUnicodeEscape src backslash itemNumber
      else EscapeOk [ch] (backslash + 2)
  end.

Fixpoint readStringLiteral_loop (fuel : nat) (src : jsstr) (start : nat) (itemNumber : Z)
    (quote : Z) (out : jsstr) (i : nat) : option Literal :=
  match fuel with
  | O => None
  | S fuel =>
      match charAt src i with
      | None => Some (LiteralFailed (unterminated start (length src) itemNumber false))
      | Some ch =>
          let isTemplate := quote =? 96 in
          if ch =? quote then Some (LiteralOk out (i + 1))
          else if ch =? 92 then
            match readEscape src i itemNumber with
            | EscapeFailed issue => Some (LiteralFailed issue)
            | EscapeOk text next =>
                readStringLiteral_loop fuel src start itemNumber quote (out ++ text) next
            end
          else if negb isTemplate && ((ch =? 10) || (ch =? 13))
          then Some (LiteralFailed (unterminated start i itemNumber true))
          else if isTemplate && (ch =? 36) && bool_decide (charAt src (i + 1) = Some 123)
          then Some (LiteralFailed
                 (makeIssue ARRAY_TEMPLATE_SUBSTITUTION
                    (js "Item " ++ num itemNumber
                       ++ js " uses a backtick template with a substitution in it, which is not supported. Use plain quotes.")
                    i 2 (Some itemNumber) None))
          else readStringLiteral_loop fuel src start itemNumber quote (out ++ [ch]) (i + 1)
      end
  end.

Definition readStringLiteral (src : jsstr) (start : nat) (itemNumber : Z) : option Literal :=
  match charAt src start with
  | Some quote =>
      readStringLiteral_loop (S (length src)) src start itemNumber quote [] (start + 1)
  | None => None (* never called past the end *)
  end.

Definition bareTokenLength (src : jsstr) (pos : nat) : Z :=
  let stop := scan_while (λ ch, negb ((ch =? 44) || (ch =? 93) || is_ws ch)) src pos in
  Z.max 1 (stop - pos).

Definition skipWhitespace (src : jsstr) (from : nat) : nat := scan_while is_ws src from.

(** What follows the closing bracket. *)
Definition afterArray (input : jsstr) (items : list ParsedItem) (pos : nat) : Segmentation :=
  let pos := skipWhitespace input pos in
  if (pos <? length input)%nat then
    Seg items [makeIssue ARRAY_TRAILING_CONTENT
                 (js "There is extra text after the closing ] . Remove anything after ] .")
                 pos (length input - pos) None None]
  else Seg items [].

(** The issue for a unit [ch] where a comma or the closing bracket was expected. *)
Definition separatorIssue (ch : Z) (n : Z) (previousHeldSeparator : bool) (pos : nat)
    : BackupCodesIssue :=
  if includes QUOTES ch then
    makeIssue ARRAY_MISSING_COMMA
      (js "Items " ++ num n ++ js " and " ++ num (n + 1)
         ++ js " are not separated. Put a comma (,) between them.")
      pos 1 (Some n) None
  else if previousHeldSeparator then
    makeIssue ARRAY_MISSING_QUOTE
      (js "Item " ++ num n
         ++ js " is missing its closing quote, so the text after it was read as part of item "
         ++ num n ++ js ".")
      pos 1 (Some n) (Some (js "Add the missing quote at the end of item " ++ num n ++ js "."))
  else
    makeIssue ARRAY_UNEXPECTED_CHAR
      (js "Unexpected text after item " ++ num n
         ++ js ". Items must be separated by a comma (,) and the list must end with ] .")
      pos 1 (Some n) None.

(** The issue for a unit [ch] that cannot start an element, or [None] for a quote. *)
Definition elementIssue (input : jsstr) (ch : Z) (itemNumber : Z) (pos : nat)
    : option BackupCodesIssue :=
  if ch =? 44 then
    Some (makeIssue ARRAY_EMPTY_ELEMENT
            (js "Item " ++ num itemNumber ++ js " is empty (two commas in a row).")
            pos 1 (Some itemNumber) (Some (js "Remove the extra comma.")))
  else if ch =? 91 then
    Some (makeIssue ARRAY_NESTED_ARRAY
            (js "Item " ++ num itemNumber
               ++ js " is a list inside the list. Use one flat list of quoted codes.")
            pos 1 (Some itemNumber) None)
  else if ch =? 123 then
    Some (makeIssue ARRAY_OBJECT_ELEMENT
            (js "Item " ++ num itemNumber
               ++ js " is an object. Use one flat list of quoted codes.")
            pos 1 (Some itemNumber) None)
  else if negb (includes QUOTES ch) then
    Some (makeIssue ARRAY_UNQUOTED_VALUE
            (js "Item " ++ num itemNumber
               ++ jsq " is not wrapped in quotes. Every code must be quoted, like ^a1b2c3^.")
            pos (bareTokenLength input pos) (Some itemNumber)
            (Some (js "Values such as 123 or true are not accepted. Put quotes around the value.")))
  else None.

Fixpoint segmentArray_loop (fuel : nat) (input : jsstr) (max : Z) (pos : nat)
    (items : list ParsedItem) (expectElement previousHeldSeparator : bool) : option Segmentation :=
  match fuel with
  | O => None
  | S fuel =>
      let pos := skipWhitespace input pos in
      match charAt input pos with
      | None =>
          Some (Seg items [makeIssue ARRAY_UNCLOSED
                             (js "The list is missing its closing ] . Add ] at the end.")
                             (length input) 0 None None])
      | Some ch =>
          if ch =? 93 then Some (afterArray input items (pos + 1))
          else if negb expectElement then
            if ch =? 44
            then segmentArray_loop fuel input max (pos + 1) items true previousHeldSeparator
            else Some (Seg items [separatorIssue ch (length items) previousHeldSeparator pos])
          else
            let itemNumber := length items + 1 in
            match elementIssue input ch itemNumber pos with
            | Some issue => Some (Seg items [issue])
            | None =>
                match readStringLiteral input pos itemNumber with
                | None => None
                | Some (LiteralFailed issue) => Some (Seg items [issue])
                | Some (LiteralOk value stop) =>
                    let item := Item value pos (stop - pos) false itemNumber in
                    if max <=? length items
                    then Some (Seg items [tooManyCodesIssue item max])
                    else segmentArray_loop fuel input max stop (items ++ [item]) false
                           (includes value 44 || existsb is_ws value)
                end
            end
      end
  end.

Definition segmentArray (input : jsstr) (max : Z) : option Segmentation :=
  let pos := skipWhitespace input 0 in
  if bool_decide (charAt input pos = Some 91)
  then segmentArray_loop (S (length input)) input max (pos + 1) [] true false
  else Some (Seg [] [makeIssue ARRAY_MISSING_OPEN
                       (jsq "A list must start with [ , like [^code1^, ^code2^].")
                       pos 0 None
                       (Some (js "If your codes are not in a list, choose a different format."))]).

Definition segment (input : jsstr) (format : BackupCodesFormat) (limits : Limits)
    : option Segmentation :=
  match format with
  | Fmt_array => segmentArray input (max limits)
  | Fmt_comma => segmentComma input (max limits)
  | Fmt_space => segmentSpace input (max limits)
  | Fmt_newline => segmentNewline input (max limits)
  | Fmt_single => Some (segmentSingle input (max limits))
  end.

(** * Per-item validation *)

Definition findChar (value : jsstr) (test : Z -> bool) : option nat := find_from test value 0.

(** The index and length an issue about [len] units at [offset] of the item reports. *)
Definition item_span (item : ParsedItem) (offset : nat) (n : Z) : Z * Z :=
  if spanExact item then (start item + offset, n) else (Z.of_nat (start item), Z.of_nat (len item)).

Definition itemIssue (item : ParsedItem) (offset : nat) (code : BackupCodesErrorCode)
    (message : jsstr) (hint : option jsstr) : BackupCodesIssue :=
  let '(index, n) := item_span item offset 1 in
  makeIssue code message index n (Some (itemNumber item)) hint.

Definition not_code_char (ch : Z) : bool := negb (is_alnum ch) && negb (includes CODE_PUNCTUATION ch).

Definition classifyItem (item : ParsedItem) (format : BackupCodesFormat) (limits : Limits)
    : option BackupCodesIssue :=
  let v := value item in
  let label := itemLabel format (itemNumber item) in
  match findChar v is_ws with
  | Some whitespace =>
      let ch := default 0 (charAt v whitespace) in
      let isLineBreak := (ch =? 10) || (ch =? 13) in
      let hint :=
        if isLineBreak then FORMAT_SWITCH_HINT Fmt_newline
        else if negb (ch =? 32) && negb (ch =? 9)
        then js "That looks like a non-breaking space left behind by copy and paste. Delete it."
        else FORMAT_SWITCH_HINT Fmt_space in
      Some (itemIssue item whitespace CODE_CONTAINS_WHITESPACE
              (if isLineBreak
               then label ++ js " contains a line break. A backup code cannot span two lines."
               else label ++ js " contains a space. A backup code cannot contain spaces.")
              (Some hint))
  | None =>
  match findChar v INVISIBLE with
  | Some invisible =>
      Some (itemIssue item invisible CODE_INVISIBLE_CHAR
              (label ++ js " contains an invisible character.")
              (Some (js "Copy and paste often carries hidden characters. Retype "
                       ++ toLowerCase label ++ js " by hand.")))
  | None =>
  match findChar v (includes BRACKETS) with
  | Some bracket =>
      Some (itemIssue item bracket CODE_CONTAINS_BRACKET
              (label ++ js " contains a bracket. Brackets are not part of a backup code.")
              (Some (FORMAT_SWITCH_HINT Fmt_array)))
  | None =>
  match indexOf 44 v 0 with
  | Some comma =>
      Some (itemIssue item comma CODE_CONTAINS_COMMA
              (label ++ js " contains a comma (,). A backup code cannot contain a comma.")
              (Some (if comma =? length v - 1
                     then js "Remove the comma at the end of " ++ toLowerCase label ++ js "."
                     else FORMAT_SWITCH_HINT Fmt_comma)))
  | None =>
  match findChar v (includes QUOTES) with
  | Some quote =>
      Some (itemIssue item quote CODE_CONTAINS_QUOTE
              (label ++ js " contains a quote character. Quotes are not part of a backup code.")
              (Some (FORMAT_SWITCH_HINT Fmt_array)))
  | None =>
  match findChar v not_code_char with
  | Some invalid =>
      let ch := default 0 (charAt v invalid) in
      Some (itemIssue item invalid CODE_INVALID_CHAR
              (match PUNCTUATION_NAMES ch with
               | None => label ++ js " contains a character that is not allowed. Backup codes may only contain letters, digits and - _ . + / =."
               | Some named => label ++ js " contains " ++ named ++ js ". Backup codes may only contain letters, digits and - _ . + / =."
               end)
              (if (ch =? 59) && (invalid =? length v - 1)
               then Some (js "Remove the semicolon at the end of " ++ toLowerCase label
                            ++ js ", or replace your semicolons with commas and choose the comma-separated format.")
               else None))
  | None =>
  if negb (ALPHANUMERIC v) then
    Some (makeIssue CODE_NO_ALPHANUMERIC
            (label ++ js " is not a backup code: it has no letters or digits.")
            (start item) (len item) (Some (itemNumber item))
            (Some (js "If that is a leftover dash or separator, delete it.")))
  else if maxCodeLength limits <? length v then
    Some (makeIssue CODE_TOO_LONG
            (label ++ js " is longer than " ++ num (maxCodeLength limits)
               ++ js " characters, which is longer than any backup code.")
            (start item) (len item) (Some (itemNumber item))
            (Some (js "Check that two codes did not run together, and that nothing extra was pasted.")))
  else None
  end end end end end end.

(** * Entry points *)

Definition parseWithFormat (input : jsstr) (format : BackupCodesFormat) (detected : bool)
    (limits : Limits) : option BackupCodesParseResult :=
  if bool_decide (trim input = []) then Some (ParseOk [] format detected)
  else
    seg ← segment input format limits;
    let found :=
      match issues seg with
      | [] => omap (λ item, classifyItem item format limits) (items seg)
      | _ => issues seg
      end in
    let sorted := sort_by i_index found in
    Some match sorted with
         | primary :: _ => ParseFailed format detected primary sorted
         | [] => ParseOk (map value (items seg)) format detected
         end.

(** Horizontal whitespace, [/[^\S\n\r]/]. *)
Definition is_horizontal_ws (c : Z) : bool := is_ws c && negb (is_line_break c).

(** The most likely candidate and the others. *)
Definition detectFormats (trimmed : jsstr) : BackupCodesFormat * list BackupCodesFormat :=
  let hasNewline := existsb is_line_break trimmed in
  let hasComma := includes trimmed 44 in
  let hasSpace := existsb is_horizontal_ws trimmed in
  let rest_space := if hasSpace then [Fmt_space] else [] in
  if hasNewline then (Fmt_newline, (if hasComma then [Fmt_comma] else []) ++ rest_space)
  else if hasComma then (Fmt_comma, rest_space)
  else if hasSpace then (Fmt_space, [])
  else (Fmt_single, []).

Definition is_ok (r : BackupCodesParseResult) : bool :=
  match r with ParseOk _ _ _ => true | ParseFailed _ _ _ _ => false end.

(** The loop over the remaining candidates: the first success, else [firstResult]. *)
Fixpoint firstSuccess (input : jsstr) (limits : Limits) (others : list BackupCodesFormat)
    (firstResult : BackupCodesParseResult) : option BackupCodesParseResult :=
  match others with
  | [] => Some firstResult
  | candidate :: others =>
      next ← parseWithFormat input candidate true limits;
      if is_ok next then Some next else firstSuccess input limits others firstResult
  end.

Definition limits_of (options : ParseBackupCodesOptions) : Limits :=
  mkLimits (default MAX_LOGIN_BACKUP_CODES (o_max options))
    (default MAX_LOGIN_BACKUP_CODE_LENGTH (o_maxCodeLength options))
    (default MAX_LOGIN_BACKUP_CODES_INPUT_LENGTH (o_maxInputLength options)).

Definition inputTooLong (limits : Limits) : BackupCodesIssue :=
  makeIssue INPUT_TOO_LONG
    (js "This is too long to be a list of backup codes. Keep it under "
       ++ num (maxInputLength limits) ++ js " characters.")
    (maxInputLength limits) 0 None
    (Some (js "Paste only the codes, not the whole page they came from.")).

Definition parseBackupCodes (input : jsstr) (options : ParseBackupCodesOptions)
    : option BackupCodesParseResult :=
  let requested := default In_auto (o_format options) in
  let limits := limits_of options in
  if maxInputLength limits <? length input then
    let issue := inputTooLong limits in
    Some match requested with
         | In_auto => ParseFailed Fmt_single true issue [issue]
         | In_format f => ParseFailed f false issue [issue]
         end
  else
    match requested with
    | In_format f => parseWithFormat input f false limits
    | In_auto =>
        let trimmed := trim input in
        if bool_decide (trimmed = []) then Some (ParseOk [] Fmt_single true)
        else if starts_with trimmed [91] then parseWithFormat input Fmt_array true limits
        else
          let '(first, others) := detectFormats trimmed in
          firstResult ← parseWithFormat input first true limits;
          if is_ok firstResult then Some firstResult
          else firstSuccess input limits others firstResult
    end.

Record MergeBackupCodesResult := Merged {
  m_codes : list jsstr;
  m_addedCount : nat;
  m_duplicateCount : nat;
  m_overflowCount : nat
}.

(** The loop of [mergeBackupCodes]; [seen] is the [Set]. *)
Fixpoint merge_loop (max : Z) (incoming : list jsstr) (codes : list jsstr) (seen : gset jsstr)
    (added duplicate overflow : nat) : MergeBackupCodesResult :=
  match incoming with
  | [] => Merged codes added duplicate overflow
  | code :: rest =>
      if decide (code ∈ seen) then merge_loop max rest codes seen added (S duplicate) overflow
      else if max <=? length codes then merge_loop max rest codes seen added duplicate (S overflow)
      else merge_loop max rest (codes ++ [code]) ({[code]} ∪ seen) (S added) duplicate overflow
  end.

Definition mergeBackupCodes (existing incoming : list jsstr) (max : Z) : MergeBackupCodesResult :=
  merge_loop max incoming existing (list_to_set existing) 0 0 0.

(** ** [JSON.stringify] on a string (ECMA-262, QuoteJSONString) *)

Definition hex_digit (n : Z) : Z := if n <? 10 then 48 + n else 87 + n.

Definition unicode_escape (c : Z) : jsstr :=
  [92; 117; hex_digit (Z.land (Z.shiftr c 12) 15); hex_digit (Z.land (Z.shiftr c 8) 15);
   hex_digit (Z.land (Z.shiftr c 4) 15); hex_digit (Z.land c 15)].

Definition quote_unit (c : Z) : jsstr :=
  if c =? 8 then [92; 98] else if c =? 9 then [92; 116] else if c =? 10 then [92; 110]
  else if c =? 12 then [92; 102] else if c =? 13 then [92; 114]
  else if c =? 34 then [92; 34] else if c =? 92 then [92; 92]
  else if c <? 32 then unicode_escape c
  else [c].

(** One code point: a lone surrogate is escaped, a pair is copied. *)
Definition quote_point (cp : jsstr) : jsstr :=
  match cp with
  | [c] => if is_high c || is_low c then unicode_escape c else quote_unit c
  | _ => cp
  end.

Definition json_stringify (s : jsstr) : jsstr :=
  [34] ++ concat (map quote_point (code_points s)) ++ [34].

Definition formatBackupCodes (codes : list jsstr) (format : BackupCodesFormat) : jsstr :=
  match codes with
  | [] => []
  | _ =>
      match format with
      | Fmt_array => [91] ++ join (js ", ") (map json_stringify codes) ++ [93]
      | Fmt_comma => join (js ", ") codes
      | Fmt_space => join (js " ") codes
      | Fmt_newline | Fmt_single => join [10] codes
      end
  end.
