(* ===== verification/BackupCodesSpec.v ===== *)
(** What backup-code parsing guarantees: it always answers, accepts exactly the valid
    codes, reports spans inside the input in order, inverts [formatBackupCodes], and
    says nothing that depends on the letters and digits of a code. *)
From S2P Require Import Prelude BackupCodes.
#[local] Open Scope Z_scope.
#[local] Coercion Z.of_nat : nat >-> Z.

(** * Validity of one code *)

Definition code_char (c : Z) : bool := is_alnum c || includes CODE_PUNCTUATION c.

(** The declarative reading of [isValidBackupCode]. *)
Definition valid_code (v : jsstr) (maxLength : Z) : Prop :=
  v <> [] /\ length v <= maxLength /\ forallb code_char v = true /\ ALPHANUMERIC v = true.

Lemma includes_punctuation c : includes CODE_PUNCTUATION c =
  (c =? 45) || ((c =? 95) || ((c =? 46) || ((c =? 43) || ((c =? 47) || ((c =? 61) || false))))).
Proof. reflexivity. Qed.

Lemma includes_brackets c : includes BRACKETS c =
  (c =? 91) || ((c =? 93) || ((c =? 123) || ((c =? 125) || false))).
Proof. reflexivity. Qed.

Lemma includes_quotes c : includes QUOTES c = (c =? 34) || ((c =? 39) || ((c =? 96) || false)).
Proof. reflexivity. Qed.

(** Unfolds every character class of the parser, for [lia]. *)
Ltac char_class :=
  unfold code_char, is_horizontal_ws in *;
  rewrite ?includes_punctuation, ?includes_brackets, ?includes_quotes in *;
  unfold is_alnum, is_ws, INVISIBLE, is_line_break, is_high, is_low in *; lia.

Lemma surrogate_not_code c : is_high c || is_low c = true -> is_alnum c = false /\ code_char c = false.
Proof.
  intros H. char_class.
Qed.

Lemma ALPHANUMERIC_cons c s : ALPHANUMERIC (c :: s) = is_alnum c || ALPHANUMERIC s.
Proof. done. Qed.

Lemma valid_loop_spec s acc :
  valid_loop (code_points s) acc = forallb code_char s && (acc || ALPHANUMERIC s).
Proof.
  revert acc. remember (length s) as n eqn:Hn. revert s Hn.
  induction n as [n IH] using lt_wf_ind. intros s -> acc.
  assert (∀ a s1 acc, (length s1 < length s)%nat ->
    valid_loop ([a] :: code_points s1) acc
    = forallb code_char (a :: s1) && (acc || ALPHANUMERIC (a :: s1))) as Hone.
  { intros a s1 acc' Hl. cbn [valid_loop forallb]. rewrite !ALPHANUMERIC_cons.
    unfold code_char at 1. destruct (is_alnum a); cbn [orb andb].
    - rewrite (IH _ Hl s1 eq_refl). by rewrite orb_true_r.
    - change (ALPHANUMERIC []) with false. cbn iota.
      destruct (includes CODE_PUNCTUATION a); [|done]. by rewrite (IH _ Hl s1 eq_refl). }
  destruct s as [|a [|b s2]].
  - cbn. by rewrite orb_false_r.
  - by apply (Hone a []); cbn; lia.
  - cbn [code_points]. destruct (is_high a && is_low b) eqn:Hab.
    + apply andb_true_iff in Hab as [Hh Hl].
      destruct (surrogate_not_code a) as [Haa Hca]; [by rewrite Hh|].
      destruct (surrogate_not_code b) as [Hba _]; [by rewrite Hl, orb_true_r|].
      cbn. by rewrite Haa, Hba, Hca.
    + apply (Hone a (b :: s2)). cbn. lia.
Qed.

Lemma isValidBackupCode_spec v m : isValidBackupCode v m = true <-> valid_code v m.
Proof.
  unfold isValidBackupCode, valid_code.
  destruct (Z.eqb_spec (length v) 0) as [H0|H0], (Z.ltb_spec m (length v)) as [Hm|Hm]; cbn.
  1-3: split; [done|intros (Hne & Hl & _); destruct v; cbn in *; lia || done].
  rewrite valid_loop_spec, andb_true_iff. cbn. split; [|tauto].
  intros [? ?]. repeat split; [|lia|done..]. by intros ->.
Qed.

Lemma is_alnum_facts c : is_alnum c = true ->
  is_ws c = false /\ INVISIBLE c = false /\ includes BRACKETS c = false /\ c <> 44
  /\ includes QUOTES c = false /\ c <> 92 /\ is_line_break c = false /\ c <> 36 /\ c <> 93.
Proof. intros H. char_class. Qed.

Lemma code_char_facts c : code_char c = true ->
  is_ws c = false /\ INVISIBLE c = false /\ includes BRACKETS c = false /\ c <> 44
  /\ includes QUOTES c = false /\ c <> 92 /\ is_line_break c = false /\ c <> 93
  /\ is_high c = false /\ is_low c = false /\ 32 <= c < 127.
Proof. intros H. char_class. Qed.

Lemma findChar_None p v : findChar v p = None <-> existsb p v = false.
Proof.
  unfold findChar. split.
  - intros H. apply not_true_iff_false. intros (c & Hc & Hp)%existsb_exists.
    apply list_elem_of_In, list_elem_of_lookup in Hc as [k Hk].
    by rewrite (find_from_None _ _ _ H k c) in Hp by (done || lia).
  - intros H. destruct (find_from p v 0) as [k|] eqn:E; [|done].
    apply find_from_Some in E as (_ & c & Hk & Hp). apply not_true_iff_false in H. destruct H.
    apply existsb_exists. exists c. split; [|done].
    apply list_elem_of_In, list_elem_of_lookup. eauto.
Qed.

Lemma existsb_none {A} (p q : A -> bool) (l : list A) :
  forallb p l = true -> (∀ c, p c = true -> q c = false) -> existsb q l = false.
Proof.
  intros Hl Hpq. induction l as [|c l IH]; [done|]. cbn in *.
  apply andb_true_iff in Hl as [Hc Hl]. by rewrite (Hpq c Hc), IH.
Qed.

(** Per-item validation reports nothing exactly on the valid codes. *)
Lemma classifyItem_None item f l :
  classifyItem item f l = None <-> isValidBackupCode (value item) (maxCodeLength l) = true.
Proof.
  rewrite isValidBackupCode_spec. unfold classifyItem, valid_code. set (v := value item).
  split.
  - destruct (findChar v is_ws) as [|] eqn:E1; [done|].
    destruct (findChar v INVISIBLE) as [|] eqn:E2; [done|].
    destruct (findChar v (includes BRACKETS)) as [|] eqn:E3; [done|].
    destruct (indexOf 44 v 0) as [|] eqn:E4; [done|].
    destruct (findChar v (includes QUOTES)) as [|] eqn:E5; [done|].
    destruct (findChar v not_code_char) as [|] eqn:E6; [done|].
    destruct (ALPHANUMERIC v) eqn:E7; cbn; [|done].
    destruct (Z.ltb_spec (maxCodeLength l) (length v)); [done|]. intros _.
    split_and!; [by intros Hv; rewrite Hv in E7|lia| |done].
    apply findChar_None in E6. apply forallb_forall. intros c Hc.
    apply not_false_iff_true. intros Hf. apply not_true_iff_false in E6. apply E6.
    apply existsb_exists. exists c. split; [done|].
    unfold not_code_char, code_char in *. apply orb_false_iff in Hf as [-> ->]. done.
  - intros (Hne & Hl & Hall & Hal).
    assert (∀ q, (∀ c, code_char c = true -> q c = false) -> findChar v q = None) as Hq.
    { intros q Hq. apply findChar_None. by apply (existsb_none code_char). }
    unfold indexOf. change (find_from (Z.eqb 44) v 0) with (findChar v (Z.eqb 44)).
    rewrite (Hq is_ws), (Hq INVISIBLE), (Hq (includes BRACKETS)), (Hq (Z.eqb 44)),
      (Hq (includes QUOTES)), (Hq not_code_char)
      by (unfold not_code_char; intros c Hc; char_class).
    rewrite Hal. cbn [negb]. destruct (Z.ltb_spec (maxCodeLength l) (length v)); [lia|done].
Qed.

(** * Termination *)

Lemma charAt_lt s i c : charAt s i = Some c -> (i < length s)%nat.
Proof. apply lookup_lt_Some. Qed.

Lemma indexOf_lt c s i k : indexOf c s i = Some k -> (i <= k < length s)%nat.
Proof. intros H. by apply find_from_Some in H as [? _]. Qed.

#[local] Hint Resolve charAt_lt indexOf_lt : hv.

Lemma readEscape_progress src b n text next :
  readEscape src b n = EscapeOk text next -> (b + 1 < next)%nat.
Proof.
  unfold readEscape, readHexEscape, readUnicodeEscape, readBracedEscape.
  intros H. repeat case_match; simplify_eq; try lia.
  match goal with H : indexOf _ _ _ = _ |- _ => apply indexOf_lt in H; lia end.
Qed.

Lemma readStringLiteral_loop_total fuel src st n q out i :
  (length src - i < fuel)%nat -> is_Some (readStringLiteral_loop fuel src st n q out i).
Proof.
  revert out i. induction fuel as [|fuel IH]; intros out i Hf; [lia|]. cbn.
  destruct (charAt src i) as [ch|] eqn:Hch; [|by eauto]. apply charAt_lt in Hch.
  destruct (ch =? q); [by eauto|]. destruct (ch =? 92).
  - destruct (readEscape src i n) eqn:E; [|by eauto].
    apply readEscape_progress in E. apply IH. lia.
  - repeat (case_match; try by eauto); apply IH; lia.
Qed.

Lemma readStringLiteral_loop_progress fuel src st n q out i v stop :
  readStringLiteral_loop fuel src st n q out i = Some (LiteralOk v stop) -> (i < stop)%nat.
Proof.
  revert out i. induction fuel as [|fuel IH]; intros out i Hf; [done|]. cbn in Hf.
  destruct (charAt src i) as [ch|]; [|by simplify_eq].
  destruct (ch =? q); [simplify_eq; lia|]. destruct (ch =? 92).
  - destruct (readEscape src i n) eqn:E; [|by simplify_eq].
    apply readEscape_progress in E. apply IH in Hf. lia.
  - repeat (case_match; try by simplify_eq); apply IH in Hf; lia.
Qed.

Lemma readStringLiteral_total src st n :
  is_Some (charAt src st) -> is_Some (readStringLiteral src st n).
Proof.
  intros [q Hq]. unfold readStringLiteral. rewrite Hq.
  apply readStringLiteral_loop_total. lia.
Qed.

Lemma readStringLiteral_progress src st n v stop :
  readStringLiteral src st n = Some (LiteralOk v stop) -> (st < stop)%nat.
Proof.
  unfold readStringLiteral. destruct (charAt src st); [|done].
  intros H%readStringLiteral_loop_progress. lia.
Qed.

Lemma skipWhitespace_ge s i : (i <= skipWhitespace s i)%nat.
Proof. apply scan_while_ge. Qed.

Lemma segmentArray_loop_total fuel input mx pos its e h :
  (length input - pos < fuel)%nat -> is_Some (segmentArray_loop fuel input mx pos its e h).
Proof.
  revert pos its e h. induction fuel as [|fuel IH]; intros pos its e h Hf; [lia|]. cbn.
  pose proof (skipWhitespace_ge input pos) as Hge. set (p := skipWhitespace input pos) in *.
  destruct (charAt input p) as [ch|] eqn:Hch; [|by eauto].
  assert (p < length input)%nat as Hlt by eauto with hv.
  destruct (ch =? 93); [by eauto|]. destruct e; cbn.
  - destruct (elementIssue input ch (length its + 1) p); [by eauto|].
    destruct (readStringLiteral_total input p (length its + 1)) as [lit E]; [by eauto|].
    rewrite E. destruct lit as [v stop|]; [|by eauto].
    apply readStringLiteral_progress in E. case_match; [by eauto|]. apply IH. lia.
  - case_match; [|by eauto]. apply IH. lia.
Qed.

Lemma segmentNewline_loop_total fuel input mx pos its :
  (pos <= length input)%nat -> (length input - pos < fuel)%nat ->
  is_Some (segmentNewline_loop fuel input mx pos its).
Proof.
  revert pos its. induction fuel as [|fuel IH]; intros pos its Hp Hf; [lia|]. cbn.
  case_match; [by eauto|]. destruct (nextLineBreak input pos) as [b|] eqn:E; [|by eauto].
  apply find_from_Some in E as [Hb _].
  case_match; [|apply IH; lia].
  apply andb_true_iff in H0 as [_ Hc%bool_decide_eq_true]. apply charAt_lt in Hc. apply IH; lia.
Qed.

Lemma segmentComma_loop_total fuel input mx tc pos n its iss :
  (pos <= length input)%nat -> (length input - pos < fuel)%nat ->
  is_Some (segmentComma_loop fuel input mx tc pos n its iss).
Proof.
  revert pos n its iss. induction fuel as [|fuel IH]; intros pos n its iss Hp Hf; [lia|].
  cbn. repeat (case_match; try by eauto); match goal with
    H : indexOf _ _ _ = _ |- _ => apply indexOf_lt in H; apply IH; lia end.
Qed.

Lemma segmentSpace_loop_total fuel input mx pos its :
  (length input - pos < fuel)%nat -> is_Some (segmentSpace_loop fuel input mx pos its).
Proof.
  revert pos its. induction fuel as [|fuel IH]; intros pos its Hf; [lia|]. cbn.
  destruct (charAt input pos) as [c|] eqn:Hc; [|by eauto].
  assert (pos < length input)%nat by eauto with hv.
  destruct (is_ws c) eqn:Hw; [apply IH; lia|]. case_match; [by eauto|]. apply IH.
  unfold scan_while. rewrite (drop_S _ _ _ Hc). cbn. rewrite Hw. cbn. lia.
Qed.

Lemma segment_total input f l : is_Some (segment input f l).
Proof.
  destruct f; cbn [segment].
  - unfold segmentArray. case_match; [|by eauto]. apply segmentArray_loop_total. lia.
  - apply segmentComma_loop_total; lia.
  - apply segmentSpace_loop_total. lia.
  - apply segmentNewline_loop_total; lia.
  - by eauto.
Qed.

Lemma parseWithFormat_total input f d l : is_Some (parseWithFormat input f d l).
Proof.
  unfold parseWithFormat. case_match; [by eauto|].
  destruct (segment_total input f l) as [seg ->]. cbn. by eauto.
Qed.

Lemma firstSuccess_total input l others r : is_Some (firstSuccess input l others r).
Proof.
  induction others as [|f others IH]; cbn; [by eauto|].
  destruct (parseWithFormat_total input f true l) as [r' ->]. cbn. case_match; eauto.
Qed.

(** [parseBackupCodes] answers on every input, whatever the options: no scanning
    loop of the five formats, of the escape decoder or of the candidate search runs
    past one iteration per code unit of the input. *)
Theorem parseBackupCodes_total input options : is_Some (parseBackupCodes input options).
Proof.
  unfold parseBackupCodes. case_match; [case_match; by eauto|]. case_match.
  - apply parseWithFormat_total.
  - repeat (case_match; try by eauto using parseWithFormat_total).
    destruct (parseWithFormat_total input b true (limits_of options)) as [r ->]. cbn.
    case_match; [by eauto|]. apply firstSuccess_total.
Qed.

(** * Every reported span lies inside the input *)

Definition issue_inside (input : jsstr) (i : BackupCodesIssue) : Prop :=
  0 <= i_index i /\ 0 <= i_length i /\ i_index i + i_length i <= length input.

Definition item_inside (input : jsstr) (it : ParsedItem) : Prop :=
  (start it + len it <= length input)%nat
  /\ (spanExact it = true -> len it = length (value it)).

Definition seg_inside (input : jsstr) (mx : Z) (seg : Segmentation) : Prop :=
  Forall (item_inside input) (items seg) /\ Forall (issue_inside input) (issues seg)
  /\ length (items seg) <= Z.max 0 mx.

Lemma seg_inside_intro input mx its iss :
  Forall (item_inside input) its -> Forall (issue_inside input) iss ->
  length its <= Z.max 0 mx -> seg_inside input mx (Seg its iss).
Proof. done. Qed.

Lemma tooMany_inside input it mx :
  item_inside input it -> issue_inside input (tooManyCodesIssue it mx).
Proof. intros [H _]. unfold issue_inside. cbn. lia. Qed.

Lemma item_inside_snoc input its it :
  Forall (item_inside input) its -> item_inside input it -> Forall (item_inside input) (its ++ [it]).
Proof. intros. apply Forall_app. auto. Qed.

#[local] Hint Resolve seg_inside_intro tooMany_inside item_inside_snoc : hv.

(** A trimmed segment, at the offset computed for it, is an item inside the input. *)
Lemma trimmed_item_inside input pos stop n :
  (pos <= stop <= length input)%nat ->
  item_inside input
    (Item (trim (slice input pos stop))
       (pos + (length (slice input pos stop) - length (trimStart (slice input pos stop))))
       (length (trim (slice input pos stop))) true n).
Proof.
  intros H. split; cbn; [|done].
  pose proof (trim_span (slice input pos stop)) as Ht. rewrite length_slice in * by lia. lia.
Qed.

Lemma readEscape_inside src b n issue :
  (b < length src)%nat -> readEscape src b n = EscapeFailed issue -> issue_inside src issue.
Proof.
  intros Hb. unfold readEscape, readHexEscape, readUnicodeEscape, readBracedEscape.
  assert (∀ k, (length (slice src (b + 2) (b + 2 + k)) <= length src - (b + 2))%nat) as Hs.
  { intros k. unfold slice. rewrite length_take, length_drop. lia. }
  pose proof (Hs 2%nat) as H2. pose proof (Hs 4%nat) as H4. clear Hs.
  replace (b + 2 + 2)%nat with (b + 4)%nat in H2 by lia.
  replace (b + 2 + 4)%nat with (b + 6)%nat in H4 by lia.
  destruct (charAt src (b + 1)) as [ch|] eqn:Hch;
    [apply charAt_lt in Hch|intros [= <-]; unfold issue_inside; cbn; lia].
  intros H. repeat case_match; simplify_eq; unfold issue_inside; cbn; try lia.
  match goal with H : indexOf _ _ _ = _ |- _ => apply indexOf_lt in H; lia end.
Qed.

Lemma readStringLiteral_loop_inside fuel src st n q out i :
  (st < i)%nat -> (st < length src)%nat ->
  match readStringLiteral_loop fuel src st n q out i with
  | Some (LiteralOk _ stop) => (stop <= length src)%nat
  | Some (LiteralFailed issue) => issue_inside src issue
  | None => True
  end.
Proof.
  revert out i. induction fuel as [|fuel IH]; intros out i Hi Hst; [done|]. cbn.
  destruct (charAt src i) as [ch|] eqn:Hch; [|unfold issue_inside; cbn; lia].
  apply charAt_lt in Hch. destruct (ch =? q); [lia|]. destruct (ch =? 92).
  - destruct (readEscape src i n) eqn:E.
    + apply readEscape_progress in E. apply IH; lia.
    + by apply (readEscape_inside src i n).
  - destruct (negb (q =? 96) && _); [unfold issue_inside; cbn; lia|].
    destruct ((q =? 96) && _ && _) eqn:E.
    + apply andb_true_iff in E as [_ E%bool_decide_eq_true]. apply charAt_lt in E.
      unfold issue_inside; cbn; lia.
    + apply IH; lia.
Qed.

Lemma readStringLiteral_inside src st n lit :
  readStringLiteral src st n = Some lit ->
  match lit with
  | LiteralOk _ stop => (stop <= length src)%nat
  | LiteralFailed issue => issue_inside src issue
  end.
Proof.
  unfold readStringLiteral. destruct (charAt src st) as [q|] eqn:Hq; [|done].
  apply charAt_lt in Hq. intros H.
  pose proof (readStringLiteral_loop_inside (S (length src)) src st n q [] (st + 1)) as Hi.
  rewrite H in Hi. apply Hi; lia.
Qed.

Lemma scan_inside p s i : (i <= length s)%nat -> (i <= scan_while p s i <= length s)%nat.
Proof. split; [apply scan_while_ge|by apply scan_while_le]. Qed.

Lemma elementIssue_inside input ch n pos issue :
  (pos < length input)%nat -> elementIssue input ch n pos = Some issue -> issue_inside input issue.
Proof.
  unfold elementIssue. intros Hp H. pose proof (scan_inside
    (λ ch, negb ((ch =? 44) || (ch =? 93) || is_ws ch)) input pos).
  repeat (case_match; simplify_eq); unfold issue_inside, bareTokenLength; cbn; lia.
Qed.

Lemma separatorIssue_inside input ch n h pos :
  (pos < length input)%nat -> issue_inside input (separatorIssue ch n h pos).
Proof. intros. unfold separatorIssue. repeat case_match; unfold issue_inside; cbn; lia. Qed.

Lemma afterArray_inside input mx its pos :
  Forall (item_inside input) its -> length its <= Z.max 0 mx ->
  seg_inside input mx (afterArray input its pos).
Proof.
  intros. unfold afterArray. destruct (Nat.ltb_spec (skipWhitespace input pos) (length input));
    apply seg_inside_intro; auto. constructor; [|done]. unfold issue_inside; cbn; lia.
Qed.

Lemma segmentArray_loop_inside fuel input mx pos its e h seg :
  (pos <= length input)%nat -> Forall (item_inside input) its -> length its <= Z.max 0 mx ->
  segmentArray_loop fuel input mx pos its e h = Some seg -> seg_inside input mx seg.
Proof.
  revert pos its e h. induction fuel as [|fuel IH]; intros pos its e h Hp Hits Hmx H; [done|].
  cbn in H. pose proof (skipWhitespace_ge input pos).
  set (p := skipWhitespace input pos) in *. destruct (charAt input p) as [ch|] eqn:Hch.
  2: { simplify_eq. apply seg_inside_intro; auto. constructor; [|done]. unfold issue_inside; cbn; lia. }
  apply charAt_lt in Hch. destruct (ch =? 93); [simplify_eq; by apply afterArray_inside|].
  destruct e; cbn in H.
  - destruct (elementIssue input ch (length its + 1) p) eqn:Ee.
    { simplify_eq. apply seg_inside_intro; auto. constructor; [|done].
      by apply (elementIssue_inside _ _ _ _ _ Hch) in Ee. }
    destruct (readStringLiteral input p (length its + 1)) as [lit|] eqn:El; [|done].
    pose proof (readStringLiteral_inside _ _ _ _ El) as Hin.
    destruct lit as [v stop|issue]; [|simplify_eq; apply seg_inside_intro; auto].
    apply readStringLiteral_progress in El.
    assert (item_inside input (Item v p (stop - p) false (length its + 1))) as Hit.
    { split; cbn; [lia|done]. }
    destruct (Z.leb_spec mx (length its)); simplify_eq; [apply seg_inside_intro; eauto with hv|].
    eapply IH; [| | |exact H]; [lia|auto with hv|]. rewrite length_app. cbn. lia.
  - destruct (ch =? 44); simplify_eq.
    + eapply IH; [| | |exact H]; auto; lia.
    + apply seg_inside_intro; auto. constructor; [|done]. by apply separatorIssue_inside.
Qed.

Lemma segmentArray_inside input mx seg : segmentArray input mx = Some seg -> seg_inside input mx seg.
Proof.
  unfold segmentArray. pose proof (scan_inside is_ws input 0) as Hs.
  fold (skipWhitespace input 0) in Hs. case_bool_decide as Hc.
  - apply charAt_lt in Hc. apply segmentArray_loop_inside; [lia|done|cbn; lia].
  - intros [= <-]. apply seg_inside_intro; [done| |cbn; lia].
    constructor; [|done]. unfold issue_inside, makeIssue; cbn [i_index i_length]. lia.
Qed.

Lemma segmentNewline_loop_inside fuel input mx pos its seg :
  (pos <= length input)%nat -> Forall (item_inside input) its -> length its <= Z.max 0 mx ->
  segmentNewline_loop fuel input mx pos its = Some seg -> seg_inside input mx seg.
Proof.
  revert pos its. induction fuel as [|fuel IH]; intros pos its Hp Hits Hmx H; [done|].
  cbn in H. set (brk := nextLineBreak input pos) in *.
  set (stop := match brk with Some b => b | None => length input end) in *.
  assert ((pos <= stop <= length input)%nat /\ (∀ b, brk = Some b -> (b < length input)%nat)) as [Hstop Hb].
  { unfold stop. destruct brk as [b|] eqn:E; [|split; [lia|done]].
    apply find_from_Some in E as [? _]. split; [lia|]. intros ? [= <-]. lia. }
  pose proof (trimmed_item_inside input pos stop (length its + 1) Hstop) as Hit.
  destruct (0 <? length (trim (slice input pos stop))); cbn in H.
  - destruct (Z.leb_spec mx (length its)); [simplify_eq; apply seg_inside_intro; eauto with hv|].
    assert (length (its ++ [Item (trim (slice input pos stop))
      (pos + (length (slice input pos stop) - length (trimStart (slice input pos stop))))
      (length (trim (slice input pos stop))) true (length its + 1)]) <= Z.max 0 mx) as Hmx'.
    { rewrite length_app. cbn. lia. }
    destruct brk as [b|]; [|simplify_eq; apply seg_inside_intro; auto with hv].
    specialize (Hb b eq_refl). eapply IH; [| | |exact H]; auto with hv.
    destruct (_ && _) eqn:E; [|lia].
    apply andb_true_iff in E as [_ E%bool_decide_eq_true]. apply charAt_lt in E. lia.
  - destruct brk as [b|]; [|simplify_eq; apply seg_inside_intro; auto with hv].
    specialize (Hb b eq_refl). eapply IH; [| | |exact H]; auto with hv.
    destruct (_ && _) eqn:E; [|lia].
    apply andb_true_iff in E as [_ E%bool_decide_eq_true]. apply charAt_lt in E. lia.
Qed.

Lemma slice_all {A} (s : list A) : slice s 0 (length s) = s.
Proof. unfold slice. rewrite drop_0. apply take_ge. lia. Qed.

Lemma segmentComma_loop_inside fuel input mx tc pos n its iss seg :
  trim input <> [] -> (pos <= length input)%nat -> 0 <= n -> (n = 0 <-> pos = 0%nat) ->
  Forall (item_inside input) its -> Forall (issue_inside input) iss ->
  length its <= Z.max 0 mx ->
  segmentComma_loop fuel input mx tc pos n its iss = Some seg -> seg_inside input mx seg.
Proof.
  intros Hne. revert pos n its iss.
  induction fuel as [|fuel IH]; intros pos n its iss Hp Hn Hpos Hits Hiss Hmx H; [done|].
  cbn in H. set (comma := indexOf 44 input pos) in *.
  set (stop := match comma with Some b => b | None => length input end) in *.
  assert ((pos <= stop <= length input)%nat /\
    (∀ b, comma = Some b -> stop = b /\ (b < length input)%nat)) as [Hstop Hb].
  { unfold stop. destruct comma as [b|] eqn:E; [|split; [lia|done]].
    apply indexOf_lt in E. split; [lia|]. intros ? [= <-]. lia. }
  destruct (Z.eqb_spec (length (trim (slice input pos stop))) 0) as [Hz|Hz].
  - match type of H with context [iss ++ [?i]] => set (i0 := i) in * end.
    assert (issue_inside input i0) as Hi0.
    { unfold i0, issue_inside; cbn. destruct (Z.eqb_spec (n + 1) 1) as [Hn1|Hn1]; [|lia].
      destruct comma as [b|] eqn:E; [destruct (Hb b eq_refl); lia|].
      exfalso. apply Hne. assert (pos = 0%nat) as -> by lia. unfold stop in Hz.
      rewrite slice_all in Hz. destruct (trim input); [done|cbn in Hz; lia]. }
    assert (Forall (issue_inside input) (iss ++ [i0])) by (apply Forall_app; auto).
    destruct comma as [b|]; [|simplify_eq; by apply seg_inside_intro].
    destruct (Hb b eq_refl). eapply IH; [| | | | | |exact H]; auto; lia.
  - pose proof (trimmed_item_inside input pos stop (n + 1) Hstop) as Hit.
    destruct (Z.leb_spec mx (length its)).
    { simplify_eq. apply seg_inside_intro; auto. apply Forall_app. auto with hv. }
    destruct comma as [b|];
      [|simplify_eq; apply seg_inside_intro; auto with hv; rewrite length_app; cbn; lia].
    destruct (Hb b eq_refl).
    eapply IH; [| | | | | |exact H]; auto with hv; [lia..|]. rewrite length_app; cbn; lia.
Qed.

Lemma segmentSpace_loop_inside fuel input mx pos its seg :
  Forall (item_inside input) its -> length its <= Z.max 0 mx ->
  segmentSpace_loop fuel input mx pos its = Some seg -> seg_inside input mx seg.
Proof.
  revert pos its. induction fuel as [|fuel IH]; intros pos its Hits Hmx H; [done|]. cbn in H.
  destruct (charAt input pos) as [c|] eqn:Hc; [|simplify_eq; by apply seg_inside_intro].
  apply charAt_lt in Hc. destruct (is_ws c); [by eapply IH|].
  set (stop := scan_while (λ c, negb (is_ws c)) input pos) in *.
  assert (pos <= stop <= length input)%nat as Hstop by (apply scan_inside; lia).
  assert (item_inside input (Item (slice input pos stop) pos (stop - pos) true (length its + 1))).
  { split; cbn; [lia|]. by rewrite length_slice by lia. }
  destruct (Z.leb_spec mx (length its)); [simplify_eq; apply seg_inside_intro; auto with hv|].
  eapply IH; [| |exact H]; [auto with hv|]. rewrite length_app; cbn; lia.
Qed.

Lemma segment_inside input f l seg :
  trim input <> [] -> segment input f l = Some seg -> seg_inside input (max l) seg.
Proof.
  intros Hne. destruct f; cbn [segment].
  - apply segmentArray_inside.
  - apply segmentComma_loop_inside; cbn; auto; lia.
  - apply segmentSpace_loop_inside; cbn; auto; lia.
  - apply segmentNewline_loop_inside; cbn; auto; lia.
  - intros [= <-]. pose proof (trim_span input) as Ht.
    assert (item_inside input
      (Item (trim input) (length input - length (trimStart input)) (length (trim input)) true 1)).
    { split; cbn; [lia|done]. }
    unfold segmentSingle. destruct (Z.ltb_spec (max l) 1); apply seg_inside_intro; cbn; auto with hv; lia.
Qed.

Lemma findChar_lt v p k : findChar v p = Some k -> (k < length v)%nat.
Proof. intros H. apply find_from_Some in H as [? _]. lia. Qed.

Lemma itemIssue_inside input it off code m h :
  item_inside input it -> (off < length (value it))%nat ->
  issue_inside input (itemIssue it off code m h).
Proof.
  intros [Hin Hex] Ho. unfold itemIssue, item_span. destruct (spanExact it) eqn:E;
    unfold issue_inside; cbn; [specialize (Hex eq_refl)|]; lia.
Qed.

Lemma classifyItem_inside input it f l issue :
  item_inside input it -> classifyItem it f l = Some issue -> issue_inside input issue.
Proof.
  intros Hin H. unfold classifyItem in H.
  repeat (case_match; simplify_eq; try match goal with
    | E : findChar _ _ = Some _ |- _ => apply findChar_lt in E; by apply itemIssue_inside
    | E : indexOf _ _ _ = Some _ |- _ => apply findChar_lt in E; by apply itemIssue_inside
    end); destruct Hin; unfold issue_inside; cbn; lia.
Qed.

(** * What a success and a failure carry *)

Definition accepted (l : Limits) (codes : list jsstr) : Prop :=
  Forall (λ c, isValidBackupCode c (maxCodeLength l) = true) codes
  /\ length codes <= Z.max 0 (max l).

Definition reported (input : jsstr) (issue : BackupCodesIssue) (iss : list BackupCodesIssue) : Prop :=
  head iss = Some issue /\ StronglySorted (key_le i_index) iss /\ Forall (issue_inside input) iss.

Definition result_good (input : jsstr) (l : Limits) (r : BackupCodesParseResult) : Prop :=
  match r with
  | ParseOk codes _ _ => accepted l codes
  | ParseFailed _ _ issue iss => reported input issue iss
  end.

Lemma omap_nil {A B} (g : A -> option B) (xs : list A) :
  omap g xs = [] -> Forall (λ x, g x = None) xs.
Proof.
  induction xs as [|x xs IH]; [constructor|]. cbn. destruct (g x) eqn:E; [done|].
  intros H. constructor; auto.
Qed.

Lemma omap_Forall {A B} (g : A -> option B) (P : A -> Prop) (Q : B -> Prop) (xs : list A) :
  (∀ x y, P x -> g x = Some y -> Q y) -> Forall P xs -> Forall Q (omap g xs).
Proof.
  intros HPQ. induction 1 as [|x xs Hx Hxs IH]; cbn; [constructor|].
  destruct (g x) eqn:E; [constructor; eauto|done].
Qed.

Lemma parseWithFormat_good input f d l r :
  parseWithFormat input f d l = Some r -> result_good input l r.
Proof.
  unfold parseWithFormat. case_bool_decide as Hb.
  { intros [= <-]. split; [constructor|cbn; lia]. }
  destruct (segment input f l) as [seg|] eqn:Es; cbn; [|done].
  apply segment_inside in Es as (Hit & His & Hn); [|done].
  set (found := match issues seg with [] => _ | _ => _ end).
  assert (Forall (issue_inside input) found) as Hf.
  { unfold found. destruct (issues seg) eqn:E; [|exact His].
    eapply omap_Forall; [|exact Hit]. intros x y. cbn. apply classifyItem_inside. }
  pose proof (sort_by_sorted i_index found) as Hs.
  pose proof (sort_by_Forall i_index _ _ Hf) as Hfs.
  destruct (sort_by i_index found) as [|primary rest] eqn:E; intros [= <-].
  - apply sort_by_nil in E. unfold found in E. split; [|by rewrite length_map].
    destruct (issues seg); [|done]. apply Forall_map. apply omap_nil in E.
    eapply Forall_impl; [exact E|]. intros x Hx. cbn in *. by apply classifyItem_None in Hx.
  - by repeat split.
Qed.

Lemma firstSuccess_good input l others first r :
  result_good input l first -> firstSuccess input l others first = Some r -> result_good input l r.
Proof.
  intros Hfirst. induction others as [|f others IH]; cbn; [by intros [= <-]|].
  destruct (parseWithFormat input f true l) as [next|] eqn:E; cbn; [|done].
  destruct (is_ok next); [|done]. intros [= <-]. by eapply parseWithFormat_good.
Qed.

Lemma parseBackupCodes_good input o r :
  0 <= maxInputLength (limits_of o) -> parseBackupCodes input o = Some r ->
  result_good input (limits_of o) r.
Proof.
  intros Hmax. unfold parseBackupCodes. set (l := limits_of o) in *.
  destruct (Z.ltb_spec (maxInputLength l) (length input)) as [Hlong|_].
  - assert (reported input (inputTooLong l) [inputTooLong l]) as Hr.
    { split_and!; [done|repeat constructor|]. constructor; [|done].
      unfold issue_inside, inputTooLong, makeIssue. cbn [i_index i_length]. lia. }
    case_match; by intros [= <-].
  - case_match; [by apply parseWithFormat_good|].
    case_bool_decide; [intros [= <-]; split; [constructor|cbn; lia]|].
    case_match; [by apply parseWithFormat_good|].
    destruct (detectFormats (trim input)) as [first others].
    destruct (parseWithFormat input first true l) as [fr|] eqn:E; cbn; [|done].
    apply parseWithFormat_good in E. destruct (is_ok fr); [by intros [= <-]|].
    by apply firstSuccess_good.
Qed.

(** whatever the input, the format and the limits, every code a successful parse
    returns is a valid backup code of at most [maxCodeLength] units, and there are at
    most [max] of them. *)
Theorem parse_ok_sound input options codes format detected :
  0 <= maxInputLength (limits_of options) ->
  parseBackupCodes input options = Some (ParseOk codes format detected) ->
  Forall (λ c, isValidBackupCode c (maxCodeLength (limits_of options)) = true) codes
  /\ length codes <= Z.max 0 (max (limits_of options)).
Proof. intros Hm H. exact (parseBackupCodes_good _ _ _ Hm H). Qed.

Definition default_options : ParseBackupCodesOptions := mkOptions None None None None.

Lemma parse_ok_sound_witness :
  Forall (λ c, isValidBackupCode c 128 = true) [js "a1b2"; js "c3-d4"] /\ 2%nat <= Z.max 0 50.
Proof.
  apply (parse_ok_sound (js "a1b2 , c3-d4") default_options [js "a1b2"; js "c3-d4"] Fmt_comma true);
    [done|].
  vm_compute. reflexivity.
Defined.

(** C24: a failed parse names as its primary issue the first of a non-empty list
    ordered by position, and the span of every issue, the caret the form draws, lies
    inside the text the user typed. *)
Theorem parse_failure_report input options format detected issue iss :
  0 <= maxInputLength (limits_of options) ->
  parseBackupCodes input options = Some (ParseFailed format detected issue iss) ->
  head iss = Some issue
  /\ StronglySorted (λ a b, i_index a <= i_index b) iss
  /\ Forall (λ i, 0 <= i_index i /\ 0 <= i_length i /\ i_index i + i_length i <= length input) iss.
Proof. intros Hm H. exact (parseBackupCodes_good _ _ _ Hm H). Qed.

Lemma parse_failure_report_witness :
  ∃ issue iss, parseBackupCodes (js "ab,,c;") default_options
               = Some (ParseFailed Fmt_comma true issue iss) /\ head iss = Some issue.
Proof.
  do 2 eexists. split; [vm_compute; reflexivity|].
  refine (proj1 (parse_failure_report (js "ab,,c;") default_options Fmt_comma true _ _ _ _)); [done|].
  vm_compute. reflexivity.
Defined.

(** * Merging *)

Lemma merge_loop_spec mx incoming codes seen a d o :
  (∀ c, c ∈ seen <-> c ∈ codes) ->
  let r := merge_loop mx incoming codes seen a d o in
  ∃ new, m_codes r = codes ++ new /\ new `sublist_of` incoming /\ NoDup new
    /\ (∀ c, c ∈ new -> c ∉ codes)
    /\ (m_addedCount r = a + length new)%nat
    /\ (m_addedCount r + m_duplicateCount r + m_overflowCount r = a + d + o + length incoming)%nat
    /\ (length new = 0%nat \/ length (m_codes r) <= mx)
    /\ ((o < m_overflowCount r)%nat -> mx <= length (m_codes r))
    /\ (m_overflowCount r = o -> ∀ c, c ∈ incoming -> c ∈ m_codes r)
    /\ (o <= m_overflowCount r)%nat.
Proof.
  revert codes seen a d o. induction incoming as [|x inc IH]; intros codes seen a d o Hseen; cbn.
  { exists []. rewrite app_nil_r. cbn. split_and!; auto with lia; try apply NoDup_nil_2; set_solver. }
  destruct (decide (x ∈ seen)) as [Hx|Hx].
  - destruct (IH codes seen a (S d) o Hseen) as (new & E & Hsub & Hnd & Hfr & Ha & Hn & Hl & Hov & Hin & Hle).
    exists new. split_and!; auto; [by constructor|lia|].
    intros Ho c [->|Hc]%elem_of_cons; [|by apply Hin]. rewrite E. apply Hseen in Hx. set_solver.
  - destruct (Z.leb_spec mx (length codes)).
    + destruct (IH codes seen a d (S o) Hseen) as (new & E & Hsub & Hnd & Hfr & Ha & Hn & Hl & Hov & Hin & Hle).
      exists new. split_and!; auto; [by constructor|lia| |lia|lia].
      intros _. rewrite E, length_app. lia.
    + destruct (IH (codes ++ [x]) ({[x]} ∪ seen) (S a) d o)
        as (new & E & Hsub & Hnd & Hfr & Ha & Hn & Hl & Hov & Hin & Hle).
      { intros c. rewrite elem_of_union, elem_of_singleton, elem_of_app, list_elem_of_singleton, Hseen. tauto. }
      assert (length (m_codes (merge_loop mx inc (codes ++ [x]) ({[x]} ∪ seen) (S a) d o))
              = (length codes + 1 + length new)%nat) as Hlen.
      { rewrite E, !length_app. cbn. lia. }
      exists (x :: new). rewrite <- app_assoc in E. split_and!; auto.
      * by constructor.
      * constructor; [|done]. intros Hxn. apply Hfr in Hxn. set_solver.
      * intros c [->|Hc]%elem_of_cons; [by rewrite <- Hseen|]. apply Hfr in Hc. set_solver.
      * cbn. lia.
      * lia.
      * right. lia.
      * intros Ho c [->|Hc]%elem_of_cons; [|by apply Hin]. rewrite E. set_solver.
Qed.

(** Merging keeps the existing list verbatim and appends, in order and without
    repetition, codes of [incoming] it did not hold; additions stop at the cap, the
    three counts account for every incoming code, and nothing is dropped as overflow
    unless the merged list is at the cap. *)
Theorem mergeBackupCodes_spec existing incoming mx :
  let r := mergeBackupCodes existing incoming mx in
  ∃ new, m_codes r = existing ++ new /\ new `sublist_of` incoming /\ NoDup new
    /\ (∀ c, c ∈ new -> c ∉ existing)
    /\ length new = m_addedCount r
    /\ (m_addedCount r + m_duplicateCount r + m_overflowCount r = length incoming)%nat
    /\ length (m_codes r) <= Z.max (length existing) mx
    /\ ((0 < m_overflowCount r)%nat -> mx <= length (m_codes r))
    /\ (m_overflowCount r = 0%nat -> ∀ c, c ∈ incoming -> c ∈ m_codes r).
Proof.
  destruct (merge_loop_spec mx incoming existing (list_to_set existing) 0 0 0)
    as (new & E & Hsub & Hnd & Hfr & Ha & Hn & Hl & Hov & Hin & _); [by intros; rewrite elem_of_list_to_set|].
  exists new. split_and!; auto.
  change (length (m_codes (merge_loop mx incoming existing (list_to_set existing) 0 0 0))
          <= Z.max (length existing) mx).
  destruct Hl as [Hl|Hl]; [|lia]. rewrite E, length_app. lia.
Qed.
