(* ===== verification/BackupCodesRoundTrip.v ===== *)
(** Round trips through [formatBackupCodes] and [parseBackupCodes], in every format and
    under [auto], and the tokenizer's inversion of [JSON.stringify] on arbitrary text. *)
From S2P Require Import Prelude BackupCodes BackupCodesSpec.
#[local] Open Scope Z_scope.
#[local] Coercion Z.of_nat : nat >-> Z.

(** * Round trips *)

Lemma forallb_weaken {A} (p q : A -> bool) l :
  (∀ c, p c = true -> q c = true) -> forallb p l = true -> forallb q l = true.
Proof. rewrite !forallb_forall. eauto. Qed.

(** What the segmenters need of a code: non-empty and made of code characters. *)
Definition solid (v : jsstr) : Prop := v <> [] /\ forallb code_char v = true.

Lemma valid_solid m cs :
  Forall (λ c, isValidBackupCode c m = true) cs -> Forall solid cs.
Proof.
  intros H. eapply Forall_impl; [exact H|]. intros c Hc. cbn in Hc.
  apply isValidBackupCode_spec in Hc as (Hne & _ & Hall & _). by split.
Qed.

Lemma solid_no_ws v : solid v -> existsb is_ws v = false.
Proof. intros [_ Hv]. apply (existsb_none code_char); [done|]. intros c Hc. char_class. Qed.

Lemma solid_trim l v : solid v -> forallb is_ws l = true -> trim (l ++ v) = v.
Proof. intros Hv Hl. apply trim_solid; [done|by apply solid_no_ws|apply Hv]. Qed.

Lemma solid_trim_self v : solid v -> trim v = v.
Proof. intros. by apply (solid_trim []). Qed.

Lemma solid_head v : solid v -> ∃ c v', v = c :: v' /\ code_char c = true.
Proof.
  intros [Hne Hall]. destruct v as [|c v]; [done|]. exists c, v. split; [done|].
  by apply andb_true_iff in Hall as [].
Qed.

Lemma solid_all (q : Z -> bool) v :
  solid v -> (∀ c, code_char c = true -> q c = true) -> forallb q v = true.
Proof. intros [_ Hv] Hq. by apply (forallb_weaken code_char). Qed.

Lemma segmentSpace_join cs fuel pre mx its :
  Forall solid cs -> length its + length cs <= mx ->
  ((length (join [32%Z] cs)) < fuel)%nat ->
  ∃ its', segmentSpace_loop fuel (pre ++ join [32] cs) mx (length pre) its
          = Some (Seg (its ++ its') []) /\ map value its' = cs.
Proof.
  revert fuel pre its. induction cs as [|c cs IH]; intros fuel pre its Hcs Hmx Hf.
  { destruct fuel; [lia|]. exists []. cbn. unfold charAt. rewrite lookup_app_here. cbn.
    by rewrite app_nil_r. }
  apply Forall_cons in Hcs as [Hc Hcs].
  destruct (solid_head c Hc) as (h & c' & E & Hh).
  assert (forallb (λ x, negb (is_ws x)) c = true) as Hnw.
  { apply solid_all; [done|]. intros. char_class. }
  rewrite join_cons in *. set (rest := match cs with [] => [] | _ => _ end) in *.
  destruct fuel as [|fuel]; [lia|]. cbn [segmentSpace_loop].
  assert (charAt (pre ++ c ++ rest) (length pre) = Some h) as ->.
  { unfold charAt. by rewrite lookup_app_here, E. }
  replace (is_ws h) with false by char_class.
  assert (scan_while (λ x, negb (is_ws x)) (pre ++ c ++ rest) (length pre) = length pre + length c)%nat as ->.
  { unfold rest. destruct cs; [rewrite app_nil_r; by apply scan_while_end|by apply scan_while_stop]. }
  rewrite slice_mid. cbn [length] in Hmx. destruct (Z.leb_spec mx (length its)); [lia|].
  set (it := Item _ _ _ _ _).
  assert (∃ its', segmentSpace_loop fuel (pre ++ c ++ rest) mx (length pre + length c) (its ++ [it])
    = Some (Seg ((its ++ [it]) ++ its') []) /\ map value its' = cs) as (its' & -> & Hv).
  { rewrite app_assoc, <- length_app. rewrite length_app in Hf. unfold rest in *. destruct cs as [|c2 cs].
    - apply (IH fuel (pre ++ c) (its ++ [it])); [done|rewrite length_app; cbn; lia|].
      cbn in *. destruct c; cbn in *; [done|lia].
    - destruct fuel as [|fuel]; [cbn in Hf; lia|]. cbn [segmentSpace_loop]. unfold charAt.
      rewrite lookup_app_here. cbn [head app]. change (is_ws 32) with true. cbn iota.
      destruct (IH fuel ((pre ++ c) ++ [32]) (its ++ [it])) as (its' & H1 & H2); [done| | |].
      + rewrite length_app. cbn in *. lia.
      + rewrite E in Hf. cbn [length app] in Hf. lia.
      + exists its'. split; [|done]. rewrite <- H1. rewrite <- (app_assoc _ [32]).
        rewrite (length_app _ [32]). done. }
  exists (it :: its'). split; [by rewrite <- app_assoc|]. cbn. by rewrite Hv.
Qed.

Lemma solid_length v : solid v -> (0 < length v)%nat.
Proof. intros [Hne _]. destruct v; cbn; [done|lia]. Qed.

Lemma segmentNewline_join cs fuel pre mx its c0 :
  solid c0 -> Forall solid cs -> length its + 1 + length cs <= mx -> (length cs < fuel)%nat ->
  ∃ its', segmentNewline_loop fuel (pre ++ join [10] (c0 :: cs)) mx (length pre) its
          = Some (Seg (its ++ its') []) /\ map value its' = c0 :: cs.
Proof.
  revert c0 fuel pre its. induction cs as [|c cs IH]; intros c0 fuel pre its Hc0 Hcs Hmx Hf;
    (destruct fuel as [|fuel]; [lia|]); rewrite join_cons; cbn [segmentNewline_loop];
    unfold nextLineBreak; cbn [length] in Hmx.
  - rewrite app_nil_r, find_from_miss by (apply solid_all; [done|]; intros; char_class).
    rewrite length_app. replace (pre ++ c0) with (pre ++ c0 ++ []) by (by rewrite app_nil_r).
    rewrite slice_mid, (solid_trim_self c0) by done. pose proof (solid_length _ Hc0).
    destruct (Z.ltb_spec 0 (length c0)); [|lia]. destruct (Z.leb_spec mx (length its)); [lia|].
    cbn. by eexists [_].
  - rewrite <- app_comm_cons, app_nil_l. set (rest := join [10] (c :: cs)).
    rewrite find_from_hit; [|apply solid_all; [done|]; intros; char_class|done].
    rewrite slice_mid, (solid_trim_self c0) by done. pose proof (solid_length _ Hc0).
    destruct (Z.ltb_spec 0 (length c0)); [|lia]. destruct (Z.leb_spec mx (length its)); [lia|].
    cbn [andb]. unfold charAt. rewrite lookup_app_at.
    assert ((c0 ++ 10 :: rest) !! length c0 = Some 10) as -> by (by rewrite lookup_app_here).
    cbn [bool_decide decide option_eq_dec]. cbn.
    set (it := Item _ _ _ _ _). apply Forall_cons in Hcs as [Hc Hcs].
    destruct (IH c fuel ((pre ++ c0) ++ [10]) (its ++ [it])) as (its' & Hseg & Hval); [done|done| |cbn in Hf; lia|].
    { rewrite length_app. cbn. lia. }
    exists (it :: its'). rewrite !length_app, <- !app_assoc in Hseg. cbn in Hseg. split; [done|].
    cbn. by rewrite Hval.
Qed.

Lemma segmentComma_join cs fuel pre l mx tc its c0 :
  forallb is_ws l = true -> forallb (λ x, negb (44 =? x)) l = true ->
  solid c0 -> Forall solid cs -> length its + 1 + length cs <= mx -> (length cs < fuel)%nat ->
  ∃ its', segmentComma_loop fuel (pre ++ l ++ join [44; 32] (c0 :: cs)) mx tc (length pre)
            (length its) its [] = Some (Seg (its ++ its') []) /\ map value its' = c0 :: cs.
Proof.
  revert c0 l fuel pre its. induction cs as [|c cs IH]; intros c0 l fuel pre its Hl Hl' Hc0 Hcs Hmx Hf;
    (destruct fuel as [|fuel]; [lia|]); rewrite join_cons; cbn [segmentComma_loop];
    unfold indexOf; cbn [length] in Hmx; pose proof (solid_length _ Hc0) as Hlen0;
    assert (forallb (λ x, negb (44 =? x)) (l ++ c0) = true) as Hnc
      by (rewrite forallb_app, Hl'; apply solid_all; [done|]; intros; char_class).
  - rewrite app_nil_r, find_from_miss by done. rewrite length_app.
    replace (slice (pre ++ l ++ c0) _ _) with (l ++ c0).
    2: { symmetry. replace (pre ++ l ++ c0) with (pre ++ (l ++ c0) ++ []) by (by rewrite app_nil_r).
         apply slice_mid. }
    rewrite (solid_trim l c0) by done.
    destruct (Z.eqb_spec (length c0) 0); [lia|]. destruct (Z.leb_spec mx (length its)); [lia|].
    by eexists [_].
  - rewrite <- !app_comm_cons, app_nil_l. set (rest := join [44; 32] (c :: cs)).
    rewrite (app_assoc l c0), find_from_hit by done.
    rewrite slice_mid, (solid_trim l c0) by done.
    destruct (Z.eqb_spec (length c0) 0); [lia|]. destruct (Z.leb_spec mx (length its)); [lia|].
    set (it := Item _ _ _ _ _). apply Forall_cons in Hcs as [Hc Hcs].
    destruct (IH c [32] fuel ((pre ++ l ++ c0) ++ [44]) (its ++ [it])) as (its' & Hseg & Hval);
      [done..| |cbn in Hf; lia|].
    { rewrite length_app. cbn. lia. }
    exists (it :: its'). rewrite !length_app, <- !app_assoc in Hseg. cbn [length app] in Hseg.
    rewrite !length_app, <- !app_assoc in *. cbn [length app] in *.
    replace (length its + 1)%Z with (Z.of_nat (length its + 1)) by lia.
    split; [|cbn; by rewrite Hval]. rewrite <- Hseg. f_equal; try done; lia.
Qed.

(** ** The array format: the tokenizer reads back what [JSON.stringify] writes *)

Definition is_unit (c : Z) : bool := (0 <=? c) && (c <? 65536).

Lemma hex_digit_facts k : 0 <= k < 16 ->
  is_hex (hex_digit k) = true /\ hex_value (hex_digit k) = k /\ hex_digit k <> 123.
Proof. unfold is_hex, hex_value, hex_digit. intros. repeat case_match; lia. Qed.

Lemma land_15 x : Z.land x 15 = x mod 16.
Proof. change 15 with (Z.ones 4). by rewrite Z.land_ones. Qed.

Lemma nibbles c : 0 <= c < 65536 ->
  16 * (16 * (16 * (c / 4096 mod 16) + c / 256 mod 16) + c / 16 mod 16) + c mod 16 = c.
Proof. intros. Z.to_euclidean_division_equations; lia. Qed.

Lemma readEscape_unicode pre c rest n : is_unit c = true ->
  readEscape (pre ++ unicode_escape c ++ rest) (length pre) n = EscapeOk [c] (length pre + 6).
Proof.
  intros Hc. assert (0 <= c < 65536) as Hr by (unfold is_unit in Hc; lia).
  unfold readEscape, readUnicodeEscape, charAt. rewrite !lookup_app_at.
  unfold unicode_escape. cbn [app].
  rewrite !Z.shiftr_div_pow2, !land_15 by lia.
  change (2 ^ 12) with 4096. change (2 ^ 8) with 256. change (2 ^ 4) with 16.
  destruct (hex_digit_facts (c / 4096 mod 16)) as (A1 & A2 & A3); [by apply Z.mod_pos_bound|].
  destruct (hex_digit_facts (c / 256 mod 16)) as (B1 & B2 & _); [by apply Z.mod_pos_bound|].
  destruct (hex_digit_facts (c / 16 mod 16)) as (C1 & C2 & _); [by apply Z.mod_pos_bound|].
  destruct (hex_digit_facts (c mod 16)) as (D1 & D2 & _); [by apply Z.mod_pos_bound|].
  pose proof (nibbles c Hr) as Hn.
  cbn. rewrite bool_decide_eq_false_2 by congruence.
  replace (length pre + 6)%nat with (length pre + 2 + 4)%nat by lia.
  rewrite slice_app_at. cbn [drop take].
  cbn. change (take 0 rest) with (@nil Z). unfold HEX. cbn. rewrite A1, B1, C1, D1. cbn.
  unfold parse_hex. cbn [fold_left]. rewrite A2, B2, C2, D2. do 2 f_equal. lia.
Qed.

(** [text] is read as [cp]: from the start of [text], the literal loop reaches its end
    with [cp] appended, in at most one iteration per unit. *)
Definition reads_as (text cp : jsstr) : Prop :=
  ∃ k, (k <= length text)%nat /\ ∀ fuel pre post st n out,
    readStringLiteral_loop (k + fuel) (pre ++ text ++ post) st n 34 out (length pre)
    = readStringLiteral_loop fuel (pre ++ text ++ post) st n 34 (out ++ cp)
        (length pre + length text).

Lemma reads_plain c : 32 <= c -> c <> 34 -> c <> 92 -> reads_as [c] [c].
Proof.
  intros. exists 1%nat. split; [done|]. intros. cbn [Nat.add readStringLiteral_loop].
  unfold charAt. rewrite lookup_app_here. cbn [app head].
  replace (c =? 34) with false by lia. replace (c =? 92) with false by lia.
  replace (negb (34 =? 96) && ((c =? 10) || (c =? 13))) with false by lia. done.
Qed.

Lemma reads_escape text c :
  head text = Some 92 -> (0 < length text)%nat ->
  (∀ pre post n, readEscape (pre ++ text ++ post) (length pre) n
                 = EscapeOk [c] (length pre + length text)) ->
  reads_as text [c].
Proof.
  intros Hh Hlen Hesc. exists 1%nat. split; [lia|]. intros. cbn [Nat.add readStringLiteral_loop].
  unfold charAt. rewrite lookup_app_here. destruct text as [|x text]; [done|].
  cbn in Hh. injection Hh as ->. cbn [app head]. change (92 =? 34) with false.
  change (92 =? 92) with true. cbn iota. change (92 :: text ++ post) with ((92 :: text) ++ post).
  by rewrite Hesc.
Qed.

Lemma readEscape_short x c :
  (x, c) ∈ [(98, 8); (116, 9); (110, 10); (102, 12); (114, 13); (34, 34); (92, 92)] ->
  ∀ pre post n, readEscape (pre ++ [92; x] ++ post) (length pre) n
                = EscapeOk [c] (length pre + 2).
Proof.
  intros Hx pre post n. unfold readEscape, charAt. rewrite !lookup_app_at.
  repeat (apply elem_of_cons in Hx as [[= -> ->]|Hx]; [done|]). by apply elem_of_nil in Hx.
Qed.

Lemma reads_quote_unit c : is_unit c = true -> reads_as (quote_unit c) [c].
Proof.
  intros Hc. unfold quote_unit.
  assert (∀ x, (x, c) ∈ [(98, 8); (116, 9); (110, 10); (102, 12); (114, 13); (34, 34); (92, 92)] ->
    reads_as [92; x] [c]) as Hs.
  { intros x Hx. apply reads_escape; [done|cbn; lia|]. by apply readEscape_short. }
  destruct (Z.eqb_spec c 8) as [->|]; [apply Hs; set_solver|].
  destruct (Z.eqb_spec c 9) as [->|]; [apply Hs; set_solver|].
  destruct (Z.eqb_spec c 10) as [->|]; [apply Hs; set_solver|].
  destruct (Z.eqb_spec c 12) as [->|]; [apply Hs; set_solver|].
  destruct (Z.eqb_spec c 13) as [->|]; [apply Hs; set_solver|].
  destruct (Z.eqb_spec c 34) as [->|]; [apply Hs; set_solver|].
  destruct (Z.eqb_spec c 92) as [->|]; [apply Hs; set_solver|].
  destruct (Z.ltb_spec c 32); [|by apply reads_plain].
  apply reads_escape; [done|cbn; lia|]. intros. by apply readEscape_unicode.
Qed.

Lemma reads_app t1 c1 t2 c2 : reads_as t1 c1 -> reads_as t2 c2 -> reads_as (t1 ++ t2) (c1 ++ c2).
Proof.
  intros (k1 & Hk1 & H1) (k2 & Hk2 & H2). exists (k1 + k2)%nat.
  rewrite length_app. split; [lia|]. intros.
  rewrite <- app_assoc, <- Nat.add_assoc, H1.
  specialize (H2 fuel (pre ++ t1) post st n (out ++ c1)).
  rewrite length_app, <- !app_assoc in H2. rewrite H2. by rewrite Nat.add_assoc.
Qed.

Definition json_body (s : jsstr) : jsstr := concat (map quote_point (code_points s)).

Lemma reads_body s : forallb is_unit s = true -> reads_as (json_body s) s.
Proof.
  remember (length s) as n eqn:Hn. revert s Hn. induction n as [n IH] using lt_wf_ind.
  intros s -> Hs.
  assert (∀ a s1, s = a :: s1 -> reads_as (quote_point [a] ++ json_body s1) (a :: s1)) as Hone.
  { intros a s1 ->. cbn in Hs. apply andb_true_iff in Hs as [Ha Hs].
    apply (reads_app _ [a]); [|apply (IH (length s1)); auto].
    cbn. destruct (is_high a || is_low a); [|by apply reads_quote_unit].
    apply reads_escape; [done|cbn; lia|]. intros. by apply readEscape_unicode. }
  destruct s as [|a [|b s2]].
  - exists 0%nat. split; [done|]. intros. cbn. by rewrite app_nil_r, Nat.add_0_r.
  - by apply (Hone a []).
  - unfold json_body. cbn [code_points]. destruct (is_high a && is_low b) eqn:E; [|by apply (Hone a (b :: s2))].
    cbn. cbn in Hs. apply (reads_app [a; b] [a; b]); [|apply (IH (length s2)); [cbn; lia|done|lia]].
    apply (reads_app [a] [a] [b] [b]); apply reads_plain; char_class.
Qed.

Lemma json_stringify_body s : json_stringify s = 34 :: json_body s ++ [34].
Proof. done. Qed.

Lemma readStringLiteral_stringify s pre post n : forallb is_unit s = true ->
  readStringLiteral (pre ++ json_stringify s ++ post) (length pre) n
  = Some (LiteralOk s (length pre + length (json_stringify s))).
Proof.
  intros Hs. rewrite json_stringify_body. unfold readStringLiteral, charAt.
  rewrite lookup_app_here. cbn [app head].
  destruct (reads_body s Hs) as (k & Hk & Hr).
  assert (∃ f, S (length (pre ++ 34 :: (json_body s ++ [34]) ++ post)) = (k + S f)%nat) as [f ->].
  { exists (length pre + length (json_body s) + length post + 2 - k)%nat.
    rewrite !length_app. cbn [length]. rewrite !length_app. cbn [length]. lia. }
  specialize (Hr (S f) (pre ++ [34]) (34 :: post) (length pre) n []).
  rewrite length_app, <- !app_assoc in Hr. cbn [app length] in Hr.
  rewrite <- app_assoc. cbn [app]. rewrite Hr. cbn [readStringLiteral_loop].
  assert (charAt (pre ++ 34 :: json_body s ++ 34 :: post) (length pre + 1 + length (json_body s))
          = Some 34) as ->.
  { unfold charAt. rewrite <- Nat.add_assoc, lookup_app_at. cbn.
    exact (lookup_app_here (json_body s) (34 :: post)). }
  cbn. do 2 f_equal. rewrite length_app. cbn. lia.
Qed.

Lemma json_stringify_cons s rest : json_stringify s ++ rest = 34 :: json_body s ++ [34] ++ rest.
Proof. rewrite json_stringify_body. cbn. by rewrite <- app_assoc. Qed.

Lemma skipWhitespace_to pre l c rest :
  forallb is_ws l = true -> is_ws c = false ->
  skipWhitespace (pre ++ l ++ c :: rest) (length pre) = (length pre + length l)%nat.
Proof. apply scan_while_stop. Qed.

Lemma charAt_here pre c rest : charAt (pre ++ c :: rest) (length pre) = Some c.
Proof. unfold charAt. by rewrite lookup_app_here. Qed.

Lemma afterArray_end pre its : afterArray pre its (length pre) = Seg its [].
Proof.
  unfold afterArray, skipWhitespace, scan_while. rewrite drop_ge by lia.
  change (span_len is_ws []) with 0%nat. by rewrite Nat.add_0_r, Nat.ltb_irrefl.
Qed.

(** One element: from white space before the literal to just after its closing quote. *)
Lemma segmentArray_element fuel pre l s rest mx its h :
  forallb is_ws l = true -> forallb is_unit s = true -> length its < mx ->
  ∃ it, value it = s /\
    segmentArray_loop (S fuel) (pre ++ l ++ json_stringify s ++ rest) mx (length pre) its true h
    = segmentArray_loop fuel ((pre ++ l ++ json_stringify s) ++ rest) mx
        (length (pre ++ l ++ json_stringify s)) (its ++ [it]) false
        (includes s 44 || existsb is_ws s).
Proof.
  intros Hl Hs Hmx. eexists (Item s (length (pre ++ l)) _ false _). split; [done|].
  set (src := pre ++ l ++ json_stringify s ++ rest).
  assert (skipWhitespace src (length pre) = length (pre ++ l)) as Hsk.
  { unfold src. rewrite json_stringify_cons, skipWhitespace_to by done. by rewrite length_app. }
  assert (charAt src (length (pre ++ l)) = Some 34) as Hch.
  { unfold src. rewrite json_stringify_cons, app_assoc. apply charAt_here. }
  assert (∀ n, readStringLiteral src (length (pre ++ l)) n
    = Some (LiteralOk s (length (pre ++ l) + length (json_stringify s)))) as Hrd.
  { intros n. unfold src. rewrite app_assoc. by apply readStringLiteral_stringify. }
  cbn [segmentArray_loop]. rewrite Hsk, Hch. cbn [negb].
  change (34 =? 93) with false. cbn iota.
  change (elementIssue _ 34 _ _) with (@None BackupCodesIssue). cbn iota.
  rewrite Hrd. destruct (Z.leb_spec mx (length its)); [lia|].
  unfold src. rewrite <- !app_assoc, !length_app. f_equal. lia.
Qed.

Lemma segmentArray_join cs fuel pre l mx its h s :
  forallb is_ws l = true -> Forall (λ c, forallb is_unit c = true) (s :: cs) ->
  length its + 1 + length cs <= mx -> (2 * length cs + 2 <= fuel)%nat ->
  ∃ its', segmentArray_loop fuel
            (pre ++ l ++ join [44; 32] (map json_stringify (s :: cs)) ++ [93]) mx (length pre) its true h
          = Some (Seg (its ++ its') []) /\ map value its' = s :: cs.
Proof.
  revert s l fuel pre its h. induction cs as [|c cs IH]; intros s l fuel pre its h Hl Hs Hmx Hf;
    apply Forall_cons in Hs as [Hs Hcs]; cbn [length] in Hmx, Hf;
    (destruct fuel as [|[|fuel]]; [lia|lia|]); cbn [map]; rewrite join_cons.
  - rewrite app_nil_r.
    destruct (segmentArray_element (S fuel) pre l s [93] mx its h) as (it & Hv & ->); [done|done|lia|].
    set (p := pre ++ l ++ json_stringify s). cbn [segmentArray_loop].
    pose proof (skipWhitespace_to p [] 93 []) as Hsk. cbn [app length] in Hsk.
    rewrite Nat.add_0_r in Hsk. rewrite Hsk, charAt_here by done. cbn.
    replace (length p + 1)%nat with (length (p ++ [93])) by (rewrite length_app; done).
    rewrite afterArray_end. exists [it]. cbn. by rewrite Hv.
  - rewrite <- !app_assoc. cbn [map]. set (rest := join [44; 32] _).
    destruct (segmentArray_element (S fuel) pre l s ([44; 32] ++ rest ++ [93]) mx its h)
      as (it & Hv & ->); [done|done|lia|].
    set (p := pre ++ l ++ json_stringify s). cbn [segmentArray_loop].
    pose proof (skipWhitespace_to p [] 44 (32 :: rest ++ [93])) as Hsk. cbn [app length] in Hsk.
    rewrite Nat.add_0_r in Hsk. cbn [app]. rewrite Hsk, charAt_here by done. cbn.
    destruct (IH c [32] fuel (p ++ [44]) (its ++ [it]) (includes s 44 || existsb is_ws s))
      as (its' & Hseg & Hval); [done|done|rewrite length_app; cbn; lia|cbn in Hf; lia|].
    exists (it :: its'). rewrite length_app, <- !app_assoc in Hseg. split; [exact Hseg|].
    cbn. by rewrite Hv, Hval.
Qed.

Lemma length_join_ge {A} sep (g : A -> jsstr) (cs : list A) k :
  (∀ c, (k <= length (g c))%nat) -> (k * length cs <= length (join sep (map g cs)))%nat.
Proof.
  intros Hg. induction cs as [|c cs IH]; [cbn; lia|]. cbn [map]. rewrite join_cons, length_app.
  specialize (Hg c). destruct cs as [|c2 cs]; cbn [map length] in *; [lia|].
  rewrite length_app. cbn [map length] in *. lia.
Qed.

Lemma segmentArray_format s cs mx :
  Forall (λ c, forallb is_unit c = true) (s :: cs) -> length (s :: cs) <= mx ->
  ∃ its, segmentArray (formatBackupCodes (s :: cs) Fmt_array) mx = Some (Seg its [])
         /\ map value its = s :: cs.
Proof.
  intros Hs Hmx. unfold formatBackupCodes, segmentArray.
  change (js ", ") with [44; 32]. set (body := join [44; 32] _).
  pose proof (skipWhitespace_to [] [] 91 (body ++ [93]) eq_refl eq_refl) as Hsk.
  cbn [app length Nat.add] in Hsk. cbn [app]. rewrite Hsk.
  change (charAt (91 :: body ++ [93]) 0) with (Some 91). rewrite bool_decide_eq_true_2 by done.
  destruct (segmentArray_join cs (S (length (91 :: body ++ [93]))) [91] [] mx [] false s)
    as (its & Hseg & Hv); [done|done|cbn in *; lia| |by exists its].
  pose proof (length_join_ge [44; 32] json_stringify (s :: cs) 2) as Hlen.
  fold body in Hlen. cbn [length] in *. rewrite length_app. cbn [length].
  assert (∀ c, (2 <= length (json_stringify c))%nat) as H2; [|specialize (Hlen H2); lia].
  intros c. rewrite json_stringify_body. cbn. rewrite length_app. cbn. lia.
Qed.

(** ** The parser inverts the formatter *)

(** Items that carry valid codes raise no issue: the parse is their values. *)
Lemma parseWithFormat_items input f d l its :
  trim input <> [] -> segment input f l = Some (Seg its []) ->
  Forall (λ c, isValidBackupCode c (maxCodeLength l) = true) (map value its) ->
  parseWithFormat input f d l = Some (ParseOk (map value its) f d).
Proof.
  intros Hne Hseg Hv. unfold parseWithFormat. rewrite bool_decide_eq_false_2, Hseg by done. cbn.
  assert (omap (λ item, classifyItem item f l) its = []) as ->; [|done].
  clear Hseg. induction its as [|it its IH]; [done|]. cbn [map] in Hv.
  apply Forall_cons in Hv as [Hit Hv]. cbn [omap list_omap].
  apply (classifyItem_None it f l) in Hit. rewrite Hit. by apply IH.
Qed.

(** Formatted text starts and ends with visible characters. *)
Definition visible_ends (s : jsstr) : Prop :=
  ∃ c s' d, s = c :: s' /\ is_ws c = false /\ last s = Some d /\ is_ws d = false.

Lemma visible_ends_trim s : visible_ends s -> trim s = s /\ s <> [].
Proof.
  intros (c & s' & d & -> & Hc & Hl & Hd). split; [|done].
  unfold trim. rewrite trimStart_stop by done.
  apply last_Some in Hl as [s2 ->]. by apply trimEnd_stop.
Qed.

Lemma visible_solid v : solid v -> visible_ends v.
Proof.
  intros Hv. pose proof Hv as [Hne Hall]. destruct (exists_last Hne) as (v' & d & E).
  destruct (solid_head v Hv) as (c & v2 & E2 & Hc). exists c, v2, d. split_and!; [done|char_class| |].
  - rewrite E. apply last_snoc.
  - rewrite E, forallb_app in Hall. apply andb_true_iff in Hall as [_ Hd]. cbn in Hd. char_class.
Qed.

Lemma visible_join sep c cs : solid c -> Forall solid cs -> visible_ends (join sep (c :: cs)).
Proof.
  revert c. induction cs as [|c2 cs IH]; intros c Hc Hcs; [by apply visible_solid|].
  apply Forall_cons in Hcs as [Hc2 Hcs].
  destruct (IH c2 Hc2 Hcs) as (a & s' & d & E & Ha & Hl & Hd).
  destruct (solid_head c Hc) as (h & c' & E2 & Hh).
  rewrite join_cons. exists h, (c' ++ sep ++ join sep (c2 :: cs)), d.
  split_and!; [by rewrite E2|char_class| |done].
  rewrite app_assoc, last_app, Hl. done.
Qed.

Lemma visible_array s cs : visible_ends (formatBackupCodes (s :: cs) Fmt_array).
Proof.
  unfold formatBackupCodes. eexists 91, _, 93. split_and!; [done|done| |done].
  rewrite app_assoc. apply last_snoc.
Qed.

Lemma visible_format cs f : Forall solid cs -> cs <> [] -> visible_ends (formatBackupCodes cs f).
Proof.
  intros Hcs Hne. destruct cs as [|c cs]; [done|]. pose proof Hcs as [Hc Hcs']%Forall_cons.
  destruct f; [apply visible_array|apply visible_join..]; done.
Qed.

(** The number of codes a format can carry: [single] holds one. *)
Definition fits (f : BackupCodesFormat) (cs : list jsstr) : Prop :=
  match f with Fmt_single => length cs = 1%nat | _ => True end.

Lemma solid_join_length sep c cs :
  solid c -> Forall solid cs -> (length cs < length (join sep (c :: cs)))%nat.
Proof.
  revert c. induction cs as [|c2 cs IH]; intros c Hc Hcs; rewrite join_cons, length_app;
    pose proof (solid_length c Hc); [cbn; lia|].
  apply Forall_cons in Hcs as [Hc2 Hcs]. specialize (IH c2 Hc2 Hcs).
  rewrite length_app. cbn [length]. lia.
Qed.

Lemma segment_format c cs f l :
  Forall solid (c :: cs) -> length (c :: cs) <= max l -> fits f (c :: cs) ->
  ∃ its, segment (formatBackupCodes (c :: cs) f) f l = Some (Seg its []) /\ map value its = c :: cs.
Proof.
  intros Hs Hmx Hfit. pose proof Hs as [Hc Hcs]%Forall_cons. cbn [length] in Hmx.
  destruct f; cbn [segment].
  - apply segmentArray_format; [|done]. eapply Forall_impl; [exact Hs|]. intros v Hv.
    apply solid_all; [done|]. unfold is_unit. intros. char_class.
  - unfold segmentComma, formatBackupCodes. change (js ", ") with [44; 32].
    apply (segmentComma_join cs _ [] [] _ _ [] c); try done; [cbn; lia|].
    pose proof (solid_join_length [44; 32] c cs Hc Hcs). lia.
  - unfold segmentSpace, formatBackupCodes. change (js " ") with [32].
    apply (segmentSpace_join (c :: cs) _ [] _ []); try done. lia.
  - unfold segmentNewline, formatBackupCodes.
    apply (segmentNewline_join cs _ [] _ [] c); try done; [cbn; lia|].
    pose proof (solid_join_length [10] c cs Hc Hcs). lia.
  - destruct cs; [|done]. unfold segmentSingle, formatBackupCodes. cbn [join].
    rewrite (solid_trim_self c) by done. destruct (Z.ltb_spec (max l) 1); [cbn in Hmx; lia|].
    by eexists [_].
Qed.

Lemma existsb_join q sep c cs :
  existsb q (join sep (c :: cs))
  = existsb q c || (match cs with [] => false | _ => existsb q sep end)
    || existsb (existsb q) cs.
Proof.
  revert c. induction cs as [|c2 cs IH]; intros c; rewrite join_cons, existsb_app; cbn [existsb].
  - by destruct (existsb q c).
  - rewrite existsb_app, IH. set (e := existsb (existsb q) cs).
    by destruct cs, (existsb q c), (existsb q sep), (existsb q c2), e.
Qed.

Lemma existsb_join_solid q sep c cs :
  solid c -> Forall solid cs -> (∀ x, code_char x = true -> q x = false) ->
  existsb q (join sep (c :: cs)) = match cs with [] => false | _ => existsb q sep end.
Proof.
  intros Hc Hcs Hq. rewrite existsb_join.
  assert (∀ v, solid v -> existsb q v = false) as Hv.
  { intros v [_ Hv]. by apply (existsb_none code_char). }
  rewrite (Hv c) by done. assert (existsb (existsb q) cs = false) as ->; [|by rewrite orb_false_r].
  induction Hcs as [|v cs Hv' _ IH]; [done|]. cbn. by rewrite (Hv v), IH.
Qed.

(** What [auto] infers from formatted text. *)
Definition detected_format (f : BackupCodesFormat) (cs : list jsstr) : BackupCodesFormat :=
  match f, cs with
  | _, [] => Fmt_single
  | Fmt_array, _ => Fmt_array
  | _, [_] => Fmt_single
  | Fmt_single, _ => Fmt_newline
  | _, _ => f
  end.

Lemma detectFormats_join sep c cs :
  solid c -> Forall solid cs ->
  detectFormats (join sep (c :: cs)) =
    match cs with [] => (Fmt_single, []) | _ => detectFormats sep end.
Proof.
  intros Hc Hcs. unfold detectFormats, includes.
  rewrite !existsb_join_solid by (try done; unfold is_horizontal_ws; intros; char_class).
  by destruct cs.
Qed.

Lemma not_array c s : code_char c = true -> starts_with (c :: s) [91] = false.
Proof. intros Hc. cbn. replace (c =? 91) with false by char_class. done. Qed.

Lemma format_head f c cs : solid c -> f <> Fmt_array ->
  ∃ h s, formatBackupCodes (c :: cs) f = h :: s /\ code_char h = true.
Proof.
  intros Hc Hf. destruct (solid_head c Hc) as (h & c' & -> & Hh). exists h.
  destruct f; [done|..]; cbn [formatBackupCodes]; rewrite join_cons; eexists; by split.
Qed.

Lemma format_detected c cs f :
  formatBackupCodes (c :: cs) f = formatBackupCodes (c :: cs) (detected_format f (c :: cs))
  /\ fits (detected_format f (c :: cs)) (c :: cs).
Proof. by destruct f, cs. Qed.

Lemma detectFormats_format f c cs : solid c -> Forall solid cs -> f <> Fmt_array ->
  (detectFormats (formatBackupCodes (c :: cs) f)).1 = detected_format f (c :: cs).
Proof.
  intros. destruct f; [done|..]; unfold formatBackupCodes; rewrite detectFormats_join by done;
    by destruct cs.
Qed.

(** Text written by [formatBackupCodes] in a declared format is parsed back, under
    that format, to exactly the codes it was written from, for every list of valid codes
    within the caps ([single] holds one code). *)
Theorem parse_format_declared codes f options :
  o_format options = Some (In_format f) ->
  let l := limits_of options in
  Forall (λ c, isValidBackupCode c (maxCodeLength l) = true) codes ->
  length codes <= max l -> fits f codes ->
  length (formatBackupCodes codes f) <= maxInputLength l ->
  parseBackupCodes (formatBackupCodes codes f) options = Some (ParseOk codes f false).
Proof.
  intros Hf l Hv Hmx Hfit Hlen. unfold parseBackupCodes. rewrite Hf. fold l.
  change (default In_auto (Some (In_format f))) with (In_format f). cbn iota.
  destruct (Z.ltb_spec (maxInputLength l) (length (formatBackupCodes codes f))); [lia|].
  destruct codes as [|c cs]; [done|]. pose proof (valid_solid _ _ Hv) as Hs.
  destruct (segment_format c cs f l) as (its & Hseg & Hval); [done..|].
  rewrite (parseWithFormat_items _ f false l its); [by rewrite Hval| |done|by rewrite Hval].
  destruct (visible_ends_trim (formatBackupCodes (c :: cs) f)) as [-> ?]; [by apply visible_format|done].
Qed.

Lemma parse_format_declared_witness :
  parseBackupCodes (jsq "[^ab-12^, ^CD.34^]") (mkOptions (Some (In_format Fmt_array)) None None None)
  = Some (ParseOk [js "ab-12"; js "CD.34"] Fmt_array false).
Proof.
  apply (parse_format_declared [js "ab-12"; js "CD.34"] Fmt_array
           (mkOptions (Some (In_format Fmt_array)) None None None));
    [done|repeat constructor|vm_compute; discriminate|done|vm_compute; discriminate].
Defined.

(** The same under [auto], for every format text can be written in: the parser
    infers the format the text has and returns the codes it was written from. *)
Theorem parse_format_auto codes f options :
  default In_auto (o_format options) = In_auto ->
  let l := limits_of options in
  Forall (λ c, isValidBackupCode c (maxCodeLength l) = true) codes ->
  length codes <= max l ->
  length (formatBackupCodes codes f) <= maxInputLength l ->
  parseBackupCodes (formatBackupCodes codes f) options
  = Some (ParseOk codes (detected_format f codes) true).
Proof.
  intros Hf l Hv Hmx Hlen. unfold parseBackupCodes. rewrite Hf. fold l.
  destruct (Z.ltb_spec (maxInputLength l) (length (formatBackupCodes codes f))); [lia|].
  destruct codes as [|c cs]; [by destruct f|]. pose proof (valid_solid _ _ Hv) as Hs.
  destruct (visible_ends_trim (formatBackupCodes (c :: cs) f)) as [Ht Hne]; [by apply visible_format|].
  destruct (format_detected c cs f) as [Hd Hfit].
  destruct (segment_format c cs (detected_format f (c :: cs)) l) as (its & Hseg & Hval); [done..|].
  assert (parseWithFormat (formatBackupCodes (c :: cs) f) (detected_format f (c :: cs)) true l
          = Some (ParseOk (c :: cs) (detected_format f (c :: cs)) true)) as Hparse.
  { rewrite (parseWithFormat_items _ _ true l its);
      [by rewrite Hval|by rewrite Ht|by rewrite Hd|by rewrite Hval]. }
  rewrite Ht, bool_decide_eq_false_2 by done. pose proof Hs as [Hc Hcs]%Forall_cons.
  assert (f = Fmt_array \/ f <> Fmt_array) as [->|Hna] by (destruct f; auto).
  { change (starts_with (formatBackupCodes (c :: cs) Fmt_array) [91]) with true. by destruct cs. }
  destruct (format_head f c cs Hc Hna) as (h & s & E & Hh).
  assert (starts_with (formatBackupCodes (c :: cs) f) [91] = false) as ->.
  { rewrite E. by apply not_array. }
  pose proof (detectFormats_format f c cs Hc Hcs Hna) as Hdet.
  destruct (detectFormats _) as [first others]. cbn in Hdet. rewrite Hdet, Hparse. done.
Qed.

Lemma parse_format_auto_witness :
  parseBackupCodes (js "ab-12, CD.34") default_options
  = Some (ParseOk [js "ab-12"; js "CD.34"] Fmt_comma true).
Proof.
  apply (parse_format_auto [js "ab-12"; js "CD.34"] Fmt_comma default_options);
    [done|repeat constructor|vm_compute; discriminate|vm_compute; discriminate].
Defined.

(** the array tokenizer inverts [JSON.stringify] on arbitrary text: whatever strings
    the list holds, quotes, backslashes, control characters and lone surrogates
    included, the array format yields exactly those strings and no issue. *)
Theorem segmentArray_inverts_stringify codes mx :
  codes <> [] -> Forall (Forall (λ c, 0 <= c < 65536)) codes -> length codes <= mx ->
  ∃ its, segmentArray (formatBackupCodes codes Fmt_array) mx = Some (Seg its [])
         /\ map value its = codes.
Proof.
  intros Hne Hu Hmx. destruct codes as [|c cs]; [done|]. apply segmentArray_format; [|done].
  eapply Forall_impl; [exact Hu|]. intros s Hs. apply forallb_forall. intros x Hx.
  rewrite Forall_forall in Hs. apply list_elem_of_In, Hs in Hx. unfold is_unit. lia.
Qed.

Lemma segmentArray_inverts_stringify_witness :
  ∃ its, segmentArray (formatBackupCodes [[34; 92; 10; 55357]; [1; 96]] Fmt_array) 2 = Some (Seg its [])
         /\ map value its = [[34; 92; 10; 55357]; [1; 96]].
Proof.
  apply (segmentArray_inverts_stringify [[34; 92; 10; 55357]; [1; 96]] 2);
    [done|repeat constructor; lia|cbn; lia].
Defined.
