(* ===== verification/BackupCodesPrivacy.v ===== *)
(** Nothing a rejection says depends on the letters and digits of a code: replacing any
    letters and digits by others changes no issue, message, hint or span. *)
From S2P Require Import Prelude BackupCodes BackupCodesSpec.
#[local] Open Scope Z_scope.
#[local] Coercion Z.of_nat : nat >-> Z.

(** A recoding of letters and digits that leaves every other unit alone. *)
Class Recoding (σ : Z -> Z) : Prop := {
  recode_alnum c : is_alnum c = true -> is_alnum (σ c) = true;
  recode_other c : is_alnum c = false -> σ c = c
}.

Section privacy.
Context (σ : Z -> Z) `{!Recoding σ}.

Definition recode_item (it : ParsedItem) : ParsedItem :=
  Item (map σ (value it)) (start it) (len it) (spanExact it) (itemNumber it).

Definition recode_seg (s : Segmentation) : Segmentation :=
  Seg (map recode_item (items s)) (issues s).

Definition recode_literal (l : Literal) : Literal :=
  match l with
  | LiteralOk v stop => LiteralOk (map σ v) stop
  | LiteralFailed i => LiteralFailed i
  end.

Definition recode_result (r : BackupCodesParseResult) : BackupCodesParseResult :=
  match r with
  | ParseOk codes f d => ParseOk (map (map σ) codes) f d
  | ParseFailed f d i iss => ParseFailed f d i iss
  end.

(** Every test the parser makes treats all letters and digits alike. *)
Definition blind (p : Z -> bool) : Prop := ∀ c, p (σ c) = p c.

Lemma blind_const (b : bool) p : (∀ c, is_alnum c = true -> p c = b) -> blind p.
Proof.
  intros Hp c. destruct (is_alnum c) eqn:E; [|by rewrite recode_other].
  rewrite !Hp; [done|done|by apply recode_alnum].
Qed.

Lemma blind_alnum : blind is_alnum.
Proof. apply (blind_const true). done. Qed.
Lemma blind_ws : blind is_ws.
Proof. apply (blind_const false). intros. char_class. Qed.
Lemma blind_line_break : blind is_line_break.
Proof. apply (blind_const false). intros. char_class. Qed.
Lemma blind_horizontal : blind is_horizontal_ws.
Proof. apply (blind_const false). intros. char_class. Qed.
Lemma blind_invisible : blind INVISIBLE.
Proof. apply (blind_const false). intros. char_class. Qed.
Lemma blind_brackets : blind (includes BRACKETS).
Proof. apply (blind_const false). intros. char_class. Qed.
Lemma blind_quotes : blind (includes QUOTES).
Proof. apply (blind_const false). intros. char_class. Qed.
Lemma blind_not_code : blind not_code_char.
Proof. apply (blind_const false). unfold not_code_char. intros. char_class. Qed.
Lemma blind_eqb k : is_alnum k = false -> blind (Z.eqb k).
Proof. intros Hk. apply (blind_const false). intros c Hc. destruct (Z.eqb_spec k c); congruence. Qed.
Lemma blind_eqb' k : is_alnum k = false -> blind (λ c, c =? k).
Proof. intros Hk c. rewrite !(Z.eqb_sym _ k). by apply blind_eqb. Qed.
Lemma blind_negb p : blind p -> blind (λ c, negb (p c)).
Proof. intros Hp c. by rewrite Hp. Qed.
Lemma blind_orb p q : blind p -> blind q -> blind (λ c, p c || q c).
Proof. intros Hp Hq c. by rewrite Hp, Hq. Qed.

#[local] Hint Resolve blind_alnum blind_ws blind_line_break blind_horizontal blind_invisible
  blind_brackets blind_quotes blind_not_code blind_eqb blind_eqb' blind_negb blind_orb : hv.

Lemma eqb_recode k c : is_alnum k = false -> (σ c =? k) = (c =? k).
Proof. intros Hk. by apply (blind_eqb' k). Qed.

(** ** The string operations commute with the recoding *)

Lemma drop_map n s : drop n (map σ s) = map σ (drop n s).
Proof. apply skipn_map. Qed.

Lemma slice_map s i j : slice (map σ s) i j = map σ (slice s i j).
Proof. unfold slice. by rewrite drop_map, <- firstn_map. Qed.

Lemma charAt_map s i : charAt (map σ s) i = σ <$> charAt s i.
Proof. unfold charAt. apply list_lookup_fmap. Qed.

Lemma charAt_is_map s i k : is_alnum k = false ->
  bool_decide (charAt (map σ s) i = Some k) = bool_decide (charAt s i = Some k).
Proof.
  intros Hk. rewrite charAt_map. apply bool_decide_ext. destruct (charAt s i) as [c|]; cbn; [|done].
  pose proof (eqb_recode k c Hk) as He. split; intros [= E]; f_equal; lia.
Qed.

Lemma scan_while_map p s i : blind p -> scan_while p (map σ s) i = scan_while p s i.
Proof. intros Hp. unfold scan_while. by rewrite drop_map, span_len_map. Qed.

Lemma existsb_map_blind p s : blind p -> existsb p (map σ s) = existsb p s.
Proof. intros Hp. induction s as [|c s IH]; cbn; [done|]. by rewrite Hp, IH. Qed.

Lemma find_from_blind p s i : blind p -> find_from p (map σ s) i = find_from p s i.
Proof. intros. by apply find_from_map. Qed.

Lemma trim_recode s : trim (map σ s) = map σ (trim s).
Proof. apply trim_map, blind_ws. Qed.

Lemma trimStart_recode s : trimStart (map σ s) = map σ (trimStart s).
Proof. apply trimStart_map, blind_ws. Qed.

Lemma last_is_map s k : is_alnum k = false ->
  bool_decide (last (trimEnd (map σ s)) = Some k) = bool_decide (last (trimEnd s) = Some k).
Proof.
  intros Hk. rewrite trimEnd_map by apply blind_ws. apply bool_decide_ext.
  pose proof (fmap_last σ (trimEnd s)) as Hl.
  change (map σ (trimEnd s)) with (σ <$> trimEnd s). rewrite Hl. destruct (last (trimEnd s)) as [c|]; cbn; [|done].
  pose proof (eqb_recode k c Hk). split; intros [= E]; f_equal; lia.
Qed.

(** ** Segmentation *)

Lemma segmentNewline_loop_recode fuel s mx pos its :
  segmentNewline_loop fuel (map σ s) mx pos (map recode_item its)
  = recode_seg <$> segmentNewline_loop fuel s mx pos its.
Proof.
  revert pos its. induction fuel as [|fuel IH]; intros pos its; [done|].
  cbn [segmentNewline_loop]. unfold nextLineBreak.
  rewrite find_from_blind by auto with hv. rewrite !length_map, !slice_map, !trimStart_recode,
    !trim_recode, !length_map.
  set (stop := match find_from is_line_break s pos with Some b => b | None => _ end).
  destruct ((0 <? length (trim (slice s pos stop))) && (mx <=? length its)) eqn:E; [done|].
  set (it := Item (trim _) _ _ _ _).
  replace (if 0 <? length (trim (slice s pos stop)) then _ ++ _ else map recode_item its)
    with (map recode_item (if 0 <? length (trim (slice s pos stop)) then its ++ [it] else its))
    by (destruct (0 <? length _); [apply map_app|done]).
  destruct (find_from is_line_break s pos) as [b|]; [|done].
  by rewrite !charAt_is_map, IH.
Qed.

Lemma segmentComma_loop_recode fuel s mx tc pos n its iss :
  segmentComma_loop fuel (map σ s) mx tc pos n (map recode_item its) iss
  = recode_seg <$> segmentComma_loop fuel s mx tc pos n its iss.
Proof.
  revert pos n its iss. induction fuel as [|fuel IH]; intros pos n its iss; [done|].
  cbn [segmentComma_loop]. unfold indexOf.
  rewrite find_from_blind by auto with hv. rewrite !length_map, !slice_map, !trimStart_recode,
    !trim_recode, !length_map.
  set (stop := match find_from (Z.eqb 44) s pos with Some b => b | None => _ end).
  destruct (length (trim (slice s pos stop)) =? 0).
  - destruct (find_from (Z.eqb 44) s pos); [apply IH|done].
  - destruct (mx <=? length its); [done|].
    set (it := Item (trim _) _ _ _ _).
    replace (map recode_item its ++ [_]) with (map recode_item (its ++ [it])) by apply map_app.
    destruct (find_from (Z.eqb 44) s pos); [apply IH|done].
Qed.

Lemma segmentSpace_loop_recode fuel s mx pos its :
  segmentSpace_loop fuel (map σ s) mx pos (map recode_item its)
  = recode_seg <$> segmentSpace_loop fuel s mx pos its.
Proof.
  revert pos its. induction fuel as [|fuel IH]; intros pos its; [done|].
  cbn [segmentSpace_loop]. rewrite charAt_map.
  destruct (charAt s pos) as [c|]; [|done]. cbn [fmap option_fmap option_map].
  rewrite blind_ws. destruct (is_ws c); [apply IH|].
  rewrite scan_while_map by auto with hv. rewrite slice_map, !length_map.
  set (stop := scan_while _ s pos). destruct (mx <=? length its); [done|].
  rewrite <- (IH stop), map_app. done.
Qed.

(** The literal reader, on text without a backslash. *)
Lemma readStringLiteral_loop_recode fuel s st n q out i :
  92 ∉ s -> is_alnum q = false ->
  readStringLiteral_loop fuel (map σ s) st n q (map σ out) i
  = recode_literal <$> readStringLiteral_loop fuel s st n q out i.
Proof.
  intros Hs Hq. revert out i. induction fuel as [|fuel IH]; intros out i; [done|].
  cbn [readStringLiteral_loop]. rewrite charAt_map. destruct (charAt s i) as [c|] eqn:Hc;
    cbn [fmap option_fmap option_map]; [|by rewrite length_map].
  rewrite !eqb_recode, charAt_is_map by done. destruct (c =? q); [done|].
  destruct (Z.eqb_spec c 92) as [->|_].
  { destruct Hs. apply list_elem_of_lookup. by exists i. }
  destruct (negb (q =? 96) && _); [done|].
  destruct ((q =? 96) && _ && _); [done|].
  rewrite <- IH, map_app. done.
Qed.

Lemma readStringLiteral_recode s st n :
  92 ∉ s -> (∀ q, charAt s st = Some q -> is_alnum q = false) ->
  readStringLiteral (map σ s) st n = recode_literal <$> readStringLiteral s st n.
Proof.
  intros Hs Hq. unfold readStringLiteral. rewrite charAt_map, length_map.
  destruct (charAt s st) as [q|]; [|done]. cbn [fmap option_fmap option_map].
  rewrite recode_other by auto. apply (readStringLiteral_loop_recode _ _ _ _ _ []); auto.
Qed.

Lemma skipWhitespace_recode s i : skipWhitespace (map σ s) i = skipWhitespace s i.
Proof. by apply scan_while_map, blind_ws. Qed.

Lemma afterArray_recode s its pos :
  afterArray (map σ s) (map recode_item its) pos = recode_seg (afterArray s its pos).
Proof.
  unfold afterArray. rewrite skipWhitespace_recode, length_map. by case_match.
Qed.

Lemma separatorIssue_recode c n h pos : separatorIssue (σ c) n h pos = separatorIssue c n h pos.
Proof. unfold separatorIssue. by rewrite blind_quotes. Qed.

Lemma elementIssue_recode s c n pos :
  elementIssue (map σ s) (σ c) n pos = elementIssue s c n pos.
Proof.
  unfold elementIssue, bareTokenLength. rewrite !eqb_recode, blind_quotes by done.
  rewrite scan_while_map; [done|].
  apply blind_negb, blind_orb; [apply blind_orb|]; auto with hv.
Qed.

Lemma segmentArray_loop_recode fuel s mx pos its e h :
  92 ∉ s ->
  segmentArray_loop fuel (map σ s) mx pos (map recode_item its) e h
  = recode_seg <$> segmentArray_loop fuel s mx pos its e h.
Proof.
  intros Hs. revert pos its e h. induction fuel as [|fuel IH]; intros pos its e h; [done|].
  cbn [segmentArray_loop]. rewrite skipWhitespace_recode, charAt_map.
  set (p := skipWhitespace s pos).
  destruct (charAt s p) as [c|] eqn:Hc; cbn [fmap option_fmap option_map]; [|by rewrite length_map].
  rewrite !eqb_recode by done. destruct (c =? 93); [cbn; f_equal; apply afterArray_recode|].
  destruct e; cbn [negb]; [|destruct (c =? 44); [apply IH|by rewrite separatorIssue_recode, length_map]].
  rewrite elementIssue_recode, length_map.
  destruct (elementIssue s c (length its + 1) p) eqn:Ee; [done|].
  rewrite readStringLiteral_recode; [|done|].
  2: { intros q Hq. rewrite Hc in Hq. injection Hq as <-. unfold elementIssue in Ee.
       repeat case_match; try done. apply not_true_iff_false. intros Ha. char_class. }
  destruct (readStringLiteral s p (length its + 1)) as [[v stop|]|]; cbn [fmap option_fmap option_map recode_literal]; [|done|done].
  destruct (mx <=? length its); [done|].
  rewrite <- IH, map_app. unfold includes. by rewrite !existsb_map_blind by auto with hv.
Qed.

Lemma segment_recode s f l : 92 ∉ s -> segment (map σ s) f l = recode_seg <$> segment s f l.
Proof.
  intros Hs. destruct f; cbn [segment].
  - unfold segmentArray. rewrite skipWhitespace_recode, charAt_is_map, length_map by done.
    case_bool_decide; [|done]. by apply (segmentArray_loop_recode _ _ _ _ []).
  - unfold segmentComma. rewrite length_map, last_is_map by done.
    apply (segmentComma_loop_recode _ _ _ _ _ _ []).
  - unfold segmentSpace. rewrite length_map. apply (segmentSpace_loop_recode _ _ _ _ []).
  - unfold segmentNewline. rewrite length_map. apply (segmentNewline_loop_recode _ _ _ _ []).
  - unfold segmentSingle. rewrite trimStart_recode, trim_recode, !length_map. by case_match.
Qed.

(** ** Validation and the entry point *)

Lemma findChar_recode v p : blind p -> findChar (map σ v) p = findChar v p.
Proof. apply find_from_blind. Qed.

Lemma charAt_found v p k : findChar v p = Some k -> (∀ c, p c = true -> is_alnum c = false) ->
  charAt (map σ v) k = charAt v k.
Proof.
  intros Hk Hp. rewrite charAt_map. unfold charAt.
  apply find_from_Some in Hk as (_ & c & Hc & Hpc). rewrite Hc. cbn.
  by rewrite recode_other by auto.
Qed.

Lemma itemIssue_recode it o c m h : itemIssue (recode_item it) o c m h = itemIssue it o c m h.
Proof. done. Qed.

Lemma classifyItem_recode it f l : classifyItem (recode_item it) f l = classifyItem it f l.
Proof.
  unfold classifyItem. cbn [value itemNumber start len recode_item].
  unfold indexOf, ALPHANUMERIC. rewrite find_from_blind, !findChar_recode by auto with hv.
  rewrite existsb_map_blind, length_map by auto with hv.
  destruct (findChar (value it) is_ws) as [w|] eqn:Ew.
  { rewrite (charAt_found _ _ _ Ew) by (intros; char_class). done. }
  destruct (findChar (value it) INVISIBLE); [done|].
  destruct (findChar (value it) (includes BRACKETS)); [done|].
  destruct (find_from (Z.eqb 44) (value it) 0); [done|].
  destruct (findChar (value it) (includes QUOTES)); [done|].
  destruct (findChar (value it) not_code_char) as [k|] eqn:Ek; [|done].
  rewrite (charAt_found _ _ _ Ek); [done|]. unfold not_code_char. intros. char_class.
Qed.

Lemma parseWithFormat_recode s f d l : 92 ∉ s ->
  parseWithFormat (map σ s) f d l = recode_result <$> parseWithFormat s f d l.
Proof.
  intros Hs. unfold parseWithFormat. rewrite trim_recode, segment_recode by done.
  replace (bool_decide (map σ (trim s) = [])) with (bool_decide (trim s = []))
    by (apply bool_decide_ext; by destruct (trim s)).
  case_bool_decide; [done|]. destruct (segment s f l) as [seg|]; [|done].
  cbn [fmap option_fmap option_map mbind option_bind recode_seg items issues].
  assert (omap (λ item, classifyItem item f l) (map recode_item (items seg))
          = omap (λ item, classifyItem item f l) (items seg)) as ->.
  { induction (items seg) as [|it its IH]; [done|]. cbn. by rewrite classifyItem_recode, IH. }
  destruct (sort_by i_index _); [|done]. cbn. by rewrite !map_map.
Qed.

Lemma detectFormats_recode s : detectFormats (map σ s) = detectFormats s.
Proof. unfold detectFormats, includes. by rewrite !existsb_map_blind by auto with hv. Qed.

Lemma is_ok_recode r : is_ok (recode_result r) = is_ok r.
Proof. by destruct r. Qed.

Lemma firstSuccess_recode s l others r : 92 ∉ s ->
  firstSuccess (map σ s) l others (recode_result r) = recode_result <$> firstSuccess s l others r.
Proof.
  intros Hs. induction others as [|f others IH]; cbn; [done|].
  rewrite parseWithFormat_recode by done. destruct (parseWithFormat s f true l) as [next|]; [|done].
  cbn. rewrite is_ok_recode. by destruct (is_ok next).
Qed.

Lemma starts_with_recode s : starts_with (map σ s) [91] = starts_with s [91].
Proof. destruct s as [|c s]; [done|]. cbn. by rewrite eqb_recode. Qed.

Lemma parseBackupCodes_recode s o : 92 ∉ s ->
  parseBackupCodes (map σ s) o = recode_result <$> parseBackupCodes s o.
Proof.
  intros Hs. unfold parseBackupCodes. rewrite length_map, trim_recode, starts_with_recode,
    detectFormats_recode.
  replace (bool_decide (map σ (trim s) = [])) with (bool_decide (trim s = []))
    by (apply bool_decide_ext; by destruct (trim s)).
  destruct (maxInputLength (limits_of o) <? length s); [by case_match|].
  destruct (default In_auto (o_format o)); [by apply parseWithFormat_recode|].
  case_bool_decide; [done|]. destruct (starts_with (trim s) [91]); [by apply parseWithFormat_recode|].
  destruct (detectFormats (trim s)) as [first others]. rewrite parseWithFormat_recode by done.
  destruct (parseWithFormat s first true _) as [r|]; [|done]. cbn. rewrite is_ok_recode.
  destruct (is_ok r); [done|]. by apply firstSuccess_recode.
Qed.
End privacy.

(** C36: error reports are independent of the letters and digits of the codes.  For any
    recoding of letters and digits and any input without a backslash, the parse of the
    recoded input is the recoded parse: a rejection keeps exactly the same issues, with
    the same messages, hints and spans, and a success returns the recoded codes. *)
Theorem parse_report_hides_codes σ input options :
  Recoding σ -> 92 ∉ input ->
  parseBackupCodes (map σ input) options =
    match parseBackupCodes input options with
    | Some (ParseOk codes f d) => Some (ParseOk (map (map σ) codes) f d)
    | Some (ParseFailed f d issue iss) => Some (ParseFailed f d issue iss)
    | None => None
    end.
Proof.
  intros Hσ Hs. rewrite parseBackupCodes_recode by done.
  by destruct (parseBackupCodes input options) as [[]|].
Qed.

(** Every letter and digit becomes [7]. *)
Definition mask (c : Z) : Z := if is_alnum c then 55 else c.

#[export] Instance mask_recoding : Recoding mask.
Proof. split; intros c Hc; unfold mask; by rewrite Hc. Qed.

Lemma parse_report_hides_codes_witness :
  parseBackupCodes (js "777, 77;7") default_options
  = parseBackupCodes (js "abc, 9z;K") default_options.
Proof.
  change (js "777, 77;7") with (map mask (js "abc, 9z;K")).
  rewrite (parse_report_hides_codes mask (js "abc, 9z;K") default_options);
    [vm_compute; reflexivity|apply mask_recoding|].
  rewrite list_elem_of_In. vm_compute. intuition discriminate.
Defined.
