(* ===== verification/SecureRandom.v ===== *)
(** Unbiased random integers from the platform's generator: client/src/lib/secureRandom.ts.

    The platform's [crypto.getRandomValues] is the parameter [webcrypto]: [None] when the
    API is missing, and otherwise the sequence of bytes it delivers.  The state threaded
    through the operations is the number of bytes consumed so far.  The rejection loop is
    unbounded in the source, so [randomBigIntBelow] takes fuel: [None] is "still looping". *)
From S2P Require Import Prelude.
Local Open Scope Z_scope.

Inductive RandomError :=
  | CryptoUnavailable
  | NonPositiveBound
  | NoItemAtIndex
  | BadWordCount.

(** [n.toString(2).length] for a non-negative [bigint]. *)
Definition bitLength (n : Z) : Z := if n =? 0 then 1 else Z.log2 n + 1.

(** [Number.MAX_SAFE_INTEGER]. *)
Definition MAX_SAFE_INTEGER : Z := 2 ^ 53 - 1.

(** The value a filled buffer stands for: its bytes, most significant first, with the
    [discard] low bits dropped. *)
Definition bufferValue (buffer : list Z) : Z :=
  foldl (λ value byte, Z.lor (Z.shiftl value 8) byte) 0 buffer.

Definition drawnValue (discard : Z) (buffer : list Z) : Z := Z.shiftr (bufferValue buffer) discard.

(** [bits], [byteCount] and [discard] of [randomBigIntBelow]. *)
Definition drawBits (exclusiveMax : Z) : Z := bitLength (exclusiveMax - 1).
Definition drawBytes (exclusiveMax : Z) : Z := (drawBits exclusiveMax + 7) / 8.
Definition drawDiscard (exclusiveMax : Z) : Z := drawBytes exclusiveMax * 8 - drawBits exclusiveMax.

Section random.
Context (webcrypto : option (nat -> Z)).
Local Open Scope result_scope.

Definition fillRandomBytes (n pos : nat) : result RandomError (list Z * nat) :=
  match webcrypto with
  | Some byte_at => Ok (map byte_at (seq pos n), (pos + n)%nat)
  | None => Throw CryptoUnavailable
  end.

Fixpoint rejection_loop (fuel : nat) (exclusiveMax : Z) (pos : nat)
    : option (result RandomError (Z * nat)) :=
  match fuel with
  | O => None
  | S fuel =>
      match fillRandomBytes (Z.to_nat (drawBytes exclusiveMax)) pos with
      | Throw e => Some (Throw e)
      | Ok (buffer, pos) =>
          let value := drawnValue (drawDiscard exclusiveMax) buffer in
          if value <? exclusiveMax then Some (Ok (value, pos))
          else rejection_loop fuel exclusiveMax pos
      end
  end.

Definition randomBigIntBelow (fuel : nat) (exclusiveMax : Z) (pos : nat)
    : option (result RandomError (Z * nat)) :=
  if exclusiveMax <=? 0 then Some (Throw NonPositiveBound)
  else if exclusiveMax =? 1 then Some (Ok (0, pos))
  else rejection_loop fuel exclusiveMax pos.

(** On an integer argument: the fractional and non-finite numbers the source also refuses
    are not values of [Z]. *)
Definition randomBelow (fuel : nat) (exclusiveMax : Z) (pos : nat)
    : option (result RandomError (Z * nat)) :=
  if negb (exclusiveMax <=? MAX_SAFE_INTEGER) || (exclusiveMax <? 1)
  then Some (Throw NonPositiveBound)
  else randomBigIntBelow fuel exclusiveMax pos.

Definition pickUniform {T} (fuel : nat) (items : list T) (pos : nat)
    : option (result RandomError (T * nat)) :=
  match randomBelow fuel (Z.of_nat (length items)) pos with
  | None => None
  | Some (Throw e) => Some (Throw e)
  | Some (Ok (index, pos)) =>
      match items !! Z.to_nat index with
      | None => Some (Throw NoItemAtIndex)
      | Some item => Some (Ok (item, pos))
      end
  end.

End random.
