(* ===== verification/SecureRandomSpec.v ===== *)
(** What the random draw promises: the value is in range, the loop stops at the first draw
    in range, every value in range is carried by the same number of buffers, and more than
    half of all buffers carry one. *)
From S2P Require Import Prelude SecureRandom.
Local Open Scope Z_scope.

Definition is_byte (b : Z) : Prop := 0 <= b < 256.

(** A buffer as [getRandomValues] can fill it. *)
Definition is_buffer (n : nat) (buffer : list Z) : Prop := length buffer = n /\ Forall is_byte buffer.

(** The big-endian bytes of [v]. *)
Fixpoint be_bytes (n : nat) (v : Z) : list Z :=
  match n with
  | O => []
  | S n => be_bytes n (v / 256) ++ [v mod 256]
  end.

Lemma bufferValue_snoc l b : bufferValue (l ++ [b]) = Z.lor (Z.shiftl (bufferValue l) 8) b.
Proof. unfold bufferValue. by rewrite foldl_app. Qed.

Lemma lor_shiftl_byte a b : is_byte b -> Z.lor (Z.shiftl a 8) b = a * 256 + b.
Proof.
  intros Hb. rewrite Z.lor_comm, lor_shiftl by (done || lia). lia.
Qed.

Lemma bufferValue_bound n l : is_buffer n l -> 0 <= bufferValue l < 256 ^ Z.of_nat n.
Proof.
  intros [<- Hl]. induction l as [|b l IH] using rev_ind; [cbn; lia|].
  apply Forall_app in Hl as [Hl Hb%Forall_inv]. specialize (IH Hl).
  rewrite bufferValue_snoc, lor_shiftl_byte, length_app by done. cbn [length].
  rewrite Nat2Z.inj_add, Z.pow_add_r by lia. unfold is_byte in Hb. nia.
Qed.

Lemma be_bytes_buffer n v : 0 <= v -> is_buffer n (be_bytes n v).
Proof.
  revert v. induction n as [|n IH]; intros v Hv; cbn; [by split|].
  destruct (IH (v / 256)) as [Hl Hf]; [by apply Z.div_pos|]. split.
  - rewrite length_app, Hl. cbn. lia.
  - apply Forall_app. split; [done|]. apply Forall_singleton, Z.mod_pos_bound. lia.
Qed.

Lemma bufferValue_be_bytes n v : 0 <= v < 256 ^ Z.of_nat n -> bufferValue (be_bytes n v) = v.
Proof.
  revert v. induction n as [|n IH]; intros v Hv; [change (256 ^ Z.of_nat 0) with 1 in Hv; cbn; lia|].
  cbn [be_bytes]. rewrite bufferValue_snoc, lor_shiftl_byte by (apply Z.mod_pos_bound; lia).
  rewrite Nat2Z.inj_succ, Z.pow_succ_r in Hv by lia.
  rewrite IH.
  - pose proof (Z.div_mod v 256). lia.
  - split; [apply Z.div_pos; lia|]. apply Z.div_lt_upper_bound; lia.
Qed.

Lemma be_bytes_bufferValue n l : is_buffer n l -> be_bytes n (bufferValue l) = l.
Proof.
  revert l. induction n as [|n IH]; intros l [Hn Hl]; [by destruct l|].
  destruct l as [|b l _] using rev_ind; [done|].
  apply Forall_app in Hl as [Hl Hb%Forall_inv].
  rewrite length_app in Hn. cbn in Hn.
  rewrite bufferValue_snoc, lor_shiftl_byte by done. cbn [be_bytes]. unfold is_byte in Hb.
  rewrite Z.div_add_l, (Z.div_small b) by lia. rewrite Z.add_0_r, IH by (split; [lia|done]).
  rewrite Z.add_comm, Z.mod_add by lia. by rewrite Z.mod_small.
Qed.

(** ** The mask *)

(** [2^bits >= exclusiveMax > 2^(bits-1)]. *)
Lemma drawBits_bound n : 2 <= n -> 2 ^ (drawBits n - 1) < n <= 2 ^ drawBits n /\ 1 <= drawBits n.
Proof.
  intros Hn. unfold drawBits, bitLength. destruct (Z.eqb_spec (n - 1) 0); [lia|].
  pose proof (Z.log2_spec (n - 1)) as [H1 H2]; [lia|].
  pose proof (Z.log2_nonneg (n - 1)).
  replace (Z.log2 (n - 1) + 1 - 1) with (Z.log2 (n - 1)) by lia. unfold Z.succ in H2. lia.
Qed.

Lemma drawBytes_bound n : 2 <= n -> 0 <= drawDiscard n < 8 /\ 1 <= drawBytes n /\
  drawBits n + drawDiscard n = 8 * drawBytes n.
Proof.
  intros Hn. destruct (drawBits_bound n Hn) as [_ Hb]. unfold drawDiscard, drawBytes.
  pose proof (Z.div_mod (drawBits n + 7) 8). pose proof (Z.mod_pos_bound (drawBits n + 7) 8). lia.
Qed.

Definition bufferSize (exclusiveMax : Z) : nat := Z.to_nat (drawBytes exclusiveMax).

Lemma buffer_pow n : 2 <= n -> 256 ^ Z.of_nat (bufferSize n) = 2 ^ drawBits n * 2 ^ drawDiscard n.
Proof.
  intros Hn. destruct (drawBytes_bound n Hn) as (Hd & Hb & E).
  destruct (drawBits_bound n Hn) as [_ Hb1].
  unfold bufferSize. rewrite Z2Nat.id by lia. rewrite <- Z.pow_add_r, E by lia.
  rewrite Z.pow_mul_r by lia. done.
Qed.

Definition draw (exclusiveMax : Z) (buffer : list Z) : Z :=
  drawnValue (drawDiscard exclusiveMax) buffer.

Lemma draw_nonneg n b : 2 <= n -> is_buffer (bufferSize n) b -> 0 <= draw n b.
Proof.
  intros Hn Hb%bufferValue_bound. unfold draw, drawnValue. apply Z.shiftr_nonneg. lia.
Qed.

(** The buffers that carry [v]: its bits, and every choice of the discarded ones. *)
Definition carriers (exclusiveMax v : Z) : list (list Z) :=
  (λ low, be_bytes (bufferSize exclusiveMax) (v * 2 ^ drawDiscard exclusiveMax + low)) <$>
    seqZ 0 (2 ^ drawDiscard exclusiveMax).

Lemma draw_iff n b v : 2 <= n -> is_buffer (bufferSize n) b ->
  draw n b = v <-> v * 2 ^ drawDiscard n <= bufferValue b < (v + 1) * 2 ^ drawDiscard n.
Proof.
  intros Hn Hb. destruct (drawBytes_bound n Hn) as (Hd & _).
  unfold draw, drawnValue. rewrite Z.shiftr_div_pow2 by lia.
  assert (0 < 2 ^ drawDiscard n) as Hp by (apply Z.pow_pos_nonneg; lia). split.
  - intros <-. pose proof (Z.div_mod (bufferValue b) (2 ^ drawDiscard n)).
    pose proof (Z.mod_pos_bound (bufferValue b) (2 ^ drawDiscard n)). nia.
  - intros H. symmetry. apply (Z.div_unique _ _ _ (bufferValue b - v * 2 ^ drawDiscard n)); lia.
Qed.

Lemma carriers_spec n v : 2 <= n -> 0 <= v < 2 ^ drawBits n ->
  NoDup (carriers n v) /\
  ∀ b, b ∈ carriers n v <-> is_buffer (bufferSize n) b /\ draw n b = v.
Proof.
  intros Hn Hv. pose proof (buffer_pow n Hn) as Hpow.
  destruct (drawBytes_bound n Hn) as (Hd & _).
  set (D := 2 ^ drawDiscard n) in *. assert (0 < D) as HD by (apply Z.pow_pos_nonneg; lia).
  assert (∀ low, 0 <= low < D -> 0 <= v * D + low < 256 ^ Z.of_nat (bufferSize n)) as Hr by nia.
  split.
  - apply NoDup_fmap_2_strong; [|apply NoDup_seqZ].
    intros x y Hx%elem_of_seqZ Hy%elem_of_seqZ Hxy. fold D in Hx, Hy.
    apply (f_equal bufferValue) in Hxy. fold D in Hxy. rewrite !bufferValue_be_bytes in Hxy by (apply Hr; lia). lia.
  - intros b. unfold carriers. rewrite list_elem_of_fmap. split.
    + intros (low & -> & Hlow%elem_of_seqZ). fold D in Hlow |- *.
      assert (is_buffer (bufferSize n) (be_bytes (bufferSize n) (v * D + low))) as Hbuf
        by (apply be_bytes_buffer; nia).
      split; [done|]. apply draw_iff; [done..|]. fold D.
      rewrite bufferValue_be_bytes by (apply Hr; lia). lia.
    + intros [Hb Hdr]. apply draw_iff in Hdr; [|done..]. fold D in Hdr.
      exists (bufferValue b - v * D). fold D. split.
      * replace (v * D + (bufferValue b - v * D)) with (bufferValue b) by lia.
        by rewrite be_bytes_bufferValue.
      * apply elem_of_seqZ. fold D. lia.
Qed.

Lemma length_carriers n v : 2 <= n -> length (carriers n v) = Z.to_nat (2 ^ drawDiscard n).
Proof. intros. unfold carriers. by rewrite length_fmap, length_seqZ. Qed.

(** ** The rejection loop *)

(** The [k]-th buffer the loop fills when it starts at byte [pos]. *)
Definition bufferAt (byte_at : nat -> Z) (exclusiveMax : Z) (pos k : nat) : list Z :=
  map byte_at (seq (pos + k * bufferSize exclusiveMax) (bufferSize exclusiveMax)).

Section loop.
Context (byte_at : nat -> Z) (bytes : ∀ k, is_byte (byte_at k)).

Lemma bufferAt_buffer n pos k : is_buffer (bufferSize n) (bufferAt byte_at n pos k).
Proof.
  split; [unfold bufferAt; by rewrite length_map, length_seq|].
  apply Forall_fmap, Forall_true. intros. apply bytes.
Qed.

Lemma bufferAt_S n pos k : bufferAt byte_at n (pos + bufferSize n) k = bufferAt byte_at n pos (S k).
Proof. unfold bufferAt. do 2 f_equal. lia. Qed.

Definition loop_outcome (fuel : nat) (n : Z) (pos : nat)
    (out : option (result RandomError (Z * nat))) : Prop :=
  match out with
  | None => ∀ k, (k < fuel)%nat -> n <= draw n (bufferAt byte_at n pos k)
  | Some (Ok (v, pos')) =>
      ∃ k, (k < fuel)%nat /\ (∀ j, (j < k)%nat -> n <= draw n (bufferAt byte_at n pos j))
        /\ v = draw n (bufferAt byte_at n pos k) /\ 0 <= v < n
        /\ pos' = (pos + S k * bufferSize n)%nat
  | Some (Throw _) => False
  end.

Lemma rejection_loop_outcome fuel n pos : 2 <= n ->
  loop_outcome fuel n pos (rejection_loop (Some byte_at) fuel n pos).
Proof.
  intros Hn. revert pos. induction fuel as [|fuel IH]; intros pos; [intros k; lia|].
  cbn [rejection_loop fillRandomBytes]. fold (bufferSize n).
  assert (map byte_at (seq pos (bufferSize n)) = bufferAt byte_at n pos 0) as ->
    by (unfold bufferAt; do 2 f_equal; lia).
  fold (draw n (bufferAt byte_at n pos 0)).
  pose proof (draw_nonneg n _ Hn (bufferAt_buffer n pos 0)).
  destruct (Z.ltb_spec (draw n (bufferAt byte_at n pos 0)) n) as [Hlt|Hge].
  - exists 0%nat. repeat split; try done; lia.
  - specialize (IH (pos + bufferSize n)%nat). destruct (rejection_loop _ _ _ _) as [[[v pos']|e]|]; cbn in *; [|done|].
    + destruct IH as (k & Hk & Hrej & -> & Hv & ->). exists (S k).
      rewrite bufferAt_S in *. split_and!; try done; try lia.
      intros [|j] Hj; [done|]. rewrite <- bufferAt_S. apply Hrej. lia.
    + intros [|k] Hk; [done|]. rewrite <- bufferAt_S. apply IH. lia.
Qed.
End loop.

(** [randomBigIntBelow] refuses a bound below one and spends nothing on a bound of one;
    otherwise it answers with the first draw below the bound, in [0, bound), consuming exactly
    the buffers up to it, and it can still be looping after [fuel] draws only if every one of
    them was out of range. *)
Theorem randomBigIntBelow_outcome byte_at fuel exclusiveMax pos :
  (∀ k, is_byte (byte_at k)) ->
  let out := randomBigIntBelow (Some byte_at) fuel exclusiveMax pos in
  (exclusiveMax <= 0 -> out = Some (Throw NonPositiveBound)) /\
  (exclusiveMax = 1 -> out = Some (Ok (0, pos))) /\
  (2 <= exclusiveMax -> loop_outcome byte_at fuel exclusiveMax pos out).
Proof.
  intros Hb. unfold randomBigIntBelow. cbn zeta.
  destruct (Z.leb_spec exclusiveMax 0); [split_and!; by try lia|].
  destruct (Z.eqb_spec exclusiveMax 1); [split_and!; by try lia|].
  split_and!; try lia. intros. by apply rejection_loop_outcome.
Qed.

(** The 5-bit draw below 18: the first buffer carries 31, the second 3. *)
Lemma randomBigIntBelow_outcome_witness :
  let byte_at := λ k, if (k =? 0)%nat then 255 else 27 in
  randomBigIntBelow (Some byte_at) 2 18 0 = Some (Ok (3, 2%nat)) /\
  loop_outcome byte_at 2 18 0 (randomBigIntBelow (Some byte_at) 2 18 0).
Proof.
  split; [reflexivity|].
  refine (proj2 (proj2 (randomBigIntBelow_outcome _ 2 18 0 _)) _); [|lia].
  intros k. unfold is_byte. destruct (k =? 0)%nat; lia.
Defined.

(** The draw is unbiased and cheap: of the [256 ^ bufferSize] equally likely buffers,
    exactly [2 ^ drawDiscard] carry each value below the bound, and more than half carry one
    at all. *)
Theorem randomBigIntBelow_uniform exclusiveMax :
  2 <= exclusiveMax ->
  (∀ v, 0 <= v < exclusiveMax ->
     ∃ buffers, NoDup buffers /\ length buffers = Z.to_nat (2 ^ drawDiscard exclusiveMax) /\
       ∀ b, b ∈ buffers <->
         is_buffer (bufferSize exclusiveMax) b /\ drawnValue (drawDiscard exclusiveMax) b = v) /\
  256 ^ Z.of_nat (bufferSize exclusiveMax) < 2 * (exclusiveMax * 2 ^ drawDiscard exclusiveMax).
Proof.
  intros Hn. destruct (drawBits_bound _ Hn) as [Hbits Hpos]. split.
  - intros v Hv. exists (carriers exclusiveMax v).
    destruct (carriers_spec exclusiveMax v Hn) as [Hnd Hin]; [lia|].
    split_and!; [done|by apply length_carriers|exact Hin].
  - rewrite buffer_pow by done. destruct (drawBytes_bound _ Hn) as (Hd & _).
    assert (0 < 2 ^ drawDiscard exclusiveMax) by (apply Z.pow_pos_nonneg; lia).
    assert (2 ^ drawBits exclusiveMax = 2 * 2 ^ (drawBits exclusiveMax - 1)) as ->.
    { rewrite <- Z.pow_succ_r by lia. f_equal. lia. }
    nia.
Qed.

Lemma randomBigIntBelow_uniform_witness :
  drawDiscard 88 = 1 /\
  256 ^ Z.of_nat (bufferSize 88) < 2 * (88 * 2 ^ drawDiscard 88).
Proof. split; [reflexivity|]. exact (proj2 (randomBigIntBelow_uniform 88 ltac:(lia))). Defined.

(** [pickUniform] never falls through to its guard: on a non-empty list the drawn index is
    always that of an element. *)
Lemma pickUniform_elem {T} byte_at fuel (items : list T) pos item pos' :
  (∀ k, is_byte (byte_at k)) ->
  pickUniform (Some byte_at) fuel items pos = Some (Ok (item, pos')) -> item ∈ items.
Proof.
  intros _. unfold pickUniform. destruct (randomBelow _ _ _ _) as [[[i q]|]|]; try done.
  destruct (items !! Z.to_nat i) eqn:E; [|done]. intros [= -> _]. by eapply list_elem_of_lookup_2.
Qed.

Lemma pickUniform_guard {T} byte_at fuel (items : list T) pos :
  (∀ k, is_byte (byte_at k)) -> items <> [] -> Z.of_nat (length items) <= MAX_SAFE_INTEGER ->
  match pickUniform (Some byte_at) fuel items pos with
  | Some (Throw _) => False
  | Some (Ok _) | None => True
  end.
Proof.
  intros Hb Hne Hle. unfold pickUniform, randomBelow.
  assert (1 <= Z.of_nat (length items)) by (destruct items; [done|cbn; lia]).
  rewrite (proj2 (Z.leb_le _ _)), (proj2 (Z.ltb_ge _ _)) by lia. cbn [negb orb].
  unfold randomBigIntBelow. rewrite (proj2 (Z.leb_gt _ _)) by lia.
  destruct (Z.eqb_spec (Z.of_nat (length items)) 1) as [E|E].
  - destruct items as [|x [|]]; done.
  - pose proof (rejection_loop_outcome byte_at Hb fuel (Z.of_nat (length items)) pos ltac:(lia)) as H1.
    destruct (rejection_loop _ _ _ _) as [[[i q]|]|]; cbn in H1; try done.
    destruct H1 as (k & _ & _ & _ & Hi & _).
    destruct (lookup_lt_is_Some_2 items (Z.to_nat i)) as [x ->]; [lia|done].
Qed.
