(* ===== verification/PasswordGenerator.v ===== *)
(** Password generation: client/src/lib/passwordGenerator.ts, with the character pools of
    client/src/utils/passwordEntropy.ts.

    A policy becomes a [GeneratorSpec]; the table of [buildTable] counts, for every suffix
    length and every vector of outstanding minimums, the passwords that complete it;
    [unrankPassword] walks the table.  The module-level [tableCache] is an explicit state,
    threaded through [tableFor] and everything that reads a table. *)
From Stdlib Require Import QArith Qround.
From S2P Require Import Prelude SecureRandom.
Local Open Scope Z_scope.

(** A JavaScript number: [NaN] and the infinities are [NotFinite]. *)
Inductive number :=
  | Finite (q : Q)
  | NotFinite.

Definition MIN_PASSWORD_LENGTH : Z := 8.
Definition MAX_PASSWORD_LENGTH : Z := 128.
Definition MAX_PASSWORD_CLASS_MINIMUM : Z := 5.

Definition UPPER : jsstr := js "ABCDEFGHIJKLMNOPQRSTUVWXYZ".
Definition LOWER : jsstr := js "abcdefghijklmnopqrstuvwxyz".
Definition DIGITS : jsstr := js "0123456789".
Definition SYMBOLS : jsstr := js "!@#$%^&*()_+-=[]{}|;:,.<>?".
Definition AMBIGUOUS : jsstr := js "lI1O0".

Record PasswordCharsetOptions := {
  uppercase : bool;
  lowercase : bool;
  numbers : bool;
  symbols : bool;
  excludeAmbiguous : bool;
}.

Definition buildCharset (options : PasswordCharsetOptions) : jsstr :=
  let charset := (if uppercase options then UPPER else [])
    ++ (if lowercase options then LOWER else [])
    ++ (if numbers options then DIGITS else [])
    ++ (if symbols options then SYMBOLS else []) in
  let charset := if excludeAmbiguous options
    then List.filter (λ c, negb (includes AMBIGUOUS c)) charset else charset in
  match charset with [] => LOWER | _ => charset end.

Definition getEffectiveCharsetSize (options : PasswordCharsetOptions) : nat :=
  length (buildCharset options).

Inductive PasswordGeneratorFailure :=
  | no_class_enabled
  | length_too_short
  | classes_overlap.

(** What the module throws: its own error, the [RangeError]s, and what the random source throws. *)
Inductive GenError :=
  | PasswordGeneratorError (reason : PasswordGeneratorFailure)
  | IndexOutsideRange
  | CharacterIndexOutOfRange
  | Random (e : RandomError).

Record PasswordClass := { alphabet : jsstr; minimum : Z }.
Record GeneratorSpec := { spec_length : Z; classes : list PasswordClass }.

Record PasswordGenOptionsLike := {
  charset_options : PasswordCharsetOptions;
  length_option : number;
  minUppercase : number;
  minLowercase : number;
  minNumbers : number;
  minSymbols : number;
}.

(** An array of counts read with the [?? 0n] of the source. *)
Definition cellAt (cells : list Z) (index : nat) : Z := default 0 (cells !! index).

Definition alphabetAt (alphabet : jsstr) (index : Z) : result GenError Z :=
  match alphabet !! Z.to_nat index with
  | Some char => Ok char
  | None => Throw CharacterIndexOutOfRange
  end.

(** [Math.round]: to the nearest integer, a half rounding up. *)
Definition round (q : Q) : Z := Qfloor (q + (1 # 2)).

Definition clampLength (value : number) : Z :=
  match value with
  | NotFinite => MIN_PASSWORD_LENGTH
  | Finite q => Z.min MAX_PASSWORD_LENGTH (Z.max MIN_PASSWORD_LENGTH (round q))
  end.

Definition clampMinimum (value : number) : Z :=
  match value with
  | NotFinite => 0
  | Finite q => if negb (Qle_bool 0 q) then 0 else Z.min MAX_PASSWORD_CLASS_MINIMUM (round q)
  end.

(** [s.includes(t)] for any needle. *)
Definition includesText (s t : jsstr) : bool :=
  existsb (λ i, starts_with (drop i s) t) (seq 0 (S (length s))).

Definition withoutAmbiguous (chars : jsstr) (exclude : bool) : jsstr :=
  if negb exclude then chars
  else concat (List.filter (λ char, negb (includesText AMBIGUOUS char)) (code_points chars)).

Definition assertDisjointClasses (classes : list PasswordClass) (expectedPoolSize : nat)
    : result GenError unit :=
  let pool := concat (map alphabet classes) in
  if negb (length (remove_dups (code_points pool)) =? length pool)%nat
     || negb (length pool =? expectedPoolSize)%nat
  then Throw (PasswordGeneratorError classes_overlap)
  else Ok ().

Definition candidates (options : PasswordGenOptionsLike) : list (bool * jsstr * number) :=
  let o := charset_options options in
  let exclude := excludeAmbiguous o in
  [(uppercase o, withoutAmbiguous UPPER exclude, minUppercase options);
   (lowercase o, withoutAmbiguous LOWER exclude, minLowercase options);
   (numbers o, withoutAmbiguous DIGITS exclude, minNumbers options);
   (symbols o, withoutAmbiguous SYMBOLS exclude, minSymbols options)].

Definition enabledClasses (options : PasswordGenOptionsLike) : list PasswordClass :=
  omap (λ '(enabled, alphabet, minimum),
    if (enabled : bool) then Some {| alphabet := alphabet; minimum := clampMinimum minimum |}
    else None) (candidates options).

Definition required (classes : list PasswordClass) : Z :=
  foldl (λ sum cls, sum + minimum cls) 0 classes.

Definition buildSpec (options : PasswordGenOptionsLike) : result GenError GeneratorSpec :=
  let classes := enabledClasses options in
  match classes with
  | [] => Throw (PasswordGeneratorError no_class_enabled)
  | _ =>
      match assertDisjointClasses classes (getEffectiveCharsetSize (charset_options options)) with
      | Throw e => Throw e
      | Ok _ =>
          let length := clampLength (length_option options) in
          if length <? required classes then Throw (PasswordGeneratorError length_too_short)
          else Ok {| spec_length := length; classes := classes |}
      end
  end.

Record CountTable := {
  cells : list Z;
  states : Z;
  decrements : list Z;
  initialState : Z;
  table_length : Z;
}.

Definition cacheKey (spec : GeneratorSpec) : jsstr :=
  join (js "|") (map (λ cls, num (Z.of_nat (length (alphabet cls))) ++ js ":" ++ num (minimum cls))
                     (classes spec)).

(** An element of an [Int32Array]: what is stored of an integer. *)
Definition toInt32 (n : Z) : Z := (n + 2 ^ 31) mod 2 ^ 32 - 2 ^ 31.

(** The [strides] loop: every class's stride, and the number of states. *)
Fixpoint strides_loop (cs : list PasswordClass) (strides : list Z) (states : Z) : list Z * Z :=
  match cs with
  | [] => (strides, states)
  | cls :: cs => strides_loop cs (strides ++ [states]) (states * (minimum cls + 1))
  end.

(** One class's pass over the states: fill its column of [decrements]. *)
Definition fillDecrements (classCount classIndex : nat) (stride minimum : Z) (states : nat)
    (decrements : list Z) : list Z :=
  foldl (λ decrements state,
    let digit := (Z.of_nat state / stride) mod (minimum + 1) in
    <[(state * classCount + classIndex)%nat :=
        toInt32 (if 0 <? digit then Z.of_nat state - stride else Z.of_nat state)]> decrements)
    decrements (seq 0 states).

Fixpoint decrements_loop (classCount classIndex : nat) (cs : list PasswordClass) (strides : list Z)
    (states : nat) (decrements : list Z) (initialState : Z) : list Z * Z :=
  match cs with
  | [] => (decrements, initialState)
  | cls :: cs =>
      let stride := default 1 (strides !! classIndex) in
      decrements_loop classCount (S classIndex) cs strides states
        (fillDecrements classCount classIndex stride (minimum cls) states decrements)
        (initialState + minimum cls * stride)
  end.

(** The sum over the classes that one cell records. *)
Fixpoint cellTotal (sizes : list Z) (classIndex classCount : nat) (decrements cells : list Z)
    (prevBase state : nat) (total : Z) : Z :=
  match sizes with
  | [] => total
  | size :: sizes =>
      let next := default 0 (decrements !! (state * classCount + classIndex)%nat) in
      let sub := cellAt cells (prevBase + Z.to_nat next) in
      cellTotal sizes (S classIndex) classCount decrements cells prevBase state
        (if negb (sub =? 0) then total + size * sub else total)
  end.

(** The row of the suffix length [remaining], filled state by state. *)
Definition fillRow (sizes : list Z) (classCount : nat) (decrements : list Z) (states : nat)
    (cells : list Z) (remaining : nat) : list Z :=
  let rowBase := (remaining * states)%nat in
  let prevBase := (rowBase - states)%nat in
  foldl (λ cells state,
    <[(rowBase + state)%nat := cellTotal sizes 0 classCount decrements cells prevBase state 0]> cells)
    cells (seq 0 states).

Definition buildTable (spec : GeneratorSpec) : CountTable :=
  let classCount := length (classes spec) in
  let '(strides, states) := strides_loop (classes spec) [] 1 in
  let n := Z.to_nat states in
  let '(decrements, initialState) :=
    decrements_loop classCount 0 (classes spec) strides n (replicate (n * classCount) 0) 0 in
  let sizes := map (λ cls, Z.of_nat (length (alphabet cls))) (classes spec) in
  let cells := <[0%nat := 1]> (replicate (S (Z.to_nat (spec_length spec)) * n) 0) in
  {| cells := foldl (fillRow sizes classCount decrements n) cells
                (seq 1 (Z.to_nat (spec_length spec)));
     states := states; decrements := decrements; initialState := initialState;
     table_length := spec_length spec |}.

(** The module-level [tableCache]. *)
Abbreviation Cache := (gmap jsstr CountTable).

Definition tableFor (cache : Cache) (spec : GeneratorSpec) : CountTable * Cache :=
  let key := cacheKey spec in
  let build := let table := buildTable spec in (table, <[key := table]> cache) in
  match cache !! key with
  | Some cached => if spec_length spec <=? table_length cached then (cached, cache) else build
  | None => build
  end.

(** The cell the whole password starts from. *)
Definition totalOf (table : CountTable) (spec : GeneratorSpec) : Z :=
  cellAt (cells table) (Z.to_nat (spec_length spec * states table + initialState table)).

Definition countValidPasswords (cache : Cache) (spec : GeneratorSpec) : Z * Cache :=
  let '(table, cache) := tableFor cache spec in (totalOf table spec, cache).

(** The inner [for] of [unrankPassword]: [inl] the character taken at this position with the
    new [rest] and [state], or [inr] the [rest] of a loop that ran off its end, pushing nothing. *)
Fixpoint unrank_class (table : CountTable) (classCount classIndex : nat) (cs : list PasswordClass)
    (prevBase : Z) (state rest : Z) : result GenError (Z * Z * Z + Z) :=
  match cs with
  | [] => Ok (inr rest)
  | cls :: cs =>
      let next := default 0 (decrements table !! Z.to_nat (state * Z.of_nat classCount + Z.of_nat classIndex)) in
      let sub := cellAt (cells table) (Z.to_nat (prevBase + next)) in
      if sub =? 0 then unrank_class table classCount (S classIndex) cs prevBase state rest
      else
        let block := Z.of_nat (length (alphabet cls)) * sub in
        if rest <? block then
          match alphabetAt (alphabet cls) (rest / sub) with
          | Throw e => Throw e
          | Ok char => Ok (inl (char, rest mod sub, next))
          end
        else unrank_class table classCount (S classIndex) cs prevBase state (rest - block)
  end.

(** The outer [for]; [remaining] counts the positions left. *)
Fixpoint unrank_loop (table : CountTable) (cs : list PasswordClass) (remaining : nat)
    (state rest : Z) (out : jsstr) : result GenError jsstr :=
  match remaining with
  | O => Ok out
  | S r =>
      let prevBase := Z.of_nat r * states table in
      match unrank_class table (length cs) 0 cs prevBase state rest with
      | Throw e => Throw e
      | Ok (inl (char, rest, next)) => unrank_loop table cs r next rest (out ++ [char])
      | Ok (inr rest) => unrank_loop table cs r state rest out
      end
  end.

Definition unrankPassword (cache : Cache) (index : Z) (spec : GeneratorSpec)
    : result GenError jsstr * Cache :=
  let '(table, cache) := tableFor cache spec in
  let total := totalOf table spec in
  if (index <? 0) || (total <=? index) then (Throw IndexOutsideRange, cache)
  else (unrank_loop table (classes spec) (Z.to_nat (spec_length spec)) (initialState table) index [],
        cache).

Section generate.
Context (webcrypto : option (nat -> Z)).

(** [None] when the rejection loop has not returned within the fuel; otherwise the outcome
    with the bytes consumed and the cache left behind. *)
Definition generatePassword (fuel : nat) (cache : Cache) (options : PasswordGenOptionsLike)
    (pos : nat) : option (result GenError (jsstr * nat) * Cache) :=
  match buildSpec options with
  | Throw e => Some (Throw e, cache)
  | Ok spec =>
      let '(total, cache) := countValidPasswords cache spec in
      match randomBigIntBelow webcrypto fuel total pos with
      | None => None
      | Some (Throw e) => Some (Throw (Random e), cache)
      | Some (Ok (index, pos)) =>
          match unrankPassword cache index spec with
          | (Throw e, cache) => Some (Throw e, cache)
          | (Ok password, cache) => Some (Ok (password, pos), cache)
          end
      end
  end.

(** The [chosen] loop of [generatePassphrase]; every word has [fuel] draws. *)
Fixpoint passphrase_loop (fuel wordCount : nat) (words : list jsstr) (chosen : list jsstr)
    (pos : nat) : option (result RandomError (list jsstr * nat)) :=
  match wordCount with
  | O => Some (Ok (chosen, pos))
  | S wordCount =>
      match pickUniform webcrypto fuel words pos with
      | None => None
      | Some (Throw e) => Some (Throw e)
      | Some (Ok (word, pos)) => passphrase_loop fuel wordCount words (chosen ++ [word]) pos
      end
  end.

Definition generatePassphrase (fuel : nat) (wordCount : Z) (separator : jsstr)
    (words : list jsstr) (pos : nat) : option (result RandomError (jsstr * nat)) :=
  if negb (Z.abs wordCount <=? MAX_SAFE_INTEGER) || (wordCount <? 1)
  then Some (Throw BadWordCount)
  else match passphrase_loop fuel (Z.to_nat wordCount) words [] pos with
       | None => None
       | Some (Throw e) => Some (Throw e)
       | Some (Ok (chosen, pos)) => Some (Ok (join separator chosen, pos))
       end.

End generate.
