(* ===== verification/PasswordTable.v ===== *)
(** The counting table of the password generator: [buildTable] holds, in its flat mixed-radix
    arrays, exactly the recursion [W] over vectors of outstanding minimums, and the cache
    never serves a table of a different policy. *)
From Stdlib Require Import QArith Qround.
From S2P Require Import Prelude SecureRandom PasswordGenerator.
Local Open Scope Z_scope.

Definition zsum (l : list Z) : Z := foldr Z.add 0 l.

(** ** The recursion the table holds *)

(** [decrement(d, c)]: class [c] satisfied once more, floored at zero. *)
Definition dec (d : list Z) (c : nat) : list Z := alter (λ x, if 0 <? x then x - 1 else x) c d.

Fixpoint W (sizes : list Z) (r : nat) (d : list Z) : Z :=
  match r with
  | O => if forallb (Z.eqb 0) d then 1 else 0
  | S r => zsum (imap (λ c size, size * W sizes r (dec d c)) sizes)
  end.

Definition sizes_of (spec : GeneratorSpec) : list Z :=
  map (λ cls, Z.of_nat (length (alphabet cls))) (classes spec).
Definition mins_of (spec : GeneratorSpec) : list Z := map minimum (classes spec).

(** ** Mixed radix *)

Fixpoint enc (ms d : list Z) : Z :=
  match ms, d with
  | m :: ms, x :: d => x + (m + 1) * enc ms d
  | _, _ => 0
  end.

Definition radix (ms : list Z) : Z := foldr (λ m acc, (m + 1) * acc) 1 ms.
Definition stride (ms : list Z) (c : nat) : Z := radix (take c ms).
Definition in_range (ms d : list Z) : Prop := Forall2 (λ m x, 0 <= x <= m) ms d.

Lemma radix_pos ms : Forall (Z.le 0) ms -> 1 <= radix ms.
Proof. induction 1 as [|m ms Hm _ IH]; cbn; [done|]. fold (radix ms). nia. Qed.

Lemma in_range_nonneg ms d : in_range ms d -> Forall (Z.le 0) ms.
Proof. induction 1; constructor; [lia|done]. Qed.

Lemma in_range_refl ms : Forall (Z.le 0) ms -> in_range ms ms.
Proof. induction 1; constructor; [lia|done]. Qed.

Lemma in_range_length ms d : in_range ms d -> length d = length ms.
Proof. intros H%Forall2_length. done. Qed.

Lemma enc_bound ms d : in_range ms d -> 0 <= enc ms d < radix ms.
Proof. induction 1; cbn; [done|]. fold (radix l). nia. Qed.

Lemma enc_surj ms s : Forall (Z.le 0) ms -> 0 <= s < radix ms ->
  ∃ d, in_range ms d /\ enc ms d = s.
Proof.
  intros H. revert s. induction H as [|m ms Hm _ IH]; intros s Hs; cbn in *.
  - exists []. split; [constructor|lia].
  - fold (radix ms) in Hs. pose proof (Z.mod_pos_bound s (m + 1) ltac:(lia)).
    pose proof (Z.div_mod s (m + 1) ltac:(lia)).
    destruct (IH (s / (m + 1))) as (d & Hd & E).
    { split; [apply Z.div_pos; lia|]. apply Z.div_lt_upper_bound; lia. }
    exists (s mod (m + 1) :: d). split; [constructor; [lia|done]|]. cbn. rewrite E. lia.
Qed.

Lemma enc_digit ms d c m x : in_range ms d -> ms !! c = Some m -> d !! c = Some x ->
  (enc ms d / stride ms c) mod (m + 1) = x.
Proof.
  intros H. revert c. induction H as [|m' x' ms d Hx H IH]; intros [|c] Hm Hd; try done; cbn in *.
  - injection Hm as ->. injection Hd as ->. unfold stride. cbn.
    rewrite Z.div_1_r, Z.mul_comm, Z.mod_add by lia. apply Z.mod_small. lia.
  - rewrite <- (IH c Hm Hd). f_equal. unfold stride. cbn. fold (radix (take c ms)).
    rewrite <- Z.div_div.
    + rewrite Z.mul_comm, Z.div_add by lia. rewrite (Z.div_small x') by lia. done.
    + lia.
    + apply in_range_nonneg in H. pose proof (radix_pos (take c ms) (Forall_take _ _ _ H)). lia.
Qed.

Lemma enc_dec ms d c x : in_range ms d -> d !! c = Some x ->
  enc ms (dec d c) = if 0 <? x then enc ms d - stride ms c else enc ms d.
Proof.
  intros H. revert c. induction H as [|m' x' ms d Hx H IH]; intros [|c] Hd; try done; cbn in *.
  - injection Hd as ->. unfold stride. cbn. destruct (0 <? x); lia.
  - fold (dec d c). rewrite (IH c Hd). unfold stride. cbn. fold (radix (take c ms)).
    destruct (0 <? x); lia.
Qed.

Lemma in_range_dec ms d c : in_range ms d -> in_range ms (dec d c).
Proof.
  intros H. revert c. induction H as [|m' x' ms d Hx H IH]; intros [|c]; cbn; try by constructor.
  - constructor; [|done]. destruct (Z.ltb_spec 0 x'); lia.
  - constructor; [done|apply IH].
Qed.

Lemma enc_zero ms d : in_range ms d -> (enc ms d =? 0) = forallb (Z.eqb 0) d.
Proof.
  induction 1 as [|m x ms d Hx H IH]; [done|]. cbn [enc forallb]. rewrite <- IH.
  pose proof (enc_bound _ _ H).
  destruct (Z.eqb_spec 0 x), (Z.eqb_spec (enc ms d) 0); cbn [andb];
    apply Z.eqb_eq || apply Z.eqb_neq; nia.
Qed.

Lemma strides_loop_spec cs acc st :
  strides_loop cs acc st
  = (acc ++ imap (λ c _, st * stride (map minimum cs) c) cs, st * radix (map minimum cs)).
Proof.
  revert acc st. induction cs as [|cls cs IH]; intros acc st; cbn.
  - by rewrite app_nil_r, Z.mul_1_r.
  - rewrite IH, <- app_assoc. fold (radix (map minimum cs)). f_equal; [|lia]. f_equal. cbn.
    unfold stride at 2. cbn. rewrite Z.mul_1_r. f_equal. apply imap_ext. intros c x _. cbn.
    unfold stride. cbn. fold (radix (take c (map minimum cs))). lia.
Qed.

(** ** What a table must hold *)

Record table_ok (sizes ms : list Z) (t : CountTable) : Prop := {
  ok_states : states t = radix ms;
  ok_initial : initialState t = enc ms ms;
  ok_decrements : ∀ c d, (c < length ms)%nat -> in_range ms d ->
    decrements t !! (Z.to_nat (enc ms d) * length ms + c)%nat = Some (enc ms (dec d c));
  ok_cells : ∀ r d, Z.of_nat r <= table_length t -> in_range ms d ->
    cellAt (cells t) (r * Z.to_nat (radix ms) + Z.to_nat (enc ms d)) = W sizes r d;
}.

Lemma toInt32_id n : - 2 ^ 31 <= n < 2 ^ 31 -> toInt32 n = n.
Proof. intros. unfold toInt32. rewrite Z.mod_small; lia. Qed.

(** Column [c] of the decrement array is filled up to row [n]. *)
Definition column (cc n : nat) (g : nat -> Z) (c : nat) (a : list Z) : Prop :=
  ∀ s, (s < n)%nat -> a !! (s * cc + c)%nat = Some (g s).

Lemma fillDecrements_spec cc c st m n a :
  (c < cc)%nat -> length a = (n * cc)%nat ->
  let a' := fillDecrements cc c st m n a in
  length a' = length a /\
  column cc n (λ s, toInt32 (if 0 <? (Z.of_nat s / st) mod (m + 1)
                             then Z.of_nat s - st else Z.of_nat s)) c a' /\
  ∀ c' s, (c' < cc)%nat -> c' <> c -> a' !! (s * cc + c')%nat = a !! (s * cc + c')%nat.
Proof.
  intros Hc Hlen. cbn zeta. unfold fillDecrements.
  set (g := λ s, toInt32 (if 0 <? (Z.of_nat s / st) mod (m + 1) then Z.of_nat s - st else Z.of_nat s)).
  apply (foldl_seq_inv (λ i x, length x = length a /\ column cc i g c x /\
    ∀ c' s, (c' < cc)%nat -> c' <> c -> x !! (s * cc + c')%nat = a !! (s * cc + c')%nat)).
  - split_and!; [done| |done]. intros s. lia.
  - intros i x Hi (Hl & Hcol & Hrest). split_and!; [by rewrite length_insert| |].
    + intros s Hs. destruct (decide (s = i)) as [->|Hne].
      * rewrite list_lookup_insert_eq; [done|]. rewrite Hl, Hlen. apply flat_index_lt; lia.
      * rewrite list_lookup_insert_ne; [apply Hcol; lia|].
        intros E. apply flat_index_inj in E as [-> _]; lia.
    + intros c' s Hc' Hne. rewrite list_lookup_insert_ne; [by apply Hrest|].
      intros E. apply flat_index_inj in E as [_ ->]; lia.
Qed.

Lemma decrements_loop_spec cc cs strides n a init0 :
  (length cs <= cc)%nat -> length a = (n * cc)%nat ->
  let c0 := (cc - length cs)%nat in
  let '(a', init) := decrements_loop cc c0 cs strides n a init0 in
  length a' = length a /\
  init = init0 + zsum (imap (λ k cls, minimum cls * default 1 (strides !! (c0 + k)%nat)) cs) /\
  (∀ c s, (c < c0)%nat -> a' !! (s * cc + c)%nat = a !! (s * cc + c)%nat) /\
  (∀ k cls, cs !! k = Some cls ->
     column cc n (λ s, let st := default 1 (strides !! (c0 + k)%nat) in
       toInt32 (if 0 <? (Z.of_nat s / st) mod (minimum cls + 1)
                then Z.of_nat s - st else Z.of_nat s)) (c0 + k) a').
Proof.
  revert a init0. induction cs as [|cls cs IH]; intros a init0 Hcs Hlen; cbn zeta.
  { cbn. split_and!; try done. lia. }
  cbn [length] in *. cbn [decrements_loop].
  replace (S (cc - S (length cs))) with (cc - length cs)%nat by lia.
  set (c0 := (cc - S (length cs))%nat).
  destruct (fillDecrements_spec cc c0 (default 1 (strides !! c0)) (minimum cls) n a) as (Hl & Hcol & Hrest);
    [lia|done|].
  specialize (IH (fillDecrements cc c0 (default 1 (strides !! c0)) (minimum cls) n a)
                 (init0 + minimum cls * default 1 (strides !! c0)) ltac:(lia) ltac:(by rewrite Hl)).
  destruct (decrements_loop _ _ _ _ _ _ _) as [a' init]. cbn zeta in IH.
  assert (cc - length cs = S c0)%nat as E by lia. rewrite E in IH.
  destruct IH as (IHl & IHi & IHlo & IHhi). split_and!.
  - by rewrite IHl, Hl.
  - rewrite IHi. cbn. rewrite Nat.add_0_r. unfold zsum. rewrite <- Z.add_assoc. do 2 f_equal.
    f_equal. apply imap_ext. intros k x _. cbn. by rewrite Nat.add_succ_r.
  - intros c s Hc. rewrite IHlo by lia. apply Hrest; lia.
  - intros [|k] cls' Hk; cbn in Hk.
    + injection Hk as <-. intros s Hs. rewrite Nat.add_0_r. rewrite IHlo by lia. by apply Hcol.
    + rewrite Nat.add_succ_r. by apply (IHhi k).
Qed.

(** ** The rows *)

Lemma cellTotal_spec sizes ci cc decs cs prevBase state total :
  cellTotal sizes ci cc decs cs prevBase state total
  = total + zsum (imap (λ k size, size *
      cellAt cs (prevBase + Z.to_nat (default 0 (decs !! (state * cc + (ci + k))%nat)))) sizes).
Proof.
  revert ci total. induction sizes as [|size sizes IH]; intros ci total; cbn [cellTotal]; [cbn; lia|].
  rewrite IH. cbn [imap zsum foldr]. fold zsum. rewrite Nat.add_0_r.
  set (sub := cellAt cs _). rewrite Z.add_assoc. f_equal.
  - destruct (Z.eqb_spec sub 0) as [->|]; cbn; lia.
  - unfold zsum. f_equal. apply imap_ext. intros k x _. cbn -[Nat.add]. by rewrite Nat.add_succ_r.
Qed.

Section rows.
Context (sizes ms : list Z) (decs : list Z) (len : nat).
Context (Hms : Forall (Z.le 0) ms) (Hsizes : length sizes = length ms).
Context (Hdecs : ∀ c d, (c < length ms)%nat -> in_range ms d ->
  decs !! (Z.to_nat (enc ms d) * length ms + c)%nat = Some (enc ms (dec d c))).

Definition good_rows (rows : nat) (cs : list Z) : Prop :=
  length cs = (S len * Z.to_nat (radix ms))%nat /\
  ∀ r d, (r < rows)%nat -> in_range ms d ->
    cellAt cs (r * Z.to_nat (radix ms) + Z.to_nat (enc ms d)) = W sizes r d.

Lemma enc_nat d : in_range ms d -> (Z.to_nat (enc ms d) < Z.to_nat (radix ms))%nat.
Proof. intros H%enc_bound. lia. Qed.

Lemma cellTotal_W rows cs d : good_rows (S rows) cs -> in_range ms d ->
  cellTotal sizes 0 (length ms) decs cs (rows * Z.to_nat (radix ms)) (Z.to_nat (enc ms d)) 0
  = W sizes (S rows) d.
Proof.
  intros [_ Hgood] Hd. rewrite cellTotal_spec, Z.add_0_l. cbn [W]. f_equal.
  apply imap_ext. intros k size Hk%lookup_lt_Some. cbn [plus]. rewrite Hsizes in Hk.
  rewrite Hdecs by done. change (default 0 (Some ?x)) with x. rewrite Hgood; [done|lia|by apply in_range_dec].
Qed.

Lemma cellTotal_ext cc ci cs cs' prevBase state total bound :
  (∀ i, (i < bound)%nat -> cs' !! i = cs !! i) ->
  (∀ c, (prevBase + Z.to_nat (default 0%Z (decs !! (state * cc + c)%nat)) < bound)%nat \/ (length sizes + ci <= c)%nat) ->
  cellTotal sizes ci cc decs cs' prevBase state total = cellTotal sizes ci cc decs cs prevBase state total.
Proof.
  intros Hsame Hb. rewrite !cellTotal_spec. do 2 f_equal. apply imap_ext.
  intros k x Hk%lookup_lt_Some. f_equal. unfold cellAt. rewrite Hsame; [done|].
  destruct (Hb (ci + k)%nat); [done|lia].
Qed.

Lemma fillRow_spec rows cs : (rows < len)%nat -> good_rows (S rows) cs ->
  good_rows (S (S rows)) (fillRow sizes (length ms) decs (Z.to_nat (radix ms)) cs (S rows)).
Proof.
  intros Hrows Hgood. set (n := Z.to_nat (radix ms)).
  assert (S rows * n - n = rows * n)%nat as Eprev by (cbn; lia).
  unfold fillRow. rewrite Eprev.
  set (step := λ (x : list Z) (state : nat), _).
  assert (length (foldl step cs (seq 0 n)) = length cs /\
    (∀ i, (i < S rows * n)%nat -> foldl step cs (seq 0 n) !! i = cs !! i) /\
    ∀ d, in_range ms d -> (Z.to_nat (enc ms d) < n)%nat ->
      foldl step cs (seq 0 n) !! (S rows * n + Z.to_nat (enc ms d))%nat = Some (W sizes (S rows) d))
    as (Hl & Hold & Hnew).
  { apply (foldl_seq_inv (λ i x, length x = length cs /\
      (∀ j, (j < S rows * n)%nat -> x !! j = cs !! j) /\
      ∀ d, in_range ms d -> (Z.to_nat (enc ms d) < i)%nat ->
        x !! (S rows * n + Z.to_nat (enc ms d))%nat = Some (W sizes (S rows) d))).
    - split_and!; [done..|]. intros d. lia.
    - intros i x Hi (Hl & Hold & Hnew). unfold step. split_and!.
      + by rewrite length_insert.
      + intros j Hj. rewrite list_lookup_insert_ne by lia. by apply Hold.
      + intros d Hd Hlt. destruct (decide (Z.to_nat (enc ms d) = i)) as [<-|Hne].
        * rewrite list_lookup_insert_eq.
          -- f_equal. rewrite <- (cellTotal_W rows cs d Hgood Hd).
             apply (cellTotal_ext _ _ _ _ _ _ _ (S rows * n)); [done|].
             intros c. destruct (decide (c < length ms)%nat); [left|right; lia].
             rewrite Hdecs by done. change (default 0 (Some ?x)) with x.
             pose proof (enc_nat (dec d c) (in_range_dec _ _ c Hd)) as He. fold n in He. lia.
          -- rewrite Hl. destruct Hgood as [-> _]. fold n. nia.
        * rewrite list_lookup_insert_ne by lia. apply Hnew; [done|lia]. }
  destruct Hgood as [Hlen Hgood]. split; [by rewrite Hl|].
  intros r d Hr Hd. pose proof (enc_nat d Hd) as He. fold n in He |- *. fold n in Hgood. unfold cellAt in *.
  destruct (decide (r = S rows)) as [->|Hne].
  - by rewrite Hnew.
  - rewrite Hold by nia. apply Hgood; [lia|done].
Qed.

Lemma fillRows_spec cs : good_rows 1 cs ->
  good_rows (S len) (foldl (fillRow sizes (length ms) decs (Z.to_nat (radix ms))) cs (seq 1 len)).
Proof.
  intros H. apply (foldl_seq_inv good_rows _ cs 1 len H).
  intros [|i] x Hi Hx; [lia|]. apply fillRow_spec; [lia|done].
Qed.
End rows.

(** ** The table of a policy *)

(** The policies a table is built for: no negative bound, and a state space an
    [Int32Array] entry can name. *)
Definition table_spec_ok (spec : GeneratorSpec) : Prop :=
  Forall (Z.le 0) (mins_of spec) /\ radix (mins_of spec) <= 2 ^ 31 /\ 0 <= spec_length spec.

Lemma strides_lookup spec k cls : classes spec !! k = Some cls ->
  default 1 (imap (λ c (_ : PasswordClass), 1 * stride (mins_of spec) c) (classes spec) !! k)
  = stride (mins_of spec) k.
Proof. intros Hk. rewrite list_lookup_imap, Hk. cbn. by rewrite Z.mul_1_l. Qed.

Lemma enc_self_sum cs :
  enc (map minimum cs) (map minimum cs)
  = zsum (imap (λ k cls, minimum cls * stride (map minimum cs) k) cs).
Proof.
  assert (∀ cs st, st * enc (map minimum cs) (map minimum cs)
    = zsum (imap (λ k cls, minimum cls * (st * stride (map minimum cs) k)) cs)) as H.
  { clear cs. induction cs as [|cls cs IH]; intros st; [cbn; lia|].
    cbn [map enc imap zsum foldr]. fold zsum. unfold stride at 1. cbn [take radix foldr].
    rewrite Z.mul_add_distr_l, Z.mul_assoc, (IH (st * (minimum cls + 1))). f_equal; [lia|].
    f_equal. apply imap_ext. intros k x _. cbn. unfold stride. cbn. fold (radix (take k (map minimum cs))). lia. }
  specialize (H cs 1). rewrite Z.mul_1_l in H. rewrite H. f_equal. apply imap_ext.
  intros k x _. by rewrite Z.mul_1_l.
Qed.

Lemma stride_bound ms c : Forall (Z.le 0) ms -> 1 <= stride ms c <= radix ms.
Proof.
  intros H. unfold stride. split; [by apply radix_pos, Forall_take|].
  revert c. induction H as [|m ms Hm Hms IH]; intros [|c]; cbn; [done..| |].
  - fold (radix ms). pose proof (radix_pos ms Hms). nia.
  - fold (radix ms) (radix (take c ms)). specialize (IH c). pose proof (radix_pos _ Hms). nia.
Qed.

Lemma buildTable_ok spec : table_spec_ok spec ->
  table_ok (sizes_of spec) (mins_of spec) (buildTable spec) /\
  table_length (buildTable spec) = spec_length spec.
Proof.
  intros (Hms & Hradix & Hlen). unfold buildTable. rewrite strides_loop_spec. cbn [app].
  rewrite Z.mul_1_l. fold (mins_of spec).
  set (n := Z.to_nat (radix (mins_of spec))).
  pose proof (radix_pos _ Hms) as Hpos.
  assert (length (mins_of spec) = length (classes spec)) as El by apply length_map.
  pose proof (decrements_loop_spec (length (classes spec)) (classes spec)
    (imap (λ c _, 1 * stride (mins_of spec) c) (classes spec)) n
    (replicate (n * length (classes spec)) 0) 0 (le_n _) (length_replicate _ _)) as Hd.
  cbn zeta in Hd. rewrite Nat.sub_diag in Hd.
  destruct (decrements_loop _ _ _ _ _ _ _) as [decs init]. destruct Hd as (_ & Hinit & _ & Hcol).
  assert (∀ c d, (c < length (mins_of spec))%nat -> in_range (mins_of spec) d ->
    decs !! (Z.to_nat (enc (mins_of spec) d) * length (mins_of spec) + c)%nat
    = Some (enc (mins_of spec) (dec d c))) as Hdecs.
  { intros c d Hc Hd. rewrite El in *.
    destruct (lookup_lt_is_Some_2 (classes spec) c Hc) as [cls Hcls].
    destruct (lookup_lt_is_Some_2 d c) as [x Hx]; [by rewrite (in_range_length _ _ Hd), El|].
    pose proof (enc_bound _ _ Hd) as He.
    cbn in Hcol. rewrite (Hcol c cls Hcls) by (unfold n; lia).
    rewrite (strides_lookup _ _ _ Hcls). rewrite Z2Nat.id by lia.
    assert (mins_of spec !! c = Some (minimum cls)) as Hm by (unfold mins_of; by rewrite list_lookup_fmap, Hcls).
    rewrite (enc_digit _ _ _ _ _ Hd Hm Hx), (enc_dec _ _ _ _ Hd Hx).
    pose proof (enc_bound _ _ (in_range_dec _ _ c Hd)) as He'. rewrite (enc_dec _ _ _ _ Hd Hx) in He'.
    f_equal. apply toInt32_id. destruct (0 <? x); lia. }
  split; [|done]. constructor; cbn [states initialState decrements cells table_length].
  - done.
  - rewrite Hinit, Z.add_0_l. unfold mins_of. rewrite enc_self_sum. f_equal.
    apply imap_ext. intros k cls Hk. cbn. fold (mins_of spec).
    by rewrite (strides_lookup _ _ _ Hk).
  - exact Hdecs.
  - intros r d Hr Hd.
    pose proof (fillRows_spec (sizes_of spec) (mins_of spec) decs (Z.to_nat (spec_length spec)) ) as Hrows.
    rewrite <- El. fold n. unfold sizes_of.
    refine (proj2 (Hrows _ Hdecs _ _) r d ltac:(lia) Hd).
    + unfold sizes_of, mins_of. by rewrite !length_map.
    + split; [by rewrite length_insert, length_replicate|].
      intros [|r'] d' Hr' Hd'; [|lia]. cbn [Nat.mul Nat.add]. unfold cellAt.
      fold n. cbn [W]. rewrite <- (enc_zero _ _ Hd'). pose proof (enc_bound _ _ Hd').
      destruct (Z.eqb_spec (enc (mins_of spec) d') 0) as [->|Hne].
      * rewrite list_lookup_insert_eq; [done|]. rewrite length_replicate. unfold n. lia.
      * rewrite list_lookup_insert_ne by lia. rewrite lookup_replicate_2; [done|]. fold n. lia.
Qed.
