(* ===== verification/PasswordGeneratorSpec.v ===== *)
(** What the password generator promises.  [words] enumerates the passwords of a policy in
    the order the counting defines; the count is the length of that list, [unrankPassword] is
    its lookup, and its members are exactly the valid passwords, each once.  Hence the draw
    of [generatePassword] is uniform over them. *)
From Stdlib Require Import QArith Qround.
From S2P Require Import Prelude SecureRandom SecureRandomSpec PasswordGenerator PasswordTable.
Local Open Scope Z_scope.

(** ** The cache *)

Definition cache_ok (cache : Cache) : Prop :=
  map_Forall (λ k t, ∃ spec, table_spec_ok spec /\ cacheKey spec = k /\ t = buildTable spec) cache.

Definition key_part (cls : PasswordClass) : jsstr :=
  num (Z.of_nat (length (alphabet cls))) ++ js ":" ++ num (minimum cls).

Lemma key_part_inj x y a b : 0 <= minimum x -> 0 <= minimum y ->
  (a = [] \/ ∃ r, a = 124 :: r) -> (b = [] \/ ∃ r, b = 124 :: r) ->
  key_part x ++ a = key_part y ++ b ->
  length (alphabet x) = length (alphabet y) /\ minimum x = minimum y /\ a = b.
Proof.
  intros Hx Hy Ha Hb. unfold key_part. change (js ":") with [58]. rewrite <- !app_assoc. cbn [app].
  intros (Hn & _ & H)%(split_at_first is_digit); try done; try (apply num_digits; lia).
  apply num_inj in Hn. split; [lia|].
  enough (num (minimum x) = num (minimum y) /\ a = b) as [?%num_inj ?] by done.
  pose proof (num_digits _ Hx) as Hdx. pose proof (num_digits _ Hy) as Hdy.
  destruct Ha as [->|[ra ->]], Hb as [->|[rb ->]]; rewrite ?app_nil_r in *.
  - done.
  - rewrite H, forallb_app in Hdx. by apply andb_true_iff in Hdx as [_ ?].
  - rewrite <- H, forallb_app in Hdy. by apply andb_true_iff in Hdy as [_ ?].
  - by apply (split_at_first is_digit) in H as (-> & _ & ->).
Qed.

Lemma join_keys_inj cs cs' :
  Forall (Z.le 0) (map minimum cs) -> Forall (Z.le 0) (map minimum cs') ->
  join (js "|") (map key_part cs) = join (js "|") (map key_part cs') ->
  map (λ c, Z.of_nat (length (alphabet c))) cs = map (λ c, Z.of_nat (length (alphabet c))) cs' /\
  map minimum cs = map minimum cs'.
Proof.
  assert (∀ x l, join (js "|") (map key_part (x :: l)) = key_part x ++
    match l with [] => [] | _ => 124 :: join (js "|") (map key_part l) end) as Hj.
  { intros x l. cbn [map]. rewrite join_cons. by destruct l. }
  assert (∀ x a, key_part x ++ a <> []) as Hne.
  { intros x a. unfold key_part. rewrite <- !app_assoc. change (js ":") with [58].
    intros [_ [=]]%app_eq_nil. }
  revert cs'. induction cs as [|x cs IH]; intros [|y cs'] H1 H2.
  - done.
  - rewrite Hj. intros E%eq_sym. by apply Hne in E.
  - rewrite Hj. intros E. by apply Hne in E.
  - rewrite !Hj. inversion H1; inversion H2; subst. intros E%key_part_inj; [|done|done| |].
    + destruct E as (E1 & E2 & E3). cbn.
      destruct (IH cs') as [E4 E5]; [done|done| |by rewrite E1, E2, E4, E5].
      destruct cs, cs'; try done. by injection E3.
    + destruct cs; eauto.
    + destruct cs'; eauto.
Qed.

(** Two policies with one cache key have one table, up to its length. *)
Lemma cacheKey_inj s s' : Forall (Z.le 0) (mins_of s) -> Forall (Z.le 0) (mins_of s') ->
  cacheKey s = cacheKey s' -> sizes_of s = sizes_of s' /\ mins_of s = mins_of s'.
Proof. apply join_keys_inj. Qed.

Lemma tableFor_ok cache spec : cache_ok cache -> table_spec_ok spec ->
  let '(table, cache') := tableFor cache spec in
  table_ok (sizes_of spec) (mins_of spec) table /\ spec_length spec <= table_length table /\
  cache_ok cache'.
Proof.
  intros Hc Hs. destruct (buildTable_ok spec Hs) as [Hok Hlen].
  assert (cache_ok (<[cacheKey spec:=buildTable spec]> cache)) as Hc'
    by (apply map_Forall_insert_2; [by exists spec|done]).
  unfold tableFor. destruct (cache !! cacheKey spec) as [t|] eqn:E; [|split_and!; [done|lia|done]].
  destruct (Z.leb_spec (spec_length spec) (table_length t)); [|split_and!; [done|lia|done]].
  destruct (Hc _ _ E) as (s' & Hs' & Hk & ->). destruct (buildTable_ok s' Hs') as [Hok' _].
  destruct (cacheKey_inj s' spec) as [<- <-]; [apply Hs'|apply Hs|done|].
  split_and!; done.
Qed.

(** ** The enumeration *)

Definition class_words (a : jsstr) (ws : list jsstr) : list jsstr := a ≫= λ ch, cons ch <$> ws.

Fixpoint words (cs : list PasswordClass) (r : nat) (d : list Z) : list jsstr :=
  match r with
  | O => if forallb (Z.eqb 0) d then [[]] else []
  | S r => concat (imap (λ c cls, class_words (alphabet cls) (words cs r (dec d c))) cs)
  end.

Lemma length_class_words a ws : length (class_words a ws) = (length a * length ws)%nat.
Proof.
  unfold class_words. induction a as [|ch a IH]; cbn; [done|].
  by rewrite length_app, length_fmap, IH.
Qed.

Lemma class_words_lookup a ws i : (i < length a * length ws)%nat ->
  ∃ ch p, a !! (i / length ws)%nat = Some ch /\ ws !! (i mod length ws)%nat = Some p /\
    class_words a ws !! i = Some (ch :: p).
Proof.
  revert i. unfold class_words. induction a as [|ch a IH]; intros i Hi; cbn in Hi; [lia|].
  cbn [mbind list_bind]. fold (mbind (M:=list) (λ ch, cons ch <$> ws)).
  destruct (decide (i < length ws)%nat) as [Hlt|Hge].
  - rewrite Nat.div_small, Nat.mod_small by done.
    destruct (lookup_lt_is_Some_2 ws i Hlt) as [p Hp]. exists ch, p. split_and!; [done..|].
    rewrite lookup_app_l by (by rewrite length_fmap). by rewrite list_lookup_fmap, Hp.
  - destruct (IH (i - length ws)%nat) as (ch' & p & H1 & H2 & H3); [lia|].
    exists ch', p. assert (i = (i - length ws) + 1 * length ws)%nat as E by lia. split_and!.
    + rewrite E, Nat.div_add by lia. by rewrite Nat.add_1_r.
    + rewrite E, Nat.Div0.mod_add. done.
    + rewrite lookup_app_r by (rewrite length_fmap; lia). by rewrite length_fmap.
Qed.

Definition zlen {A} (l : list A) : Z := Z.of_nat (length l).

Lemma length_words cs r d : zlen (words cs r d) = W (map (λ c, zlen (alphabet c)) cs) r d.
Proof.
  revert d. induction r as [|r IH]; intros d; cbn [words W].
  - by destruct (forallb _ _).
  - assert (∀ l (f : nat -> nat), zlen (concat (imap (λ c cls, class_words (alphabet cls) (words cs r (dec d (f c)))) l))
      = zsum (imap (λ c size, size * W (map (λ c, zlen (alphabet c)) cs) r (dec d (f c))) (map (λ c, zlen (alphabet c)) l))) as H.
    { induction l as [|cls l IHl]; intros f; [done|].
      cbn [imap concat map zsum foldr]. fold zsum. unfold zlen in *.
      rewrite length_app, length_class_words. rewrite Nat2Z.inj_add, Nat2Z.inj_mul, IH. f_equal.
      apply (IHl (λ c, f (S c))). }
    apply (H cs id).
Qed.

(** ** Unranking *)

Lemma class_words_lookup_Z a ws rest :
  0 <= rest < Z.of_nat (length a) * zlen ws ->
  ∃ ch p, a !! Z.to_nat (rest / zlen ws) = Some ch /\ ws !! Z.to_nat (rest mod zlen ws) = Some p /\
    class_words a ws !! Z.to_nat rest = Some (ch :: p).
Proof.
  unfold zlen. intros Hr. assert (0 < Z.of_nat (length ws)) as Hw by nia.
  destruct (class_words_lookup a ws (Z.to_nat rest)) as (ch & p & H1 & H2 & H3); [nia|].
  exists ch, p. rewrite Z2Nat.inj_div, Z2Nat.inj_mod, Nat2Z.id by lia. done.
Qed.

Section unrank.
Context (spec : GeneratorSpec) (t : CountTable).
Context (Hs : table_spec_ok spec) (Ht : table_ok (sizes_of spec) (mins_of spec) t).

Lemma class_cell r d c cls : Z.of_nat r <= table_length t -> in_range (mins_of spec) d ->
  classes spec !! c = Some cls ->
  let next := default 0 (decrements t !!
    Z.to_nat (enc (mins_of spec) d * Z.of_nat (length (classes spec)) + Z.of_nat c)) in
  next = enc (mins_of spec) (dec d c) /\
  cellAt (cells t) (Z.to_nat (Z.of_nat r * states t + next)) = zlen (words (classes spec) r (dec d c)).
Proof.
  intros Hr Hd Hc. cbn zeta. pose proof (enc_bound _ _ Hd).
  assert (length (mins_of spec) = length (classes spec)) as El by apply length_map.
  assert (Z.to_nat (enc (mins_of spec) d * Z.of_nat (length (classes spec)) + Z.of_nat c)
    = (Z.to_nat (enc (mins_of spec) d) * length (mins_of spec) + c)%nat) as -> by (rewrite El; lia).
  rewrite (ok_decrements _ _ _ Ht) by (try done; apply lookup_lt_Some in Hc; lia).
  change (default 0 (Some ?x)) with x. split; [done|].
  rewrite (ok_states _ _ _ Ht). pose proof (enc_bound _ _ (in_range_dec _ _ c Hd)).
  rewrite length_words. fold (sizes_of spec).
  rewrite <- (ok_cells _ _ _ Ht) by (by try apply in_range_dec). f_equal. lia.
Qed.

Definition suffix_words (r : nat) (d : list Z) (ci : nat) (cs : list PasswordClass) : list jsstr :=
  concat (imap (λ k cls, class_words (alphabet cls) (words (classes spec) r (dec d (ci + k)))) cs).

Lemma suffix_words_cons r d ci cls cs :
  suffix_words r d ci (cls :: cs)
  = class_words (alphabet cls) (words (classes spec) r (dec d ci)) ++ suffix_words r d (S ci) cs.
Proof.
  unfold suffix_words. cbn [imap concat]. rewrite Nat.add_0_r. f_equal. f_equal.
  apply imap_ext. intros k x _. cbn -[Nat.add]. by rewrite Nat.add_succ_r.
Qed.

Lemma unrank_class_spec r d ci cs rest :
  Z.of_nat r <= table_length t -> in_range (mins_of spec) d -> drop ci (classes spec) = cs ->
  0 <= rest < zlen (suffix_words r d ci cs) ->
  ∃ ch rest' c p,
    unrank_class t (length (classes spec)) ci cs (Z.of_nat r * states t) (enc (mins_of spec) d) rest
      = Ok (inl (ch, rest', enc (mins_of spec) (dec d c))) /\
    words (classes spec) r (dec d c) !! Z.to_nat rest' = Some p /\ 0 <= rest' /\
    suffix_words r d ci cs !! Z.to_nat rest = Some (ch :: p).
Proof.
  intros Hr Hd. revert ci rest. induction cs as [|cls cs IH]; intros ci rest Hcs Hrest.
  { unfold suffix_words, zlen in Hrest. cbn in Hrest. lia. }
  assert (classes spec !! ci = Some cls) as Hc.
  { rewrite <- (Nat.add_0_r ci), <- lookup_drop, Hcs. done. }
  assert (drop (S ci) (classes spec) = cs) as Hcs'.
  { rewrite <- Nat.add_1_r, <- drop_drop, Hcs. done. }
  destruct (class_cell r d ci cls Hr Hd Hc) as [Hnext Hsub]. cbn zeta in Hsub.
  cbn [unrank_class]. rewrite Hsub, Hnext. clear Hsub Hnext.
  rewrite suffix_words_cons in *. unfold zlen in Hrest. rewrite length_app, length_class_words in Hrest.
  set (ws := words (classes spec) r (dec d ci)) in *.
  assert (∀ q, (length (alphabet cls) * length ws <= Z.to_nat q)%nat -> 0 <= q ->
    (class_words (alphabet cls) ws ++ suffix_words r d (S ci) cs) !! Z.to_nat q
    = suffix_words r d (S ci) cs !! Z.to_nat (q - Z.of_nat (length (alphabet cls)) * zlen ws)) as Happ.
  { intros q Hq H0. rewrite lookup_app_r by (by rewrite length_class_words).
    rewrite length_class_words. f_equal. unfold zlen. lia. }
  destruct (Z.eqb_spec (zlen ws) 0) as [E0|Hne].
  - unfold zlen in E0. assert (length ws = 0%nat) as E0' by lia.
    rewrite E0', Nat.mul_0_r in Hrest, Happ. rewrite Happ by lia. unfold zlen. rewrite E0, Z.mul_0_r, Z.sub_0_r.
    apply IH; [done|]. unfold zlen. lia.
  - destruct (Z.ltb_spec rest (Z.of_nat (length (alphabet cls)) * zlen ws)) as [Hlt|Hge].
    + destruct (class_words_lookup_Z (alphabet cls) ws rest) as (ch & p & H1 & H2 & H3); [lia|].
      unfold alphabetAt. rewrite H1. exists ch, (rest mod zlen ws), ci, p. split_and!; try done.
      * apply Z.mod_pos_bound. unfold zlen in *. lia.
      * apply lookup_app_l_Some. done.
    + unfold zlen in Hge. rewrite Happ by lia. apply IH; [done|]. unfold zlen. lia.
Qed.

Lemma unrank_loop_spec r d rest out :
  Z.of_nat r <= table_length t -> in_range (mins_of spec) d ->
  0 <= rest < zlen (words (classes spec) r d) ->
  ∃ p, unrank_loop t (classes spec) r (enc (mins_of spec) d) rest out = Ok (out ++ p) /\
    words (classes spec) r d !! Z.to_nat rest = Some p.
Proof.
  revert d rest out. induction r as [|r IH]; intros d rest out Hr Hd Hrest.
  - unfold zlen in Hrest. cbn in *. destruct (forallb _ _); cbn in *; [|lia]. exists []. rewrite app_nil_r.
    by replace rest with 0 by lia.
  - cbn [unrank_loop].
    assert (words (classes spec) (S r) d = suffix_words r d 0 (classes spec)) as Ew by done.
    rewrite Ew in *.
    destruct (unrank_class_spec r d 0 (classes spec) rest) as (ch & rest' & c & p & -> & Hp & H0 & ->);
      [lia|done|done|done|].
    destruct (IH (dec d c) rest' (out ++ [ch])) as (p' & -> & Hp'); [lia|by apply in_range_dec| |].
    + apply lookup_lt_Some in Hp. unfold zlen. lia.
    + rewrite Hp in Hp'. injection Hp' as <-. exists (ch :: p). by rewrite <- app_assoc.
Qed.
End unrank.

(** The passwords of a policy, in the generator's order. *)
Definition spec_words (spec : GeneratorSpec) : list jsstr :=
  words (classes spec) (Z.to_nat (spec_length spec)) (mins_of spec).

Lemma totalOf_words spec t : table_spec_ok spec -> table_ok (sizes_of spec) (mins_of spec) t ->
  spec_length spec <= table_length t -> totalOf t spec = zlen (spec_words spec).
Proof.
  intros (Hm & _ & Hl) Ht Hlen. unfold totalOf. rewrite (ok_states _ _ _ Ht), (ok_initial _ _ _ Ht).
  pose proof (in_range_refl _ Hm) as Hr. pose proof (enc_bound _ _ Hr).
  unfold spec_words. rewrite length_words. fold (sizes_of spec).
  rewrite <- (ok_cells _ _ _ Ht) by (done || lia). f_equal. nia.
Qed.

Lemma count_words cache spec : cache_ok cache -> table_spec_ok spec ->
  (countValidPasswords cache spec).1 = zlen (spec_words spec) /\
  cache_ok (countValidPasswords cache spec).2.
Proof.
  intros Hc Hs. unfold countValidPasswords. pose proof (tableFor_ok cache spec Hc Hs) as H.
  destruct (tableFor cache spec) as [t c']. destruct H as (Ht & Hl & Hc'). split; [|done].
  by apply totalOf_words.
Qed.

Lemma unrank_words cache spec i : cache_ok cache -> table_spec_ok spec ->
  (unrankPassword cache i spec).1 = match (if 0 <=? i then spec_words spec !! Z.to_nat i else None) with
                                    | Some p => Ok p
                                    | None => Throw IndexOutsideRange
                                    end /\
  cache_ok (unrankPassword cache i spec).2.
Proof.
  intros Hc Hs. unfold unrankPassword. pose proof (tableFor_ok cache spec Hc Hs) as H.
  destruct (tableFor cache spec) as [t c']. destruct H as (Ht & Hl & Hc').
  rewrite (totalOf_words spec t) by done.
  destruct (Z.ltb_spec i 0) as [Hneg|Hnn]; cbn [orb].
  { by rewrite (proj2 (Z.leb_gt 0 i)). }
  rewrite (proj2 (Z.leb_le 0 i)) by done.
  destruct (Z.leb_spec (zlen (spec_words spec)) i) as [Hge|Hlt].
  - unfold zlen in Hge. rewrite lookup_ge_None_2 by lia. done.
  - split; [|done]. cbn [fst]. destruct Hs as (Hm & Hr & H0).
    destruct (unrank_loop_spec spec t Ht (Z.to_nat (spec_length spec)) (mins_of spec) i [])
      as (p & Hp & Hw); [lia|by apply in_range_refl|done|].
    rewrite <- (ok_initial _ _ _ Ht) in Hp. unfold spec_words. by rewrite Hp, Hw.
Qed.

(** ** The enumeration is the set of valid passwords *)

(** How many characters of [p] belong to the class. *)
Definition class_count (a p : jsstr) : Z := zlen (List.filter (includes a) p).

Definition disjoint_classes (cs : list PasswordClass) : Prop := NoDup (concat (map alphabet cs)).

(** [r] characters of the pool meeting the outstanding minimums [d]. *)
Definition valid_suffix (cs : list PasswordClass) (r : nat) (d : list Z) (p : jsstr) : Prop :=
  length p = r /\
  Forall (λ ch, ch ∈ concat (map alphabet cs)) p /\
  ∀ c cls x, cs !! c = Some cls -> d !! c = Some x -> x <= class_count (alphabet cls) p.

(** A password the policy allows. *)
Definition valid_password (spec : GeneratorSpec) (p : jsstr) : Prop :=
  zlen p = spec_length spec /\
  Forall (λ ch, ch ∈ concat (map alphabet (classes spec))) p /\
  Forall (λ cls, minimum cls <= class_count (alphabet cls) p) (classes spec).

Lemma includes_elem s c : includes s c = true <-> c ∈ s.
Proof.
  unfold includes. rewrite existsb_exists. split.
  - intros (x & Hx & ->%Z.eqb_eq). by apply list_elem_of_In.
  - intros H%list_elem_of_In. exists c. by rewrite Z.eqb_refl.
Qed.

Lemma pool_elem cs ch : ch ∈ concat (map alphabet cs) <->
  ∃ c cls, cs !! c = Some cls /\ ch ∈ alphabet cls.
Proof.
  rewrite list_elem_of_In, in_concat. split.
  - intros (a & Ha & Hch). apply in_map_iff in Ha as (cls & <- & Hcls).
    apply list_elem_of_In, list_elem_of_lookup in Hcls as [c Hc]. exists c, cls. by rewrite list_elem_of_In.
  - intros (c & cls & Hc & Hch). exists (alphabet cls). split; [|by apply list_elem_of_In].
    apply in_map, list_elem_of_In. by eapply list_elem_of_lookup_2.
Qed.

Lemma disjoint_class cs c c' a b ch : disjoint_classes cs ->
  cs !! c = Some a -> cs !! c' = Some b -> ch ∈ alphabet a -> ch ∈ alphabet b -> c = c'.
Proof.
  unfold disjoint_classes. revert c c'. induction cs as [|cls cs IH]; intros [|c] [|c'] Hnd Ha Hb H1 H2;
    cbn in *; try done; apply NoDup_app in Hnd as (_ & Hx & Hnd).
  - injection Ha as ->. exfalso. apply (Hx ch H1), pool_elem. eauto.
  - injection Hb as ->. exfalso. apply (Hx ch H2), pool_elem. eauto.
  - f_equal. eauto.
Qed.

Lemma disjoint_alphabet cs c a : disjoint_classes cs -> cs !! c = Some a -> NoDup (alphabet a).
Proof.
  unfold disjoint_classes. revert c. induction cs as [|cls cs IH]; intros [|c] Hnd Ha; cbn in *; try done;
    apply NoDup_app in Hnd as (H1 & _ & H2); [by injection Ha as <-|eauto].
Qed.

Lemma class_words_elem a ws p : p ∈ class_words a ws <->
  ∃ ch q, p = ch :: q /\ ch ∈ a /\ q ∈ ws.
Proof.
  unfold class_words. rewrite list_elem_of_bind. split.
  - intros (ch & Hp & Hch). apply list_elem_of_fmap in Hp as (q & -> & Hq). eauto.
  - intros (ch & q & -> & Hch & Hq). exists ch. split; [|done]. by apply list_elem_of_fmap_2.
Qed.

Lemma concat_imap_elem {A B} (f : nat -> A -> list B) l x :
  x ∈ concat (imap f l) <-> ∃ c a, l !! c = Some a /\ x ∈ f c a.
Proof.
  rewrite list_elem_of_In, in_concat. setoid_rewrite <- list_elem_of_In.
  setoid_rewrite elem_of_lookup_imap. split.
  - intros (y & (c & a & -> & Ha) & Hx). eauto.
  - intros (c & a & Ha & Hx). eexists. eauto.
Qed.

Lemma words_elem cs r d p : p ∈ words cs (S r) d <->
  ∃ c cls ch q, cs !! c = Some cls /\ p = ch :: q /\ ch ∈ alphabet cls /\ q ∈ words cs r (dec d c).
Proof.
  cbn [words]. rewrite concat_imap_elem. setoid_rewrite class_words_elem. naive_solver.
Qed.

Lemma class_count_cons a ch p :
  class_count a (ch :: p) = (if includes a ch then 1 else 0) + class_count a p.
Proof. unfold class_count, zlen. cbn. destruct (includes a ch); cbn [length]; lia. Qed.

Lemma class_count_nonneg a p : 0 <= class_count a p.
Proof. unfold class_count, zlen. lia. Qed.

(** A character of class [c] in front pays one unit of that class's minimum, and of no other. *)
Lemma minimums_step cs d c cls ch q : disjoint_classes cs -> cs !! c = Some cls -> ch ∈ alphabet cls ->
  (∀ c' cls' x, cs !! c' = Some cls' -> dec d c !! c' = Some x -> x <= class_count (alphabet cls') q)
  <-> (∀ c' cls' x, cs !! c' = Some cls' -> d !! c' = Some x -> x <= class_count (alphabet cls') (ch :: q)).
Proof.
  intros Hdis Hc Hch.
  assert (∀ c' cls', cs !! c' = Some cls' -> includes (alphabet cls') ch = bool_decide (c' = c)) as Hinc.
  { intros c' cls' Hc'. case_bool_decide as Heq.
    - subst. rewrite Hc in Hc'. injection Hc' as <-. by apply includes_elem.
    - apply not_true_iff_false. rewrite includes_elem. intros Hch'. apply Heq.
      by apply (disjoint_class cs _ _ cls' cls ch). }
  unfold dec. split; intros H c' cls' x Hc' Hx; specialize (H c' cls').
  - rewrite class_count_cons, (Hinc c' cls' Hc'). case_bool_decide as Heq.
    + subst. rewrite list_lookup_alter_eq, Hx in H. specialize (H _ Hc' eq_refl). revert H.
      destruct (Z.ltb_spec 0 x); pose proof (class_count_nonneg (alphabet cls') q); lia.
    + rewrite list_lookup_alter_ne in H by done. specialize (H _ Hc' Hx). lia.
  - destruct (decide (c' = c)) as [->|Heq].
    + rewrite list_lookup_alter_eq in Hx. destruct (d !! c) as [y|] eqn:Hy; [|done].
      injection Hx as <-. specialize (H _ Hc' eq_refl).
      rewrite class_count_cons, (Hinc c cls' Hc'), bool_decide_true in H by done.
      pose proof (class_count_nonneg (alphabet cls') q). destruct (Z.ltb_spec 0 y); lia.
    + rewrite list_lookup_alter_ne in Hx by done. specialize (H _ Hc' Hx).
      rewrite class_count_cons, (Hinc c' cls' Hc'), bool_decide_false in H by done. lia.
Qed.

Lemma words_valid cs r d p : disjoint_classes cs -> length d = length cs -> Forall (Z.le 0) d ->
  p ∈ words cs r d <-> valid_suffix cs r d p.
Proof.
  intros Hdis. revert d p. induction r as [|r IH]; intros d p Hlen Hd.
  - cbn [words]. destruct (forallb (Z.eqb 0) d) eqn:E.
    + rewrite list_elem_of_singleton. split; [intros ->|by intros ([]%nil_length_inv & _)].
      split_and!; [done|constructor|]. intros c cls x _ Hx.
      rewrite forallb_forall in E. specialize (E x). rewrite <- list_elem_of_In in E.
      apply list_elem_of_lookup_2 in Hx. apply E in Hx. pose proof (class_count_nonneg (alphabet cls) []). lia.
    + split; [by intros ?%not_elem_of_nil|]. intros (Hp & _ & Hmin). exfalso.
      apply nil_length_inv in Hp as ->. apply not_true_iff_false in E. apply E, forallb_forall.
      intros x Hx%list_elem_of_In. pose proof (proj1 (Forall_forall _ _) Hd x Hx) as H0.
      apply list_elem_of_lookup in Hx as [c Hc].
      destruct (lookup_lt_is_Some_2 cs c) as [cls Hcls]; [rewrite <- Hlen; by eapply lookup_lt_Some|].
      specialize (Hmin c cls x Hcls Hc). unfold class_count, zlen in Hmin. cbn in Hmin. lia.
  - assert (∀ c, length (dec d c) = length cs /\ Forall (Z.le 0) (dec d c)) as Hdec.
    { intros c. split; [unfold dec; by rewrite length_alter|].
      apply Forall_alter; [done|]. intros x Hx H0. cbn in *. destruct (Z.ltb_spec 0 x); lia. }
    rewrite words_elem. unfold valid_suffix. split.
    + intros (c & cls & ch & q & Hc & -> & Hch & Hq). destruct (Hdec c) as [H1 H2].
      apply IH in Hq as (Hl & Hf & Hm); [|done..]. split_and!; [cbn; by rewrite Hl| |].
      * constructor; [|done]. apply pool_elem. eauto.
      * by apply (minimums_step cs d c cls).
    + intros (Hl & Hf & Hm). destruct p as [|ch q]; [done|]. injection Hl as Hl.
      apply Forall_cons in Hf as [Hch Hf]. apply pool_elem in Hch as (c & cls & Hc & Hch).
      exists c, cls, ch, q. destruct (Hdec c) as [H1 H2]. split_and!; [done..|].
      apply IH; [done..|]. split_and!; [done..|]. by apply (minimums_step cs d c cls ch q).
Qed.

Lemma NoDup_class_words a ws : NoDup a -> NoDup ws -> NoDup (class_words a ws).
Proof.
  intros Ha Hw. unfold class_words. apply NoDup_bind; [| |done].
  - intros x y p _ _ Hx%list_elem_of_fmap Hy%list_elem_of_fmap.
    destruct Hx as (q & -> & _), Hy as (q' & [= ] & _). done.
  - intros x _. by apply NoDup_fmap_2; [intros ? ? [= ->]|].
Qed.

Lemma NoDup_concat_imap {A B} (f : nat -> A -> list B) l :
  (∀ c a, l !! c = Some a -> NoDup (f c a)) ->
  (∀ c c' a a' x, l !! c = Some a -> l !! c' = Some a' -> x ∈ f c a -> x ∈ f c' a' -> c = c') ->
  NoDup (concat (imap f l)).
Proof.
  revert f. induction l as [|a l IH]; intros f Hn Hd; cbn; [constructor|].
  apply NoDup_app. split_and!.
  - by apply (Hn 0%nat).
  - intros x Hx. rewrite (concat_imap_elem (f ∘ S)). intros (c & a' & Hc & Hx').
    by specialize (Hd 0%nat (S c) a a' x eq_refl Hc Hx Hx').
  - apply IH; [intros c a' Hc; by apply (Hn (S c))|].
    intros c c' a1 a2 x H1 H2 H3 H4. specialize (Hd (S c) (S c') a1 a2 x H1 H2 H3 H4). lia.
Qed.

Lemma NoDup_words cs r d : disjoint_classes cs -> NoDup (words cs r d).
Proof.
  intros Hdis. revert d. induction r as [|r IH]; intros d; cbn [words].
  - destruct (forallb _ _); [apply NoDup_singleton|constructor].
  - apply NoDup_concat_imap.
    + intros c a Hc. apply NoDup_class_words; [by eapply disjoint_alphabet|done].
    + intros c c' a a' x Hc Hc' (ch & q & -> & Hch & _)%class_words_elem
        (ch' & q' & [= <- <-] & Hch' & _)%class_words_elem. by eapply disjoint_class.
Qed.

(** The policies [buildSpec] hands out. *)
Definition spec_ok (spec : GeneratorSpec) : Prop :=
  table_spec_ok spec /\ disjoint_classes (classes spec).

Lemma spec_words_valid spec p : spec_ok spec -> p ∈ spec_words spec <-> valid_password spec p.
Proof.
  intros [(Hm & _ & Hl) Hdis]. unfold spec_words.
  rewrite words_valid; [|done|unfold mins_of; by rewrite length_map|done].
  unfold valid_suffix, valid_password. rewrite Forall_forall.
  assert (length p = Z.to_nat (spec_length spec) <-> zlen p = spec_length spec) as -> by (unfold zlen; lia).
  assert ((∀ c cls x, classes spec !! c = Some cls -> mins_of spec !! c = Some x ->
      x <= class_count (alphabet cls) p)
    <-> Forall (λ cls, minimum cls <= class_count (alphabet cls) p) (classes spec)) as ->; [|by rewrite Forall_forall].
  unfold mins_of. rewrite Forall_lookup. setoid_rewrite list_lookup_fmap. split.
  - intros H c cls Hc. apply (H c cls); [done|]. by rewrite Hc.
  - intros H c cls x Hc. rewrite Hc. intros [= <-]. by apply (H c).
Qed.

(** ** Policies *)

Lemma round_nonneg q : Qle_bool 0 q = true -> 0 <= round q.
Proof.
  intros H%Qle_bool_iff. unfold round. change 0 with (Qfloor 0). apply Qfloor_resp_le.
  apply (Qle_trans _ q); [done|]. rewrite <- (Qplus_0_r q) at 1. by apply Qplus_le_r.
Qed.

Lemma clampMinimum_range v : 0 <= clampMinimum v <= MAX_PASSWORD_CLASS_MINIMUM.
Proof.
  unfold MAX_PASSWORD_CLASS_MINIMUM. destruct v as [q|]; [|cbn; lia].
  unfold clampMinimum. destruct (Qle_bool 0 q) eqn:E; cbn [negb]; [|lia]. apply round_nonneg in E.
  unfold MAX_PASSWORD_CLASS_MINIMUM. lia.
Qed.

Lemma clampLength_range v : MIN_PASSWORD_LENGTH <= clampLength v <= MAX_PASSWORD_LENGTH.
Proof. unfold clampLength, MIN_PASSWORD_LENGTH, MAX_PASSWORD_LENGTH. destruct v; lia. Qed.

Lemma length_code_points s : (length (code_points s) <= length s)%nat.
Proof.
  assert (∀ n s, (length s <= n)%nat -> (length (code_points s) <= length s)%nat) as H; [|by apply (H (length s))].
  clear s. induction n as [|n IH]; intros [|a [|b s]] Hn; cbn in *; try lia.
  destruct (is_high a && is_low b); cbn.
  - specialize (IH s). lia.
  - specialize (IH (b :: s)). cbn in IH. lia.
Qed.

(** As many code points as units: no unit is half of a pair. *)
Lemma code_points_full s : length (code_points s) = length s -> code_points s = (λ c, [c]) <$> s.
Proof.
  assert (∀ n s, (length s <= n)%nat -> length (code_points s) = length s ->
    code_points s = (λ c, [c]) <$> s) as H; [|by apply (H (length s))].
  clear s. induction n as [|n IH]; intros [|a [|b s]] Hn Hl; cbn in *; try done; try lia.
  pose proof (length_code_points s). destruct (is_high a && is_low b); cbn in *; [lia|].
  f_equal. apply (IH (b :: s)); cbn in *; lia.
Qed.

(** [assertDisjointClasses] lets a class list through only when no character occurs twice
    in the pooled alphabets, pairs of surrogates included, and the pool has the expected size. *)
Theorem assertDisjointClasses_sound cs expectedPoolSize :
  assertDisjointClasses cs expectedPoolSize = Ok () ->
  disjoint_classes cs /\ length (concat (map alphabet cs)) = expectedPoolSize.
Proof.
  unfold assertDisjointClasses, disjoint_classes. set (pool := concat (map alphabet cs)).
  destruct (Nat.eqb_spec (length (remove_dups (code_points pool))) (length pool)) as [E|]; [|done].
  destruct (Nat.eqb_spec (length pool) expectedPoolSize) as [E'|]; [|done]. intros _. split; [|done].
  assert (∀ l : list jsstr, (length (remove_dups l) <= length l)%nat /\
    (length (remove_dups l) = length l -> NoDup l)) as Hrd.
  { induction l as [|x l [IH1 IH2]]; cbn; [split; [lia|constructor]|].
    case_decide; cbn; [split; lia|]. split; [lia|]. intros [= H1].
    constructor; [by rewrite <- elem_of_remove_dups in * || done|by apply IH2]. }
  pose proof (Hrd (code_points pool)) as [H1 H2]. pose proof (length_code_points pool).
  assert (length (code_points pool) = length pool) as E2 by lia.
  specialize (H2 ltac:(lia)). rewrite (code_points_full _ E2) in H2. by apply NoDup_fmap_1 in H2.
Qed.

Lemma assertDisjointClasses_sound_witness :
  disjoint_classes [{| alphabet := js "ab"; minimum := 1 |}; {| alphabet := js "01"; minimum := 0 |}].
Proof.
  exact (proj1 (assertDisjointClasses_sound
    [{| alphabet := js "ab"; minimum := 1 |}; {| alphabet := js "01"; minimum := 0 |}] 4 eq_refl)).
Defined.

(** The real alphabets, whatever is enabled: disjoint, and the pool of [buildCharset]. *)
Lemma enabledClasses_pool o :
  enabledClasses o <> [] ->
  disjoint_classes (enabledClasses o) /\
  assertDisjointClasses (enabledClasses o) (getEffectiveCharsetSize (charset_options o)) = Ok () /\
  Forall (λ cls, (2 <= length (alphabet cls))%nat) (enabledClasses o) /\
  (length (enabledClasses o) <= 4)%nat.
Proof.
  destruct o as [[u l n s e] len mu ml mn ms]. cbn -[withoutAmbiguous].
  intros Hne.
  destruct u, l, n, s, e; try done;
    (split; [unfold disjoint_classes; apply (bool_decide_eq_true_1 _); vm_compute; reflexivity|];
     split; [vm_compute; reflexivity|]; split; [|cbn; lia];
     repeat (constructor; [apply Nat.leb_le; vm_compute; reflexivity|]); constructor).
Qed.

Lemma enabledClasses_nil o : enabledClasses o = [] <->
  uppercase (charset_options o) = false /\ lowercase (charset_options o) = false /\
  numbers (charset_options o) = false /\ symbols (charset_options o) = false.
Proof. destruct o as [[[] [] [] [] e] len mu ml mn ms]; cbn; naive_solver. Qed.

Lemma enabledClasses_minimums o :
  Forall (λ cls, 0 <= minimum cls <= MAX_PASSWORD_CLASS_MINIMUM) (enabledClasses o).
Proof.
  destruct o as [[[] [] [] [] e] len mu ml mn ms]; cbn -[withoutAmbiguous clampMinimum];
    repeat (constructor; [apply clampMinimum_range|]); constructor.
Qed.

Lemma radix_bound ms k : 0 <= k -> Forall (λ m, 0 <= m <= k) ms -> 1 <= radix ms <= (k + 1) ^ zlen ms.
Proof.
  intros Hk. induction 1 as [|m ms Hm _ IH]; [done|]. unfold zlen in *. cbn [radix foldr length].
  fold (radix ms). rewrite Nat2Z.inj_succ, Z.pow_succ_r by lia. nia.
Qed.

(** What [buildSpec] hands out. *)
Definition built_spec (o : PasswordGenOptionsLike) (spec : GeneratorSpec) : Prop :=
  spec_ok spec /\ classes spec = enabledClasses o /\ classes spec <> [] /\
  spec_length spec = clampLength (length_option o) /\ required (classes spec) <= spec_length spec.

Lemma buildSpec_built o spec : buildSpec o = Ok spec -> built_spec o spec.
Proof.
  unfold buildSpec. destruct (enabledClasses o) as [|x l] eqn:E; [done|]. rewrite <- E.
  destruct (enabledClasses_pool o) as (Hdis & -> & _ & Hlen); [by rewrite E|].
  destruct (Z.ltb_spec (clampLength (length_option o)) (required (enabledClasses o))); [done|].
  intros [= <-]. pose proof (enabledClasses_minimums o) as Hmin.
  pose proof (clampLength_range (length_option o)) as Hl. unfold MIN_PASSWORD_LENGTH in Hl.
  unfold built_spec, spec_ok, table_spec_ok, mins_of. cbn [classes spec_length].
  pose proof (radix_bound (map minimum (enabledClasses o)) 5 ltac:(lia)) as Hr.
  split_and!; try done; try lia.
  - apply Forall_fmap. eapply Forall_impl; [exact Hmin|]. cbn. lia.
  - specialize (Hr ltac:(apply Forall_fmap; exact Hmin)). unfold zlen in Hr. rewrite length_map in Hr.
    pose proof (Z.pow_le_mono_r 6 (Z.of_nat (length (enabledClasses o))) 4 ltac:(lia) ltac:(lia)).
    change (6 ^ 4) with 1296 in *. change (5 + 1) with 6 in *. lia.
  - by rewrite E.
Qed.

(** [buildSpec] repairs what it can and refuses only what no password satisfies: a policy
    with a class enabled whose clamped minimums fit the clamped length gives a specification
    with disjoint classes, a length in [8, 128] and minimums in [0, 5]; the two refusals are
    exactly "nothing enabled" and "too short", and the overlap error cannot happen. *)
Theorem buildSpec_outcome o :
  match buildSpec o with
  | Ok spec =>
      spec_ok spec /\ classes spec = enabledClasses o /\ classes spec <> [] /\
      spec_length spec = clampLength (length_option o) /\ 8 <= spec_length spec <= 128 /\
      Forall (λ cls, 0 <= minimum cls <= 5) (classes spec) /\
      required (classes spec) <= spec_length spec
  | Throw (PasswordGeneratorError no_class_enabled) =>
      uppercase (charset_options o) = false /\ lowercase (charset_options o) = false /\
      numbers (charset_options o) = false /\ symbols (charset_options o) = false
  | Throw (PasswordGeneratorError length_too_short) =>
      clampLength (length_option o) < required (enabledClasses o)
  | Throw _ => False
  end.
Proof.
  destruct (buildSpec o) as [spec|e] eqn:E.
  - apply buildSpec_built in E as (Hok & Hc & Hne & Hl & Hr). split_and!; try done.
    + rewrite Hl. apply clampLength_range.
    + rewrite Hl. apply clampLength_range.
    + rewrite Hc. apply enabledClasses_minimums.
  - revert E. unfold buildSpec. destruct (enabledClasses o) as [|x l] eqn:E.
    + intros [= <-]. by apply enabledClasses_nil.
    + rewrite <- E. destruct (enabledClasses_pool o) as (_ & -> & _ & _); [by rewrite E|].
      destruct (Z.ltb_spec (clampLength (length_option o)) (required (enabledClasses o))); [|done].
      by intros [= <-].
Qed.

Lemma required_zsum cs : required cs = zsum (map minimum cs).
Proof.
  unfold required. assert (∀ a, foldl (λ sum cls, sum + minimum cls) a cs = a + zsum (map minimum cs)) as H;
    [|by rewrite H].
  induction cs as [|x cs IH]; intros a; cbn; [lia|]. rewrite IH. fold (zsum (map minimum cs)). lia.
Qed.

Lemma zsum_ge l k x : Forall (Z.le 0) l -> l !! k = Some x -> x <= zsum l.
Proof.
  intros H. revert k. induction H as [|y l Hy Hl IH]; intros [|k] Hk; cbn in *; try done; fold (zsum l).
  - injection Hk as ->. assert (0 <= zsum l) as H0; [|lia]. clear -Hl.
    induction Hl; cbn; [done|]. fold (zsum l). lia.
  - specialize (IH k Hk). lia.
Qed.

Lemma zsum_dec d c x : d !! c = Some x -> 0 < x -> zsum (dec d c) = zsum d - 1.
Proof.
  revert c. induction d as [|y d IH]; intros [|c] Hc Hx; try done; cbn in *.
  - injection Hc as ->. rewrite (proj2 (Z.ltb_lt 0 x)) by done. fold (zsum d). lia.
  - fold (dec d c) (zsum d) (zsum (dec d c)). rewrite (IH c Hc Hx). lia.
Qed.

Lemma W_nonneg sizes r d : Forall (Z.le 0) sizes -> 0 <= W sizes r d.
Proof.
  intros Hs. revert d. induction r as [|r IH]; intros d; cbn [W]; [by destruct (forallb _ _)|].
  generalize dec. intros dec'. clear -Hs IH. rewrite Forall_forall in Hs.
  assert (∀ l (f : nat -> list Z), (∀ x, x ∈ l -> x ∈ sizes) ->
    0 <= zsum (imap (λ c size, size * W sizes r (f c)) l)) as H; [|by apply (H sizes (dec' d))].
  induction l as [|x l IHl]; intros f Hl; [done|]. cbn [imap zsum foldr]. fold zsum.
  pose proof (Hs x (Hl x ltac:(left))). specialize (IH (f 0%nat)).
  specialize (IHl (f ∘ S) ltac:(intros y Hy; apply Hl; by right)). cbn in IHl. 
  change (0 <= zsum (imap ((λ c size, size * W sizes r (f c)) ∘ S) l)) in IHl. unfold zsum in *. nia.
Qed.

(** Some class can take the next position and leave the rest satisfiable. *)
Lemma some_class_fits d r : d <> [] -> Forall (Z.le 0) d -> zsum d <= Z.of_nat (S r) ->
  ∃ c, (c < length d)%nat /\ zsum (dec d c) <= Z.of_nat r.
Proof.
  intros Hne Hd Hz. destruct (decide (Exists (λ x, 0 < x) d)) as [(x & Hx & Hpos)%Exists_exists|Hno].
  - apply list_elem_of_lookup in Hx as [c Hc]. exists c. rewrite (zsum_dec d c x) by done.
    split; [|lia]. by eapply lookup_lt_Some.
  - assert (Forall (λ y, y = 0) d) as H0.
    { apply Forall_forall. intros y Hy. pose proof (proj1 (Forall_forall _ _) Hd y Hy) as H1. cbn in H1.
      destruct (decide (y = 0)); [done|]. exfalso. apply Hno, Exists_exists. exists y. split; [done|lia]. }
    exists 0%nat. destruct H0 as [|x d -> H0]; [done|]. split; [cbn; lia|]. cbn.
    assert (zsum d = 0) as Hzero; [|unfold zsum in Hzero; lia]. clear -H0. by induction H0 as [|? ? ->].
Qed.

(** A policy that fits has a password; with alphabets of two characters, at least two. *)
Lemma W_positive sizes r d : Forall (Z.le 2) sizes -> sizes <> [] -> length d = length sizes ->
  Forall (Z.le 0) d -> zsum d <= Z.of_nat r ->
  1 <= W sizes r d /\ (r <> 0%nat -> 2 <= W sizes r d).
Proof.
  intros Hs Hne. assert (Forall (Z.le 0) sizes) as Hs0 by (eapply Forall_impl; [exact Hs|]; cbn; lia).
  revert d. induction r as [|r IH]; intros d Hl Hd Hz.
  - split; [|done]. cbn [W].
    assert (forallb (Z.eqb 0) d = true) as ->; [|done].
    apply forallb_forall. intros x Hx%list_elem_of_In%list_elem_of_lookup. destruct Hx as [c Hc].
    pose proof (zsum_ge d c x Hd Hc). pose proof (Forall_lookup_1 _ _ _ _ Hd Hc). apply Z.eqb_eq. lia.
  - destruct (some_class_fits d r) as (c & Hc & Hzc); [by destruct d, sizes|done..|].
    rewrite Hl in Hc.
    destruct (lookup_lt_is_Some_2 sizes c Hc) as [size Hsize].
    destruct (IH (dec d c)) as [H1 _]; [unfold dec; by rewrite length_alter| |done|].
    { apply Forall_alter; [done|]. intros x Hx H0. cbn in *. destruct (Z.ltb_spec 0 x); lia. }
    assert (2 <= W sizes (S r) d) as H2; [|lia]. cbn [W].
    pose proof (zsum_ge (imap (λ c size, size * W sizes r (dec d c)) sizes) c (size * W sizes r (dec d c))) as Hge.
    pose proof (Forall_lookup_1 _ _ _ _ Hs Hsize) as H3. cbn in H3.
    assert (size * W sizes r (dec d c) <= zsum (imap (λ c size, size * W sizes r (dec d c)) sizes)) as H4;
      [apply Hge|nia].
    + apply Forall_lookup. intros k y. rewrite list_lookup_imap.
      destruct (sizes !! k) as [z|] eqn:Hz'; cbn; [|done]. intros [= <-].
      pose proof (Forall_lookup_1 _ _ _ _ Hs0 Hz') as H5. cbn in H5.
      pose proof (W_nonneg sizes r (dec d k) Hs0). nia.
    + by rewrite list_lookup_imap, Hsize.
Qed.

Lemma built_count o spec : buildSpec o = Ok spec -> 2 <= zlen (spec_words spec).
Proof.
  intros H%buildSpec_built. destruct H as (((Hm & _) & _) & Hc & Hne & Hlen & Hreq).
  destruct (enabledClasses_pool o) as (_ & _ & Hsz & _); [by rewrite <- Hc|].
  unfold spec_words. rewrite length_words.
  apply W_positive.
  - apply Forall_fmap. rewrite Hc. eapply Forall_impl; [exact Hsz|]. cbn. unfold zlen. lia.
  - by destruct (classes spec).
  - unfold mins_of. by rewrite !length_map.
  - done.
  - unfold mins_of. rewrite <- required_zsum. lia.
  - pose proof (clampLength_range (length_option o)). unfold MIN_PASSWORD_LENGTH in *. lia.
Qed.

(** ** The claims *)

(** [countValidPasswords] is exact, from any state of the cache: it is the number of
    distinct passwords of the requested length, over the pool, that meet every minimum. *)
Theorem countValidPasswords_exact cache spec :
  cache_ok cache -> spec_ok spec ->
  (∃ passwords, NoDup passwords /\
     (∀ p, p ∈ passwords <-> valid_password spec p) /\
     (countValidPasswords cache spec).1 = zlen passwords) /\
  cache_ok (countValidPasswords cache spec).2.
Proof.
  intros Hc [Hs Hdis]. destruct (count_words cache spec Hc Hs) as [Hn Hc']. split; [|done].
  exists (spec_words spec). split_and!; [by apply NoDup_words| |done].
  intros p. by apply spec_words_valid.
Qed.

(** Two characters over "ab" and "01" with at least one letter: 16 - 4. *)
Definition tiny_spec : GeneratorSpec :=
  {| spec_length := 2; classes := [{| alphabet := js "ab"; minimum := 1 |};
                                   {| alphabet := js "01"; minimum := 0 |}] |}.

Lemma cache_ok_empty : cache_ok ∅.
Proof. apply map_Forall_empty. Qed.

Lemma tiny_spec_ok : spec_ok tiny_spec.
Proof.
  split; [split; [|split]|].
  - repeat constructor; discriminate.
  - vm_compute. discriminate.
  - vm_compute. discriminate.
  - unfold disjoint_classes. apply (bool_decide_eq_true_1 _). vm_compute. reflexivity.
Qed.

Lemma countValidPasswords_exact_witness :
  (countValidPasswords ∅ tiny_spec).1 = 12 /\
  ∃ passwords, NoDup passwords /\ (∀ p, p ∈ passwords <-> valid_password tiny_spec p) /\
     (countValidPasswords ∅ tiny_spec).1 = zlen passwords.
Proof.
  split; [vm_compute; reflexivity|].
  exact (proj1 (countValidPasswords_exact ∅ tiny_spec cache_ok_empty tiny_spec_ok)).
Defined.

(** C9: [unrankPassword] is a bijection between the indices below the count and the valid
    passwords: every index in range gives a valid password, every valid password has exactly
    one index, and every other index is refused. *)
Theorem unrankPassword_bijection cache spec :
  cache_ok cache -> spec_ok spec ->
  let total := (countValidPasswords cache spec).1 in
  let unrank i := (unrankPassword cache i spec).1 in
  (∀ i, 0 <= i < total -> ∃ p, unrank i = Ok p /\ valid_password spec p) /\
  (∀ p, valid_password spec p -> ∃ i, 0 <= i < total /\ unrank i = Ok p /\
     ∀ j, unrank j = Ok p -> j = i) /\
  (∀ i, ~ 0 <= i < total -> unrank i = Throw IndexOutsideRange).
Proof.
  intros Hc Hok total unrank. pose proof Hok as [Hs Hdis].
  assert (total = zlen (spec_words spec)) as -> by apply (proj1 (count_words cache spec Hc Hs)).
  assert (∀ i, unrank i = match (if 0 <=? i then spec_words spec !! Z.to_nat i else None) with
                          | Some p => Ok p | None => Throw IndexOutsideRange end) as Hu
    by (intros i; apply (proj1 (unrank_words cache spec i Hc Hs))).
  clearbody unrank. split_and!.
  - intros i Hi. rewrite Hu, (proj2 (Z.leb_le 0 i)) by lia.
    destruct (lookup_lt_is_Some_2 (spec_words spec) (Z.to_nat i)) as [p Hp]; [unfold zlen in *; lia|].
    rewrite Hp. exists p. split; [done|]. apply spec_words_valid; [done|]. by eapply list_elem_of_lookup_2.
  - intros p Hp. apply spec_words_valid, list_elem_of_lookup in Hp as [k Hk]; [|done].
    exists (Z.of_nat k). split; [|split].
    + apply lookup_lt_Some in Hk. unfold zlen. lia.
    + rewrite Hu, (proj2 (Z.leb_le 0 _)), Nat2Z.id, Hk by lia. done.
    + intros j. rewrite Hu. destruct (Z.leb_spec 0 j); [|done].
      destruct (spec_words spec !! Z.to_nat j) as [q|] eqn:Hj; [|done]. intros [= ->].
      pose proof (NoDup_lookup _ _ _ _ (NoDup_words _ _ _ Hdis) Hj Hk). lia.
  - intros i Hi. rewrite Hu. destruct (Z.leb_spec 0 i); [|done].
    rewrite lookup_ge_None_2; [done|]. unfold zlen in *. lia.
Qed.

Lemma unrankPassword_bijection_witness :
  (unrankPassword ∅ 9 tiny_spec).1 = Ok (js "0b") /\
  ∃ p, (unrankPassword ∅ 9 tiny_spec).1 = Ok p /\ valid_password tiny_spec p.
Proof.
  split; [vm_compute; reflexivity|].
  apply (proj1 (unrankPassword_bijection ∅ tiny_spec cache_ok_empty tiny_spec_ok) 9).
  vm_compute. split; [discriminate|reflexivity].
Defined.

Lemma generate_draw byte_at fuel cache o pos spec :
  (∀ k, is_byte (byte_at k)) -> cache_ok cache -> buildSpec o = Ok spec ->
  let total := zlen (spec_words spec) in
  match generatePassword (Some byte_at) fuel cache o pos with
  | None => loop_outcome byte_at fuel total pos None
  | Some (Ok (p, pos'), cache') =>
      cache_ok cache' /\ ∃ v, loop_outcome byte_at fuel total pos (Some (Ok (v, pos'))) /\
        spec_words spec !! Z.to_nat v = Some p
  | Some (Throw _, _) => False
  end.
Proof.
  intros Hb Hc Hspec total. pose proof (built_count o spec Hspec) as Htwo. fold total in Htwo.
  pose proof (buildSpec_built o spec Hspec) as ([Hs _] & _).
  unfold generatePassword. rewrite Hspec. destruct (count_words cache spec Hc Hs) as [Hn Hc'].
  destruct (countValidPasswords cache spec) as [n cache']. cbn [fst snd] in Hn, Hc'. subst n. fold total.
  unfold randomBigIntBelow. rewrite (proj2 (Z.leb_gt total 0)), (proj2 (Z.eqb_neq total 1)) by lia.
  pose proof (rejection_loop_outcome byte_at Hb fuel total pos Htwo) as Hout.
  destruct (rejection_loop _ _ _ _) as [[[v pos']|e]|]; [|done|done].
  pose proof (unrank_words cache' spec v Hc' Hs) as [Hu Hc''].
  assert (0 <= v < total) as Hv by (destruct Hout as (k & _ & _ & _ & Hv & _); done).
  rewrite (proj2 (Z.leb_le 0 v)) in Hu by lia.
  destruct (lookup_lt_is_Some_2 (spec_words spec) (Z.to_nat v)) as [p Hp]; [unfold total, zlen in Hv; lia|].
  rewrite Hp in Hu. destruct (unrankPassword cache' v spec) as [[p'|e] c'']; cbn in Hu; [|done].
  injection Hu as ->. cbn in Hc''. eauto.
Qed.

(** Every password [generatePassword] returns satisfies its policy: for a policy
    [buildSpec] accepts it never throws, it can only still be looping when every draw so far
    was rejected, and the password has the clamped length, uses the enabled classes' characters
    alone and meets every minimum. *)
Theorem generatePassword_valid byte_at fuel cache o pos spec :
  (∀ k, is_byte (byte_at k)) -> cache_ok cache -> buildSpec o = Ok spec ->
  match generatePassword (Some byte_at) fuel cache o pos with
  | None => ∀ k, (k < fuel)%nat ->
      let total := (countValidPasswords cache spec).1 in
      total <= draw total (bufferAt byte_at total pos k)
  | Some (Ok (p, _), cache') => valid_password spec p /\ cache_ok cache'
  | Some (Throw _, _) => False
  end.
Proof.
  intros Hb Hc Hspec. pose proof (generate_draw byte_at fuel cache o pos spec Hb Hc Hspec) as H.
  pose proof (buildSpec_built o spec Hspec) as ([Hs Hdis] & _).
  destruct (generatePassword _ _ _ _ _) as [[[[p pos']|e] cache']|].
  - destruct H as (Hc' & v & _ & Hp). split; [|done]. apply spec_words_valid; [done|].
    by eapply list_elem_of_lookup_2.
  - done.
  - intros k Hk. cbn zeta. rewrite (proj1 (count_words cache spec Hc Hs)). by apply H.
Qed.

(** Eight lower-case letters with at least one digit. *)
Definition sample_options : PasswordGenOptionsLike :=
  {| charset_options := {| uppercase := false; lowercase := true; numbers := true; symbols := false;
                           excludeAmbiguous := false |};
     length_option := Finite 7; minUppercase := Finite 0; minLowercase := NotFinite;
     minNumbers := Finite (3 # 4); minSymbols := Finite 0 |}.

Definition sample_spec : GeneratorSpec :=
  {| spec_length := 8; classes := [{| alphabet := LOWER; minimum := 0 |};
                                   {| alphabet := DIGITS; minimum := 1 |}] |}.

Lemma generatePassword_valid_witness :
  option_map fst (generatePassword (Some (λ _, 17)) 1 ∅ sample_options 0) = Some (Ok (js "egn14l42", 6%nat)) /\
  match generatePassword (Some (λ _, 17)) 1 ∅ sample_options 0 with
  | None => ∀ k, (k < 1)%nat ->
      let total := (countValidPasswords ∅ sample_spec).1 in
      total <= draw total (bufferAt (λ _, 17) total 0 k)
  | Some (Ok (p, _), cache') => valid_password sample_spec p /\ cache_ok cache'
  | Some (Throw _, _) => False
  end.
Proof.
  split; [vm_compute; reflexivity|].
  apply (generatePassword_valid (λ _, 17) 1 ∅ sample_options 0 sample_spec);
    [intros k; split; [discriminate|reflexivity]|apply cache_ok_empty|vm_compute; reflexivity].
Defined.

(** C30: The password is uniform: each valid password is the result of exactly
    [2 ^ drawDiscard total] of the equally likely contents of the first buffer. *)
Theorem generatePassword_uniform cache o spec p :
  cache_ok cache -> buildSpec o = Ok spec -> valid_password spec p ->
  let total := (countValidPasswords cache spec).1 in
  ∃ buffers, NoDup buffers /\ length buffers = Z.to_nat (2 ^ drawDiscard total) /\
    ∀ byte_at pos, (∀ k, is_byte (byte_at k)) ->
      bufferAt byte_at total pos 0 ∈ buffers <->
      ∃ pos' cache', generatePassword (Some byte_at) 1 cache o pos = Some (Ok (p, pos'), cache').
Proof.
  intros Hc Hspec Hp total. pose proof (buildSpec_built o spec Hspec) as ([Hs Hdis] & _).
  assert (total = zlen (spec_words spec)) as -> by apply (proj1 (count_words cache spec Hc Hs)).
  pose proof (built_count o spec Hspec) as Htwo.
  apply spec_words_valid, list_elem_of_lookup in Hp as [i Hi]; [|done].
  assert (0 <= Z.of_nat i < zlen (spec_words spec)) as Hrange by (apply lookup_lt_Some in Hi; unfold zlen; lia).
  destruct (drawBits_bound _ Htwo) as [Hbits _].
  destruct (carriers_spec (zlen (spec_words spec)) (Z.of_nat i) Htwo) as [Hnd Hin]; [lia|].
  exists (carriers (zlen (spec_words spec)) (Z.of_nat i)). split_and!; [done|by apply length_carriers|].
  intros byte_at pos Hb. rewrite Hin.
  pose proof (generate_draw byte_at 1 cache o pos spec Hb Hc Hspec) as H. cbn zeta in H.
  destruct (generatePassword _ _ _ _ _) as [[[[q pos']|e] cache']|]; [|done|].
  - destruct H as (_ & v & (k & Hk & _ & -> & Hv & _) & Hq). assert (k = 0%nat) as -> by lia. split.
    + intros [_ Hd]. rewrite Hd, Nat2Z.id, Hi in Hq. injection Hq as ->. eauto.
    + intros (? & ? & [= -> _ _]). split; [by apply bufferAt_buffer|].
      pose proof (NoDup_lookup _ _ _ _ (NoDup_words _ _ _ Hdis) Hq Hi). lia.
  - specialize (H 0%nat ltac:(lia)). split; [intros [_ Hd]; lia|by intros (? & ? & ?)].
Qed.

Lemma generatePassword_uniform_witness :
  let total := (countValidPasswords ∅ sample_spec).1 in
  drawDiscard total = 6 /\
  ∃ buffers, NoDup buffers /\ length buffers = Z.to_nat (2 ^ drawDiscard total) /\
    ∀ byte_at pos, (∀ k, is_byte (byte_at k)) ->
      bufferAt byte_at total pos 0 ∈ buffers <->
      ∃ pos' cache', generatePassword (Some byte_at) 1 ∅ sample_options pos
        = Some (Ok (js "abcdefg1", pos'), cache').
Proof.
  split; [vm_compute; reflexivity|].
  apply (generatePassword_uniform ∅ sample_options sample_spec);
    [apply cache_ok_empty|vm_compute; reflexivity|].
  split; [reflexivity|]. split; apply (bool_decide_eq_true_1 _); vm_compute; reflexivity.
Defined.
