(* ===== verification/TextDiff.v ===== *)
(** The line diff behind the format-and-repair confirmation: client/src/lib/textDiff.ts.

    Lines are strings, compared whole.  The loops run on indices as in the source; a [while]
    takes as fuel the length it cannot exceed, and the specification file shows the fuel is
    never what stops it.  [Uint32Array] entries are reduced modulo [2 ^ 32]. *)
From S2P Require Import Prelude.
Local Open Scope nat_scope.

Inductive LineKind := context | added | removed.

#[global] Instance LineKind_eq_dec : EqDecision LineKind.
Proof. solve_decision. Defined.

Record DiffLine := { kind : LineKind; text : jsstr }.

Record DiffHunk := {
  beforeStart : Z;
  beforeCount : nat;
  afterStart : Z;
  afterCount : nat;
  hunk_lines : list DiffLine;
}.

Record TextDiff := {
  identical : bool;
  linesBefore : nat;
  linesAfter : nat;
  linesAdded : nat;
  linesRemoved : nat;
  hunks : option (list DiffHunk);
}.

Definition MAX_DIFF_CELLS : Z := 2000000.
Definition CONTEXT_LINES : nat := 3.

(** [text.split('\n')]. *)
Fixpoint splitLines (text : jsstr) : list jsstr :=
  match text with
  | [] => [[]]
  | c :: text =>
      if (c =? 10)%Z then [] :: splitLines text
      else match splitLines text with
           | line :: lines => (c :: line) :: lines
           | [] => [[c]]
           end
  end.

(** The common leading lines, counted from [head]. *)
Fixpoint head_loop (fuel : nat) (before after : list jsstr) (head : nat) : nat :=
  match fuel with
  | O => head
  | S fuel =>
      if (head <? length before) && (head <? length after)
         && bool_decide (before !! head = after !! head)
      then head_loop fuel before after (S head)
      else head
  end.

Definition commonHead (before after : list jsstr) : nat := head_loop (length before) before after 0.

(** The common trailing lines, not reaching into the common head. *)
Fixpoint tail_loop (fuel : nat) (before after : list jsstr) (head tail : nat) : nat :=
  match fuel with
  | O => tail
  | S fuel =>
      if (tail <? length before - head) && (tail <? length after - head)
         && bool_decide (before !! (length before - 1 - tail) = after !! (length after - 1 - tail))
      then tail_loop fuel before after head (S tail)
      else tail
  end.

Definition commonTail (before after : list jsstr) (head : nat) : nat :=
  tail_loop (length before) before after head 0.

Definition toUint32 (n : Z) : Z := n mod 2 ^ 32.

(** One cell of the longest-common-subsequence table. *)
Definition lcs_cell (midBefore midAfter : list jsstr) (width i j : nat) (lengths : list Z) : list Z :=
  let read (k : nat) := default 0%Z (lengths !! k) in
  <[i * width + j :=
      toUint32 (if bool_decide (midBefore !! i = midAfter !! j)
                then (read ((i + 1) * width + j + 1)%nat + 1)%Z
                else Z.max (read ((i + 1) * width + j)%nat) (read (i * width + j + 1)%nat))]> lengths.

(** The table, filled from the end: both loops count down. *)
Definition lcs_table (midBefore midAfter : list jsstr) : list Z :=
  let n := length midBefore in
  let m := length midAfter in
  let width := m + 1 in
  foldr (λ i lengths,
    foldr (λ j lengths, lcs_cell midBefore midAfter width i j lengths) lengths (seq 0 m))
    (replicate ((n + 1) * width) 0%Z) (seq 0 n).

(** The forward walk over the table, and its two trailing loops. *)
Fixpoint walk (fuel : nat) (midBefore midAfter : list jsstr) (lengths : list Z) (i j : nat)
    (result : list DiffLine) : list DiffLine :=
  let width := length midAfter + 1 in
  let read (k : nat) := default 0%Z (lengths !! k) in
  match fuel with
  | O => result
  | S fuel =>
      if (i <? length midBefore) && (j <? length midAfter) then
        if bool_decide (midBefore !! i = midAfter !! j) then
          walk fuel midBefore midAfter lengths (i + 1) (j + 1)
            (result ++ [{| kind := context; text := default [] (midBefore !! i) |}])
        else if (read (i * width + j + 1)%nat <=? read ((i + 1) * width + j)%nat)%Z then
          walk fuel midBefore midAfter lengths (i + 1) j
            (result ++ [{| kind := removed; text := default [] (midBefore !! i) |}])
        else
          walk fuel midBefore midAfter lengths i (j + 1)
            (result ++ [{| kind := added; text := default [] (midAfter !! j) |}])
      else if i <? length midBefore then
        walk fuel midBefore midAfter lengths (i + 1) j
          (result ++ [{| kind := removed; text := default [] (midBefore !! i) |}])
      else if j <? length midAfter then
        walk fuel midBefore midAfter lengths i (j + 1)
          (result ++ [{| kind := added; text := default [] (midAfter !! j) |}])
      else result
  end.

Definition context_line (line : jsstr) : DiffLine := {| kind := context; text := line |}.

Definition operations (before after : list jsstr) : option (list DiffLine) :=
  let head := commonHead before after in
  let tail := commonTail before after head in
  let midBefore := slice before head (length before - tail) in
  let midAfter := slice after head (length after - tail) in
  if (MAX_DIFF_CELLS <? (Z.of_nat (length midBefore) + 1) * (Z.of_nat (length midAfter) + 1))%Z
  then None
  else
    let lengths := lcs_table midBefore midAfter in
    let result := map (λ index, context_line (default [] (before !! index))) (seq 0 head) in
    let result := walk (length midBefore + length midAfter) midBefore midAfter lengths 0 0 result in
    Some (result ++ map (λ index, context_line (default [] (after !! index)))
                        (seq (length after - tail) tail)).

Definition is_context (line : DiffLine) : bool := bool_decide (kind line = context).

(** The indices of the changed lines. *)
Definition changedIndices (lines : list DiffLine) : list nat :=
  omap id (imap (λ index line, if is_context line then None else Some index) lines).

(** The merging loop; [ranges] is kept with its last element first. *)
Fixpoint ranges_loop (count : nat) (changed : list nat) (ranges : list (nat * nat)) : list (nat * nat) :=
  match changed with
  | [] => rev ranges
  | index :: changed =>
      let start := index - CONTEXT_LINES in
      let stop := Nat.min (count - 1) (index + CONTEXT_LINES) in
      ranges_loop count changed
        match ranges with
        | (last_start, last_stop) :: earlier =>
            if start <=? last_stop + 1 then (last_start, Nat.max last_stop stop) :: earlier
            else (start, stop) :: ranges
        | [] => [(start, stop)]
        end
  end.

(** The numbering loop: the line number each operation has in either version. *)
Fixpoint line_numbers (counts : LineKind -> bool) (lines : list DiffLine) (number : Z) : list Z :=
  match lines with
  | [] => []
  | line :: lines =>
      number :: line_numbers counts lines (if counts (kind line) then (number + 1)%Z else number)
  end.

Definition in_before (k : LineKind) : bool := negb (bool_decide (k = added)).
Definition in_after (k : LineKind) : bool := negb (bool_decide (k = removed)).

Definition make_hunk (lines : list DiffLine) (beforeNumbers afterNumbers : list Z)
    (range : nat * nat) : DiffHunk :=
  let '(start, stop) := range in
  let part := slice lines start (stop + 1) in
  let before_count := length (List.filter (λ line, in_before (kind line)) part) in
  let after_count := length (List.filter (λ line, in_after (kind line)) part) in
  let beforeAt := default 1%Z (beforeNumbers !! start) in
  let afterAt := default 1%Z (afterNumbers !! start) in
  {| beforeStart := if before_count =? 0 then (beforeAt - 1)%Z else beforeAt;
     beforeCount := before_count;
     afterStart := if after_count =? 0 then (afterAt - 1)%Z else afterAt;
     afterCount := after_count;
     hunk_lines := part |}.

Definition toHunks (lines : list DiffLine) : list DiffHunk :=
  match changedIndices lines with
  | [] => []
  | changed =>
      map (make_hunk lines (line_numbers in_before lines 1%Z) (line_numbers in_after lines 1%Z))
          (ranges_loop (length lines) changed [])
  end.

Definition count_kind (k : LineKind) (lines : list DiffLine) : nat :=
  length (List.filter (λ line, bool_decide (kind line = k)) lines).

Definition diffText (before after : jsstr) : TextDiff :=
  let beforeLines := splitLines before in
  let afterLines := splitLines after in
  if bool_decide (before = after) then
    {| identical := true; linesBefore := length beforeLines; linesAfter := length afterLines;
       linesAdded := 0; linesRemoved := 0; hunks := Some [] |}
  else
    match operations beforeLines afterLines with
    | None =>
        let head := commonHead beforeLines afterLines in
        let tail := commonTail beforeLines afterLines head in
        {| identical := false; linesBefore := length beforeLines; linesAfter := length afterLines;
           linesRemoved := length beforeLines - head - tail;
           linesAdded := length afterLines - head - tail;
           hunks := None |}
    | Some ops =>
        {| identical := false; linesBefore := length beforeLines; linesAfter := length afterLines;
           linesAdded := count_kind added ops; linesRemoved := count_kind removed ops;
           hunks := Some (toHunks ops) |}
    end.
