(* ===== verification/TextDiffSpec.v ===== *)
(** What the diff promises: its operations rewrite the one text into the other with as few
    changed lines as any edit script can, and its hunks are a patch that applies. *)
From S2P Require Import Prelude TextDiff.
Local Open Scope nat_scope.

#[local] Arguments count_kind : simpl never.

(** Evaluate the kind tests on a concrete line. *)
Ltac eval_kinds :=
  cbn [kind text];
  repeat match goal with
  | |- context [bool_decide (?a = ?b :> LineKind)] =>
      let v := eval vm_compute in (bool_decide (a = b)) in change (bool_decide (a = b)) with v
  | |- context [in_before ?k] =>
      let v := eval vm_compute in (in_before k) in change (in_before k) with v
  | |- context [in_after ?k] =>
      let v := eval vm_compute in (in_after k) in change (in_after k) with v
  | |- context [is_context (Build_DiffLine ?k ?t)] =>
      let v := eval vm_compute in (is_context (Build_DiffLine k t)) in
      change (is_context (Build_DiffLine k t)) with v
  end; cbn [length Nat.add].

(** ** Edit scripts *)

(** The two versions a list of operations stands for. *)
Definition before_of (ops : list DiffLine) : list jsstr :=
  text <$> List.filter (λ line, in_before (kind line)) ops.
Definition after_of (ops : list DiffLine) : list jsstr :=
  text <$> List.filter (λ line, in_after (kind line)) ops.

(** [ops] rewrites [before] into [after]. *)
Definition edits (before after : list jsstr) (ops : list DiffLine) : Prop :=
  before_of ops = before /\ after_of ops = after.

Definition changes (ops : list DiffLine) : nat := count_kind added ops + count_kind removed ops.

Lemma before_of_app a b : before_of (a ++ b) = before_of a ++ before_of b.
Proof. unfold before_of. by rewrite List.filter_app, fmap_app. Qed.

Lemma after_of_app a b : after_of (a ++ b) = after_of a ++ after_of b.
Proof. unfold after_of. by rewrite List.filter_app, fmap_app. Qed.

Lemma count_kind_app k a b : count_kind k (a ++ b) = count_kind k a + count_kind k b.
Proof. unfold count_kind. by rewrite List.filter_app, length_app. Qed.

Lemma count_kind_cons k l ops :
  count_kind k (l :: ops) = (if bool_decide (kind l = k) then 1 else 0) + count_kind k ops.
Proof. unfold count_kind. cbn. by destruct (bool_decide _). Qed.

Lemma before_of_cons l ops :
  before_of (l :: ops) = if in_before (kind l) then text l :: before_of ops else before_of ops.
Proof. unfold before_of. cbn. by destruct (in_before _). Qed.

Lemma after_of_cons l ops :
  after_of (l :: ops) = if in_after (kind l) then text l :: after_of ops else after_of ops.
Proof. unfold after_of. cbn. by destruct (in_after _). Qed.

#[local] Arguments before_of : simpl never.
#[local] Arguments after_of : simpl never.

Lemma script_lengths ops :
  length (before_of ops) = count_kind context ops + count_kind removed ops /\
  length (after_of ops) = count_kind context ops + count_kind added ops.
Proof.
  induction ops as [|[k t] ops [IH1 IH2]]; [done|].
  rewrite before_of_cons, after_of_cons, !count_kind_cons. destruct k; eval_kinds; lia.
Qed.

Lemma edits_app b1 b2 a1 a2 o1 o2 : edits b1 a1 o1 -> edits b2 a2 o2 -> edits (b1 ++ b2) (a1 ++ a2) (o1 ++ o2).
Proof. intros [<- <-] [<- <-]. split; [apply before_of_app|apply after_of_app]. Qed.

Lemma edits_context ls : edits ls ls (map context_line ls) /\ count_kind context (map context_line ls) = length ls.
Proof.
  induction ls as [|l ls [[IH1 IH2] IH3]]; [done|]. unfold edits in *. cbn [map].
  rewrite before_of_cons, after_of_cons, count_kind_cons.
  change (kind (context_line l)) with context. change (text (context_line l)) with l.
  eval_kinds. by rewrite IH1, IH2, IH3.
Qed.

(** ** The longest common subsequence *)

Fixpoint lcs (b a : list jsstr) {struct b} : nat :=
  match b with
  | [] => 0
  | x :: b' =>
      (fix go (a : list jsstr) : nat :=
         match a with
         | [] => 0
         | y :: a' => if bool_decide (x = y) then S (lcs b' a') else Nat.max (lcs b' (y :: a')) (go a')
         end) a
  end.

Lemma lcs_nil_r b : lcs b [] = 0.
Proof. by destruct b. Qed.

Lemma lcs_cons x b y a :
  lcs (x :: b) (y :: a)
  = if bool_decide (x = y) then S (lcs b a) else Nat.max (lcs b (y :: a)) (lcs (x :: b) a).
Proof. done. Qed.

Lemma lcs_le b a : lcs b a <= length b.
Proof.
  revert a. induction b as [|x b IH]; intros a; [done|]. induction a as [|y a IHa]; [cbn; lia|].
  rewrite lcs_cons. case_bool_decide; cbn [length]; [specialize (IH a)|specialize (IH (y :: a)); cbn [length] in IHa]; lia.
Qed.

Lemma sublist_tail {A} (z x : A) l b : z :: l `sublist_of` x :: b -> l `sublist_of` b.
Proof.
  intros H. inversion H as [|? ? ? H1|? ? ? H1]; subst; [done|].
  etrans; [|exact H1]. by apply sublist_cons.
Qed.

(** No common subsequence is longer. *)
Lemma lcs_upper l b a : l `sublist_of` b -> l `sublist_of` a -> length l <= lcs b a.
Proof.
  revert l a. induction b as [|x b IH]; intros l a Hb Ha.
  { apply sublist_nil_r in Hb as ->. done. }
  revert l Hb Ha. induction a as [|y a IHa]; intros l Hb Ha.
  { apply sublist_nil_r in Ha as ->. cbn. lia. }
  rewrite lcs_cons. destruct l as [|z l]; [cbn; lia|]. case_bool_decide as Hxy.
  - cbn. apply le_n_S, IH; by eapply sublist_tail.
  - inversion Hb as [|? ? ? Hb1|? ? ? Hb1]; subst.
    + inversion Ha as [|? ? ? Ha1|? ? ? Ha1]; subst; [done|].
      specialize (IHa (x :: l) Hb Ha1). lia.
    + specialize (IH (z :: l) (y :: a) Hb1 Ha). lia.
Qed.

Lemma sublist_split {A} (n : nat) (l k s : list A) : l `sublist_of` k ++ s -> length s <= n ->
  take (length l - n) l `sublist_of` k.
Proof.
  intros H Hn. apply sublist_app_r in H as (l1 & l2 & -> & H1 & H2).
  apply sublist_length in H2. rewrite length_app, take_app_le by lia.
  etrans; [apply sublist_take|done].
Qed.

(** Common ends only add their length. *)
Lemma lcs_strip h b a t l :
  l `sublist_of` h ++ b ++ t -> l `sublist_of` h ++ a ++ t -> length l <= length h + lcs b a + length t.
Proof.
  revert l. induction h as [|x h IH]; intros l Hb Ha; cbn [app length] in *.
  - apply (sublist_split (length t)) in Hb, Ha; [|done..].
    pose proof (lcs_upper _ _ _ Hb Ha) as H. rewrite length_take in H. lia.
  - destruct l as [|z l]; [cbn; lia|]. apply sublist_tail in Hb, Ha. specialize (IH l Hb Ha). cbn. lia.
Qed.

(** The unchanged lines of a script are common to both versions. *)
Definition context_of (ops : list DiffLine) : list jsstr := text <$> List.filter is_context ops.

Lemma context_of_cons l ops :
  context_of (l :: ops) = if is_context l then text l :: context_of ops else context_of ops.
Proof. unfold context_of. cbn. by destruct (is_context _). Qed.

Lemma context_of_sublist ops :
  context_of ops `sublist_of` before_of ops /\ context_of ops `sublist_of` after_of ops /\
  length (context_of ops) = count_kind context ops.
Proof.
  induction ops as [|[k t] ops (IH1 & IH2 & IH3)]; [split_and!; constructor|].
  rewrite before_of_cons, after_of_cons, context_of_cons, count_kind_cons.
  destruct k; eval_kinds; (split_and!; first [done | by constructor | lia]).
Qed.

(** ** The table *)

Section table.
Context (b a : list jsstr) (Hsize : (Z.of_nat (length b) < 2 ^ 32)%Z).
Abbreviation n := (length b).
Abbreviation m := (length a).
Abbreviation width := (length a + 1).

Definition cell_value (i j : nat) : Z := Z.of_nat (lcs (drop i b) (drop j a)).

(** Rows above [i] still zero, row [i] done from column [j], rows below done. *)
Definition filled (i j : nat) (t : list Z) : Prop :=
  length t = (n + 1) * width /\
  ∀ i' j', i' <= n -> j' <= m ->
    t !! (i' * width + j') = Some (if (i' <? i) || (i' =? i) && (j' <? j) then 0%Z else cell_value i' j').

Lemma cell_value_border i j : i = n \/ j = m -> cell_value i j = 0%Z.
Proof.
  unfold cell_value. intros [->| ->].
  - by rewrite (drop_all b).
  - by rewrite (drop_all a), lcs_nil_r.
Qed.

Lemma cell_value_step i j x y : b !! i = Some x -> a !! j = Some y ->
  cell_value i j = (if bool_decide (x = y) then cell_value (i + 1) (j + 1) + 1
                    else Z.max (cell_value (i + 1) j) (cell_value i (j + 1)))%Z.
Proof.
  intros Hx Hy. unfold cell_value. rewrite (drop_S _ _ _ Hx), (drop_S _ _ _ Hy), lcs_cons, !Nat.add_1_r.
  case_bool_decide; lia.
Qed.

Lemma cell_value_range i j : (0 <= cell_value i j < 2 ^ 32)%Z.
Proof. unfold cell_value. pose proof (lcs_le (drop i b) (drop j a)) as H. rewrite length_drop in H. lia. Qed.

Lemma filled_cell i j t : i < n -> j < m -> filled i (S j) t -> filled i j (lcs_cell b a width i j t).
Proof.
  intros Hi Hj [Hlen Ht]. unfold lcs_cell.
  destruct (lookup_lt_is_Some_2 b i Hi) as [x Hx]. destruct (lookup_lt_is_Some_2 a j Hj) as [y Hy].
  assert (∀ i' j', i' <= n -> j' <= m -> (i' <? i) || (i' =? i) && (j' <? S j) = false ->
    default 0%Z (t !! (i' * width + j')) = cell_value i' j') as Hread.
  { intros i' j' H1 H2 H3. by rewrite Ht, H3. }
  split; [by rewrite length_insert|]. intros i' j' Hi' Hj'.
  destruct (decide (i' = i /\ j' = j)) as [[-> ->]|Hne].
  - rewrite list_lookup_insert_eq by (rewrite Hlen; apply flat_index_lt; lia).
    assert ((i <? i) || (i =? i) && (j <? j) = false) as -> by lia. f_equal.
    rewrite (cell_value_step i j x y) by done. rewrite Hx, Hy.
    replace ((i + 1) * width + j + 1) with ((i + 1) * width + (j + 1)) by lia.
    replace (i * width + j + 1) with (i * width + (j + 1)) by lia.
    rewrite !Hread by lia. unfold toUint32.
    pose proof (cell_value_range i j) as Hr. rewrite (cell_value_step i j x y) in Hr by done.
    destruct (decide (x = y)) as [->|Hxy].
    + rewrite !bool_decide_true in * by done. by rewrite Z.mod_small.
    + rewrite !bool_decide_false in * by congruence. by rewrite Z.mod_small.
  - rewrite list_lookup_insert_ne.
    + rewrite Ht by done. f_equal.
      destruct ((i' <? i) || (i' =? i) && (j' <? S j)) eqn:E1, ((i' <? i) || (i' =? i) && (j' <? j)) eqn:E2;
        try done; exfalso; lia.
    + intros E. apply flat_index_inj in E as [-> ->]; [|lia..]. by apply Hne.
Qed.

Lemma filled_row i t : filled (S i) 0 t -> i < n -> filled i m t.
Proof.
  intros [Hlen Ht] Hi. split; [done|]. intros i' j' Hi' Hj'. rewrite Ht by done. f_equal.
  destruct (decide (i' = i /\ j' = m)) as [[-> ->]|].
  - rewrite cell_value_border by (by right). by repeat case_match.
  - destruct ((i' <? S i) || (i' =? S i) && (j' <? 0)) eqn:E1, ((i' <? i) || (i' =? i) && (j' <? m)) eqn:E2;
      try done; exfalso; lia.
Qed.

Lemma lcs_table_spec i j : i <= n -> j <= m ->
  lcs_table b a !! (i * width + j) = Some (cell_value i j).
Proof.
  intros Hi Hj.
  assert (filled 0 0 (lcs_table b a)) as [_ H].
  { unfold lcs_table. apply (foldr_seq_inv (λ i t, filled i 0 t)).
    - split; [by rewrite length_replicate|]. intros i' j' Hi' Hj'.
      rewrite lookup_replicate_2 by (apply flat_index_lt; lia). f_equal. cbn [Nat.add].
      destruct (decide (i' = n)) as [->|Hne]; [|assert ((i' <? n) = true) as -> by lia; done].
      rewrite cell_value_border by (by left). by repeat case_match.
    - intros i' t Hi' Ht. apply (foldr_seq_inv (λ j t, filled i' j t)).
      + cbn [Nat.add]. apply filled_row; [done|lia].
      + intros j' t' Hj' Ht'. apply filled_cell; [lia..|done]. }
  rewrite (H i j Hi Hj). f_equal.
  assert ((i <? 0) || (i =? 0) && (j <? 0) = false) as -> by lia. done.
Qed.

(** ** The walk *)

(** One step of the walk in front of what the rest produces. *)
Lemma walk_step i j i' j' l b' a' ops :
  edits b' a' [l] -> drop i b = b' ++ drop i' b -> drop j a = a' ++ drop j' a ->
  edits (drop i' b) (drop j' a) ops ->
  edits (drop i b) (drop j a) (l :: ops) /\
  count_kind context (l :: ops) = count_kind context [l] + count_kind context ops.
Proof.
  intros He Hb Ha Hops. rewrite Hb, Ha. split; [by apply (edits_app _ _ _ _ [l] ops)|].
  apply (count_kind_app _ [l]).
Qed.

Lemma walk_spec fuel i j res : i <= n -> j <= m -> n - i + (m - j) <= fuel ->
  ∃ ops, walk fuel b a (lcs_table b a) i j res = res ++ ops /\
    edits (drop i b) (drop j a) ops /\ count_kind context ops = lcs (drop i b) (drop j a).
Proof.
  revert i j res. induction fuel as [|fuel IH]; intros i j res Hi Hj Hfuel.
  { exists []. rewrite app_nil_r, !drop_ge by lia. done. }
  assert (∀ i' j' l b' a' k, i <= i' -> j <= j' -> i' <= n -> j' <= m -> i + j < i' + j' ->
    edits b' a' [l] -> drop i b = b' ++ drop i' b -> drop j a = a' ++ drop j' a ->
    count_kind context [l] + lcs (drop i' b) (drop j' a) = k ->
    ∃ ops, walk fuel b a (lcs_table b a) i' j' (res ++ [l]) = res ++ ops /\
      edits (drop i b) (drop j a) ops /\ count_kind context ops = k) as Hstep.
  { intros i' j' l b' a' k H1 H2 H3 H4 H5 He Hb Ha <-.
    destruct (IH i' j' (res ++ [l]) H3 H4) as (ops & -> & Hops & Hc); [lia|].
    destruct (walk_step i j i' j' l b' a' ops) as [Hl Hlc]; [done..|].
    exists (l :: ops). rewrite <- app_assoc, Hlc, Hc. done. }
  cbn [walk]. fold n m.
  destruct (Nat.ltb_spec i n) as [Hin|Hin], (Nat.ltb_spec j m) as [Hjm|Hjm]; cbn [andb].
  - destruct (lookup_lt_is_Some_2 b i Hin) as [x Hx]. destruct (lookup_lt_is_Some_2 a j Hjm) as [y Hy].
    rewrite Hx, Hy. cbn [from_option id].
    replace (i * width + j + 1) with (i * width + (j + 1)) by lia. rewrite !lcs_table_spec by lia.
    cbn [from_option id].
    assert (drop i b = x :: drop (i + 1) b) as Eb by (rewrite Nat.add_1_r; by apply drop_S).
    assert (drop j a = y :: drop (j + 1) a) as Ea by (rewrite Nat.add_1_r; by apply drop_S).
    destruct (decide (x = y)) as [->|Hxy].
    + rewrite bool_decide_true by done.
      apply (Hstep (i + 1) (j + 1) (context_line y) [y] [y]); try done; try lia.
      rewrite Eb, Ea, lcs_cons, bool_decide_true by done. done.
    + rewrite bool_decide_false by congruence.
      destruct (Z.leb_spec (cell_value i (j + 1)) (cell_value (i + 1) j)) as [Hle|Hlt]; unfold cell_value in *.
      * apply (Hstep (i + 1) j {| kind := removed; text := x |} [x] []); try done; try lia.
        rewrite Eb, Ea, lcs_cons, bool_decide_false by done. rewrite Eb, Ea in Hle.
        change (count_kind context _) with 0. lia.
      * apply (Hstep i (j + 1) {| kind := added; text := y |} [] [y]); try done; try lia.
        rewrite Eb, Ea, lcs_cons, bool_decide_false by done. rewrite Eb, Ea in Hlt.
        change (count_kind context _) with 0. lia.
  - destruct (lookup_lt_is_Some_2 b i Hin) as [x Hx]. rewrite Hx. cbn [from_option id].
    apply (Hstep (i + 1) j {| kind := removed; text := x |} [x] []); try done; try lia.
    + rewrite Nat.add_1_r. by apply drop_S.
    + rewrite (drop_ge a) by lia. by rewrite !lcs_nil_r.
  - destruct (lookup_lt_is_Some_2 a j Hjm) as [y Hy]. rewrite Hy. cbn [from_option id].
    apply (Hstep i (j + 1) {| kind := added; text := y |} [] [y]); try done; try lia.
    + rewrite Nat.add_1_r. by apply drop_S.
    + by rewrite (drop_ge b) by lia.
  - exists []. rewrite app_nil_r, !drop_ge by lia. done.
Qed.
End table.

(** ** Common ends *)

Lemma head_loop_spec fuel b a h : h <= length b -> h <= length a -> take h b = take h a ->
  let h' := head_loop fuel b a h in h' <= length b /\ h' <= length a /\ take h' b = take h' a.
Proof.
  revert h. induction fuel as [|fuel IH]; intros h Hb Ha E; [done|]. cbn [head_loop].
  destruct (Nat.ltb_spec h (length b)), (Nat.ltb_spec h (length a)); cbn [andb]; try done.
  case_bool_decide as Hx; [|done]. apply IH; [lia..|].
  destruct (lookup_lt_is_Some_2 b h) as [x Hbx]; [done|].
  rewrite (take_S_r _ _ _ Hbx), (take_S_r a h x) by congruence. by rewrite E.
Qed.

Lemma drop_pred {A} (l : list A) t x : t < length l -> l !! (length l - 1 - t) = Some x ->
  drop (length l - S t) l = x :: drop (length l - t) l.
Proof.
  intros Ht Hx. replace (length l - S t) with (length l - 1 - t) by lia.
  rewrite (drop_S _ _ _ Hx). do 2 f_equal. lia.
Qed.

Lemma tail_loop_spec fuel b a h t : h + t <= length b -> h + t <= length a ->
  drop (length b - t) b = drop (length a - t) a ->
  let t' := tail_loop fuel b a h t in
  h + t' <= length b /\ h + t' <= length a /\ drop (length b - t') b = drop (length a - t') a.
Proof.
  revert t. induction fuel as [|fuel IH]; intros t Hb Ha E; [done|]. cbn [tail_loop].
  destruct (Nat.ltb_spec t (length b - h)), (Nat.ltb_spec t (length a - h)); cbn [andb]; try done.
  case_bool_decide as Hx; [|done]. apply IH; [lia..|].
  destruct (lookup_lt_is_Some_2 b (length b - 1 - t)) as [x Hbx]; [lia|].
  rewrite (drop_pred b t x), (drop_pred a t x) by (lia || congruence). by rewrite E.
Qed.

(** The split into common head, middles and common tail. *)
Lemma common_split b a :
  let h := commonHead b a in
  let t := commonTail b a h in
  h + t <= length b /\ h + t <= length a /\
  b = take h b ++ slice b h (length b - t) ++ drop (length a - t) a /\
  a = take h b ++ slice a h (length a - t) ++ drop (length a - t) a.
Proof.
  cbn zeta. destruct (head_loop_spec (length b) b a 0) as (H1 & H2 & H3); [lia..|done|].
  fold (commonHead b a) in *.
  destruct (tail_loop_spec (length b) b a (commonHead b a) 0) as (H4 & H5 & H6); [lia..| |].
  { by rewrite !Nat.sub_0_r, !drop_all. }
  fold (commonTail b a (commonHead b a)) in *. split_and!; try done.
  - rewrite <- H6. apply slice_between; lia.
  - rewrite H3. apply slice_between; lia.
Qed.

Lemma map_lookup_seq {B} (f : jsstr -> B) (l : list jsstr) i k : i + k <= length l ->
  map (λ index, f (default [] (l !! index))) (seq i k) = map f (take k (drop i l)).
Proof.
  revert i. induction k as [|k IH]; intros i Hk; [done|]. cbn [seq map].
  destruct (lookup_lt_is_Some_2 l i) as [x Hx]; [lia|].
  rewrite (drop_S _ _ _ Hx), Hx, (IH (S i)) by lia. done.
Qed.

(** What [operations] computes, on both its branches. *)
Lemma operations_spec b a :
  let h := commonHead b a in
  let t := commonTail b a h in
  match operations b a with
  | Some ops => edits b a ops /\
      ∀ l, l `sublist_of` b -> l `sublist_of` a -> length l <= count_kind context ops
  | None => (MAX_DIFF_CELLS < (Z.of_nat (length b - h - t) + 1) * (Z.of_nat (length a - h - t) + 1))%Z
  end.
Proof.
  destruct (common_split b a) as (Hb & Ha & Eb & Ea). unfold operations. cbn zeta.
  set (h := commonHead b a) in *. set (t := commonTail b a h) in *.
  assert (∀ l : list jsstr, h + t <= length l -> length (slice l h (length l - t)) = length l - h - t) as Hlen
    by (intros; rewrite length_slice; lia).
  rewrite !Hlen by done.
  destruct (Z.ltb_spec MAX_DIFF_CELLS ((Z.of_nat (length b - h - t) + 1) * (Z.of_nat (length a - h - t) + 1)))
    as [|Hcells]; [done|].
  set (midB := slice b h (length b - t)) in *. set (midA := slice a h (length a - t)) in *.
  destruct (walk_spec midB midA) with (fuel := length b - h - t + (length a - h - t)) (i := 0) (j := 0)
    (res := map (λ index, context_line (default [] (b !! index))) (seq 0 h)) as (ops & -> & Hops & Hctx).
  { unfold midB. rewrite Hlen by done. unfold MAX_DIFF_CELLS in Hcells. nia. }
  { lia. } { lia. }
  { unfold midB, midA. rewrite !Hlen by done. lia. }
  rewrite !map_lookup_seq by lia. rewrite !drop_0 in *. rewrite (take_ge (drop (length a - t) a)) by (rewrite length_drop; lia).
  destruct (edits_context (take h b)) as [Hh Ch]. destruct (edits_context (drop (length a - t) a)) as [Ht Ct].
  split.
  - pose proof (edits_app _ _ _ _ _ _ Hh (edits_app _ _ _ _ _ _ Hops Ht)) as He.
    rewrite <- Eb, <- Ea in He. by rewrite <- app_assoc.
  - intros l Hlb Hla. rewrite !count_kind_app, Ch, Ct, Hctx.
    rewrite Eb in Hlb. rewrite Ea in Hla. pose proof (lcs_strip _ _ _ _ _ Hlb Hla). lia.
Qed.

Lemma operations_minimal_aux before after :
  match operations before after with
  | Some ops => edits before after ops /\ ∀ script, edits before after script ->
      count_kind added ops + count_kind removed ops <= count_kind added script + count_kind removed script
  | None => True
  end.
Proof.
  pose proof (operations_spec before after) as H. cbn zeta in H.
  destruct (operations before after) as [ops|]; [|done]. destruct H as [[Hb Ha] Hmax].
  split; [done|]. intros script [Hb' Ha'].
  destruct (context_of_sublist script) as (H1 & H2 & H3). rewrite Hb' in H1. rewrite Ha' in H2.
  pose proof (Hmax _ H1 H2) as Hle. rewrite H3 in Hle.
  destruct (script_lengths ops) as [L1 L2]. destruct (script_lengths script) as [L3 L4].
  rewrite Hb in L1. rewrite Ha in L2. rewrite Hb' in L3. rewrite Ha' in L4. lia.
Qed.

(** [operations] is exact and optimal: when it answers, its lines replay both versions and
    no script that does so changes fewer lines; it declines only when the part between the
    common ends is over the cell budget. *)
Theorem operations_minimal before after :
  match operations before after with
  | Some ops =>
      before_of ops = before /\ after_of ops = after /\
      ∀ script, edits before after script ->
        count_kind added ops + count_kind removed ops <= count_kind added script + count_kind removed script
  | None =>
      let h := commonHead before after in
      let t := commonTail before after h in
      (MAX_DIFF_CELLS < (Z.of_nat (length before - h - t) + 1) * (Z.of_nat (length after - h - t) + 1))%Z
  end.
Proof.
  pose proof (operations_minimal_aux before after) as Hmin.
  pose proof (operations_spec before after) as H. cbn zeta in H.
  destruct (operations before after) as [ops|]; [|done]. by destruct Hmin as [[Hb Ha] Hmin].
Qed.

(** ** Hunks as a patch *)

(** One of the two versions a list of operations stands for: [true] is the one before. *)
Definition side (d : bool) (ops : list DiffLine) : list jsstr := if d then before_of ops else after_of ops.

(** The line a hunk starts after, and the lines it covers, in one of the versions. *)
Definition hunk_offset (d : bool) (h : DiffHunk) : nat :=
  let '(start, count) := if d then (beforeStart h, beforeCount h) else (afterStart h, afterCount h) in
  Z.to_nat (if count =? 0 then start else start - 1).
Definition hunk_count (d : bool) (h : DiffHunk) : nat := if d then beforeCount h else afterCount h.

(** Applying hunks the way [patch] does: copy up to the hunk's offset, check the lines it says
    it replaces, write its other side; [pos] lines of the source are already consumed. *)
Fixpoint patch (d : bool) (hs : list DiffHunk) (pos : nat) (rest : list jsstr) : option (list jsstr) :=
  match hs with
  | [] => Some rest
  | h :: hs =>
      let skip := hunk_offset d h - pos in
      if (pos <=? hunk_offset d h)
         && bool_decide (side d (hunk_lines h) = slice rest skip (skip + hunk_count d h))
      then match patch d hs (hunk_offset d h + hunk_count d h) (drop (skip + hunk_count d h) rest) with
           | Some out => Some (take skip rest ++ side (negb d) (hunk_lines h) ++ out)
           | None => None
           end
      else None
  end.

Lemma side_app d x y : side d (x ++ y) = side d x ++ side d y.
Proof. destruct d; [apply before_of_app|apply after_of_app]. Qed.

Lemma side_context ops : forallb is_context ops = true -> ∀ d, side d ops = text <$> ops.
Proof.
  intros H d. induction ops as [|[k t] ops IH]; [by destruct d|].
  cbn [forallb] in H. apply andb_true_iff in H as [Hk H]. apply bool_decide_eq_true in Hk. cbn in Hk. subst k.
  specialize (IH H). destruct d; cbn in *.
  - rewrite before_of_cons. eval_kinds. by rewrite IH.
  - rewrite after_of_cons. eval_kinds. by rewrite IH.
Qed.

(** *** The changed indices *)

Lemma changedIndices_spec ops :
  StronglySorted lt (changedIndices ops) /\
  ∀ i, i ∈ changedIndices ops <-> ∃ l, ops !! i = Some l /\ is_context l = false.
Proof.
  unfold changedIndices.
  assert (∀ k, let c := omap id (imap (λ i (l : DiffLine), if is_context l then None else Some (k + i)) ops) in
    StronglySorted lt c /\ ∀ i, i ∈ c <-> k <= i /\ ∃ l, ops !! (i - k) = Some l /\ is_context l = false) as H.
  2: { destruct (H 0) as [H1 H2]. split; [exact H1|]. intros i. rewrite (H2 i), Nat.sub_0_r. naive_solver lia. }
  induction ops as [|l ops IH]; intros k; cbn.
  { split; [constructor|]. intros i. split; [by intros ?%not_elem_of_nil|by intros (_ & ? & ? & _)]. }
  destruct (IH (S k)) as [IH1 IH2]. cbn zeta in IH1, IH2.
  assert (imap ((λ i (l : DiffLine), if is_context l then None else Some (k + i)) ∘ S) ops
    = imap (λ i (l : DiffLine), if is_context l then None else Some (S k + i)) ops) as ->.
  { apply imap_ext. intros i x _. cbn. by rewrite Nat.add_succ_r. }
  set (c := omap _ _) in *.
  assert (∀ i, (i ∈ c \/ i = k /\ is_context l = false) <->
    k <= i /\ ∃ l', (l :: ops) !! (i - k) = Some l' /\ is_context l' = false) as Hc.
  { intros i. rewrite IH2. destruct (decide (i = k)) as [->|].
    - rewrite Nat.sub_diag. cbn. split; [|naive_solver]. intros [[? _]|[_ ?]]; [lia|eauto].
    - split.
      + intros [(? & l' & Hl & ?)|[? _]]; [|done]. split; [lia|]. exists l'.
        replace (i - k) with (S (i - S k)) by lia. done.
      + intros (? & l' & Hl & ?). left. split; [lia|]. exists l'.
        replace (i - k) with (S (i - S k)) in Hl by lia. done. }
  rewrite Nat.add_0_r. destruct (is_context l) eqn:E; cbn.
  - split; [done|]. intros i. rewrite <- Hc. naive_solver.
  - split.
    + constructor; [done|]. apply Forall_forall. intros i [Hi _]%IH2. lia.
    + intros i. rewrite <- Hc, elem_of_cons. naive_solver.
Qed.

(** *** The merged ranges *)

(** [ranges], last first, in order and below [bound]. *)
Fixpoint good_rev (bound : nat) (ranges : list (nat * nat)) : Prop :=
  match ranges with
  | [] => True
  | (s, e) :: ranges => s <= e /\ e < bound /\ good_rev s ranges
  end.

(** The same in order, from [p] on. *)
Fixpoint good_ranges (p len : nat) (ranges : list (nat * nat)) : Prop :=
  match ranges with
  | [] => True
  | (s, e) :: ranges => p <= s /\ s <= e /\ e < len /\ good_ranges (S e) len ranges
  end.

Definition covered (ranges : list (nat * nat)) (i : nat) : Prop :=
  ∃ s e, (s, e) ∈ ranges /\ s <= i <= e.

Lemma good_ranges_mono p p' len rs : p' <= p -> good_ranges p len rs -> good_ranges p' len rs.
Proof. destruct rs as [|[s e] rs]; cbn; [done|]. intros ? (? & ? & ? & ?). split_and!; try done; lia. Qed.

Lemma good_rev_ranges bound len rs tail : bound <= len -> good_rev bound rs -> good_ranges bound len tail ->
  good_ranges 0 len (rev rs ++ tail).
Proof.
  revert bound tail. induction rs as [|[s e] rs IH]; intros bound tail Hb; cbn [rev good_rev].
  - intros _. apply good_ranges_mono. lia.
  - intros (H1 & H2 & H3) Ht. rewrite <- app_assoc. apply (IH s); [lia|done|].
    cbn. split_and!; try done; try lia. eapply good_ranges_mono; [|done]. lia.
Qed.

Lemma ranges_loop_spec len changed ranges lo :
  StronglySorted lt changed -> Forall (λ i, lo <= i < len) changed ->
  good_rev len ranges -> match ranges with [] => True | (s, _) :: _ => s <= lo end ->
  good_ranges 0 len (ranges_loop len changed ranges) /\
  (∀ i, covered ranges i \/ i ∈ changed -> covered (ranges_loop len changed ranges) i).
Proof.
  intros Hsort. revert ranges lo. induction Hsort as [|i changed Hs IH Hlt]; intros ranges lo Hin Hgood Hlo; cbn [ranges_loop].
  - split.
    + rewrite <- (app_nil_r (rev ranges)). by apply (good_rev_ranges len).
    + intros i [(s & e & Hse & Hi)|?%not_elem_of_nil]; [|done]. exists s, e. split; [|done]. apply list_elem_of_In. rewrite <- in_rev. by apply list_elem_of_In.
  - apply Forall_cons in Hin as [Hi Hin].
    set (ranges' := match ranges with [] => _ | _ => _ end).
    assert (good_rev len ranges' /\ match ranges' with [] => True | (s, _) :: _ => s <= i end /\
      covered ranges' i /\ ∀ j, covered ranges j -> covered ranges' j) as (H1 & H2 & H3 & H4).
    { unfold ranges'. destruct ranges as [|[s e] rs]; cbn in Hgood.
      - unfold CONTEXT_LINES. split_and!; [cbn; lia|lia| |].
        + eexists _, _. split; [apply list_elem_of_singleton; done|lia].
        + by intros j (? & ? & ?%not_elem_of_nil & _).
      - destruct Hgood as (G1 & G2 & G3).
        destruct (Nat.leb_spec (i - CONTEXT_LINES) (e + 1)).
        + split_and!; [cbn; split_and!; try done; lia|lia| |].
          * eexists _, _. split; [left|]. unfold CONTEXT_LINES in *. lia.
          * intros j (s' & e' & [[= -> ->]|Hse]%elem_of_cons & Hj).
            -- eexists _, _. split; [left|lia].
            -- exists s', e'. split; [by right|done].
        + split_and!; [cbn; unfold CONTEXT_LINES in *; split_and!; try done; lia|unfold CONTEXT_LINES; lia| |].
          * eexists _, _. split; [left|]. unfold CONTEXT_LINES in *. lia.
          * intros j (s' & e' & Hse & Hj). exists s', e'. split; [by right|done]. }
    destruct (IH ranges' i) as [IH1 IH2]; [|done|done|].
    { apply Forall_forall. intros j Hj.
      pose proof (proj1 (Forall_forall _ _) Hlt j Hj). pose proof (proj1 (Forall_forall _ _) Hin j Hj). cbn in *. lia. }
    split; [exact IH1|]. intros j [Hj|[->|Hj]%elem_of_cons]; apply IH2; auto.
Qed.

(** *** The headers *)

Definition counts (d : bool) : LineKind -> bool := if d then in_before else in_after.

Lemma side_counts d ops : length (side d ops) = length (List.filter (λ l, counts d (kind l)) ops).
Proof. destruct d; apply length_map. Qed.

Lemma line_numbers_lookup d ops i k : i < length ops ->
  line_numbers (counts d) ops k !! i = Some (k + Z.of_nat (length (side d (take i ops))))%Z.
Proof.
  revert i k. induction ops as [|l ops IH]; intros [|i] k Hi; cbn [length] in Hi; try lia; cbn [line_numbers].
  - rewrite side_counts. cbn. apply (f_equal Some). lia.
  - cbn [lookup list_lookup]. rewrite IH by lia. rewrite !side_counts. cbn [take List.filter].
    destruct (counts d (kind l)); cbn [length]; apply (f_equal Some); lia.
Qed.

Definition hunk_of (ops : list DiffLine) : nat * nat -> DiffHunk :=
  make_hunk ops (line_numbers in_before ops 1%Z) (line_numbers in_after ops 1%Z).

Lemma hunk_of_spec d ops s e : s <= e -> e < length ops ->
  hunk_lines (hunk_of ops (s, e)) = slice ops s (S e) /\
  hunk_offset d (hunk_of ops (s, e)) = length (side d (take s ops)) /\
  hunk_count d (hunk_of ops (s, e)) = length (side d (slice ops s (S e))).
Proof.
  intros Hs He. unfold hunk_of, make_hunk. rewrite Nat.add_1_r.
  pose proof (line_numbers_lookup true ops s 1%Z ltac:(lia)) as Nb.
  pose proof (line_numbers_lookup false ops s 1%Z ltac:(lia)) as Na. cbn [counts] in Nb, Na.
  rewrite Nb, Na. cbn [from_option id].
  unfold hunk_offset, hunk_count. cbn [hunk_lines beforeStart beforeCount afterStart afterCount].
  split; [done|]. rewrite !side_counts. destruct d; (split; [|done]); case_match; cbn [counts]; lia.
Qed.

(** *** Applying them *)

Lemma gap_context ops p s : p <= s -> s <= length ops ->
  (∀ i, p <= i < s -> ~ i ∈ changedIndices ops) -> forallb is_context (slice ops p s) = true.
Proof.
  intros Hps Hs Hno. apply forallb_forall. intros l Hl%list_elem_of_In%list_elem_of_lookup.
  destruct Hl as [k Hk]. unfold slice in Hk. apply lookup_take_Some in Hk as [Hk Hlt].
  rewrite lookup_drop in Hk. destruct (is_context l) eqn:E; [done|]. exfalso.
  apply (Hno (p + k)); [lia|]. apply changedIndices_spec. eauto.
Qed.

Lemma good_ranges_low q len rs s e : good_ranges q len rs -> (s, e) ∈ rs -> q <= s.
Proof.
  revert q. induction rs as [|[s' e'] rs IH]; intros q; [by intros _ ?%not_elem_of_nil|].
  cbn. intros (G1 & G2 & G3 & G4) [[= -> ->]|Hin]%elem_of_cons; [done|]. specialize (IH _ G4 Hin). lia.
Qed.

Lemma patch_ranges d ops rs p :
  p <= length ops -> good_ranges p (length ops) rs ->
  (∀ i, p <= i -> i ∈ changedIndices ops -> covered rs i) ->
  patch d (map (hunk_of ops) rs) (length (side d (take p ops))) (side d (drop p ops))
  = Some (side (negb d) (drop p ops)).
Proof.
  revert p. induction rs as [|[s e] rs IH]; intros p Hp Hgood Hcov.
  - cbn. f_equal. assert (forallb is_context (drop p ops) = true) as Hctx.
    { rewrite <- (take_ge (drop p ops) (length ops - p)) by (rewrite length_drop; lia).
      apply gap_context; [done..|]. intros i Hi Hin. destruct (Hcov i) as (? & ? & ?%not_elem_of_nil & _); [lia|done|done]. }
    by rewrite !(side_context _ Hctx).
  - cbn in Hgood. destruct Hgood as (H1 & H2 & H3 & H4).
    destruct (hunk_of_spec d ops s e H2 H3) as (El & Eo & Ec).
    assert (forallb is_context (slice ops p s) = true) as Hgap.
    { apply gap_context; [done|lia|]. intros i Hi Hin.
      destruct (Hcov i ltac:(lia) Hin) as (s' & e' & [[= -> ->]|Hse]%elem_of_cons & Hi'); [lia|].
      pose proof (good_ranges_low _ _ _ _ _ H4 Hse). lia. }
    assert (drop p ops = slice ops p s ++ slice ops s (S e) ++ drop (S e) ops) as Ed.
    { rewrite <- (take_drop (s - p) (drop p ops)) at 1. unfold slice. f_equal. rewrite drop_drop.
      replace (p + (s - p)) with s by lia. rewrite <- (take_drop (S e - s) (drop s ops)) at 1. f_equal.
      rewrite drop_drop. f_equal. lia. }
    assert (length (side d (take s ops)) = length (side d (take p ops)) + length (side d (slice ops p s))) as Es.
    { rewrite <- length_app, <- side_app. f_equal. f_equal. unfold slice.
      replace s with (p + (s - p)) at 1 by lia. by rewrite take_take_drop. }
    assert (length (side d (take (S e) ops)) = length (side d (take s ops)) + length (side d (slice ops s (S e)))) as Ee.
    { rewrite <- length_app, <- side_app. f_equal. f_equal. unfold slice.
      replace (S e) with (s + (S e - s)) at 1 by lia. by rewrite take_take_drop. }
    cbn [map patch]. rewrite El, Eo, Ec, Ed, !side_app.
    replace (length (side d (take s ops)) - length (side d (take p ops)))
      with (length (side d (slice ops p s))) by lia.
    rewrite (proj2 (Nat.leb_le _ _)), slice_mid, bool_decide_true by (done || lia). cbn [andb].
    rewrite drop_app_ge by lia. rewrite Nat.add_sub', drop_app_length.
    rewrite <- Ee, IH; [|lia|done|].
    + rewrite take_app_length. by rewrite (side_context _ Hgap d), (side_context _ Hgap (negb d)).
    + intros i Hi Hin. destruct (Hcov i ltac:(lia) Hin) as (s' & e' & [[= -> ->]|Hse]%elem_of_cons & Hi'); [lia|].
      exists s', e'. done.
Qed.

Lemma toHunks_patch d ops : patch d (toHunks ops) 0 (side d ops) = Some (side (negb d) ops).
Proof.
  destruct (changedIndices_spec ops) as [Hsort Hin].
  destruct (ranges_loop_spec (length ops) (changedIndices ops) [] 0) as [Hgood Hcov]; [done| |done|done|].
  { apply Forall_forall. intros i (l & Hl & _)%Hin. apply lookup_lt_Some in Hl. lia. }
  pose proof (patch_ranges d ops) as Hp. unfold toHunks.
  destruct (changedIndices ops) as [|c cs] eqn:E.
  - specialize (Hp [] 0 ltac:(lia) I). rewrite drop_0 in Hp. cbn in Hp. cbn. rewrite Hp; [done|].
    by intros i _ ?%not_elem_of_nil.
  - specialize (Hp (ranges_loop (length ops) (c :: cs) []) 0 ltac:(lia) Hgood).
    rewrite drop_0, take_0 in Hp. replace (length (side d [])) with 0 in Hp by (by destruct d).
    apply Hp. intros i _ Hi. apply Hcov. by right.
Qed.

(** ** The claim about [diffText] *)

Lemma join_splitLines t : join [10%Z] (splitLines t) = t.
Proof.
  induction t as [|c t IH]; [done|]. cbn [splitLines].
  destruct (splitLines t) as [|l ls] eqn:E; [by destruct t as [|d t']; cbn in E; repeat case_match|].
  destruct (Z.eqb_spec c 10) as [->|_].
  - rewrite join_cons. cbn [app]. by rewrite IH.
  - rewrite join_cons in IH |- *. cbn [app] in IH |- *. by rewrite IH.
Qed.

Lemma operations_balance b a ops : edits b a ops ->
  length b + count_kind added ops = length a + count_kind removed ops.
Proof. intros [<- <-]. destruct (script_lengths ops). lia. Qed.

(** The coarse script of the branch that skips the comparison: the middle replaced whole. *)
Lemma coarse_script b a :
  let h := commonHead b a in
  let t := commonTail b a h in
  ∃ script, edits b a script /\
    count_kind removed script = length b - h - t /\ count_kind added script = length a - h - t.
Proof.
  destruct (common_split b a) as (Hb & Ha & Eb & Ea). cbn zeta.
  set (h := commonHead b a) in *. set (t := commonTail b a h) in *.
  assert (∀ k ls, let ops := map (λ l, {| kind := k; text := l |}) ls in
    count_kind k ops = length ls /\ (∀ k', k' <> k -> count_kind k' ops = 0) /\
    before_of ops = (if in_before k then ls else []) /\ after_of ops = (if in_after k then ls else [])) as Hmap.
  { intros k. induction ls as [|l ls (I1 & I2 & I3 & I4)]; [by destruct k|]. cbn [map]. cbn zeta in *.
    split; [rewrite count_kind_cons, I1; cbn [kind]; by rewrite bool_decide_true|]. split.
    - intros k' Hk. rewrite count_kind_cons, (I2 k' Hk). cbn [kind]. by rewrite bool_decide_false.
    - rewrite before_of_cons, after_of_cons, I3, I4. by destruct k. }
  destruct (Hmap removed (slice b h (length b - t))) as (R1 & R2 & R3 & R4).
  destruct (Hmap added (slice a h (length a - t))) as (A1 & A2 & A3 & A4).
  destruct (Hmap context (take h b)) as (_ & C1 & C2 & C3).
  destruct (Hmap context (drop (length a - t) a)) as (_ & D1 & D2 & D3).
  cbn in R3, R4, A3, A4, C2, C3, D2, D3.
  eexists (map _ (take h b) ++ (map _ (slice b h (length b - t)) ++ map _ (slice a h (length a - t)))
           ++ map _ (drop (length a - t) a)).
  split; [split|split].
  - rewrite !before_of_app, C2, R3, A3, D2, app_nil_r. by symmetry.
  - rewrite !after_of_app, C3, R4, A4, D3. by symmetry.
  - rewrite !count_kind_app, R1, A2, C1, D1, length_slice by (done || lia). lia.
  - rewrite !count_kind_app, A1, R2, C1, D1, length_slice by (done || lia). lia.
Qed.

(** C27: The figures and hunks of [diffText] can be relied on.  The line totals are exact and
    balance; [identical] is equality of the texts; when there are hunks they are a patch: applied
    to the lines before they give the lines after, applied backwards they undo it, there are
    none only for identical texts, and no edit script changes fewer lines than the two counts
    say; when there are none ([null]), the counts are those of a script that really rewrites one
    text into the other, so they bound what changed from above. *)
Theorem diffText_sound before after :
  let d := diffText before after in
  let b := splitLines before in
  let a := splitLines after in
  identical d = bool_decide (before = after) /\
  linesBefore d = length b /\ linesAfter d = length a /\
  linesBefore d + linesAdded d = linesAfter d + linesRemoved d /\
  match hunks d with
  | Some hs =>
      patch true hs 0 b = Some a /\ patch false hs 0 a = Some b /\
      (hs = [] <-> before = after) /\
      ∀ script, edits b a script ->
        linesAdded d + linesRemoved d <= count_kind added script + count_kind removed script
  | None => ∃ script, edits b a script /\
      count_kind added script = linesAdded d /\ count_kind removed script = linesRemoved d
  end.
Proof.
  cbn zeta. unfold diffText. case_bool_decide as Heq.
  { subst. cbn. split_and!; try done. intros. lia. }
  pose proof (operations_minimal_aux (splitLines before) (splitLines after)) as Hmin.
  destruct (operations _ _) as [ops|]; cbn.
  - destruct Hmin as (Hedit & Hmin). do 3 (split; [done|]).
    split; [by apply operations_balance|]. split; [|split; [|split; [split; [|done]|done]]].
    + pose proof (toHunks_patch true ops) as Hp. cbn in Hp. destruct Hedit as [Hb Ha]. by rewrite Hb, Ha in Hp.
    + pose proof (toHunks_patch false ops) as Hp. cbn in Hp. destruct Hedit as [Hb Ha]. by rewrite Hb, Ha in Hp.
    + intros Hnil. pose proof (toHunks_patch true ops) as Hp. rewrite Hnil in Hp. cbn in Hp.
      injection Hp as Hp. destruct Hedit as [Hb Ha]. rewrite Hb, Ha in Hp.
      by rewrite <- (join_splitLines before), <- (join_splitLines after), Hp.
  - destruct (coarse_script (splitLines before) (splitLines after)) as (script & He & Hr & Ha).
    cbn zeta in Hr, Ha. split_and!; try done.
    + rewrite <- Hr, <- Ha. by apply operations_balance.
    + by exists script.
Qed.
