(* ===== verification/Csv.v ===== *)
(** CSV in and out: the RFC 4180 tokenizer of client/src/services/import/csv.ts and the writer
    of client/src/services/export/csvWriter.ts.

    A record (a JavaScript object used as a map) is a list of its own properties in insertion
    order.  Assigning a string to [__proto__] on a plain object has no effect, so [set_prop]
    drops that key; reading an inherited property never gives a string. *)
From S2P Require Import Prelude.
Local Open Scope Z_scope.

Definition QUOTE : Z := 34.
Definition COMMA : Z := 44.
Definition CR : Z := 13.
Definition LF : Z := 10.
Definition BOM : Z := 65279.

(** [endRow]: the row is pushed unless it is one empty field. *)
Definition endRow (rows : list (list jsstr)) (row : list jsstr) (field : jsstr) : list (list jsstr) :=
  let row := row ++ [field] in
  if bool_decide (row = [[]]) then rows else rows ++ [row].

(** The character loop; [sawAnyChar] and the final flush are in its base case. *)
Fixpoint csv_loop (input : jsstr) (rows : list (list jsstr)) (row : list jsstr) (field : jsstr)
    (inQuotes sawAnyChar : bool) : list (list jsstr) :=
  match input with
  | [] =>
      if sawAnyChar && (negb (bool_decide (field = [])) || negb (bool_decide (row = [])))
      then endRow rows row field else rows
  | ch :: input =>
      if inQuotes then
        if ch =? QUOTE then
          match input with
          | next :: input' =>
              if next =? QUOTE then csv_loop input' rows row (field ++ [QUOTE]) true true
              else csv_loop input rows row field false true
          | [] => csv_loop input rows row field false true
          end
        else csv_loop input rows row (field ++ [ch]) true true
      else if ch =? QUOTE then csv_loop input rows row field true true
      else if ch =? COMMA then csv_loop input rows (row ++ [field]) [] false true
      else if ch =? CR then
        match input with
        | next :: input' =>
            if next =? LF then csv_loop input' (endRow rows row field) [] [] false true
            else csv_loop input (endRow rows row field) [] [] false true
        | [] => csv_loop input (endRow rows row field) [] [] false true
        end
      else if ch =? LF then csv_loop input (endRow rows row field) [] [] false true
      else csv_loop input rows row (field ++ [ch]) false true
  end.

Definition parseCsv (text : jsstr) : list (list jsstr) :=
  let input := match text with
               | c :: rest => if c =? BOM then rest else text
               | [] => text
               end in
  csv_loop input [] [] [] false false.

(** ** Records *)

Abbreviation Record_ := (list (jsstr * jsstr)).

Fixpoint lookup_prop (record : Record_) (key : jsstr) : option jsstr :=
  match record with
  | [] => None
  | (k, v) :: record => if bool_decide (k = key) then Some v else lookup_prop record key
  end.

Fixpoint assign_prop (record : Record_) (key value : jsstr) : Record_ :=
  match record with
  | [] => [(key, value)]
  | (k, v) :: record =>
      if bool_decide (k = key) then (k, value) :: record else (k, v) :: assign_prop record key value
  end.

Definition set_prop (record : Record_) (key value : jsstr) : Record_ :=
  if bool_decide (key = js "__proto__") then record else assign_prop record key value.

(** The column loop of [rowsToRecords], at column [c]. *)
Fixpoint record_loop (headers cells : list jsstr) (c : nat) (record : Record_) : Record_ :=
  match headers with
  | [] => record
  | key :: headers =>
      record_loop headers cells (S c)
        (if bool_decide (key = []) then record else set_prop record key (default [] (cells !! c)))
  end.

Definition rowsToRecords (text : jsstr) : list jsstr * list Record_ :=
  match parseCsv text with
  | [] => ([], [])
  | row :: rows =>
      let headers := map trim row in
      (headers, map (λ cells, record_loop headers cells 0 []) rows)
  end.

(** [toLowerCase] on arbitrary text is Unicode's table, a parameter. *)
Section lower.
Context (lowercase : jsstr -> jsstr).

Definition toLowerKeyed (record : Record_) : Record_ :=
  foldl (λ out '(k, v), set_prop out (lowercase k) v) [] record.

Fixpoint pick (lc : Record_) (names : list jsstr) : jsstr :=
  match names with
  | [] => []
  | n :: names =>
      match lookup_prop lc (lowercase n) with
      | Some v => if bool_decide (trim v = []) then pick lc names else v
      | None => pick lc names
      end
  end.
End lower.

(** ** The writer *)

Definition needsQuoting (value : jsstr) : bool :=
  includes value QUOTE || includes value COMMA || includes value CR || includes value LF
  || negb (bool_decide (value = trim value)).

(** The [replace] that doubles every quote. *)
Definition doubleQuotes (value : jsstr) : jsstr :=
  value ≫= λ c, if c =? QUOTE then [QUOTE; QUOTE] else [c].

Definition encodeField (value : jsstr) : jsstr :=
  if negb (needsQuoting value) then value else [QUOTE] ++ doubleQuotes value ++ [QUOTE].

Definition encodeRow (row : list jsstr) : jsstr := join [COMMA] (map encodeField row).

Definition toCsv (headers : list jsstr) (rows : list (list jsstr)) : jsstr :=
  join [CR; LF] (map encodeRow (headers :: rows)).
