(* ===== verification/CsvSpec.v ===== *)
(** What the CSV pair promises: the tokenizer reads back exactly the matrix the writer wrote,
    and the records give every column's cell by its header. *)
From S2P Require Import Prelude Csv.
Local Open Scope Z_scope.

(** ** Reading one field *)

Lemma csv_quoted v rest rows row f saw :
  csv_loop (doubleQuotes v ++ QUOTE :: rest) rows row f true saw
  = match rest with
    | c :: _ => if c =? QUOTE then csv_loop (doubleQuotes v ++ QUOTE :: rest) rows row f true saw
                else csv_loop rest rows row (f ++ v) false true
    | [] => csv_loop rest rows row (f ++ v) false true
    end.
Proof.
  revert f saw. induction v as [|c v IH]; intros f saw.
  - cbn. rewrite app_nil_r. destruct rest as [|c rest]; [done|]. by destruct (c =? QUOTE).
  - unfold doubleQuotes. cbn [mbind list_bind]. fold (doubleQuotes v).
    destruct (Z.eqb_spec c QUOTE) as [->|Hne].
    + cbn [app csv_loop]. change (QUOTE =? QUOTE) with true. cbn iota. rewrite IH.
      destruct rest as [|d rest]; [by rewrite <- app_assoc|].
      destruct (d =? QUOTE); [done|by rewrite <- app_assoc].
    + cbn [app csv_loop]. rewrite (proj2 (Z.eqb_neq _ _) Hne), IH.
      destruct rest as [|d rest]; [by rewrite <- app_assoc|].
      destruct (d =? QUOTE); [done|by rewrite <- app_assoc].
Qed.

Definition is_special (c : Z) : bool := (c =? QUOTE) || (c =? COMMA) || (c =? CR) || (c =? LF).

Lemma csv_plain v rest rows row f saw : forallb (λ c, negb (is_special c)) v = true ->
  csv_loop (v ++ rest) rows row f false saw = csv_loop rest rows row (f ++ v) false (saw || negb (bool_decide (v = []))).
Proof.
  revert f saw. induction v as [|c v IH]; intros f saw H.
  - cbn. by rewrite app_nil_r, orb_false_r.
  - cbn [forallb] in H. apply andb_true_iff in H as [Hc H]. unfold is_special in Hc.
    cbn [app csv_loop]. destruct (c =? QUOTE), (c =? COMMA), (c =? CR), (c =? LF); try done.
    rewrite IH by done. rewrite <- app_assoc. cbn. by rewrite orb_true_r.
Qed.

Lemma needsQuoting_plain v : needsQuoting v = false -> forallb (λ c, negb (is_special c)) v = true.
Proof.
  unfold needsQuoting. intros H. repeat apply orb_false_iff in H as [H ?].
  unfold includes in *. apply forallb_forall. intros c Hc. unfold is_special.
  assert (∀ k, existsb (Z.eqb k) v = false -> (c =? k) = false) as Hk.
  { intros k Hn. apply Z.eqb_neq. intros ->. apply not_true_iff_false in Hn. apply Hn, existsb_exists.
    exists k. by rewrite Z.eqb_refl. }
  by rewrite !Hk.
Qed.

(** What follows a written field: a comma, a line end or nothing. *)
Definition delimited (rest : jsstr) : Prop :=
  match rest with [] => True | c :: _ => c = COMMA \/ c = CR end.

Lemma csv_field v rest rows row saw : delimited rest ->
  ∃ saw', csv_loop (encodeField v ++ rest) rows row [] false saw = csv_loop rest rows row v false saw' /\
    (saw = true -> saw' = true) /\ (v <> [] -> saw' = true).
Proof.
  intros Hrest. unfold encodeField. destruct (needsQuoting v) eqn:Hq; cbn [negb].
  - exists true. split; [|done]. rewrite <- !app_assoc. cbn [app csv_loop].
    change (QUOTE =? QUOTE) with true. cbn iota. rewrite csv_quoted.
    destruct rest as [|c rest]; [done|]. cbn in Hrest. by destruct Hrest as [-> | ->].
  - rewrite csv_plain by (by apply needsQuoting_plain). eexists. split; [done|].
    split; [by intros ->|]. intros Hne. rewrite bool_decide_false by done. apply orb_true_r.
Qed.

(** ** Reading one row *)

Lemma encodeRow_cons f row :
  encodeRow (f :: row) = encodeField f ++ match row with [] => [] | _ => COMMA :: encodeRow row end.
Proof. unfold encodeRow. cbn [map]. rewrite join_cons. by destruct row. Qed.

(** The rest of a file after a row: nothing, or a line end and more. *)
Definition row_end (rest : jsstr) : Prop := rest = [] \/ ∃ rest', rest = CR :: LF :: rest'.

Lemma csv_row row rest rows done_ saw : row <> [] -> row_end rest ->
  ∃ front last saw', row = front ++ [last] /\
    csv_loop (encodeRow row ++ rest) rows done_ [] false saw
      = csv_loop rest rows (done_ ++ front) last false saw' /\
    (saw = true -> saw' = true) /\ (row <> [[]] -> saw' = true).
Proof.
  intros Hne Hrest. revert done_ saw. induction row as [|f row IH]; intros done_ saw; [done|]. clear Hne.
  rewrite encodeRow_cons. destruct row as [|g row].
  - rewrite app_nil_r. destruct (csv_field f rest rows done_ saw) as (saw' & E & H1 & H2).
    { destruct Hrest as [->|[? ->]]; cbn; auto. }
    exists [], f, saw'. rewrite app_nil_r. split_and!; [done..|]. intros Hf. apply H2. congruence.
  - rewrite <- app_assoc.
    destruct (csv_field f ((COMMA :: encodeRow (g :: row)) ++ rest) rows done_ saw) as (saw1 & -> & H1 & H2);
      [cbn; auto|].
    cbn [app csv_loop]. change (COMMA =? QUOTE) with false. change (COMMA =? COMMA) with true. cbn iota.
    destruct (IH ltac:(done) (done_ ++ [f]) true) as (front & l & saw' & E & -> & H3 & H4).
    exists (f :: front), l, saw'. rewrite E, <- app_assoc. split_and!; try done; intros; by apply H3.
Qed.

(** A row the format cannot carry: no cell, or one empty cell. *)
Definition blank_row (row : list jsstr) : bool := bool_decide (row = []) || bool_decide (row = [[]]).

Lemma endRow_row rows front l :
  endRow rows front l = if blank_row (front ++ [l]) then rows else rows ++ [front ++ [l]].
Proof.
  unfold endRow, blank_row. rewrite (bool_decide_false (front ++ [l] = [])); [done|].
  by intros []%app_eq_nil.
Qed.

Lemma encode_blank row : blank_row row = true -> encodeRow row = [].
Proof. unfold blank_row. intros [H|H]%orb_true_iff; apply bool_decide_eq_true in H as ->; reflexivity. Qed.

Lemma toCsv_rows_cons row rows :
  join [CR; LF] (map encodeRow (row :: rows))
  = encodeRow row ++ match rows with [] => [] | _ => CR :: LF :: join [CR; LF] (map encodeRow rows) end.
Proof. cbn [map]. rewrite join_cons. by destruct rows. Qed.

(** The row just read is kept, or dropped when blank. *)
Definition keep (row : list jsstr) : list (list jsstr) := if blank_row row then [] else [row].

Lemma csv_rows rows acc saw :
  csv_loop (join [CR; LF] (map encodeRow rows)) acc [] [] false saw = acc ++ concat (map keep rows).
Proof.
  revert acc saw. induction rows as [|row rows IH]; intros acc saw.
  { cbn. rewrite andb_false_r. by rewrite app_nil_r. }
  rewrite toCsv_rows_cons. cbn [map concat]. unfold keep at 1.
  assert (∀ saw', csv_loop (CR :: LF :: join [CR; LF] (map encodeRow rows)) acc [] [] false saw'
    = acc ++ concat (map keep rows)) as Hblank.
  { intros saw'. cbn -[endRow]. by rewrite IH. }
  destruct (blank_row row) eqn:Hb.
  - rewrite encode_blank by done. destruct rows as [|r rows]; [|by apply Hblank].
    cbn. rewrite andb_false_r. by rewrite app_nil_r.
  - unfold blank_row in Hb. apply orb_false_iff in Hb as [H1%bool_decide_eq_false H2%bool_decide_eq_false].
    destruct (csv_row row (match rows with [] => [] | _ => CR :: LF :: join [CR; LF] (map encodeRow rows) end)
      acc [] saw H1) as (front & l & saw' & E & -> & _ & Hsaw).
    { destruct rows; [by left|right; eauto]. }
    assert (endRow acc front l = acc ++ [row]) as Hend.
    { rewrite endRow_row, <- E. unfold blank_row. by rewrite !bool_decide_false. }
    destruct rows as [|r rows].
    + cbn -[endRow]. rewrite (Hsaw H2). cbn [app]. rewrite Hend.
      destruct (bool_decide (l = [])) eqn:El; [|done]. apply bool_decide_eq_true in El as ->.
      rewrite (bool_decide_false (front = [])); [done|]. intros ->. by apply H2.
    + cbn -[endRow encodeRow]. rewrite Hend. cbn [app].
      change (csv_loop (join [CR; LF] (map encodeRow (r :: rows))) (acc ++ [row]) [] [] false true
        = acc ++ [row] ++ concat (map keep (r :: rows))).
      rewrite IH. by rewrite <- app_assoc.
Qed.

(** A written document never begins with the byte-order mark: it is white space, so a field
    that begins with it is quoted. *)
Lemma encodeField_no_bom v r : encodeField v = BOM :: r -> False.
Proof.
  unfold encodeField. destruct (needsQuoting v) eqn:Hq; cbn; [done|]. intros ->.
  unfold needsQuoting in Hq. apply orb_false_iff in Hq as [_ Hq].
  apply negb_false_iff, bool_decide_eq_true in Hq. apply (f_equal length) in Hq.
  pose proof (length_trim_le (BOM :: r)) as H. unfold trimStart in H.
  rewrite length_drop in H. cbn in H, Hq. lia.
Qed.

Lemma toCsv_no_bom headers rows r : toCsv headers rows = BOM :: r -> False.
Proof.
  unfold toCsv. rewrite toCsv_rows_cons. destruct headers as [|f headers].
  - cbn. destruct rows; [done|]. by intros [= ].
  - rewrite encodeRow_cons. destruct (encodeField f) as [|c e] eqn:E.
    + cbn. destruct headers; [|by intros [= ]]. cbn. destruct rows; [done|by intros [= ]].
    + cbn. intros [= -> _]. by apply encodeField_no_bom in E.
Qed.

Lemma parse_written headers rows :
  parseCsv (toCsv headers rows) = concat (map keep (headers :: rows)).
Proof.
  assert (parseCsv (toCsv headers rows) = csv_loop (toCsv headers rows) [] [] [] false false) as ->.
  { unfold parseCsv. destruct (toCsv headers rows) as [|c r] eqn:E; [done|].
    destruct (Z.eqb_spec c BOM) as [->|]; [|done]. by apply toCsv_no_bom in E. }
  apply (csv_rows (headers :: rows)).
Qed.

(** C29: [parseCsv] inverts [toCsv] on every matrix of arbitrary strings, quotes, separators,
    line ends, byte-order marks and white space included, up to the rows no CSV text can carry
    (no cell, or one empty cell), which are dropped and disturb nothing around them. *)
Theorem parseCsv_toCsv headers rows :
  parseCsv (toCsv headers rows) = concat (map keep (headers :: rows)).
Proof. apply parse_written. Qed.

(** ** Records *)

Lemma lookup_assign record k v k' :
  lookup_prop (assign_prop record k v) k' = if bool_decide (k = k') then Some v else lookup_prop record k'.
Proof.
  induction record as [|[j w] record IH]; [done|]. cbn [assign_prop].
  destruct (decide (j = k)) as [->|Hjk].
  - rewrite bool_decide_true by done. cbn. by case_bool_decide.
  - rewrite bool_decide_false by done. cbn [lookup_prop]. rewrite IH.
    repeat case_bool_decide; congruence.
Qed.

(** A key a plain object stores as it is. *)
Definition plain_key (key : jsstr) : Prop := key <> [] /\ key <> js "__proto__".

Lemma record_loop_other headers cells c record key :
  plain_key key -> (∀ i, headers !! i <> Some key) ->
  lookup_prop (record_loop headers cells c record) key = lookup_prop record key.
Proof.
  intros [Hk Hp]. revert c record. induction headers as [|h headers IH]; intros c record Hno; [done|].
  cbn [record_loop]. rewrite IH by (intros i; apply (Hno (S i))).
  assert (h <> key) as Hne by (intros ->; by apply (Hno 0%nat)).
  case_bool_decide; [done|]. unfold set_prop. case_bool_decide; [done|].
  by rewrite lookup_assign, bool_decide_false.
Qed.

Lemma record_loop_last headers cells c record i key :
  plain_key key -> headers !! i = Some key -> (∀ j, (i < j)%nat -> headers !! j <> Some key) ->
  lookup_prop (record_loop headers cells c record) key = Some (default [] (cells !! (c + i)%nat)).
Proof.
  intros Hk. revert c record i. induction headers as [|h headers IH]; intros c record [|i] Hi Hlast; try done.
  - injection Hi as ->. cbn [record_loop].
    rewrite record_loop_other; [|done|intros j; apply (Hlast (S j)); lia].
    destruct Hk as [Hk Hp]. rewrite bool_decide_false by done. unfold set_prop.
    rewrite bool_decide_false, lookup_assign, bool_decide_true by done. by rewrite Nat.add_0_r.
  - cbn [record_loop]. rewrite (IH _ _ i); [by rewrite Nat.add_succ_comm|done|].
    intros j Hj. apply (Hlast (S j)). lia.
Qed.

(** An exported table comes back by column name: after [toCsv] and [rowsToRecords], the
    headers are the trimmed headers, there is one record per row, and a record's value under
    a header is that row's cell, verbatim, in the last column of that name (the empty string
    when the row is too short).  Nameless columns and [__proto__] are not addressable. *)
Theorem rowsToRecords_toCsv headers rows :
  Forall (λ row, blank_row row = false) (headers :: rows) ->
  let '(hs, records) := rowsToRecords (toCsv headers rows) in
  hs = map trim headers /\ length records = length rows /\
  ∀ r row record c key, rows !! r = Some row -> records !! r = Some record ->
    hs !! c = Some key -> plain_key key -> (∀ c', (c < c')%nat -> hs !! c' <> Some key) ->
    lookup_prop record key = Some (default [] (row !! c)).
Proof.
  intros Hrows. unfold rowsToRecords. rewrite parse_written.
  assert (concat (map keep (headers :: rows)) = headers :: rows) as ->.
  { induction Hrows as [|row rs Hrow _ IH]; [done|]. cbn. unfold keep at 1. by rewrite Hrow, IH. }
  split_and!; [done|by rewrite length_map|].
  intros r row record c key Hr Hrec Hc Hkey Hlast.
  rewrite list_lookup_fmap, Hr in Hrec. injection Hrec as <-.
  by rewrite (record_loop_last _ _ _ _ c).
Qed.

Lemma rowsToRecords_toCsv_witness :
  let headers := [js " name "; js "password"] in
  let rows := [[js "a,b"; jsq " ^x^"]] in
  toCsv headers rows = jsq "^ name ^,password" ++ [13; 10] ++ jsq "^a,b^,^ ^^x^^^" /\
  (let '(hs, records) := rowsToRecords (toCsv headers rows) in
   hs = map trim headers /\ length records = length rows /\
   ∀ r row record c key, rows !! r = Some row -> records !! r = Some record ->
     hs !! c = Some key -> plain_key key -> (∀ c', (c < c')%nat -> hs !! c' <> Some key) ->
     lookup_prop record key = Some (default [] (row !! c))).
Proof.
  split; [vm_compute; reflexivity|]. apply rowsToRecords_toCsv. repeat constructor.
Defined.
