(* ===== verification/MigrationReader.v ===== *)
(** The bounded protobuf reader for Google Authenticator exports:
    client/src/services/totpImport/migrationReader.ts, and the collection of a batched
    export's parts, batch.ts.

    A cursor is the payload's bytes and an offset into them; a reading operation takes the
    offset and returns a value with the new offset, or throws.  [DataView]'s own failure past
    the end is [RangeError].  UTF-8 decoding ([TextDecoder], not fatal) and NFC normalisation
    are platform functions, parameters of the label decoder and of everything above it. *)
From S2P Require Import Prelude.
Local Open Scope Z_scope.

Definition MAX_MIGRATION_PAYLOAD_BYTES : nat := Z.to_nat 4096.
Definition MAX_OTP_PARAMETERS : nat := 64.
Definition MAX_FIELDS_PER_MESSAGE : nat := 256.
Definition MAX_VARINT_BYTES : nat := 10.
Definition MAX_FINAL_VARINT_BYTE : Z := 1.
Definition MAX_UINT32 : Z := 2 ^ 32 - 1.
Definition MAX_UINT32_VARINT_BYTES : nat := 5.
Definition MAX_INT32 : Z := 2 ^ 31 - 1.
Definition MIN_SIGN_EXTENDED_INT32 : Z := 2 ^ 64 - 2 ^ 31.
Definition MIN_SECRET_BYTES : nat := 1.
Definition MAX_SECRET_BYTES : nat := 128.
Definition MAX_LABEL_BYTES : nat := 512.
Definition MAX_LABEL_LENGTH : nat := 256.
Definition MAX_BATCH_SIZE : Z := 32.

Inductive MigrationParseCode :=
  | too_large | malformed | unsupported_field | no_entries | too_many_entries
  | bad_secret | bad_enum | bad_batch.

#[global] Instance MigrationParseCode_eq_dec : EqDecision MigrationParseCode.
Proof. solve_decision. Defined.

(** What reading can throw: the reader's own error, or [DataView]'s. *)
Inductive MigrationError :=
  | MigrationParseError (code : MigrationParseCode) (message : jsstr)
  | RangeError.

Definition MALFORMED : MigrationError :=
  MigrationParseError malformed (js "That code is not a readable Google Authenticator export.").

Inductive MigrationAlgorithm := SHA1 | SHA256 | SHA512 | MD5.
Inductive OtpType := totp | hotp.
Inductive DigitCount := six | eight.

#[global] Instance MigrationAlgorithm_eq_dec : EqDecision MigrationAlgorithm.
Proof. solve_decision. Defined.
#[global] Instance OtpType_eq_dec : EqDecision OtpType.
Proof. solve_decision. Defined.
#[global] Instance DigitCount_eq_dec : EqDecision DigitCount.
Proof. solve_decision. Defined.

Record MigrationEntry := {
  entry_type : OtpType;
  secret : list Z;
  name : jsstr;
  issuer : jsstr;
  algorithm : MigrationAlgorithm;
  digits : DigitCount;
  counter : option jsstr;
}.

Record MigrationPayload := {
  entries : list MigrationEntry;
  version : Z;
  batchSize : Z;
  batchIndex : Z;
  batchId : Z;
}.

Definition ALGORITHMS (n : Z) : option MigrationAlgorithm :=
  if n =? 0 then Some SHA1 else if n =? 1 then Some SHA1 else if n =? 2 then Some SHA256
  else if n =? 3 then Some SHA512 else if n =? 4 then Some MD5 else None.
Definition DIGIT_COUNTS (n : Z) : option DigitCount :=
  if n =? 0 then Some six else if n =? 1 then Some six else if n =? 2 then Some eight else None.
Definition OTP_TYPES (n : Z) : option OtpType :=
  if n =? 0 then Some totp else if n =? 1 then Some hotp else if n =? 2 then Some totp else None.

(** ** The cursor *)

Abbreviation Reading A := (result MigrationError (A * nat)).

Local Open Scope result_scope.

Section cursor.
Context (bytes : list Z).

Definition done_ (offset : nat) : bool := (length bytes <=? offset)%nat.

Definition byte (offset : nat) : Reading Z :=
  match bytes !! offset with
  | Some value => Ok (value, S offset)
  | None => Throw RangeError
  end.

(** The reads [read], [read + 1], ... up to the ninth, then the tenth. *)
Fixpoint varint_loop (reads read : nat) (value shift : Z) (offset : nat) : Reading (Z * nat) :=
  match reads with
  | O =>
      let? (last, offset) := byte offset in
      if MAX_FINAL_VARINT_BYTE <? last then Throw MALFORMED
      else Ok ((Z.lor value (Z.shiftl last shift), MAX_VARINT_BYTES), offset)
  | S reads =>
      let? (b, offset) := byte offset in
      let value := Z.lor value (Z.shiftl (Z.land b 127) shift) in
      if Z.land b 128 =? 0 then Ok ((value, read), offset)
      else varint_loop reads (S read) value (shift + 7) offset
  end.

Definition spelledVarint (offset : nat) : Reading (Z * nat) :=
  varint_loop (MAX_VARINT_BYTES - 1) 1 0 0 offset.

Definition varint (offset : nat) : Reading Z :=
  let? ((value, _), offset) := spelledVarint offset in Ok (value, offset).

Definition uint32 (offset : nat) : Reading Z :=
  let? ((value, width), offset) := spelledVarint offset in
  if (MAX_UINT32_VARINT_BYTES <? width)%nat || (MAX_UINT32 <? value) then Throw MALFORMED
  else Ok (value, offset).

Definition length_prefix (offset : nat) : Reading nat :=
  let? (value, offset) := uint32 offset in Ok (Z.to_nat value, offset).

(** [BigInt.asIntN(64, value)]. *)
Definition asInt64 (value : Z) : Z := (value + 2 ^ 63) mod 2 ^ 64 - 2 ^ 63.

Definition int32 (offset : nat) : Reading Z :=
  let? ((value, width), offset) := spelledVarint offset in
  if (value <=? MAX_INT32) && (width <=? MAX_UINT32_VARINT_BYTES)%nat then Ok (value, offset)
  else if MIN_SIGN_EXTENDED_INT32 <=? value then Ok (asInt64 value, offset)
  else Throw MALFORMED.

(** A length is never negative here: it is a [uint32] or a constant. *)
Definition slice_bytes (count offset : nat) : Reading (list Z) :=
  if (length bytes - offset <? count)%nat then Throw MALFORMED
  else Ok (slice bytes offset (offset + count), (offset + count)%nat).

Definition length_delimited (offset : nat) : Reading (list Z) :=
  let? (count, offset) := length_prefix offset in slice_bytes count offset.

Definition skipField (wireType : Z) (offset : nat) : Reading unit :=
  if wireType =? 0 then let? (_, offset) := varint offset in Ok (tt, offset)
  else if wireType =? 1 then let? (_, offset) := slice_bytes 8 offset in Ok (tt, offset)
  else if wireType =? 2 then let? (_, offset) := length_delimited offset in Ok (tt, offset)
  else if wireType =? 5 then let? (_, offset) := slice_bytes 4 offset in Ok (tt, offset)
  else Throw (MigrationParseError unsupported_field
                (js "That export uses a field type this app does not read.")).

(** The walk over one message; [visit] is the callback, on the state it closes over, and
    [fields] counts down the fields still allowed. *)
Fixpoint eachField_loop {St} (visit : St -> Z -> Z -> nat -> Reading St) (fields : nat)
    (state : St) (offset : nat) : Reading St :=
  if done_ offset then Ok (state, offset)
  else
    match fields with
    | O => Throw MALFORMED
    | S fields =>
        let? (tag, after_tag) := uint32 offset in
        let fieldNumber := Z.shiftr tag 3 in
        if fieldNumber =? 0 then Throw MALFORMED
        else
          let? (state, after) := visit state fieldNumber (Z.land tag 7) after_tag in
          if (after <=? offset)%nat then Throw MALFORMED
          else eachField_loop visit fields state after
    end.

Definition eachField {St} (visit : St -> Z -> Z -> nat -> Reading St) (state : St) : Reading St :=
  eachField_loop visit MAX_FIELDS_PER_MESSAGE state 0.

End cursor.

Definition nonNegative (value : Z) : result MigrationError Z :=
  if value <? 0 then Throw MALFORMED else Ok value.

(** ** Labels *)

Definition STRIPPED_CODEPOINT_RANGES : list (Z * Z) :=
  [(0, 31); (127, 159); (8203, 8207); (8234, 8238); (8294, 8297); (65279, 65279)].

Definition isStripped (codePoint : Z) : bool :=
  existsb (λ '(low, high), (low <=? codePoint) && (codePoint <=? high)) STRIPPED_CODEPOINT_RANGES.

(** [codePointAt(0)] of one element of an iterated string. *)
Definition codePointOf (char : jsstr) : Z :=
  match char with
  | [a; b] => (a - 55296) * 1024 + (b - 56320) + 65536
  | a :: _ => a
  | [] => 0
  end.

(** [s.replace(/^ +/, '')]. *)
Definition dropSpaces (s : jsstr) : jsstr := drop (span_len (Z.eqb 32) s) s.

Definition splitLabel (name issuer : jsstr) : jsstr * jsstr :=
  if (0 <? length issuer)%nat then
    let prefix := issuer ++ js ":" in
    if starts_with name prefix then (issuer, dropSpaces (drop (length prefix) name)) else (issuer, name)
  else
    match indexOf 58 name 0 with
    | None => ([], name)
    | Some colon => (trim (take colon name), dropSpaces (drop (S colon) name))
    end.

Record OtpFields := {
  read_secret : option (list Z);
  read_name : option jsstr;
  read_issuer : option jsstr;
  read_algorithm : option MigrationAlgorithm;
  read_digits : option DigitCount;
  read_type : option OtpType;
  read_counter : option jsstr;
}.

Definition no_fields : OtpFields := Build_OtpFields None None None None None None None.

Definition BAD_ALGORITHM : MigrationError :=
  MigrationParseError bad_enum (js "That export uses an unknown hash algorithm.").
Definition BAD_DIGITS : MigrationError :=
  MigrationParseError bad_enum (js "That export uses an unknown code length.").
Definition BAD_TYPE : MigrationError :=
  MigrationParseError bad_enum (js "That export uses an unknown code type.").

Section reader.
Context (utf8_decode : list Z -> jsstr) (normalize_nfc : jsstr -> jsstr).

Definition decodeLabel (bytes : list Z) : result MigrationError jsstr :=
  if (MAX_LABEL_BYTES <? length bytes)%nat then Throw MALFORMED
  else
    let cleaned := concat (List.filter (λ char, negb (isStripped (codePointOf char)))
                                       (code_points (utf8_decode bytes))) in
    Ok (take MAX_LABEL_LENGTH (trim (normalize_nfc cleaned))).

(** One field of an [OtpParameters]: the callback of [readOtpParameters]. *)
Definition visitOtp (bytes : list Z) (read : OtpFields) (fieldNumber wireType : Z) (offset : nat)
    : Reading OtpFields :=
  let '(Build_OtpFields s n i a d t c) := read in
  if fieldNumber =? 1 then
    if negb (wireType =? 2) || bool_decide (is_Some s) then Throw MALFORMED
    else let? (v, offset) := length_delimited bytes offset in
         Ok (Build_OtpFields (Some v) n i a d t c, offset)
  else if fieldNumber =? 2 then
    if negb (wireType =? 2) || bool_decide (is_Some n) then Throw MALFORMED
    else let? (v, offset) := length_delimited bytes offset in
         let? label := decodeLabel v in Ok (Build_OtpFields s (Some label) i a d t c, offset)
  else if fieldNumber =? 3 then
    if negb (wireType =? 2) || bool_decide (is_Some i) then Throw MALFORMED
    else let? (v, offset) := length_delimited bytes offset in
         let? label := decodeLabel v in Ok (Build_OtpFields s n (Some label) a d t c, offset)
  else if fieldNumber =? 4 then
    if negb (wireType =? 0) || bool_decide (is_Some a) then Throw MALFORMED
    else let? (v, offset) := int32 bytes offset in
         match ALGORITHMS v with
         | None => Throw BAD_ALGORITHM
         | Some resolved => Ok (Build_OtpFields s n i (Some resolved) d t c, offset)
         end
  else if fieldNumber =? 5 then
    if negb (wireType =? 0) || bool_decide (is_Some d) then Throw MALFORMED
    else let? (v, offset) := int32 bytes offset in
         match DIGIT_COUNTS v with
         | None => Throw BAD_DIGITS
         | Some resolved => Ok (Build_OtpFields s n i a (Some resolved) t c, offset)
         end
  else if fieldNumber =? 6 then
    if negb (wireType =? 0) || bool_decide (is_Some t) then Throw MALFORMED
    else let? (v, offset) := int32 bytes offset in
         match OTP_TYPES v with
         | None => Throw BAD_TYPE
         | Some resolved => Ok (Build_OtpFields s n i a d (Some resolved) c, offset)
         end
  else if fieldNumber =? 7 then
    if negb (wireType =? 0) || bool_decide (is_Some c) then Throw MALFORMED
    else let? (v, offset) := varint bytes offset in
         Ok (Build_OtpFields s n i a d t (Some (num v)), offset)
  else let? (_, offset) := skipField bytes wireType offset in Ok (read, offset).

Definition readOtpParameters (bytes : list Z) : result MigrationError MigrationEntry :=
  let? (read, _) := eachField bytes (visitOtp bytes) no_fields in
  match read_secret read with
  | None => Throw (MigrationParseError bad_secret (js "One of those accounts has no secret key."))
  | Some secret =>
      if (length secret <? MIN_SECRET_BYTES)%nat
      then Throw (MigrationParseError bad_secret (js "One of those accounts has no secret key."))
      else if (MAX_SECRET_BYTES <? length secret)%nat
      then Throw (MigrationParseError bad_secret (js "One of those accounts has an oversized key."))
      else
        let '(issuer, account) := splitLabel (default [] (read_name read)) (default [] (read_issuer read)) in
        Ok {| entry_type := default totp (read_type read);
              secret := secret; name := account; issuer := issuer;
              algorithm := default SHA1 (read_algorithm read);
              digits := default six (read_digits read);
              counter := if bool_decide (read_type read = Some hotp) then read_counter read else None |}
  end.

(** The variables of [readMigrationPayload] its callback assigns. *)
Record PayloadFields := {
  read_entries : list MigrationEntry;
  read_version : Z;
  read_batchSize : Z;
  read_batchIndex : Z;
  read_batchId : Z;
}.

Definition visitPayload (bytes : list Z) (read : PayloadFields) (fieldNumber wireType : Z) (offset : nat)
    : Reading PayloadFields :=
  let '(Build_PayloadFields es v s i d) := read in
  if fieldNumber =? 1 then
    if negb (wireType =? 2) then Throw MALFORMED
    else if (MAX_OTP_PARAMETERS <=? length es)%nat
    then Throw (MigrationParseError too_many_entries
                  (js "That export holds more accounts than this app will read at once."))
    else let? (sub, offset) := length_delimited bytes offset in
         let? entry := readOtpParameters sub in
         Ok (Build_PayloadFields (es ++ [entry]) v s i d, offset)
  else if fieldNumber =? 2 then
    if negb (wireType =? 0) then Throw MALFORMED
    else let? (n, offset) := int32 bytes offset in
         let? n := nonNegative n in Ok (Build_PayloadFields es n s i d, offset)
  else if fieldNumber =? 3 then
    if negb (wireType =? 0) then Throw MALFORMED
    else let? (n, offset) := int32 bytes offset in
         let? n := nonNegative n in Ok (Build_PayloadFields es v n i d, offset)
  else if fieldNumber =? 4 then
    if negb (wireType =? 0) then Throw MALFORMED
    else let? (n, offset) := int32 bytes offset in
         let? n := nonNegative n in Ok (Build_PayloadFields es v s n d, offset)
  else if fieldNumber =? 5 then
    if negb (wireType =? 0) then Throw MALFORMED
    else let? (n, offset) := int32 bytes offset in Ok (Build_PayloadFields es v s i n, offset)
  else let? (_, offset) := skipField bytes wireType offset in Ok (read, offset).

(** The [catch] that turns [DataView]'s failure into the reader's own. *)
Definition catchRange {A} (r : result MigrationError A) : result MigrationError A :=
  match r with
  | Throw RangeError => Throw MALFORMED
  | r => r
  end.

Definition readMigrationPayload (bytes : list Z) : result MigrationError MigrationPayload :=
  if (MAX_MIGRATION_PAYLOAD_BYTES <? length bytes)%nat
  then Throw (MigrationParseError too_large (js "That export is larger than this app will read."))
  else
    let? (read, _) := catchRange (eachField bytes (visitPayload bytes) (Build_PayloadFields [] 0 0 0 0)) in
    match read_entries read with
    | [] => Throw (MigrationParseError no_entries (js "That code carries no accounts."))
    | entries =>
        let size := if read_batchSize read =? 0 then 1 else read_batchSize read in
        if (MAX_BATCH_SIZE <? size) || (size <=? read_batchIndex read)
        then Throw (MigrationParseError bad_batch (js "That export describes an unusable set of codes."))
        else Ok {| entries := entries; version := read_version read; batchSize := size;
                   batchIndex := read_batchIndex read; batchId := read_batchId read |}
    end.
End reader.
