(* ===== verification/MigrationReaderSpec.v ===== *)
(** What the export reader promises: whatever the bytes, it answers with a bounded payload or
    with one of its own fixed messages; and it reads back every payload an encoder writes. *)
From S2P Require Import Prelude MigrationReader.
Local Open Scope Z_scope.

(** ** Reading operations *)

(** Split a successful [let?] chain into its steps. *)
Ltac invert_ok :=
  repeat match goal with
  | H : result_bind ?m _ = Ok _ |- _ =>
      let E := fresh "E" in destruct m as [?|?] eqn:E; cbn [result_bind] in H; [|discriminate H]
  | p : (_ * _)%type |- _ => destruct p
  | H : Ok _ = Ok _ |- _ => injection H as H; try subst
  | H : Throw _ = Ok _ |- _ => discriminate H
  | H : (_, _) = (_, _) |- _ => injection H as H; try subst
  | H : (if ?b then _ else _) = Ok _ |- _ => let E := fresh "E" in destruct b eqn:E
  end.

Definition bytes_ok (bytes : list Z) : Prop := Forall (λ b, 0 <= b < 256) bytes.

Lemma byte_bound bytes o v o' : bytes_ok bytes -> byte bytes o = Ok (v, o') ->
  0 <= v < 256 /\ o' = S o /\ (o' <= length bytes)%nat.
Proof.
  intros Hb. unfold byte. destruct (bytes !! o) as [b|] eqn:E; [|done]. intros [= -> <-].
  split; [by apply (Forall_lookup_1 _ _ _ _ Hb E)|]. apply lookup_lt_Some in E. lia.
Qed.

Lemma varint_loop_bound bytes reads read value shift o v w o' :
  bytes_ok bytes -> shift + 7 = 7 * Z.of_nat read -> (1 <= read)%nat -> (read + reads = 10)%nat ->
  0 <= value < 2 ^ shift ->
  varint_loop bytes reads read value shift o = Ok ((v, w), o') ->
  0 <= v < 2 ^ 64 /\ (o < o' <= length bytes)%nat /\ (read <= w <= 10)%nat.
Proof.
  intros Hb. revert read value shift o. induction reads as [|reads IH]; intros read value shift o Hs Hr Hrr Hv H;
    cbn [varint_loop] in H.
  - invert_ok. destruct (byte_bound _ _ _ _ Hb E) as (H1 & -> & H2).
    unfold MAX_FINAL_VARINT_BYTE, MAX_VARINT_BYTES in *. apply Z.ltb_ge in E0.
    rewrite lor_shiftl by lia. assert (shift = 63) as -> by lia. split; [|lia].
    change (2 ^ 63) with 9223372036854775808 in *. change (2 ^ 64) with 18446744073709551616. lia.
  - invert_ok.
    + destruct (byte_bound _ _ _ _ Hb E) as (H1 & -> & H2). split; [|lia].
      rewrite lor_shiftl by lia. change 127 with (2 ^ 7 - 1). rewrite land_low by lia.
      pose proof (Z.mod_pos_bound z (2 ^ 7) ltac:(lia)) as Hm.
      assert (2 ^ shift * 2 ^ 7 <= 2 ^ 64) as Hp.
      { rewrite <- Z.pow_add_r by lia. apply Z.pow_le_mono_r; lia. }
      change (2 ^ 7) with 128 in *. nia.
    + destruct (byte_bound _ _ _ _ Hb E) as (H1 & -> & H2).
      apply IH in H; [lia|lia|lia|lia|].
      rewrite lor_shiftl by lia. change 127 with (2 ^ 7 - 1). rewrite land_low by lia.
      pose proof (Z.mod_pos_bound z (2 ^ 7) ltac:(lia)) as Hm.
      rewrite Z.pow_add_r by lia. change (2 ^ 7) with 128 in *. nia.
Qed.

Lemma spelledVarint_bound bytes o v w o' : bytes_ok bytes -> spelledVarint bytes o = Ok ((v, w), o') ->
  0 <= v < 2 ^ 64 /\ (o < o' <= length bytes)%nat.
Proof.
  intros Hb H. apply varint_loop_bound in H as (H1 & H2 & _); [done..|lia|lia| |lia].
  unfold MAX_VARINT_BYTES. lia.
Qed.

Lemma int32_range bytes o v o' : bytes_ok bytes -> int32 bytes o = Ok (v, o') ->
  - 2 ^ 31 <= v < 2 ^ 31 /\ (o < o' <= length bytes)%nat.
Proof.
  intros Hb H. unfold int32 in H. invert_ok; destruct (spelledVarint_bound _ _ _ _ _ Hb E) as [Hv Ho];
    (split; [|done]); unfold MAX_INT32, MIN_SIGN_EXTENDED_INT32, asInt64 in *.
  - lia.
  - apply Z.leb_le in E1. 
    assert (z = (z - 2 ^ 64) + 1 * 2 ^ 64) as -> by lia.
    replace (z - 2 ^ 64 + 1 * 2 ^ 64 + 2 ^ 63) with (z - 2 ^ 63 + 1 * 2 ^ 64) by lia.
    rewrite Z.mod_add by lia. rewrite Z.mod_small; lia.
Qed.

Lemma uint32_range bytes o v o' : bytes_ok bytes -> uint32 bytes o = Ok (v, o') ->
  0 <= v < 2 ^ 32 /\ (o < o' <= length bytes)%nat.
Proof.
  intros Hb H. unfold uint32 in H. invert_ok. destruct (spelledVarint_bound _ _ _ _ _ Hb E) as [Hv Ho].
  split; [|done]. unfold MAX_UINT32 in E0. apply orb_false_iff in E0 as [_ E0]. lia.
Qed.

(** ** Outcomes *)

(** Every message the reader can throw: constants of the program, so no part of the input. *)
Definition fixed_errors : list MigrationError :=
  [MALFORMED; BAD_ALGORITHM; BAD_DIGITS; BAD_TYPE;
   MigrationParseError unsupported_field (js "That export uses a field type this app does not read.");
   MigrationParseError bad_secret (js "One of those accounts has no secret key.");
   MigrationParseError bad_secret (js "One of those accounts has an oversized key.");
   MigrationParseError too_many_entries (js "That export holds more accounts than this app will read at once.");
   MigrationParseError too_large (js "That export is larger than this app will read.");
   MigrationParseError no_entries (js "That code carries no accounts.");
   MigrationParseError bad_batch (js "That export describes an unusable set of codes.")].

Definition inner_error (e : MigrationError) : Prop := e = RangeError \/ e ∈ fixed_errors.

Definition outcome {A} (P : A -> Prop) (m : result MigrationError A) : Prop :=
  match m with Ok a => P a | Throw e => inner_error e end.

Lemma outcome_bind {A B} (P : A -> Prop) (Q : B -> Prop) m (f : A -> result MigrationError B) :
  outcome P m -> (∀ a, P a -> outcome Q (f a)) -> outcome Q (result_bind m f).
Proof. destruct m; cbn; auto. Qed.

Lemma outcome_weaken {A} (P Q : A -> Prop) m : (∀ a, P a -> Q a) -> outcome P m -> outcome Q m.
Proof. destruct m; cbn; auto. Qed.

(** An error that is one of the constants. *)
Lemma fixed_inner k e : fixed_errors !! k = Some e -> inner_error e.
Proof. intros H. right. by eapply list_elem_of_lookup_2. Qed.

Ltac fixed_error :=
  cbn [outcome];
  first [ left; reflexivity | apply (fixed_inner 0); reflexivity | apply (fixed_inner 1); reflexivity
        | apply (fixed_inner 2); reflexivity | apply (fixed_inner 3); reflexivity
        | apply (fixed_inner 4); reflexivity | apply (fixed_inner 5); reflexivity
        | apply (fixed_inner 6); reflexivity | apply (fixed_inner 7); reflexivity ].

Section outcomes.
Context (bytes : list Z).

Lemma byte_outcome o : outcome (λ '(_, o'), o' = S o) (byte bytes o).
Proof. unfold byte. destruct (bytes !! o); [done|fixed_error]. Qed.

Lemma varint_loop_outcome reads read value shift o :
  outcome (λ '(_, o'), (o < o')%nat) (varint_loop bytes reads read value shift o).
Proof.
  revert read value shift o. induction reads as [|reads IH]; intros read value shift o; cbn [varint_loop];
    (eapply outcome_bind; [apply byte_outcome|]); intros [b o'] ->; case_match; try fixed_error; cbn; try lia.
  eapply outcome_weaken; [|apply IH]. intros [? ?]. lia.
Qed.

Lemma uint32_outcome o : outcome (λ '(_, o'), (o < o')%nat) (uint32 bytes o).
Proof.
  eapply outcome_bind; [apply varint_loop_outcome|]. intros [[v w] o'] H. case_match; [fixed_error|done].
Qed.

Lemma int32_outcome o : outcome (λ '(_, o'), (o < o')%nat) (int32 bytes o).
Proof.
  eapply outcome_bind; [apply varint_loop_outcome|]. intros [[v w] o'] H. repeat case_match; done || fixed_error.
Qed.

Lemma varint_outcome o : outcome (λ '(_, o'), (o < o')%nat) (varint bytes o).
Proof. eapply outcome_bind; [apply varint_loop_outcome|]. intros [[v w] o'] H. done. Qed.

Lemma slice_bytes_outcome n o :
  outcome (λ '(v, o'), o' = (o + n)%nat /\ (length v <= n)%nat) (slice_bytes bytes n o).
Proof.
  unfold slice_bytes. case_match; [fixed_error|]. cbn. split; [done|].
  unfold slice. rewrite length_take. lia.
Qed.

Lemma length_delimited_outcome o : outcome (λ '(_, o'), (o < o')%nat) (length_delimited bytes o).
Proof.
  eapply outcome_bind; [eapply outcome_bind; [apply uint32_outcome|]|].
  - intros [v o'] H. instantiate (1 := λ '(_, o'), (o < o')%nat). done.
  - intros [v o'] H. eapply outcome_weaken; [|apply slice_bytes_outcome]. intros [? ?] [-> _]. lia.
Qed.

Lemma skipField_outcome w o : outcome (λ '(_, o'), (o < o')%nat) (skipField bytes w o).
Proof.
  unfold skipField. repeat case_match; try fixed_error; (eapply outcome_bind;
    [apply varint_outcome || apply slice_bytes_outcome || apply length_delimited_outcome|]);
    intros [? ?] Ho; cbn; lia.
Qed.

(** The walk keeps what its callback keeps. *)
Lemma eachField_outcome {St} (visit : St -> Z -> Z -> nat -> Reading St) (P : St -> Prop) st :
  (∀ st f w o, P st -> outcome (λ '(st', _), P st') (visit st f w o)) ->
  P st -> outcome (λ '(st', _), P st') (eachField bytes visit st).
Proof.
  intros Hv. unfold eachField. generalize MAX_FIELDS_PER_MESSAGE, 0%nat. intros n o. revert st o.
  induction n as [|n IH]; intros st o Hst; cbn [eachField_loop]; (case_match; [done|]); [fixed_error|].
  eapply outcome_bind; [apply uint32_outcome|]. intros [tag o1] _.
  case_match; [fixed_error|]. eapply outcome_bind; [by apply Hv|].
  intros [st' o2] Hst'. case_match; [fixed_error|by apply IH].
Qed.

Lemma bytes_ok_slice i j : bytes_ok bytes -> bytes_ok (slice bytes i j).
Proof. intros. by apply Forall_take, Forall_drop. Qed.

Lemma length_delimited_ok o v o' : bytes_ok bytes -> length_delimited bytes o = Ok (v, o') -> bytes_ok v.
Proof.
  intros Hb H. unfold length_delimited, slice_bytes in H. invert_ok. by apply bytes_ok_slice.
Qed.
End outcomes.

(** ** What is read is bounded *)

Definition entry_ok (e : MigrationEntry) : Prop :=
  (1 <= length (secret e) <= 128)%nat /\ (length (name e) <= 256)%nat /\ (length (issuer e) <= 256)%nat /\
  (entry_type e = totp -> counter e = None).

Definition payload_ok (p : MigrationPayload) : Prop :=
  (1 <= length (entries p) <= 64)%nat /\ Forall entry_ok (entries p) /\
  0 <= version p < 2 ^ 31 /\ 1 <= batchSize p <= 32 /\ 0 <= batchIndex p < batchSize p /\
  - 2 ^ 31 <= batchId p < 2 ^ 31.

Section bounds.
Context (utf8_decode : list Z -> jsstr) (normalize_nfc : jsstr -> jsstr).

Lemma decodeLabel_outcome bytes :
  outcome (λ l, (length l <= 256)%nat) (decodeLabel utf8_decode normalize_nfc bytes).
Proof.
  unfold decodeLabel. case_match; [fixed_error|]. cbn [outcome]. rewrite length_take.
  unfold MAX_LABEL_LENGTH. lia.
Qed.

Definition otp_ok (st : OtpFields) : Prop :=
  (∀ l, read_name st = Some l -> (length l <= 256)%nat) /\
  (∀ l, read_issuer st = Some l -> (length l <= 256)%nat).

Lemma visitOtp_outcome bytes st f w o : otp_ok st ->
  outcome (λ '(st', _), otp_ok st') (visitOtp utf8_decode normalize_nfc bytes st f w o).
Proof.
  intros Hok. destruct st as [s n i a d t c]. unfold visitOtp, otp_ok in *. cbn in Hok. destruct Hok as [Hn Hi].
  repeat (case_match; try fixed_error);
    (eapply outcome_bind;
     [apply length_delimited_outcome || apply int32_outcome || apply varint_outcome || apply skipField_outcome|]);
    intros [v o'] _; cbn [outcome]; try done;
    try (eapply outcome_bind; [apply decodeLabel_outcome|]; intros l Hl; cbn; split; [naive_solver|naive_solver]);
    case_match; cbn [outcome]; done || fixed_error.
Qed.

Lemma dropSpaces_le s : (length (dropSpaces s) <= length s)%nat.
Proof. unfold dropSpaces. rewrite length_drop. lia. Qed.

Lemma splitLabel_bound n i : (length n <= 256)%nat -> (length i <= 256)%nat ->
  (length (splitLabel n i).1 <= 256)%nat /\ (length (splitLabel n i).2 <= 256)%nat.
Proof.
  intros Hn Hi. unfold splitLabel. repeat case_match; cbn [fst snd]; try done.
  - split; [done|]. pose proof (dropSpaces_le (drop (length (i ++ js ":")) n)) as H1.
    rewrite length_drop in H1. lia.
  - split.
    + pose proof (length_trim_le (take n0 n)). pose proof (length_trimStart_le (take n0 n)) as H2.
      rewrite length_take in H2. lia.
    + pose proof (dropSpaces_le (drop (S n0) n)) as H2. rewrite length_drop in H2. lia.
  - split; [cbn; lia|done].
Qed.

Lemma readOtpParameters_outcome bytes :
  outcome entry_ok (readOtpParameters utf8_decode normalize_nfc bytes).
Proof.
  eapply outcome_bind; [eapply (eachField_outcome _ _ otp_ok); [intros; by apply visitOtp_outcome|split; done]|].
  intros [st o] [Hn Hi]. destruct (read_secret st) as [s|]; [|fixed_error].
  case_match eqn:Hlo; [fixed_error|]. case_match eqn:Hhi; [fixed_error|].
  unfold MIN_SECRET_BYTES, MAX_SECRET_BYTES in *.
  pose proof (splitLabel_bound (default [] (read_name st)) (default [] (read_issuer st))) as [H1 H2].
  { destruct (read_name st); cbn; [by apply Hn|lia]. }
  { destruct (read_issuer st); cbn; [by apply Hi|lia]. }
  destruct (splitLabel _ _) as [iss acc]. cbn [fst snd] in *. apply Nat.ltb_ge in Hlo, Hhi.
  cbn [outcome]. unfold entry_ok. cbn [secret name issuer entry_type counter]. split_and!; try done.
  intros Ht. rewrite bool_decide_false; [done|]. destruct (read_type st); naive_solver.
Qed.

Definition payload_fields_ok (st : PayloadFields) : Prop :=
  (length (read_entries st) <= 64)%nat /\ Forall entry_ok (read_entries st) /\
  0 <= read_version st < 2 ^ 31 /\ 0 <= read_batchSize st /\ 0 <= read_batchIndex st /\
  - 2 ^ 31 <= read_batchId st < 2 ^ 31.

Lemma int32_outcome_range bytes o : bytes_ok bytes ->
  outcome (λ '(v, _), - 2 ^ 31 <= v < 2 ^ 31) (int32 bytes o).
Proof.
  intros Hb. pose proof (int32_outcome bytes o) as H. destruct (int32 bytes o) as [[v o']|e] eqn:E; [|done].
  cbn. by apply (int32_range bytes o v o' Hb).
Qed.

Lemma nonNegative_outcome v : outcome (λ n, n = v /\ 0 <= v) (nonNegative v).
Proof. unfold nonNegative. destruct (Z.ltb_spec v 0); [fixed_error|done]. Qed.

Lemma visitPayload_outcome bytes st f w o : bytes_ok bytes -> payload_fields_ok st ->
  outcome (λ '(st', _), payload_fields_ok st') (visitPayload utf8_decode normalize_nfc bytes st f w o).
Proof.
  intros Hb Hok. destruct st as [es v s i d]. unfold visitPayload, payload_fields_ok in *. cbn in Hok.
  destruct Hok as (H1 & H2 & H3 & H4 & H5 & H6).
  repeat (case_match; try fixed_error).
  1: { eapply outcome_bind; [apply length_delimited_outcome|]. intros [sub o'] _.
       eapply outcome_bind; [apply readOtpParameters_outcome|]. intros e He. cbn.
       unfold MAX_OTP_PARAMETERS in *. rewrite length_app. cbn.
       split_and!; try lia; try done. apply Forall_app_2; [done|by constructor]. }
  1-3: eapply outcome_bind; [by apply int32_outcome_range|]; intros [n o'] Hn;
       eapply outcome_bind; [apply nonNegative_outcome|]; intros n' [-> Hnn]; cbn; split_and!; try done; lia.
  - eapply outcome_bind; [by apply int32_outcome_range|]. intros [n o'] Hn. cbn. split_and!; try done; lia.
  - eapply outcome_bind; [apply skipField_outcome|]. intros [n o'] Hn. cbn. split_and!; try done; lia.
Qed.

(** Whatever bytes a code carries, [readMigrationPayload] answers: with a payload of 1 to 64
    accounts, each with a key of 1 to 128 bytes, labels of at most 256 units and a counter only
    if it is counter-based, a version and a batch position in range, and an int32 batch id; or
    with one of the program's eleven fixed errors, so no failure (a [RangeError] past the end of
    the buffer included) escapes or quotes the input. *)
Theorem readMigrationPayload_outcome bytes :
  bytes_ok bytes ->
  match readMigrationPayload utf8_decode normalize_nfc bytes with
  | Ok payload => payload_ok payload
  | Throw e => e ∈ fixed_errors
  end.
Proof.
  intros Hb. unfold readMigrationPayload. destruct (MAX_MIGRATION_PAYLOAD_BYTES <? length bytes)%nat.
  { apply (list_elem_of_lookup_2 _ 8). reflexivity. }
  pose proof (eachField_outcome bytes (visitPayload utf8_decode normalize_nfc bytes) payload_fields_ok
    (Build_PayloadFields [] 0 0 0 0)) as Hloop.
  destruct (eachField _ _ _) as [[st o]|e]; cbn [catchRange result_bind outcome] in *.
  - destruct Hloop as (H1 & H2 & H3 & H4 & H5 & H6).
    { intros. by apply visitPayload_outcome. }
    { unfold payload_fields_ok. cbn. split_and!; try lia; constructor. }
    destruct (read_entries st) as [|e es] eqn:Ees; [apply (list_elem_of_lookup_2 _ 9); reflexivity|].
    destruct ((MAX_BATCH_SIZE <? _) || _) eqn:Hbad; [apply (list_elem_of_lookup_2 _ 10); reflexivity|].
    apply orb_false_iff in Hbad as [Hb1 Hb2]. unfold MAX_BATCH_SIZE in *.
    unfold payload_ok. cbn [entries version batchSize batchIndex batchId].
    split_and!; try done; try (cbn [length] in *; lia); destruct (Z.eqb_spec (read_batchSize st) 0); lia.
  - destruct Hloop as [->|He]; [intros; by apply visitPayload_outcome| | |].
    + unfold payload_fields_ok. cbn. split_and!; try lia; constructor.
    + left.
    + destruct e; [done|]. apply (list_elem_of_lookup_2 _ 0). reflexivity.
Qed.
End bounds.

(** A truncated length-delimited field. *)
Lemma readMigrationPayload_outcome_witness :
  readMigrationPayload id id [10; 200] = Throw MALFORMED /\
  match readMigrationPayload id id [10; 200] with
  | Ok payload => payload_ok payload
  | Throw e => e ∈ fixed_errors
  end.
Proof.
  split; [reflexivity|]. apply (readMigrationPayload_outcome id id [10; 200]).
  repeat constructor; discriminate.
Defined.

(** ** Duplicates *)

(** The field numbers of a message, found by skipping every field by its wire type alone. *)
Definition message_fields (bytes : list Z) : result MigrationError (list Z) :=
  match eachField bytes (λ seen f w o,
          let? (_, o) := skipField bytes w o in Ok (seen ++ [f], o))%result [] with
  | Ok (seen, _) => Ok seen
  | Throw e => Throw e
  end.

(** A field number [OtpParameters] models. *)
Definition modelled (f : Z) : bool := (1 <=? f) && (f <=? 7).

Definition is_set (st : OtpFields) (f : Z) : bool :=
  if f =? 1 then bool_decide (is_Some (read_secret st))
  else if f =? 2 then bool_decide (is_Some (read_name st))
  else if f =? 3 then bool_decide (is_Some (read_issuer st))
  else if f =? 4 then bool_decide (is_Some (read_algorithm st))
  else if f =? 5 then bool_decide (is_Some (read_digits st))
  else if f =? 6 then bool_decide (is_Some (read_type st))
  else if f =? 7 then bool_decide (is_Some (read_counter st))
  else false.

Section duplicates.
Context (utf8_decode : list Z -> jsstr) (normalize_nfc : jsstr -> jsstr).

Lemma int32_varint bytes o v o' : int32 bytes o = Ok (v, o') -> ∃ u, varint bytes o = Ok (u, o').
Proof.
  unfold int32, varint. destruct (spelledVarint bytes o) as [[[u w] p]|e]; cbn; [|done].
  repeat case_match; intros [= <- <-] || intros [=]; eauto.
Qed.

(** Reading a field ends where skipping it would, and marks it as seen. *)
Lemma visitOtp_sim bytes st f w o st' o' :
  visitOtp utf8_decode normalize_nfc bytes st f w o = Ok (st', o') ->
  skipField bytes w o = Ok (tt, o') /\ (modelled f = true -> is_set st f = false) /\
  ∀ g, modelled g = true -> is_set st' g = is_set st g || (g =? f).
Proof.
  destruct st as [s n i a d t c]. unfold visitOtp.
  assert (∀ {A} (m : option A), bool_decide (is_Some m) = false -> m = None) as Hnone.
  { intros A [x|] H; [|done]. apply bool_decide_eq_false in H. destruct H. eauto. }
  repeat (match goal with |- context [f =? ?k] => destruct (Z.eqb_spec f k) as [->|?] end);
    try (destruct (w =? _) eqn:Hw; [|done]; apply Z.eqb_eq in Hw as ->; cbn [negb orb];
         match goal with |- context [bool_decide (is_Some ?x)] =>
           destruct (bool_decide (is_Some x)) eqn:Hx; [done|]; apply Hnone in Hx; subst x end);
    intros H; invert_ok.
  all: try (match goal with H : match ?x with Some _ => _ | None => _ end = Ok _ |- _ =>
              destruct x eqn:?; [|discriminate H]; injection H as <- <- end).
  all: unfold skipField; cbn -[varint int32 length_delimited];
    repeat match goal with
    | H : length_delimited _ _ = Ok _ |- _ => rewrite H; clear H
    | H : int32 _ _ = Ok _ |- _ => apply int32_varint in H as [? H]
    | H : varint _ _ = Ok _ |- _ => rewrite H; clear H
    end; try (split_and!; [done|done|]; intros g Hg; unfold is_set, modelled in *;
      cbn [read_secret read_name read_issuer read_algorithm read_digits read_type read_counter];
      repeat (case_match; try done; try lia)).
  - split_and!; [|unfold modelled; lia|].
    + match goal with H : skipField _ _ _ = Ok (?u, _) |- _ => by destruct u end.
    + intros g Hg. rewrite (proj2 (Z.eqb_neq g f)); [by rewrite orb_false_r|]. unfold modelled in Hg. lia.
Qed.
Abbreviation vOtp bytes := (visitOtp utf8_decode normalize_nfc bytes).
Abbreviation skip bytes := (λ (seen : list Z) (f w : Z) (o : nat),
  result_bind (skipField bytes w o) (λ '(_, o), Ok (seen ++ [f], o))).

Lemma loop_sim bytes fields st o st' o' : 
  eachField_loop bytes (vOtp bytes) fields st o = Ok (st', o') ->
  ∃ fs, (∀ seen, eachField_loop bytes (skip bytes) fields seen o = Ok (seen ++ fs, o')) /\
    NoDup (List.filter modelled fs) /\ (∀ f, f ∈ fs -> modelled f = true -> is_set st f = false) /\
    ∀ f, modelled f = true -> is_set st' f = true -> is_set st f = true \/ f ∈ fs.
Proof.
  revert st o. induction fields as [|fields IH]; intros st o H; cbn [eachField_loop] in H |- *;
    (destruct (done_ bytes o); [injection H as -> ->; exists []; split_and!;
      [intros; by rewrite app_nil_r|constructor|by intros ? ?%not_elem_of_nil|auto]|]); [done|].
  destruct (uint32 bytes o) as [[tag o1]|e] eqn:Et; cbn [result_bind] in H |- *; [|done].
  destruct (Z.shiftr tag 3 =? 0); [done|].
  destruct (vOtp bytes st (Z.shiftr tag 3) (Z.land tag 7) o1) as [[st1 o2]|e] eqn:Ev; cbn [result_bind] in H; [|done].
  destruct (visitOtp_sim _ _ _ _ _ _ _ Ev) as (-> & Hnew & Hset). cbn [result_bind].
  destruct (o2 <=? o)%nat; [done|]. destruct (IH _ _ H) as (fs & Hfs & Hnd & Hun & Hin).
  set (f := Z.shiftr tag 3) in *. exists (f :: fs). split_and!.
  - intros seen. rewrite Hfs, <- app_assoc. done.
  - cbn. destruct (modelled f) eqn:Ef; [|done]. constructor; [|done].
    intros Hf%list_elem_of_In%filter_In. destruct Hf as [Hf%list_elem_of_In _].
    specialize (Hun f Hf Ef). by rewrite Hset, Z.eqb_refl, orb_true_r in Hun.
  - intros g [->|Hg]%elem_of_cons Hm; [by apply Hnew|]. specialize (Hun g Hg Hm).
    rewrite Hset in Hun by done. by apply orb_false_iff in Hun as [? _].
  - intros g Hm Hg. destruct (Hin g Hm Hg) as [H1|H1]; [|right; by right].
    rewrite Hset in H1 by done. apply orb_true_iff in H1 as [?|Eg%Z.eqb_eq]; [by left|subst g; right; left].
Qed.

(** A duplicate is never read: in the bytes of an accepted account no field the reader
    models occurs twice, so no other reader can see a different key, label, algorithm, digit
    count, type or counter by taking the last one; and the key field is there. *)
Theorem readOtpParameters_no_duplicates bytes entry :
  readOtpParameters utf8_decode normalize_nfc bytes = Ok entry ->
  ∃ fields, message_fields bytes = Ok fields /\ NoDup (List.filter modelled fields) /\ 1 ∈ fields.
Proof.
  unfold readOtpParameters, message_fields.
  destruct (eachField bytes (vOtp bytes) no_fields) as [[st o]|e] eqn:E; cbn [result_bind]; [|done].
  destruct (read_secret st) as [s|] eqn:Es; [|done]. intros _.
  destruct (loop_sim bytes _ _ _ _ _ E) as (fs & Hfs & Hnd & _ & Hin).
  exists fs. unfold eachField. rewrite Hfs. split_and!; [done..|].
  destruct (Hin 1) as [H|H]; [done|unfold is_set; rewrite Es; reflexivity|discriminate H|done].
Qed.
End duplicates.

Lemma readOtpParameters_no_duplicates_witness :
  ∃ fields, message_fields [10; 2; 1; 2; 40; 2; 80; 0; 80; 0] = Ok fields /\
    NoDup (List.filter modelled fields) /\ 1 ∈ fields.
Proof.
  apply (readOtpParameters_no_duplicates id id _
    {| entry_type := totp; secret := [1; 2]; name := []; issuer := []; algorithm := SHA1;
       digits := eight; counter := None |}).
  vm_compute. reflexivity.
Defined.
