(* ===== verification/MigrationRoundTrip.v ===== *)
(** The export reader reads what a protobuf encoder writes.  [encode_payload] writes a payload
    the way protobuf does: minimal varints, negative numbers sign-extended to 64 bits, fields
    in order, default values left out. *)
From S2P Require Import Prelude MigrationReader MigrationReaderSpec.
Local Open Scope Z_scope.

(** ** The encoder *)

Fixpoint enc_varint_loop (more : nat) (n : Z) : list Z :=
  match more with
  | O => [n]
  | S more => if n <? 128 then [n] else (n mod 128 + 128) :: enc_varint_loop more (n / 128)
  end.

Definition enc_varint (n : Z) : list Z := enc_varint_loop 9 n.
Definition enc_int32 (n : Z) : list Z := enc_varint (if n <? 0 then n + 2 ^ 64 else n).

(** One field on the wire: its number, its wire type and its payload. *)
Definition chunk : Type := Z * Z * list Z.
Definition enc_chunk (c : chunk) : list Z :=
  let '(f, w, payload) := c in enc_varint (f * 8 + w) ++ payload.
Definition enc_message (cs : list chunk) : list Z := concat (map enc_chunk cs).

Definition int_chunk (f n : Z) : list chunk := if n =? 0 then [] else [(f, 0, enc_int32 n)].
Definition bytes_chunk (f : Z) (b : list Z) : chunk := (f, 2, enc_varint (Z.of_nat (length b)) ++ b).

Record RawOtp := {
  raw_secret : list Z;
  raw_name : list Z;
  raw_issuer : list Z;
  raw_algorithm : Z;
  raw_digits : Z;
  raw_type : Z;
  raw_counter : Z;
}.

Definition opt_bytes_chunk (f : Z) (b : list Z) : list chunk :=
  if (length b =? 0)%nat then [] else [bytes_chunk f b].

Definition otp_chunks (r : RawOtp) : list chunk :=
  [bytes_chunk 1 (raw_secret r)] ++ opt_bytes_chunk 2 (raw_name r) ++ opt_bytes_chunk 3 (raw_issuer r)
  ++ int_chunk 4 (raw_algorithm r) ++ int_chunk 5 (raw_digits r) ++ int_chunk 6 (raw_type r)
  ++ (if raw_counter r =? 0 then [] else [(7, 0, enc_varint (raw_counter r))]).

Record RawPayload := {
  raw_entries : list RawOtp;
  raw_version : Z;
  raw_size : Z;
  raw_index : Z;
  raw_id : Z;
}.

Definition payload_chunks (p : RawPayload) : list chunk :=
  map (λ r, bytes_chunk 1 (enc_message (otp_chunks r))) (raw_entries p)
  ++ int_chunk 2 (raw_version p) ++ int_chunk 3 (raw_size p) ++ int_chunk 4 (raw_index p)
  ++ int_chunk 5 (raw_id p).

Definition encode_payload (p : RawPayload) : list Z := enc_message (payload_chunks p).

(** ** Varints *)

Lemma byte_here pre b rest : byte (pre ++ b :: rest) (length pre) = Ok (b, S (length pre)).
Proof. unfold byte. by rewrite lookup_app_here. Qed.

Lemma land_127 b : Z.land b 127 = b mod 128.
Proof. apply (land_low b 7). lia. Qed.

(** The continuation bit of a byte. *)
Lemma land_128 b : 0 <= b < 256 -> (Z.land b 128 =? 0) = (b <? 128).
Proof.
  intros Hb.
  assert (forallb (λ b, Bool.eqb (Z.land b 128 =? 0) (b <? 128)) (seqZ 0 256) = true) as H
    by (vm_compute; reflexivity).
  rewrite forallb_forall in H. apply Bool.eqb_prop, H, list_elem_of_In, elem_of_seqZ. lia.
Qed.

Lemma varint_loop_enc reads read value shift n pre rest :
  shift + 7 = 7 * Z.of_nat read -> (1 <= read)%nat -> (read + reads = 10)%nat ->
  0 <= value < 2 ^ shift -> 0 <= n -> n * 2 ^ shift < 2 ^ 64 ->
  varint_loop (pre ++ enc_varint_loop reads n ++ rest) reads read value shift (length pre)
  = Ok ((value + n * 2 ^ shift, (read + length (enc_varint_loop reads n) - 1)%nat),
        (length pre + length (enc_varint_loop reads n))%nat).
Proof.
  revert read value shift n pre. induction reads as [|reads IH]; intros read value shift n pre Hs Hr Hrr Hv Hn Hb.
  - cbn [enc_varint_loop varint_loop app]. rewrite byte_here. cbn [result_bind].
    assert (shift = 63) as E by lia. rewrite E in *. change (2 ^ 63) with 9223372036854775808 in *.
    change (2 ^ 64) with 18446744073709551616 in *. unfold MAX_FINAL_VARINT_BYTE.
    rewrite (proj2 (Z.ltb_ge 1 n)) by lia. rewrite lor_shiftl by (rewrite ?E; lia).
    unfold MAX_VARINT_BYTES. cbn [length]. do 3 f_equal; lia.
  - cbn [enc_varint_loop]. destruct (Z.ltb_spec n 128) as [Hlt|Hge]; cbn [app varint_loop]; rewrite byte_here;
      cbn [result_bind]; rewrite land_127, land_128 by (pose proof (Z.mod_pos_bound n 128); lia).
    + rewrite (proj2 (Z.ltb_lt n 128)) by done. rewrite lor_shiftl by lia.
      rewrite Z.mod_small by lia. cbn [length]. do 3 f_equal; lia.
    + rewrite (proj2 (Z.ltb_ge _ 128)) by (pose proof (Z.mod_pos_bound n 128); lia).
      replace ((n mod 128 + 128) mod 128) with (n mod 128)
        by (rewrite <- (Z.mul_1_l 128) at 3; rewrite Z.mod_add, Z.mod_mod by lia; done).
      rewrite lor_shiftl by lia.
      pose proof (Z.mod_pos_bound n 128 ltac:(lia)) as Hm. pose proof (Z.div_mod n 128 ltac:(lia)) as Hd.
      assert (2 ^ (shift + 7) = 2 ^ shift * 128) as Ep by (rewrite Z.pow_add_r by lia; done).
      assert (0 < 2 ^ shift) by (apply Z.pow_pos_nonneg; lia).
      pose proof (IH (S read) (value + n mod 128 * 2 ^ shift) (shift + 7) (n / 128) (pre ++ [n mod 128 + 128])) as H1.
      rewrite <- app_assoc, length_app in H1. cbn [app length] in H1. rewrite Nat.add_1_r in H1. rewrite H1.
      * cbn [length]. rewrite Ep.
        assert (n * 2 ^ shift = (128 * (n / 128) + n mod 128) * 2 ^ shift) as En by (f_equal; lia).
        apply f_equal. apply f_equal2; [apply f_equal2; lia|lia].
      * lia.
      * lia.
      * lia.
      * rewrite Ep. nia.
      * apply Z.div_pos; lia.
      * rewrite Ep. nia.
Qed.

Lemma spelledVarint_enc n pre rest : 0 <= n < 2 ^ 64 ->
  spelledVarint (pre ++ enc_varint n ++ rest) (length pre)
  = Ok ((n, length (enc_varint n)), (length pre + length (enc_varint n))%nat).
Proof.
  intros Hn. unfold spelledVarint, enc_varint, MAX_VARINT_BYTES. change (10 - 1)%nat with 9%nat.
  rewrite varint_loop_enc by (cbn; lia). rewrite Z.pow_0_r, Z.mul_1_r, Z.add_0_l. do 3 f_equal. lia.
Qed.

(** A value below [2 ^ (7 k)] takes at most [k] bytes. *)
Lemma length_enc_varint_loop more n k : (1 <= k)%nat -> 0 <= n < 128 ^ Z.of_nat k ->
  (length (enc_varint_loop more n) <= k)%nat.
Proof.
  revert n k. induction more as [|more IH]; intros n k Hk Hn; cbn [enc_varint_loop]; [cbn; lia|].
  destruct (Z.ltb_spec n 128); [cbn; lia|]. cbn [length].
  destruct k as [|[|k]]; [lia|change (128 ^ Z.of_nat 1) with 128 in Hn; lia|].
  apply le_n_S, IH; [lia|]. rewrite (Nat2Z.inj_succ (S k)), Z.pow_succ_r in Hn by lia.
  split; [apply Z.div_pos; lia|apply Z.div_lt_upper_bound; lia].
Qed.

Lemma length_enc_varint_32 n : 0 <= n < 2 ^ 32 -> (length (enc_varint n) <= 5)%nat.
Proof. intros Hn. apply length_enc_varint_loop; [lia|]. change (128 ^ Z.of_nat 5) with (2 ^ 35). lia. Qed.

Lemma uint32_enc n pre rest : 0 <= n < 2 ^ 32 ->
  uint32 (pre ++ enc_varint n ++ rest) (length pre) = Ok (n, (length pre + length (enc_varint n))%nat).
Proof.
  intros Hn. unfold uint32. rewrite spelledVarint_enc by lia. cbn [result_bind].
  pose proof (length_enc_varint_32 n Hn). unfold MAX_UINT32_VARINT_BYTES, MAX_UINT32.
  rewrite (proj2 (Nat.ltb_ge _ _)), (proj2 (Z.ltb_ge _ _)) by lia. done.
Qed.

Lemma int32_enc n pre rest : - 2 ^ 31 <= n < 2 ^ 31 ->
  int32 (pre ++ enc_int32 n ++ rest) (length pre) = Ok (n, (length pre + length (enc_int32 n))%nat).
Proof.
  intros Hn. unfold int32, enc_int32, MAX_INT32, MIN_SIGN_EXTENDED_INT32.
  destruct (Z.ltb_spec n 0) as [Hneg|Hpos].
  - rewrite spelledVarint_enc by lia. cbn [result_bind].
    rewrite (proj2 (Z.leb_gt _ _)) by lia. cbn [andb]. rewrite (proj2 (Z.leb_le _ _)) by lia.
    unfold asInt64. replace (n + 2 ^ 64 + 2 ^ 63) with (n + 2 ^ 63 + 1 * 2 ^ 64) by lia.
    rewrite Z.mod_add, Z.mod_small by lia. do 2 f_equal. lia.
  - rewrite spelledVarint_enc by lia. cbn [result_bind].
    pose proof (length_enc_varint_32 n ltac:(lia)). unfold MAX_UINT32_VARINT_BYTES.
    rewrite (proj2 (Z.leb_le _ _)), (proj2 (Nat.leb_le _ _)) by lia. done.
Qed.

Lemma varint_enc n pre rest : 0 <= n < 2 ^ 64 ->
  varint (pre ++ enc_varint n ++ rest) (length pre) = Ok (n, (length pre + length (enc_varint n))%nat).
Proof. intros Hn. unfold varint. by rewrite spelledVarint_enc. Qed.

Lemma length_delimited_enc b pre rest : Z.of_nat (length b) < 2 ^ 32 ->
  length_delimited (pre ++ (enc_varint (Z.of_nat (length b)) ++ b) ++ rest) (length pre)
  = Ok (b, (length pre + length (enc_varint (Z.of_nat (length b)) ++ b))%nat).
Proof.
  intros Hb. unfold length_delimited, length_prefix. rewrite <- app_assoc.
  rewrite uint32_enc by lia. cbn [result_bind]. rewrite Nat2Z.id. unfold slice_bytes.
  rewrite !length_app, (proj2 (Nat.ltb_ge _ _)) by lia.
  rewrite (app_assoc pre), <- length_app, slice_mid. do 2 f_equal. rewrite !length_app. lia.
Qed.

(** ** Messages *)

Definition Visitor (St : Type) : Type := list Z -> St -> Z -> Z -> nat -> Reading St.

(** The callback reads a chunk's payload, wherever it lies, and moves on. *)
Definition visits {St} (visit : Visitor St) (st : St) (c : chunk) (st' : St) : Prop :=
  let '(f, w, payload) := c in
  1 <= f < 2 ^ 29 /\ 0 <= w < 8 /\
  ∀ pre rest, visit (pre ++ payload ++ rest) st f w (length pre) = Ok (st', (length pre + length payload)%nat).

Inductive steps {St} (visit : Visitor St) : St -> list chunk -> St -> Prop :=
  | steps_nil st : steps visit st [] st
  | steps_cons st c st1 cs st2 : visits visit st c st1 -> steps visit st1 cs st2 -> steps visit st (c :: cs) st2.

Lemma steps_app {St} (visit : Visitor St) st a st1 b st2 :
  steps visit st a st1 -> steps visit st1 b st2 -> steps visit st (a ++ b) st2.
Proof. induction 1; [done|]. intros. cbn. econstructor; eauto. Qed.

Lemma steps_one {St} (visit : Visitor St) st c st' : visits visit st c st' -> steps visit st [c] st'.
Proof. intros H. econstructor; [exact H|constructor]. Qed.

Lemma length_enc_varint_pos n : (1 <= length (enc_varint n))%nat.
Proof. unfold enc_varint. cbn [enc_varint_loop]. case_match; cbn [length]; lia. Qed.

Lemma tag_split f w : 0 <= w < 8 -> Z.shiftr (f * 8 + w) 3 = f /\ Z.land (f * 8 + w) 7 = w.
Proof.
  intros Hw. rewrite Z.shiftr_div_pow2 by lia. change 7 with (2 ^ 3 - 1). rewrite land_low by lia.
  change (2 ^ 3) with 8. split.
  - rewrite Z.div_add_l, Z.div_small by lia. lia.
  - rewrite Z.add_comm, Z.mod_add by lia. by apply Z.mod_small.
Qed.

Lemma eachField_loop_steps {St} (visit : Visitor St) st cs st' : steps visit st cs st' ->
  ∀ fields pre, (length cs <= fields)%nat ->
  eachField_loop (pre ++ enc_message cs) (visit (pre ++ enc_message cs)) fields st (length pre)
  = Ok (st', length (pre ++ enc_message cs)).
Proof.
  induction 1 as [st|st [[f w] payload] st1 cs st2 Hv _ IH]; intros fields pre Hf.
  - unfold enc_message. cbn [map concat]. rewrite app_nil_r.
    destruct fields; cbn [eachField_loop]; unfold done_; by rewrite Nat.leb_refl.
  - destruct Hv as (Hf1 & Hw & Hv). destruct fields as [|fields]; [cbn in Hf; lia|].
    unfold enc_message. cbn [map concat]. fold (enc_message cs). cbn [enc_chunk].
    set (tag := enc_varint (f * 8 + w)). rewrite <- app_assoc.
    assert (1 <= length tag)%nat as Htag by apply length_enc_varint_pos.
    cbn [eachField_loop]. unfold done_. rewrite !length_app, (proj2 (Nat.leb_gt _ _)) by lia.
    pose proof (uint32_enc (f * 8 + w) pre (payload ++ enc_message cs) ltac:(lia)) as Hu. fold tag in Hu.
    rewrite Hu. cbn [result_bind].
    destruct (tag_split f w Hw) as [-> ->]. rewrite (proj2 (Z.eqb_neq f 0)) by lia.
    pose proof (Hv (pre ++ tag) (enc_message cs)) as Hvis. rewrite <- app_assoc, length_app in Hvis.
    rewrite Hvis. cbn [result_bind]. rewrite (proj2 (Nat.leb_gt _ _)) by lia.
    pose proof (IH fields ((pre ++ tag) ++ payload) ltac:(cbn in Hf; lia)) as Hrest.
    rewrite !length_app, <- !app_assoc in Hrest. rewrite Hrest. do 2 f_equal. lia.
Qed.

Lemma eachField_steps {St} (visit : Visitor St) st cs st' :
  steps visit st cs st' -> (length cs <= 256)%nat ->
  eachField (enc_message cs) (visit (enc_message cs)) st = Ok (st', length (enc_message cs)).
Proof. intros H Hl. apply (eachField_loop_steps visit st cs st' H MAX_FIELDS_PER_MESSAGE []). exact Hl. Qed.

(** ** The two messages *)

Section roundtrip.
Context (utf8_decode : list Z -> jsstr) (normalize_nfc : jsstr -> jsstr).
Abbreviation label := (decodeLabel utf8_decode normalize_nfc).
Abbreviation vOtp := (visitOtp utf8_decode normalize_nfc).
Abbreviation vPay := (visitPayload utf8_decode normalize_nfc).

(** What an account's raw fields mean. *)
Definition opt_label (b : list Z) : result MigrationError (option jsstr) :=
  if (length b =? 0)%nat then Ok None else match label b with Ok l => Ok (Some l) | Throw e => Throw e end.

Definition raw_otp_ok (r : RawOtp) : Prop :=
  (1 <= length (raw_secret r) <= 128)%nat /\ (length (raw_name r) <= 512)%nat /\
  (length (raw_issuer r) <= 512)%nat /\ 0 <= raw_algorithm r <= 4 /\ 0 <= raw_digits r <= 2 /\
  0 <= raw_type r <= 2 /\ 0 <= raw_counter r < 2 ^ 64.

(** The label bytes as text; no bytes is no label. *)
Definition label_text (b : list Z) : jsstr :=
  if (length b =? 0)%nat then [] else match label b with Ok l => l | Throw _ => [] end.

Definition entry_of (r : RawOtp) : MigrationEntry :=
  let '(issuer, account) := splitLabel (label_text (raw_name r)) (label_text (raw_issuer r)) in
  {| entry_type := default totp (OTP_TYPES (raw_type r));
     secret := raw_secret r; name := account; issuer := issuer;
     algorithm := default SHA1 (ALGORITHMS (raw_algorithm r));
     digits := default six (DIGIT_COUNTS (raw_digits r));
     counter := if (raw_type r =? 1) && negb (raw_counter r =? 0) then Some (num (raw_counter r)) else None |}.

Lemma label_ok b : (length b <= 512)%nat -> ∃ l, label b = Ok l.
Proof. intros H. unfold decodeLabel, MAX_LABEL_BYTES. rewrite (proj2 (Nat.ltb_ge _ _)) by done. eauto. Qed.

Lemma step_secret s n i a d t c : (length s <= 512)%nat ->
  steps vOtp (Build_OtpFields None n i a d t c) [bytes_chunk 1 s] (Build_OtpFields (Some s) n i a d t c).
Proof.
  intros Hs. apply steps_one. split_and!; try lia. intros pre rest. cbn [visitOtp].
  change (1 =? 1) with true. change (2 =? 2) with true. rewrite bool_decide_false by (by intros []). cbn [negb orb].
  by rewrite length_delimited_enc by lia.
Qed.

Lemma step_name s b i a d t c : (length b <= 512)%nat ->
  ∃ n, steps vOtp (Build_OtpFields s None i a d t c) (opt_bytes_chunk 2 b) (Build_OtpFields s n i a d t c) /\
    default [] n = label_text b.
Proof.
  intros Hb. unfold opt_bytes_chunk, label_text. destruct (length b =? 0)%nat; [exists None; split; [constructor|done]|].
  destruct (label_ok b Hb) as [l Hl]. rewrite Hl. exists (Some l). split; [|done].
  apply steps_one. split_and!; try lia. intros pre rest. cbn [visitOtp].
  change (2 =? 1) with false. change (2 =? 2) with true. cbn iota. rewrite bool_decide_false by (by intros []). cbn [negb orb].
  rewrite length_delimited_enc by lia. cbn [result_bind]. by rewrite Hl.
Qed.

Lemma step_issuer s n b a d t c : (length b <= 512)%nat ->
  ∃ i, steps vOtp (Build_OtpFields s n None a d t c) (opt_bytes_chunk 3 b) (Build_OtpFields s n i a d t c) /\
    default [] i = label_text b.
Proof.
  intros Hb. unfold opt_bytes_chunk, label_text. destruct (length b =? 0)%nat; [exists None; split; [constructor|done]|].
  destruct (label_ok b Hb) as [l Hl]. rewrite Hl. exists (Some l). split; [|done].
  apply steps_one. split_and!; try lia. intros pre rest. cbn [visitOtp].
  change (3 =? 1) with false. change (3 =? 2) with false. change (3 =? 3) with true.
  change (2 =? 2) with true. cbn iota. rewrite bool_decide_false by (by intros []). cbn [negb orb].
  rewrite length_delimited_enc by lia. cbn [result_bind]. by rewrite Hl.
Qed.

Lemma step_int {St} (visit : Visitor St) f n st st' :
  1 <= f < 2 ^ 29 -> - 2 ^ 31 <= n < 2 ^ 31 -> (n = 0 -> st' = st) ->
  (n <> 0 -> ∀ bytes o o', int32 bytes o = Ok (n, o') -> visit bytes st f 0 o = Ok (st', o')) ->
  steps visit st (int_chunk f n) st'.
Proof.
  intros Hf Hn H0 Hv. unfold int_chunk. destruct (Z.eqb_spec n 0) as [E|E]; [rewrite H0 by done; constructor|].
  apply steps_one. split_and!; try lia. intros pre rest. apply Hv; [done|]. by apply int32_enc.
Qed.

Lemma otp_steps r : raw_otp_ok r ->
  ∃ n i a d t c, steps vOtp no_fields (otp_chunks r) (Build_OtpFields (Some (raw_secret r)) n i a d t c) /\
    default [] n = label_text (raw_name r) /\ default [] i = label_text (raw_issuer r) /\
    default SHA1 a = default SHA1 (ALGORITHMS (raw_algorithm r)) /\
    default six d = default six (DIGIT_COUNTS (raw_digits r)) /\
    default totp t = default totp (OTP_TYPES (raw_type r)) /\
    (t = Some hotp <-> raw_type r = 1) /\
    c = (if raw_counter r =? 0 then None else Some (num (raw_counter r))).
Proof.
  intros (Hs & Hn & Hi & Ha & Hd & Ht & Hc). unfold otp_chunks, no_fields.
  destruct (step_name (Some (raw_secret r)) (raw_name r) None None None None None Hn) as (n & Sn & En).
  destruct (step_issuer (Some (raw_secret r)) n (raw_issuer r) None None None None Hi) as (i & Si & Ei).
  set (a := if raw_algorithm r =? 0 then None else ALGORITHMS (raw_algorithm r)).
  set (d := if raw_digits r =? 0 then None else DIGIT_COUNTS (raw_digits r)).
  set (t := if raw_type r =? 0 then None else OTP_TYPES (raw_type r)).
  set (c := if raw_counter r =? 0 then None else Some (num (raw_counter r))).
  exists n, i, a, d, t, c. split.
  - repeat (eapply steps_app; [first [apply step_secret; lia | exact Sn | exact Si]|]).
    eapply steps_app; [|eapply steps_app; [|eapply steps_app]].
    + apply (step_int _ _ _ _ (Build_OtpFields (Some (raw_secret r)) n i a None None None)); [lia..| |].
      * intros E. unfold a. by rewrite E.
      * intros E bytes o o' H. cbn [visitOtp]. cbn -[int32]. rewrite H. cbn [result_bind]. unfold a.
        rewrite (proj2 (Z.eqb_neq _ _) E).
        assert (raw_algorithm r = 1 \/ raw_algorithm r = 2 \/ raw_algorithm r = 3 \/ raw_algorithm r = 4) as Hcase by lia.
        by repeat destruct Hcase as [->|Hcase]; [..|rewrite Hcase].
    + apply (step_int _ _ _ _ (Build_OtpFields (Some (raw_secret r)) n i a d None None)); [lia..| |].
      * intros E. unfold d. by rewrite E.
      * intros E bytes o o' H. cbn [visitOtp]. cbn -[int32]. rewrite H. cbn [result_bind]. unfold d.
        rewrite (proj2 (Z.eqb_neq _ _) E).
        assert (raw_digits r = 1 \/ raw_digits r = 2) as Hcase by lia. by destruct Hcase as [-> | ->].
    + apply (step_int _ _ _ _ (Build_OtpFields (Some (raw_secret r)) n i a d t None)); [lia..| |].
      * intros E. unfold t. by rewrite E.
      * intros E bytes o o' H. cbn [visitOtp]. cbn -[int32]. rewrite H. cbn [result_bind]. unfold t.
        rewrite (proj2 (Z.eqb_neq _ _) E).
        assert (raw_type r = 1 \/ raw_type r = 2) as Hcase by lia. by destruct Hcase as [-> | ->].
    + unfold c. destruct (raw_counter r =? 0); [constructor|]. apply steps_one. split_and!; try lia.
      intros pre rest. cbn -[varint enc_varint]. by rewrite varint_enc.
  - unfold a, d, t, c. split_and!; try done.
    + by destruct (Z.eqb_spec (raw_algorithm r) 0) as [->|].
    + by destruct (Z.eqb_spec (raw_digits r) 0) as [->|].
    + by destruct (Z.eqb_spec (raw_type r) 0) as [->|].
    + assert (raw_type r = 0 \/ raw_type r = 1 \/ raw_type r = 2) as Hcase by lia.
      by destruct Hcase as [-> | [-> | ->]].
Qed.

Lemma length_int_chunk f n : (length (int_chunk f n) <= 1)%nat.
Proof. unfold int_chunk. case_match; cbn; lia. Qed.

Lemma length_otp_chunks r : (length (otp_chunks r) <= 7)%nat.
Proof.
  unfold otp_chunks, opt_bytes_chunk. rewrite !length_app.
  pose proof (length_int_chunk 4 (raw_algorithm r)). pose proof (length_int_chunk 5 (raw_digits r)).
  pose proof (length_int_chunk 6 (raw_type r)). repeat case_match; cbn [length]; lia.
Qed.

Lemma readOtpParameters_enc r : raw_otp_ok r ->
  readOtpParameters utf8_decode normalize_nfc (enc_message (otp_chunks r)) = Ok (entry_of r).
Proof.
  intros Hr. destruct (otp_steps r Hr) as (n & i & a & d & t & c & Hsteps & En & Ei & Ea & Ed & Et & Eh & Ec).
  unfold readOtpParameters. rewrite (eachField_steps _ _ _ _ Hsteps) by (pose proof (length_otp_chunks r); lia).
  cbn [result_bind read_secret read_name read_issuer read_algorithm read_digits read_type read_counter].
  destruct Hr as (Hs & _). unfold MIN_SECRET_BYTES, MAX_SECRET_BYTES.
  rewrite !(proj2 (Nat.ltb_ge _ _)) by lia. rewrite En, Ei. unfold entry_of.
  destruct (splitLabel _ _) as [iss acc]. rewrite Ea, Ed, Et, Ec. do 2 f_equal.
  destruct (Z.eqb_spec (raw_type r) 1) as [E|E].
  - rewrite bool_decide_true by tauto. by destruct (raw_counter r =? 0).
  - rewrite bool_decide_false by tauto. done.
Qed.

(** *** The payload *)

Definition raw_payload_ok (p : RawPayload) : Prop :=
  (1 <= length (raw_entries p) <= 64)%nat /\ Forall raw_otp_ok (raw_entries p) /\
  0 <= raw_version p < 2 ^ 31 /\ 0 <= raw_size p <= 32 /\
  0 <= raw_index p < Z.max 1 (raw_size p) /\ - 2 ^ 31 <= raw_id p < 2 ^ 31 /\
  (length (encode_payload p) <= 4096)%nat.

Definition payload_of (p : RawPayload) : MigrationPayload :=
  {| entries := map entry_of (raw_entries p); version := raw_version p;
     batchSize := Z.max 1 (raw_size p); batchIndex := raw_index p; batchId := raw_id p |}.

Lemma entries_steps rs es v s i d :
  (length es + length rs <= 64)%nat -> Forall raw_otp_ok rs ->
  Forall (λ r, Z.of_nat (length (enc_message (otp_chunks r))) < 2 ^ 32) rs ->
  steps vPay (Build_PayloadFields es v s i d)
    (map (λ r, bytes_chunk 1 (enc_message (otp_chunks r))) rs)
    (Build_PayloadFields (es ++ map entry_of rs) v s i d).
Proof.
  intros Hl Hrs. revert es Hl. induction Hrs as [|r rs Hr _ IH]; intros es Hl Hsz; cbn [map].
  - rewrite app_nil_r. constructor.
  - apply Forall_cons in Hsz as [Hsz1 Hsz]. cbn [length] in Hl.
    econstructor; [|rewrite (cons_middle (entry_of r)), app_assoc; apply IH; [rewrite length_app; cbn; lia|done]].
    split_and!; try lia. intros pre rest. cbn [visitPayload].
    change (1 =? 1) with true. change (2 =? 2) with true. cbn [negb]. unfold MAX_OTP_PARAMETERS.
    rewrite (proj2 (Nat.leb_gt _ _)) by lia. rewrite length_delimited_enc by done. cbn [result_bind].
    by rewrite readOtpParameters_enc.
Qed.

Lemma enc_message_app a b : enc_message (a ++ b) = enc_message a ++ enc_message b.
Proof. unfold enc_message. by rewrite map_app, concat_app. Qed.

(** Every part of an encoded payload is shorter than the whole. *)
Lemma entry_sizes rs : (length (enc_message (map (λ r, bytes_chunk 1 (enc_message (otp_chunks r))) rs)) <= 4096)%nat ->
  Forall (λ r, Z.of_nat (length (enc_message (otp_chunks r))) < 2 ^ 32) rs.
Proof.
  induction rs as [|r rs IH]; [constructor|]. cbn [map]. unfold enc_message at 1. cbn [map concat].
  fold (enc_message (map (λ r, bytes_chunk 1 (enc_message (otp_chunks r))) rs)).
  unfold bytes_chunk at 1. cbn [enc_chunk]. rewrite !length_app. intros H. constructor; [lia|apply IH; lia].
Qed.

(** The reader inverts the encoder: every payload protobuf can write within the bounds
    (any keys, label bytes, 64-bit counters, negative batch ids) is read back field for field,
    with the documented meaning of absent fields. *)
Theorem readMigrationPayload_encode p :
  raw_payload_ok p ->
  readMigrationPayload utf8_decode normalize_nfc (encode_payload p) = Ok (payload_of p).
Proof.
  intros (Hn & Hes & Hv & Hs & Hi & Hid & Hlen).
  assert (steps vPay (Build_PayloadFields [] 0 0 0 0) (payload_chunks p)
    (Build_PayloadFields (map entry_of (raw_entries p)) (raw_version p) (raw_size p) (raw_index p) (raw_id p))) as Hsteps.
  { unfold payload_chunks. eapply steps_app; [apply entries_steps; [cbn; lia|done|]|].
    { apply entry_sizes. unfold encode_payload, payload_chunks in Hlen.
      rewrite enc_message_app, length_app in Hlen. lia. }
    cbn [app]. set (es := map entry_of _).
    apply (steps_app _ _ _ (Build_PayloadFields es (raw_version p) 0 0 0));
      [|apply (steps_app _ _ _ (Build_PayloadFields es (raw_version p) (raw_size p) 0 0));
      [|apply (steps_app _ _ _ (Build_PayloadFields es (raw_version p) (raw_size p) (raw_index p) 0))]];
      (apply step_int; [lia|lia|intros ->; reflexivity|]);
      intros _ bytes o o' H; cbn -[int32]; rewrite H; cbn [result_bind]; try done;
      unfold nonNegative; rewrite (proj2 (Z.ltb_ge _ 0)) by lia; reflexivity. }
  unfold readMigrationPayload, MAX_MIGRATION_PAYLOAD_BYTES. rewrite (proj2 (Nat.ltb_ge _ _)) by lia.
  unfold encode_payload. rewrite (eachField_steps _ _ _ _ Hsteps).
  2: { unfold payload_chunks. rewrite !length_app, length_map.
       pose proof (length_int_chunk 2 (raw_version p)). pose proof (length_int_chunk 3 (raw_size p)).
       pose proof (length_int_chunk 4 (raw_index p)). pose proof (length_int_chunk 5 (raw_id p)). lia. }
  cbn [catchRange result_bind read_entries read_version read_batchSize read_batchIndex read_batchId].
  unfold payload_of. destruct (raw_entries p) as [|r rs]; [cbn in Hn; lia|]. cbn [map]. unfold MAX_BATCH_SIZE.
  assert ((if raw_size p =? 0 then 1 else raw_size p) = Z.max 1 (raw_size p)) as ->
    by (destruct (Z.eqb_spec (raw_size p) 0); lia).
  rewrite (proj2 (Z.ltb_ge _ _)), (proj2 (Z.leb_gt _ _)) by lia. done.
Qed.
End roundtrip.

Lemma readMigrationPayload_encode_witness :
  let r := {| raw_secret := [222; 173; 190; 239]; raw_name := js "Acme:alice"; raw_issuer := js "Acme";
              raw_algorithm := 1; raw_digits := 1; raw_type := 1; raw_counter := 300 |} in
  let p := {| raw_entries := [r]; raw_version := 1; raw_size := 2; raw_index := 1; raw_id := -7 |} in
  length (encode_payload p) = 52%nat /\
  entries (payload_of id id p) = [{| entry_type := hotp; secret := [222; 173; 190; 239]; name := js "alice";
    issuer := js "Acme"; algorithm := SHA1; digits := six; counter := Some (js "300") |}] /\
  readMigrationPayload id id (encode_payload p) = Ok (payload_of id id p).
Proof.
  split; [vm_compute; reflexivity|]. split; [vm_compute; reflexivity|].
  apply (readMigrationPayload_encode id id). split_and!; try (cbn; lia).
  - repeat constructor; cbn; lia.
  - apply Nat.leb_le. vm_compute. reflexivity.
Defined.
