(* ===== verification/UriComponent.v ===== *)
(** The [encodeURIComponent] and [decodeURIComponent] of ECMA-262, with the UTF-8 they are built
    on: what lib/totp.ts and services/totpImport/migrationUri.ts use of the language to put a
    label into a URI and take it back out. *)
From S2P Require Import Prelude.
Local Open Scope Z_scope.

(** ** UTF-8 *)

(** The octets of a scalar value. *)
Definition utf8 (p : Z) : list Z :=
  if p <? 128 then [p]
  else if p <? 2048 then [192 + p / 64; 128 + p mod 64]
  else if p <? 65536 then [224 + p / 4096; 128 + p / 64 mod 64; 128 + p mod 64]
  else [240 + p / 262144; 128 + p / 4096 mod 64; 128 + p / 64 mod 64; 128 + p mod 64].

(** The code point of a surrogate pair. *)
Definition pair_point (h l : Z) : Z := 65536 + (h - 55296) * 1024 + (l - 56320).

(** A string whose surrogates are all paired. *)
Fixpoint well_formed (s : jsstr) : bool :=
  match s with
  | [] => true
  | c :: r =>
      if is_high c then match r with d :: r' => is_low d && well_formed r' | [] => false end
      else negb (is_low c) && well_formed r
  end.

(** ** Encoding *)

Definition is_alnum (c : Z) : bool :=
  is_digit c || ((65 <=? c) && (c <=? 90)) || ((97 <=? c) && (c <=? 122)).

(** The characters left as they are: letters, digits and [-_.!~*'()]. *)
Definition unreserved (c : Z) : bool := is_alnum c || existsb (Z.eqb c) (js "-_.!~*'()").

Definition hex_char (n : Z) : Z := if n <? 10 then 48 + n else 55 + n.

Definition percent (b : Z) : jsstr := [37; hex_char (b / 16); hex_char (b mod 16)].
Definition percents (bs : list Z) : jsstr := mjoin (map percent bs).

(** [None] is the [URIError] of a lone surrogate. *)
Fixpoint encodeURIComponent (s : jsstr) : option jsstr :=
  match s with
  | [] => Some []
  | c :: r =>
      if unreserved c then option_map (cons c) (encodeURIComponent r)
      else if is_high c then
        match r with
        | d :: r' =>
            if is_low d then option_map (app (percents (utf8 (pair_point c d)))) (encodeURIComponent r')
            else None
        | [] => None
        end
      else if is_low c then None
      else option_map (app (percents (utf8 c))) (encodeURIComponent r)
  end.

(** ** Decoding *)

Definition hex_value (c : Z) : option Z :=
  if is_digit c then Some (c - 48)
  else if (65 <=? c) && (c <=? 70) then Some (c - 55)
  else if (97 <=? c) && (c <=? 102) then Some (c - 87)
  else None.

(** A unit copied through, or the octet of an escape. *)
Inductive UriToken := Unit_ (c : Z) | Octet (b : Z).

Fixpoint uri_tokens (s : jsstr) : option (list UriToken) :=
  match s with
  | [] => Some []
  | c :: r =>
      if c =? 37 then
        match r with
        | a :: b :: r' =>
            match hex_value a, hex_value b with
            | Some x, Some y => option_map (cons (Octet (x * 16 + y))) (uri_tokens r')
            | _, _ => None
            end
        | _ => None
        end
      else option_map (cons (Unit_ c)) (uri_tokens r)
  end.

Definition is_cont (b : Z) : bool := (128 <=? b) && (b <=? 191).

(** The octets of each scalar value, decoded; [None] for octets that are not UTF-8. *)
Fixpoint decode_tokens (ts : list UriToken) : option jsstr :=
  match ts with
  | [] => Some []
  | Unit_ c :: ts => option_map (cons c) (decode_tokens ts)
  | Octet b :: ts =>
      if b <? 128 then option_map (cons b) (decode_tokens ts)
      else if (192 <=? b) && (b <=? 223) then
        match ts with
        | Octet b1 :: ts =>
            let p := (b - 192) * 64 + (b1 - 128) in
            if is_cont b1 && (128 <=? p) then option_map (cons p) (decode_tokens ts) else None
        | _ => None
        end
      else if (224 <=? b) && (b <=? 239) then
        match ts with
        | Octet b1 :: Octet b2 :: ts =>
            let p := (b - 224) * 4096 + (b1 - 128) * 64 + (b2 - 128) in
            if is_cont b1 && is_cont b2 && (2048 <=? p) && negb (is_high p || is_low p)
            then option_map (cons p) (decode_tokens ts) else None
        | _ => None
        end
      else if (240 <=? b) && (b <=? 247) then
        match ts with
        | Octet b1 :: Octet b2 :: Octet b3 :: ts =>
            let p := (b - 240) * 262144 + (b1 - 128) * 4096 + (b2 - 128) * 64 + (b3 - 128) in
            if is_cont b1 && is_cont b2 && is_cont b3 && (65536 <=? p) && (p <=? 1114111)
            then option_map (app (fromCodePoint p)) (decode_tokens ts) else None
        | _ => None
        end
      else None
  end.

Definition decodeURIComponent (s : jsstr) : option jsstr := uri_tokens s ≫= decode_tokens.

(** ** What they promise each other *)

#[local] Ltac Zify.zify_post_hook ::= Z.to_euclidean_division_equations.

Definition unit_ok (c : Z) : Prop := 0 <= c < 65536.
Definition octet_ok (b : Z) : Prop := 0 <= b < 256.
Definition uri_safe (c : Z) : bool := unreserved c || (c =? 37).

(** Induction two units at a time, as the surrogate pairs need. *)
Lemma pair_ind (P : jsstr -> Prop) :
  P [] -> (∀ c r, P r -> (∀ d r', r = d :: r' -> P r') -> P (c :: r)) -> ∀ s, P s.
Proof.
  intros H0 Hs. enough (∀ n s, (length s <= n)%nat -> P s) by eauto.
  induction n as [|n IH]; intros [|c r] Hl; cbn in Hl; try done; try lia.
  apply Hs; [apply IH; lia|]. intros d r' ->. cbn in Hl. apply IH. lia.
Qed.

Lemma hex_value_char n : 0 <= n < 16 -> hex_value (hex_char n) = Some n.
Proof.
  intros H. unfold hex_char, hex_value, is_digit.
  destruct (Z.ltb_spec n 10).
  - replace ((48 <=? 48 + n) && (48 + n <=? 57)) with true by lia. f_equal. lia.
  - replace ((48 <=? 55 + n) && (55 + n <=? 57)) with false by lia.
    replace ((65 <=? 55 + n) && (55 + n <=? 70)) with true by lia. f_equal. lia.
Qed.

Lemma uri_tokens_percents bs rest : Forall octet_ok bs ->
  uri_tokens (percents bs ++ rest) = option_map (app (map Octet bs)) (uri_tokens rest).
Proof.
  induction 1 as [|b bs Hb _ IH]; [cbn; by destruct (uri_tokens rest)|]. unfold octet_ok in Hb.
  change (percents (b :: bs) ++ rest) with
    (37 :: hex_char (b / 16) :: hex_char (b mod 16) :: (percents bs ++ rest)).
  cbn [uri_tokens]. rewrite Z.eqb_refl, !hex_value_char by lia. rewrite IH.
  destruct (uri_tokens rest); [|done]. cbn. do 3 f_equal. lia.
Qed.

Lemma utf8_octets p : 0 <= p < 1114112 -> Forall octet_ok (utf8 p).
Proof.
  intros H. unfold utf8, octet_ok. destruct (Z.ltb_spec p 128), (Z.ltb_spec p 2048), (Z.ltb_spec p 65536);
    repeat constructor; lia.
Qed.

Lemma decode_utf8 p ts : 0 <= p < 1114112 -> is_high p = false -> is_low p = false ->
  decode_tokens (map Octet (utf8 p) ++ ts) = option_map (app (fromCodePoint p)) (decode_tokens ts).
Proof.
  intros Hp Hh Hl. unfold utf8, fromCodePoint.
  destruct (Z.ltb_spec p 128) as [H1|H1].
  { replace (p <=? 65535) with true by lia. cbn [map app decode_tokens].
    by replace (p <? 128) with true by lia. }
  destruct (Z.ltb_spec p 2048) as [H2|H2]; [|destruct (Z.ltb_spec p 65536) as [H3|H3]];
    cbn [map app decode_tokens]; unfold is_cont.
  - replace (p <=? 65535) with true by lia. replace (192 + p / 64 <? 128) with false by lia.
    replace ((192 <=? 192 + p / 64) && (192 + p / 64 <=? 223)) with true by lia.
    replace ((192 + p / 64 - 192) * 64 + (128 + p mod 64 - 128)) with p by lia.
    by replace ((128 <=? 128 + p mod 64) && (128 + p mod 64 <=? 191) && (128 <=? p)) with true by lia.
  - replace (p <=? 65535) with true by lia. replace (224 + p / 4096 <? 128) with false by lia.
    replace ((192 <=? 224 + p / 4096) && (224 + p / 4096 <=? 223)) with false by lia.
    replace ((224 <=? 224 + p / 4096) && (224 + p / 4096 <=? 239)) with true by lia.
    replace ((224 + p / 4096 - 224) * 4096 + (128 + p / 64 mod 64 - 128) * 64 + (128 + p mod 64 - 128))
      with p by lia.
    rewrite Hh, Hl. cbn [orb negb].
    by replace (_ && _ && _ && true) with true by lia.
  - replace (p <=? 65535) with false by lia. replace (240 + p / 262144 <? 128) with false by lia.
    replace ((192 <=? 240 + p / 262144) && (240 + p / 262144 <=? 223)) with false by lia.
    replace ((224 <=? 240 + p / 262144) && (240 + p / 262144 <=? 239)) with false by lia.
    replace ((240 <=? 240 + p / 262144) && (240 + p / 262144 <=? 247)) with true by lia.
    replace ((240 + p / 262144 - 240) * 262144 + (128 + p / 4096 mod 64 - 128) * 4096 +
      (128 + p / 64 mod 64 - 128) * 64 + (128 + p mod 64 - 128)) with p by lia.
    replace (_ && _ && _ && _ && _) with true by lia. unfold fromCodePoint.
    by replace (p <=? 65535) with false by lia.
Qed.

Lemma fromCodePoint_pair h l : is_high h = true -> is_low l = true -> fromCodePoint (pair_point h l) = [h; l].
Proof.
  unfold is_high, is_low, pair_point, fromCodePoint. intros Hh Hl.
  replace (_ <=? 65535) with false by lia. rewrite Z.shiftr_div_pow2 by lia.
  change 1023 with (2 ^ 10 - 1). rewrite land_low by lia. change (2 ^ 10) with 1024.
  f_equal; [lia|]. f_equal. lia.
Qed.

Lemma pair_point_range h l : is_high h = true -> is_low l = true ->
  65536 <= pair_point h l < 1114112.
Proof. unfold is_high, is_low, pair_point. lia. Qed.

Lemma unreserved_plain c : unreserved c = true -> (c =? 37) = false.
Proof. intros H. apply Z.eqb_neq. intros ->. vm_compute in H. discriminate. Qed.

(** Decoding goes back over the escapes of one scalar value. *)
Lemma decode_percents p e : 0 <= p < 1114112 -> is_high p = false -> is_low p = false ->
  decodeURIComponent (percents (utf8 p) ++ e) = option_map (app (fromCodePoint p)) (decodeURIComponent e).
Proof.
  intros Hp Hh Hl. unfold decodeURIComponent. rewrite uri_tokens_percents by by apply utf8_octets.
  destruct (uri_tokens e); [|done]. cbn. by apply decode_utf8.
Qed.

Lemma percents_safe bs : Forall octet_ok bs -> forallb uri_safe (percents bs) = true.
Proof.
  induction 1 as [|b bs Hb _ IH]; [done|]. unfold octet_ok in Hb.
  change (percents (b :: bs)) with (37 :: hex_char (b / 16) :: hex_char (b mod 16) :: percents bs).
  assert (∀ n, 0 <= n < 16 -> uri_safe (hex_char n) = true) as H.
  { intros n Hn. unfold uri_safe, unreserved, is_alnum, is_digit, hex_char.
    destruct (Z.ltb_spec n 10); do 3 (apply orb_true_iff; left); apply orb_true_iff; [left|right]; lia. }
  cbn [forallb]. rewrite IH, (H (b / 16)), (H (b mod 16)) by lia. done.
Qed.

(** A well-formed string encodes into safe characters and decodes back; any other one throws. *)
Lemma encodeURIComponent_outcome s : Forall unit_ok s ->
  if well_formed s
  then ∃ e, encodeURIComponent s = Some e /\ decodeURIComponent e = Some s /\ forallb uri_safe e = true
  else encodeURIComponent s = None.
Proof.
  induction s as [|c r IH IH2] using pair_ind; intros Hu; [by exists []|].
  apply Forall_cons in Hu as [Hc Hr]. specialize (IH Hr). cbn [well_formed encodeURIComponent].
  destruct (unreserved c) eqn:Eu.
  - assert (is_high c = false /\ is_low c = false) as [-> ->].
    { unfold unreserved, is_alnum, is_digit, js, is_high, is_low in *. cbn in Eu. lia. }
    cbn [negb andb]. destruct (well_formed r); [|by rewrite IH].
    destruct IH as (e & -> & Hd & Hs). exists (c :: e). split; [done|]. split.
    + unfold decodeURIComponent in *. cbn [uri_tokens]. rewrite unreserved_plain by done.
      destruct (uri_tokens e) as [ts|]; [|done]. cbn in *. by rewrite Hd.
    + cbn [forallb]. rewrite Hs. unfold uri_safe. by rewrite Eu.
  - destruct (is_high c) eqn:Eh.
    + destruct r as [|d r']; [done|]. destruct (is_low d) eqn:El; [|done]. cbn [andb].
      apply Forall_cons in Hr as [Hd' Hr']. specialize (IH2 d r' eq_refl Hr').
      destruct (well_formed r'); [|by rewrite IH2]. destruct IH2 as (e & -> & Hd & Hs).
      pose proof (pair_point_range c d Eh El) as Hp. eexists. split; [done|]. split.
      * rewrite decode_percents by (try (unfold is_high, is_low); lia).
        by rewrite Hd, fromCodePoint_pair.
      * rewrite forallb_app, Hs, percents_safe by (apply utf8_octets; lia). done.
    + destruct (is_low c) eqn:El; [done|]. cbn [negb andb].
      destruct (well_formed r); [|by rewrite IH]. destruct IH as (e & -> & Hd & Hs).
      unfold unit_ok in Hc. eexists. split; [done|]. split.
      * rewrite decode_percents by (done || lia). rewrite Hd. cbn [option_map]. f_equal.
        unfold fromCodePoint. by replace (c <=? 65535) with true by lia.
      * rewrite forallb_app, Hs, percents_safe by (apply utf8_octets; lia). done.
Qed.
