(* ===== verification/MigrationUri.v ===== *)
(** client/src/services/totpImport/migrationUri.ts: an [otpauth-migration://] link turned into the
    payload it carries.  The payload is base64 in a percent-encoded query parameter, taken from
    the raw query because form decoding would read a plus sign as a space.

    [atob] is the forgiving-base64 decode of the WHATWG Infra Standard, written out.  The URL
    parser is the platform's: only [search] of its result is read, and [None] is its exception. *)
From S2P Require Import Prelude UriComponent MigrationReader.
Local Open Scope Z_scope.
Local Open Scope result_scope.

Definition MAX_MIGRATION_URI_LENGTH : nat := Z.to_nat 16384.

(** ** [atob] *)

Definition sextet (c : Z) : option Z :=
  if (65 <=? c) && (c <=? 90) then Some (c - 65)
  else if (97 <=? c) && (c <=? 122) then Some (c - 71)
  else if is_digit c then Some (c + 4)
  else if c =? 43 then Some 62
  else if c =? 47 then Some 63
  else None.

Definition is_ascii_ws (c : Z) : bool := (c =? 9) || (c =? 10) || (c =? 12) || (c =? 13) || (c =? 32).

(** At most two padding characters at the end. *)
Definition strip_padding (s : jsstr) : jsstr :=
  match rev s with
  | a :: b :: r => if a =? 61 then if b =? 61 then rev r else rev (b :: r) else s
  | [a] => if a =? 61 then [] else s
  | [] => []
  end.

(** Twenty-four bits at a time; of twelve or eighteen left over, the last four or two are dropped. *)
Fixpoint sextets_to_bytes (vs : list Z) : list Z :=
  match vs with
  | a :: b :: c :: d :: r =>
      a * 4 + b / 16 :: (b mod 16) * 16 + c / 4 :: (c mod 4) * 64 + d :: sextets_to_bytes r
  | [a; b; c] => [a * 4 + b / 16; (b mod 16) * 16 + c / 4]
  | [a; b] => [a * 4 + b / 16]
  | _ => []
  end.

Definition atob (data : jsstr) : option (list Z) :=
  let data := List.filter (λ c, negb (is_ascii_ws c)) data in
  let data := if (length data mod 4 =? 0)%nat then strip_padding data else data in
  if (length data mod 4 =? 1)%nat then None
  else option_map sextets_to_bytes (mapM sextet data).

(** ** [btoa] *)

(** The sextets of the bytes. *)
Fixpoint sextets (bs : list Z) : list Z :=
  match bs with
  | a :: b :: c :: r => a / 4 :: (a mod 4) * 16 + b / 16 :: (b mod 16) * 4 + c / 64 :: c mod 64 :: sextets r
  | [a; b] => [a / 4; (a mod 4) * 16 + b / 16; (b mod 16) * 4]
  | [a] => [a / 4; (a mod 4) * 16]
  | [] => []
  end.

Definition base64_char (v : Z) : Z :=
  if v <? 26 then v + 65 else if v <? 52 then v + 71 else if v <? 62 then v - 4 else if v =? 62 then 43 else 47.

(** RFC 4648 without its padding. *)
Definition base64 (bs : list Z) : jsstr := map base64_char (sextets bs).

(** The padding that fills the last group of four. *)
Definition padding (n : nat) : nat := ((n + 3) / 4 * 4 - n)%nat.

(** RFC 4648 with it. *)
Definition btoa (bs : list Z) : jsstr := base64 bs ++ repeat 61 (padding (length (base64 bs))).

(** ** Reading the link *)

(** The first pair with the key; a pair without an equals sign is passed over. *)
Fixpoint find_pair (pairs : list jsstr) (key : jsstr) : option jsstr :=
  match pairs with
  | [] => None
  | pair_ :: pairs =>
      match indexOf 61 pair_ 0 with
      | None => find_pair pairs key
      | Some eq => if bool_decide (take eq pair_ = key) then Some (drop (S eq) pair_) else find_pair pairs key
      end
  end.

Definition rawQueryParam (search key : jsstr) : option jsstr :=
  let query := match search with c :: rest => if c =? 63 then rest else search | [] => [] end in
  find_pair (split_on 38 query) key.

(** [STANDARD_TO_URLSAFE] matches [-] and [_]. *)
Definition standard_char (c : Z) : Z := if c =? 45 then 43 else if c =? 95 then 47 else c.

(** [String.prototype.padEnd] with a one-unit filler. *)
Definition padEnd (s : jsstr) (n : nat) (filler : Z) : jsstr := s ++ repeat filler (n - length s).

Definition decodeBase64 (value : jsstr) : result MigrationError (list Z) :=
  let normalised := map standard_char value in
  let padded := padEnd normalised ((length normalised + 3) / 4 * 4) 61 in
  match atob padded with
  | None => Throw (MigrationParseError malformed (js "That code is not a readable export link."))
  | Some binary =>
      if (MAX_MIGRATION_PAYLOAD_BYTES <? length binary)%nat
      then Throw (MigrationParseError too_large (js "That export is larger than this app will read."))
      else Ok binary
  end.

(** The expression's [i] flag folds ASCII letters and nothing else into this prefix. *)
Definition isMigrationUri (value : jsstr) : bool :=
  starts_with (toLowerCase (trim value)) (js "otpauth-migration://").

Section uri.
Context (new_URL : jsstr -> option jsstr).
Context (utf8_decode : list Z -> jsstr) (normalize_nfc : jsstr -> jsstr).

Definition parseMigrationUri (uri : jsstr) : result MigrationError MigrationPayload :=
  let trimmed := trim uri in
  if (MAX_MIGRATION_URI_LENGTH <? length trimmed)%nat
  then Throw (MigrationParseError too_large (js "That export is larger than this app will read."))
  else if negb (isMigrationUri trimmed)
  then Throw (MigrationParseError malformed (js "That is not a Google Authenticator export link."))
  else
    match new_URL trimmed with
    | None => Throw (MigrationParseError malformed (js "That is not a Google Authenticator export link."))
    | Some search =>
        match rawQueryParam search (js "data") with
        | None | Some [] => Throw (MigrationParseError malformed (js "That export link carries no data."))
        | Some raw =>
            match decodeURIComponent raw with
            | None => Throw (MigrationParseError malformed (js "That export link carries unreadable data."))
            | Some decoded =>
                let? bytes := decodeBase64 decoded in
                readMigrationPayload utf8_decode normalize_nfc bytes
            end
        end
    end.
End uri.
