(* ===== verification/MigrationUriSpec.v ===== *)
(** The link reader.  Whatever text is scanned, the answer is a bounded payload or a constant
    message; and a link carrying an encoded payload is read back, however its base64 is spelled:
    either alphabet, padded or not, any of its characters percent-encoded. *)
From Stdlib Require Import ZifyNat.
From S2P Require Import Prelude UriComponent MigrationReader MigrationReaderSpec MigrationRoundTrip MigrationUri.
Local Open Scope Z_scope.

(** ** Base64 *)

#[local] Ltac Zify.zify_post_hook ::= Z.to_euclidean_division_equations.

Lemma list_ind3 {A} (P : list A -> Prop) :
  P [] -> (∀ a, P [a]) -> (∀ a b, P [a; b]) -> (∀ a b c r, P r -> P (a :: b :: c :: r)) -> ∀ l, P l.
Proof.
  intros H0 H1 H2 H3 l. assert (P l /\ (∀ a, P (a :: l)) /\ (∀ a b, P (a :: b :: l))) as [H _]; [|exact H].
  induction l as [|x l (IH1 & IH2 & IH3)]; split_and!; auto.
Qed.

Lemma list_ind4 {A} (P : list A -> Prop) :
  P [] -> (∀ a, P [a]) -> (∀ a b, P [a; b]) -> (∀ a b c, P [a; b; c]) ->
  (∀ a b c d r, P r -> P (a :: b :: c :: d :: r)) -> ∀ l, P l.
Proof.
  intros H0 H1 H2 H3 H4 l.
  assert (P l /\ (∀ a, P (a :: l)) /\ (∀ a b, P (a :: b :: l)) /\ (∀ a b c, P (a :: b :: c :: l))) as [H _]; [|exact H].
  induction l as [|x l (IH1 & IH2 & IH3 & IH4)]; split_and!; auto.
Qed.

Lemma sextets_inverse bs : Forall octet_ok bs -> sextets_to_bytes (sextets bs) = bs.
Proof.
  induction bs as [|a|a b|a b c r IH] using list_ind3; intros Hb; [done| | |];
    rewrite ?Forall_cons in Hb; unfold octet_ok in Hb; cbn [sextets sextets_to_bytes].
  - f_equal. lia.
  - f_equal; [lia|]. f_equal. lia.
  - rewrite IH by tauto. do 2 (f_equal; [lia|]). f_equal. lia.
Qed.

Definition sextet_ok (v : Z) : Prop := 0 <= v < 64.

Lemma sextets_ok bs : Forall octet_ok bs -> Forall sextet_ok (sextets bs).
Proof.
  induction bs as [|a|a b|a b c r IH] using list_ind3; intros Hb; [constructor| | |];
    rewrite ?Forall_cons in Hb; unfold octet_ok in Hb; cbn [sextets]; rewrite ?Forall_cons, ?Forall_nil; unfold sextet_ok;
    [lia..|]. split_and!; try lia. apply IH. tauto.
Qed.

(** No byte string has one sextet over. *)
Lemma length_sextets bs : (length (sextets bs) mod 4 <> 1)%nat.
Proof. induction bs as [|a|a b|a b c r IH] using list_ind3; cbn [sextets length]; lia. Qed.

Lemma sextets_to_bytes_ok vs : Forall sextet_ok vs -> bytes_ok (sextets_to_bytes vs).
Proof.
  induction vs as [|a|a b|a b c|a b c d r IH] using list_ind4; intros Hv; try constructor;
    rewrite ?Forall_cons in Hv; unfold sextet_ok in Hv; cbn [sextets_to_bytes]; rewrite ?Forall_cons, ?Forall_nil;
    [lia..|]. split_and!; try lia. apply IH. tauto.
Qed.

Lemma sextet_bound c v : sextet c = Some v -> sextet_ok v.
Proof.
  unfold sextet, sextet_ok, is_digit. repeat case_match; intros [= <-]; lia.
Qed.

Lemma sextet_char v : sextet_ok v -> sextet (base64_char v) = Some v.
Proof.
  unfold sextet_ok, sextet, base64_char, is_digit. intros Hv.
  repeat case_match; try lia; f_equal; lia.
Qed.

(** ** [atob] reads what was encoded *)

(** A character of the standard alphabet. *)
Definition base64_unit (c : Z) : bool := is_alnum c || (c =? 43) || (c =? 47).

Lemma base64_char_unit v : sextet_ok v -> base64_unit (base64_char v) = true.
Proof.
  unfold sextet_ok, base64_char, base64_unit, is_alnum, is_digit. intros Hv. repeat case_match; lia.
Qed.

Lemma base64_units bs : Forall octet_ok bs -> Forall (λ c, base64_unit c = true) (base64 bs).
Proof.
  intros Hb%sextets_ok. apply Forall_map. eapply Forall_impl; [exact Hb|]. apply base64_char_unit.
Qed.

Lemma mapM_sextet vs : Forall sextet_ok vs -> mapM sextet (map base64_char vs) = Some vs.
Proof.
  induction 1 as [|v vs Hv _ IH]; [done|]. cbn [map mapM]. rewrite sextet_char by done. cbn. by rewrite IH.
Qed.

Lemma filter_all {A} (p : A -> bool) l : Forall (λ x, p x = true) l -> List.filter p l = l.
Proof. induction 1 as [|x l Hx _ IH]; [done|]. cbn. by rewrite Hx, IH. Qed.

Lemma strip_padding_plain s : Forall (λ c, base64_unit c = true) s -> strip_padding s = s.
Proof.
  intros Hs. unfold strip_padding. apply Forall_rev in Hs. destruct (rev s) as [|a r] eqn:E.
  - by rewrite <- (rev_involutive s), E.
  - apply Forall_cons in Hs as [Ha _]. replace (a =? 61) with false; [by destruct r|].
    unfold base64_unit, is_alnum, is_digit in Ha. lia.
Qed.

Lemma strip_padding_one s : Forall (λ c, base64_unit c = true) s -> strip_padding (s ++ [61]) = s.
Proof.
  intros Hs. unfold strip_padding. rewrite rev_app_distr. cbn [rev app]. apply Forall_rev in Hs.
  destruct (rev s) as [|a r] eqn:E.
  - by rewrite <- (rev_involutive s), E.
  - apply Forall_cons in Hs as [Ha _]. rewrite Z.eqb_refl. replace (a =? 61) with false.
    + change (rev (a :: r) = s). by rewrite <- E, rev_involutive.
    + unfold base64_unit, is_alnum, is_digit in Ha. lia.
Qed.

Lemma strip_padding_two s : strip_padding (s ++ [61; 61]) = s.
Proof. unfold strip_padding. rewrite rev_app_distr. cbn. by rewrite rev_involutive. Qed.


Lemma atob_base64 bs : Forall octet_ok bs ->
  atob (base64 bs ++ repeat 61 (padding (length (base64 bs)))) = Some bs.
Proof.
  intros Hb. pose proof (base64_units bs Hb) as Hu. unfold atob. rewrite filter_all.
  2: { apply Forall_app. split.
       - eapply Forall_impl; [exact Hu|]. cbn. unfold base64_unit, is_alnum, is_digit, is_ascii_ws. lia.
       - apply Forall_forall. intros c Hc%list_elem_of_In%repeat_spec. by subst. }
  assert (length (base64 bs) mod 4 <> 1)%nat as Hm by (unfold base64; rewrite length_map; apply length_sextets).
  replace (length (base64 bs ++ _) mod 4)%nat with 0%nat.
  2: { rewrite length_app, repeat_length. unfold padding. lia. }
  cbn [Nat.eqb].
  assert (strip_padding (base64 bs ++ repeat 61 (padding (length (base64 bs)))) = base64 bs) as ->.
  { assert (padding (length (base64 bs)) = 0 \/ padding (length (base64 bs)) = 1 \/ padding (length (base64 bs)) = 2)%nat
      as [->|[->| ->]] by (unfold padding; lia); cbn [repeat].
    - rewrite app_nil_r. by apply strip_padding_plain.
    - by apply strip_padding_one.
    - by apply strip_padding_two. }
  destruct (length (base64 bs) mod 4 =? 1)%nat eqn:E; [lia|].
  unfold base64. rewrite mapM_sextet by by apply sextets_ok. cbn. by rewrite sextets_inverse.
Qed.

Lemma atob_octets data bs : atob data = Some bs -> bytes_ok bs.
Proof.
  unfold atob. case_match; [done|]. destruct (mapM _ _) as [vs|] eqn:E; [|done]. intros [= <-].
  apply sextets_to_bytes_ok. apply mapM_Some in E. 
  eapply Forall2_Forall_r; [exact E|]. apply Forall_true. intros c v. apply sextet_bound.
Qed.

(** ** Any text *)

Definition link_errors : list MigrationError :=
  [MigrationParseError malformed (js "That is not a Google Authenticator export link.");
   MigrationParseError malformed (js "That export link carries no data.");
   MigrationParseError malformed (js "That export link carries unreadable data.");
   MigrationParseError malformed (js "That code is not a readable export link.")].

Section any_text.
Context (new_URL : jsstr -> option jsstr).
Context (utf8_decode : list Z -> jsstr) (normalize_nfc : jsstr -> jsstr).

Lemma too_large_fixed : MigrationParseError too_large (js "That export is larger than this app will read.")
  ∈ link_errors ++ fixed_errors.
Proof. apply (list_elem_of_lookup_2 _ 12). reflexivity. Qed.

Lemma decodeBase64_outcome value :
  match decodeBase64 value with
  | Ok bytes => bytes_ok bytes /\ (length bytes <= 4096)%nat
  | Throw e => e ∈ link_errors ++ fixed_errors
  end.
Proof.
  unfold decodeBase64. destruct (atob _) as [binary|] eqn:E; [|apply (list_elem_of_lookup_2 _ 3); reflexivity].
  destruct (MAX_MIGRATION_PAYLOAD_BYTES <? length binary)%nat eqn:El; [apply too_large_fixed|].
  split; [by eapply atob_octets|]. unfold MAX_MIGRATION_PAYLOAD_BYTES in El. lia.
Qed.

(** C32: Whatever text is scanned or pasted, and whatever the URL parser makes of it, reading it as an
    export link answers with a payload in bounds or with one of fifteen constant errors: nothing of
    the text is quoted, and no failure of [URL], [decodeURIComponent], [atob] or [DataView] escapes. *)
Theorem parseMigrationUri_outcome uri :
  match parseMigrationUri new_URL utf8_decode normalize_nfc uri with
  | Ok payload => payload_ok payload
  | Throw e => e ∈ link_errors ++ fixed_errors
  end.
Proof.
  unfold parseMigrationUri. destruct (_ <? length (trim uri))%nat; [apply too_large_fixed|].
  destruct (negb _); [apply (list_elem_of_lookup_2 _ 0); reflexivity|].
  destruct (new_URL _) as [search|]; [|apply (list_elem_of_lookup_2 _ 0); reflexivity].
  destruct (rawQueryParam _ _) as [[|c raw]|]; try (apply (list_elem_of_lookup_2 _ 1); reflexivity).
  destruct (decodeURIComponent _) as [decoded|]; [|apply (list_elem_of_lookup_2 _ 2); reflexivity].
  pose proof (decodeBase64_outcome decoded) as H. destruct (decodeBase64 decoded) as [bytes|e]; [|done].
  destruct H as [Hb _]. cbn [result_bind].
  pose proof (readMigrationPayload_outcome utf8_decode normalize_nfc bytes Hb) as Hr.
  destruct (readMigrationPayload _ _ bytes); [done|]. apply elem_of_app. by right.
Qed.
End any_text.

(** ** Spellings *)

(** One character as a link may carry it: in either alphabet, and as it is or percent-encoded. *)
Definition spells_unit (c : Z) (e : jsstr) : Prop :=
  ∃ c', standard_char c' = c /\ (e = [c'] \/ uri_tokens e = Some [Octet c']).

Definition spells (s e : jsstr) : Prop := ∃ es, Forall2 spells_unit s es /\ e = mjoin es.

Definition data_unit (c : Z) : bool := base64_unit c || (c =? 61).

Lemma standard_char_data c' c : standard_char c' = c -> data_unit c = true -> 33 <= c' < 128 /\ c' <> 37 /\ c' <> 38.
Proof.
  unfold standard_char, data_unit, base64_unit, is_alnum, is_digit. intros <- Hc.
  destruct (Z.eqb_spec c' 45); [lia|]. destruct (Z.eqb_spec c' 95); lia.
Qed.

Lemma uri_tokens_escape e b : uri_tokens e = Some [Octet b] ->
  ∃ x y vx vy, e = [37; x; y] /\ hex_value x = Some vx /\ hex_value y = Some vy /\ b = vx * 16 + vy.
Proof.
  destruct e as [|c e]; [done|]. cbn [uri_tokens]. destruct (Z.eqb_spec c 37) as [->|].
  - destruct e as [|x [|y e]]; try done. destruct (hex_value x) as [vx|] eqn:Ex, (hex_value y) as [vy|] eqn:Ey; try done.
    destruct (uri_tokens e) as [[|t ts]|] eqn:E; try done. intros [= <-].
    destruct e as [|c e]; [by exists x, y, vx, vy|]. cbn [uri_tokens] in E. repeat case_match; try done;
      by destruct (uri_tokens _).
  - by destruct (uri_tokens e).
Qed.

Lemma spells_unit_decode c e r : data_unit c = true -> spells_unit c e ->
  ∃ c', standard_char c' = c /\ decodeURIComponent (e ++ r) = option_map (cons c') (decodeURIComponent r).
Proof.
  intros Hc (c' & Hs & He). exists c'. split; [done|]. pose proof (standard_char_data c' c Hs Hc) as Hr.
  unfold decodeURIComponent. destruct He as [->|He].
  - cbn [app uri_tokens]. destruct (Z.eqb_spec c' 37); [lia|]. by destruct (uri_tokens r).
  - apply uri_tokens_escape in He as (x & y & vx & vy & -> & Hx & Hy & ->).
    cbn [app uri_tokens]. rewrite Z.eqb_refl, Hx, Hy.
    destruct (uri_tokens r); [|done]. cbn [option_map mbind option_bind decode_tokens].
    by replace (vx * 16 + vy <? 128) with true by lia.
Qed.

Lemma spells_decode s e : Forall (λ c, data_unit c = true) s -> spells s e ->
  ∃ s', decodeURIComponent e = Some s' /\ map standard_char s' = s.
Proof.
  intros Hs (es & Hes & ->). induction Hes as [|c e s es Hc _ IH]; [by exists []|].
  apply Forall_cons in Hs as [Hc' Hs]. destruct (IH Hs) as (s' & Hd & Hm).
  destruct (spells_unit_decode c e (mjoin es) Hc' Hc) as (c' & <- & H).
  exists (c' :: s'). split; [|cbn; by rewrite Hm]. change (mjoin (e :: es)) with (e ++ mjoin es). by rewrite H, Hd.
Qed.

(** What a query carries unchanged. *)
Definition query_unit (c : Z) : bool := (33 <=? c) && (c <=? 126) && negb (existsb (Z.eqb c) [34; 35; 38; 60; 62]).

Lemma hex_value_unit x v : hex_value x = Some v -> query_unit x = true.
Proof. unfold hex_value, is_digit, query_unit. cbn [existsb]. repeat case_match; try done; lia. Qed.

Lemma spells_query s e : Forall (λ c, data_unit c = true) s -> spells s e -> forallb query_unit e = true.
Proof.
  intros Hs (es & Hes & ->). induction Hes as [|c e s es (c' & Hc & He) _ IH]; [done|].
  apply Forall_cons in Hs as [Hc' Hs]. change (mjoin (e :: es)) with (e ++ mjoin es).
  rewrite forallb_app, (IH Hs), andb_true_r. destruct He as [->|He].
  - cbn [forallb]. rewrite andb_true_r. unfold standard_char, data_unit, base64_unit, is_alnum, is_digit, query_unit in *.
    cbn [existsb]. subst c. destruct (Z.eqb_spec c' 45); [lia|]. destruct (Z.eqb_spec c' 95); lia.
  - apply uri_tokens_escape in He as (x & y & vx & vy & -> & Hx%hex_value_unit & Hy%hex_value_unit & _).
    cbn [forallb]. by rewrite Hx, Hy.
Qed.

Lemma spells_nonempty s e : s <> [] -> Forall (λ c, data_unit c = true) s -> spells s e -> e <> [].
Proof.
  intros Hn Hs (es & Hes & ->). destruct Hes as [|c [|x e] s es (c' & _ & [He|He]) _]; done.
Qed.

Lemma base64_data bs k : Forall octet_ok bs -> Forall (λ c, data_unit c = true) (base64 bs ++ repeat 61 k).
Proof.
  intros Hb. apply Forall_app. split.
  - eapply Forall_impl; [by apply base64_units|]. cbn. unfold data_unit. by intros c ->.
  - apply Forall_forall. intros c Hc%list_elem_of_In%repeat_spec. by subst.
Qed.

(** Every spelling of the base64 of some bytes decodes to them. *)
Lemma decode_spelling bs k e : Forall octet_ok bs -> (length bs <= 4096)%nat ->
  (k <= padding (length (base64 bs)))%nat -> spells (base64 bs ++ repeat 61 k) e ->
  ∃ d, decodeURIComponent e = Some d /\ decodeBase64 d = Ok bs.
Proof.
  intros Hb Hl Hk He. destruct (spells_decode _ e (base64_data bs k Hb) He) as (d & Hd & Hm).
  exists d. split; [done|]. unfold decodeBase64. rewrite Hm.
  assert (padEnd (base64 bs ++ repeat 61 k) ((length (base64 bs ++ repeat 61 k) + 3) / 4 * 4) 61
    = base64 bs ++ repeat 61 (padding (length (base64 bs)))) as ->.
  { unfold padEnd. rewrite <- app_assoc, <- repeat_app. do 2 f_equal. rewrite length_app, repeat_length.
    unfold padding in *. lia. }
  rewrite atob_base64 by done. unfold MAX_MIGRATION_PAYLOAD_BYTES.
  destruct (_ <? _)%nat eqn:E; [lia|done].
Qed.

(** ** The link *)

Lemma split_on_join c ps : ps <> [] -> Forall (λ p, c ∉ p) ps -> split_on c (join [c] ps) = ps.
Proof.
  intros Hn Hps. induction Hps as [|p ps Hp Hps IH]; [done|]. rewrite join_cons.
  destruct ps as [|q ps]; [by rewrite app_nil_r, split_on_plain|].
  cbn [app]. by rewrite split_on_app, (split_on_plain _ p Hp), IH.
Qed.

(** A parameter that is not the data. *)
Definition other_param (p : jsstr) : Prop := ∀ v, p <> js "data=" ++ v.

Lemma find_pair_other p ps : other_param p -> find_pair (p :: ps) (js "data") = find_pair ps (js "data").
Proof.
  intros Hp. cbn [find_pair]. destruct (indexOf 61 p 0) as [eq|] eqn:E; [|done].
  case_bool_decide as Ht; [|done]. exfalso. unfold indexOf in E. apply find_from_Some in E as (_ & c & Hl & Hc).
  apply (Hp (drop (S eq) p)). rewrite <- (take_drop_middle p eq c Hl) at 1. rewrite Ht.
  apply Z.eqb_eq in Hc as <-. reflexivity.
Qed.

Lemma find_pair_data e ps : find_pair ((js "data=" ++ e) :: ps) (js "data") = Some e.
Proof.
  cbn [find_pair]. unfold indexOf. change (js "data=" ++ e) with (js "data" ++ 61 :: e).
  assert (find_from (Z.eqb 61) (js "data" ++ 61 :: e) 0 = Some 4%nat) as -> by done.
  by rewrite bool_decide_eq_true_2 by done.
Qed.

Lemma find_pair_skip before e after : Forall other_param before ->
  find_pair (before ++ (js "data=" ++ e) :: after) (js "data") = Some e.
Proof.
  induction 1 as [|p ps Hp _ IH]; [apply find_pair_data|]. cbn [app]. by rewrite find_pair_other.
Qed.

(** A query of these parameters, around the data. *)
Definition link_query (before : list jsstr) (e : jsstr) (after : list jsstr) : jsstr :=
  join [38] (before ++ (js "data=" ++ e) :: after).

Lemma query_unit_no_amp s : forallb query_unit s = true -> 38 ∉ s.
Proof. rewrite forallb_forall. intros H Hin%list_elem_of_In%H. done. Qed.

Lemma rawQueryParam_link before e after :
  Forall other_param before -> Forall (λ p, forallb query_unit p = true) before ->
  forallb query_unit e = true -> Forall (λ p, forallb query_unit p = true) after ->
  rawQueryParam (63 :: link_query before e after) (js "data") = Some e.
Proof.
  intros Ho Hb He Ha. unfold rawQueryParam, link_query. rewrite Z.eqb_refl, split_on_join.
  - by apply find_pair_skip.
  - by destruct before.
  - apply Forall_app. split; [|constructor].
    + eapply Forall_impl; [exact Hb|]. apply query_unit_no_amp.
    + apply query_unit_no_amp. by rewrite forallb_app, He.
    + eapply Forall_impl; [exact Ha|]. apply query_unit_no_amp.
Qed.

(** *** The bytes of a payload *)

Lemma enc_varint_loop_octets more n : 0 <= n < 128 ^ Z.of_nat more * 256 -> Forall octet_ok (enc_varint_loop more n).
Proof.
  revert n. induction more as [|more IH]; intros n Hn; cbn [enc_varint_loop]; unfold octet_ok.
  - repeat constructor; cbn in Hn; lia.
  - destruct (Z.ltb_spec n 128); repeat constructor; try lia. apply IH.
    rewrite Nat2Z.inj_succ, Z.pow_succ_r in Hn by lia.
    split; [apply Z.div_pos; lia|]. apply Z.div_lt_upper_bound; nia.
Qed.

Lemma enc_varint_octets n : 0 <= n < 2 ^ 64 -> Forall octet_ok (enc_varint n).
Proof. intros H. apply enc_varint_loop_octets. change (128 ^ Z.of_nat 9 * 256) with (2 ^ 71). lia. Qed.

Lemma enc_message_octets cs :
  Forall (λ c, 0 <= c.1.1 < 2 ^ 32 /\ 0 <= c.1.2 < 8 /\ Forall octet_ok c.2) cs -> Forall octet_ok (enc_message cs).
Proof.
  unfold enc_message. induction 1 as [|[[f w] b] cs (Hf & Hw & Hb) _ IH]; [constructor|].
  cbn [map concat enc_chunk fst snd] in *. rewrite !Forall_app. split_and!; try done. apply enc_varint_octets. lia.
Qed.

Definition raw_octets (p : RawPayload) : Prop :=
  Forall (λ r, Forall octet_ok (raw_secret r) /\ Forall octet_ok (raw_name r) /\ Forall octet_ok (raw_issuer r)) (raw_entries p).

Definition chunk_octets (c : chunk) : Prop := 0 <= c.1.1 < 2 ^ 32 /\ 0 <= c.1.2 < 8 /\ Forall octet_ok c.2.

Lemma int_chunk_octets f n : 0 <= f < 2 ^ 32 -> - 2 ^ 31 <= n < 2 ^ 31 -> Forall chunk_octets (int_chunk f n).
Proof.
  intros Hf Hn. unfold int_chunk. destruct (n =? 0); repeat constructor; cbn; try lia.
  apply enc_varint_octets. destruct (Z.ltb_spec n 0); lia.
Qed.

Lemma bytes_chunk_octets f b : 0 <= f < 2 ^ 32 -> Z.of_nat (length b) < 2 ^ 32 -> Forall octet_ok b -> chunk_octets (bytes_chunk f b).
Proof.
  intros Hf Hl Hb. unfold bytes_chunk. repeat split; cbn; try lia. apply Forall_app. split; [|done].
  apply enc_varint_octets. lia.
Qed.

Lemma otp_chunks_octets r : raw_otp_ok r ->
  Forall octet_ok (raw_secret r) /\ Forall octet_ok (raw_name r) /\ Forall octet_ok (raw_issuer r) ->
  Forall chunk_octets (otp_chunks r).
Proof.
  intros (Hs & Hn & Hi & Ha & Hd & Ht & Hc) (Os & On & Oi). unfold otp_chunks, opt_bytes_chunk.
  rewrite !Forall_app. split_and!; try (apply int_chunk_octets; lia).
  - constructor; [|constructor]. apply bytes_chunk_octets; (lia || done).
  - case_match; repeat constructor; apply bytes_chunk_octets; (lia || done).
  - case_match; repeat constructor; apply bytes_chunk_octets; (lia || done).
  - case_match; repeat constructor; cbn; try lia. by apply enc_varint_octets.
Qed.

Lemma encode_payload_octets p : raw_payload_ok p -> raw_octets p -> Forall octet_ok (encode_payload p).
Proof.
  intros (Hn & Hes & Hv & Hs & Hi & Hid & Hlen) Ho. apply enc_message_octets. unfold payload_chunks.
  rewrite !Forall_app. split_and!; try (apply int_chunk_octets; lia).
  assert (Forall (λ r, Z.of_nat (length (enc_message (otp_chunks r))) < 2 ^ 32) (raw_entries p)) as Hsz.
  { apply entry_sizes. unfold encode_payload, payload_chunks in Hlen. rewrite enc_message_app, length_app in Hlen. lia. }
  apply Forall_map. unfold raw_octets in Ho. rewrite Forall_forall in *. intros r Hr.
  apply bytes_chunk_octets; [lia|by apply Hsz|]. apply enc_message_octets, otp_chunks_octets; auto.
Qed.

(** *** Surrounding space *)

Lemma trimStart_all l : forallb is_ws l = true -> trimStart l = [].
Proof. intros H. rewrite <- (app_nil_r l). by rewrite trimStart_ws. Qed.

Lemma forallb_rev {A} (p : A -> bool) l : forallb p (rev l) = forallb p l.
Proof.
  induction l as [|x l IH]; [done|]. cbn [rev forallb]. rewrite forallb_app, IH. cbn. by rewrite andb_true_r, andb_comm.
Qed.

Lemma trim_around l1 s l2 : forallb is_ws l1 = true -> forallb is_ws l2 = true ->
  existsb is_ws s = false -> s <> [] -> trim (l1 ++ s ++ l2) = s.
Proof.
  intros H1 H2 Hs Hn. unfold trim. rewrite trimStart_ws by done. destruct s as [|c s]; [done|].
  cbn [existsb] in Hs. apply orb_false_iff in Hs as [Hc Hs]. cbn [app]. rewrite trimStart_stop by done.
  unfold trimEnd. change (c :: s ++ l2) with ((c :: s) ++ l2). rewrite rev_app_distr, trimStart_ws by by rewrite forallb_rev.
  change (trimEnd (c :: s) = c :: s). transitivity (trim (c :: s)); [by unfold trim; rewrite trimStart_stop|].
  apply trim_solid_self; [|done]. cbn. by rewrite Hc.
Qed.

(** *** Reading a link back *)

(** What is relied on of the URL parser: a link of this scheme, in any case, has the query it was
    given.  These characters are the ones a query keeps as they are. *)
Definition keeps_query (new_URL : jsstr -> option jsstr) : Prop :=
  ∀ scheme query, toLowerCase scheme = js "otpauth-migration" -> query <> [] ->
    forallb (λ c, query_unit c || (c =? 38)) query = true ->
    new_URL (scheme ++ js "://offline?" ++ query) = Some (63 :: query).

Lemma link_query_units before e after :
  Forall (λ p, forallb query_unit p = true) before -> forallb query_unit e = true ->
  Forall (λ p, forallb query_unit p = true) after ->
  forallb (λ c, query_unit c || (c =? 38)) (link_query before e after) = true.
Proof.
  intros Hb He Ha. unfold link_query.
  assert (Forall (λ p, forallb query_unit p = true) (before ++ (js "data=" ++ e) :: after)) as H.
  { apply Forall_app. split; [done|]. constructor; [|done]. by rewrite forallb_app, He. }
  revert H. generalize (before ++ (js "data=" ++ e) :: after). clear.
  assert (∀ p, forallb query_unit p = true -> forallb (λ c, query_unit c || (c =? 38)) p = true) as Hw.
  { intros p. rewrite !forallb_forall. intros H c Hc. by rewrite (H c Hc). }
  induction 1 as [|p ps Hp Hps IH]; [done|]. rewrite join_cons, forallb_app, (Hw p Hp).
  destruct ps; [done|]. rewrite forallb_app, IH. done.
Qed.

Lemma scheme_not_ws scheme : toLowerCase scheme = js "otpauth-migration" -> existsb is_ws scheme = false.
Proof.
  intros E. rewrite <- not_true_iff_false, existsb_exists. intros (c & Hin & Hc).
  assert (lower_unit c ∈ js "otpauth-migration") as H by (rewrite <- E; by apply list_elem_of_In, in_map).
  assert (is_ws (lower_unit c) = true) as Hw.
  { unfold lower_unit. case_match; [|done]. exfalso. unfold is_ws in Hc. lia. }
  apply list_elem_of_In in H. clear -H Hw. cbn in H. repeat destruct H as [H|H]; try (by rewrite <- H in Hw); done.
Qed.

Lemma link_no_ws scheme q : toLowerCase scheme = js "otpauth-migration" ->
  forallb (λ c, query_unit c || (c =? 38)) q = true -> existsb is_ws (scheme ++ js "://offline?" ++ q) = false.
Proof.
  intros Hs Hq. rewrite !existsb_app, (scheme_not_ws _ Hs). cbn [orb].
  assert (existsb is_ws q = false) as ->; [|done]. rewrite <- not_true_iff_false, existsb_exists.
  intros (c & Hin & Hc). rewrite forallb_forall in Hq. apply Hq in Hin. unfold query_unit, is_ws in *. lia.
Qed.

Lemma isMigrationUri_link scheme q : toLowerCase scheme = js "otpauth-migration" ->
  forallb (λ c, query_unit c || (c =? 38)) q = true -> isMigrationUri (scheme ++ js "://offline?" ++ q) = true.
Proof.
  intros Hs Hq. unfold isMigrationUri. rewrite trim_solid_self; [|by apply link_no_ws|by destruct scheme].
  unfold toLowerCase in *. by rewrite map_app, Hs.
Qed.

Lemma base64_nil bs : base64 bs = [] -> bs = [].
Proof. intros H%map_eq_nil. by destruct bs as [|a [|b [|c bs]]]. Qed.

Lemma encode_payload_nonempty p : raw_payload_ok p -> encode_payload p <> [].
Proof. intros Hp E. pose proof (readMigrationPayload_encode (λ _, []) id p Hp) as H. by rewrite E in H. Qed.

Section link.
Context (new_URL : jsstr -> option jsstr) (URL_ok : keeps_query new_URL).
Context (utf8_decode : list Z -> jsstr) (normalize_nfc : jsstr -> jsstr).

(** C31: A link that carries an encoded payload is read back to that payload, field for field: with space
    around it, in any case of the scheme, among other parameters, and however its base64 is spelled
    (standard or URL-safe alphabet, any part of the padding left off, and any character, a raw plus
    sign included, as it is or percent-encoded). *)
Theorem parseMigrationUri_roundtrip p l1 scheme before k e after l2 :
  raw_payload_ok p -> raw_octets p ->
  forallb is_ws l1 = true -> forallb is_ws l2 = true ->
  toLowerCase scheme = js "otpauth-migration" ->
  Forall other_param before -> Forall (λ q, forallb query_unit q = true) before ->
  Forall (λ q, forallb query_unit q = true) after ->
  (k <= padding (length (base64 (encode_payload p))))%nat ->
  spells (base64 (encode_payload p) ++ repeat 61 k) e ->
  Z.of_nat (length (scheme ++ js "://offline?" ++ link_query before e after)) <= 16384 ->
  parseMigrationUri new_URL utf8_decode normalize_nfc
    (l1 ++ (scheme ++ js "://offline?" ++ link_query before e after) ++ l2)
  = Ok (payload_of utf8_decode normalize_nfc p).
Proof.
  intros Hp Hoct H1 H2 Hs Hother Hb Ha Hk He Hlen.
  pose proof (encode_payload_octets p Hp Hoct) as Ho.
  pose proof (base64_data (encode_payload p) k Ho) as Hdata.
  pose proof (spells_query _ _ Hdata He) as Hq. pose proof (link_query_units before e after Hb Hq Ha) as Hqs.
  pose proof (rawQueryParam_link before e after Hother Hb Hq Ha) as Hraw.
  assert ((length (encode_payload p) <= 4096)%nat) as H4096 by apply Hp.
  destruct (decode_spelling _ k e Ho H4096 Hk He) as (d & Hd & Hd').
  unfold parseMigrationUri. rewrite trim_around; [|done|done|by apply link_no_ws|by destruct scheme].
  unfold MAX_MIGRATION_URI_LENGTH. destruct (_ <? _)%nat eqn:El; [lia|].
  rewrite isMigrationUri_link by done. cbn [negb]. rewrite URL_ok; [|done|by intros E; rewrite E in Hraw|done].
  rewrite Hraw. destruct e as [|c e]; [|rewrite Hd, Hd'; cbn [result_bind]; by apply readMigrationPayload_encode].
  exfalso. eapply (spells_nonempty _ []); [|exact Hdata|exact He|done].
  intros [Hnil _]%app_eq_nil. by apply (encode_payload_nonempty p Hp), base64_nil.
Qed.
End link.

(** A parser for the witness: the query is what starts at the first question mark. *)
Definition sample_search (s : jsstr) : option jsstr :=
  match indexOf 63 s 0 with Some i => Some (drop i s) | None => Some [] end.

Lemma sample_keeps_query : keeps_query sample_search.
Proof.
  intros scheme query Hs _ _. unfold sample_search, indexOf.
  change (scheme ++ js "://offline?" ++ query) with (scheme ++ js "://offline" ++ 63 :: query). rewrite app_assoc.
  pose proof (find_from_hit (Z.eqb 63) [] (scheme ++ js "://offline") 63 query) as H. cbn [app length Nat.add] in H.
  rewrite H; [|rewrite forallb_app; apply andb_true_iff; split; [|done]|done].
  - by rewrite drop_app_length.
  - apply forallb_forall. intros c Hin. apply negb_true_iff, Z.eqb_neq. intros <-.
    assert (63 ∈ js "otpauth-migration") as Hbad.
    { rewrite <- Hs. apply list_elem_of_In. apply (in_map lower_unit) in Hin. exact Hin. }
    apply list_elem_of_In in Hbad. by repeat destruct Hbad as [Hbad|Hbad].
Qed.

(** A spelling for the witness: URL-safe, with some characters percent-encoded. *)
Definition sample_spelling (s : jsstr) : jsstr :=
  mjoin (map (λ c, if c =? 43 then [45] else if c =? 47 then js "%2f" else if c =? 61 then js "%3D" else [c]) s).

Lemma sample_spells s : forallb data_unit s = true -> spells s (sample_spelling s).
Proof.
  intros Hs. eexists. split; [|reflexivity]. induction s as [|c s IH]; [constructor|].
  cbn [forallb] in Hs. apply andb_true_iff in Hs as [Hc Hs]. constructor; [|by apply IH].
  destruct (Z.eqb_spec c 43) as [->|]; [exists 45; by split; [|left]|].
  destruct (Z.eqb_spec c 47) as [->|]; [exists 47; by split; [|right]|].
  destruct (Z.eqb_spec c 61) as [->|]; [exists 61; by split; [|right]|].
  exists c. split; [|by left]. unfold standard_char, data_unit, base64_unit, is_alnum, is_digit in *.
  destruct (Z.eqb_spec c 45); [lia|]. by destruct (Z.eqb_spec c 95); [lia|].
Qed.

Lemma parseMigrationUri_roundtrip_witness :
  let r := {| raw_secret := [222; 173; 190; 251]; raw_name := js "Acme:alice"; raw_issuer := js "Acme";
              raw_algorithm := 1; raw_digits := 1; raw_type := 1; raw_counter := 300 |} in
  let p := {| raw_entries := [r]; raw_version := 1; raw_size := 2; raw_index := 1; raw_id := -7 |} in
  let link := js "OTPAuth-Migration" ++ js "://offline?" ++ link_query [js "v=2"]
    (sample_spelling (base64 (encode_payload p) ++ repeat 61 1)) [js "data=x"] in
  link = js "OTPAuth-Migration://offline?v=2&data=CiEKBN6tvvsSCkFjbWU6YWxpY2UaBEFjbWUgASgBMAE4rAIQARgCIAEo-f%2f%2f%2f%2f%2f%2f%2f%2f%2f%2fAQ%3D&data=x" /\
  parseMigrationUri sample_search id id ([32] ++ link ++ [10]) = Ok (payload_of id id p).
Proof.
  intros r p link. split; [vm_compute; reflexivity|].
  apply (parseMigrationUri_roundtrip sample_search sample_keeps_query id id p [32] (js "OTPAuth-Migration") [js "v=2"] 1
    (sample_spelling (base64 (encode_payload p) ++ repeat 61 1)) [js "data=x"] [10]).
  - do 6 (split; [try (repeat constructor; cbn; lia); cbn; lia|]). apply Nat.leb_le. vm_compute. reflexivity.
  - repeat constructor; cbn; lia.
  - reflexivity.
  - reflexivity.
  - reflexivity.
  - repeat constructor. intros v. done.
  - repeat constructor.
  - repeat constructor.
  - apply Nat.leb_le. vm_compute. reflexivity.
  - apply sample_spells. vm_compute. reflexivity.
  - apply Z.leb_le. vm_compute. reflexivity.
Defined.
