(* ===== verification/Totp.v ===== *)
(** lib/totp.ts: reading a stored TOTP value in either shape it has (a bare base32 secret or an
    [otpauth://] URI), base32 both ways on JavaScript's 32-bit shifts, and building an
    [otpauth://] URI that fits a bound.

    The URL parser, [URLSearchParams] and Unicode case mapping belong to the platform: they are
    the fields of [Platform], and [PlatformLaws] is what the theorems rely on of them. *)
From S2P Require Import Prelude UriComponent.
Local Open Scope Z_scope.

(** ** Data *)

Inductive TotpKind := totp | hotp.
Inductive TotpAlgorithm := SHA1 | SHA256 | SHA512.

Definition kind_name (k : TotpKind) : jsstr := match k with totp => js "totp" | hotp => js "hotp" end.
Definition algorithm_name (a : TotpAlgorithm) : jsstr :=
  match a with SHA1 => js "SHA1" | SHA256 => js "SHA256" | SHA512 => js "SHA512" end.

Definition SUPPORTED_ALGORITHMS : list TotpAlgorithm := [SHA1; SHA256; SHA512].
Definition SUPPORTED_DIGITS : list Z := [6; 7; 8].
Definition DECODABLE_BASE32_RESIDUES : list Z := [0; 2; 4; 5; 7].

Definition default_algorithm : TotpAlgorithm := SHA1.
Definition default_digits : Z := 6.
Definition default_period : Z := 30.

Record ParsedTotp := {
  parsed_type : TotpKind;
  parsed_secret : jsstr;
  parsed_issuer : jsstr;
  parsed_account : jsstr;
  parsed_algorithm : TotpAlgorithm;
  parsed_digits : Z;
  parsed_period : Z;
  parsed_counter : option jsstr;
}.

Inductive TotpParseFailure :=
  | empty | invalid_base32 | invalid_uri | missing_secret
  | unsupported_algorithm | unsupported_digits | unsupported_period.

(** [{ ok: true, value }] or [{ ok: false, reason }]. *)
Definition TotpParseResult := result TotpParseFailure ParsedTotp.

(** ** The platform *)

(** What the program reads of a parsed [URL]. *)
Record URL := {
  hostname : jsstr;
  pathname : jsstr;
  search : jsstr;
  searchParam : jsstr -> option jsstr;   (* [url.searchParams.get] *)
}.

Class Platform := {
  toUpperCase : jsstr -> jsstr;
  lowerHost : jsstr -> jsstr;                         (* [String.prototype.toLowerCase] *)
  new_URL : jsstr -> option URL;                      (* [None] when the constructor throws *)
  searchParamsString : list (jsstr * jsstr) -> jsstr; (* [toString] after these [set] calls *)
}.

Section totp.
Context `{Platform}.

(** ** Base32 *)

Definition is_separator (c : Z) : bool := is_ws c || (c =? 45).

Definition normaliseBase32 (value : jsstr) : jsstr :=
  let joined := List.filter (λ c, negb (is_separator c)) value in
  let unpadded := rev (drop (span_len (Z.eqb 61) (rev joined)) (rev joined)) in
  toUpperCase unpadded.

(** [BASE32_ALPHABET]: every character is one of [A-Z2-7]. *)
Definition is_base32 (c : Z) : bool := ((65 <=? c) && (c <=? 90)) || ((50 <=? c) && (c <=? 55)).

Definition isDecodableBase32 (normalised : jsstr) : bool :=
  if (length normalised =? 0)%nat then false
  else if negb (forallb is_base32 normalised) then false
  else existsb (Z.eqb (Z.of_nat (length normalised) mod 8)) DECODABLE_BASE32_RESIDUES.

Definition BASE32_ALPHABET_CHARS : jsstr := js "ABCDEFGHIJKLMNOPQRSTUVWXYZ234567".

(** The operators [<<], [>>>] and [|] of ECMA-262, on numbers that are 32-bit integers. *)
Definition to_int32 (n : Z) : Z := let m := n mod 2 ^ 32 in if m <? 2 ^ 31 then m else m - 2 ^ 32.
Definition shl (a s : Z) : Z := to_int32 (Z.shiftl a s).
Definition ushr (a s : Z) : Z := Z.shiftr (a mod 2 ^ 32) s.
Definition bit_or (a b : Z) : Z := to_int32 (Z.lor a b).

(** [BASE32_ALPHABET_CHARS.charAt(i)]. *)
Definition base32_char (i : Z) : jsstr := option_list (BASE32_ALPHABET_CHARS !! Z.to_nat i).

(** The inner [while (bits >= 5)]; [fuel] is at least [bits]. *)
Fixpoint emit_loop (fuel : nat) (buffer bits : Z) (out : jsstr) : Z * jsstr :=
  match fuel with
  | O => (bits, out)
  | S fuel =>
      if 5 <=? bits
      then emit_loop fuel buffer (bits - 5) (out ++ base32_char (Z.land (ushr buffer (bits - 5)) 31))
      else (bits, out)
  end.

Definition encode_byte (st : Z * Z * jsstr) (byte : Z) : Z * Z * jsstr :=
  let '(buffer, bits, out) := st in
  let buffer := bit_or (shl buffer 8) byte in
  let bits := bits + 8 in
  let '(bits, out) := emit_loop (Z.to_nat bits) buffer bits out in
  (buffer, bits, out).

Definition encodeBase32 (bytes : list Z) : jsstr :=
  let '(buffer, bits, out) := foldl encode_byte (0, 0, []) bytes in
  if 0 <? bits then out ++ base32_char (Z.land (shl buffer (5 - bits)) 31) else out.

(** [RangeError('decodeBase32: not a base32 character')]. *)
Inductive NotBase32 := RangeError.

Definition alphabet_index (ch : jsstr) : option nat :=
  match ch with [c] => indexOf c BASE32_ALPHABET_CHARS 0 | _ => None end.

Fixpoint decode_loop (chars : list jsstr) (buffer bits : Z) (out : list Z) : result NotBase32 (list Z) :=
  match chars with
  | [] => Ok out
  | ch :: chars =>
      match alphabet_index ch with
      | None => Throw RangeError
      | Some index =>
          let buffer := bit_or (shl buffer 5) (Z.of_nat index) in
          let bits := bits + 5 in
          if 8 <=? bits
          then decode_loop chars buffer (bits - 8) (out ++ [Z.land (ushr buffer (bits - 8)) 255])
          else decode_loop chars buffer bits out
      end
  end.

Definition decodeBase32 (value : jsstr) : result NotBase32 (list Z) :=
  decode_loop (code_points (normaliseBase32 value)) 0 0 [].

(** ** Parsing *)

Definition isTotpAlgorithm (value : jsstr) : option TotpAlgorithm :=
  List.find (λ a, bool_decide (algorithm_name a = value)) SUPPORTED_ALGORITHMS.

Definition MAX_SAFE_INTEGER : Z := 2 ^ 53 - 1.

(** The number a string of decimal digits spells. *)
Definition decimal (s : jsstr) : Z := foldl (λ n c, n * 10 + (c - 48)) 0 s.

(** [/^\d+$/]. *)
Definition all_digits (s : jsstr) : bool := negb (length s =? 0)%nat && forallb is_digit s.

Definition positiveInteger (raw : jsstr) : option Z :=
  if negb (all_digits raw) then None
  else if (decimal raw <=? MAX_SAFE_INTEGER) && (0 <? decimal raw) then Some (decimal raw) else None.

Definition splitLabel (label : jsstr) : jsstr * jsstr :=
  match indexOf 58 label 0 with
  | None => ([], trim label)
  | Some colon =>
      let after := drop (colon + 1) label in
      (trim (slice label 0 colon), trim (drop (span_len (Z.eqb 32) after) after))
  end.

(** [x !== null && x.length > 0 ? use : fallback] around a query parameter. *)
Definition given (p : option jsstr) : option jsstr :=
  match p with Some [] => None | p => p end.

Definition readAlgorithm (raw : option jsstr) : result TotpParseFailure TotpAlgorithm :=
  match given raw with
  | None => Ok default_algorithm
  | Some s => match isTotpAlgorithm (toUpperCase s) with Some a => Ok a | None => Throw unsupported_algorithm end
  end.

Definition readDigits (raw : option jsstr) : result TotpParseFailure Z :=
  match given raw with
  | None => Ok default_digits
  | Some s =>
      match positiveInteger s with
      | Some n => if existsb (Z.eqb n) SUPPORTED_DIGITS then Ok n else Throw unsupported_digits
      | None => Throw unsupported_digits
      end
  end.

Definition readPeriod (raw : option jsstr) : result TotpParseFailure Z :=
  match given raw with
  | None => Ok default_period
  | Some s => match positiveInteger s with Some n => Ok n | None => Throw unsupported_period end
  end.

Definition readCounter (type : TotpKind) (raw : option jsstr) : option jsstr :=
  match type, raw with
  | hotp, Some s => if all_digits s then Some s else None
  | _, _ => None
  end.

(** [pathname.replace(/^\//, '')]. *)
Definition withoutSlash (path : jsstr) : jsstr :=
  match path with c :: r => if c =? 47 then r else path | [] => [] end.

Definition kindOf (host : jsstr) : option TotpKind :=
  if bool_decide (host = js "totp") then Some totp
  else if bool_decide (host = js "hotp") then Some hotp else None.

Local Open Scope result_scope.

Definition parseOtpauthUri (raw : jsstr) : TotpParseResult :=
  match new_URL raw with
  | None => Throw invalid_uri
  | Some url =>
      match kindOf (lowerHost (hostname url)) with
      | None => Throw invalid_uri
      | Some type =>
          match searchParam url (js "secret") with
          | None => Throw missing_secret
          | Some secretParam =>
              if (length (trim secretParam) =? 0)%nat then Throw missing_secret
              else if negb (isDecodableBase32 (normaliseBase32 secretParam)) then Throw invalid_base32
              else
                match decodeURIComponent (withoutSlash (pathname url)) with
                | None => Throw invalid_uri
                | Some label =>
                    let '(labelIssuer, account) := splitLabel label in
                    let issuer := default labelIssuer (given (searchParam url (js "issuer"))) in
                    let? algorithm := readAlgorithm (searchParam url (js "algorithm")) in
                    let? digits := readDigits (searchParam url (js "digits")) in
                    let? period := readPeriod (searchParam url (js "period")) in
                    let counter := readCounter type (searchParam url (js "counter")) in
                    Ok {| parsed_type := type; parsed_secret := normaliseBase32 secretParam;
                          parsed_issuer := issuer; parsed_account := account;
                          parsed_algorithm := algorithm; parsed_digits := digits;
                          parsed_period := period; parsed_counter := counter |}
                end
          end
      end
  end.

(** [/^otpauth:\/\//i]. *)
Definition isOtpauth (s : jsstr) : bool := starts_with (toLowerCase s) (js "otpauth://").

Definition parseTotpValue (raw : jsstr) : TotpParseResult :=
  let trimmed := trim raw in
  if (length trimmed =? 0)%nat then Throw empty
  else if isOtpauth trimmed then parseOtpauthUri trimmed
  else if negb (isDecodableBase32 (normaliseBase32 trimmed)) then Throw invalid_base32
  else Ok {| parsed_type := totp; parsed_secret := normaliseBase32 trimmed; parsed_issuer := [];
             parsed_account := []; parsed_algorithm := default_algorithm; parsed_digits := default_digits;
             parsed_period := default_period; parsed_counter := None |}.

Definition describeTotpFailure (reason : TotpParseFailure) : jsstr :=
  match reason with
  | empty => js "No TOTP secret is set"
  | invalid_base32 => js "Invalid TOTP secret (not valid base32)"
  | invalid_uri => js "Invalid TOTP link (not a usable otpauth:// URI)"
  | missing_secret => js "This TOTP link carries no secret"
  | unsupported_algorithm => js "This TOTP uses a hash algorithm this app cannot generate"
  | unsupported_digits => js "This TOTP asks for a code length this app cannot generate"
  | unsupported_period => js "This TOTP has an unusable time step"
  end.

(** ** Building *)

Record OtpauthUriInput := {
  in_type : TotpKind;
  in_secret : jsstr;
  in_issuer : jsstr;
  in_account : jsstr;
  in_algorithm : TotpAlgorithm;
  in_digits : Z;
  in_period : Z;
  in_counter : option jsstr;
}.

Record BuiltOtpauthUri := { uri : jsstr; truncated : bool }.

(** The [URIError] of [encodeURIComponent]. *)
Inductive UriError := URIError.

Definition labelOf (issuer account : jsstr) : jsstr :=
  if (0 <? length issuer)%nat then issuer ++ js ":" ++ account else account.

Definition paramsOf (input : OtpauthUriInput) (issuer : jsstr) : list (jsstr * jsstr) :=
  [(js "secret", in_secret input)]
  ++ (if (0 <? length issuer)%nat then [(js "issuer", issuer)] else [])
  ++ [(js "algorithm", algorithm_name (in_algorithm input)); (js "digits", num (in_digits input))]
  ++ match in_type input with
     | hotp => [(js "counter", default (js "0") (in_counter input))]
     | totp => [(js "period", num (in_period input))]
     end.

Definition composeUri (input : OtpauthUriInput) (issuer account : jsstr) : result UriError jsstr :=
  match encodeURIComponent (labelOf issuer account) with
  | None => Throw URIError
  | Some label =>
      Ok (js "otpauth://" ++ kind_name (in_type input) ++ js "/" ++ label ++ js "?"
          ++ searchParamsString (paramsOf input issuer))
  end.

(** [s.slice(0, -1)]. *)
Definition dropLast (s : jsstr) : jsstr := take (length s - 1) s.

(** The [for (;;)]; every turn but the last removes one unit of [account] or [issuer]. *)
Fixpoint build_loop (fuel : nat) (input : OtpauthUriInput) (maxLength : Z) (issuer account : jsstr)
    : result UriError (option BuiltOtpauthUri) :=
  match fuel with
  | O => Ok None
  | S fuel =>
      let? composed := composeUri input issuer account in
      if Z.of_nat (length composed) <=? maxLength
      then Ok (Some {| uri := composed;
                       truncated := negb (bool_decide (issuer = in_issuer input))
                                    || negb (bool_decide (account = in_account input)) |})
      else if (0 <? length account)%nat then build_loop fuel input maxLength issuer (dropLast account)
      else if (0 <? length issuer)%nat then build_loop fuel input maxLength (dropLast issuer) account
      else Ok None
  end.

Definition buildOtpauthUri (input : OtpauthUriInput) (maxLength : Z)
    : result UriError (option BuiltOtpauthUri) :=
  build_loop (S (length (in_issuer input) + length (in_account input))) input maxLength
    (in_issuer input) (in_account input).

End totp.

(** ** What the theorems rely on of the platform *)

Definition upper_unit (c : Z) : Z := if (97 <=? c) && (c <=? 122) then c - 32 else c.
Definition ascii (s : jsstr) : Prop := Forall (λ c, 0 <= c < 128) s.

(** A path the URL parser keeps as one segment: it drops the segments [.] and [..]. *)
Definition dot_segment (s : jsstr) : bool := bool_decide (s = js ".") || bool_decide (s = js "..").

Definition lookup_param (k : jsstr) (ps : list (jsstr * jsstr)) : option jsstr :=
  option_map snd (List.find (λ p, bool_decide (p.1 = k)) ps).

(** A string of UTF-16 code units whose surrogates are paired. *)
Definition text (s : jsstr) : Prop := well_formed s = true /\ Forall unit_ok s.

Class PlatformLaws `{Platform} := {
  upper_ascii s : ascii s -> toUpperCase s = map upper_unit s;
  lower_ascii s : ascii s -> lowerHost s = map lower_unit s;
  (* a URI of this scheme is parsed into what it was written from: the host, the path as it is
     percent-encoded, and the serialised parameters *)
  url_otpauth k label path ps :
    text label -> encodeURIComponent label = Some path -> dot_segment label = false ->
    NoDup (map fst ps) -> Forall (λ p, text p.1 /\ text p.2) ps ->
    ∃ url, new_URL (js "otpauth://" ++ kind_name k ++ js "/" ++ path ++ js "?" ++ searchParamsString ps) = Some url
      /\ hostname url = kind_name k /\ pathname url = js "/" ++ path
      /\ ∀ name, searchParam url name = lookup_param name ps;
  (* a serialised parameter list holds no white space, so trimming the URI leaves it alone *)
  params_solid ps : existsb is_ws (searchParamsString ps) = false;
}.
