(* ===== verification/TotpPlatform.v ===== *)
(** A platform on which the laws of Totp.v hold: ASCII case mapping, and a URL parser and a
    parameter serialiser that are inverse on the URIs of this scheme.  The concrete inputs of the
    theorems are evaluated on it; it is not a model of a browser. *)
From S2P Require Import Prelude UriComponent Totp.
Local Open Scope Z_scope.

Definition enc (s : jsstr) : jsstr :=
  match encodeURIComponent s with Some e => if forallb uri_safe e then e else [] | None => [] end.
Definition dec (s : jsstr) : jsstr := default [] (decodeURIComponent s).

(** The text before the first [c], and what follows it. *)
Fixpoint split_off (c : Z) (s : jsstr) : jsstr * option jsstr :=
  match s with
  | [] => ([], None)
  | x :: r => if x =? c then ([], Some r) else let '(a, b) := split_off c r in (x :: a, b)
  end.

Definition sample_params (ps : list (jsstr * jsstr)) : jsstr :=
  mjoin (map (λ p, enc p.1 ++ js "=" ++ enc p.2 ++ js "&") ps).

Fixpoint sample_parse (fuel : nat) (s : jsstr) : list (jsstr * jsstr) :=
  match fuel, split_off 61 s with
  | S fuel, (k, Some r) =>
      match split_off 38 r with
      | (v, Some r) => (dec k, dec v) :: sample_parse fuel r
      | _ => []
      end
  | _, _ => []
  end.

Definition sample_URL (raw : jsstr) : option URL :=
  match split_off 47 (drop 10 raw) with
  | (host, Some rest) =>
      match split_off 63 rest with
      | (path, Some query) =>
          Some {| hostname := host; pathname := js "/" ++ path; search := js "?" ++ query;
                  searchParam := λ name, lookup_param name (sample_parse (length query) query) |}
      | _ => None
      end
  | _ => None
  end.

#[export] Instance sample_platform : Platform :=
  {| toUpperCase := map upper_unit; lowerHost := map lower_unit; new_URL := sample_URL;
     searchParamsString := sample_params |}.

Lemma split_off_hit c a r : existsb (Z.eqb c) a = false -> split_off c (a ++ c :: r) = (a, Some r).
Proof.
  induction a as [|x a IH]; cbn [existsb app split_off]; [by rewrite Z.eqb_refl|].
  intros [Hx Ha]%orb_false_iff. rewrite Z.eqb_sym, Hx. by rewrite IH.
Qed.

Lemma enc_safe s : forallb uri_safe (enc s) = true.
Proof. unfold enc. destruct (encodeURIComponent s) as [e|]; [|done]. by destruct (forallb uri_safe e) eqn:E. Qed.

Lemma enc_text s : text s -> dec (enc s) = s.
Proof.
  intros [Hw Hu]. pose proof (encodeURIComponent_outcome s Hu) as H. rewrite Hw in H.
  destruct H as (e & He & Hd & Hs). unfold enc, dec. by rewrite He, Hs, Hd.
Qed.

Lemma safe_no c s : uri_safe c = false -> forallb uri_safe s = true -> existsb (Z.eqb c) s = false.
Proof.
  intros Hc Hs. rewrite forallb_forall in Hs. destruct (existsb _ _) eqn:E; [|done].
  apply existsb_exists in E as (x & Hx%Hs & <-%Z.eqb_eq). congruence.
Qed.

Lemma sample_parse_params ps fuel : (length ps <= fuel)%nat -> Forall (λ p, text p.1 /\ text p.2) ps ->
  sample_parse fuel (sample_params ps) = ps.
Proof.
  intros Hf Hps. revert fuel Hf. induction Hps as [|[k v] ps [Hk Hv] _ IH]; intros fuel Hf; [by destruct fuel|].
  destruct fuel as [|fuel]; [cbn in Hf; lia|]. cbn [fst snd] in *.
  change (sample_params ((k, v) :: ps)) with ((enc k ++ js "=" ++ enc v ++ js "&") ++ sample_params ps).
  assert ((enc k ++ js "=" ++ enc v ++ js "&") ++ sample_params ps = enc k ++ 61 :: (enc v ++ 38 :: sample_params ps)) as ->.
  { change (js "=") with [61]. change (js "&") with [38]. by rewrite <- !app_assoc. }
  cbn [sample_parse]. rewrite split_off_hit by by apply (safe_no 61), enc_safe.
  rewrite split_off_hit by by apply (safe_no 38), enc_safe.
  rewrite !enc_text by done. rewrite IH; [done|cbn in Hf; lia].
Qed.

Lemma sample_params_length ps : (length ps <= length (sample_params ps))%nat.
Proof.
  induction ps as [|p ps IH]; [done|].
  change (sample_params (p :: ps)) with ((enc p.1 ++ js "=" ++ enc p.2 ++ js "&") ++ sample_params ps).
  rewrite !length_app. cbn [length]. change (length (js "=")) with 1%nat. lia.
Qed.

Lemma uri_safe_plain c : uri_safe c = true -> is_ws c = false.
Proof. unfold uri_safe, unreserved, is_alnum, is_digit, is_ws, js. cbn. lia. Qed.

Lemma sample_params_solid ps : existsb is_ws (sample_params ps) = false.
Proof.
  assert (∀ s, existsb is_ws (enc s) = false) as Henc.
  { intros s. destruct (existsb is_ws (enc s)) eqn:E; [|done]. apply existsb_exists in E as (c & Hc & Hw).
    pose proof (enc_safe s) as Hs. rewrite forallb_forall in Hs. by rewrite (uri_safe_plain c (Hs c Hc)) in Hw. }
  induction ps as [|p ps IH]; [done|].
  change (sample_params (p :: ps)) with ((enc p.1 ++ js "=" ++ enc p.2 ++ js "&") ++ sample_params ps).
  by rewrite !existsb_app, IH, !Henc.
Qed.

#[export] Instance sample_laws : PlatformLaws.
Proof.
  constructor; [done|done| |exact sample_params_solid].
  intros k label path ps [Hw Hu] He Hdot Hnd Hps.
  pose proof (encodeURIComponent_outcome label Hu) as H. rewrite Hw in H.
  destruct H as (e & He' & _ & Hs). rewrite He in He'. injection He' as <-.
  eexists. split.
  - cbn [new_URL searchParamsString sample_platform]. unfold sample_URL.
    assert (drop 10 (js "otpauth://" ++ kind_name k ++ js "/" ++ path ++ js "?" ++ sample_params ps) =
      kind_name k ++ 47 :: (path ++ 63 :: sample_params ps)) as -> by done.
    rewrite split_off_hit by by destruct k. by rewrite split_off_hit by by apply (safe_no 63).
  - split; [done|]. split; [done|]. intros name. cbn [searchParam].
    by rewrite sample_parse_params by (apply sample_params_length || done).
Qed.
