(* ===== verification/Base32Spec.v ===== *)
(** What base32 promises in lib/totp.ts: encoding and decoding are inverse on every byte string,
    although the shift registers overflow 32 bits on every long secret, and the length rule of
    [isDecodableBase32] accepts exactly the strings no character of which is dropped. *)
From S2P Require Import Prelude UriComponent Totp TotpPlatform.
Local Open Scope Z_scope.

(** ** Positional values *)

Definition val (b : Z) (l : list Z) : Z := foldl (λ a d, a * b + d) 0 l.
Definition digits_ok (b : Z) (l : list Z) : Prop := Forall (λ d, 0 <= d < b) l.

Lemma val_snoc b l d : val b (l ++ [d]) = val b l * b + d.
Proof. unfold val. by rewrite foldl_app. Qed.

Lemma digits_snoc b l d : digits_ok b l -> 0 <= d < b -> digits_ok b (l ++ [d]).
Proof. intros Hl Hd. apply Forall_app. split; [done|]. by apply Forall_singleton. Qed.

Lemma val_bound b l : 0 < b -> digits_ok b l -> 0 <= val b l < b ^ Z.of_nat (length l).
Proof.
  intros Hb. induction l as [|d l IH] using rev_ind; [done|].
  intros [Hl Hd%Forall_inv]%Forall_app. specialize (IH Hl). rewrite val_snoc, length_app. cbn [length].
  replace (Z.of_nat (length l + 1)) with (Z.succ (Z.of_nat (length l))) by lia.
  rewrite Z.pow_succ_r by lia. nia.
Qed.

Lemma val_inj b l l' : 0 < b -> digits_ok b l -> digits_ok b l' -> length l = length l' ->
  val b l = val b l' -> l = l'.
Proof.
  intros Hb. revert l'. induction l as [|d l IH] using rev_ind; intros l' Hl Hl' Hlen Hv.
  - by destruct l'.
  - destruct l' as [|d' l' _] using rev_ind; [rewrite length_app in Hlen; cbn in Hlen; lia|].
    rewrite !length_app in Hlen. cbn in Hlen. rewrite !val_snoc in Hv.
    apply Forall_app in Hl as [Hl Hd%Forall_inv]. apply Forall_app in Hl' as [Hl' Hd'%Forall_inv].
    cbn in Hd, Hd'. assert (val b l = val b l') as E by nia.
    rewrite (IH l') by (done || lia). f_equal. f_equal. nia.
Qed.

(** ** The 32-bit operators on the low bits *)

Lemma to_int32_low z k : 0 <= k <= 32 -> to_int32 z mod 2 ^ k = z mod 2 ^ k.
Proof.
  intros Hk. unfold to_int32. assert (2 ^ 32 = 2 ^ k * 2 ^ (32 - k)) as E by (rewrite <- Z.pow_add_r by lia; f_equal; lia).
  assert (0 < 2 ^ k) by lia.
  assert ((z mod 2 ^ 32) mod 2 ^ k = z mod 2 ^ k) as Hm.
  { rewrite (Z.mod_eq z (2 ^ 32)) by lia. rewrite E at 1.
    replace (z - 2 ^ k * 2 ^ (32 - k) * (z / 2 ^ 32)) with (z + (- (2 ^ (32 - k) * (z / 2 ^ 32))) * 2 ^ k) by ring.
    by rewrite Z.mod_add by lia. }
  destruct (_ <? _); [done|]. rewrite <- Hm. rewrite E at 2.
  replace (z mod 2 ^ 32 - 2 ^ k * 2 ^ (32 - k)) with (z mod 2 ^ 32 + (- 2 ^ (32 - k)) * 2 ^ k) by ring.
  by rewrite Z.mod_add by lia.
Qed.

(** [(buffer << s) | d] appends the digit [d] to the low bits. *)
Lemma shift_in buffer s d k : 0 <= s -> 0 <= k -> k + s <= 32 -> 0 <= d < 2 ^ s ->
  bit_or (shl buffer s) d mod 2 ^ (k + s) = buffer mod 2 ^ k * 2 ^ s + d.
Proof.
  intros Hs Hk Hle Hd. unfold bit_or, shl. rewrite to_int32_low by lia.
  rewrite Z.shiftl_mul_pow2 by lia.
  assert (∃ q, to_int32 (buffer * 2 ^ s) = q * 2 ^ s /\ q mod 2 ^ k = buffer mod 2 ^ k) as (q & -> & Hq).
  { assert (2 ^ 32 = 2 ^ k * 2 ^ (32 - s - k) * 2 ^ s) as E.
    { rewrite <- !Z.pow_add_r by lia. f_equal. lia. }
    exists (buffer + 2 ^ k * 2 ^ (32 - s - k) *
      (- (buffer * 2 ^ s / 2 ^ 32) - (if (buffer * 2 ^ s) mod 2 ^ 32 <? 2 ^ 31 then 0 else 1))). split.
    - unfold to_int32. rewrite (Z.mod_eq (buffer * 2 ^ s)) by lia.
      set (w := buffer * 2 ^ s / 2 ^ 32). rewrite E. destruct (_ <? _); ring.
    - rewrite (Z.mul_comm (2 ^ k)), <- Z.mul_assoc, (Z.mul_comm (2 ^ k)), Z.mul_assoc.
      by rewrite Z.mod_add by lia. }
  rewrite Z.lor_comm, <- Z.shiftl_mul_pow2, lor_shiftl by lia.
  rewrite Z.add_comm. rewrite Z.pow_add_r by lia. rewrite (Z.mul_comm (2 ^ k)).
  rewrite Z.rem_mul_r by lia.
  rewrite (Z.add_comm (q * _)), Z.mod_add by lia. rewrite (Z.mod_small d) by lia.
  rewrite Z.div_add by lia. rewrite (Z.div_small d) by lia. rewrite Z.add_0_l, Hq. lia.
Qed.

(** [(buffer >>> s) & (2^w - 1)] takes the [w] top bits of the low [s + w]. *)
Lemma shift_out buffer s w : 0 <= s -> 0 <= w -> s + w <= 32 ->
  Z.land (ushr buffer s) (2 ^ w - 1) = buffer mod 2 ^ (s + w) / 2 ^ s.
Proof.
  intros Hs Hw Hle. unfold ushr. rewrite land_low by lia. rewrite Z.shiftr_div_pow2 by lia.
  rewrite Z.pow_add_r by lia.
  assert (0 < 2 ^ s) by lia. assert (0 < 2 ^ w) by lia.
  assert ((buffer mod 2 ^ 32) mod (2 ^ s * 2 ^ w) = buffer mod (2 ^ s * 2 ^ w)) as E.
  { replace (2 ^ 32) with ((2 ^ s * 2 ^ w) * 2 ^ (32 - s - w)) by (rewrite <- !Z.pow_add_r by lia; f_equal; lia).
    rewrite (Z.rem_mul_r buffer (2 ^ s * 2 ^ w)) by nia. rewrite (Z.mul_comm (2 ^ s * 2 ^ w)), Z.mod_add by nia. by rewrite Z.mod_mod by nia. }
  rewrite <- E. rewrite (Z.rem_mul_r (buffer mod 2 ^ 32)) by lia.
  rewrite (Z.mul_comm (2 ^ s)), Z.div_add by lia. rewrite (Z.div_small ((buffer mod 2 ^ 32) mod 2 ^ s)) by (apply Z.mod_pos_bound; lia). lia.
Qed.

(** The low [s + w] bits are the [w] taken out and the [s] left. *)
Lemma low_split buffer s w : 0 <= s -> 0 <= w ->
  buffer mod 2 ^ (s + w) = buffer mod 2 ^ (s + w) / 2 ^ s * 2 ^ s + buffer mod 2 ^ s.
Proof.
  intros Hs Hw. rewrite Z.pow_add_r by lia. assert (0 < 2 ^ s) by lia. assert (0 < 2 ^ w) by lia.
  rewrite Z.rem_mul_r by lia. rewrite (Z.mul_comm (2 ^ s)), Z.div_add by lia.
  rewrite (Z.div_small (buffer mod 2 ^ s)) by (apply Z.mod_pos_bound; lia). lia.
Qed.

(** ** The alphabet *)

Definition symbol (v : Z) : Z := nth (Z.to_nat v) BASE32_ALPHABET_CHARS 0.
Definition symbols : list Z -> jsstr := map symbol.

(** A property of the 32 symbols, checked on each. *)
Lemma for_symbols (P : Z -> Prop) `{!∀ v, Decision (P v)} :
  forallb (λ i, bool_decide (P (Z.of_nat i))) (seq 0 32) = true -> ∀ v, 0 <= v < 32 -> P v.
Proof.
  intros Hall v Hv. rewrite forallb_forall in Hall. specialize (Hall (Z.to_nat v)).
  rewrite bool_decide_eq_true, Z2Nat.id in Hall by lia. apply Hall, in_seq. lia.
Qed.

Lemma base32_char_symbol v : 0 <= v < 32 -> base32_char v = [symbol v].
Proof. revert v. refine (for_symbols _ _). vm_compute. reflexivity. Qed.

Lemma symbol_index v : 0 <= v < 32 -> alphabet_index [symbol v] = Some (Z.to_nat v).
Proof. revert v. refine (for_symbols _ _). vm_compute. reflexivity. Qed.

Lemma symbol_base32 v : 0 <= v < 32 -> is_base32 (symbol v) = true.
Proof. revert v. refine (for_symbols _ _). vm_compute. reflexivity. Qed.

Lemma symbol_of c : is_base32 c = true -> ∃ v, 0 <= v < 32 /\ symbol v = c.
Proof.
  intros Hc. exists (if c <? 65 then c - 24 else c - 65). unfold is_base32 in Hc.
  split; [destruct (Z.ltb_spec c 65); lia|].
  enough (∀ v, 0 <= v < 32 -> symbol v = if v <? 26 then v + 65 else v + 24) as Hs.
  { destruct (Z.ltb_spec c 65); rewrite Hs by lia; destruct (Z.ltb_spec (c - 24) 26), (Z.ltb_spec (c - 65) 26); lia. }
  refine (for_symbols _ _). vm_compute. reflexivity.
Qed.

Lemma symbols_of s : forallb is_base32 s = true -> ∃ vs, digits_ok 32 vs /\ symbols vs = s.
Proof.
  induction s as [|c s IH]; [exists []; split; [constructor|done]|]. cbn. intros [Hc Hs]%andb_true_iff.
  destruct (IH Hs) as (vs & Hvs & <-), (symbol_of c Hc) as (v & Hv & <-).
  exists (v :: vs). split; [by constructor|done].
Qed.

Lemma symbols_base32 vs : digits_ok 32 vs -> forallb is_base32 (symbols vs) = true.
Proof. induction 1; [done|]. cbn. by rewrite symbol_base32. Qed.

(** ** Encoding *)

(** The encoder's registers: the symbols written and the pending low bits spell what was read. *)
Definition enc_ok (total len buffer bits : Z) (out : jsstr) : Prop :=
  ∃ vs, out = symbols vs /\ digits_ok 32 vs /\ 0 <= bits /\
    val 32 vs * 2 ^ bits + buffer mod 2 ^ bits = total /\ 5 * Z.of_nat (length vs) + bits = len.

Lemma emit_loop_ok total len buffer fuel : ∀ bits out bits' out',
  bits <= Z.of_nat fuel -> bits <= 32 -> enc_ok total len buffer bits out ->
  emit_loop fuel buffer bits out = (bits', out') ->
  bits' < 5 /\ enc_ok total len buffer bits' out'.
Proof.
  induction fuel as [|fuel IH]; intros bits out bits' out' Hf H32 Hok; cbn [emit_loop].
  - intros [= <- <-]. split; [lia|done].
  - destruct (Z.leb_spec 5 bits); [|intros [= <- <-]; split; [lia|done]]. intros He.
    eapply IH; [..|exact He]; [lia..|]. destruct Hok as (vs & -> & Hvs & Hb & Hv & Hl).
    change 31 with (2 ^ 5 - 1). rewrite shift_out by lia.
    replace (bits - 5 + 5) with bits by lia.
    pose proof (low_split buffer (bits - 5) 5 ltac:(lia) ltac:(lia)) as Hlow.
    replace (bits - 5 + 5) with bits in Hlow by lia.
    set (q := buffer mod 2 ^ bits / 2 ^ (bits - 5)) in *.
    assert (2 ^ bits = 32 * 2 ^ (bits - 5)) as Hp.
    { change 32 with (2 ^ 5). rewrite <- Z.pow_add_r by lia. f_equal. lia. }
    assert (0 <= q < 32) as Hq.
    { pose proof (Z.mod_pos_bound buffer (2 ^ bits) ltac:(lia)). unfold q. split; [apply Z.div_pos; lia|].
      apply Z.div_lt_upper_bound; lia. }
    exists (vs ++ [q]). rewrite base32_char_symbol by done. split_and!; try lia.
    + unfold symbols. by rewrite map_app.
    + by apply digits_snoc.
    + rewrite val_snoc. rewrite Hlow in Hv. rewrite Hp in Hv. lia.
    + rewrite length_app. cbn [length]. lia.
Qed.

Lemma encode_bytes_ok bytes : digits_ok 256 bytes ->
  let '(buffer, bits, out) := foldl encode_byte (0, 0, []) bytes in
  bits < 5 /\ enc_ok (val 256 bytes) (8 * Z.of_nat (length bytes)) buffer bits out.
Proof.
  induction bytes as [|b bytes IH] using rev_ind; intros Hb.
  { split; [lia|]. exists []. cbn. split_and!; done || constructor. }
  apply Forall_app in Hb as [Hb Hb'%Forall_inv]. cbn in Hb'. specialize (IH Hb). rewrite foldl_app.
  destruct (foldl encode_byte (0, 0, []) bytes) as [[buffer bits] out]. destruct IH as [H5 (vs & -> & Hvs & H0 & Hv & Hl)].
  cbn [foldl encode_byte]. destruct (emit_loop _ _ _ _) as [bits' out'] eqn:He.
  eapply emit_loop_ok; [..|exact He]; [lia..|].
  exists vs. split_and!; [done|done|lia| |rewrite length_app; cbn [length]; lia].
  rewrite shift_in by (change (2 ^ 8) with 256; lia). rewrite val_snoc, <- Hv.
  rewrite Z.pow_add_r by lia. change (2 ^ 8) with 256. lia.
Qed.

(** The symbols of an encoding spell its bytes, padded with the fewest zero bits. *)
Lemma encodeBase32_symbols bytes : digits_ok 256 bytes ->
  ∃ vs p, encodeBase32 bytes = symbols vs /\ digits_ok 32 vs /\ 0 <= p < 5 /\
    val 32 vs = val 256 bytes * 2 ^ p /\
    5 * Z.of_nat (length vs) = 8 * Z.of_nat (length bytes) + p.
Proof.
  intros Hb. pose proof (encode_bytes_ok bytes Hb) as H. unfold encodeBase32.
  destruct (foldl encode_byte (0, 0, []) bytes) as [[buffer bits] out].
  destruct H as [H5 (vs & -> & Hvs & H0 & Hv & Hl)]. destruct (Z.ltb_spec 0 bits) as [Hp|Hp].
  - set (q := buffer mod 2 ^ bits * 2 ^ (5 - bits)).
    assert (Z.land (shl buffer (5 - bits)) 31 = q) as ->.
    { change 31 with (2 ^ 5 - 1). rewrite land_low by lia. unfold shl. rewrite to_int32_low by lia.
      rewrite Z.shiftl_mul_pow2 by lia. replace (2 ^ 5) with (2 ^ bits * 2 ^ (5 - bits)).
      - rewrite Z.mul_mod_distr_r by lia. done.
      - rewrite <- Z.pow_add_r by lia. f_equal. lia. }
    assert (2 ^ bits * 2 ^ (5 - bits) = 32) as E.
    { rewrite <- Z.pow_add_r by lia. by replace (bits + (5 - bits)) with 5 by lia. }
    assert (0 <= q < 32) as Hq.
    { pose proof (Z.mod_pos_bound buffer (2 ^ bits) ltac:(lia)). unfold q. nia. }
    exists (vs ++ [q]), (5 - bits). rewrite base32_char_symbol by done. split_and!; try lia.
    + unfold symbols. by rewrite map_app.
    + by apply digits_snoc.
    + rewrite val_snoc, <- Hv. unfold q. rewrite <- E. ring.
    + rewrite length_app. cbn [length]. lia.
  - assert (bits = 0) as -> by lia. exists vs, 0. rewrite Z.mod_1_r in Hv. split_and!; try lia; done.
Qed.

(** ** Decoding *)

Definition dec_ok (total len buffer bits : Z) (out : list Z) : Prop :=
  digits_ok 256 out /\ 0 <= bits < 8 /\
  val 256 out * 2 ^ bits + buffer mod 2 ^ bits = total /\ 8 * Z.of_nat (length out) + bits = len.

Lemma decode_loop_ok vs : ∀ total len buffer bits out, digits_ok 32 vs -> dec_ok total len buffer bits out ->
  ∃ out' buffer' bits', decode_loop (map (λ v, [symbol v]) vs) buffer bits out = Ok out' /\
    dec_ok (total * 32 ^ Z.of_nat (length vs) + val 32 vs) (len + 5 * Z.of_nat (length vs)) buffer' bits' out'.
Proof.
  induction vs as [|v vs IH]; intros total len buffer bits out Hvs Hok.
  { exists out, buffer, bits. split; [done|]. cbn. by rewrite Z.mul_1_r, !Z.add_0_r. }
  apply Forall_cons in Hvs as [Hv Hvs]. destruct Hok as (Hout & Hb & Ht & Hl).
  cbn [map decode_loop]. rewrite symbol_index, Z2Nat.id by lia. cbv zeta.
  assert ((total * 32 + v) * 32 ^ Z.of_nat (length vs) + val 32 vs =
    total * 32 ^ Z.of_nat (length (v :: vs)) + val 32 (v :: vs)) as <-.
  { assert (∀ l a, foldl (λ a d, a * 32 + d) a l = a * 32 ^ Z.of_nat (length l) + val 32 l) as Hfold.
    { clear. induction l as [|d l IH] using rev_ind; intros a; [cbn; lia|].
      rewrite foldl_app, length_app, val_snoc, IH. cbn [foldl length].
      replace (Z.of_nat (length l + 1)) with (Z.succ (Z.of_nat (length l))) by lia.
      rewrite Z.pow_succ_r by lia. ring. }
    unfold val at 2. cbn [foldl length]. rewrite Hfold, Nat2Z.inj_succ, Z.pow_succ_r by lia. ring. }
  replace (len + 5 * Z.of_nat (length (v :: vs))) with (len + 5 + 5 * Z.of_nat (length vs)) by (cbn [length]; lia).
  pose proof (shift_in buffer 5 v bits ltac:(lia) ltac:(lia) ltac:(lia) ltac:(done)) as Hin.
  change (2 ^ 5) with 32 in Hin. set (buffer' := bit_or _ _) in *.
  assert (2 ^ (bits + 5) = 2 ^ bits * 32) as Hp by (by rewrite Z.pow_add_r by lia).
  destruct (Z.leb_spec 8 (bits + 5)) as [H8|H8]; apply IH; [done| |done|]; unfold dec_ok.
  - change 255 with (2 ^ 8 - 1). rewrite shift_out by lia.
    pose proof (low_split buffer' (bits + 5 - 8) 8 ltac:(lia) ltac:(lia)) as Hlow.
    replace (bits + 5 - 8 + 8) with (bits + 5) in * by lia. rewrite Hin in *.
    assert (2 ^ (bits + 5) = 256 * 2 ^ (bits + 5 - 8)) as Hp8.
    { change 256 with (2 ^ 8). rewrite <- Z.pow_add_r by lia. f_equal. lia. }
    set (q := (buffer mod 2 ^ bits * 32 + v) / 2 ^ (bits + 5 - 8)) in *.
    pose proof (Z.mod_pos_bound buffer (2 ^ bits) ltac:(lia)) as Hm.
    split_and!; try lia.
    + apply digits_snoc; [done|]. unfold q.
      split; [apply Z.div_pos; lia|]. apply Z.div_lt_upper_bound; lia.
    + rewrite val_snoc. nia.
    + rewrite length_app. cbn [length]. lia.
  - rewrite Hin. split_and!; [done|lia..| |lia]. rewrite Hp, <- Ht. ring.
Qed.

Lemma code_points_symbols vs : digits_ok 32 vs -> code_points (symbols vs) = map (λ v, [symbol v]) vs.
Proof.
  induction 1 as [|v vs Hv Hvs IH]; [done|]. unfold symbols in *. cbn [map code_points].
  rewrite IH. destruct vs as [|w vs]; [done|]. cbn [map].
  assert (is_high (symbol v) = false) as ->; [|done].
  pose proof (symbol_base32 v Hv) as H. unfold is_base32, is_high in *. lia.
Qed.

Lemma decode_symbols vs : digits_ok 32 vs ->
  ∃ out buffer bits, decode_loop (code_points (symbols vs)) 0 0 [] = Ok out /\
    dec_ok (val 32 vs) (5 * Z.of_nat (length vs)) buffer bits out.
Proof.
  intros Hvs. rewrite code_points_symbols by done.
  destruct (decode_loop_ok vs 0 0 0 0 [] Hvs) as (out & buffer & bits & He & Hd);
    [split; [constructor|done]|]. exists out, buffer, bits. done.
Qed.

(** ** Normalised strings *)

Section base32.
Context `{PlatformLaws}.

Lemma base32_ascii s : forallb is_base32 s = true -> ascii s.
Proof. rewrite forallb_forall. intros Hs. apply Forall_forall. intros c Hc%list_elem_of_In%Hs. unfold is_base32 in Hc. lia. Qed.

Lemma upper_base32 s : forallb is_base32 s = true -> map upper_unit s = s.
Proof.
  induction s as [|c s IH]; [done|]. cbn. intros [Hc Hs]%andb_true_iff. rewrite IH by done. f_equal.
  unfold is_base32, upper_unit in *. destruct ((97 <=? c) && (c <=? 122)) eqn:E; lia.
Qed.

Lemma normaliseBase32_base32 s : forallb is_base32 s = true -> normaliseBase32 s = s.
Proof.
  intros Hs. unfold normaliseBase32.
  assert (List.filter (λ c, negb (is_separator c)) s = s) as ->.
  { clear -Hs. induction s as [|c s IH]; [done|]. cbn in *. apply andb_true_iff in Hs as [Hc Hs].
    assert (is_separator c = false) as -> by (unfold is_separator, is_ws, is_base32 in *; lia).
    cbn. by rewrite IH. }
  assert (span_len (Z.eqb 61) (rev s) = 0%nat) as ->.
  { destruct s as [|c s _] using rev_ind; [done|]. rewrite rev_app_distr. cbn [rev app span_len].
    rewrite forallb_app in Hs. cbn in Hs. apply andb_true_iff in Hs as [_ Hc].
    unfold is_base32 in Hc. destruct (Z.eqb_spec 61 c); [subst; discriminate|done]. }
  rewrite drop_0, rev_involutive, upper_ascii by by apply base32_ascii. by apply upper_base32.
Qed.

Lemma isDecodableBase32_symbols vs : digits_ok 32 vs -> vs <> [] ->
  isDecodableBase32 (symbols vs) =
    existsb (Z.eqb (Z.of_nat (length vs) mod 8)) DECODABLE_BASE32_RESIDUES.
Proof.
  intros Hvs Hne. unfold isDecodableBase32. rewrite symbols_base32 by done.
  unfold symbols. rewrite length_map. by destruct vs.
Qed.

(** The residues: five bits a symbol, eight a byte, fewer than five left over. *)
Lemma residue_rule n m p : 0 <= n -> 0 <= m -> 0 <= p < 8 -> 5 * n = 8 * m + p ->
  existsb (Z.eqb (n mod 8)) DECODABLE_BASE32_RESIDUES = (p <? 5).
Proof.
  intros Hn Hm Hp E. cbn [existsb DECODABLE_BASE32_RESIDUES].
  pose proof (Z.div_mod n 8 ltac:(lia)). pose proof (Z.mod_pos_bound n 8 ltac:(lia)).
  set (r := n mod 8) in *. set (q := n / 8) in *. lia.
Qed.

(** A symbol whose low [p] bits are zero leaves room for any value of them. *)
Lemma pad_room w p : 0 <= p <= 5 -> 0 <= w < 32 -> w mod 2 ^ p = 0 -> w + 2 ^ p <= 32.
Proof.
  intros Hp Hw Hm. pose proof (Z.div_mod w (2 ^ p) ltac:(lia)) as Hd. rewrite Hm, Z.add_0_r in Hd.
  assert (32 = 2 ^ p * 2 ^ (5 - p)) as E by (rewrite <- Z.pow_add_r by lia; by replace (p + (5 - p)) with 5 by lia).
  assert (w / 2 ^ p < 2 ^ (5 - p)) by (apply Z.div_lt_upper_bound; lia).
  assert (0 < 2 ^ p) by lia. rewrite E, Hd. nia.
Qed.

Lemma decodeBase32_symbols vs : digits_ok 32 vs ->
  ∃ out buffer bits, decodeBase32 (symbols vs) = Ok out /\
    dec_ok (val 32 vs) (5 * Z.of_nat (length vs)) buffer bits out.
Proof.
  intros Hvs. unfold decodeBase32. rewrite normaliseBase32_base32 by by apply symbols_base32.
  by apply decode_symbols.
Qed.

(** C33: Encoding loses nothing: every byte string is decoded back from its base32, which is in
    normal form and, unless empty, satisfies the length rule, however often the 32-bit registers
    overflowed on the way. *)
Theorem base32_roundtrip bytes : Forall octet_ok bytes ->
  decodeBase32 (encodeBase32 bytes) = Ok bytes /\
  normaliseBase32 (encodeBase32 bytes) = encodeBase32 bytes /\
  (bytes <> [] -> isDecodableBase32 (encodeBase32 bytes) = true).
Proof.
  intros Hb. destruct (encodeBase32_symbols bytes Hb) as (vs & p & -> & Hvs & Hp & Hv & Hl).
  split_and!; [|by apply normaliseBase32_base32, symbols_base32|].
  - destruct (decodeBase32_symbols vs Hvs) as (out & buffer & bits & -> & Hout & Hbits & Ht & Hlo).
    f_equal. assert (bits = p /\ length out = length bytes) as [-> Hlen] by lia.
    apply (val_inj 256); try done. pose proof (Z.mod_pos_bound buffer (2 ^ p) ltac:(lia)). nia.
  - intros Hne. rewrite isDecodableBase32_symbols by (done || (intros ->; destruct bytes; [done|cbn in Hl; lia])).
    rewrite (residue_rule _ (Z.of_nat (length bytes)) p) by lia. lia.
Qed.

(** The length rule is exact: a base32 string always decodes, to as many whole bytes as it
    holds, and [isDecodableBase32] accepts it exactly when encoding those bytes again gives the
    same string up to the unused bits of its last character; a string it refuses comes back
    shorter, so a character was silently dropped. *)
Theorem isDecodableBase32_exact s : forallb is_base32 s = true -> s <> [] ->
  ∃ out, decodeBase32 s = Ok out /\ Forall octet_ok out /\ length out = (5 * length s / 8)%nat /\
    if isDecodableBase32 s
    then length (encodeBase32 out) = length s /\
         take (length s - 1) (encodeBase32 out) = take (length s - 1) s
    else (length (encodeBase32 out) < length s)%nat.
Proof.
  intros Hs Hne. destruct (symbols_of s Hs) as (vs & Hvs & <-).
  assert (vs <> []) as Hvne by by intros ->.
  destruct (decodeBase32_symbols vs Hvs) as (out & buffer & bits & -> & Hout & Hbits & Ht & Hlo).
  exists out. split; [done|]. split; [done|].
  destruct (encodeBase32_symbols out Hout) as (ws & p & -> & Hws & Hp & Hv & Hl).
  rewrite isDecodableBase32_symbols by done. unfold symbols. rewrite !length_map.
  split; [apply Nat.div_unique with (Z.to_nat bits); lia|].
  rewrite (residue_rule _ (Z.of_nat (length out)) bits) by lia.
  destruct (Z.ltb_spec bits 5); [|lia]. assert (length ws = length vs) as Hlen by lia. split; [done|].
  destruct vs as [|v vs _] using rev_ind; [done|]. destruct ws as [|w ws _] using rev_ind; [rewrite !length_app in Hlen; cbn in Hlen; lia|].
  rewrite !length_app in *. cbn [length] in *. replace (length vs + 1 - 1)%nat with (length vs) by lia.
  apply Forall_app in Hvs as [Hvs Hv'%Forall_inv]. apply Forall_app in Hws as [Hws Hw'%Forall_inv]. cbn in Hv', Hw'.
  assert (bits = p) as -> by lia. rewrite !val_snoc in *.
  assert (ws = vs) as ->.
  { apply (val_inj 32); try done; [lia|]. pose proof (Z.mod_pos_bound buffer (2 ^ p) ltac:(lia)).
    assert (2 ^ p <= 2 ^ 4) by (apply Z.pow_le_mono_r; lia). change (2 ^ 4) with 16 in *.
    (* the unused bits of the last symbol are the only difference *)
    set (u := val 256 out * 2 ^ p) in *. set (r := buffer mod 2 ^ p) in *.
    assert (val 32 ws * 32 + w + r = val 32 vs * 32 + v) by lia.
    assert (w mod 2 ^ p = 0) as Hw0.
    { assert (w = u - val 32 ws * 32) as -> by lia. unfold u.
      assert (32 = 2 ^ (5 - p) * 2 ^ p) as -> by (rewrite <- Z.pow_add_r by lia; by replace (5 - p + p) with 5 by lia).
      rewrite Z.mul_assoc, <- Z.mul_sub_distr_r. apply Z_mod_mult. }
    pose proof (pad_room w p ltac:(lia) Hw' Hw0).
    lia. }
  rewrite !map_app, !take_app_length' by by rewrite length_map. done.
Qed.
End base32.

Lemma base32_roundtrip_witness :
  encodeBase32 [255; 0; 171; 205; 17; 99] = js "74AKXTIRMM" /\
  decodeBase32 (encodeBase32 [255; 0; 171; 205; 17; 99]) = Ok [255; 0; 171; 205; 17; 99] /\
  isDecodableBase32 (js "74AKXTIRMM") = true.
Proof.
  split; [vm_compute; reflexivity|].
  destruct (base32_roundtrip [255; 0; 171; 205; 17; 99]) as (H1 & _ & H3).
  - repeat constructor; discriminate.
  - split; [exact H1|]. exact (H3 ltac:(discriminate)).
Defined.

(** Six characters carry three bytes and drop the sixth. *)
Lemma isDecodableBase32_exact_witness : ∃ out, decodeBase32 (js "MZXW6Y") = Ok out /\
  (length (encodeBase32 out) < 6)%nat.
Proof.
  destruct (isDecodableBase32_exact (js "MZXW6Y") eq_refl ltac:(discriminate)) as (out & H1 & _ & _ & H2).
  exists out. split; [exact H1|exact H2].
Defined.
