(* ===== verification/TotpUriSpec.v ===== *)
(** What lib/totp.ts promises of [otpauth://] URIs: a parsed value is one this application can
    generate codes for, a built URI fits its bound with the secret untouched, parsing a built URI
    gives back what it was built from, and the one way building fails by throwing. *)
From S2P Require Import Prelude UriComponent Totp TotpPlatform Base32Spec.
Local Open Scope Z_scope.

(** ** Well-formed strings *)

Lemma well_formed_prefix a b c : is_high c = false -> is_low c = false ->
  well_formed (a ++ c :: b) = true -> well_formed a = true /\ well_formed b = true.
Proof.
  intros Hh Hl. induction a as [|x r IH IH2] using pair_ind.
  - cbn [app well_formed]. rewrite Hh, Hl. done.
  - cbn [app well_formed]. destruct (is_high x).
    + destruct r as [|d r']; cbn [app].
      * rewrite Hl. done.
      * destruct (is_low d); [|done]. by apply (IH2 d r' eq_refl).
    + destruct (is_low x); [done|]. apply IH.
Qed.

Lemma text_app a b c : is_high c = false -> is_low c = false -> text (a ++ c :: b) -> text a /\ text b.
Proof.
  intros Hh Hl [Hw [Ha [_ Hb]%Forall_cons]%Forall_app].
  by destruct (well_formed_prefix a b c Hh Hl Hw).
Qed.

Lemma encode_text s e : Forall unit_ok s -> encodeURIComponent s = Some e -> text s.
Proof.
  intros Hu He. split; [|done]. pose proof (encodeURIComponent_outcome s Hu) as H.
  destruct (well_formed s); congruence.
Qed.

Lemma encode_decode s e : Forall unit_ok s -> encodeURIComponent s = Some e ->
  decodeURIComponent e = Some s /\ forallb uri_safe e = true.
Proof.
  intros Hu He. pose proof (encodeURIComponent_outcome s Hu) as H.
  destruct (well_formed s); [|congruence]. destruct H as (e' & He' & ? & ?). by simplify_eq.
Qed.

Lemma ascii_text s : ascii s -> text s.
Proof.
  intros Hs. split; [|eapply Forall_impl; [exact Hs|]; unfold unit_ok; cbn; lia].
  induction Hs as [|c s Hc _ IH]; [done|]. cbn [well_formed].
  assert (is_high c = false /\ is_low c = false) as [-> ->] by (unfold is_high, is_low; lia). done.
Qed.

Lemma digits_ascii s : forallb is_digit s = true -> ascii s.
Proof.
  rewrite forallb_forall. intros Hs. apply Forall_forall. intros c Hc%list_elem_of_In%Hs.
  unfold is_digit in Hc. lia.
Qed.

(** ** Building *)

Section uri.
Context `{Platform}.

(** [n - 1], ..., [0]. *)
Fixpoint down (n : nat) : list nat := match n with O => [] | S n => n :: down n end.

(** The labels [buildOtpauthUri] tries, longest first. *)
Definition labels (issuer account : jsstr) : list (jsstr * jsstr) :=
  map (λ n, (issuer, take n account)) (down (S (length account)))
  ++ map (λ n, (take n issuer, [])) (down (length issuer)).

Definition fits (input : OtpauthUriInput) (maxLength : Z) (l : jsstr * jsstr) : bool :=
  match composeUri input l.1 l.2 with Ok u => Z.of_nat (length u) <=? maxLength | Throw _ => true end.

Definition built (input : OtpauthUriInput) (l : jsstr * jsstr) : result UriError (option BuiltOtpauthUri) :=
  match composeUri input l.1 l.2 with
  | Ok u => Ok (Some {| uri := u; truncated := negb (bool_decide (l = (in_issuer input, in_account input))) |})
  | Throw e => Throw e
  end.

Lemma down_lt n k : In k (down n) -> (k < n)%nat.
Proof. induction n as [|n IH]; cbn; [done|]. intros [<-|Hk%IH]; lia. Qed.

Lemma map_take_snoc {B} (f : jsstr -> B) s c n : (n <= S (length s))%nat ->
  map (λ k, f (take k (s ++ [c]))) (down n) = map (λ k, f (take k s)) (down n).
Proof. intros Hn. apply map_ext_in. intros k Hk%down_lt. by rewrite take_app_le by lia. Qed.

Lemma labels_step issuer account c : labels issuer (account ++ [c]) = (issuer, account ++ [c]) :: labels issuer account.
Proof.
  unfold labels. rewrite length_app, Nat.add_1_r. change (down (S (S ?n))) with (S n :: down (S n)).
  cbn [map app]. rewrite take_ge by (rewrite length_app; cbn; lia). f_equal. f_equal.
  by apply (map_take_snoc (pair issuer)).
Qed.

Lemma labels_issuer issuer c : labels (issuer ++ [c]) [] = (issuer ++ [c], []) :: labels issuer [].
Proof.
  unfold labels. rewrite length_app, Nat.add_1_r. cbn [down length map app take]. f_equal.
  rewrite take_app_length. f_equal. apply (map_take_snoc (λ i, (i, []))). lia.
Qed.

Lemma dropLast_snoc s c : dropLast (s ++ [c]) = s.
Proof. unfold dropLast. rewrite length_app. cbn. replace (length s + 1 - 1)%nat with (length s) by lia. by rewrite take_app_length. Qed.

Lemma build_loop_eq input maxLength fuel : ∀ issuer account,
  (length issuer + length account < fuel)%nat ->
  build_loop fuel input maxLength issuer account =
    match List.find (fits input maxLength) (labels issuer account) with
    | Some l => built input l
    | None => Ok None
    end.
Proof.
  induction fuel as [|fuel IH]; intros issuer account Hf; [lia|].
  assert (∃ rest, labels issuer account = (issuer, account) :: rest /\
    rest = if (0 <? length account)%nat then labels issuer (dropLast account)
           else if (0 <? length issuer)%nat then labels (dropLast issuer) account else []) as (rest & El & Er).
  { destruct account as [|c account _] using rev_ind.
    - destruct issuer as [|c issuer _] using rev_ind; [by eexists|].
      rewrite labels_issuer, dropLast_snoc, length_app. cbn [length]. rewrite Nat.add_1_r. by eexists.
    - rewrite labels_step, dropLast_snoc, length_app. cbn [length]. rewrite Nat.add_1_r. by eexists. }
  rewrite El. cbn [build_loop List.find]. unfold fits at 1. cbn [fst snd].
  destruct (composeUri input issuer account) as [u|e] eqn:Ec.
  2: { unfold built. cbn [fst snd]. by rewrite Ec. }
  cbn [result_bind]. destruct (_ <=? _).
  - unfold built. cbn [fst snd]. rewrite Ec. do 3 f_equal.
    rewrite <- negb_andb. f_equal.
    destruct (bool_decide_reflect ((issuer, account) = (in_issuer input, in_account input))) as [[= -> ->]|Hn].
    + by rewrite !bool_decide_eq_true_2.
    + destruct (bool_decide_reflect (issuer = in_issuer input)) as [->|]; [|done].
      rewrite bool_decide_eq_false_2; [done|congruence].
  - rewrite Er. destruct (Nat.ltb_spec 0 (length account)) as [Ha|Ha].
    + apply IH. unfold dropLast. rewrite length_take. lia.
    + destruct (Nat.ltb_spec 0 (length issuer)) as [Hi|Hi]; [|done].
      apply IH. unfold dropLast. rewrite length_take. lia.
Qed.

Lemma buildOtpauthUri_eq input maxLength :
  buildOtpauthUri input maxLength =
    match List.find (fits input maxLength) (labels (in_issuer input) (in_account input)) with
    | Some l => built input l
    | None => Ok None
    end.
Proof. apply build_loop_eq. lia. Qed.

(** [l] is a shortening the builder may try: the account goes first. *)
Definition shortening (input : OtpauthUriInput) (l : jsstr * jsstr) : Prop :=
  l.1 `prefix_of` in_issuer input /\ l.2 `prefix_of` in_account input /\ (l.1 = in_issuer input \/ l.2 = []).

Lemma down_elem n k : In k (down n) <-> (k < n)%nat.
Proof. split; [apply down_lt|]. induction n as [|n IH]; cbn; [lia|]. intros Hk. destruct (decide (n = k)); [by left|right; apply IH; lia]. Qed.

Lemma prefix_take (l k : jsstr) : l `prefix_of` k <-> ∃ n, (n <= length k)%nat /\ l = take n k.
Proof.
  split.
  - intros [r ->]. exists (length l). rewrite take_app_length, length_app. split; [lia|done].
  - intros (n & _ & ->). exists (drop n k). by rewrite take_drop.
Qed.

Lemma labels_elem input l :
  In l (labels (in_issuer input) (in_account input)) <-> shortening input l.
Proof.
  unfold labels, shortening. rewrite in_app_iff, !in_map_iff. destruct l as [i a]. cbn [fst snd]. split.
  - intros [(n & [= <- <-] & Hn%down_elem)|(n & [= <- <-] & Hn%down_elem)].
    + split; [done|]. split; [|by left]. apply prefix_take. exists n. split; [lia|done].
    + split; [apply prefix_take; exists n; split; [lia|done]|]. split; [apply prefix_nil|by right].
  - intros (Hi & Ha & Hor). apply prefix_take in Hi as (n & Hn & ->), Ha as (m & Hm & ->).
    destruct (decide (n = length (in_issuer input))) as [->|Hne].
    + left. exists m. rewrite firstn_all. split; [done|]. apply down_elem. lia.
    + right. exists n. destruct Hor as [E| ->].
      * apply (f_equal length) in E. rewrite length_take in E. lia.
      * split; [done|]. apply down_elem. lia.
Qed.

Definition label_size (l : jsstr * jsstr) : nat := (length l.1 + length l.2)%nat.

Lemma labels_size i a l : In l (labels i a) -> (label_size l <= length i + length a)%nat.
Proof.
  intros H0. set (input := {| in_type := totp; in_secret := []; in_issuer := i; in_account := a;
    in_algorithm := SHA1; in_digits := 0; in_period := 0; in_counter := None |}).
  pose proof (proj1 (labels_elem input l) H0) as (H1%prefix_length & H2%prefix_length & _).
  unfold label_size. cbn in *. lia.
Qed.

Lemma labels_sorted i a : StronglySorted (λ l l', label_size l' < label_size l)%nat (labels i a).
Proof.
  induction a as [|c a IH] using rev_ind.
  - induction i as [|c i IH] using rev_ind; [repeat constructor|].
    rewrite labels_issuer. constructor; [done|]. apply List.Forall_forall. intros l Hl%labels_size.
    unfold label_size in *. cbn in *. rewrite length_app. cbn. lia.
  - rewrite labels_step. constructor; [done|]. apply List.Forall_forall. intros l Hl%labels_size.
    unfold label_size in *. cbn in *. rewrite length_app. cbn. lia.
Qed.

Lemma find_longest {A} (f : A -> bool) size l x y :
  StronglySorted (λ a b, size b < size a)%nat l -> List.find f l = Some x ->
  In y l -> (size x < size y)%nat -> f y = false.
Proof.
  induction 1 as [|z l _ IH Hall]; [done|]. cbn. destruct (f z) eqn:Ez.
  - intros [= <-] [<-|Hy] Hlt; [lia|]. rewrite List.Forall_forall in Hall. specialize (Hall y Hy). lia.
  - intros Hf [<-|Hy] Hlt; [done|]. by apply IH.
Qed.

Definition surrogate (c : Z) : bool := is_high c || is_low c.

Lemma no_surrogates_text s : existsb surrogate s = false -> well_formed s = true.
Proof.
  induction s as [|c s IH]; [done|]. cbn. intros [Hc Hs]%orb_false_iff.
  unfold surrogate in Hc. apply orb_false_iff in Hc as [-> ->]. cbn. by apply IH.
Qed.

Lemma prefix_surrogates s s' : s `prefix_of` s' -> existsb surrogate s' = false -> existsb surrogate s = false.
Proof. intros [r ->]. rewrite existsb_app. by intros [? _]%orb_false_iff. Qed.

Lemma throws_on_surrogate input l : shortening input l -> encodeURIComponent (labelOf l.1 l.2) = None ->
  Forall unit_ok (in_issuer input ++ in_account input) ->
  existsb surrogate (in_issuer input ++ in_account input) = true.
Proof.
  intros (Hi & Ha & _) He Hu. destruct (existsb _ _) eqn:Es; [done|]. exfalso.
  rewrite existsb_app in Es. apply orb_false_iff in Es as [Hsi Hsa]. apply Forall_app in Hu as [Hui Hua].
  assert (Forall unit_ok l.1 /\ Forall unit_ok l.2) as [Hu1 Hu2].
  { destruct Hi as [r Hr], Ha as [r' Hr']. rewrite Hr in Hui. rewrite Hr' in Hua.
    apply Forall_app in Hui as [? _], Hua as [? _]. done. }
  apply (prefix_surrogates _ _ Hi) in Hsi. apply (prefix_surrogates _ _ Ha) in Hsa.
  assert (Forall unit_ok (labelOf l.1 l.2)) as Hul.
  { unfold labelOf. destruct (_ <? _)%nat; [|done]. apply Forall_app. split; [done|].
    constructor; [done|done]. }
  pose proof (encodeURIComponent_outcome _ Hul) as Ho. rewrite no_surrogates_text in Ho; [destruct Ho as (? & ? & _); congruence|].
  unfold labelOf. destruct (_ <? _)%nat; [|done]. rewrite existsb_app, Hsi. done.
Qed.

(** Building terminates in one of three ways.  A built URI fits the bound, carries the
    secret and the parameters it was given and the longest label that fits, shortening the
    account before the issuer, and reports a shortened label; [null] means that even the URI
    without a label is too long; and a [URIError] means that some label it tried has a lone
    surrogate, which cannot happen to a label without surrogates. *)
Theorem buildOtpauthUri_outcome input maxLength :
  match buildOtpauthUri input maxLength with
  | Ok (Some b) =>
      ∃ l, shortening input l /\ composeUri input l.1 l.2 = Ok (uri b) /\
        Z.of_nat (length (uri b)) <= maxLength /\
        (truncated b = false <-> l = (in_issuer input, in_account input)) /\
        ∀ l', shortening input l' -> (label_size l < label_size l')%nat ->
          ∃ u, composeUri input l'.1 l'.2 = Ok u /\ maxLength < Z.of_nat (length u)
  | Ok None => ∃ u, composeUri input [] [] = Ok u /\ maxLength < Z.of_nat (length u)
  | Throw URIError =>
      (∃ l, shortening input l /\ encodeURIComponent (labelOf l.1 l.2) = None) /\
      (Forall unit_ok (in_issuer input ++ in_account input) ->
       existsb surrogate (in_issuer input ++ in_account input) = true)
  end.
Proof.
  assert (∀ l', fits input maxLength l' = false ->
    ∃ u, composeUri input l'.1 l'.2 = Ok u /\ maxLength < Z.of_nat (length u)) as Hlong.
  { intros l'. unfold fits. destruct (composeUri _ _ _) as [u|]; [|done]. intros ?. exists u. split; [done|lia]. }
  rewrite buildOtpauthUri_eq.
  destruct (List.find _ _) as [l|] eqn:Hf.
  - pose proof Hf as [Hin Hfit]%find_some. rewrite labels_elem in Hin.
    unfold built, fits in Hfit |- *. destruct (composeUri input l.1 l.2) as [u|e] eqn:Ec.
    + exists l. cbn [uri truncated]. split_and!; [apply Hin..|done|lia| |].
      * rewrite negb_false_iff. apply bool_decide_eq_true.
      * intros l' Hl' Hlt. apply Hlong.
        apply (find_longest _ label_size _ l l' (labels_sorted _ _) Hf); [by apply labels_elem|done].
    + destruct e. assert (encodeURIComponent (labelOf l.1 l.2) = None) as He.
      { unfold composeUri in Ec. by destruct (encodeURIComponent _). }
      split; [by exists l|]. intros Hu. by apply (throws_on_surrogate input l).
  - apply (Hlong ([], [])). apply (find_none _ _ Hf). apply labels_elem.
    split; [apply prefix_nil|]. split; [apply prefix_nil|by right].
Qed.

(** Encoding refuses a string that ends in the middle of a pair. *)
Lemma encode_ends_high s h : is_high h = true -> encodeURIComponent (s ++ [h]) = None.
Proof.
  intros Hh. assert (unreserved h = false) as Hu.
  { unfold unreserved, is_alnum, is_digit, js, is_high in *. cbn. lia. }
  induction s as [|c r IH IH2] using pair_ind; cbn [app encodeURIComponent].
  - by rewrite Hu, Hh.
  - rewrite IH. destruct (unreserved c); [done|]. destruct (is_high c); [|by destruct (is_low c)].
    destruct r as [|d r']; cbn [app].
    + assert (is_low h = false) as -> by (unfold is_high, is_low in *; lia). done.
    + rewrite (IH2 d r' eq_refl). by destruct (is_low d).
Qed.

(** A label that must be shortened and ends with a surrogate pair (an emoji) makes building
    throw, although the function is meant to answer a URI that fits or [null]: the first unit
    removed leaves a lone surrogate, which [encodeURIComponent] refuses. *)
Theorem buildOtpauthUri_splits_pair input maxLength a h l u :
  in_account input = a ++ [h; l] -> is_high h = true -> is_low l = true ->
  composeUri input (in_issuer input) (in_account input) = Ok u -> maxLength < Z.of_nat (length u) ->
  buildOtpauthUri input maxLength = Throw URIError.
Proof.
  intros Ha Hh Hl Hu Hlong. rewrite buildOtpauthUri_eq.
  assert (encodeURIComponent (labelOf (in_issuer input) (a ++ [h])) = None) as Hnone.
  { unfold labelOf. destruct (_ <? _)%nat; [rewrite !app_assoc|]; by apply encode_ends_high. }
  assert (composeUri input (in_issuer input) (a ++ [h]) = Throw URIError) as Ht by (unfold composeUri; by rewrite Hnone).
  rewrite Ha in *. change [h; l] with ([h] ++ [l]) in *. rewrite app_assoc in *.
  rewrite labels_step. cbn [List.find]. unfold fits at 1. cbn [fst snd]. rewrite Hu.
  replace (Z.of_nat (length u) <=? maxLength) with false by lia.
  rewrite labels_step. cbn [List.find]. unfold fits at 1. cbn [fst snd]. rewrite Ht.
  unfold built. cbn [fst snd]. by rewrite Ht.
Qed.

(** ** Parsing *)

Context `{!PlatformLaws}.

(** What a value this application can use looks like. *)
Definition usable (v : ParsedTotp) : Prop :=
  isDecodableBase32 (parsed_secret v) = true /\
  (∃ key, decodeBase32 (parsed_secret v) = Ok key /\ key <> [] /\ Forall octet_ok key) /\
  In (parsed_digits v) SUPPORTED_DIGITS /\ 0 < parsed_period v <= MAX_SAFE_INTEGER /\
  match parsed_counter v with Some c => parsed_type v = hotp /\ all_digits c = true | None => True end.

Lemma decodable_key s : isDecodableBase32 s = true ->
  forallb is_base32 s = true /\ ∃ key, decodeBase32 s = Ok key /\ key <> [] /\ Forall octet_ok key.
Proof.
  intros Hd. pose proof Hd as Hd'. unfold isDecodableBase32 in Hd'.
  destruct (Nat.eqb_spec (length s) 0) as [|Hne]; [done|]. destruct (forallb is_base32 s) eqn:Hs; [|done].
  split; [done|]. destruct (symbols_of s Hs) as (vs & Hvs & <-).
  destruct (decodeBase32_symbols vs Hvs) as (key & buffer & bits & -> & Hk & Hb & _ & Hl).
  exists key. split; [done|]. split; [|done]. intros ->. unfold symbols in Hne. rewrite length_map in Hne.
  rewrite isDecodableBase32_symbols in Hd by (done || by intros ->).
  rewrite (residue_rule _ 0 bits) in Hd by (cbn in Hl; lia). cbn in Hl. lia.
Qed.

Lemma positiveInteger_bounds s n : positiveInteger s = Some n -> 0 < n <= MAX_SAFE_INTEGER.
Proof. unfold positiveInteger. destruct (all_digits s); [|done]. destruct (_ && _) eqn:E; [|done]. intros [= <-]. cbn in *. lia. Qed.

Lemma readDigits_ok raw d : readDigits raw = Ok d -> In d SUPPORTED_DIGITS.
Proof.
  unfold readDigits. destruct (given raw) as [s|]; [|intros [= <-]; by left].
  destruct (positiveInteger s) as [n|]; [|done]. destruct (existsb _ _) eqn:E; [|done].
  intros [= <-]. apply existsb_exists in E as (x & Hx & ->%Z.eqb_eq). done.
Qed.

Lemma readPeriod_ok raw p : readPeriod raw = Ok p -> 0 < p <= MAX_SAFE_INTEGER.
Proof.
  unfold readPeriod. destruct (given raw) as [s|]; [|intros [= <-]; done].
  destruct (positiveInteger s) as [n|] eqn:E; [|done]. intros [= <-]. by eapply positiveInteger_bounds.
Qed.

(** Whatever is stored, parsing answers one of the declared failures or a value this
    application can use: a base32 secret that decodes to at least one whole byte, a supported
    algorithm and digit count, a positive period, and a counter only for a counter-based code. *)
Theorem parseTotpValue_usable raw v : parseTotpValue raw = Ok v -> usable v.
Proof.
  assert (∀ k i a al c s d p, isDecodableBase32 s = true -> In d SUPPORTED_DIGITS -> 0 < p <= MAX_SAFE_INTEGER ->
    match c with Some c => k = hotp /\ all_digits c = true | None => True end ->
    usable (Build_ParsedTotp k s i a al d p c)) as Hok.
  { intros k i a al c s d p Hs Hd Hp Hc. destruct (decodable_key s Hs) as [_ Hk]. done. }
  unfold parseTotpValue. destruct (_ =? _)%nat; [done|]. destruct (isOtpauth _).
  - unfold parseOtpauthUri. destruct (new_URL _) as [url|]; [|done]. destruct (kindOf _) as [k|]; [|done].
    destruct (searchParam url (js "secret")) as [sp|]; [|done]. destruct (_ =? _)%nat; [done|].
    destruct (isDecodableBase32 (normaliseBase32 sp)) eqn:Es; [|done]. cbn [negb].
    destruct (decodeURIComponent _) as [label|]; [|done]. destruct (splitLabel label) as [li acc].
    destruct (readAlgorithm _) as [al|]; [|done]. cbn [result_bind].
    destruct (readDigits _) as [d|] eqn:Ed; [|done]. cbn [result_bind].
    destruct (readPeriod _) as [p|] eqn:Ep; [|done]. cbn [result_bind]. intros [= <-].
    apply Hok; [done|by eapply readDigits_ok|by eapply readPeriod_ok|].
    destruct k, (searchParam url (js "counter")) as [c|]; cbn [readCounter]; try done.
    by destruct (all_digits c) eqn:Ec.
  - destruct (isDecodableBase32 _) eqn:Es; [|done]. intros [= <-]. apply Hok; try done. by left.
Qed.
End uri.

(** An account name of sixty emoji, on the bound the application stores under. *)
Definition emoji_input : OtpauthUriInput :=
  {| in_type := totp; in_secret := js "JBSWY3DPEHPK3PXP"; in_issuer := js "GitHub";
     in_account := mjoin (repeat [55357; 56832] 60); in_algorithm := SHA1; in_digits := 6; in_period := 30;
     in_counter := None |}.

Lemma buildOtpauthUri_splits_pair_witness :
  buildOtpauthUri emoji_input 500 = Throw URIError /\
  ∃ u, composeUri emoji_input [] [] = Ok u /\ Z.of_nat (length u) <= 500.
Proof.
  split.
  - destruct (composeUri emoji_input (in_issuer emoji_input) (in_account emoji_input)) as [u|] eqn:E.
    + eapply (buildOtpauthUri_splits_pair emoji_input 500 (mjoin (repeat [55357; 56832] 59)) 55357 56832 u);
        [reflexivity|reflexivity|reflexivity|exact E|].
      vm_compute in E. injection E as <-. vm_compute. reflexivity.
    + vm_compute in E. discriminate.
  - eexists. split; [vm_compute; reflexivity|]. vm_compute. discriminate.
Defined.

Lemma parseTotpValue_usable_witness : ∃ v, parseTotpValue (js "  jbsw-y3dp ehpk 3pxp== ") = Ok v /\
  parsed_secret v = js "JBSWY3DPEHPK3PXP" /\ usable v.
Proof.
  eexists. split; [vm_compute; reflexivity|]. split; [vm_compute; reflexivity|].
  apply (parseTotpValue_usable (js "  jbsw-y3dp ehpk 3pxp== ")). vm_compute. reflexivity.
Defined.

Local Open Scope Z_scope.

(** ** Decimal text *)

Definition decimal_step (n c : Z) : Z := n * 10 + (c - 48).

Lemma pretty_N_char_digit m : (m < 10)%N -> Z.of_N (Ascii.N_of_ascii (pretty_N_char m)) = 48 + Z.of_N m.
Proof.
  intros Hm.
  assert (m = 0 \/ m = 1 \/ m = 2 \/ m = 3 \/ m = 4 \/ m = 5 \/ m = 6 \/ m = 7 \/ m = 8 \/ m = 9)%N as Hd by lia.
  repeat destruct Hd as [->|Hd]; try reflexivity. by subst.
Qed.

Lemma decimal_pretty x s :
  foldl decimal_step 0 (js (pretty_N_go x s)) = foldl decimal_step (Z.of_N x) (js s).
Proof.
  revert s. induction (N.lt_wf_0 x) as [x _ IH]; intros s.
  destruct (decide (0 < x)%N) as [Hx|Hx].
  - rewrite pretty_N_go_step by done. rewrite IH by by apply N.div_lt.
    rewrite js_cons. cbn [foldl]. f_equal. rewrite pretty_N_char_digit by by apply N.mod_lt.
    unfold decimal_step. pose proof (N.div_mod x 10 ltac:(lia)). lia.
  - replace x with 0%N by lia. by rewrite pretty_N_go_0.
Qed.

Lemma decimal_num n : 0 <= n -> decimal (num n) = n.
Proof.
  intros Hn. unfold num, decimal. destruct n as [|p|p]; [done| |lia].
  change (pretty (Z.pos p)) with (pretty_N_go (N.pos p) ""). by rewrite (decimal_pretty _ "").
Qed.

Lemma num_not_nil n : 0 <= n -> num n <> [].
Proof. intros Hn E. destruct (decide (n = 0)) as [->|]; [done|]. pose proof (decimal_num n Hn) as H. rewrite E in H. cbn in H. lia. Qed.

Lemma all_digits_num n : 0 <= n -> all_digits (num n) = true.
Proof.
  intros Hn. unfold all_digits. rewrite num_digits by done. pose proof (num_not_nil n Hn).
  by destruct (num n).
Qed.

Lemma positiveInteger_num n : 0 < n <= MAX_SAFE_INTEGER -> positiveInteger (num n) = Some n.
Proof.
  intros Hn. unfold positiveInteger. rewrite all_digits_num, decimal_num by lia. cbn [negb].
  by replace ((n <=? MAX_SAFE_INTEGER) && (0 <? n)) with true by lia.
Qed.

Lemma given_Some s : s <> [] -> given (Some s) = Some s.
Proof. by destruct s. Qed.

Lemma ascii_check s : forallb (λ c, (0 <=? c) && (c <? 128)) s = true -> ascii s.
Proof. rewrite forallb_forall. intros Hs. apply Forall_forall. intros c Hc%list_elem_of_In%Hs. lia. Qed.

(** ** The round trip *)

Section roundtrip.
Context `{PlatformLaws}.

(** The inputs the application builds from: a valid key and parameters, and labels without the
    separator (a label without an issuer also not a dot segment of a path). *)
Record input_ok (input : OtpauthUriInput) : Prop := {
  ok_secret : isDecodableBase32 (in_secret input) = true;
  ok_digits : In (in_digits input) SUPPORTED_DIGITS;
  ok_period : 0 < in_period input <= MAX_SAFE_INTEGER;
  ok_counter : all_digits (default (js "0") (in_counter input)) = true;
  ok_units : Forall unit_ok (in_issuer input ++ in_account input);
  ok_issuer : existsb (Z.eqb 58) (in_issuer input) = false;
  ok_account : in_issuer input = [] ->
    existsb (Z.eqb 58) (in_account input) = false /\ head (in_account input) <> Some 46;
}.

Lemma lookup_paramsOf input i :
  lookup_param (js "secret") (paramsOf input i) = Some (in_secret input) /\
  given (lookup_param (js "issuer") (paramsOf input i)) = given (Some i) /\
  lookup_param (js "algorithm") (paramsOf input i) = Some (algorithm_name (in_algorithm input)) /\
  lookup_param (js "digits") (paramsOf input i) = Some (num (in_digits input)) /\
  lookup_param (js "period") (paramsOf input i) =
    match in_type input with totp => Some (num (in_period input)) | hotp => None end /\
  lookup_param (js "counter") (paramsOf input i) =
    match in_type input with hotp => Some (default (js "0") (in_counter input)) | totp => None end.
Proof. unfold paramsOf. destruct i, (in_type input); cbn [length]; split_and!; reflexivity. Qed.

Lemma paramsOf_text input i : input_ok input -> text i ->
  NoDup (map fst (paramsOf input i)) /\ Forall (λ p, text p.1 /\ text p.2) (paramsOf input i).
Proof.
  intros Hok Hi. split; [unfold paramsOf; destruct i, (in_type input); by apply (bool_decide_unpack _)|].
  assert (∀ s, forallb (λ c, (0 <=? c) && (c <? 128)) s = true -> text s) as Hlit
    by (intros s Hs; by apply ascii_text, ascii_check).
  assert (text (in_secret input)) as H1 by (apply ascii_text, base32_ascii; apply decodable_key, Hok).
  assert (∀ n, 0 <= n -> text (num n)) as H2 by (intros n Hn; by apply ascii_text, digits_ascii, num_digits).
  assert (text (default (js "0") (in_counter input))) as H3.
  { apply ascii_text, digits_ascii. pose proof (ok_counter input Hok) as Hc. unfold all_digits in Hc.
    by apply andb_true_iff in Hc as [_ ?]. }
  assert (text (algorithm_name (in_algorithm input))) as H4 by (destruct (in_algorithm input); by apply Hlit).
  assert (0 <= in_digits input) as Hd by (destruct (ok_digits input Hok) as [<-|[<-|[<-|[]]]]; lia).
  pose proof (ok_period input Hok). unfold paramsOf.
  destruct i, (in_type input); cbn [length Nat.ltb Nat.leb app];
    repeat (apply Forall_cons; split; [split; cbn [fst snd]|]);
    try apply Forall_nil; try (by apply Hlit); try done; apply H2; lia.
Qed.

Lemma uri_safe_solid s : forallb uri_safe s = true -> existsb is_ws s = false.
Proof.
  intros Hs. rewrite forallb_forall in Hs. destruct (existsb is_ws s) eqn:E; [|done].
  apply existsb_exists in E as (c & Hc%Hs & Hw). exfalso. revert Hc Hw.
  unfold uri_safe, unreserved, is_alnum, is_digit, is_ws, js. cbn. lia.
Qed.

Lemma base32_safe s : forallb is_base32 s = true -> forallb uri_safe s = true.
Proof.
  rewrite !forallb_forall. intros Hs c Hc%Hs. unfold is_base32 in Hc.
  unfold uri_safe, unreserved, is_alnum, is_digit. do 2 (apply orb_true_iff; left). lia.
Qed.

Lemma decodable_not_nil s : isDecodableBase32 s = true -> s <> [].
Proof. by intros Hs ->. Qed.

Lemma trim_drop_spaces s : trim (drop (span_len (Z.eqb 32) s) s) = trim s.
Proof.
  unfold trim. f_equal. rewrite <- (take_drop (span_len (Z.eqb 32) s) s) at 3.
  symmetry. apply trimStart_ws. pose proof (span_len_take (Z.eqb 32) s) as Hs.
  rewrite forallb_forall in *. intros c Hc%Hs. apply Z.eqb_eq in Hc as <-. done.
Qed.

Lemma no_colon s : existsb (Z.eqb 58) s = false -> forallb (λ x, negb (58 =? x)) s = true.
Proof. rewrite forallb_forall. intros Hs x Hx. destruct (Z.eqb_spec 58 x); [|done]. subst.
  assert (existsb (Z.eqb 58) s = true); [|congruence]. apply existsb_exists. by exists 58. Qed.

Lemma splitLabel_labelOf i a :
  existsb (Z.eqb 58) i = false -> (i = [] -> existsb (Z.eqb 58) a = false) ->
  ∃ li, splitLabel (labelOf i a) = (li, trim a) /\ (i = [] -> li = []).
Proof.
  intros Hi Ha. unfold splitLabel, labelOf. destruct (Nat.ltb_spec 0 (length i)) as [Hl|Hl].
  - pose proof (find_from_hit (Z.eqb 58) [] i 58 a (no_colon i Hi) eq_refl) as Hf. cbn [app length] in Hf.
    change (js ":" ++ a) with (58 :: a). unfold indexOf. rewrite Hf. eexists. split.
    + f_equal. rewrite Nat.add_1_r. rewrite <- (trim_drop_spaces a).
      assert (drop (S (0 + length i)) (i ++ 58 :: a) = a) as ->; [|done].
      rewrite cons_middle, app_assoc. apply drop_app_length'. rewrite length_app. cbn. lia.
    + intros ->. cbn in Hl. lia.
  - assert (i = []) as -> by (destruct i; [done|cbn in Hl; lia]).
    pose proof (find_from_miss (Z.eqb 58) [] a (no_colon a (Ha eq_refl))) as Hf. cbn [app length] in Hf.
    unfold indexOf. rewrite Hf. by eexists.
Qed.

Lemma prefix_existsb (p : Z -> bool) s s' : s `prefix_of` s' -> existsb p s' = false -> existsb p s = false.
Proof. intros [r ->]. rewrite existsb_app. by intros [? _]%orb_false_iff. Qed.

(** What a shortened label keeps of an accepted one. *)
Lemma shortening_ok input l : input_ok input -> shortening input l ->
  Forall unit_ok (labelOf l.1 l.2) /\ existsb (Z.eqb 58) l.1 = false /\
  (l.1 = [] -> existsb (Z.eqb 58) l.2 = false) /\ dot_segment (labelOf l.1 l.2) = false.
Proof.
  intros Hok (Hi & Ha & Hor). destruct l as [i a]. cbn [fst snd] in *.
  pose proof (ok_units input Hok) as [Hui Hua]%Forall_app.
  assert (Forall unit_ok i /\ Forall unit_ok a) as [Hu1 Hu2].
  { destruct Hi as [r Hr], Ha as [r' Hr']. rewrite Hr in Hui. rewrite Hr' in Hua.
    apply Forall_app in Hui as [? _], Hua as [? _]. done. }
  assert (existsb (Z.eqb 58) i = false) as Hci by (eapply prefix_existsb; [exact Hi|apply Hok]).
  assert (i = [] -> existsb (Z.eqb 58) a = false /\ head a <> Some 46) as Hca.
  { intros ->. destruct Hor as [E| ->]; [|done]. destruct (ok_account input Hok (eq_sym E)) as [H1 H2].
    split; [by eapply prefix_existsb|]. destruct Ha as [r Hr], a as [|c a]; [done|]. by rewrite Hr in H2. }
  split; [|split; [done|split; [intros Hn; by apply Hca|]]].
  - unfold labelOf. destruct (_ <? _)%nat; [|done]. apply Forall_app. split; [done|]. by constructor.
  - apply orb_false_iff. unfold labelOf. destruct (Nat.ltb_spec 0 (length i)).
    + assert (∀ d, existsb (Z.eqb 58) d = false -> bool_decide (i ++ js ":" ++ a = d) = false) as Hd; [|by split; apply Hd].
      intros d Hd. apply bool_decide_eq_false. intros <-. rewrite existsb_app in Hd. apply orb_false_iff in Hd as [_ Hd]. done.
    + assert (i = []) as Hn by (destruct i; [done|cbn in *; lia]). destruct (Hca Hn) as [_ Hh].
      split; apply bool_decide_eq_false; intros ->; done.
Qed.

(** What parsing gives back of an input whose label was shortened to [l]. *)
Definition expected (input : OtpauthUriInput) (l : jsstr * jsstr) : ParsedTotp :=
  {| parsed_type := in_type input; parsed_secret := in_secret input;
     parsed_issuer := l.1; parsed_account := trim l.2;
     parsed_algorithm := in_algorithm input; parsed_digits := in_digits input;
     parsed_period := match in_type input with totp => in_period input | hotp => default_period end;
     parsed_counter := match in_type input with
                       | hotp => Some (default (js "0") (in_counter input)) | totp => None end |}.

Lemma kindOf_name k : kindOf (lowerHost (kind_name k)) = Some k.
Proof. rewrite lower_ascii by (destruct k; by apply ascii_check). by destruct k. Qed.

Lemma readAlgorithm_name a : readAlgorithm (Some (algorithm_name a)) = Ok a.
Proof.
  unfold readAlgorithm. rewrite given_Some by by destruct a.
  rewrite upper_ascii by (destruct a; by apply ascii_check). by destruct a.
Qed.

Lemma readDigits_num d : In d SUPPORTED_DIGITS -> readDigits (Some (num d)) = Ok d.
Proof. by intros [<-|[<-|[<-|[]]]]. Qed.

Lemma readPeriod_num p : 0 < p <= MAX_SAFE_INTEGER -> readPeriod (Some (num p)) = Ok p.
Proof.
  intros Hp. unfold readPeriod. rewrite given_Some by (apply num_not_nil; lia). by rewrite positiveInteger_num.
Qed.

Lemma composed_solid input i path : forallb uri_safe path = true ->
  let u := js "otpauth://" ++ kind_name (in_type input) ++ js "/" ++ path ++ js "?" ++ searchParamsString (paramsOf input i) in
  trim u = u /\ isOtpauth u = true /\ u <> [].
Proof.
  intros Hp u. split; [|done]. apply trim_solid_self; [|done]. unfold u.
  rewrite !existsb_app, params_solid, (uri_safe_solid path) by done. destruct (in_type input); reflexivity.
Qed.

Lemma parse_composed input l u : input_ok input -> shortening input l ->
  composeUri input l.1 l.2 = Ok u -> parseTotpValue u = Ok (expected input l).
Proof.
  intros Hok Hl Hu. destruct (shortening_ok input l Hok Hl) as (Hunits & Hci & Hca & Hdot).
  destruct l as [i a]. cbn [fst snd] in *. unfold composeUri in Hu.
  destruct (encodeURIComponent (labelOf i a)) as [path|] eqn:He; [|done]. apply Ok_inj in Hu as <-.
  destruct (encode_decode _ _ Hunits He) as [Hdec Hsafe]. pose proof (encode_text _ _ Hunits He) as Htext.
  assert (text i) as Hti.
  { unfold labelOf in Htext. destruct (Nat.ltb_spec 0 (length i)).
    - by apply (text_app i a 58) in Htext as [? _].
    - by assert (i = []) as -> by (destruct i; [done|cbn in *; lia]). }
  destruct (composed_solid input i path Hsafe) as (Htrim & Hotp & Hne).
  destruct (paramsOf_text input i Hok Hti) as [Hnd Hall].
  destruct (url_otpauth (in_type input) _ path (paramsOf input i) Htext He Hdot Hnd Hall) as (url & Hurl & Hhost & Hpath & Hget).
  destruct (lookup_paramsOf input i) as (Gs & Gi & Ga & Gd & Gp & Gc).
  destruct (splitLabel_labelOf i a Hci Hca) as (li & Hsplit & Hli).
  destruct (decodable_key _ (ok_secret input Hok)) as [Hb32 _].
  unfold parseTotpValue. cbv zeta in Htrim, Hotp, Hne. rewrite Htrim, Hotp.
  destruct (Nat.eqb_spec (length (js "otpauth://" ++ kind_name (in_type input) ++ js "/" ++ path ++ js "?" ++
    searchParamsString (paramsOf input i))) 0) as [Hz|_]; [by apply nil_length_inv in Hz|].
  unfold parseOtpauthUri. rewrite Hurl, Hhost, kindOf_name, !Hget, Gs, Ga, Gd, Gp, Gc, Hpath.
  rewrite (normaliseBase32_base32 _ Hb32), (ok_secret input Hok). cbn [negb].
  rewrite trim_solid_self; [|by apply uri_safe_solid, base32_safe|by apply decodable_not_nil, Hok].
  destruct (Nat.eqb_spec (length (in_secret input)) 0) as [Hz|_];
    [by apply nil_length_inv, (decodable_not_nil _ (ok_secret input Hok)) in Hz|].
  change (withoutSlash (js "/" ++ path)) with path. rewrite Hdec, Hsplit, Gi.
  rewrite readAlgorithm_name. cbn [result_bind]. rewrite readDigits_num by apply Hok. cbn [result_bind].
  assert (default li (given (Some i)) = i) as -> by (destruct i; [by apply Hli|done]).
  pose proof (ok_counter input Hok) as Hc. unfold expected.
  destruct (in_type input); [rewrite readPeriod_num by apply Hok; done|].
  cbn [readPeriod given result_bind readCounter fst snd]. by rewrite Hc.
Qed.

(** C37: Building and parsing are inverse: a URI built from a valid key and parameters, the label
    shortened or not, parses back to the same key, algorithm, digit count, period or counter,
    issuer and (trimmed) account; when no shortening was needed the labels are the full ones. *)
Theorem parse_buildOtpauthUri input maxLength b :
  input_ok input -> buildOtpauthUri input maxLength = Ok (Some b) ->
  ∃ l, shortening input l /\ parseTotpValue (uri b) = Ok (expected input l) /\
    (truncated b = false -> l = (in_issuer input, in_account input)).
Proof.
  intros Hok. rewrite buildOtpauthUri_eq. destruct (List.find _ _) as [l|] eqn:Hf; [|done].
  apply find_some in Hf as [Hin _]. rewrite labels_elem in Hin. unfold built.
  destruct (composeUri input l.1 l.2) as [u|] eqn:Hu; [|done]. intros [= <-]. exists l. split; [done|].
  split; [by apply parse_composed|]. cbn [truncated]. intros Ht%negb_false_iff. by apply bool_decide_eq_true in Ht.
Qed.
End roundtrip.

Definition github : OtpauthUriInput :=
  {| in_type := hotp; in_secret := js "JBSWY3DPEHPK3PXP"; in_issuer := js "Git Hub & co";
     in_account := js "alice@example.com"; in_algorithm := SHA256; in_digits := 8; in_period := 30;
     in_counter := Some (js "18446744073709551615") |}.

Lemma github_ok : input_ok github.
Proof.
  constructor; try reflexivity; try discriminate.
  - right. right. left. reflexivity.
  - split; [reflexivity|discriminate].
  - exact (proj2 (ascii_text _ (ascii_check (in_issuer github ++ in_account github) eq_refl))).
Qed.

Lemma parse_buildOtpauthUri_witness : ∃ b, buildOtpauthUri github 500 = Ok (Some b) /\
  truncated b = false /\
  parseTotpValue (uri b) = Ok (expected github (js "Git Hub & co", js "alice@example.com")).
Proof.
  eexists. split; [vm_compute; reflexivity|]. split; [reflexivity|].
  edestruct (parse_buildOtpauthUri github 500) as (l & _ & Hp & Hl);
    [exact github_ok|vm_compute; reflexivity|].
  rewrite (Hl eq_refl) in Hp. exact Hp.
Defined.
