(* ===== verification/ScanSession.v ===== *)
(** services/totpImport/scanSession.ts: the keys decoded from an export, held by reference while
    the import page is open and overwritten on teardown.

    A key is a [Uint8Array], which the reader's entries and the session's map share: it is a
    reference into [heap], and zeroing it through the map is seen through every other
    reference. *)
From S2P Require Import Prelude UriComponent MigrationReader Totp.
Local Open Scope Z_scope.

(** A decoded account, as [readMigrationPayload] hands it over, its key by reference. *)
Record KeyedEntry := {
  key_type : OtpType;
  key_ref : nat;
  key_name : jsstr;
  key_issuer : jsstr;
  key_algorithm : MigrationAlgorithm;
  key_digits : DigitCount;
  key_counter : option jsstr;
}.

Record ScannedEntry := {
  id : jsstr;
  scanned_type : OtpType;
  scanned_issuer : jsstr;
  scanned_account : jsstr;
  scanned_algorithm : MigrationAlgorithm;
  scanned_digits : DigitCount;
  scanned_counter : option jsstr;
  generatable : bool;
  labelTruncated : bool;
}.

(** The module's variables, and the byte arrays of the page. *)
Record Session := {
  heap : gmap nat (list Z);
  held : gmap jsstr nat;
  nextId : Z;
}.

Definition MAX_LOGIN_TOTP_LENGTH : Z := 500.

(** The string literals of the two modules' unions name the same values. *)
Definition kind_of (t : OtpType) : TotpKind :=
  match t with MigrationReader.totp => Totp.totp | MigrationReader.hotp => Totp.hotp end.

Definition isGeneratable (a : MigrationAlgorithm) : option TotpAlgorithm :=
  match a with
  | MigrationReader.SHA1 => Some Totp.SHA1
  | MigrationReader.SHA256 => Some Totp.SHA256
  | MigrationReader.SHA512 => Some Totp.SHA512
  | MD5 => None
  end.

Definition digit_count (d : DigitCount) : Z := match d with six => 6 | eight => 8 end.

Section session.
Context `{Platform}.

(** The bytes behind a reference. *)
Definition bytes_at (s : Session) (r : nat) : list Z := default [] (heap s !! r).

Definition uriInput (t : OtpType) (bytes : list Z) (issuer account : jsstr) (algorithm : TotpAlgorithm)
    (d : DigitCount) (counter : option jsstr) : OtpauthUriInput :=
  {| in_type := kind_of t; in_secret := encodeBase32 bytes; in_issuer := issuer; in_account := account;
     in_algorithm := algorithm; in_digits := digit_count d; in_period := default_period;
     in_counter := counter |}.

Definition buildStorableUri (s : Session) (entry : KeyedEntry) (algorithm : TotpAlgorithm)
    : result UriError (option BuiltOtpauthUri) :=
  buildOtpauthUri
    (uriInput (key_type entry) (bytes_at s (key_ref entry)) (key_issuer entry) (key_name entry) algorithm
       (key_digits entry) (key_counter entry))
    MAX_LOGIN_TOTP_LENGTH.

Definition scanned (entry : KeyedEntry) (id : jsstr) (generatable labelTruncated : bool) : ScannedEntry :=
  {| id := id; scanned_type := key_type entry; scanned_issuer := key_issuer entry;
     scanned_account := key_name entry; scanned_algorithm := key_algorithm entry;
     scanned_digits := key_digits entry; scanned_counter := key_counter entry;
     generatable := generatable; labelTruncated := labelTruncated |}.

Definition bump (s : Session) : Session := {| heap := heap s; held := held s; nextId := nextId s + 1 |}.
Definition hold (id : jsstr) (r : nat) (s : Session) : Session :=
  {| heap := heap s; held := <[id := r]> (held s); nextId := nextId s |}.

(** The loop of [holdEntries]; what it had held when it throws stays held. *)
Fixpoint hold_loop (entries : list KeyedEntry) (s : Session) (out : list ScannedEntry)
    : Session * result UriError (list ScannedEntry) :=
  match entries with
  | [] => (s, Ok out)
  | entry :: entries =>
      let s := bump s in
      let id := js "scan-" ++ num (nextId s) in
      match isGeneratable (key_algorithm entry) with
      | Some algorithm =>
          match buildStorableUri s entry algorithm with
          | Throw e => (s, Throw e)
          | Ok None => hold_loop entries s out
          | Ok (Some built) =>
              hold_loop entries (hold id (key_ref entry) s) (out ++ [scanned entry id true (truncated built)])
          end
      | None => hold_loop entries (hold id (key_ref entry) s) (out ++ [scanned entry id false false])
      end
  end.

Definition holdEntries (entries : list KeyedEntry) (s : Session)
    : Session * result UriError (list ScannedEntry) := hold_loop entries s [].

Definition secretFor (id : jsstr) (s : Session) : option jsstr :=
  match held s !! id with Some r => Some (encodeBase32 (bytes_at s r)) | None => None end.

Definition otpauthUriFor (entry : ScannedEntry) (s : Session) : result UriError (option jsstr) :=
  match held s !! id entry, isGeneratable (scanned_algorithm entry) with
  | Some r, Some algorithm =>
      match buildOtpauthUri
              (uriInput (scanned_type entry) (bytes_at s r) (scanned_issuer entry) (scanned_account entry)
                 algorithm (scanned_digits entry) (scanned_counter entry))
              MAX_LOGIN_TOTP_LENGTH with
      | Ok b => Ok (option_map uri b)
      | Throw e => Throw e
      end
  | _, _ => Ok None
  end.

Definition heldSecretCount (s : Session) : nat := size (held s).

(** [bytes.fill(0)]. *)
Definition fill_zero (r : nat) (h : gmap nat (list Z)) : gmap nat (list Z) :=
  alter (λ bytes, replicate (length bytes) 0) r h.

Definition endScanSession (s : Session) : Session :=
  {| heap := foldr fill_zero (heap s) (map snd (map_to_list (held s))); held := ∅; nextId := nextId s |}.

End session.
