(* ===== verification/ScanSessionSpec.v ===== *)
(** What the scan session promises: every account it shows has its key held under an id of its
    own and, when this application can generate codes for it, a URI that fits the vault item it
    goes into; and teardown overwrites every held key where it lies, for every alias of it. *)
From S2P Require Import Prelude UriComponent MigrationReader Totp TotpPlatform Base32Spec TotpUriSpec ScanSession.
Local Open Scope Z_scope.

Section session.
Context `{Platform}.

(** ** Teardown *)

Lemma fill_zero_refs rs h r :
  foldr fill_zero h rs !! r =
    if bool_decide (r ∈ rs) then (λ bytes, replicate (length bytes) 0) <$> h !! r else h !! r.
Proof.
  induction rs as [|r' rs IH]; [done|]. cbn [foldr]. unfold fill_zero at 1.
  destruct (decide (r = r')) as [->|Hne].
  - rewrite lookup_alter_eq, IH, (bool_decide_eq_true_2 (r' ∈ r' :: rs)) by apply list_elem_of_here.
    destruct (bool_decide _); [|done]. destruct (h !! r'); [|done]. cbn. by rewrite length_replicate.
  - rewrite lookup_alter_ne, IH by done.
    assert (bool_decide (r ∈ r' :: rs) = bool_decide (r ∈ rs)) as ->; [|done].
    apply bool_decide_ext. rewrite elem_of_cons. naive_solver.
Qed.

(** C35: Teardown destroys every key it held: each held byte array is overwritten with zeros in
    place, whoever else refers to it, no other array is touched, and afterwards no id yields a
    key or a URI. *)
Theorem endScanSession_zeroes s :
  let s' := endScanSession s in
  (∀ id r bytes, held s !! id = Some r -> heap s !! r = Some bytes ->
     heap s' !! r = Some (replicate (length bytes) 0)) /\
  (∀ r, (∀ id, held s !! id <> Some r) -> heap s' !! r = heap s !! r) /\
  heldSecretCount s' = 0%nat /\
  ∀ id entry, secretFor id s' = None /\ otpauthUriFor entry s' = Ok None.
Proof.
  assert (∀ r, r ∈ map snd (map_to_list (held s)) <-> ∃ id, held s !! id = Some r) as Hin.
  { intros r. rewrite list_elem_of_In, in_map_iff. split.
    - intros ([id r'] & <- & Hm%list_elem_of_In%elem_of_map_to_list). by exists id.
    - intros [id Hid]. exists (id, r). split; [done|]. by apply list_elem_of_In, elem_of_map_to_list. }
  cbn zeta. split; [|split; [|split; [done|]]].
  - intros id r bytes Hid Hb. cbn. rewrite fill_zero_refs, bool_decide_eq_true_2 by (apply Hin; eauto).
    by rewrite Hb.
  - intros r Hr. cbn. rewrite fill_zero_refs, bool_decide_eq_false_2; [done|].
    rewrite Hin. intros [id Hid]. by apply (Hr id).
  - intros id entry. unfold secretFor, otpauthUriFor. cbn. by rewrite !lookup_empty.
Qed.

(** ** Holding *)

Definition scan_id (n : Z) : jsstr := js "scan-" ++ num n.

(** Every held id was made from a counter value already used. *)
Definition fresh (s : Session) : Prop :=
  0 <= nextId s /\ ∀ id, is_Some (held s !! id) -> ∃ n, 0 < n <= nextId s /\ id = scan_id n.

Lemma scan_id_fresh s n : fresh s -> nextId s < n -> held s !! scan_id n = None.
Proof.
  intros [_ Hs] Hn. destruct (held s !! scan_id n) eqn:E; [|done].
  destruct (Hs (scan_id n)) as (m & Hm & Em); [by eexists|].
  apply app_inv_head, num_inj in Em. lia.
Qed.

(** What is promised of an account the page shows. *)
Definition good (entries : list KeyedEntry) (s : Session) (e : ScannedEntry) : Prop :=
  ∃ entry, In entry entries /\ held s !! id e = Some (key_ref entry) /\
    e = scanned entry (id e) (generatable e) (labelTruncated e) /\
    generatable e = bool_decide (key_algorithm entry <> MD5) /\
    (generatable e = true -> ∃ u, otpauthUriFor e s = Ok (Some u) /\ Z.of_nat (length u) <= MAX_LOGIN_TOTP_LENGTH).

Lemma buildOtpauthUri_fits input maxLength b : buildOtpauthUri input maxLength = Ok (Some b) ->
  Z.of_nat (length (uri b)) <= maxLength.
Proof.
  rewrite buildOtpauthUri_eq. destruct (List.find _ _) as [l|] eqn:Hf; [|done].
  apply find_some in Hf as [_ Hf]. unfold built, fits in *.
  destruct (composeUri input l.1 l.2); [|done]. intros [= <-]. cbn in *. lia.
Qed.

Lemma good_mono entries entries' s s' e : (∀ x, In x entries -> In x entries') ->
  heap s' = heap s -> held s ⊆ held s' -> good entries s e -> good entries' s' e.
Proof.
  intros Hin Hheap Hheld (entry & H1 & H2 & H3 & H4 & H5). pose proof (lookup_weaken _ _ _ _ H2 Hheld) as H2'.
  exists entry. split; [by apply Hin|]. split; [done|]. split; [done|]. split; [done|].
  intros Hg. destruct (H5 Hg) as (u & Hu & Hl). exists u. split; [|done].
  revert Hu. unfold otpauthUriFor, bytes_at. by rewrite H2, H2', Hheap.
Qed.

(** Holding one account under the next id. *)
Lemma hold_next s r : fresh s ->
  let s1 := bump s in let i := scan_id (nextId s1) in
  fresh (hold i r s1) /\ held s !! i = None /\ held s ⊆ held (hold i r s1).
Proof.
  intros Hs. pose proof Hs as [H0 Hids]. cbn zeta. cbn [nextId bump held hold].
  assert (held s !! scan_id (nextId s + 1) = None) as Hnone by (apply scan_id_fresh; [done|lia]).
  split; [|split; [done|by apply insert_subseteq]]. split; [cbn; lia|]. cbn. intros id Hid.
  destruct (decide (id = scan_id (nextId s + 1))) as [->|Hne].
  - exists (nextId s + 1). split; [lia|done].
  - rewrite lookup_insert_ne in Hid by done. destruct (Hids id Hid) as (n & Hn & ->). exists n. split; [lia|done].
Qed.

Definition held_ok (entries : list KeyedEntry) (s s' : Session) (new : list ScannedEntry) : Prop :=
  heap s' = heap s /\ fresh s' /\ held s ⊆ held s' /\ Forall (good entries s') new /\
  NoDup (map id new) /\ Forall (λ e, held s !! id e = None) new /\
  heldSecretCount s' = (heldSecretCount s + length new)%nat.

Lemma held_ok_hold entry entries s s' r g t rest :
  let s1 := bump s in let e := scanned entry (scan_id (nextId s1)) g t in
  fresh s -> r = key_ref entry -> good (entry :: entries) (hold (id e) r s1) e ->
  held_ok entries (hold (id e) r s1) s' rest -> held_ok (entry :: entries) s s' (e :: rest).
Proof.
  intros s1 e Hs -> He (Hheap & Hf & Hsub & Hgood & Hnd & Hnew & Hsize).
  destruct (hold_next s (key_ref entry) Hs) as (_ & Hnone & Hsub0).
  assert (held s' !! id e = Some (key_ref entry)) as Hid.
  { eapply lookup_weaken; [|exact Hsub]. cbn. apply lookup_insert_eq. }
  split; [done|]. split; [done|]. split; [by etransitivity|]. split; [|split; [|split]].
  - constructor; [by eapply good_mono; [..|exact He]|].
    eapply Forall_impl; [exact Hgood|]. intros x. apply good_mono; [by right|done..].
  - cbn [map]. constructor; [|done]. intros (x & Hx & Hin%list_elem_of_In)%list_elem_of_In%in_map_iff.
    rewrite Forall_forall in Hnew. specialize (Hnew x Hin). rewrite Hx in Hnew. cbn in Hnew.
    by rewrite lookup_insert_eq in Hnew.
  - constructor; [done|]. eapply Forall_impl; [exact Hnew|]. intros x Hx.
    destruct (held s !! id x) eqn:E; [|done]. pose proof (lookup_weaken _ _ _ _ E Hsub0) as Hy. cbn in Hx, Hy. congruence.
  - rewrite Hsize. unfold heldSecretCount. cbn [held hold length]. rewrite map_size_insert_None by done.
    cbn [held bump s1]. lia.
Qed.

Lemma fresh_bump s : fresh s -> fresh (bump s).
Proof. intros [H0 Hs]. split; [cbn; lia|]. intros id Hid. destruct (Hs id Hid) as (n & Hn & ->). exists n. split; [cbn; lia|done]. Qed.

Lemma hold_loop_ok entries : ∀ s out s' out', fresh s -> hold_loop entries s out = (s', Ok out') ->
  ∃ new, out' = out ++ new /\ held_ok entries s s' new.
Proof.
  induction entries as [|entry entries IH]; intros s out s' out' Hs; cbn [hold_loop].
  { intros [= <- <-]. exists []. rewrite app_nil_r. split; [done|].
    split; [done|]. split; [done|]. split; [done|]. split; [constructor|]. split; [constructor|]. split; [constructor|]. cbn. lia. }
  pose proof (hold_next s (key_ref entry) Hs) as (Hf & _ & _).
  destruct (isGeneratable (key_algorithm entry)) as [al|] eqn:Eg.
  - destruct (buildStorableUri (bump s) entry al) as [[b|]|] eqn:Eb; [| |done].
    + intros Hl. destruct (IH _ _ _ _ Hf Hl) as (new & -> & Hnew).
      eexists (_ :: new). rewrite <- app_assoc. split; [reflexivity|].
      eapply held_ok_hold; [done|done| |exact Hnew]. exists entry. split; [by left|].
      split; [cbn; apply lookup_insert_eq|]. split; [done|]. split; [by destruct (key_algorithm entry)|].
      intros _. exists (uri b). split; [|by eapply buildOtpauthUri_fits].
      unfold otpauthUriFor. cbn [held hold id scanned scanned_algorithm]. rewrite lookup_insert_eq, Eg.
      change (match buildStorableUri (bump s) entry al with Ok b => Ok (option_map uri b) | Throw e => Throw e end
        = Ok (Some (uri b))). by rewrite Eb.
    + intros Hl. destruct (IH _ _ _ _ (fresh_bump s Hs) Hl) as (new & -> & Hnew).
      exists new. split; [done|]. destruct Hnew as (H1 & H2 & H3 & H4 & H5). split; [done|].
      split; [done|]. split; [done|]. split; [|done]. eapply Forall_impl; [exact H4|].
      intros x. apply good_mono; [by right|done..].
  - intros Hl. destruct (IH _ _ _ _ Hf Hl) as (new & -> & Hnew).
    eexists (_ :: new). rewrite <- app_assoc. split; [reflexivity|].
    eapply held_ok_hold; [done|done| |exact Hnew]. exists entry. split; [by left|].
    split; [cbn; apply lookup_insert_eq|]. split; [done|]. split; [by destruct (key_algorithm entry)|done].
Qed.

(** Every account handed to the page has its key held, under an id never used before, and
    shows the reader's own labels; it is marked generatable exactly when its algorithm is, and
    then a URI that fits a vault item can be built for it.  Nothing else becomes held, and no key
    is changed. *)
Theorem holdEntries_spec s entries s' out : fresh s -> holdEntries entries s = (s', Ok out) ->
  held_ok entries s s' out.
Proof. intros Hs Hh. by destruct (hold_loop_ok entries s [] s' out Hs Hh) as (new & -> & Hnew). Qed.
End session.

Definition two_keys : Session :=
  {| heap := <[0%nat := [72; 101; 108; 108; 111; 33; 222; 173; 190; 239]]> (<[1%nat := [1; 2; 3; 4; 5]]> ∅);
     held := ∅; nextId := 0 |}.
Definition two_entries : list KeyedEntry :=
  [ {| key_type := MigrationReader.totp; key_ref := 0; key_name := js "alice"; key_issuer := js "GitHub";
       key_algorithm := MigrationReader.SHA1; key_digits := six; key_counter := None |};
    {| key_type := MigrationReader.totp; key_ref := 1; key_name := js "bob"; key_issuer := [];
       key_algorithm := MD5; key_digits := six; key_counter := None |} ].

Lemma holdEntries_spec_witness : ∃ s' out, holdEntries two_entries two_keys = (s', Ok out) /\
  map id out = [js "scan-1"; js "scan-2"] /\ secretFor (js "scan-1") s' = Some (js "JBSWY3DPEHPK3PXP") /\
  held_ok two_entries two_keys s' out.
Proof.
  eexists _, _. split; [vm_compute; reflexivity|]. split; [vm_compute; reflexivity|]. split; [vm_compute; reflexivity|].
  apply holdEntries_spec; [|vm_compute; reflexivity].
  split; [discriminate|]. intros i [r Hr]. discriminate.
Defined.
