(* ===== verification/Batch.v ===== *)
(** Collecting the parts of a batched export: client/src/services/totpImport/batch.ts.  The
    [Map] of parts by index is a finite map. *)
From S2P Require Import Prelude MigrationReader.
Local Open Scope Z_scope.

Record BatchState := {
  state_batchId : option Z;
  state_batchSize : Z;
  parts : gmap Z (list MigrationEntry);
}.

Inductive BatchOutcome :=
  | Added (state : BatchState)
  | Duplicate (state : BatchState)
  | WrongExport
  | ConflictingPart.

Definition emptyBatch : BatchState := {| state_batchId := None; state_batchSize := 0; parts := ∅ |}.

Fixpoint sameSecret_loop (a b : list Z) : bool :=
  match a, b with
  | x :: a, y :: b => if negb (x =? y) then false else sameSecret_loop a b
  | _, _ => true
  end.

Definition sameSecret (a b : list Z) : bool :=
  if negb (length a =? length b)%nat then false else sameSecret_loop a b.

Definition sameEntry (entry other : MigrationEntry) : bool :=
  bool_decide (entry_type entry = entry_type other) && bool_decide (name entry = name other)
  && bool_decide (issuer entry = issuer other) && bool_decide (algorithm entry = algorithm other)
  && bool_decide (digits entry = digits other) && bool_decide (counter entry = counter other)
  && sameSecret (secret entry) (secret other).

Definition sameEntries (a b : list MigrationEntry) : bool :=
  if negb (length a =? length b)%nat then false
  else forallb (λ '(index, entry), match b !! index with
                                   | None => false
                                   | Some other => sameEntry entry other
                                   end) (imap pair a).

Definition acceptPart (state : BatchState) (payload : MigrationPayload) : BatchOutcome :=
  if match state_batchId state with Some id => negb (id =? batchId payload) | None => false end
  then WrongExport
  else
    match parts state !! batchIndex payload with
    | Some existing => if sameEntries existing (entries payload) then Duplicate state else ConflictingPart
    | None => Added {| state_batchId := Some (batchId payload); state_batchSize := batchSize payload;
                       parts := <[batchIndex payload := entries payload]> (parts state) |}
    end.

Definition capturedParts (state : BatchState) : nat := size (parts state).

Definition isComplete (state : BatchState) : bool :=
  (0 <? state_batchSize state) && (state_batchSize state <=? Z.of_nat (capturedParts state)).

Definition collectedEntries (state : BatchState) : list MigrationEntry :=
  concat (map snd (sort_by fst (map_to_list (parts state)))).
