(* ===== verification/BatchSpec.v ===== *)
(** What collecting promises: the parts of one export, scanned in any order and any number of
    times, give one complete set in the export's own order, and a part that is not of that
    export never gets in. *)
From S2P Require Import Prelude MigrationReader Batch.
Local Open Scope Z_scope.

Lemma sameSecret_eq a b : sameSecret a b = true <-> a = b.
Proof.
  unfold sameSecret. destruct (Nat.eqb_spec (length a) (length b)) as [Hl|Hl]; cbn [negb];
    [|split; [done|by intros ->]].
  revert b Hl. induction a as [|x a IH]; intros [|y b] Hl; cbn in *; try done.
  destruct (Z.eqb_spec x y) as [->|Hne]; cbn [negb].
  - rewrite IH by lia. naive_solver.
  - split; [done|congruence].
Qed.

Lemma sameEntry_eq a b : sameEntry a b = true <-> a = b.
Proof.
  unfold sameEntry. rewrite !andb_true_iff, !bool_decide_eq_true, sameSecret_eq.
  destruct a, b. cbn. split; [intros H; destruct_and! H; by subst|intros [=]; subst; done].
Qed.

Lemma sameEntries_eq a b : sameEntries a b = true <-> a = b.
Proof.
  unfold sameEntries. destruct (Nat.eqb_spec (length a) (length b)) as [Hl|Hl]; cbn [negb];
    [|split; [done|by intros ->]].
  rewrite forallb_forall. split.
  - intros H. apply list_eq_same_length with (n := length b); [done..|].
    intros i x y _ Hx Hy. specialize (H (i, x)). cbn in H. rewrite Hy in H.
    apply sameEntry_eq, H, list_elem_of_In, elem_of_lookup_imap. eauto.
  - intros -> [i x] Hin%list_elem_of_In%elem_of_lookup_imap. destruct Hin as (j & y & [= -> ->] & Hy).
    rewrite Hy. by apply sameEntry_eq.
Qed.

(** Scanning a list of payloads; a refused one leaves the set as it is. *)
Definition scan (state : BatchState) (payload : MigrationPayload) : BatchState :=
  match acceptPart state payload with
  | Added state | Duplicate state => state
  | WrongExport | ConflictingPart => state
  end.

(** The parts of one export: one id, one size, and one content per index. *)
Record export_of (id total : Z) (content : gmap Z (list MigrationEntry)) (p : MigrationPayload) : Prop := {
  of_id : batchId p = id;
  of_size : batchSize p = total;
  of_content : content !! batchIndex p = Some (entries p);
}.

(** The state after scanning the payloads [seen] of an export, first to last. *)
Definition holds (id total : Z) (content : gmap Z (list MigrationEntry)) (seen : list MigrationPayload)
    (state : BatchState) : Prop :=
  parts state = filter (λ '(i, _), i ∈ map batchIndex seen) content /\
  (seen = [] -> state = emptyBatch) /\
  (seen <> [] -> state_batchId state = Some id /\ state_batchSize state = total).

Lemma scan_holds id total content seen state p :
  holds id total content seen state -> export_of id total content p ->
  acceptPart state p <> WrongExport /\ acceptPart state p <> ConflictingPart /\
  holds id total content (seen ++ [p]) (scan state p).
Proof.
  intros (Hparts & Hnil & Hcons) [Hid Hsize Hcontent].
  assert (match state_batchId state with Some i => negb (i =? batchId p) | None => false end = false) as Hguard.
  { destruct seen; [by rewrite Hnil|]. destruct (Hcons ltac:(done)) as [-> _]. by rewrite Hid, Z.eqb_refl. }
  unfold scan, acceptPart. rewrite Hguard. unfold holds.
  assert (∀ i, i ∈ map batchIndex (seen ++ [p]) <-> i ∈ map batchIndex seen \/ i = batchIndex p) as Hin.
  { intros i. rewrite map_app, elem_of_app. cbn. by rewrite list_elem_of_singleton. }
  destruct (decide (batchIndex p ∈ map batchIndex seen)) as [Hold|Hnew].
  - assert (parts state !! batchIndex p = Some (entries p)) as Hp
      by (rewrite Hparts; by apply map_lookup_filter_Some).
    rewrite Hp, (proj2 (sameEntries_eq _ _)) by done. split_and!; try done.
    + rewrite Hparts. apply map_filter_ext. intros i es _. rewrite Hin. naive_solver.
    + by destruct seen.
    + intros _. apply Hcons. by intros ->; apply not_elem_of_nil in Hold.
  - assert (parts state !! batchIndex p = None) as Hp
      by (rewrite Hparts; apply map_lookup_filter_None; right; by intros).
    rewrite Hp. split_and!; cbn; try done; [|by destruct seen|naive_solver].
    apply map_eq. intros i. destruct (decide (i = batchIndex p)) as [->|Hne].
    + rewrite lookup_insert_eq. symmetry. apply map_lookup_filter_Some. split; [done|]. apply Hin. by right.
    + rewrite lookup_insert_ne by done. rewrite Hparts. apply option_eq. intros es.
      rewrite !map_lookup_filter_Some, Hin. naive_solver.
Qed.

Lemma scans_hold id total content seen state ps :
  holds id total content seen state -> Forall (export_of id total content) ps ->
  holds id total content (seen ++ ps) (foldl scan state ps).
Proof.
  intros H Hps. revert seen state H. induction Hps as [|p ps Hp _ IH]; intros seen state H; cbn.
  - by rewrite app_nil_r.
  - destruct (scan_holds _ _ _ _ _ _ H Hp) as (_ & _ & H'). rewrite cons_middle, app_assoc. by apply IH.
Qed.

Lemma empty_holds id total content : holds id total content [] emptyBatch.
Proof.
  split; [|done]. cbn. symmetry. apply map_empty. intros i. apply map_lookup_filter_None. right.
  intros ? _. apply not_elem_of_nil.
Qed.

(** C28: Scanning the codes of one export commutes and repeats freely: after any sequence of its
    parts in which every part occurs, whatever the order and the base of the index, the set is
    complete, holds exactly the export's parts and lists its accounts in index order; until
    then it is not complete; and no scan on the way was refused. *)
Theorem scan_any_order id total content ps :
  Forall (export_of id total content) ps -> Z.of_nat (size content) = total -> 0 < total ->
  let state := foldl scan emptyBatch ps in
  (isComplete state = true <-> ∀ i, is_Some (content !! i) -> i ∈ map batchIndex ps) /\
  (isComplete state = true ->
     parts state = content /\
     collectedEntries state = concat (map snd (sort_by fst (map_to_list content)))) /\
  (∀ before p after, ps = before ++ p :: after ->
     ∃ state', acceptPart (foldl scan emptyBatch before) p = Added state' \/
               acceptPart (foldl scan emptyBatch before) p = Duplicate state').
Proof.
  intros Hps Hsize Hpos state.
  destruct (scans_hold id total content [] emptyBatch ps (empty_holds _ _ _) Hps) as (Hparts & Hnil & Hcons).
  cbn [app] in Hparts, Hnil, Hcons. fold state in Hparts, Hnil, Hcons.
  assert (isComplete state = true <-> parts state = content) as Hiff.
  { unfold isComplete, capturedParts. rewrite andb_true_iff, Z.ltb_lt, Z.leb_le. split.
    - intros [H1 H2]. assert (ps <> []) as Hne by (intros ->; by rewrite Hnil in H1).
      destruct (Hcons Hne) as [_ Es]. rewrite Es, <- Hsize in H2.
      assert (parts state ⊆ content) as Hsub by (rewrite Hparts; apply map_filter_subseteq).
      apply map_subseteq_size_eq; [done|]. lia.
    - intros E. destruct (decide (ps = [])) as [->|Hne].
      + exfalso. rewrite Hnil in E by done. cbn in E. rewrite <- E, map_size_empty in Hsize. lia.
      + destruct (Hcons Hne) as [_ ->]. rewrite E. split; [done|]. lia. }
  split_and!.
  - rewrite Hiff, Hparts. split.
    + intros E i [es Hi]. rewrite <- E in Hi. by apply map_lookup_filter_Some in Hi as [_ ?].
    + intros Hall. apply map_filter_id. intros i es Hi. apply Hall. eauto.
  - intros E%Hiff. split; [done|]. unfold collectedEntries. by rewrite E.
  - intros before p after ->. apply Forall_app in Hps as [Hb Hp%Forall_cons]. destruct Hp as [Hp _].
    pose proof (scans_hold id total content [] emptyBatch before (empty_holds _ _ _) Hb) as H.
    destruct (scan_holds _ _ _ _ _ _ H Hp) as (H1 & H2 & _).
    destruct (acceptPart _ p) as [s|s| |]; eauto; done.
Qed.

Definition sample_entry (k : Z) : MigrationEntry :=
  {| entry_type := totp; secret := [k]; name := []; issuer := []; algorithm := SHA1;
     digits := six; counter := None |}.

Definition sample_part (index : Z) : MigrationPayload :=
  {| entries := [sample_entry index]; version := 1; batchSize := 2; batchIndex := index; batchId := -5 |}.

Lemma scan_any_order_witness :
  let content : gmap Z (list MigrationEntry) := {[ 0 := [sample_entry 0]; 1 := [sample_entry 1] ]} in
  let state := foldl scan emptyBatch [sample_part 1; sample_part 1; sample_part 0] in
  isComplete state = true /\
  (isComplete state = true ->
     parts state = content /\
     collectedEntries state = concat (map snd (sort_by fst (map_to_list content)))).
Proof.
  split; [vm_compute; reflexivity|].
  refine (proj1 (proj2 (scan_any_order (-5) 2 _ _ _ _ _))); [|reflexivity|reflexivity].
  repeat constructor.
Defined.
