(* ===== verification/VaultQuota.v ===== *)
(** The sizes behind the vault byte quota, server/src/utils/vaultQuota.ts: which bytes of a stored
    row count, and what a pinned update changes of them.

    A stored document is a map from field names to values.  BSON ([mongoose.mongo.BSON.serialize])
    and Mongoose's casting are libraries: [Storage] holds what the file uses of them, and
    [StorageLaws] what it relies on, which is the BSON format itself: a document is its fields one
    after the other between a fixed prefix and terminator, and integers and dates have a fixed
    width. *)
From S2P Require Import Prelude.
Local Open Scope Z_scope.

Inductive CountedKind := item | folder.

#[export] Instance CountedKind_eq_dec : EqDecision CountedKind.
Proof. solve_decision. Defined.

(** The values the accounting looks into: a version number, a date, and anything else. *)
Inductive Value := VInt (n : Z) | VDate (t : Z) | VOther (bytes : list Z).

#[export] Instance Value_eq_dec : EqDecision Value.
Proof. solve_decision. Defined.

Abbreviation Doc := (gmap jsstr Value).

Definition PLACEMENT_FIELDS (kind : CountedKind) : list jsstr :=
  match kind with item => [js "deletedAt"; js "folderId"] | folder => [js "parentId"] end.

Class Storage := {
  bson : Doc -> Z;                        (* [BSON.serialize(doc).byteLength] *)
  storedFields : CountedKind -> Doc -> Doc;  (* [new Constructor(values).toObject(STORED_IMAGE)] *)
}.

Section sizes.
Context `{Storage}.

Definition EMPTY_DOCUMENT_BYTES : Z := 5.

Definition is_counted (kind : CountedKind) (field : jsstr) : bool :=
  negb (bool_decide (field ∈ PLACEMENT_FIELDS kind)).

(** [Object.entries(doc).filter(...)]. *)
Definition countedPart (kind : CountedKind) (doc : Doc) : Doc :=
  filter (λ '(field, _), is_counted kind field = true) doc.

Definition countedBytes (kind : CountedKind) (doc : Doc) : Z := bson (countedPart kind doc).

Definition entryBytes (field : jsstr) (value : option Value) : Z :=
  match value with None => 0 | Some v => bson {[field := v]} - EMPTY_DOCUMENT_BYTES end.

(** An update of top-level fields; a [$set] member may be [undefined]. *)
Record CountedUpdate := {
  set_fields : gmap jsstr (option Value);
  unset_fields : gset jsstr;
}.

Definition countedFieldsOf (kind : CountedKind) (update : CountedUpdate) : list jsstr :=
  List.filter (is_counted kind) (elements (dom (set_fields update) ∪ unset_fields update)).

Definition writesCountedField (kind : CountedKind) (update : CountedUpdate) : bool :=
  (0 <? Z.of_nat (length (countedFieldsOf kind update))).

(** What a pinned update needs to know about the row it replaces. *)
Record RowMeasure := {
  m_v : option Value;
  m_createdAt : option Value;
  counted : Z;
  hasUpdatedAt : bool;
  fieldBytes : gmap jsstr Z;
}.

Definition f_v : jsstr := js "__v".
Definition f_createdAt : jsstr := js "createdAt".
Definition f_updatedAt : jsstr := js "updatedAt".

(** [Object.fromEntries(fields.map((field) => [field, f(field)]))]. *)
Definition fromFields (f : jsstr -> Z) (fields : list jsstr) : gmap jsstr Z :=
  list_to_map (map (λ field, (field, f field)) fields).

Definition measureImage (kind : CountedKind) (doc : Doc) (update : CountedUpdate) : RowMeasure :=
  {| m_v := doc !! f_v; m_createdAt := doc !! f_createdAt; counted := countedBytes kind doc;
     hasUpdatedAt := bool_decide (is_Some (doc !! f_updatedAt));
     fieldBytes := fromFields (λ field, entryBytes field (doc !! field)) (countedFieldsOf kind update) |}.

(** The members of [$set] that are defined, as Mongoose stores them. *)
Definition defined (values : gmap jsstr (option Value)) : Doc := omap (λ v, v) values.
Definition castForStorage (kind : CountedKind) (values : gmap jsstr (option Value)) : Doc :=
  filter (λ '(field, _), is_Some (defined values !! field)) (storedFields kind (defined values)).

Definition old_bytes (measure : RowMeasure) (field : jsstr) : Z := default 0 (fieldBytes measure !! field).

(** The loop body of [deltaOfPinnedUpdate]. *)
Definition field_delta (kind : CountedKind) (measure : RowMeasure) (update : CountedUpdate)
    (delta : Z) (field : jsstr) : Z :=
  match castForStorage kind (set_fields update) !! field with
  | Some v => delta + (entryBytes field (Some v) - old_bytes measure field)
  | None => if bool_decide (field ∈ unset_fields update) then delta - old_bytes measure field else delta
  end.

Definition deltaOfPinnedUpdate (kind : CountedKind) (measure : RowMeasure) (update : CountedUpdate) : Z :=
  let delta := foldl (field_delta kind measure update) 0 (countedFieldsOf kind update) in
  let delta := match m_v measure with None => delta + entryBytes f_v (Some (VInt 1)) | Some _ => delta end in
  if hasUpdatedAt measure then delta else delta + entryBytes f_updatedAt (Some (VDate 0)).

Definition measureAfter (kind : CountedKind) (measure : RowMeasure) (update next : CountedUpdate) : RowMeasure :=
  let cast := castForStorage kind (set_fields update) in
  {| m_v := Some (VInt (match m_v measure with Some (VInt n) => n | _ => 0 end + 1));
     m_createdAt := m_createdAt measure;
     counted := counted measure + deltaOfPinnedUpdate kind measure update;
     hasUpdatedAt := true;
     fieldBytes := fromFields (λ field,
       match cast !! field with
       | Some v => entryBytes field (Some v)
       | None => if bool_decide (field ∈ unset_fields update) then 0 else old_bytes measure field
       end) (countedFieldsOf kind next) |}.

(** [versionPin]: whether a stored document is the image [measure] describes. *)
Definition versionPin (measure : RowMeasure) (doc : Doc) : bool :=
  bool_decide (doc !! f_v = m_v measure) && bool_decide (doc !! f_createdAt = m_createdAt measure).

Definition sameIncarnation (next first : RowMeasure) : bool :=
  bool_decide (m_createdAt next = m_createdAt first).

(** The counted size a row created from [data] will have. *)
Definition or_else (field : jsstr) (v : Value) (doc : Doc) : Doc :=
  match doc !! field with Some _ => doc | None => <[field := v]> doc end.
Definition completeNew (now : Z) (image : Doc) : Doc :=
  or_else f_v (VInt 0) (or_else f_updatedAt (VDate now) (or_else f_createdAt (VDate now) image)).
Definition countedBytesOfNew (kind : CountedKind) (data : Doc) : Z :=
  countedBytes kind (completeNew 0 (storedFields kind data)).

(** ** What the database does to a document *)

(** [$set] and [$unset] of one update, [$set] members cast, absent ones left alone. *)
Definition applyUpdate (kind : CountedKind) (update : CountedUpdate) (doc : Doc) : Doc :=
  castForStorage kind (set_fields update) ∪ filter (λ '(field, _), field ∉ unset_fields update) doc.

(** [VInt n] is a 32-bit integer, which is how a version number is stored. *)
Definition int32 (n : Z) : bool := (-2 ^ 31 <=? n) && (n <? 2 ^ 31).

(** The version [$inc: { __v: 1 }] leaves; [None] when [__v] is no number, and past 2^31 updates
    of one row, where the model stops. *)
Definition nextVersion (doc : Doc) : option Z :=
  match doc !! f_v with
  | None => Some 1
  | Some (VInt n) => if int32 (n + 1) then Some (n + 1) else None
  | Some _ => None
  end.

(** [{ ...update, $inc: { __v: 1 } }] with Mongoose's timestamp. *)
Definition applyPinned (kind : CountedKind) (update : CountedUpdate) (now : Z) (doc : Doc) : option Doc :=
  match nextVersion doc with
  | None => None
  | Some n => Some (<[f_updatedAt := VDate now]> (<[f_v := VInt n]> (applyUpdate kind update doc)))
  end.

(** A placement-only update: no pin and no version, Mongoose's timestamp. *)
Definition applyPlacement (kind : CountedKind) (update : CountedUpdate) (now : Z) (doc : Doc) : Doc :=
  <[f_updatedAt := VDate now]> (applyUpdate kind update doc).
(** The update leaves the bookkeeping fields to Mongoose, as every caller's does. *)
Definition plain (update : CountedUpdate) : Prop :=
  ∀ f, f ∈ [f_v; f_createdAt; f_updatedAt] -> f ∉ dom (set_fields update) ∪ unset_fields update.
End sizes.

Class StorageLaws `{Storage} := {
  bson_empty : bson ∅ = EMPTY_DOCUMENT_BYTES;
  bson_field f v doc : doc !! f = None -> bson (<[f := v]> doc) = bson doc + entryBytes f (Some v);
  entry_positive f v : 0 < entryBytes f (Some v);
  entry_int f n m : int32 n = true -> int32 m = true ->
    entryBytes f (Some (VInt n)) = entryBytes f (Some (VInt m));
  entry_date f t u : entryBytes f (Some (VDate t)) = entryBytes f (Some (VDate u));
}.
