(* ===== verification/VaultQuotaSpec.v ===== *)
(** The arithmetic of the vault quota is exact: the bytes a pinned update changes are the ones
    predicted from the measure of the row it replaces.  First, a storage engine that satisfies the
    laws, for evaluations. *)
From S2P Require Import Prelude VaultQuota.
Local Open Scope Z_scope.

Definition sampleEntry (f : jsstr) (v : Value) : Z :=
  Z.of_nat (length f) + 2 + match v with VInt _ => 4 | VDate _ => 8 | VOther bytes => Z.of_nat (length bytes) end.

Definition sampleStorage : Storage :=
  {| bson := λ doc, map_fold (λ f v n, sampleEntry f v + n) 5 doc; storedFields := λ _ doc, doc |}.

Lemma sample_insert (f : jsstr) (v : Value) (doc : Doc) : doc !! f = None ->
  @bson sampleStorage (<[f := v]> doc) = sampleEntry f v + @bson sampleStorage doc.
Proof.
  intros Hf. cbn. apply (map_fold_insert_L (λ f v n, sampleEntry f v + n)); [|done]. intros. lia.
Qed.

Lemma sample_entry f v : @entryBytes sampleStorage f (Some v) = sampleEntry f v.
Proof.
  unfold entryBytes, EMPTY_DOCUMENT_BYTES. rewrite <- insert_empty, sample_insert by apply lookup_empty.
  change (@bson sampleStorage ∅) with 5. lia.
Qed.

Lemma sampleLaws : @StorageLaws sampleStorage.
Proof.
  split.
  - done.
  - intros f v doc Hf. rewrite sample_entry, sample_insert by done. lia.
  - intros f v. rewrite sample_entry. unfold sampleEntry. destruct v; lia.
  - intros f n m _ _. by rewrite !sample_entry.
  - intros f t u. by rewrite !sample_entry.
Qed.

(** A row with its bookkeeping and one field of [n] bytes. *)
Definition sampleRow (n : nat) : Doc :=
  <[f_v := VInt 3]> (<[f_createdAt := VDate 10]> (<[f_updatedAt := VDate 20]> {[js "data" := VOther (repeat 7 n)]})).

(** Replacing that field by [n] bytes. *)
Definition sampleUpdate (n : nat) : CountedUpdate :=
  {| set_fields := {[js "data" := Some (VOther (repeat 8 n))]}; unset_fields := ∅ |}.

Local Open Scope Z_scope.

Section sizes.
Context `{StorageLaws}.

(** ** A document's size, field by field *)

Definition field_sum (doc : Doc) (fs : list jsstr) : Z := foldr (λ f n, entryBytes f (doc !! f) + n) 0 fs.

Lemma bson_delete f doc : bson doc = bson (delete f doc) + entryBytes f (doc !! f).
Proof.
  destruct (doc !! f) as [v|] eqn:E.
  - rewrite <- (insert_delete_id doc f v E) at 1. apply bson_field, lookup_delete_eq.
  - rewrite delete_id by done. cbn. lia.
Qed.

Lemma field_sum_delete f doc fs : f ∉ fs -> field_sum (delete f doc) fs = field_sum doc fs.
Proof.
  unfold field_sum. induction fs as [|g fs IH]; [done|]. intros Hf. cbn. rewrite IH by set_solver.
  rewrite lookup_delete_ne by set_solver. done.
Qed.

(** The fields [fs], and the rest. *)
Lemma bson_split doc fs : NoDup fs ->
  bson doc = bson (filter (λ '(f, _), f ∉ fs) doc) + field_sum doc fs.
Proof.
  intros Hnd. revert doc. induction Hnd as [|f fs Hf Hnd IH]; intros doc.
  - rewrite map_filter_id; [cbn; lia|]. intros f v _. apply not_elem_of_nil.
  - rewrite (bson_delete f doc), (IH (delete f doc)), (field_sum_delete f doc fs Hf).
    change (field_sum doc (f :: fs)) with (entryBytes f (doc !! f) + field_sum doc fs).
    replace (filter (λ '(g, _), g ∉ f :: fs) doc) with (filter (λ '(g, _), g ∉ fs) (delete f doc)); [lia|].
    apply map_eq. intros g. apply option_eq. intros v. rewrite !map_lookup_filter_Some, lookup_delete_Some.
    set_solver.
Qed.

(** Documents that agree outside [fs] differ in size by those fields. *)
Lemma bson_change doc doc' fs : NoDup fs -> (∀ f, f ∉ fs -> doc' !! f = doc !! f) ->
  bson doc' = bson doc + (field_sum doc' fs - field_sum doc fs).
Proof.
  intros Hnd Hag. rewrite (bson_split doc fs Hnd), (bson_split doc' fs Hnd).
  replace (filter (λ '(f, _), f ∉ fs) doc') with (filter (λ '(f, _), f ∉ fs) doc); [lia|].
  apply map_eq. intros f. apply option_eq. intros v. rewrite !map_lookup_filter_Some.
  split; intros [Hv Hf]; (split; [|done]); [by rewrite Hag|by rewrite <- Hag].
Qed.

Lemma countedPart_lookup kind doc f :
  countedPart kind doc !! f = if is_counted kind f then doc !! f else None.
Proof.
  unfold countedPart. rewrite map_lookup_filter. destruct (doc !! f) as [v|]; cbn.
  - destruct (is_counted kind f) eqn:E; [by rewrite option_guard_True|by rewrite option_guard_False].
  - by destruct (is_counted kind f).
Qed.

(** The same for counted sizes; placement fields do not matter. *)
Lemma counted_change kind doc doc' fs : NoDup fs -> Forall (λ f, is_counted kind f = true) fs ->
  (∀ f, is_counted kind f = true -> f ∉ fs -> doc' !! f = doc !! f) ->
  countedBytes kind doc' = countedBytes kind doc + (field_sum doc' fs - field_sum doc fs).
Proof.
  intros Hnd Hfs Hag. unfold countedBytes.
  assert (∀ d, field_sum (countedPart kind d) fs = field_sum d fs) as Hsum.
  { intros d. clear Hnd Hag. unfold field_sum. induction Hfs as [|f fs Hf _ IH]; [done|].
    cbn. rewrite IH, countedPart_lookup, Hf. done. }
  rewrite (bson_change (countedPart kind doc) (countedPart kind doc') fs Hnd), !Hsum; [done|].
  intros f Hf. rewrite !countedPart_lookup. destruct (is_counted kind f) eqn:E; [|done]. by apply Hag.
Qed.

(** ** The delta of a pinned update *)

Lemma countedFieldsOf_elem kind update f :
  f ∈ countedFieldsOf kind update <->
  is_counted kind f = true /\ f ∈ dom (set_fields update) ∪ unset_fields update.
Proof.
  unfold countedFieldsOf. rewrite list_elem_of_In, filter_In, <- list_elem_of_In, elem_of_elements. tauto.
Qed.

Lemma countedFieldsOf_NoDup kind update : NoDup (countedFieldsOf kind update).
Proof. unfold countedFieldsOf. apply NoDup_ListNoDup, List.NoDup_filter, NoDup_ListNoDup, NoDup_elements. Qed.

Lemma cast_dom kind update f : f ∉ dom (set_fields update) ->
  castForStorage kind (set_fields update) !! f = None.
Proof.
  intros Hf. apply map_lookup_filter_None. right. intros v _ [w Hw].
  apply lookup_omap_Some in Hw as (x & _ & Hx). apply Hf. by apply elem_of_dom_2 in Hx.
Qed.

(** What a field of an updated document holds. *)
Lemma applyUpdate_lookup kind update doc f :
  applyUpdate kind update doc !! f =
    match castForStorage kind (set_fields update) !! f with
    | Some v => Some v
    | None => if bool_decide (f ∈ unset_fields update) then None else doc !! f
    end.
Proof.
  unfold applyUpdate. rewrite lookup_union, map_lookup_filter.
  destruct (decide (f ∈ unset_fields update)) as [Hu|Hu];
    [rewrite bool_decide_eq_true_2 by done|rewrite bool_decide_eq_false_2 by done];
    destruct (castForStorage _ _ !! f), (doc !! f); cbn;
    rewrite ?option_guard_True, ?option_guard_False by tauto; done.
Qed.

Lemma applyUpdate_other kind update doc f : f ∉ dom (set_fields update) ∪ unset_fields update ->
  applyUpdate kind update doc !! f = doc !! f.
Proof.
  intros Hf. rewrite applyUpdate_lookup, cast_dom, bool_decide_eq_false_2 by set_solver. done.
Qed.

Lemma fromFields_lookup g fs f : NoDup fs ->
  fromFields g fs !! f = if bool_decide (f ∈ fs) then Some (g f) else None.
Proof.
  intros Hnd. unfold fromFields. case_bool_decide as Hf.
  - apply elem_of_list_to_map_1.
    + rewrite map_map. cbn. by rewrite map_id.
    + apply list_elem_of_In, in_map_iff. exists f. split; [done|by apply list_elem_of_In].
  - apply not_elem_of_list_to_map_1. rewrite list_elem_of_In, in_map_iff.
    intros ([x y] & Hx & (z & [= <- <-] & Hz)%in_map_iff). cbn in Hx. subst.
    by apply Hf, list_elem_of_In.
Qed.

Lemma old_bytes_image kind doc update f : f ∈ countedFieldsOf kind update ->
  old_bytes (measureImage kind doc update) f = entryBytes f (doc !! f).
Proof.
  intros Hf. unfold old_bytes. cbn [fieldBytes measureImage].
  by rewrite fromFields_lookup, bool_decide_eq_true_2 by (done || apply countedFieldsOf_NoDup).
Qed.

(** The loop adds up the change of each written field. *)
Lemma field_delta_sum kind doc update fs n : (∀ f, f ∈ fs -> f ∈ countedFieldsOf kind update) ->
  foldl (field_delta kind (measureImage kind doc update) update) n fs =
    n + (field_sum (applyUpdate kind update doc) fs - field_sum doc fs).
Proof.
  revert n. unfold field_sum. induction fs as [|f fs IH]; intros n Hfs; cbn; [lia|].
  rewrite IH by set_solver. unfold field_delta. rewrite old_bytes_image by set_solver.
  rewrite applyUpdate_lookup. destruct (castForStorage _ _ !! f); [lia|].
  case_bool_decide; cbn; lia.
Qed.

(** The version and the date a pinned write adds or replaces. *)
Lemma stamp_bytes doc n : nextVersion doc = Some n -> (∀ m, doc !! f_v = Some (VInt m) -> int32 m = true) ->
  entryBytes f_v (Some (VInt n)) =
    entryBytes f_v (doc !! f_v) + match doc !! f_v with None => entryBytes f_v (Some (VInt 1)) | Some _ => 0 end.
Proof.
  unfold nextVersion. destruct (doc !! f_v) as [[m| |]|]; try done; [|intros [= <-]; done].
  destruct (int32 (m + 1)) eqn:E; [|done]. intros [= <-] Hm. rewrite (entry_int f_v (m + 1) m) by auto. lia.
Qed.

(** What the bookkeeping fields of a stored row hold: a 32-bit version if any, and a date. *)
Definition stamped (doc : Doc) : Prop :=
  (∀ v, doc !! f_v = Some v -> ∃ n, v = VInt n /\ int32 n = true) /\
  (∀ v, doc !! f_updatedAt = Some v -> ∃ t, v = VDate t).

Lemma date_bytes doc now : stamped doc ->
  entryBytes f_updatedAt (Some (VDate now)) =
    entryBytes f_updatedAt (doc !! f_updatedAt) +
      if bool_decide (is_Some (doc !! f_updatedAt)) then 0 else entryBytes f_updatedAt (Some (VDate 0)).
Proof.
  intros [_ Hd]. destruct (doc !! f_updatedAt) as [v|] eqn:E.
  - destruct (Hd v eq_refl) as [t ->]. rewrite bool_decide_eq_true_2 by eauto. rewrite (entry_date _ now t). lia.
  - rewrite bool_decide_eq_false_2 by (intros [? ?]; done). rewrite (entry_date _ now 0). cbn. lia.
Qed.

Lemma bookkeeping_counted kind : Forall (λ f, is_counted kind f = true) [f_v; f_updatedAt].
Proof. destruct kind; repeat constructor. Qed.

Lemma applyPinned_lookup kind update now doc doc' f : applyPinned kind update now doc = Some doc' ->
  doc' !! f = if bool_decide (f = f_updatedAt) then Some (VDate now)
              else if bool_decide (f = f_v) then VInt <$> nextVersion doc else applyUpdate kind update doc !! f.
Proof.
  unfold applyPinned. destruct (nextVersion doc) as [n|]; [|done]. intros [= <-].
  case_bool_decide; [subst; apply lookup_insert_eq|]. rewrite lookup_insert_ne by done.
  case_bool_decide; [subst; apply lookup_insert_eq|]. by rewrite lookup_insert_ne.
Qed.

Lemma field_sum_app doc fs fs' : field_sum doc (fs ++ fs') = field_sum doc fs + field_sum doc fs'.
Proof. unfold field_sum. induction fs as [|f fs IH]; cbn; lia. Qed.

Lemma field_sum_ext doc doc' fs : (∀ f, f ∈ fs -> doc !! f = doc' !! f) -> field_sum doc fs = field_sum doc' fs.
Proof. unfold field_sum. induction fs as [|f fs IH]; intros Hfs; [done|]. cbn. rewrite IH, Hfs by set_solver. done. Qed.

Lemma pinned_fields_NoDup kind update : plain update -> NoDup (countedFieldsOf kind update ++ [f_v; f_updatedAt]).
Proof.
  intros Hp. apply NoDup_app. split; [apply countedFieldsOf_NoDup|]. split.
  - intros f [_ Hf]%countedFieldsOf_elem Hin. apply (Hp f); [|done]. set_solver.
  - apply (bool_decide_unpack _). reflexivity.
Qed.

Lemma plain_fields kind update f : plain update -> f ∈ countedFieldsOf kind update -> f <> f_v /\ f <> f_updatedAt.
Proof.
  intros Hp [_ Hf]%countedFieldsOf_elem.
  split; intros ->; (eapply Hp; [|exact Hf]); [left|do 2 right; left].
Qed.

(** The size of the row a pinned update leaves. *)
Lemma pinned_delta kind doc update now doc' : plain update -> stamped doc ->
  applyPinned kind update now doc = Some doc' ->
  countedBytes kind doc' = countedBytes kind doc + deltaOfPinnedUpdate kind (measureImage kind doc update) update.
Proof.
  intros Hp Hst Ha. pose proof (λ f, applyPinned_lookup kind update now doc doc' f Ha) as Hdoc'.
  rewrite (counted_change kind doc doc' (countedFieldsOf kind update ++ [f_v; f_updatedAt])).
  - rewrite !field_sum_app. unfold deltaOfPinnedUpdate. rewrite field_delta_sum by done.
    rewrite (field_sum_ext doc' (applyUpdate kind update doc) (countedFieldsOf kind update)).
    2: { intros f Hf. destruct (plain_fields kind update f Hp Hf). by rewrite Hdoc', !bool_decide_eq_false_2. }
    unfold field_sum at 2 4. cbn [foldr]. rewrite !Hdoc'. cbn [m_v hasUpdatedAt measureImage].
    rewrite (bool_decide_eq_false_2 (f_v = f_updatedAt)), !(bool_decide_eq_true_2 (_ = _)) by done.
    destruct (nextVersion doc) as [n|] eqn:En; [|unfold applyPinned in Ha; by rewrite En in Ha].
    cbn [fmap option_fmap option_map]. rewrite (date_bytes doc now Hst), (stamp_bytes doc n En).
    2: { intros m Hm. destruct Hst as [Hv _]. destruct (Hv _ Hm) as (k & [= <-] & ?). done. }
    destruct (doc !! f_v), (bool_decide _); lia.
  - by apply pinned_fields_NoDup.
  - apply Forall_app. split; [|apply bookkeeping_counted]. apply Forall_forall. by intros f [? _]%countedFieldsOf_elem.
  - intros f Hc Hf. rewrite Hdoc', !bool_decide_eq_false_2 by set_solver.
    apply applyUpdate_other. intros Hin. apply Hf. apply elem_of_app. left. by apply countedFieldsOf_elem.
Qed.

(** The bytes a pinned update changes are exactly the ones predicted from the measure of the
    row it replaces, new version and date included; and the measure computed for the row it
    leaves is the measure of that row, for a second update of the same fields. *)
Theorem deltaOfPinnedUpdate_exact kind doc update now doc' :
  plain update -> stamped doc -> applyPinned kind update now doc = Some doc' ->
  let measure := measureImage kind doc update in
  countedBytes kind doc' = countedBytes kind doc + deltaOfPinnedUpdate kind measure update /\
  ∀ next, plain next -> (∀ f, f ∈ countedFieldsOf kind next -> f ∈ countedFieldsOf kind update) ->
    measureAfter kind measure update next = measureImage kind doc' next.
Proof.
  intros Hp Hst Ha measure. split; [by apply (pinned_delta kind doc update now)|].
  intros next Hn Hsub. pose proof (λ f, applyPinned_lookup kind update now doc doc' f Ha) as Hdoc'.
  unfold measureAfter, measureImage at 1. f_equal.
  - rewrite Hdoc', bool_decide_eq_false_2, bool_decide_eq_true_2 by done. cbn [m_v measure measureImage].
    unfold applyPinned in Ha. destruct (nextVersion doc) as [n|] eqn:En; [|done]. cbn. do 2 f_equal.
    unfold nextVersion in En. destruct (doc !! f_v) as [[m| |]|]; try done; [|by injection En].
    destruct (int32 (m + 1)); [|done]. by injection En.
  - cbn [m_createdAt measure measureImage]. rewrite Hdoc', !bool_decide_eq_false_2 by done.
    symmetry. apply applyUpdate_other, Hp. set_solver.
  - symmetry. by apply (pinned_delta kind doc update now).
  - rewrite Hdoc', (bool_decide_eq_true_2 (_ = _)) by done. symmetry. apply bool_decide_eq_true_2. eauto.
  - apply map_eq. intros f. rewrite !fromFields_lookup by apply countedFieldsOf_NoDup.
    case_bool_decide as Hf; [|done]. f_equal. unfold measure. rewrite old_bytes_image by by apply Hsub.
    destruct (plain_fields kind next f Hn Hf). rewrite Hdoc', !(bool_decide_eq_false_2 (f = _)) by done.
    rewrite applyUpdate_lookup. destruct (castForStorage _ _ !! f); [done|]. by case_bool_decide.
Qed.
End sizes.

(** A field of 7 bytes replaced by one of 12: five bytes more. *)
Lemma deltaOfPinnedUpdate_exact_witness :
  plain (sampleUpdate 12) /\ stamped (sampleRow 7) /\
  ∃ doc', applyPinned (H := sampleStorage) item (sampleUpdate 12) 30 (sampleRow 7) = Some doc' /\
    @countedBytes sampleStorage item doc' =
      @countedBytes sampleStorage item (sampleRow 7) +
        @deltaOfPinnedUpdate sampleStorage item (@measureImage sampleStorage item (sampleRow 7) (sampleUpdate 12)) (sampleUpdate 12) /\
    @deltaOfPinnedUpdate sampleStorage item (@measureImage sampleStorage item (sampleRow 7) (sampleUpdate 12)) (sampleUpdate 12) = 5.
Proof.
  assert (plain (sampleUpdate 12)) as Hp by (intros f Hf; revert f Hf; apply Forall_forall; repeat constructor; vm_compute; set_solver).
  assert (stamped (sampleRow 7)) as Hst.
  { split; intros v Hv; vm_compute in Hv; injection Hv as <-; eexists; done. }
  split; [exact Hp|]. split; [exact Hst|]. eexists. split; [vm_compute; reflexivity|]. split; [|vm_compute; reflexivity].
  refine (proj1 (@deltaOfPinnedUpdate_exact sampleStorage sampleLaws item (sampleRow 7) (sampleUpdate 12) 30 _ Hp Hst _)).
  vm_compute. reflexivity.
Defined.
