(* ===== verification/VaultQuotaOps.v ===== *)
(** The protocol behind the vault byte quota and the row caps, server/src/utils/vaultQuota.ts:
    reserve, write, settle.

    A request is a program of database commands ([prog]): each command is one atomic operation of
    the database, and between two of them anything else may run.  The state is one account and its
    rows, which is all a request touches.  [exec] is what a command does; [outcome] adds the faults
    a driver reports: the command may not have reached the database, or it may have landed and its
    answer been lost, which no definite failure ever stands for.  [step] interleaves requests,
    crashes and the passing of time.

    The clock is the one the servers share, in milliseconds.  A date is read where the code builds
    it, one step before the command that stores it.  [HOLD_MS] is the five minutes the comment on
    [QUOTA_RECOUNT_QUIESCENCE_MS] bounds an operation by. *)
From S2P Require Import Prelude VaultQuota.
Local Open Scope Z_scope.

(** ** Constants *)

Definition MAX_ITEMS_PER_USER : Z := 10000.
Definition MAX_FOLDERS_PER_USER : Z := 500.
Definition ROW_CAP (kind : CountedKind) : Z :=
  match kind with item => MAX_ITEMS_PER_USER | folder => MAX_FOLDERS_PER_USER end.
Definition RESERVE_ATTEMPTS : nat := 3.
Definition PINNED_UPDATE_ATTEMPTS : nat := 3.
Definition COUNTED_DELETE_BATCH : nat := 500.
Definition QUOTA_RECOUNT_QUIESCENCE_MS : Z := 10 * 60 * 1000.
Definition HOLD_MS : Z := 5 * 60 * 1000.
Definition MAX_SAFE_INTEGER : Z := 9007199254740991.

(** ** Errors *)

(** What [isDefiniteWriteFailure] looks at of a thrown value. *)
Record JsError := {
  isError : bool;                    (* [instanceof Error] *)
  error_name : jsstr;
  isMongoServerError : bool;
  isMongoBulkWriteError : bool;
  isMongoWriteConcernError : bool;
  errorLabels : list jsstr;
  error_code : option Z;             (* when it is a number *)
}.

Definition REFUSED_WRITE_CODES : list Z := [11000; 121].

Definition isDefiniteWriteFailure (error : JsError) : bool :=
  if negb (isError error) then false
  else if bool_decide (error_name error ∈ [js "ValidationError"; js "CastError"; js "StrictModeError"]) then true
  else if negb (isMongoServerError error) then false
  else if isMongoBulkWriteError error then false
  else if isMongoWriteConcernError error then false
  else if (0 <? length (errorLabels error))%nat then false
  else match error_code error with Some c => bool_decide (c ∈ REFUSED_WRITE_CODES) | None => false end.

(** A refusal by the server, with its code. *)
Definition serverError (c : Z) : JsError :=
  {| isError := true; error_name := js "MongoServerError"; isMongoServerError := true;
     isMongoBulkWriteError := false; isMongoWriteConcernError := false; errorLabels := [];
     error_code := Some c |}.

Inductive VaultError :=
  | Thrown (e : JsError)
  | VaultQuotaExceededError
  | VaultRowLimitError (kind : CountedKind) (stored : Z)
  | RangeError (name : jsstr) (amount : Z)
  | NotFound
  | Conflict
  | Untouchable
  | OutOfFuel.

(** ** The stored state *)

Inductive Counter := c_bytes | c_items | c_folders.

#[export] Instance Counter_eq_dec : EqDecision Counter.
Proof. solve_decision. Defined.

Definition COUNTER_PATHS : list Counter := [c_bytes; c_items; c_folders].

Definition row_counter (kind : CountedKind) : Counter := match kind with item => c_items | folder => c_folders end.

Abbreviation Counts := (Counter -> Z).
Definition counts (bytes items folders : Z) : Counts :=
  λ k, match k with c_bytes => bytes | c_items => items | c_folders => folders end.

Record Account := {
  counter : Counter -> option Z;       (* [vaultBytes], [counters.items], [counters.folders] *)
  quotaEpoch : option Z;
  vaultBytesWrittenAt : option Z;
}.

(** [creations] lists the creation times each row id has had; the database keeps no such list. *)
Record DB := {
  account : option Account;
  rows : CountedKind -> gmap Z Doc;
  creations : CountedKind -> Z -> list (option Value);
  clock : Z;
}.

Definition counter_of (db : DB) (k : Counter) : option Z :=
  match account db with Some a => counter a k | None => None end.
Definition writtenAt (db : DB) : option Z :=
  match account db with Some a => vaultBytesWrittenAt a | None => None end.

Definition set_account (a : Account) (db : DB) : DB :=
  {| account := Some a; rows := rows db; creations := creations db; clock := clock db |}.
Definition set_row (kind : CountedKind) (id : Z) (row : option Doc) (db : DB) : DB :=
  {| account := account db;
     rows := λ k, if decide (k = kind) then partial_alter (λ _, row) id (rows db k) else rows db k;
     creations := creations db; clock := clock db |}.
Definition add_creation (kind : CountedKind) (id : Z) (created : option Value) (db : DB) : DB :=
  {| account := account db; rows := rows db;
     creations := λ k i, if decide ((k, i) = (kind, id)) then created :: creations db k i else creations db k i;
     clock := clock db |}.
Definition set_clock (t : Z) (db : DB) : DB :=
  {| account := account db; rows := rows db; creations := creations db; clock := t |}.

Section protocol.
Context `{Storage} (quota : Z).  (* [vaultQuotaBytes()] *)

(** The database's own totals ([storedVaultTotals]). *)
Definition rowBytes (kind : CountedKind) (rs : gmap Z Doc) : Z :=
  map_fold (λ _ doc n, countedBytes kind doc + n) 0 rs.
Definition totals (db : DB) : Counts :=
  counts (rowBytes item (rows db item) + rowBytes folder (rows db folder))
    (Z.of_nat (size (rows db item))) (Z.of_nat (size (rows db folder))).

(** ** Database commands *)

Definition Filter := Doc -> bool.

Inductive cmd : Type -> Type :=
  | DateNow : cmd Z
  | ReserveInc (amounts : Counts) (now : Z) : cmd bool
  | FindCounters : cmd (option (Counter -> option Z))
  | AggregateTotals (kind : CountedKind) : cmd (Z * Z)
  | InstallMissing (measured : Counts) (now : Z) : cmd unit
  | IncInstalled (delta : Counts) (now : Z) : cmd bool
  | FindMeasure (kind : CountedKind) (id : Z) (filter : Filter) (update : CountedUpdate) : cmd (option RowMeasure)
  | UpdatePinned (kind : CountedKind) (id : Z) (filter : Filter) (measure : RowMeasure)
      (update : CountedUpdate) (now : Z) : cmd (option Doc)
  | UpdatePlaced (kind : CountedKind) (id : Z) (filter : Filter) (update : CountedUpdate) (now : Z) : cmd (option Doc)
  | Insert (kind : CountedKind) (id : Z) (data : Doc) (now : Z) : cmd Doc
  | FindOneAndDelete (kind : CountedKind) (id : Z) (filter : Filter) : cmd (option (Z * Doc))
  | FindIds (scope : Z -> Doc -> bool) : cmd (list Z)
  | FindQuiet (quietSince : Z) : cmd (option Account)
  | RecountSet (epoch written : option Z) (measured : Counts) : cmd bool
  | BeforeWrite : cmd unit.

(** [counterRoom]: installed, and with room for [amount] below [ceiling] when it grows. *)
Definition counterRoom (stored : option Z) (amount ceiling : Z) : bool :=
  match stored with Some n => (amount =? 0) || (n <=? ceiling - amount) | None => false end.
Definition ceiling (k : Counter) : Z :=
  match k with c_bytes => quota | c_items => ROW_CAP item | c_folders => ROW_CAP folder end.

Definition add_counts (delta : Counts) (now : Z) (a : Account) : Account :=
  {| counter := λ k, (λ n, n + delta k) <$> counter a k;
     quotaEpoch := Some (default 0 (quotaEpoch a) + 1); vaultBytesWrittenAt := Some now |}.

(** [keepCounter]. *)
Definition keepCounter (stored : option Z) (value : Z) : option Z :=
  match stored with Some n => Some n | None => Some value end.

Definition is_installed (n : option Z) : bool := match n with Some _ => true | None => false end.

Definition find_row (kind : CountedKind) (id : Z) (filter : Filter) (db : DB) : option Doc :=
  match rows db kind !! id with Some doc => if filter doc then Some doc else None | None => None end.

(** The smallest ids of the rows in [scope], in order, one batch of them. *)
Definition matching_ids (scope : Z -> Doc -> bool) (rs : gmap Z Doc) : list Z :=
  take COUNTED_DELETE_BATCH
    (sort_by (λ id, id) (map fst (map_to_list (filter (λ '(id, doc), scope id doc = true) rs)))).

Definition exec {X} (c : cmd X) (db : DB) : DB * result JsError X :=
  match c in cmd X return DB * result JsError X with
  | DateNow => (db, Ok (clock db))
  | ReserveInc amounts now =>
      match account db with
      | Some a =>
          if forallb (λ k, counterRoom (counter a k) (amounts k) (ceiling k)) COUNTER_PATHS
          then (set_account (add_counts amounts now a) db, Ok true)
          else (db, Ok false)
      | None => (db, Ok false)
      end
  | FindCounters => (db, Ok (counter <$> account db))
  | AggregateTotals kind => (db, Ok (rowBytes kind (rows db kind), Z.of_nat (size (rows db kind))))
  | InstallMissing measured now =>
      match account db with
      | Some a =>
          if forallb (λ k, is_installed (counter a k)) COUNTER_PATHS then (db, Ok tt)
          else (set_account {| counter := λ k, keepCounter (counter a k) (measured k);
                               quotaEpoch := Some (default 0 (quotaEpoch a) + 1);
                               vaultBytesWrittenAt := Some now |} db, Ok tt)
      | None => (db, Ok tt)
      end
  | IncInstalled delta now =>
      match account db with
      | Some a =>
          if forallb (λ k, (delta k =? 0) || is_installed (counter a k)) COUNTER_PATHS
          then (set_account (add_counts delta now a) db, Ok true)
          else (db, Ok false)
      | None => (db, Ok false)
      end
  | FindMeasure kind id filter update =>
      (db, Ok ((λ doc, measureImage kind doc update) <$> find_row kind id filter db))
  | UpdatePinned kind id filter measure update now =>
      match find_row kind id filter db with
      | Some doc =>
          if versionPin measure doc then
            match applyPinned kind update now doc with
            | Some doc' => (set_row kind id (Some doc') db, Ok (Some doc'))
            | None => (db, Throw (serverError 14))
            end
          else (db, Ok None)
      | None => (db, Ok None)
      end
  | UpdatePlaced kind id filter update now =>
      match find_row kind id filter db with
      | Some doc => let doc' := applyPlacement kind update now doc in
                    (set_row kind id (Some doc') db, Ok (Some doc'))
      | None => (db, Ok None)
      end
  | Insert kind id data now =>
      match rows db kind !! id with
      | Some _ => (db, Throw (serverError 11000))
      | None => let doc := completeNew now (storedFields kind data) in
                (add_creation kind id (doc !! f_createdAt) (set_row kind id (Some doc) db), Ok doc)
      end
  | FindOneAndDelete kind id filter =>
      match find_row kind id filter db with
      | Some doc => (set_row kind id None db, Ok (Some (countedBytes kind doc, doc)))
      | None => (db, Ok None)
      end
  | FindIds scope => (db, Ok (matching_ids scope (rows db item)))
  | FindQuiet quietSince =>
      (db, Ok match account db with
              | Some a => match vaultBytesWrittenAt a with
                          | None => Some a
                          | Some w => if w <? quietSince then Some a else None
                          end
              | None => None
              end)
  | RecountSet epoch written measured =>
      match account db with
      | Some a =>
          if bool_decide (quotaEpoch a = epoch) && bool_decide (vaultBytesWrittenAt a = written)
          then (set_account {| counter := λ k, Some (measured k);
                               quotaEpoch := Some (default 0 (quotaEpoch a) + 1);
                               vaultBytesWrittenAt := vaultBytesWrittenAt a |} db, Ok true)
          else (db, Ok false)
      | None => (db, Ok false)
      end
  | BeforeWrite => (db, Ok tt)
  end.

(** ** Programs of commands *)

Inductive prog (R : Type) : Type :=
  | Done (r : R)
  | Call {X : Type} (c : cmd X) (k : result JsError X -> prog R).
#[global] Arguments Done {R} _.
#[global] Arguments Call {R X} _ _.

Fixpoint bind {R S} (p : prog R) (f : R -> prog S) : prog S :=
  match p with
  | Done r => f r
  | Call c k => Call c (λ x, bind (k x) f)
  end.

(** An [async] function: a program whose result may be a thrown error. *)
Definition async (R : Type) : Type := prog (result VaultError R).
Definition ret {R} (r : R) : async R := Done (Ok r).
Definition throw {R} (e : VaultError) : async R := Done (Throw e).
Definition await {R S} (p : async R) (f : R -> async S) : async S :=
  bind p (λ r, match r with Ok x => f x | Throw e => throw e end).
Definition call {X} (c : cmd X) : async X :=
  Call c (λ r, match r with Ok x => ret x | Throw e => throw (Thrown e) end).

Local Notation "'let!' x := m 'in' k" := (await m (λ x, k))
  (at level 10, x pattern, m at level 100, k at level 200).

(** ** Totals, install, reserve *)

Definition storedVaultTotals : async Counts :=
  let! i := call (AggregateTotals item) in
  let! f := call (AggregateTotals folder) in
  ret (counts (fst i + fst f) (snd i) (snd f)).

Definition installVaultCounters : async unit :=
  let! measured := storedVaultTotals in
  let! now := call DateNow in
  call (InstallMissing measured now).

Definition assertReservable (name : jsstr) (amount : Z) : async unit :=
  if (0 <=? amount) && (amount <=? MAX_SAFE_INTEGER) then ret tt else throw (RangeError name amount).

(** The refusal kept for a reservation that misses every time. *)
Definition refusalOf (amounts : Counts) (storedItems storedFolders : Z) : option VaultError :=
  if 0 <? amounts c_items then Some (VaultRowLimitError item storedItems)
  else if 0 <? amounts c_folders then Some (VaultRowLimitError folder storedFolders)
  else if 0 <? amounts c_bytes then Some VaultQuotaExceededError
  else None.

Fixpoint reserve_loop (attempts : nat) (amounts : Counts) (lastRefusal : option VaultError) : async Counts :=
  match attempts with
  | O => throw (default Untouchable lastRefusal)
  | S attempts' =>
      let! now := call DateNow in
      let! matched := call (ReserveInc amounts now) in
      if (matched : bool) then ret amounts else
      let! stored := call FindCounters in
      match stored with
      | None => throw NotFound
      | Some c =>
          match c c_bytes, c c_items, c c_folders with
          | Some b, Some i, Some f =>
              if (0 <? amounts c_items) && (ROW_CAP item <? i + amounts c_items)
              then throw (VaultRowLimitError item i)
              else if (0 <? amounts c_folders) && (ROW_CAP folder <? f + amounts c_folders)
              then throw (VaultRowLimitError folder f)
              else if (0 <? amounts c_bytes) && (quota <? b + amounts c_bytes)
              then throw VaultQuotaExceededError
              else reserve_loop attempts' amounts (refusalOf amounts i f)
          | _, _, _ =>
              let! _ := installVaultCounters in
              reserve_loop attempts' amounts lastRefusal
          end
      end
  end.

Definition reserveVaultWrite (amounts : Counts) : async Counts :=
  let! _ := assertReservable (js "bytes") (amounts c_bytes) in
  let! _ := assertReservable (js "items") (amounts c_items) in
  let! _ := assertReservable (js "folders") (amounts c_folders) in
  reserve_loop RESERVE_ATTEMPTS amounts None.

(** ** Settle and release *)

Definition addVaultCounts (delta : Counts) : async bool :=
  if forallb (λ k, delta k =? 0) COUNTER_PATHS then ret true else
  let! now := call DateNow in
  call (IncInstalled delta now).

(** Never fails the operation it closes. *)
Definition settleVaultWrite (reservation actual : Counts) : async unit :=
  bind (addVaultCounts (λ k, actual k - reservation k)) (λ _, ret tt).

Definition releaseVaultWrite (reservation : Counts) : async unit :=
  settleVaultWrite reservation (counts 0 0 0).

Definition releaseOnDefiniteFailure {R} (reservation : Counts) (error : JsError) : async R :=
  if isDefiniteWriteFailure error then
    let! _ := releaseVaultWrite reservation in throw (Thrown error)
  else throw (Thrown error).

(** ** The counted writes of one row *)

Definition oneRowOf (kind : CountedKind) (bytes : Z) : Counts :=
  match kind with item => counts bytes 1 0 | folder => counts bytes 0 1 end.

Fixpoint update_loop (attempts : nat) (kind : CountedKind) (id : Z) (update : CountedUpdate)
    (extraFilter : Filter) (beforeWrite : bool) (first : option RowMeasure) : async (option Doc) :=
  match attempts with
  | O => throw Conflict
  | S attempts' =>
      let! measured := call (FindMeasure kind id extraFilter update) in
      match measured with
      | None => ret None
      | Some measure =>
          let first := default measure first in
          if negb (sameIncarnation measure first) then ret None else
          let! _ := (if beforeWrite then call BeforeWrite else ret tt) in
          let! reservation := reserveVaultWrite (counts (Z.max 0 (deltaOfPinnedUpdate kind measure update)) 0 0) in
          let! now := call DateNow in
          Call (UpdatePinned kind id extraFilter measure update now) (λ after,
            match after with
            | Throw error => releaseOnDefiniteFailure reservation error
            | Ok None =>
                let! _ := releaseVaultWrite reservation in
                update_loop attempts' kind id update extraFilter beforeWrite (Some first)
            | Ok (Some after) =>
                let! _ := settleVaultWrite reservation (counts (countedBytes kind after - counted measure) 0 0) in
                ret (Some after)
            end)
      end
  end.

(** [id] is [None] when it is no row id. *)
Definition updateCountedRow (kind : CountedKind) (id : option Z) (update : CountedUpdate)
    (extraFilter : Filter) (beforeWrite : bool) : async (option Doc) :=
  match id with
  | None => ret None
  | Some rowId =>
      if negb (writesCountedField kind update) then
        let! now := call DateNow in
        call (UpdatePlaced kind rowId extraFilter update now)
      else update_loop PINNED_UPDATE_ATTEMPTS kind rowId update extraFilter beforeWrite None
  end.

(** [create] is the caller's [Model.create(data)], the same [data]. *)
Definition createCountedRow (kind : CountedKind) (id : Z) (data : Doc) : async Doc :=
  let! reservation := reserveVaultWrite (oneRowOf kind (countedBytesOfNew kind data)) in
  let! now := call DateNow in
  Call (Insert kind id data now) (λ created,
    match created with
    | Throw error => releaseOnDefiniteFailure reservation error
    | Ok created =>
        let! _ := settleVaultWrite reservation (oneRowOf kind (countedBytes kind created)) in
        ret created
    end).

Definition deleteCountedRow (kind : CountedKind) (id : Z) (filter : Filter) : async (option (Z * Doc)) :=
  call (FindOneAndDelete kind id filter).

Definition withdrawCountedRow (kind : CountedKind) (id : Z) (createdAt : option Value) (accountLive : bool) : async bool :=
  let filter := λ doc : Doc, bool_decide (doc !! f_createdAt = createdAt) in
  if negb accountLive then
    let! gone := deleteCountedRow kind id filter in ret (bool_decide (is_Some gone))
  else
    let! reservation := reserveVaultWrite (counts 0 0 0) in
    let! gone := deleteCountedRow kind id filter in
    let! _ := match gone with
              | Some (n, _) => settleVaultWrite reservation (λ k, - oneRowOf kind n k)
              | None => releaseVaultWrite reservation
              end in
    ret (bool_decide (is_Some gone)).

(** ** Deletions *)

Definition trashed (doc : Doc) : bool :=
  match doc !! js "deletedAt" with Some (VDate _) => true | _ => false end.

(** The counting part of [permanentDelete] (vaultController.ts). *)
Definition permanentDelete (id : option Z) : async unit :=
  let! reservation := reserveVaultWrite (counts 0 0 0) in
  let! gone := match id with Some rowId => deleteCountedRow item rowId trashed | None => ret None end in
  match gone with
  | None => throw NotFound
  | Some (n, _) => settleVaultWrite reservation (counts (- n) (-1) 0)
  end.

(** What a walk has removed so far; it survives an error. *)
Record Tally := { deleted : Z; removed_bytes : Z }.
Definition tally_one (n : Z) (tally : Tally) : Tally :=
  {| deleted := deleted tally + 1; removed_bytes := removed_bytes tally + n |}.

Fixpoint delete_batch (predicate : Filter) (batch : list Z) (tally : Tally) : prog (Tally * result VaultError unit) :=
  match batch with
  | [] => Done (tally, Ok tt)
  | id :: batch' =>
      bind (deleteCountedRow item id predicate) (λ gone,
        match gone with
        | Throw e => Done (tally, Throw e)
        | Ok None => delete_batch predicate batch' tally
        | Ok (Some (n, _)) => delete_batch predicate batch' (tally_one n tally)
        end)
  end.

(** [fuel] is the rounds of the walk; [OutOfFuel] stands for no behaviour of the code. *)
Fixpoint deleteCountedItems (fuel : nat) (predicate : Filter) (tally : Tally) (ids : option (list Z))
    (after : option Z) : prog (Tally * result VaultError unit) :=
  match fuel with
  | O => Done (tally, Throw OutOfFuel)
  | S fuel' =>
      let scope := λ id doc, predicate doc
        && match ids with Some l => bool_decide (id ∈ l) | None => true end
        && match after with Some a => a <? id | None => true end in
      Call (FindIds scope) (λ batch,
        match batch with
        | Throw e => Done (tally, Throw (Thrown e))
        | Ok batch =>
            bind (delete_batch predicate batch tally) (λ '(tally, done),
              match done with
              | Throw e => Done (tally, Throw e)
              | Ok _ =>
                  if (length batch <? COUNTED_DELETE_BATCH)%nat then Done (tally, Ok tt)
                  else deleteCountedItems fuel' predicate tally ids (last batch)
              end)
        end)
  end.

(** [try { walk } finally { settle }]. *)
Definition settleTally (reservation : Counts) (walk : prog (Tally * result VaultError unit)) : async Tally :=
  bind walk (λ '(tally, done),
    let! _ := settleVaultWrite reservation (counts (- removed_bytes tally) (- deleted tally) 0) in
    match done with Ok _ => ret tally | Throw e => throw e end).

Definition trashedBefore (startTime : Z) (doc : Doc) : bool :=
  match doc !! js "deletedAt" with Some (VDate t) => t <=? startTime | _ => false end.

(** The counting part of [emptyTrash] (vaultController.ts). *)
Definition emptyTrash (fuel : nat) : async Tally :=
  let! startTime := call DateNow in
  let! reservation := reserveVaultWrite (counts 0 0 0) in
  settleTally reservation
    (deleteCountedItems fuel (trashedBefore startTime) {| deleted := 0; removed_bytes := 0 |} None None).

(** The item loop of [purgeUnreadable] (vaultController.ts): each row named with what it held. *)
Fixpoint purge_loop (named : list (Z * Filter)) (tally : Tally) : prog (Tally * result VaultError unit) :=
  match named with
  | [] => Done (tally, Ok tt)
  | (id, held) :: named' =>
      bind (deleteCountedRow item id held) (λ gone,
        match gone with
        | Throw e => Done (tally, Throw e)
        | Ok None => purge_loop named' tally
        | Ok (Some (n, _)) => purge_loop named' (tally_one n tally)
        end)
  end.

Definition purgeUnreadableItems (named : list (Z * Filter)) : async Tally :=
  let! reservation := reserveVaultWrite (counts 0 0 0) in
  settleTally reservation (purge_loop named {| deleted := 0; removed_bytes := 0 |}).

(** ** The recount *)

Record QuotaRecountSummary := { recounted : Z; corrected : Z; failures : Z }.

Definition recount_set (account : Account) : async QuotaRecountSummary :=
  let! total := storedVaultTotals in
  let! matched := call (RecountSet (quotaEpoch account) (vaultBytesWrittenAt account) total) in
  if negb (matched : bool) then ret {| recounted := 0; corrected := 0; failures := 0 |} else
  let drifted := forallb (λ k, is_installed (counter account k)) COUNTER_PATHS
    && existsb (λ k, negb (bool_decide (counter account k = Some (total k)))) COUNTER_PATHS in
  ret {| recounted := 1; corrected := if drifted then 1 else 0; failures := 0 |}.

(** [recountVaultQuotas] on one account: a candidate when it is quiet. *)
Definition recountVaultQuotas : async QuotaRecountSummary :=
  let! startedAt := call DateNow in
  let! candidate := call (FindQuiet (startedAt - QUOTA_RECOUNT_QUIESCENCE_MS)) in
  match candidate with
  | None => ret {| recounted := 0; corrected := 0; failures := 0 |}
  | Some account =>
      bind (recount_set account) (λ r,
        match r with
        | Ok summary => ret summary
        | Throw _ => ret {| recounted := 0; corrected := 0; failures := 1 |}
        end)
  end.

(** ** One request alone *)

(** The program run without faults or company. *)
Fixpoint run {R} (p : prog R) (db : DB) : DB * R :=
  match p with
  | Done r => (db, r)
  | Call c k => let (db', r) := exec c db in run (k r) db'
  end.

(** ** Interleavings *)

(** The model of a command stops where a version number leaves 32 bits, and relies on a row id
    never having two creations at one millisecond, as the version pin does. *)
Definition lands {X} (c : cmd X) (db : DB) : bool :=
  match c with
  | UpdatePinned kind id filter measure update now =>
      match find_row kind id filter db with
      | Some doc => bool_decide (is_Some (nextVersion doc))
      | None => true
      end
  | Insert kind id data now => negb (bool_decide (Some (VDate now) ∈ creations db kind id))
  | _ => true
  end.

(** Reading the clock is no call and never fails. *)
Definition remote {X} (c : cmd X) : bool := match c with DateNow => false | _ => true end.

(** What one command may do to the database and answer; [true] when nothing went wrong. *)
Inductive outcome {X} (c : cmd X) (db : DB) : bool -> DB -> result JsError X -> Prop :=
  | outcome_ran : lands c db = true -> outcome c db true (fst (exec c db)) (snd (exec c db))
  | outcome_lost e : remote c = true -> outcome c db false db (Throw e)
  | outcome_landed e : remote c = true -> lands c db = true -> isDefiniteWriteFailure e = false ->
      outcome c db false (fst (exec c db)) (Throw e).

Inductive request :=
  | R_create (kind : CountedKind) (id : Z) (data : Doc)
  | R_update (kind : CountedKind) (id : option Z) (update : CountedUpdate) (extraFilter : Filter) (beforeWrite : bool)
  | R_delete (id : option Z)
  | R_withdraw (kind : CountedKind) (id : Z) (createdAt : option Value)
  | R_empty (fuel : nat)
  | R_purge (named : list (Z * Filter))
  | R_recount.

(** What every caller passes: nothing of a row's bookkeeping, which is Mongoose's. *)
Definition request_ok (rq : request) : Prop :=
  match rq with
  | R_create kind _ data => ∀ f, f ∈ [f_v; f_createdAt; f_updatedAt] -> storedFields kind data !! f = None
  | R_update _ _ update _ _ => plain update
  | _ => True
  end.

Definition handler (rq : request) : prog unit :=
  match rq with
  | R_create kind id data => bind (createCountedRow kind id data) (λ _, Done tt)
  | R_update kind id update extraFilter beforeWrite =>
      bind (updateCountedRow kind id update extraFilter beforeWrite) (λ _, Done tt)
  | R_delete id => bind (permanentDelete id) (λ _, Done tt)
  | R_withdraw kind id createdAt => bind (withdrawCountedRow kind id createdAt true) (λ _, Done tt)
  | R_empty fuel => bind (emptyTrash fuel) (λ _, Done tt)
  | R_purge named => bind (purgeUnreadableItems named) (λ _, Done tt)
  | R_recount => bind recountVaultQuotas (λ _, Done tt)
  end.

(** A request in flight: when it began, and what is left of it. *)
Record Task := { started : Z; todo : prog unit }.

Record State := { db : DB; tasks : list Task }.

Definition running (t : Task) : bool := match todo t with Done _ => false | Call _ _ => true end.

(** No request is still running more than [HOLD_MS] after it began. *)
Definition in_time (now : Z) (ts : list Task) : bool :=
  forallb (λ t, negb (running t) || (now - started t <=? HOLD_MS)) ts.

Inductive step : bool -> State -> State -> Prop :=
  | step_spawn s rq : request_ok rq -> step true s {| db := db s; tasks := tasks s ++ [{| started := clock (db s); todo := handler rq |}] |}
  | step_run s i t0 X (c : cmd X) k clean db' r :
      tasks s !! i = Some {| started := t0; todo := Call c k |} -> outcome c (db s) clean db' r ->
      step clean s {| db := db'; tasks := <[i := {| started := t0; todo := k r |}]> (tasks s) |}
  | step_crash s i t : tasks s !! i = Some t ->
      step false s {| db := db s; tasks := <[i := {| started := started t; todo := Done tt |}]> (tasks s) |}
  | step_tick s d : 0 <= d -> in_time (clock (db s) + d) (tasks s) = true ->
      step true s {| db := set_clock (clock (db s) + d) (db s); tasks := tasks s |}.
End protocol.
