(* ===== verification/VaultQuotaLogic.v ===== *)
(** The reasoning behind the quota protocol: what every command may do to the shared state
    ([evolves]), what a request may owe the counters ([books]), and the precondition calculus
    [wp] in which a request is checked against any company; and what each command does in it. *)
From S2P Require Import Prelude VaultQuota VaultQuotaSpec VaultQuotaOps.
Local Open Scope Z_scope.

Section logic.
Context `{StorageLaws} (quota : Z).

(** ** What holds of the rows *)

(** A row has its bookkeeping, the date of its last update included: no legacy row without [updatedAt]. *)
Definition sound_row (doc : Doc) : Prop := stamped doc /\ is_Some (doc !! f_updatedAt).

Definition sound (db : DB) : Prop :=
  ∀ kind id doc, rows db kind !! id = Some doc ->
    sound_row doc /\ doc !! f_createdAt ∈ creations db kind id.

(** Nothing a measure can see has changed. *)
Definition same_counted (kind : CountedKind) (doc doc' : Doc) : Prop :=
  ∀ update, measureImage kind doc update = measureImage kind doc' update.

Definition ver (doc : Doc) : Z := match doc !! f_v with Some (VInt n) => n | _ => 0 end.

Definition advances (kind : CountedKind) (doc doc' : Doc) : Prop :=
  doc !! f_createdAt = doc' !! f_createdAt /\ (same_counted kind doc doc' \/ ver doc < ver doc').

(** The rows of one kind, as an aggregate sees them. *)
Definition part (kind : CountedKind) (db : DB) : Z * Z :=
  (rowBytes kind (rows db kind), Z.of_nat (size (rows db kind))).

Lemma totals_part db db' : (∀ kind, part kind db' = part kind db) -> ∀ k, totals db' k = totals db k.
Proof.
  intros Hp. pose proof (Hp item) as Hi. pose proof (Hp folder) as Hf. unfold part in *.
  apply pair_equal_spec in Hi as [Hi Hi'], Hf as [Hf Hf']. intros []; unfold totals, counts; congruence.
Qed.

Definition installed (db : DB) : Prop := ∀ k, is_Some (counter_of db k).

(** ** What any request guarantees the others *)

Record evolves (db db' : DB) : Prop := {
  ev_clock : clock db <= clock db';
  ev_creations kind id c : c ∈ creations db kind id -> c ∈ creations db' kind id;
  ev_rows kind id doc' : rows db' kind !! id = Some doc' ->
    doc' !! f_createdAt ∉ creations db kind id \/
    ∃ doc, rows db kind !! id = Some doc /\ advances kind doc doc';
  ev_counter k : is_Some (counter_of db k) -> is_Some (counter_of db' k);
  ev_written w : writtenAt db = Some w ->
    ∃ w', writtenAt db' = Some w' /\ (w <= w' \/ clock db - HOLD_MS <= w');
  ev_totals : (∀ kind, part kind db' = part kind db) \/
    (installed db' /\ ∃ w, writtenAt db' = Some w /\ clock db - 2 * HOLD_MS <= w);
}.

Lemma advances_refl kind doc : advances kind doc doc.
Proof. split; [done|]. by left. Qed.

Lemma same_counted_ver kind doc doc' : same_counted kind doc doc' -> ver doc = ver doc'.
Proof.
  intros Hs. specialize (Hs {| set_fields := ∅; unset_fields := ∅ |}). unfold ver.
  assert (doc !! f_v = doc' !! f_v) as -> by (by injection Hs). done.
Qed.

Lemma advances_trans kind doc doc' doc'' : advances kind doc doc' -> advances kind doc' doc'' -> advances kind doc doc''.
Proof.
  intros [Hc Ha] [Hc' Ha']. split; [congruence|].
  destruct Ha as [Hs|Hv], Ha' as [Hs'|Hv']; [left|right..].
  - intros update. rewrite Hs. apply Hs'.
  - rewrite (same_counted_ver _ _ _ Hs). done.
  - rewrite <- (same_counted_ver _ _ _ Hs'). done.
  - lia.
Qed.

#[export] Instance evolves_refl : Reflexive evolves.
Proof.
  intros db. split; try done.
  - intros kind id doc Hdoc. right. exists doc. split; [done|]. apply advances_refl.
  - intros w Hw. exists w. split; [done|]. lia.
  - by left.
Qed.

Lemma ev_installed db db' : evolves db db' -> installed db -> installed db'.
Proof. intros Hev Hi k. apply (ev_counter _ _ Hev), Hi. Qed.

#[export] Instance evolves_trans : Transitive evolves.
Proof.
  intros db db' db'' H1 H2. pose proof (ev_clock _ _ H1) as Hc1. pose proof (ev_clock _ _ H2) as Hc2. split.
  - lia.
  - intros kind id c Hc. by apply (ev_creations _ _ H2), (ev_creations _ _ H1).
  - intros kind id doc'' Hd. destruct (ev_rows _ _ H2 _ _ _ Hd) as [Hn|(doc' & Hd' & Ha')].
    + left. intros Hc. by apply Hn, (ev_creations _ _ H1).
    + destruct (ev_rows _ _ H1 _ _ _ Hd') as [Hn|(doc & Hd0 & Ha)].
      * left. by rewrite <- (proj1 Ha').
      * right. exists doc. split; [done|]. by eapply advances_trans.
  - intros k Hk. by apply (ev_counter _ _ H2), (ev_counter _ _ H1).
  - intros w Hw. destruct (ev_written _ _ H1 _ Hw) as (w' & Hw' & Hle).
    destruct (ev_written _ _ H2 _ Hw') as (w'' & Hw'' & Hle'). exists w''. split; [done|]. lia.
  - destruct (ev_totals _ _ H2) as [Ht2|(Hi & w & Hw & Hle)].
    + destruct (ev_totals _ _ H1) as [Ht1|(Hi & w & Hw & Hle)].
      * left. intros kind. by rewrite Ht2, Ht1.
      * right. split; [by eapply ev_installed|].
        destruct (ev_written _ _ H2 _ Hw) as (w' & Hw' & Hle'). exists w'. split; [done|].
        unfold HOLD_MS in *. lia.
    + right. split; [done|]. exists w. split; [done|]. lia.
Qed.

(** ** What a request owes *)

(** The request begun at [t0] is within its time. *)
Definition alive (t0 : Z) (db : DB) : Prop := t0 <= clock db <= t0 + HOLD_MS.

(** The counters are installed and were written while the request begun at [t0] could run. *)
Definition reserved (t0 : Z) (db : DB) : Prop :=
  installed db /\ ∃ w, writtenAt db = Some w /\ t0 - HOLD_MS <= w.

(** No request within its time has a reservation. *)
Definition unowed (db : DB) : Prop := ∀ t0, alive t0 db -> ~ reserved t0 db.

Lemma reserved_evolves t0 db db' : t0 <= clock db -> evolves db db' -> reserved t0 db -> reserved t0 db'.
Proof.
  intros Ht Hev (Hi & w & Hw & Hle). split; [by eapply ev_installed|].
  destruct (ev_written _ _ Hev _ Hw) as (w' & Hw' & Hle'). exists w'. split; [done|]. lia.
Qed.

(** How far a counter [c] is above the stored total and what the request of credit [o] still owes. *)
Definition drift (db : DB) (k : Counter) (o : Counts) (c : Z) : Z := c - totals db k - o k.

(** The counter [k] across one command: the drift never falls, and stays when nothing went wrong,
    and the counter never passes both its old value and its ceiling; or it is set to the stored
    total when no request is owed anything. *)
Definition entry (clean : bool) (db : DB) (o : Counts) (db' : DB) (o' : Counts) (k : Counter) (c' : Z) : Prop :=
  (∃ c, counter_of db k = Some c /\ drift db k o c <= drift db' k o' c' /\
        (clean = true -> drift db' k o' c' = drift db k o c) /\ (c' <= c \/ c' <= ceiling quota k)) \/
  (unowed db /\ o' k = 0 /\ c' = totals db' k /\ totals db k = totals db' k).

(** Whether [c] is the recount's write and takes place. *)
Definition recounts {X} (c : cmd X) (db : DB) : bool :=
  match c with
  | RecountSet epoch written _ =>
      match account db with
      | Some a => bool_decide (quotaEpoch a = epoch) && bool_decide (vaultBytesWrittenAt a = written)
      | None => false
      end
  | _ => false
  end.

Definition owes_nothing (o : Counts) : Prop := ∀ k, o k = 0.

Record books (t0 : Z) (clean recount : bool) (db : DB) (o : Counts) (db' : DB) (o' : Counts) : Prop := {
  bk_evolves : evolves db db';
  bk_clock : clock db' = clock db;
  bk_sound : sound db';
  bk_credit k : 0 <= o' k;
  bk_reserved : owes_nothing o' \/ reserved t0 db';
  bk_entry k c' : counter_of db' k = Some c' -> entry clean db o db' o' k c';
  bk_recount : clean = true -> recount = true -> ∀ k, counter_of db' k = Some (totals db' k);
}.

(** ** The calculus *)

Fixpoint wp {R} (t0 : Z) (p : prog R) (Q : R -> Counts -> DB -> Prop) (o : Counts) (db0 : DB) : Prop :=
  match p with
  | Done r => Q r o db0
  | Call c k =>
      ∀ db, evolves db0 db -> sound db -> alive t0 db ->
      ∀ clean db' r, outcome quota c db clean db' r ->
      ∃ o', books t0 clean (recounts c db) db o db' o' /\ wp t0 (k r) Q o' db'
  end.

Lemma wp_mono {R} t0 (p : prog R) (Q Q' : R -> Counts -> DB -> Prop) o db0 :
  (∀ r o' db, Q r o' db -> Q' r o' db) -> wp t0 p Q o db0 -> wp t0 p Q' o db0.
Proof.
  intros HQ. revert o db0. induction p as [r|X c k IH]; intros o db0; cbn; [apply HQ|].
  intros Hp db Hev Hs Ha clean db' r Hout. destruct (Hp db Hev Hs Ha clean db' r Hout) as (o' & Hb & Hk).
  exists o'. split; [done|]. by apply IH.
Qed.

Lemma wp_bind {R S} t0 (p : prog R) (f : R -> prog S) Q o db0 :
  wp t0 p (λ r o' db, wp t0 (f r) Q o' db) o db0 -> wp t0 (bind p f) Q o db0.
Proof.
  revert o db0. induction p as [r|X c k IH]; intros o db0; cbn; [done|].
  intros Hp db Hev Hs Ha clean db' r Hout. destruct (Hp db Hev Hs Ha clean db' r Hout) as (o' & Hb & Hk).
  exists o'. split; [done|]. by apply IH.
Qed.

Lemma wp_await {R S} t0 (p : async R) (f : R -> async S) Q o db0 :
  wp t0 p (λ r o' db, match r with Ok x => wp t0 (f x) Q o' db | Throw e => Q (Throw e) o' db end) o db0 ->
  wp t0 (await p f) Q o db0.
Proof. intros Hp. apply wp_bind. eapply wp_mono; [|done]. by intros [x|e] o' db. Qed.

(** A request may start from a later state. *)
Lemma wp_later {R} t0 (p : prog R) Q o db0 db1 : evolves db0 db1 ->
  (∀ r, p = Done r -> Q r o db0 -> Q r o db1) -> wp t0 p Q o db0 -> wp t0 p Q o db1.
Proof.
  destruct p as [r|X c k]; cbn; intros Hev HQ; [by apply HQ|].
  intros Hp db Hev1. apply Hp. by transitivity db1.
Qed.
End logic.

Local Open Scope Z_scope.

(** ** The size of a collection *)

Section sizes.
Context `{StorageLaws}.

Lemma rowBytes_delete kind rs id doc : rs !! id = Some doc ->
  rowBytes kind rs = countedBytes kind doc + rowBytes kind (delete id rs).
Proof.
  intros Hd. unfold rowBytes. apply (map_fold_delete_L (λ _ d n, countedBytes kind d + n)); [|done].
  intros. lia.
Qed.

Lemma rowBytes_insert kind rs id doc : rs !! id = None ->
  rowBytes kind (<[id := doc]> rs) = countedBytes kind doc + rowBytes kind rs.
Proof.
  intros Hd. unfold rowBytes. apply (map_fold_insert_L (λ _ d n, countedBytes kind d + n)); [|done].
  intros. lia.
Qed.

(** What one row adds to the counters. *)
Definition row_counts (kind : CountedKind) (row : option Doc) : Counts :=
  match row with None => counts 0 0 0 | Some doc => oneRowOf kind (countedBytes kind doc) end.

Definition row_size (kind : CountedKind) (row : option Doc) : Z :=
  match row with None => 0 | Some doc => countedBytes kind doc end.

Definition row_one (row : option Doc) : Z := match row with None => 0 | Some _ => 1 end.

Lemma row_counts_eq kind row k :
  row_counts kind row k =
    match k, kind with
    | c_bytes, _ => row_size kind row
    | c_items, item | c_folders, folder => row_one row
    | _, _ => 0
    end.
Proof. by destruct row, k, kind. Qed.

Lemma rowBytes_alter kind rs id row :
  rowBytes kind (partial_alter (λ _, row) id rs) = rowBytes kind rs - row_size kind (rs !! id) + row_size kind row.
Proof.
  assert (rowBytes kind rs = row_size kind (rs !! id) + rowBytes kind (delete id rs)) as ->.
  { destruct (rs !! id) as [doc|] eqn:E; [by apply rowBytes_delete|]. by rewrite delete_id. }
  destruct row as [doc|]; cbn [row_size].
  - change (partial_alter _ id rs) with (<[id := doc]> rs). rewrite <- insert_delete_eq.
    rewrite rowBytes_insert by apply lookup_delete_eq. lia.
  - change (partial_alter _ id rs) with (delete id rs). lia.
Qed.

Lemma size_alter (rs : gmap Z Doc) id row :
  Z.of_nat (size (partial_alter (λ _, row) id rs)) =
    Z.of_nat (size rs) - row_one (rs !! id) + row_one row.
Proof.
  assert (Z.of_nat (size rs) = Z.of_nat (size (delete id rs)) + row_one (rs !! id)) as ->.
  { destruct (rs !! id) as [doc|] eqn:E; cbn [row_one]; [|rewrite delete_id by done; lia].
    rewrite <- (insert_delete_id rs id doc E) at 1. rewrite map_size_insert_None by apply lookup_delete_eq. lia. }
  destruct row as [doc|]; cbn [row_one].
  - change (partial_alter _ id rs) with (<[id := doc]> rs). rewrite <- insert_delete_eq.
    rewrite map_size_insert_None by apply lookup_delete_eq. lia.
  - change (partial_alter _ id rs) with (delete id rs). lia.
Qed.

Lemma set_row_rows kind id row db kind' id' :
  rows (set_row kind id row db) kind' !! id' =
    if decide (kind' = kind /\ id' = id) then row else rows db kind' !! id'.
Proof.
  cbn [rows set_row]. destruct (decide (kind' = kind)) as [->|Hk].
  - destruct (decide (id' = id)) as [->|Hi].
    + rewrite decide_True by done. apply lookup_partial_alter_eq.
    + rewrite decide_False by tauto. by apply lookup_partial_alter_ne.
  - by rewrite decide_False by tauto.
Qed.

Lemma totals_set_row kind id row db k :
  totals (set_row kind id row db) k =
    totals db k - row_counts kind (rows db kind !! id) k + row_counts kind row k.
Proof.
  unfold totals. cbn [rows set_row].
  assert (∀ k0, rowBytes k0 (if decide (k0 = kind) then partial_alter (λ _, row) id (rows db k0) else rows db k0) =
    rowBytes k0 (rows db k0) - (if decide (k0 = kind) then row_size kind (rows db kind !! id) else 0)
      + (if decide (k0 = kind) then row_size kind row else 0)) as Hb.
  { intros k0. case_decide as E; [subst; apply rowBytes_alter|lia]. }
  assert (∀ k0, Z.of_nat (size (if decide (k0 = kind) then partial_alter (λ _, row) id (rows db k0) else rows db k0)) =
    Z.of_nat (size (rows db k0)) - (if decide (k0 = kind) then row_one (rows db kind !! id) else 0)
      + (if decide (k0 = kind) then row_one row else 0)) as Hn.
  { intros k0. case_decide as E; [subst; apply size_alter|lia]. }
  rewrite !row_counts_eq. destruct k; cbn [counts]; rewrite ?Hb, ?Hn; destruct kind;
    repeat case_decide; try done; lia.
Qed.
End sizes.

(** ** Rows *)

Section rows.
Context `{StorageLaws}.

Lemma counted_bookkeeping kind f : f ∈ [f_v; f_createdAt; f_updatedAt] -> is_counted kind f = true.
Proof.
  intros Hf. assert (Forall (λ f, is_counted kind f = true) [f_v; f_createdAt; f_updatedAt]) as Ha
    by (destruct kind; repeat constructor).
  rewrite Forall_forall in Ha. by apply Ha.
Qed.

Lemma applyPlacement_lookup kind update now doc f : writesCountedField kind update = false ->
  is_counted kind f = true ->
  applyPlacement kind update now doc !! f = if bool_decide (f = f_updatedAt) then Some (VDate now) else doc !! f.
Proof.
  intros Hw Hc. unfold applyPlacement. case_bool_decide as E; [subst; apply lookup_insert_eq|].
  rewrite lookup_insert_ne by done. apply applyUpdate_other. intros Hf.
  assert (f ∈ countedFieldsOf kind update) as Hin by by apply countedFieldsOf_elem.
  unfold writesCountedField in Hw. destruct (countedFieldsOf kind update); [by apply elem_of_nil in Hin|]. cbn in Hw. lia.
Qed.

(** What a placement update adds: the date of the update, when the row had none. *)
Lemma placement_bytes kind update now doc : writesCountedField kind update = false -> stamped doc ->
  countedBytes kind (applyPlacement kind update now doc) = countedBytes kind doc +
    if bool_decide (is_Some (doc !! f_updatedAt)) then 0 else entryBytes f_updatedAt (Some (VDate 0)).
Proof.
  intros Hw Hst. assert (is_counted kind f_updatedAt = true) as Hu by (apply counted_bookkeeping; set_solver).
  rewrite (counted_change kind doc (applyPlacement kind update now doc) [f_updatedAt]).
  - unfold field_sum. cbn [foldr]. rewrite applyPlacement_lookup by done.
    rewrite bool_decide_eq_true_2 by done. rewrite (date_bytes doc now Hst). lia.
  - apply NoDup_singleton.
  - by apply Forall_singleton.
  - intros f Hc Hf. rewrite applyPlacement_lookup by done. rewrite bool_decide_eq_false_2 by set_solver. done.
Qed.

Lemma fromFields_ext g g' fs : (∀ f, f ∈ fs -> g f = g' f) -> fromFields g fs = fromFields g' fs.
Proof.
  intros Hg. unfold fromFields. f_equal. apply map_ext_in. intros f Hf. by rewrite Hg by by apply list_elem_of_In.
Qed.

Lemma date_entry doc now : sound_row doc ->
  entryBytes f_updatedAt (Some (VDate now)) = entryBytes f_updatedAt (doc !! f_updatedAt).
Proof.
  intros [Hst Hu]. rewrite (date_bytes doc now Hst), bool_decide_eq_true_2 by done. lia.
Qed.

(** A placement update of a row with its bookkeeping changes nothing a measure sees. *)
Lemma placement_same kind update now doc : writesCountedField kind update = false -> sound_row doc ->
  same_counted kind doc (applyPlacement kind update now doc).
Proof.
  intros Hw Hs u. pose proof Hs as [Hst Hu]. unfold measureImage.
  rewrite placement_bytes, !applyPlacement_lookup by (done || apply counted_bookkeeping; set_solver).
  rewrite !(bool_decide_eq_false_2 (_ = _)), !bool_decide_eq_true_2 by (done || eauto). rewrite Z.add_0_r. f_equal.
  apply fromFields_ext. intros f [Hc _]%countedFieldsOf_elem. rewrite applyPlacement_lookup by done.
  case_bool_decide; [|done]. subst. by rewrite <- (date_entry doc now).
Qed.

Lemma placement_sound kind update now doc : writesCountedField kind update = false -> sound_row doc ->
  sound_row (applyPlacement kind update now doc).
Proof.
  intros Hw [[Hv Hd] Hu]. unfold sound_row, stamped.
  rewrite !applyPlacement_lookup by (done || apply counted_bookkeeping; set_solver).
  rewrite bool_decide_eq_false_2, bool_decide_eq_true_2 by done.
  repeat split; [done|intros ? [= <-]; by eexists|by eexists].
Qed.

Lemma pinned_ver kind update now doc doc' : applyPinned kind update now doc = Some doc' -> ver doc < ver doc'.
Proof.
  intros Ha. unfold ver. rewrite (applyPinned_lookup _ _ _ _ _ _ Ha), bool_decide_eq_false_2, bool_decide_eq_true_2 by done.
  unfold applyPinned in Ha. destruct (nextVersion doc) as [n|] eqn:En; [|done]. cbn.
  unfold nextVersion in En. destruct (doc !! f_v) as [[m| |]|]; try done; [|injection En as <-; lia].
  destruct (int32 (m + 1)); [|done]. injection En as <-. lia.
Qed.

Lemma pinned_created kind update now doc doc' : plain update -> applyPinned kind update now doc = Some doc' ->
  doc' !! f_createdAt = doc !! f_createdAt.
Proof.
  intros Hp Ha. rewrite (applyPinned_lookup _ _ _ _ _ _ Ha), !bool_decide_eq_false_2 by done.
  apply applyUpdate_other, Hp. set_solver.
Qed.

Lemma pinned_sound kind update now doc doc' : plain update -> sound_row doc ->
  applyPinned kind update now doc = Some doc' -> sound_row doc'.
Proof.
  intros Hp [[Hv Hd] Hu] Ha. unfold sound_row, stamped. rewrite !(applyPinned_lookup _ _ _ _ _ _ Ha).
  rewrite (bool_decide_eq_false_2 (f_v = _)), !bool_decide_eq_true_2 by done.
  split; [|by eauto]. split; [|by intros ? [= <-]; eauto].
  intros v Hn. unfold nextVersion in Hn. destruct (doc !! f_v) as [[m| |]|]; try done; cbn in Hn.
  - destruct (int32 (m + 1)) eqn:E; [|done]. injection Hn as <-. eauto.
  - injection Hn as <-. by exists 1.
Qed.

Lemma completeNew_lookup now image f : (∀ g, g ∈ [f_v; f_createdAt; f_updatedAt] -> image !! g = None) ->
  completeNew now image !! f =
    if bool_decide (f = f_v) then Some (VInt 0)
    else if bool_decide (f ∈ [f_createdAt; f_updatedAt]) then Some (VDate now) else image !! f.
Proof.
  intros Hn. unfold completeNew, or_else.
  rewrite (Hn f_createdAt), !lookup_insert_ne, (Hn f_updatedAt), !lookup_insert_ne, (Hn f_v) by (done || set_solver).
  case_bool_decide as E; [subst; apply lookup_insert_eq|]. rewrite lookup_insert_ne by done.
  destruct (decide (f = f_updatedAt)) as [->|E1].
  { rewrite bool_decide_eq_true_2 by set_solver. apply lookup_insert_eq. }
  rewrite lookup_insert_ne by done. destruct (decide (f = f_createdAt)) as [->|E2].
  { rewrite bool_decide_eq_true_2 by set_solver. apply lookup_insert_eq. }
  rewrite lookup_insert_ne, bool_decide_eq_false_2 by set_solver. done.
Qed.

Lemma new_sound now image : (∀ g, g ∈ [f_v; f_createdAt; f_updatedAt] -> image !! g = None) ->
  sound_row (completeNew now image).
Proof.
  intros Hn. unfold sound_row, stamped. rewrite !completeNew_lookup by done.
  rewrite (bool_decide_eq_true_2 (f_v = _)), (bool_decide_eq_false_2 (f_updatedAt = _)), bool_decide_eq_true_2 by (done || set_solver).
  repeat split; [intros v [= <-]; by exists 0|intros v [= <-]; by eexists|by eexists].
Qed.

(** The predicted size of a new row is the size it gets, whenever it is created. *)
Lemma new_bytes kind now data : (∀ g, g ∈ [f_v; f_createdAt; f_updatedAt] -> storedFields kind data !! g = None) ->
  countedBytes kind (completeNew now (storedFields kind data)) = countedBytesOfNew kind data.
Proof.
  intros Hn. unfold countedBytesOfNew.
  rewrite (counted_change kind (completeNew 0 (storedFields kind data)) _ [f_createdAt; f_updatedAt]).
  - unfold field_sum. cbn [foldr]. rewrite !completeNew_lookup by done.
    rewrite !(bool_decide_eq_false_2 (_ = f_v)), !bool_decide_eq_true_2 by (done || set_solver).
    rewrite (entry_date f_createdAt now 0), (entry_date f_updatedAt now 0). lia.
  - apply (bool_decide_unpack _). reflexivity.
  - apply Forall_forall. intros f Hf. apply counted_bookkeeping. set_solver.
  - intros f _ Hf. rewrite !completeNew_lookup by done. by rewrite !(bool_decide_eq_false_2 (f ∈ _)).
Qed.
End rows.
