(* ===== verification/VaultQuotaRules.v ===== *)
(** Rules of the calculus for the commands of the quota protocol: reading, reserving, installing,
    settling, writing one row, recounting. *)
From S2P Require Import Prelude VaultQuota VaultQuotaSpec VaultQuotaOps VaultQuotaLogic.
Local Open Scope Z_scope.

(** The error is passed on, the credit [o] kept. *)
Ltac fails_with o H := intros; exists o; split; [done|by apply H].

Section rules.
Context `{StorageLaws} (quota : Z) (t0 : Z).

Implicit Types (o : Counts).

(** What a request holds is non-negative, and none at all before it has reserved. *)
Definition hold o (db : DB) : Prop := (∀ k, 0 <= o k) /\ (owes_nothing o \/ reserved t0 db).

Lemma hold_nothing o db : owes_nothing o -> hold o db.
Proof. intros Ho. split; [intros k; by rewrite Ho|by left]. Qed.

Lemma hold_evolves o db db' : t0 <= clock db -> evolves db db' -> hold o db -> hold o db'.
Proof.
  intros Ht Hev [Hp [Ho|Hr]]; (split; [done|]); [by left|]. right. by eapply reserved_evolves.
Qed.

(** ** Nothing changes *)

Lemma entry_same clean db o o' k c : counter_of db k = Some c -> o' k <= o k -> (clean = true -> o' k = o k) ->
  entry quota clean db o db o' k c.
Proof.
  intros Hc Ho Hcl. left. exists c. unfold drift. split; [done|]. split; [lia|]. split; [|lia].
  intros E. specialize (Hcl E). lia.
Qed.

Lemma books_same clean recount db o o' : sound db -> hold o db -> (∀ k, 0 <= o' k <= o k) ->
  (clean = true -> ∀ k, o' k = o k) -> (clean = true -> recount = false) ->
  books quota t0 clean recount db o db o'.
Proof.
  intros Hs [Hp Hr] Ho Hcl Hrc. split; try done.
  - intros k. by destruct (Ho k).
  - destruct Hr as [Hn|Hr]; [left|by right]. intros k. specialize (Ho k). specialize (Hn k). lia.
  - intros k c Hc. apply entry_same; [done|by destruct (Ho k)|]. intros E. by apply Hcl.
  - intros E E'. by rewrite Hrc in E'.
Qed.

(** A command that only reads. *)
Lemma wp_read {X R} (c : cmd X) (k : result JsError X -> prog R) Q o db0 :
  (∀ db, fst (exec quota c db) = db) -> (∀ db, recounts c db = false) -> hold o db0 -> t0 <= clock db0 ->
  (∀ db, evolves db0 db -> sound db -> alive t0 db -> hold o db -> wp quota t0 (k (snd (exec quota c db))) Q o db) ->
  (remote c = true -> ∀ db e, evolves db0 db -> hold o db -> wp quota t0 (k (Throw e)) Q o db) ->
  wp quota t0 (Call c k) Q o db0.
Proof.
  intros Hex Hrc Ho Ht Hok Hth db Hev Hs Ha clean db' r Hout.
  pose proof (hold_evolves o db0 db Ht Hev Ho) as Ho'. exists o.
  destruct Hout as [Hl|e Hr|e Hr Hl He]; rewrite ?Hex, ?Hrc;
    (split; [apply books_same; try done; intros k'; pose proof (proj1 Ho' k'); (done || lia)|]); auto.
Qed.

Lemma wp_await_read {X R} (c : cmd X) (f : X -> async R) Q o db0 :
  (∀ db, fst (exec quota c db) = db) -> (∀ db, recounts c db = false) -> hold o db0 -> t0 <= clock db0 ->
  (∀ db, evolves db0 db -> sound db -> alive t0 db -> hold o db ->
     match snd (exec quota c db) with Ok x => wp quota t0 (f x) Q o db | Throw _ => False end) ->
  (remote c = true -> ∀ db e, evolves db0 db -> Q (Throw (Thrown e)) o db) ->
  wp quota t0 (await (call c) f) Q o db0.
Proof.
  intros Hex Hrc Ho Ht Hok Hth. apply wp_read; [done..| |].
  - intros db Hev Hs Ha Ho'. specialize (Hok db Hev Hs Ha Ho').
    by destruct (snd (exec quota c db)).
  - intros Hr db e Hev _. cbn. by apply Hth.
Qed.

Lemma wp_now {R} (f : Z -> async R) Q o db0 : hold o db0 -> t0 <= clock db0 ->
  (∀ db, evolves db0 db -> sound db -> alive t0 db -> hold o db -> wp quota t0 (f (clock db)) Q o db) ->
  wp quota t0 (await (call DateNow) f) Q o db0.
Proof. intros Ho Ht Hk. by apply wp_await_read. Qed.

(** ** Writing the counters *)

Lemma add_counts_of amounts now a k : counter (add_counts amounts now a) k = (λ n, n + amounts k) <$> counter a k.
Proof. done. Qed.

(** A write of the counters alone, at a time the request could be running. *)
Lemma evolves_account db a a' : account db = Some a ->
  (∀ k, is_Some (counter a k) -> is_Some (counter a' k)) ->
  (∃ w, vaultBytesWrittenAt a' = Some w /\ clock db - HOLD_MS <= w) ->
  evolves db (set_account a' db).
Proof.
  intros Ha Hk (w & Hw & Hle). split; try done.
  - intros kind id doc Hd. right. exists doc. split; [done|]. apply advances_refl.
  - intros k. unfold counter_of. rewrite Ha. apply Hk.
  - intros w0 _. exists w. split; [done|]. by right.
  - by left.
Qed.

Lemma books_account clean recount db o o' a a' : sound db -> alive t0 db -> account db = Some a ->
  (∃ w, vaultBytesWrittenAt a' = Some w /\ t0 <= w) ->
  (∀ k, is_Some (counter a k) -> is_Some (counter a' k)) ->
  (∀ k, 0 <= o' k) -> (owes_nothing o' \/ ∀ k, is_Some (counter a' k)) ->
  (∀ k c', counter a' k = Some c' -> entry quota clean db o (set_account a' db) o' k c') ->
  (clean = true -> recount = false) ->
  books quota t0 clean recount db o (set_account a' db) o'.
Proof.
  intros Hs Hal Ha (w & Hw & Hle) Hi Hp Hr He Hrc. split; try done.
  - apply (evolves_account db a); [done..|]. exists w. split; [done|]. unfold alive in Hal. lia.
  - destruct Hr as [Hn|Hi']; [by left|]. right. split; [exact Hi'|]. exists w. split; [done|]. unfold HOLD_MS. lia.
  - intros E E'. by rewrite Hrc in E'.
Qed.

Lemma counterRoom_entry clean db o a amounts now o' k c' : account db = Some a ->
  counterRoom (counter a k) (amounts k) (ceiling quota k) = true ->
  counter (add_counts amounts now a) k = Some c' -> 0 <= amounts k -> o' k <= o k + amounts k ->
  (clean = true -> o' k = o k + amounts k) ->
  entry quota clean db o (set_account (add_counts amounts now a) db) o' k c'.
Proof.
  intros Ha Hroom Hc' Hp Ho Hcl. rewrite add_counts_of in Hc'. unfold counterRoom in Hroom.
  destruct (counter a k) as [c|] eqn:E; [|done]. injection Hc' as <-. left. exists c.
  unfold counter_of. rewrite Ha. split; [done|]. unfold drift.
  change (totals (set_account _ db)) with (totals db). split; [lia|]. split; [intros Hc; specialize (Hcl Hc); lia|].
  destruct (amounts k =? 0) eqn:E0; [left; lia|right; cbn in Hroom; lia].
Qed.

(** What has to be shown of a command that writes, from the state [db] it meets: the credit [o1]
    it leaves when it runs, which may be given up when an error is reported. *)
Definition write_ok {X R} (c : cmd X) (k : result JsError X -> prog R) (Q : R -> Counts -> DB -> Prop) o (db0 db : DB) : Prop :=
  let db' := fst (exec quota c db) in
  ∃ o1 : Counts, (∀ clean o', (∀ k, 0 <= o' k <= o1 k) -> (clean = true -> ∀ k, o' k = o1 k) ->
           books quota t0 clean (recounts c db) db o db' o') /\
        (∀ k, 0 <= o1 k) /\
        (sound db' -> evolves db0 db' -> wp quota t0 (k (snd (exec quota c db))) Q o1 db') /\
        (remote c = true -> ∀ e, isDefiniteWriteFailure e = false -> evolves db0 db' ->
           ∃ o', (∀ k, 0 <= o' k <= o1 k) /\ wp quota t0 (k (Throw e)) Q o' db').

Lemma write_noop {X R} (c : cmd X) (k : result JsError X -> prog R) Q o db0 db x :
  exec quota c db = (db, x) -> recounts c db = false -> sound db -> hold o db ->
  (evolves db0 db -> wp quota t0 (k x) Q o db) ->
  (remote c = true -> ∀ e, evolves db0 db -> ∃ o', (∀ k, 0 <= o' k <= o k) /\ wp quota t0 (k (Throw e)) Q o' db) ->
  write_ok c k Q o db0 db.
Proof.
  intros Hex Hrc Hs Ho Hk Hth. exists o. rewrite Hex, Hrc. cbn [fst snd]. split; [intros; by apply books_same|].
  split; [apply Ho|]. split; auto.
Qed.

Lemma books_ext clean recount db o db' o1 o' : (∀ k, o1 k = o' k) ->
  books quota t0 clean recount db o db' o1 -> books quota t0 clean recount db o db' o'.
Proof.
  intros Heq [? ? ? Hp Hr He ?]. split; try done.
  - intros k. by rewrite <- Heq.
  - destruct Hr as [Hn|Hr]; [left|by right]. intros k. by rewrite <- Heq.
  - intros k c' Hc'. specialize (He k c' Hc'). unfold entry, drift in *. by rewrite <- Heq.
Qed.

(** A write that leaves nothing owed. *)
Lemma write_zero {X R} (c : cmd X) (k : result JsError X -> prog R) Q o o1 db0 db db' x :
  exec quota c db = (db', x) -> owes_nothing o1 ->
  (∀ clean, books quota t0 clean (recounts c db) db o db' o1) ->
  (evolves db0 db' -> wp quota t0 (k x) Q o1 db') ->
  (∀ e, evolves db0 db' -> wp quota t0 (k (Throw e)) Q o1 db') ->
  write_ok c k Q o db0 db.
Proof.
  intros Hex Ho Hb Hk Hth. unfold write_ok. rewrite Hex. cbn [fst snd]. exists o1.
  split; [|split; [intros k'; by rewrite Ho|split; [by auto|]]].
  - intros clean o' Hle _. apply (books_ext _ _ _ _ _ o1); [|done]. intros k'. specialize (Hle k').
    rewrite Ho in *. lia.
  - intros _ e _ Hev. exists o1. split; [intros k'; by rewrite Ho|by auto].
Qed.

Lemma wp_write {X R} (c : cmd X) (k : result JsError X -> prog R) Q o db0 :
  t0 <= clock db0 -> hold o db0 ->
  (∀ db, evolves db0 db -> sound db -> alive t0 db -> hold o db -> lands c db = true -> write_ok c k Q o db0 db) ->
  (remote c = true -> ∀ db e, evolves db0 db -> hold o db ->
     ∃ o', (∀ k, 0 <= o' k <= o k) /\ wp quota t0 (k (Throw e)) Q o' db) ->
  wp quota t0 (Call c k) Q o db0.
Proof.
  intros Ht Ho Hrun Hlost db Hev Hs Ha clean db' r Hout.
  pose proof (hold_evolves o db0 db Ht Hev Ho) as Ho'. destruct Hout as [Hl|e Hr|e Hr Hl He].
  - destruct (Hrun db Hev Hs Ha Ho' Hl) as (o1 & Hb & Hp & Hk & _).
    assert (books quota t0 true (recounts c db) db o (fst (exec quota c db)) o1) as Hb1.
    { apply Hb; [intros k'; specialize (Hp k'); lia|done]. }
    exists o1. split; [exact Hb1|]. destruct Hb1. apply Hk; [done|]. by transitivity db.
  - destruct (Hlost Hr db e Hev Ho') as (o' & Hle & Hk). exists o'. split; [|done]. by apply books_same.
  - destruct (Hrun db Hev Hs Ha Ho' Hl) as (o1 & Hb & Hp & _ & Hk).
    assert (books quota t0 false (recounts c db) db o (fst (exec quota c db)) o1) as Hb1.
    { apply Hb; [intros k'; specialize (Hp k'); lia|done]. }
    destruct (Hk Hr e He) as (o' & Hle & Hk'); [destruct Hb1; by transitivity db|].
    exists o'. split; [by apply Hb|done].
Qed.

(** The conditional update that reserves. *)
Lemma books_reserve clean db o o' amounts now a : sound db -> alive t0 db -> t0 <= now -> account db = Some a ->
  forallb (λ k, counterRoom (counter a k) (amounts k) (ceiling quota k)) COUNTER_PATHS = true ->
  owes_nothing o -> (∀ k, 0 <= o' k <= amounts k) -> (clean = true -> ∀ k, o' k = amounts k) ->
  books quota t0 clean false db o (set_account (add_counts amounts now a) db) o' /\
  reserved t0 (set_account (add_counts amounts now a) db).
Proof.
  intros Hs Hal Hn Ea Hroom Ho Hle Hcl.
  assert (∀ k, counterRoom (counter a k) (amounts k) (ceiling quota k) = true) as Hk.
  { rewrite forallb_forall in Hroom. intros k. apply Hroom. destruct k; cbn; tauto. }
  assert (∀ k, is_Some (counter (add_counts amounts now a) k)) as Hi.
  { intros k. rewrite add_counts_of. specialize (Hk k). unfold counterRoom in Hk. destruct (counter a k); [by eexists|done]. }
  split; [|split; [exact Hi|]; exists now; split; [done|unfold HOLD_MS; lia]].
  apply (books_account _ _ _ _ _ a); try done; [by exists now|intros k; apply Hle|by right|].
  intros k c' Hc'. specialize (Hle k). apply counterRoom_entry; rewrite ?Ho, ?Z.add_0_l; [done|done|done|lia|lia|].
  intros E. by apply Hcl.
Qed.

Lemma wp_reserve_inc {R} amounts now (f : bool -> async R) Q o db0 :
  t0 <= now -> t0 <= clock db0 -> owes_nothing o -> (∀ k, 0 <= amounts k) ->
  (∀ db, evolves db0 db -> reserved t0 db -> wp quota t0 (f true) Q amounts db) ->
  (∀ db, evolves db0 db -> wp quota t0 (f false) Q o db) ->
  (∀ db e, evolves db0 db -> Q (Throw (Thrown e)) o db) ->
  wp quota t0 (await (call (ReserveInc amounts now)) f) Q o db0.
Proof.
  intros Hn Ht Ho Hp Hok Hno Hth. assert (∀ k, 0 <= o k <= o k) as Hoo by (intros k; rewrite Ho; lia).
  apply wp_write; [done|by apply hold_nothing| |].
  - intros db Hev Hs Hal Hh _. destruct (account db) as [a|] eqn:Ea.
    1: destruct (forallb (λ k, counterRoom (counter a k) (amounts k) (ceiling quota k)) COUNTER_PATHS) eqn:Eroom.
    + unfold write_ok. cbn [exec recounts]. rewrite Ea, Eroom. cbn [fst snd]. exists amounts.
      split; [intros clean o' Hle Hcl; by apply (books_reserve _ _ _ _ amounts)|]. split; [done|]. split.
      * intros _ Hev'. apply Hok; [done|]. by apply (books_reserve true _ o amounts amounts).
      * intros _ e _ Hev'. exists o. split; [intros k; rewrite Ho; by split|]. by apply Hth.
    + eapply write_noop; [cbn [exec]; by rewrite Ea, Eroom|done..|by apply Hno|fails_with o Hth].
    + eapply write_noop; [cbn [exec]; by rewrite Ea|done..|by apply Hno|fails_with o Hth].
  - fails_with o Hth.
Qed.

(** The install of missing counters, with totals that are still the totals if one is missing. *)
Lemma books_install clean db o a measured now : sound db -> alive t0 db -> t0 <= now -> account db = Some a ->
  owes_nothing o -> forallb (λ k, is_installed (counter a k)) COUNTER_PATHS = false ->
  (¬ installed db -> ∀ k, measured k = totals db k) ->
  books quota t0 clean false db o
    (set_account {| counter := λ k, keepCounter (counter a k) (measured k);
                    quotaEpoch := Some (default 0 (quotaEpoch a) + 1); vaultBytesWrittenAt := Some now |} db) o.
Proof.
  intros Hs Hal Hn Ea Ho Hmiss Hm.
  assert (¬ installed db) as Hni.
  { intros Hi. apply not_true_iff_false in Hmiss. apply Hmiss, forallb_forall. intros k _.
    destruct (Hi k) as [c Hc]. unfold counter_of in Hc. rewrite Ea in Hc. by rewrite Hc. }
  assert (∀ k, 0 <= o k) as Hp by (intros k; rewrite Ho; lia).
  apply (books_account _ _ _ _ _ a); try done; [by exists now| |by left|].
  - intros k [c Hc]. cbn [counter]. rewrite Hc. by eexists.
  - cbn [counter]. intros k c' Hc'. destruct (counter a k) as [c|] eqn:Ec; cbn [keepCounter] in Hc'; injection Hc' as <-.
    + left. exists c. unfold counter_of, drift. rewrite Ea. change (totals (set_account _ db)) with (totals db).
      split; [done|]. split; [lia|]. split; [done|lia].
    + right. split; [by intros t' _ [Hi _]|]. split; [apply Ho|]. by rewrite (Hm Hni).
Qed.

Lemma wp_install {R} measured now (k : result JsError unit -> prog R) Q o db0 : t0 <= now -> t0 <= clock db0 -> owes_nothing o ->
  (∀ db, evolves db0 db -> ¬ installed db -> ∀ k, measured k = totals db k) ->
  (∀ db, evolves db0 db -> wp quota t0 (k (Ok tt)) Q o db) ->
  (∀ db e, evolves db0 db -> wp quota t0 (k (Throw e)) Q o db) ->
  wp quota t0 (Call (InstallMissing measured now) k) Q o db0.
Proof.
  intros Hn Ht Ho Hm Hok Hth. assert (∀ k, 0 <= o k <= o k) as Hoo by (intros k0; rewrite Ho; lia).
  apply wp_write; [done|by apply hold_nothing| |fails_with o Hth].
  intros db Hev Hs Hal Hh _. destruct (account db) as [a|] eqn:Ea.
  1: destruct (forallb (λ k, is_installed (counter a k)) COUNTER_PATHS) eqn:Ei.
  - eapply write_noop; [cbn [exec]; by rewrite Ea, Ei|done..|by apply Hok|fails_with o Hth].
  - eapply write_zero; [cbn [exec]; by rewrite Ea, Ei|done|intros clean|apply Hok|intros e; apply Hth].
    apply books_install; try done. by apply Hm.
  - eapply write_noop; [cbn [exec]; by rewrite Ea|done..|by apply Hok|fails_with o Hth].
Qed.

(** Settling: what is held is given back. *)
Lemma books_settle clean db o a now delta : sound db -> alive t0 db -> t0 <= now -> account db = Some a ->
  (∀ k, 0 <= o k) -> (∀ k, delta k = - o k) ->
  books quota t0 clean false db o (set_account (add_counts delta now a) db) (λ _, 0).
Proof.
  intros Hs Hal Hn Ea Hp Hd. apply (books_account _ _ _ _ _ a); try done; [by exists now| |by left|].
  - intros k [c Hc]. rewrite add_counts_of, Hc. by eexists.
  - intros k c' Hc'. rewrite add_counts_of in Hc'. destruct (counter a k) as [c|] eqn:Ec; [|done].
    injection Hc' as <-. left. exists c. unfold counter_of, drift. rewrite Ea.
    change (totals (set_account _ db)) with (totals db). specialize (Hp k). rewrite Hd. split; [done|]. lia.
Qed.

(** The increment that settles, errors swallowed. *)
Lemma wp_increment {R} delta now (k : result JsError bool -> prog R) Q o db0 : t0 <= now -> t0 <= clock db0 ->
  hold o db0 -> (∀ k, delta k = - o k) -> ~ owes_nothing o ->
  (∀ r db o', evolves db0 db -> owes_nothing o' -> wp quota t0 (k r) Q o' db) ->
  wp quota t0 (Call (IncInstalled delta now) k) Q o db0.
Proof.
  intros Hn Ht Ho Hd Hne Hk. pose proof (proj1 Ho) as Hp. apply wp_write; [done..| |].
  - intros db Hev Hs Hal [_ [Hz|[Hi _]]] _; [done|]. unfold installed, counter_of in Hi.
    destruct (account db) as [a|] eqn:Ea; [|by destruct (Hi c_bytes)].
    assert (forallb (λ k, (delta k =? 0) || is_installed (counter a k)) COUNTER_PATHS = true) as Ei.
    { apply forallb_forall. intros k0 _. destruct (Hi k0) as [c ->]. apply orb_true_r. }
    apply (write_zero _ _ _ _ (λ _, 0) _ _ (set_account (add_counts delta now a) db) (Ok true)).
    + cbn [exec]. by rewrite Ea, Ei.
    + done.
    + intros clean. by apply books_settle.
    + intros Hev'. by apply Hk.
    + intros e Hev'. by apply Hk.
  - intros _ db e Hev _. exists (λ _, 0). split; [intros k0; by split|by apply Hk].
Qed.

Lemma wp_settleVaultWrite reservation actual (Q : result VaultError unit -> Counts -> DB -> Prop) o db0 :
  t0 <= clock db0 -> hold o db0 -> (∀ k, reservation k - actual k = o k) ->
  (∀ db o', evolves db0 db -> owes_nothing o' -> Q (Ok tt) o' db) ->
  wp quota t0 (settleVaultWrite reservation actual) Q o db0.
Proof.
  intros Ht Ho Hd Hk. unfold settleVaultWrite, addVaultCounts. apply wp_bind.
  assert (forallb (λ k, actual k - reservation k =? 0) COUNTER_PATHS = true <-> owes_nothing o) as Hz.
  { rewrite forallb_forall. split; intros Hf k; [|intros _; specialize (Hd k); specialize (Hf k); lia].
    assert (In k COUNTER_PATHS) as Hin by (destruct k; cbn; tauto). specialize (Hf k Hin). specialize (Hd k). lia. }
  destruct (forallb _ COUNTER_PATHS).
  { cbn. apply Hk; [done|]. by apply Hz. }
  apply wp_now; [done..|]. intros db1 Hev1 Hs1 Ha1 Ho1. unfold alive in Ha1.
  apply wp_increment; [lia|lia|done|intros k; rewrite <- Hd; lia|intros Hn; by apply Hz in Hn|].
  intros [[]|e] db o' Hev Hn; cbn; apply Hk; try done; by transitivity db1.
Qed.

Lemma wp_settle {R} reservation actual (f : unit -> async R) Q o db0 : t0 <= clock db0 -> hold o db0 ->
  (∀ k, reservation k - actual k = o k) ->
  (∀ db o', evolves db0 db -> owes_nothing o' -> wp quota t0 (f tt) Q o' db) ->
  wp quota t0 (await (settleVaultWrite reservation actual) f) Q o db0.
Proof. intros Ht Ho Hd Hk. by apply wp_await, wp_settleVaultWrite. Qed.

(** ** Writing one row *)

(** Whether a row written at [id] is a new one, or continues the one there. *)
Definition continues (kind : CountedKind) (id : Z) (db : DB) (row : option Doc) : Prop :=
  ∀ doc', row = Some doc' ->
    doc' !! f_createdAt ∉ creations db kind id \/
    ∃ doc, rows db kind !! id = Some doc /\ advances kind doc doc'.

Record writes_row (kind : CountedKind) (id : Z) (row : option Doc) (db db' : DB) : Prop := {
  wr_account : account db' = account db;
  wr_clock : clock db' = clock db;
  wr_creations k i c : c ∈ creations db k i -> c ∈ creations db' k i;
  wr_rows : rows db' = rows (set_row kind id row db);
  wr_continues : continues kind id db row;
  wr_sound doc : row = Some doc -> sound_row doc /\ doc !! f_createdAt ∈ creations db' kind id;
}.

Lemma writes_sound kind id row db db' : writes_row kind id row db db' -> sound db -> sound db'.
Proof.
  intros Hw Hs k i doc. rewrite (wr_rows _ _ _ _ _ Hw), set_row_rows. case_decide as E.
  - destruct E as [-> ->]. apply (wr_sound _ _ _ _ _ Hw).
  - intros Hd. destruct (Hs k i doc Hd). split; [done|]. by apply (wr_creations _ _ _ _ _ Hw).
Qed.

Lemma writes_evolves kind id row db db' : writes_row kind id row db db' ->
  ((∀ k, part k db' = part k db) \/ (installed db /\ ∃ w, writtenAt db = Some w /\ clock db - 2 * HOLD_MS <= w)) ->
  evolves db db'.
Proof.
  intros Hw Ht. assert (∀ k, counter_of db' k = counter_of db k) as Hc.
  { intros k. unfold counter_of. by rewrite (wr_account _ _ _ _ _ Hw). }
  assert (writtenAt db' = writtenAt db) as Hwr by (unfold writtenAt; by rewrite (wr_account _ _ _ _ _ Hw)). split.
  - rewrite (wr_clock _ _ _ _ _ Hw). done.
  - apply (wr_creations _ _ _ _ _ Hw).
  - intros k i doc. rewrite (wr_rows _ _ _ _ _ Hw), set_row_rows. case_decide as E.
    + destruct E as [-> ->]. apply (wr_continues _ _ _ _ _ Hw).
    + intros Hd. right. exists doc. split; [done|]. apply advances_refl.
  - intros k. by rewrite Hc.
  - rewrite Hwr. intros w Hw'. exists w. split; [done|]. by left.
  - destruct Ht as [Hp|[Hi Hd]]; [by left|right]. rewrite Hwr. split; [|done]. intros k. rewrite Hc. apply Hi.
Qed.

(** What the row adds to each counter. *)
Definition row_delta (kind : CountedKind) (id : Z) (row : option Doc) (db : DB) : Counts :=
  λ k, row_counts kind row k - row_counts kind (rows db kind !! id) k.

(** A counted row is written under a reservation. *)
Lemma books_row clean kind id row db db' o o' : writes_row kind id row db db' -> sound db ->
  alive t0 db -> reserved t0 db -> (∀ k, 0 <= o' k) ->
  (∀ k, o' k <= o k - row_delta kind id row db k) ->
  (clean = true -> ∀ k, o' k = o k - row_delta kind id row db k) ->
  books quota t0 clean false db o db' o'.
Proof.
  intros Hw Hs Ha Hr Hp Hle Hcl.
  assert (evolves db db') as Hev.
  { apply (writes_evolves kind id row); [done|]. right. destruct Hr as (Hi & w & Hw' & Hl). split; [done|].
    exists w. split; [done|]. unfold alive in Ha. lia. }
  split; try done.
  - apply (wr_clock _ _ _ _ _ Hw).
  - by eapply writes_sound.
  - right. apply (reserved_evolves t0 db); [unfold alive in Ha; lia|done|done].
  - intros k c Hc. left. exists c. unfold counter_of in *. rewrite (wr_account _ _ _ _ _ Hw) in Hc.
    split; [done|]. unfold drift. unfold row_delta in *.
    assert (totals db' k = totals (set_row kind id row db) k) as -> by (unfold totals; by rewrite (wr_rows _ _ _ _ _ Hw)).
    rewrite totals_set_row. specialize (Hle k). split; [lia|]. split; [|lia]. intros E. specialize (Hcl E k). lia.
Qed.

Lemma write_row {X R} (c : cmd X) (k : result JsError X -> prog R) Q o o1 db0 db db' x kind id row :
  exec quota c db = (db', x) -> recounts c db = false -> writes_row kind id row db db' -> sound db ->
  alive t0 db -> reserved t0 db -> (∀ k, 0 <= o1 k) -> (∀ k, o1 k = o k - row_delta kind id row db k) ->
  (evolves db0 db' -> wp quota t0 (k x) Q o1 db') ->
  (∀ e, isDefiniteWriteFailure e = false -> evolves db0 db' ->
     ∃ o', (∀ k, 0 <= o' k <= o1 k) /\ wp quota t0 (k (Throw e)) Q o' db') ->
  write_ok c k Q o db0 db.
Proof.
  intros Hex Hrc Hw Hs Ha Hr Hp Ho Hk Hth. unfold write_ok. rewrite Hex, Hrc. cbn [fst snd]. exists o1.
  split; [|split; [done|split; [by auto|by auto]]].
  intros clean o' Hle Hcl. apply (books_row clean kind id row); try done; [intros k0; apply Hle|..].
  - intros k0. specialize (Hle k0). rewrite Ho in Hle. lia.
  - intros E k0. by rewrite (Hcl E), Ho.
Qed.

Lemma find_row_Some kind id filter db doc : find_row kind id filter db = Some doc -> rows db kind !! id = Some doc.
Proof. unfold find_row. destruct (rows db kind !! id) as [d|]; [|done]. by destruct (filter d). Qed.
End rules.
