(* ===== verification/VaultQuotaRequests.v ===== *)
(** Every request of the vault keeps the quota's books, whatever runs beside it and whatever
    fails: [handler] satisfies [wp] from owing nothing to owing nothing. *)
From S2P Require Import Prelude VaultQuota VaultQuotaSpec VaultQuotaOps VaultQuotaLogic VaultQuotaRules.
Local Open Scope Z_scope.

Section requests.
Context `{StorageLaws} (quota : Z) (t0 : Z).

Implicit Types (o : Counts).

Lemma countedBytes_pos kind doc : 0 <= countedBytes kind doc.
Proof.
  unfold countedBytes. induction (countedPart kind doc) as [|f v d Hf IH] using map_ind.
  - rewrite bson_empty. unfold EMPTY_DOCUMENT_BYTES. lia.
  - rewrite bson_field by done. pose proof (entry_positive f v). lia.
Qed.

Lemma oneRow_pos kind n k : 0 <= n -> 0 <= oneRowOf kind n k.
Proof. intros Hn. destruct kind, k; cbn; lia. Qed.

(** ** The four commands that write a row *)

(** An error that is definite finds the credit still held, any other finds it given up. *)
Definition fails_ok {X R} (k : result JsError X -> prog R) (Q : R -> Counts -> DB -> Prop) o (db0 : DB) : Prop :=
  ∀ db e, evolves db0 db ->
    (isDefiniteWriteFailure e = true -> hold t0 o db -> wp quota t0 (k (Throw e)) Q o db) /\
    (isDefiniteWriteFailure e = false -> wp quota t0 (k (Throw e)) Q (λ _, 0) db).

Lemma fails_lost {X R} (k : result JsError X -> prog R) Q o db0 db e : fails_ok k Q o db0 -> evolves db0 db ->
  hold t0 o db -> ∃ o', (∀ k, 0 <= o' k <= o k) /\ wp quota t0 (k (Throw e)) Q o' db.
Proof.
  intros Hf Hev Ho. destruct (Hf db e Hev) as [Hd Hn]. pose proof (proj1 Ho) as Hp.
  destruct (isDefiniteWriteFailure e) eqn:E; [exists o|exists (λ _, 0)]; (split; [intros k'; specialize (Hp k'); lia|auto]).
Qed.

Lemma fails_landed {X R} (k : result JsError X -> prog R) Q o o1 db0 db e : fails_ok k Q o db0 -> evolves db0 db ->
  isDefiniteWriteFailure e = false -> (∀ k, 0 <= o1 k) ->
  ∃ o', (∀ k, 0 <= o' k <= o1 k) /\ wp quota t0 (k (Throw e)) Q o' db.
Proof.
  intros Hf Hev E Hp. exists (λ _, 0). split; [by split|]. by apply Hf.
Qed.

Lemma wp_insert {R : Type} (kind : CountedKind) (id : Z) (data : Doc) (now : Z) (k : result JsError Doc -> prog R) (Q : R -> Counts -> DB -> Prop) o (db0 : DB) :
  t0 <= clock db0 -> reserved t0 db0 -> (∀ k, o k = oneRowOf kind (countedBytesOfNew kind data) k) ->
  (∀ f, f ∈ [f_v; f_createdAt; f_updatedAt] -> storedFields kind data !! f = None) ->
  (∀ db o', evolves db0 db -> owes_nothing o' ->
     wp quota t0 (k (Ok (completeNew now (storedFields kind data)))) Q o' db) ->
  fails_ok k Q o db0 ->
  wp quota t0 (Call (Insert kind id data now) k) Q o db0.
Proof.
  intros Ht Hr Ho Hfresh Hok Hf.
  assert (hold t0 o db0) as Hh.
  { split; [|by right]. intros k0. rewrite Ho. apply oneRow_pos, countedBytes_pos. }
  apply wp_write; [done..| |intros _ db e Hev Ho'; by eapply fails_lost].
  intros db Hev Hs Ha Ho' Hl. destruct (rows db kind !! id) as [doc|] eqn:Ed.
  - eapply write_noop; [cbn [exec]; by rewrite Ed|done..| |intros _ e Hev'; by eapply fails_lost].
    intros _. by apply (proj1 (Hf db (serverError 11000) Hev)).
  - set (doc := completeNew now (storedFields kind data)) in *.
    assert (doc !! f_createdAt = Some (VDate now)) as Hc.
    { unfold doc. rewrite completeNew_lookup by done. by rewrite bool_decide_eq_false_2, bool_decide_eq_true_2 by (done || set_solver). }
    apply (write_row quota t0 _ _ _ _ (λ _, 0) _ db
             (add_creation kind id (doc !! f_createdAt) (set_row kind id (Some doc) db)) (Ok doc) kind id (Some doc)); try done.
    + cbn [exec]. by rewrite Ed.
    + split; try done.
      * intros k0 i c Hc'. cbn. case_decide; [by right|done].
      * intros doc' [= <-]. left. rewrite Hc. cbn [lands] in Hl. by apply negb_true_iff, bool_decide_eq_false_1 in Hl.
      * intros d [= <-]. split; [by apply new_sound|]. cbn. rewrite decide_True by done. left.
    + by apply (reserved_evolves t0 db0).
    + intros k0. unfold row_delta. rewrite Ed, Ho. cbn [row_counts]. unfold doc. rewrite new_bytes by done. destruct k0; cbn; lia.
    + intros Hev'. by apply Hok.
    + intros e E Hev'. by eapply fails_landed.
Qed.

Lemma wp_delete {R : Type} (kind : CountedKind) (id : Z) (filter : Filter) (k : result JsError (option (Z * Doc)) -> prog R) (Q : R -> Counts -> DB -> Prop) o (db0 : DB) :
  t0 <= clock db0 -> reserved t0 db0 -> (∀ k, 0 <= o k) ->
  (∀ db n doc o1, evolves db0 db -> (∀ k, 0 <= o1 k) -> (∀ k, o1 k = o k + oneRowOf kind n k) ->
     wp quota t0 (k (Ok (Some (n, doc)))) Q o1 db) ->
  (∀ db, evolves db0 db -> wp quota t0 (k (Ok None)) Q o db) ->
  (∀ db e, evolves db0 db -> wp quota t0 (k (Throw e)) Q o db) ->
  wp quota t0 (Call (FindOneAndDelete kind id filter) k) Q o db0.
Proof.
  intros Ht Hr Hp Hok Hno Hth. assert (hold t0 o db0) as Hh by (split; [done|by right]).
  assert (∀ k, 0 <= o k <= o k) as Hoo by (intros k0; specialize (Hp k0); lia).
  apply wp_write; [done..| |fails_with o Hth].
  intros db Hev Hs Ha Ho' _. destruct (find_row kind id filter db) as [doc|] eqn:Ed.
  - assert (∀ k, 0 <= oneRowOf kind (countedBytes kind doc) k) as Hn by (intros k0; apply oneRow_pos, countedBytes_pos).
    apply (write_row quota t0 _ _ _ _ (λ k, o k + oneRowOf kind (countedBytes kind doc) k) _ db
             (set_row kind id None db) (Ok (Some (countedBytes kind doc, doc))) kind id None); try done.
    + cbn [exec]. by rewrite Ed.
    + by apply (reserved_evolves t0 db0).
    + intros k0. specialize (Hp k0). specialize (Hn k0). lia.
    + intros k0. unfold row_delta. apply find_row_Some in Ed. rewrite Ed. cbn [row_counts]. destruct k0; cbn; lia.
    + intros Hev'. apply Hok; [done| |done]. intros k0. specialize (Hp k0). specialize (Hn k0). lia.
    + intros e E Hev'. exists o. split; [intros k0; specialize (Hp k0); specialize (Hn k0); lia|by apply Hth].
  - eapply write_noop; [cbn [exec]; by rewrite Ed|done..|by apply Hno|fails_with o Hth].
Qed.

(** An update that writes no counted field needs no reservation. *)
Lemma placed_row kind id db doc doc' : sound db -> rows db kind !! id = Some doc -> same_counted kind doc doc' ->
  sound_row doc' -> writes_row kind id (Some doc') db (set_row kind id (Some doc') db) /\
  ∀ k, part k (set_row kind id (Some doc') db) = part k db.
Proof.
  intros Hs Hd Hsame Hs'. destruct (Hs kind id doc Hd) as [_ Hcr].
  pose proof (Hsame {| set_fields := ∅; unset_fields := ∅ |}) as Hm.
  assert (doc !! f_createdAt = doc' !! f_createdAt) as Hc by (by injection Hm).
  assert (countedBytes kind doc = countedBytes kind doc') as Hb by (by injection Hm).
  split.
  - split; try done.
    + intros d [= <-]. right. exists doc. split; [done|]. split; [done|by left].
    + intros d [= <-]. split; [done|]. by rewrite <- Hc.
  - intros k. unfold part. cbn [rows set_row]. case_decide as E; [subst k|done].
    rewrite rowBytes_alter, size_alter, Hd. cbn [row_size row_one]. f_equal; lia.
Qed.

Lemma books_placed clean kind id row db db' o : writes_row kind id row db db' ->
  (∀ k, part k db' = part k db) -> sound db -> owes_nothing o ->
  books quota t0 clean false db o db' o.
Proof.
  intros Hw Hp Hs Ho. split; try done.
  - apply (writes_evolves kind id row); [done|by left].
  - apply (wr_clock _ _ _ _ _ Hw).
  - by eapply writes_sound.
  - intros k. by rewrite Ho.
  - by left.
  - intros k c Hc. left. exists c. unfold counter_of in *. rewrite (wr_account _ _ _ _ _ Hw) in Hc. split; [done|].
    unfold drift. rewrite (totals_part db db' Hp k). lia.
Qed.

Lemma wp_placed {R : Type} (kind : CountedKind) (id : Z) (filter : Filter) (update : CountedUpdate) (now : Z)
    (k : result JsError (option Doc) -> prog R) (Q : R -> Counts -> DB -> Prop) o (db0 : DB) :
  t0 <= clock db0 -> owes_nothing o -> writesCountedField kind update = false ->
  (∀ db r, evolves db0 db -> wp quota t0 (k r) Q o db) ->
  wp quota t0 (Call (UpdatePlaced kind id filter update now) k) Q o db0.
Proof.
  intros Ht Ho Hw Hk. assert (∀ k, 0 <= o k <= o k) as Hoo by (intros k0; rewrite Ho; lia).
  apply wp_write; [done|by apply hold_nothing| |fails_with o Hk].
  intros db Hev Hs Ha Ho' _. destruct (find_row kind id filter db) as [doc|] eqn:Ed.
  - set (doc' := applyPlacement kind update now doc). pose proof (find_row_Some _ _ _ _ _ Ed) as Hd.
    destruct (Hs kind id doc Hd) as [Hsd _].
    destruct (placed_row kind id db doc doc' Hs Hd) as [Hwr Hp]; [by apply placement_same|by apply placement_sound|].
    apply (write_zero _ _ _ _ _ o o _ _ (set_row kind id (Some doc') db) (Ok (Some doc'))).
    + cbn [exec]. by rewrite Ed.
    + done.
    + intros clean. by apply (books_placed clean kind id (Some doc')).
    + intros Hev'. by apply Hk.
    + intros e Hev'. by apply Hk.
  - eapply write_noop; [cbn [exec]; by rewrite Ed|done..|intros Hev'; by apply Hk|fails_with o Hk].
Qed.

(** ** The pinned update *)

(** What the measure of a row is good for: as long as the pin holds, it is the measure. *)
Definition measured_at (kind : CountedKind) (id : Z) (update : CountedUpdate) (measure : RowMeasure) (db0 : DB) : Prop :=
  ∃ db1 doc, evolves db1 db0 /\ sound db1 /\ rows db1 kind !! id = Some doc /\ measure = measureImage kind doc update.

Lemma pinned_measure kind id update measure db0 db doc : measured_at kind id update measure db0 -> evolves db0 db ->
  rows db kind !! id = Some doc -> versionPin measure doc = true -> measure = measureImage kind doc update.
Proof.
  intros (db1 & doc1 & Hev1 & Hs1 & Hd1 & ->) Hev Hd Hpin. unfold versionPin in Hpin. cbn [m_v m_createdAt measureImage] in Hpin.
  apply andb_true_iff in Hpin as [Hv%bool_decide_eq_true_1 Hc%bool_decide_eq_true_1].
  assert (evolves db1 db) as Hev' by by transitivity db0.
  destruct (ev_rows _ _ Hev' kind id doc Hd) as [Hn|(doc1' & Hd1' & _ & [Hs|Hlt])].
  - exfalso. apply Hn. rewrite Hc. by apply (Hs1 kind id doc1).
  - rewrite Hd1 in Hd1'. injection Hd1' as <-. apply Hs.
  - rewrite Hd1 in Hd1'. injection Hd1' as <-. unfold ver in Hlt. rewrite Hv in Hlt. lia.
Qed.

Lemma pinned_writes kind id update now db doc doc' : sound db -> rows db kind !! id = Some doc -> plain update ->
  applyPinned kind update now doc = Some doc' -> writes_row kind id (Some doc') db (set_row kind id (Some doc') db).
Proof.
  intros Hs Hd Hp Ha. destruct (Hs kind id doc Hd) as [Hsd Hcr].
  pose proof (pinned_created _ _ _ _ _ Hp Ha) as Hc. split; try done.
  - intros d [= <-]. right. exists doc. split; [done|]. split; [done|]. right. by eapply pinned_ver.
  - intros d [= <-]. split; [by eapply pinned_sound|]. by rewrite Hc.
Qed.

Lemma wp_pinned {R : Type} (kind : CountedKind) (id : Z) (filter : Filter) (update : CountedUpdate) (measure : RowMeasure)
    (now : Z) (k : result JsError (option Doc) -> prog R) (Q : R -> Counts -> DB -> Prop) o (db0 : DB) :
  t0 <= clock db0 -> reserved t0 db0 -> plain update -> measured_at kind id update measure db0 ->
  (∀ k, o k = counts (Z.max 0 (deltaOfPinnedUpdate kind measure update)) 0 0 k) ->
  (∀ db doc' o1, evolves db0 db -> hold t0 o1 db ->
     (∀ k, o1 k = o k - counts (countedBytes kind doc' - counted measure) 0 0 k) ->
     wp quota t0 (k (Ok (Some doc'))) Q o1 db) ->
  (∀ db, evolves db0 db -> hold t0 o db -> wp quota t0 (k (Ok None)) Q o db) ->
  fails_ok k Q o db0 ->
  wp quota t0 (Call (UpdatePinned kind id filter measure update now) k) Q o db0.
Proof.
  intros Ht Hr Hpl Hm Ho Hok Hno Hf.
  assert (hold t0 o db0) as Hh by (split; [intros k0; rewrite Ho; destruct k0; cbn; lia|by right]).
  apply wp_write; [done..| |intros _ db e Hev Ho'; by eapply fails_lost].
  intros db Hev Hs Ha Ho' Hl. cbn [lands] in Hl. destruct (find_row kind id filter db) as [doc|] eqn:Ed.
  1: destruct (versionPin measure doc) eqn:Epin.
  - pose proof (find_row_Some _ _ _ _ _ Ed) as Hd. pose proof (pinned_measure _ _ _ _ _ _ _ Hm Hev Hd Epin) as Hmeas.
    apply bool_decide_eq_true_1 in Hl as [n Hn].
    destruct (applyPinned kind update now doc) as [doc'|] eqn:Ea; [|unfold applyPinned in Ea; by rewrite Hn in Ea].
    pose proof (pinned_delta kind doc update now doc' Hpl (proj1 (proj1 (Hs kind id doc Hd))) Ea) as Hdelta.
    set (o1 := λ k, o k - counts (countedBytes kind doc' - counted measure) 0 0 k).
    assert (counted measure = countedBytes kind doc) as Hcm by by rewrite Hmeas.
    assert (∀ k, 0 <= o1 k) as Hp1.
    { intros k0. unfold o1. rewrite Ho, Hcm, Hdelta, <- Hmeas. destruct k0; cbn [counts]; lia. }
    apply (write_row quota t0 _ _ _ _ o1 _ db (set_row kind id (Some doc') db) (Ok (Some doc')) kind id (Some doc')); try done.
    + cbn [exec]. by rewrite Ed, Epin, Ea.
    + by eapply pinned_writes.
    + by apply (reserved_evolves t0 db0).
    + intros k0. unfold o1, row_delta. rewrite Hd, !row_counts_eq, Hcm. destruct k0, kind; cbn; lia.
    + intros Hev'. apply Hok; [done| |done]. split; [done|right]. by apply (reserved_evolves t0 db0).
    + intros e E Hev'. by eapply fails_landed.
  - eapply write_noop; [cbn [exec]; by rewrite Ed, Epin|done..|intros Hev'; by apply Hno|intros _ e Hev'; by eapply fails_lost].
  - eapply write_noop; [cbn [exec]; by rewrite Ed|done..|intros Hev'; by apply Hno|intros _ e Hev'; by eapply fails_lost].
Qed.

(** ** Totals *)

(** The totals of an account read one kind after the other. *)
Definition totals_read (measured : Counts) (db0 db : DB) : Prop :=
  ∃ db1 db2, evolves db0 db1 /\ evolves db1 db2 /\ evolves db2 db /\
    measured = counts (fst (part item db1) + fst (part folder db2)) (snd (part item db1)) (snd (part folder db2)).

Lemma totals_read_later measured db0 db db' : totals_read measured db0 db -> evolves db db' -> totals_read measured db0 db'.
Proof.
  intros (db1 & db2 & H1 & H2 & H3 & ->) Hev. exists db1, db2. do 2 (split; [done|]). split; [by transitivity db|done].
Qed.

(** They are the totals now, unless a counted write could have happened since. *)
Lemma totals_read_exact measured db0 db : totals_read measured db0 db ->
  (installed db -> ∀ w, writtenAt db = Some w -> w < clock db0 - 2 * HOLD_MS) ->
  ∀ k, measured k = totals db k.
Proof.
  intros (db1 & db2 & H1 & H2 & H3 & ->) Hq.
  assert (∀ d, evolves db0 d -> evolves d db -> ∀ kind, part kind db = part kind d) as Hsame.
  { intros d Hd Hd'. destruct (ev_totals _ _ Hd') as [Hp|(Hi & w & Hw & Hle)]; [done|].
    specialize (Hq Hi w Hw). pose proof (ev_clock _ _ Hd). lia. }
  rewrite <- (Hsame db1 H1 ltac:(by transitivity db2) item), <- (Hsame db2 ltac:(by transitivity db1) H3 folder).
  by intros [].
Qed.

Lemma wp_storedVaultTotals (Q : result VaultError Counts -> Counts -> DB -> Prop) o db0 :
  t0 <= clock db0 -> owes_nothing o ->
  (∀ db measured, evolves db0 db -> t0 <= clock db -> totals_read measured db0 db -> Q (Ok measured) o db) ->
  (∀ db e, evolves db0 db -> Q (Throw e) o db) ->
  wp quota t0 storedVaultTotals Q o db0.
Proof.
  intros Ht Ho Hok Hth. unfold storedVaultTotals.
  apply wp_await_read; [done|done|by apply hold_nothing|done| |intros _ db e Hev; by apply Hth].
  intros db1 Hev1 Hs1 Ha1 _. cbn [exec snd].
  apply wp_await_read; [done|done|by apply hold_nothing|unfold alive in Ha1; lia| |].
  - intros db2 Hev2 Hs2 Ha2 _. cbn [exec snd wp ret]. apply Hok; [by transitivity db1|unfold alive in Ha2; lia|].
    exists db1, db2. do 3 (split; [done|]). done.
  - intros _ db e Hev. apply Hth. by transitivity db1.
Qed.

(** ** Installing and reserving *)

Lemma wp_installVaultCounters (Q : result VaultError unit -> Counts -> DB -> Prop) o db0 :
  t0 <= clock db0 -> owes_nothing o ->
  (∀ db, evolves db0 db -> Q (Ok tt) o db) -> (∀ db e, evolves db0 db -> Q (Throw e) o db) ->
  wp quota t0 installVaultCounters Q o db0.
Proof.
  intros Ht Ho Hok Hth. unfold installVaultCounters. apply wp_await.
  apply wp_storedVaultTotals; [done|done| |done]. intros db1 measured Hev1 Ht1 Hm.
  apply wp_now; [by apply hold_nothing|done|]. intros db2 Hev2 Hs2 Ha2 _. unfold alive in Ha2.
  assert (evolves db0 db2) as Hev by by transitivity db1.
  apply wp_install; [lia|lia|done| | |].
  - intros db Hdb Hni. apply (totals_read_exact measured db0 db); [|done].
    apply (totals_read_later _ _ db1); [done|by transitivity db2].
  - intros db Hdb. apply Hok. by transitivity db2.
  - intros db e Hdb. apply Hth. by transitivity db2.
Qed.

Lemma wp_assertReservable {R} name amount (f : unit -> async R) Q o db :
  (0 <= amount -> wp quota t0 (f tt) Q o db) -> (∀ e, Q (Throw e) o db) ->
  wp quota t0 (await (assertReservable name amount) f) Q o db.
Proof.
  intros Hok Hth. unfold assertReservable. destruct (_ && _) eqn:E; cbn; [apply Hok; lia|apply Hth].
Qed.

Lemma wp_reserve_loop attempts amounts (Q : result VaultError Counts -> Counts -> DB -> Prop) o :
  owes_nothing o -> (∀ k, 0 <= amounts k) -> ∀ lastRefusal db0, t0 <= clock db0 ->
  (∀ db, evolves db0 db -> reserved t0 db -> Q (Ok amounts) amounts db) ->
  (∀ db e, evolves db0 db -> Q (Throw e) o db) ->
  wp quota t0 (reserve_loop quota attempts amounts lastRefusal) Q o db0.
Proof.
  intros Ho Hp. induction attempts as [|attempts IH]; intros lastRefusal db0 Ht Hok Hth; cbn [reserve_loop].
  { by apply Hth. }
  apply wp_now; [by apply hold_nothing|done|]. intros db1 Hev1 Hs1 Ha1 _. unfold alive in Ha1.
  apply wp_reserve_inc; [lia|lia|done|done| | |].
  { intros db Hev Hr. apply Hok; [by transitivity db1|done]. }
  2: { intros db e Hev. apply Hth. by transitivity db1. }
  intros db2 Hev2. pose proof (ev_clock _ _ Hev2) as Hc2. assert (evolves db0 db2) as Hev02 by by transitivity db1.
  apply wp_await_read; [done|done|by apply hold_nothing|lia| |intros _ db e Hev; apply Hth; by transitivity db2].
  intros db3 Hev3 Hs3 Ha3 _. unfold alive in Ha3. assert (evolves db0 db3) as Hev03 by by transitivity db2.
  assert (∀ refusal db, evolves db3 db -> wp quota t0 (reserve_loop quota attempts amounts refusal) Q o db) as Hagain.
  { intros refusal db Hev. pose proof (ev_clock _ _ Hev). apply IH; [lia| |].
    - intros db' Hev' Hr. apply Hok; [|done]. transitivity db; [by transitivity db3|done].
    - intros db' e Hev'. apply Hth. transitivity db; [by transitivity db3|done]. }
  assert (wp quota t0 (await installVaultCounters (λ _, reserve_loop quota attempts amounts lastRefusal)) Q o db3) as Hinst.
  { apply wp_await, wp_installVaultCounters; [lia|done|by apply Hagain|]. intros db e Hev. apply Hth. by transitivity db3. }
  cbn [exec snd]. destruct (account db3) as [a|]; cbn [fmap option_fmap option_map]; [|by apply Hth].
  destruct (counter a c_bytes), (counter a c_items), (counter a c_folders); try exact Hinst.
  repeat (destruct (_ && _); [by apply Hth|]). by apply Hagain.
Qed.

Lemma wp_reserve {R} amounts (f : Counts -> async R) (Q : result VaultError R -> Counts -> DB -> Prop) o db0 :
  t0 <= clock db0 -> owes_nothing o ->
  (∀ db, evolves db0 db -> reserved t0 db -> hold t0 amounts db -> wp quota t0 (f amounts) Q amounts db) ->
  (∀ db e, evolves db0 db -> Q (Throw e) o db) ->
  wp quota t0 (await (reserveVaultWrite quota amounts) f) Q o db0.
Proof.
  intros Ht Ho Hok Hth. unfold reserveVaultWrite. apply wp_await.
  assert (∀ e, Q (Throw e) o db0) as Hth0 by (intros e; by apply Hth).
  apply wp_assertReservable; [intros H1|by apply Hth0]. apply wp_assertReservable; [intros H2|by apply Hth0].
  apply wp_assertReservable; [intros H3|by apply Hth0].
  assert (∀ k, 0 <= amounts k) as Hp by by intros [].
  apply wp_reserve_loop; [done|done|done| |by apply Hth].
  intros db Hev Hr. apply Hok; [done|done|]. split; [done|by right].
Qed.

(** ** The requests *)

Definition settled {R} : R -> Counts -> DB -> Prop := λ _ o _, owes_nothing o.

Lemma wp_release {R} reservation (f : unit -> async R) Q o db0 : t0 <= clock db0 -> hold t0 o db0 ->
  (∀ k, reservation k = o k) -> (∀ db o', evolves db0 db -> owes_nothing o' -> wp quota t0 (f tt) Q o' db) ->
  wp quota t0 (await (releaseVaultWrite reservation) f) Q o db0.
Proof. intros Ht Ho Hr. apply wp_settle; [done..|]. intros k. rewrite Hr. destruct k; cbn; lia. Qed.

(** A failed write hands its reservation back or gives it up. *)
Lemma fails_release {X R} (k : result JsError X -> async R) reservation o db0 :
  t0 <= clock db0 -> (∀ k, reservation k = o k) ->
  (∀ e, k (Throw e) = releaseOnDefiniteFailure reservation e) -> fails_ok k settled o db0.
Proof.
  intros Ht Hr Hk db e Hev. rewrite Hk. unfold releaseOnDefiniteFailure. pose proof (ev_clock _ _ Hev).
  destruct (isDefiniteWriteFailure e); (split; [intros E Ho|intros E]); try done.
  apply wp_release; [lia|done|done|]. by intros db' o' _ Ho'.
Qed.

Lemma ev_after db db' : evolves db db' -> t0 <= clock db -> t0 <= clock db'.
Proof. intros Hev. pose proof (ev_clock _ _ Hev). lia. Qed.
Local Hint Resolve ev_after : core.

Lemma wp_create kind id data o db0 : t0 <= clock db0 -> owes_nothing o ->
  (∀ f, f ∈ [f_v; f_createdAt; f_updatedAt] -> storedFields kind data !! f = None) ->
  wp quota t0 (createCountedRow quota kind id data) settled o db0.
Proof.
  intros Ht Ho Hfresh. unfold createCountedRow. apply wp_reserve; [done..| |done].
  intros db1 Hev1 Hr1 Hh1. apply wp_now; [done|by eauto|]. intros db2 Hev2 Hs2 Ha2 Hh2.
  assert (t0 <= clock db2) as Ht2 by apply Ha2.
  apply wp_insert; [done|by apply (reserved_evolves t0 db1); eauto|done|done| |by eapply fails_release].
  intros db3 o' Hev3 Ho'. apply wp_settle; [by eauto|by apply hold_nothing| |done].
  intros k. rewrite new_bytes, Ho' by done. lia.
Qed.

Lemma wp_update_loop attempts kind id update extraFilter beforeWrite : plain update -> ∀ first o db0,
  t0 <= clock db0 -> owes_nothing o ->
  wp quota t0 (update_loop quota attempts kind id update extraFilter beforeWrite first) settled o db0.
Proof.
  intros Hpl. induction attempts as [|attempts IH]; intros first o db0 Ht Ho; cbn [update_loop]; [done|].
  apply wp_await_read; [done|done|by apply hold_nothing|done| |done].
  intros db1 Hev1 Hs1 Ha1 _. cbn [exec snd]. assert (t0 <= clock db1) as Ht1 by apply Ha1.
  destruct (find_row kind id extraFilter db1) as [doc|] eqn:Ed; cbn [fmap option_fmap option_map]; [|done].
  destruct (negb _); [done|]. apply find_row_Some in Ed. set (measure := measureImage kind doc update).
  apply wp_await. apply wp_mono with (Q := λ r o' db, o' = o /\ evolves db1 db /\ t0 <= clock db).
  2: { destruct beforeWrite; [|done]. apply wp_read; [done|done|by apply hold_nothing|done| |].
       - intros db Hev Hs Ha _. cbn. split; [done|]. split; [done|apply Ha].
       - intros _ db e Hev _. cbn. eauto. }
  intros [[]|e] o' db2 (-> & Hev2 & Ht2); [|done]. apply wp_reserve; [done..| |done].
  intros db3 Hev3 Hr3 Hh3. apply wp_now; [done|by eauto|]. intros db4 Hev4 Hs4 Ha4 Hh4.
  assert (t0 <= clock db4) as Ht4 by apply Ha4.
  apply wp_pinned; [done|by apply (reserved_evolves t0 db3); eauto|done| |done| | |by eapply fails_release].
  - exists db1, doc. split; [|done]. transitivity db2; [done|]. by transitivity db3.
  - intros db5 doc' o1 Hev5 Hh5 Ho1. apply wp_settle; [by eauto|done| |done]. intros k. by rewrite Ho1.
  - intros db5 Hev5 Hh5. apply wp_release; [by eauto|done|done|].
    intros db6 o' Hev6 Ho'. apply IH; [by eauto|done].
Qed.

Lemma wp_updateCountedRow kind id update extraFilter beforeWrite o db0 : plain update -> t0 <= clock db0 -> owes_nothing o ->
  wp quota t0 (updateCountedRow quota kind id update extraFilter beforeWrite) settled o db0.
Proof.
  intros Hpl Ht Ho. destruct id as [id|]; cbn [updateCountedRow]; [|done].
  destruct (writesCountedField kind update) eqn:Ew; cbn [negb]; [by apply wp_update_loop|].
  apply wp_now; [by apply hold_nothing|done|]. intros db1 Hev1 Hs1 Ha1 _.
  apply wp_placed; [apply Ha1|done|done|]. by intros db [x|e] Hev.
Qed.

(** Once a row of size [n] has gone, a request that reserved nothing owes that row. *)
Lemma settle_gone kind n o1 : (∀ k, o1 k = counts 0 0 0 k + oneRowOf kind n k) ->
  ∀ k, counts 0 0 0 k - - oneRowOf kind n k = o1 k.
Proof. intros Ho k. rewrite Ho. destruct k; cbn; lia. Qed.

Lemma wp_permanentDelete id o db0 : t0 <= clock db0 -> owes_nothing o ->
  wp quota t0 (permanentDelete quota id) settled o db0.
Proof.
  intros Ht Ho. unfold permanentDelete. apply wp_reserve; [done..| |done].
  intros db1 Hev1 Hr1 Hh1. assert (owes_nothing (counts 0 0 0)) as Hz by by intros [].
  apply wp_await. destruct id as [id|]; [|done].
  apply wp_delete; [by eauto|done|apply Hh1| |done|done].
  intros db2 n doc o1 Hev2 Hp Ho1. apply wp_settleVaultWrite; [by eauto| | |done].
  - split; [done|right]. by apply (reserved_evolves t0 db1); eauto.
  - intros k. rewrite <- (settle_gone item n o1 Ho1 k). destruct k; cbn; lia.
Qed.

Lemma wp_withdrawCountedRow kind id createdAt o db0 : t0 <= clock db0 -> owes_nothing o ->
  wp quota t0 (withdrawCountedRow quota kind id createdAt true) settled o db0.
Proof.
  intros Ht Ho. unfold withdrawCountedRow. cbn [negb]. apply wp_reserve; [done..| |done].
  intros db1 Hev1 Hr1 Hh1. apply wp_await.
  apply wp_delete; [by eauto|done|apply Hh1| | |by intros db e _ []].
  - intros db2 n doc o1 Hev2 Hp Ho1. apply wp_settle; [by eauto| |by apply settle_gone|done].
    split; [done|right]. by apply (reserved_evolves t0 db1); eauto.
  - intros db2 Hev2. apply wp_release; [by eauto|by apply (hold_evolves t0 _ db1); eauto|done|done].
Qed.

(** ** Walks over many rows *)

(** What a walk has removed is what it owes. *)
Definition tally_counts (tally : Tally) : Counts := counts (removed_bytes tally) (deleted tally) 0.
Definition walked {R} (r : Tally * R) o (db : DB) : Prop :=
  (∀ k, o k = tally_counts (fst r) k) /\ (∀ k, 0 <= o k) /\ t0 <= clock db /\ reserved t0 db.

Lemma tally_one_counts n tally o o1 : (∀ k, o k = tally_counts tally k) ->
  (∀ k, o1 k = o k + oneRowOf item n k) -> ∀ k, o1 k = tally_counts (tally_one n tally) k.
Proof. intros Ho Ho1 k. rewrite Ho1, Ho. destruct k; cbn; lia. Qed.

Lemma walked_later {R} (r : Tally * R) o db db' : evolves db db' -> walked r o db -> walked r o db'.
Proof.
  intros Hev (Ho & Hp & Ht & Hr). split; [done|]. split; [done|]. split; [by eauto|].
  by apply (reserved_evolves t0 db).
Qed.

(** One row of a walk, named [id], then the rest of it. *)
Lemma wp_walk_row id (filter : Filter) (tally : Tally) (rest : Tally -> prog (Tally * result VaultError unit)) o db0 :
  walked (tally, tt) o db0 ->
  (∀ tally' o' db, walked (tally', tt) o' db -> wp quota t0 (rest tally') walked o' db) ->
  wp quota t0
    (bind (deleteCountedRow item id filter) (λ gone,
       match gone with
       | Throw e => Done (tally, Throw e)
       | Ok None => rest tally
       | Ok (Some (n, _)) => rest (tally_one n tally)
       end)) walked o db0.
Proof.
  intros Hw Hrest. pose proof Hw as (Ho & Hp & Ht & Hr). apply wp_delete; [done..| | |].
  - intros db n doc o1 Hev Hp1 Ho1. apply Hrest. split; [by eapply tally_one_counts|]. split; [done|].
    split; [by eauto|]. by apply (reserved_evolves t0 db0).
  - intros db Hev. apply Hrest. by apply (walked_later _ _ db0).
  - intros db e Hev. exact (walked_later (tally, _) o db0 db Hev Hw).
Qed.

Lemma wp_delete_batch predicate batch tally o db0 : walked (tally, tt) o db0 ->
  wp quota t0 (delete_batch predicate batch tally) walked o db0.
Proof.
  revert tally o db0. induction batch as [|id batch IH]; intros tally o db0 Hw; cbn [delete_batch]; [done|].
  apply (wp_walk_row id predicate tally (delete_batch predicate batch)); [done|]. intros tally' o' db. apply IH.
Qed.

Lemma wp_purge_loop named tally o db0 : walked (tally, tt) o db0 ->
  wp quota t0 (purge_loop named tally) walked o db0.
Proof.
  revert tally o db0. induction named as [|[id held] named IH]; intros tally o db0 Hw; cbn [purge_loop]; [done|].
  apply (wp_walk_row id held tally (purge_loop named)); [done|]. intros tally' o' db. apply IH.
Qed.

Lemma wp_deleteCountedItems fuel predicate ids : ∀ tally after o db0, walked (tally, tt) o db0 ->
  wp quota t0 (deleteCountedItems fuel predicate tally ids after) walked o db0.
Proof.
  induction fuel as [|fuel IH]; intros tally after o db0 Hw; cbn [deleteCountedItems]; [done|].
  pose proof Hw as (Ho & Hp & Ht & Hr).
  apply wp_read; [done|done|by split; [|right]|done| |].
  - intros db Hev Hs Ha Hh. cbn [exec snd]. apply wp_bind.
    apply wp_mono with (Q := walked); [|apply wp_delete_batch; by apply (walked_later _ _ db0)].
    intros [tally' [[]|e]] o' db' Hw'; [|done]. destruct (_ <? _)%nat; [done|]. by apply IH.
  - intros _ db e Hev _. exact (walked_later (tally, _) o db0 db Hev Hw).
Qed.

(** The [finally] of a walk. *)
Lemma wp_settleTally walk o db0 : (∀ o' db, walked ({| deleted := 0; removed_bytes := 0 |}, tt) o' db ->
    wp quota t0 walk walked o' db) -> t0 <= clock db0 -> owes_nothing o ->
  wp quota t0 (await (reserveVaultWrite quota (counts 0 0 0)) (λ reservation, settleTally reservation walk)) settled o db0.
Proof.
  intros Hwalk Ht Ho. apply wp_reserve; [done..| |done]. intros db1 Hev1 Hr1 Hh1. unfold settleTally. apply wp_bind.
  apply wp_mono with (Q := walked).
  - intros [tally done'] o' db (Ho' & Hp & Ht' & Hr). cbn [fst] in Ho'.
    apply wp_settle; [done|by split; [|right]| |by destruct done'].
    intros k. rewrite Ho'. destruct k; cbn; lia.
  - apply Hwalk. split; [by intros []|]. split; [apply Hh1|]. split; [by eauto|done].
Qed.

Lemma wp_emptyTrash fuel o db0 : t0 <= clock db0 -> owes_nothing o ->
  wp quota t0 (emptyTrash quota fuel) settled o db0.
Proof.
  intros Ht Ho. unfold emptyTrash. apply wp_now; [by apply hold_nothing|done|]. intros db1 Hev1 Hs1 Ha1 _.
  apply wp_settleTally; [|apply Ha1|done]. intros o' db. apply wp_deleteCountedItems.
Qed.

Lemma wp_purgeUnreadableItems named o db0 : t0 <= clock db0 -> owes_nothing o ->
  wp quota t0 (purgeUnreadableItems quota named) settled o db0.
Proof. intros Ht Ho. apply wp_settleTally; [|done|done]. intros o' db. apply wp_purge_loop. Qed.

(** ** The recount *)

Definition set_counters (measured : Counts) (a : Account) : Account :=
  {| counter := λ k, Some (measured k); quotaEpoch := Some (default 0 (quotaEpoch a) + 1);
     vaultBytesWrittenAt := vaultBytesWrittenAt a |}.

Lemma books_recount clean db o a measured : sound db -> account db = Some a -> owes_nothing o -> unowed db ->
  (∀ k, measured k = totals db k) -> books quota t0 clean true db o (set_account (set_counters measured a) db) o.
Proof.
  intros Hs Ea Ho Hu Hm. split; try done.
  - split; try done.
    + intros kind id doc Hd. right. exists doc. split; [done|]. apply advances_refl.
    + intros w Hw. unfold writtenAt in *. rewrite Ea in Hw. exists w. split; [done|]. by left.
    + by left.
  - intros k. by rewrite Ho.
  - by left.
  - intros k c' [= <-]. right. split; [done|]. split; [apply Ho|]. split; [apply Hm|done].
  - intros _ _ k. cbn. by rewrite Hm.
Qed.

Lemma wp_recount_set {R} a measured (k : result JsError bool -> prog R) Q o db0 : t0 <= clock db0 -> owes_nothing o ->
  (∀ db, evolves db0 db -> writtenAt db = vaultBytesWrittenAt a -> unowed db /\ ∀ k, measured k = totals db k) ->
  (∀ db r, evolves db0 db -> wp quota t0 (k r) Q o db) ->
  wp quota t0 (Call (RecountSet (quotaEpoch a) (vaultBytesWrittenAt a) measured) k) Q o db0.
Proof.
  intros Ht Ho Hq Hk. assert (∀ k, 0 <= o k <= o k) as Hoo by (intros k0; rewrite Ho; lia).
  apply wp_write; [done|by apply hold_nothing| |fails_with o Hk].
  intros db Hev Hs Ha Hh _. destruct (account db) as [a'|] eqn:Ea.
  1: destruct (bool_decide (quotaEpoch a' = quotaEpoch a) && bool_decide (vaultBytesWrittenAt a' = vaultBytesWrittenAt a)) eqn:Ec.
  - eapply write_zero; [cbn [exec]; by rewrite Ea, Ec|done|intros clean|intros Hev'; by apply Hk|intros e Hev'; by apply Hk].
    cbn [recounts]. rewrite Ea, Ec. apply andb_true_iff in Ec as [_ Ew%bool_decide_eq_true_1].
    destruct (Hq db Hev) as [Hu Hm]; [unfold writtenAt; by rewrite Ea|]. by apply (books_recount clean db o a' measured).
  - eapply write_noop; [cbn [exec]; by rewrite Ea, Ec|cbn [recounts]; by rewrite Ea|done..|intros Hev'; by apply Hk|fails_with o Hk].
  - eapply write_noop; [cbn [exec]; by rewrite Ea|cbn [recounts]; by rewrite Ea|done..|intros Hev'; by apply Hk|fails_with o Hk].
Qed.

(** An account not written for the quiescence has no request in flight with a reservation. *)
Lemma quiet_unowed since db : since <= clock db -> (∀ w, writtenAt db = Some w -> w < since - 2 * HOLD_MS) -> unowed db.
Proof.
  intros Hc Hq t1 Ha (_ & w & Hw & Hle). specialize (Hq w Hw). unfold alive, HOLD_MS in *. lia.
Qed.

Lemma wp_recountVaultQuotas o db0 : t0 <= clock db0 -> owes_nothing o ->
  wp quota t0 recountVaultQuotas settled o db0.
Proof.
  intros Ht Ho. unfold recountVaultQuotas. apply wp_now; [by apply hold_nothing|done|]. intros db1 Hev1 Hs1 Ha1 _.
  apply wp_await_read; [done|done|by apply hold_nothing|apply Ha1| |done]. intros db2 Hev2 Hs2 Ha2 _. cbn [exec snd].
  destruct (account db2) as [a|] eqn:Ea; [|done].
  assert (∀ since, since <= clock db2 -> (∀ w, vaultBytesWrittenAt a = Some w -> w < since - 2 * HOLD_MS) ->
    wp quota t0 (bind (recount_set a) (λ r, match r with Ok summary => ret summary
      | Throw _ => ret {| recounted := 0; corrected := 0; failures := 1 |} end)) settled o db2) as Hrun.
  { intros since Hsince Hq. apply wp_bind. unfold recount_set. apply wp_await.
    apply wp_storedVaultTotals; [apply Ha2|done| |done]. intros db3 measured Hev3 Ht3 Hm. apply wp_await, wp_recount_set; [done|done| |].
    - intros db Hev Hw. pose proof (ev_clock _ _ Hev3). pose proof (ev_clock _ _ Hev).
      assert (∀ w, writtenAt db = Some w -> w < since - 2 * HOLD_MS) as Hq' by (rewrite Hw; exact Hq).
      split; [apply (quiet_unowed since); [lia|done]|].
      apply (totals_read_exact measured db2 db); [by eapply totals_read_later|].
      intros _ w Hw'. specialize (Hq' w Hw'). lia.
    - intros db [[]|e] Hev; cbn; done. }
  pose proof (ev_clock _ _ Hev2). destruct (vaultBytesWrittenAt a) as [w|] eqn:Ew; [destruct (w <? _) eqn:El; [|done]|].
  - apply (Hrun (clock db1)); [done|]. intros w' [= <-]. unfold QUOTA_RECOUNT_QUIESCENCE_MS, HOLD_MS in *. lia.
  - apply (Hrun (clock db1)); [done|]. done.
Qed.

(** ** Every request *)

Lemma handler_wp rq db0 : request_ok rq -> t0 <= clock db0 ->
  wp quota t0 (handler quota rq) settled (λ _, 0) db0.
Proof.
  intros Hok Ht. destruct rq; cbn [handler request_ok] in *; apply wp_bind;
    (eapply wp_mono; [|first [by apply wp_create|by apply wp_updateCountedRow|by apply wp_permanentDelete
      |by apply wp_withdrawCountedRow|by apply wp_emptyTrash|by apply wp_purgeUnreadableItems|by apply wp_recountVaultQuotas]]);
    by intros r o db Ho.
Qed.
End requests.
