(* ===== verification/VaultQuotaSystem.v ===== *)
(** The vault quota under concurrency: what holds of the account's counters and rows whatever
    requests run, in whatever interleaving, with whatever faults and crashes. *)
From S2P Require Import Prelude VaultQuota VaultQuotaSpec VaultQuotaOps VaultQuotaLogic.
From S2P Require Import VaultQuotaRules VaultQuotaRequests.
Local Open Scope Z_scope.

Section system.
Context `{StorageLaws} (quota : Z).

(** Sequences of steps; [true] when no step of them is a fault or a crash. *)
Inductive steps : bool -> State -> State -> Prop :=
  | steps_none s : steps true s s
  | steps_snoc b b' s s1 s2 : steps b s s1 -> step quota b' s1 s2 -> steps (b && b') s s2.

(** ** The invariant *)

Definition owed (os : list Counts) (k : Counter) : Z := foldr (λ o n, o k + n) 0 os.

Lemma owed_app os os' k : owed (os ++ os') k = owed os k + owed os' k.
Proof. unfold owed. induction os as [|o os IH]; cbn; lia. Qed.

Lemma owed_insert os i o o' k : os !! i = Some o -> owed (<[i := o']> os) k = owed os k - o k + o' k.
Proof.
  intros Hi. rewrite <- (take_drop_middle os i o Hi) at 2. rewrite insert_take_drop by (by eapply lookup_lt_Some).
  rewrite !owed_app. unfold owed. cbn. lia.
Qed.

Lemma owed_pos os k : Forall (λ o : Counts, ∀ k, 0 <= o k) os -> 0 <= owed os k.
Proof. unfold owed. induction 1 as [|o os Ho _ IH]; cbn; [lia|]. specialize (Ho k). lia. Qed.

Lemma owed_zero os k : Forall owes_nothing os -> owed os k = 0.
Proof. unfold owed. induction 1 as [|o os Ho _ IH]; cbn; [lia|]. rewrite Ho. lia. Qed.

Record task_ok (db : DB) (t : Task) (o : Counts) : Prop := {
  tk_started : started t <= clock db;
  tk_credit k : 0 <= o k;
  tk_reserved : owes_nothing o \/ reserved (started t) db;
  tk_wp : ∃ db0, evolves db0 db /\ wp quota (started t) (todo t) settled o db0;
}.

Record Inv (B : Counts) (exact : bool) (s : State) (os : list Counts) : Prop := {
  inv_sound : sound (db s);
  inv_tasks : Forall2 (task_ok (db s)) (tasks s) os;
  inv_time : in_time (clock (db s)) (tasks s) = true;
  inv_ledger k c : counter_of (db s) k = Some c ->
    0 <= c - totals (db s) k - owed os k /\ (exact = true -> c - totals (db s) k - owed os k = 0) /\ c <= B k;
  inv_totals k : totals (db s) k <= B k;
}.

Lemma task_ok_evolves db db' t o : evolves db db' -> task_ok db t o -> task_ok db' t o.
Proof.
  intros Hev [Hs Hc Hr (db0 & Hev0 & Hw)]. pose proof (ev_clock _ _ Hev). split; [lia|done| |].
  - destruct Hr as [Ho|Hr]; [by left|right]. by apply (reserved_evolves _ db).
  - exists db0. split; [by transitivity db|done].
Qed.

Lemma in_time_alive now ts i t : in_time now ts = true -> ts !! i = Some t -> running t = true ->
  now <= started t + HOLD_MS.
Proof.
  unfold in_time. rewrite forallb_forall. intros Ht Hi Hr.
  specialize (Ht t (proj1 (list_elem_of_In _ _) (list_elem_of_lookup_2 _ _ _ Hi))). rewrite Hr in Ht. cbn in Ht. lia.
Qed.

(** When no request in time has a reservation, nothing is owed. *)
Lemma unowed_none s os B exact : Inv B exact s os -> unowed (db s) -> Forall owes_nothing os.
Proof.
  intros [Hs Ht Htime _ _] Hu. apply Forall_lookup. intros i o Ho.
  destruct (Forall2_lookup_r _ _ _ _ _ Ht Ho) as (t & Hi & [Hst Hc Hr (db0 & Hev & Hw)]).
  destruct (todo t) as [[]|X c k] eqn:Et; [exact Hw|].
  destruct Hr as [Hn|Hr]; [done|]. exfalso. apply (Hu (started t)); [|done]. split; [done|].
  apply (in_time_alive _ (tasks s) i t); [done|done|]. unfold running. by rewrite Et.
Qed.

Lemma in_time_insert now ts i t t' : in_time now ts = true -> ts !! i = Some t -> started t' = started t ->
  (running t' = true -> running t = true) -> in_time now (<[i := t']> ts) = true.
Proof.
  intros Ht Hi Hst Hr. pose proof (in_time_alive now ts i t Ht Hi) as Ha. unfold in_time in *.
  rewrite forallb_forall in *. intros x Hx. apply list_elem_of_In, list_elem_of_lookup in Hx as [j Hj].
  destruct (decide (j = i)) as [->|Hne].
  - rewrite list_lookup_insert_eq in Hj by (by eapply lookup_lt_Some). injection Hj as <-. rewrite Hst.
    destruct (running t') eqn:E; [|done]. specialize (Ha (Hr eq_refl)). cbn. lia.
  - rewrite list_lookup_insert_ne in Hj by done. apply Ht. apply list_elem_of_In. by eapply list_elem_of_lookup_2.
Qed.

(** Totals stay within bounds that hold of the counters. *)
Lemma totals_bounded B db db' os k : evolves db db' -> totals db k <= B k -> 0 <= owed os k ->
  (∀ c, counter_of db' k = Some c -> 0 <= c - totals db' k - owed os k /\ c <= B k) ->
  totals db' k <= B k.
Proof.
  intros Hev Ht Ho Hc. destruct (counter_of db' k) as [c|] eqn:E.
  - destruct (Hc c eq_refl). lia.
  - destruct (ev_totals _ _ Hev) as [Hp|[Hi _]]; [by rewrite (totals_part _ _ Hp)|].
    destruct (Hi k) as [c Hc']. by rewrite Hc' in E.
Qed.

(** ** Every step keeps it *)

Lemma inv_spawn B exact s os rq : Inv B exact s os -> request_ok rq ->
  Inv B exact {| db := db s; tasks := tasks s ++ [{| started := clock (db s); todo := handler quota rq |}] |}
    (os ++ [λ _, 0]).
Proof.
  intros [Hs Ht Htime Hl Hb] Hrq. split; cbn [db tasks]; try done.
  - apply Forall2_app; [done|]. apply Forall2_cons. split; [|done]. split; cbn [started todo]; [done|done|by left|].
    exists (db s). split; [done|]. by apply handler_wp.
  - unfold in_time in *. rewrite forallb_app, Htime. cbn. unfold HOLD_MS. lia.
  - intros k c Hc. rewrite owed_app. destruct (Hl k c Hc) as (H1 & H2 & H3).
    replace (owed os k + owed [λ _, 0] k) with (owed os k) by (unfold owed; cbn; lia). done.
Qed.

Lemma inv_tick B exact s os d : Inv B exact s os -> 0 <= d -> in_time (clock (db s) + d) (tasks s) = true ->
  Inv B exact {| db := set_clock (clock (db s) + d) (db s); tasks := tasks s |} os.
Proof.
  intros [Hs Ht Htime Hl Hb] Hd Htime'.
  assert (evolves (db s) (set_clock (clock (db s) + d) (db s))) as Hev.
  { split; try done.
    - cbn. lia.
    - intros kind id doc Hdoc. right. exists doc. split; [done|]. apply advances_refl.
    - intros w Hw. exists w. split; [done|]. by left.
    - by left. }
  split; cbn [db tasks]; try done. eapply Forall2_impl; [exact Ht|]. intros t o. by apply task_ok_evolves.
Qed.

Lemma inv_crash B exact s os i t : Inv B exact s os -> tasks s !! i = Some t ->
  ∃ os', Inv B false {| db := db s; tasks := <[i := {| started := started t; todo := Done tt |}]> (tasks s) |} os'.
Proof.
  intros [Hs Ht Htime Hl Hb] Hi. destruct (Forall2_lookup_l _ _ _ _ _ Ht Hi) as (o & Ho & [Hst Hc Hr Hw]).
  exists (<[i := λ _, 0]> os). split; cbn [db tasks]; try done.
  - apply Forall2_insert; [done|]. split; cbn [started todo]; [done|done|by left|]. by exists (db s).
  - by apply (in_time_insert _ _ _ t).
  - intros k c Hk. rewrite (owed_insert _ _ o) by done. destruct (Hl k c Hk) as (H1 & _ & H3). specialize (Hc k).
    split; [lia|]. split; [done|lia].
Qed.

Lemma inv_run B exact clean s os i t0 X (c : cmd X) k db' r : (∀ k, ceiling quota k <= B k) -> Inv B exact s os ->
  tasks s !! i = Some {| started := t0; todo := Call c k |} -> outcome quota c (db s) clean db' r ->
  ∃ os', Inv B (exact && clean) {| db := db'; tasks := <[i := {| started := t0; todo := k r |}]> (tasks s) |} os' /\
    (clean = true -> recounts c (db s) = true -> ∀ k, counter_of db' k = Some (totals db' k)).
Proof.
  intros HB Hinv Hi Hout. pose proof Hinv as [Hs Ht Htime Hl Hb].
  destruct (Forall2_lookup_l _ _ _ _ _ Ht Hi) as (o & Ho & [Hst Hc Hr (db0 & Hev0 & Hw)]). cbn [started todo] in *.
  assert (alive t0 (db s)) as Hal.
  { split; [done|]. by apply (in_time_alive _ (tasks s) i {| started := t0; todo := Call c k |}). }
  destruct (Hw (db s) Hev0 Hs Hal clean db' r Hout) as (o' & [Hev Hck Hs' Hp Hr' He Hrc] & Hk).
  exists (<[i := o']> os). split; [|exact Hrc].
  assert (Forall2 (task_ok db') (<[i := {| started := t0; todo := k r |}]> (tasks s)) (<[i := o']> os)) as Ht'.
  { apply Forall2_insert.
    - eapply Forall2_impl; [exact Ht|]. intros t o2. by apply task_ok_evolves.
    - split; cbn [started todo]; [lia|done|done|by exists db']. }
  assert (∀ k0, 0 <= owed (<[i := o']> os) k0) as Hpos.
  { intros k0. apply owed_pos. eapply Forall2_Forall_r; [exact Ht'|]. apply Forall_forall. by intros t _ o2 []. }
  assert (∀ k0 c', counter_of db' k0 = Some c' ->
    0 <= c' - totals db' k0 - owed (<[i := o']> os) k0 /\
    (exact && clean = true -> c' - totals db' k0 - owed (<[i := o']> os) k0 = 0) /\ c' <= B k0) as Hl'.
  { intros k0 c' Hc'. rewrite (owed_insert _ _ o) by done. unfold drift in He.
    destruct (He k0 c' Hc') as [(c0 & Hc0 & Hle & Heq & Hbd)|(Hu & Ho' & Hc0 & Htot)].
    - destruct (Hl k0 c0 Hc0) as (H1 & H2 & H3). specialize (HB k0). unfold drift in *. split; [lia|].
      split; [|lia]. intros [E1 E2]%andb_true_iff. specialize (H2 E1). specialize (Heq E2). lia.
    - pose proof (unowed_none s os B exact Hinv Hu) as Hz. rewrite (owed_zero os k0 Hz).
      rewrite Forall_lookup in Hz. rewrite (Hz i o Ho k0), Ho', Hc0, <- Htot. specialize (Hb k0). split; [lia|]. split; [|lia]. lia. }
  split; cbn [db tasks]; try done.
  - rewrite Hck. by apply (in_time_insert _ _ _ {| started := t0; todo := Call c k |}).
  - intros k0. apply (totals_bounded B (db s) db' (<[i := o']> os)); [done|done|done|].
    intros c1 Hc1. destruct (Hl' _ _ Hc1) as (? & ? & ?). lia.
Qed.

Lemma inv_weaken B exact s os : Inv B exact s os -> Inv B false s os.
Proof.
  intros [Hs Ht Htime Hl Hb]. split; try done. intros k c Hc. by destruct (Hl k c Hc) as (? & _ & ?).
Qed.

Lemma step_inv B exact clean s s' os : (∀ k, ceiling quota k <= B k) -> Inv B exact s os -> step quota clean s s' ->
  ∃ os', Inv B (exact && clean) s' os'.
Proof.
  intros HB Hinv Hst. destruct Hst as [s rq Hrq|s i t0 X c k clean db' r Hi Hout|s i t Hi|s d Hd Htime].
  - exists (os ++ [λ _, 0]). rewrite andb_true_r. by apply inv_spawn.
  - destruct (inv_run B exact clean s os i t0 X c k db' r HB Hinv Hi Hout) as (os' & Hinv' & _). by exists os'.
  - rewrite andb_false_r. by apply (inv_crash B exact s os i t).
  - exists os. rewrite andb_true_r. by apply inv_tick.
Qed.

Lemma steps_inv B exact clean s s' os : (∀ k, ceiling quota k <= B k) -> Inv B exact s os -> steps clean s s' ->
  ∃ os', Inv B (exact && clean) s' os'.
Proof.
  intros HB Hinv Hst. induction Hst as [s|b b' s s1 s2 Hst IH Hlast].
  - exists os. by rewrite andb_true_r.
  - destruct (IH Hinv) as [os1 Hinv1]. destruct (step_inv B (exact && b) b' s1 s2 os1 HB Hinv1 Hlast) as [os2 Hinv2].
    exists os2. by rewrite andb_assoc.
Qed.

(** ** What the protocol is for *)

(** No request in flight, sound rows, and no installed counter below what is stored.  A sound row
    carries [updatedAt]: a legacy row without it, which [deltaOfPinnedUpdate] provides for, is assumed
    away here, because a placement of it grows the stored bytes and tells no counter
    ([placement_grows_legacy_row] of VaultQuotaAlone). *)
Record idle (s : State) : Prop := {
  idle_tasks : tasks s = [];
  idle_sound : sound (db s);
  idle_counters k c : counter_of (db s) k = Some c -> totals (db s) k <= c;
}.

(** [B] bounds the ceilings, and what the account has already. *)
Definition within (B : Counts) (db : DB) : Prop :=
  ∀ k, totals db k <= B k /\ ∀ c, counter_of db k = Some c -> c <= B k.

Lemma idle_inv B s : idle s -> within B (db s) -> Inv B false s [].
Proof.
  intros [Ht Hs Hc] HB. split; [done|rewrite Ht; by apply Forall2_nil|by rewrite Ht| |by intros k; destruct (HB k)].
  intros k c Hk. specialize (Hc k c Hk). cbn. split; [lia|]. split; [done|by apply (proj2 (HB k))].
Qed.

Lemma idle_inv_exact B s : idle s -> within B (db s) -> (∀ k c, counter_of (db s) k = Some c -> c = totals (db s) k) ->
  Inv B true s [].
Proof.
  intros Hi HB He. destruct (idle_inv B s Hi HB) as [Hs Ht Htime Hl Hb]. split; try done.
  intros k c Hk. destruct (Hl k c Hk) as (H1 & _ & H3). split; [done|]. split; [|done]. intros _. rewrite (He k c Hk). cbn. lia.
Qed.

Lemma enough_room db : ∃ B, within B db /\ ∀ k, ceiling quota k <= B k.
Proof.
  exists (λ k, Z.max (ceiling quota k) (Z.max (totals db k) (default 0 (counter_of db k)))). split.
  - intros k. split; [lia|]. intros c ->. cbn. lia.
  - intros k. lia.
Qed.

(** C4: On an account whose stored rows all carry [updatedAt]: whatever requests of [request] run (creates,
    updates and moves, permanent deletes, withdrawals, the emptying and purging of the trash, recounts),
    in whatever interleaving, with whatever lost or half-landed database calls and crashed processes, no
    counter of the account is ever below what the account stores: the quota and the caps can refuse too
    early, never too late. *)
Theorem vault_counters_never_undercount clean s s' : idle s -> steps clean s s' ->
  ∀ k c, counter_of (db s') k = Some c -> totals (db s') k <= c.
Proof.
  intros Hi Hst k c Hc. destruct (enough_room (db s)) as (B & HB & Hceil).
  destruct (steps_inv B false clean s s' [] Hceil (idle_inv B s Hi HB) Hst) as [os Hinv].
  pose proof Hinv as [_ Ht _ Hl _]. destruct (Hl k c Hc) as (H1 & _).
  assert (0 <= owed os k); [|lia]. apply owed_pos. eapply Forall2_Forall_r; [exact Ht|].
  apply Forall_forall. by intros t _ o [].
Qed.

(** C1: The byte quota and both row caps hold under concurrency, on an account whose stored rows all carry
    [updatedAt]: an account within any bounds not below the configured ones stays within them, its rows
    and its counters, however its requests (those of [request]) interleave, fail or crash. *)
Theorem vault_quota_and_caps_hold B clean s s' : idle s -> within B (db s) -> (∀ k, ceiling quota k <= B k) ->
  steps clean s s' -> within B (db s').
Proof.
  intros Hi HB Hceil Hst k.
  destruct (steps_inv B false clean s s' [] Hceil (idle_inv B s Hi HB) Hst) as [os [_ _ _ Hl Hb]].
  split; [apply Hb|]. intros c Hc. by apply (Hl k c Hc).
Qed.

(** C34: Without faults or crashes nothing is lost, on an account whose stored rows all carry [updatedAt]
    and whose counters are exact: once every request has finished, each installed counter is exactly
    what the account stores. *)
Theorem vault_counters_exact s s' : idle s -> (∀ k c, counter_of (db s) k = Some c -> c = totals (db s) k) ->
  steps true s s' -> Forall (λ t, running t = false) (tasks s') ->
  ∀ k c, counter_of (db s') k = Some c -> c = totals (db s') k.
Proof.
  intros Hi He Hst Hdone k c Hc. destruct (enough_room (db s)) as (B & HB & Hceil).
  destruct (steps_inv B true true s s' [] Hceil (idle_inv_exact B s Hi HB He) Hst) as [os [_ Ht _ Hl _]].
  destruct (Hl k c Hc) as (_ & H2 & _). specialize (H2 eq_refl). rewrite owed_zero in H2; [lia|].
  apply Forall_lookup. intros i o Ho. destruct (Forall2_lookup_r _ _ _ _ _ Ht Ho) as (t & Hti & [_ _ _ (db0 & _ & Hw)]).
  rewrite Forall_lookup in Hdone. specialize (Hdone i t Hti). unfold running in Hdone. by destruct (todo t) as [[]|].
Qed.

(** C10: The recount repairs, on an account whose stored rows all carry [updatedAt]: whatever faults and
    crashes came before, when the recount's compare-and-set takes place every counter is set to exactly
    what the account stores at that moment; a request that still holds a reservation always makes it
    miss. *)
Theorem recount_repairs clean s s1 i t0 X (c : cmd X) k db' r : idle s -> steps clean s s1 ->
  tasks s1 !! i = Some {| started := t0; todo := Call c k |} -> recounts c (db s1) = true ->
  outcome quota c (db s1) true db' r ->
  ∀ k, counter_of db' k = Some (totals db' k).
Proof.
  intros Hi Hst Htask Hrc Hout. destruct (enough_room (db s)) as (B & HB & Hceil).
  destruct (steps_inv B false clean s s1 [] Hceil (idle_inv B s Hi HB) Hst) as [os Hinv].
  destruct (inv_run B _ true s1 os i t0 X c k db' r Hceil Hinv Htask Hout) as (_ & _ & Hex). by apply Hex.
Qed.

(** ** Runs of one task *)

(** The first [n] commands of a program, run in order. *)
Fixpoint advance {R} (n : nat) (p : prog R) (db : DB) : DB * prog R :=
  match n, p with
  | S n', Call c k => advance n' (k (snd (exec quota c db))) (fst (exec quota c db))
  | _, _ => (db, p)
  end.

Fixpoint landing {R} (n : nat) (p : prog R) (db : DB) : bool :=
  match n, p with
  | S n', Call c k => lands c db && landing n' (k (snd (exec quota c db))) (fst (exec quota c db))
  | _, _ => true
  end.

Lemma steps_join b b' s s1 s2 : steps b s s1 -> steps b' s1 s2 -> steps (b && b') s s2.
Proof.
  intros H1 H2. induction H2 as [s1|b1 b2 s1 s2 s3 H2 IH Hlast]; [by rewrite andb_true_r|].
  rewrite andb_assoc. eapply steps_snoc; [by apply IH|done].
Qed.

Lemma one_step b s s' : step quota b s s' -> steps b s s'.
Proof. intros Hst. apply (steps_snoc true b s s s'); [apply steps_none|done]. Qed.

Lemma advance_steps n : ∀ s i t0 p, tasks s !! i = Some {| started := t0; todo := p |} -> landing n p (db s) = true ->
  steps true s {| db := fst (advance n p (db s));
                  tasks := <[i := {| started := t0; todo := snd (advance n p (db s)) |}]> (tasks s) |}.
Proof.
  induction n as [|n IH]; intros s i t0 p Hi Hl.
  - cbn [advance fst snd]. rewrite list_insert_id by done. destruct s. apply steps_none.
  - destruct p as [r|X c k]; [cbn [advance fst snd]; rewrite list_insert_id by done; destruct s; apply steps_none|].
    cbn [landing] in Hl. apply andb_true_iff in Hl as [Hland Hl].
    pose proof (step_run quota s i t0 X c k true _ _ Hi (outcome_ran quota c (db s) Hland)) as Hone.
    change true with (true && true). eapply steps_join; [by apply one_step|].
    pose proof (IH {| db := fst (exec quota c (db s));
                      tasks := <[i := {| started := t0; todo := k (snd (exec quota c (db s))) |}]> (tasks s) |} i t0
                   (k (snd (exec quota c (db s))))) as IH0. cbn [db tasks] in IH0.
    cbn [advance]. rewrite list_insert_insert_eq in IH0. apply IH0; [|done].
    apply list_lookup_insert_eq. by eapply lookup_lt_Some.
Qed.
End system.

(** ** Concrete runs *)

#[local] Existing Instance sampleStorage.
#[local] Existing Instance sampleLaws.

(** An account with one item of its own, its counters exact. *)
Definition sampleDB : DB :=
  {| account := Some {| counter := λ k, Some (counts 65 1 0 k); quotaEpoch := Some 5; vaultBytesWrittenAt := Some 100 |};
     rows := λ kind, match kind with item => {[1 := sampleRow 7]} | folder => ∅ end;
     creations := λ kind _, match kind with item => [Some (VDate 10)] | folder => [] end;
     clock := 1000 |}.

Definition sampleState : State := {| db := sampleDB; tasks := [] |}.
Definition sampleQuota : Z := 10000.

Lemma sample_idle : idle sampleState.
Proof.
  split; [done| |].
  - intros kind id doc Hd. destruct kind; cbn in Hd; [|done].
    apply lookup_singleton_Some in Hd as [<- <-]. split; [|left].
    split; [|by eexists]. split; intros v Hv; vm_compute in Hv; injection Hv as <-; eexists; done.
  - intros k c Hc. destruct k; vm_compute in Hc; injection Hc as <-; vm_compute; done.
Qed.

Lemma sample_exact k c : counter_of (db sampleState) k = Some c -> c = totals (db sampleState) k.
Proof. destruct k; intros Hc; vm_compute in Hc; injection Hc as <-; vm_compute; reflexivity. Qed.

(** One request begun on its own, [n] commands of it run. *)
Definition begun (rq : request) (n : nat) : State :=
  let r := advance sampleQuota n (handler sampleQuota rq) sampleDB in
  {| db := fst r; tasks := [{| started := 1000; todo := snd r |}] |}.

Lemma begun_steps rq n : request_ok rq -> landing sampleQuota n (handler sampleQuota rq) sampleDB = true ->
  steps sampleQuota true sampleState (begun rq n).
Proof.
  intros Hrq Hl. change true with (true && true). eapply steps_join.
  - apply one_step, step_spawn. exact Hrq.
  - unfold begun. revert Hl. change (clock (db sampleState)) with 1000. generalize (handler sampleQuota rq) as p. intros p Hl.
    exact (advance_steps sampleQuota n {| db := sampleDB; tasks := [{| started := 1000; todo := p |}] |} 0%nat 1000 p eq_refl Hl).
Qed.

(** The process dies. *)
Definition crashed (s : State) : State := {| db := db s; tasks := [{| started := 1000; todo := Done tt |}] |}.

Lemma crashed_steps s t : steps sampleQuota true sampleState s -> tasks s = [t] -> started t = 1000 ->
  steps sampleQuota false sampleState (crashed s).
Proof.
  intros Hs Ht Hst. change false with (true && false). eapply steps_join; [exact Hs|]. apply one_step.
  pose proof (step_crash sampleQuota s 0 t) as Hc. rewrite Ht, Hst in Hc. by apply Hc.
Qed.

Definition sampleData : Doc := {[js "data" := VOther [1; 2; 3]]}.

Lemma sample_create_ok : request_ok (R_create item 2 sampleData).
Proof. intros f Hf. revert f Hf. apply Forall_forall. repeat constructor. Qed.

Lemma sample_update_ok n : request_ok (R_update item (Some 1) (sampleUpdate n) (λ _, true) false).
Proof.
  intros f Hf. cbn [set_fields unset_fields sampleUpdate]. rewrite dom_singleton_L. intros [->%elem_of_singleton|[]%elem_of_empty]%elem_of_union.
  revert Hf. apply (bool_decide_unpack _). vm_compute. reflexivity.
Qed.

(** A create whose process dies after its reservation: the account is overcounted, never under. *)
Lemma vault_counters_never_undercount_witness :
  idle sampleState /\ ∃ s', steps sampleQuota false sampleState s' /\
    counter_of (db s') c_items = Some 2 /\ totals (db s') c_items = 1 /\ totals (db s') c_items <= 2.
Proof.
  pose proof (begun_steps (R_create item 2 sampleData) 2 sample_create_ok ltac:(vm_compute; reflexivity)) as Hst.
  pose proof (crashed_steps _ _ Hst eq_refl eq_refl) as Hcr.
  split; [exact sample_idle|]. eexists. split; [exact Hcr|]. split; [vm_compute; reflexivity|]. split; [vm_compute; reflexivity|].
  apply (vault_counters_never_undercount sampleQuota false sampleState _ sample_idle Hcr c_items). vm_compute. reflexivity.
Defined.

(** An update that grows a row to within the quota, run to its end. *)
Lemma vault_quota_and_caps_hold_witness :
  let B := ceiling sampleQuota in
  within B (db sampleState) /\ ∃ s', steps sampleQuota true sampleState s' /\
    totals (db s') c_bytes = 70 /\ within B (db s').
Proof.
  pose proof (begun_steps (R_update item (Some 1) (sampleUpdate 12) (λ _, true) false) 20 (sample_update_ok 12)
    ltac:(vm_compute; reflexivity)) as Hst.
  assert (within (ceiling sampleQuota) (db sampleState)) as HB.
  { intros k. split; [destruct k; vm_compute; discriminate|].
    intros c Hc. rewrite (sample_exact k c Hc). destruct k; vm_compute; discriminate. }
  split; [exact HB|]. eexists. split; [exact Hst|]. split; [vm_compute; reflexivity|].
  apply (vault_quota_and_caps_hold sampleQuota (ceiling sampleQuota) true sampleState _ sample_idle HB); [|exact Hst].
  intros k. apply Z.le_refl.
Defined.

Lemma vault_counters_exact_witness :
  ∃ s', steps sampleQuota true sampleState s' /\ counter_of (db s') c_bytes = Some 70 /\ 70 = totals (db s') c_bytes.
Proof.
  pose proof (begun_steps (R_update item (Some 1) (sampleUpdate 12) (λ _, true) false) 20 (sample_update_ok 12)
    ltac:(vm_compute; reflexivity)) as Hst.
  eexists. split; [exact Hst|]. split; [vm_compute; reflexivity|].
  apply (vault_counters_exact sampleQuota sampleState _ sample_idle sample_exact Hst).
  - apply Forall_cons. split; [vm_compute; reflexivity|apply Forall_nil; exact I].
  - vm_compute. reflexivity.
Defined.

(** The state of a recount begun a quarter of an hour after that crash, [n] commands into it. *)
Definition recounting (n : nat) : State :=
  let s := crashed (begun (R_create item 2 sampleData) 2) in
  let now := 1000 + 15 * 60 * 1000 in
  let r := advance sampleQuota n (handler sampleQuota R_recount) (set_clock now (db s)) in
  {| db := fst r; tasks := tasks s ++ [{| started := now; todo := snd r |}] |}.

Lemma recounting_steps n :
  landing sampleQuota n (handler sampleQuota R_recount)
    (set_clock (1000 + 15 * 60 * 1000) (db (crashed (begun (R_create item 2 sampleData) 2)))) = true ->
  steps sampleQuota false sampleState (recounting n).
Proof.
  pose proof (begun_steps (R_create item 2 sampleData) 2 sample_create_ok ltac:(vm_compute; reflexivity)) as Hst.
  pose proof (crashed_steps _ _ Hst eq_refl eq_refl) as Hcr. unfold recounting. revert Hcr.
  assert (clock (db (crashed (begun (R_create item 2 sampleData) 2))) = 1000) as Hc by (vm_compute; reflexivity).
  assert (tasks (crashed (begun (R_create item 2 sampleData) 2)) = [{| started := 1000; todo := Done tt |}]) as Ht by reflexivity.
  revert Hc Ht. generalize (crashed (begun (R_create item 2 sampleData) 2)) as s. intros s Hc Ht Hcr Hl.
  change false with (false && true). eapply steps_join; [exact Hcr|]. change true with (true && true).
  eapply steps_join; [apply one_step, (step_tick sampleQuota s (15 * 60 * 1000)); [lia|by rewrite Ht]|].
  rewrite Hc. change true with (true && true). eapply steps_join; [apply one_step, (step_spawn sampleQuota _ R_recount I)|].
  cbn [db tasks]. revert Hl. generalize (handler sampleQuota R_recount) as p. intros p Hl. rewrite Ht.
  exact (advance_steps sampleQuota n {| db := set_clock (1000 + 15 * 60 * 1000) (db s);
    tasks := [{| started := 1000; todo := Done tt |}; {| started := 1000 + 15 * 60 * 1000; todo := p |}] |} 1%nat _ p eq_refl Hl).
Qed.

(** The recount's set, the fifth command, takes the drift of the crash away. *)
Lemma recount_repairs_witness :
  ∃ X (c : cmd X) k, tasks (recounting 4) !! 1%nat = Some {| started := 901000; todo := Call c k |} /\
    counter_of (db (recounting 4)) c_items = Some 2 /\
    ∀ k, counter_of (fst (exec sampleQuota c (db (recounting 4)))) k =
           Some (totals (fst (exec sampleQuota c (db (recounting 4)))) k).
Proof.
  pose proof (recounting_steps 4 ltac:(vm_compute; reflexivity)) as Hst.
  assert (match tasks (recounting 4) !! 1%nat with
          | Some {| started := t0; todo := Call c _ |} => (t0 =? 901000) && recounts c (db (recounting 4)) && lands c (db (recounting 4))
          | _ => false end = true) as Hc by (vm_compute; reflexivity).
  assert (counter_of (db (recounting 4)) c_items = Some 2) as Hi by (vm_compute; reflexivity).
  revert Hc Hi Hst. generalize (recounting 4) as s1. intros s1 Hc Hi Hst.
  destruct (tasks s1 !! 1%nat) as [[t0 [[]|X c k]]|] eqn:Ht; [discriminate| |discriminate].
  apply andb_true_iff in Hc as [[Ht0%Z.eqb_eq Hrc]%andb_true_iff Hl]. subst t0.
  exists X, c, k. split; [reflexivity|]. split; [exact Hi|].
  exact (recount_repairs sampleQuota false sampleState s1 1 901000 X c k _ _ sample_idle Hst Ht Hrc (outcome_ran sampleQuota c (db s1) Hl)).
Defined.
