(* ===== verification/VaultQuotaAlone.v ===== *)
(** One request by itself: running alone and without faults, the reserve-write-settle protocol
    implements a vault that checks its limits against what it actually stores. *)
From S2P Require Import Prelude VaultQuota VaultQuotaSpec VaultQuotaOps VaultQuotaLogic.
From S2P Require Import VaultQuotaRules VaultQuotaRequests VaultQuotaSystem.
Local Open Scope Z_scope.

Section alone.
Context `{StorageLaws} (quota : Z).

Lemma run_bind {R S} (p : prog R) (f : R -> prog S) db :
  run quota (bind p f) db = let (db', r) := run quota p db in run quota (f r) db'.
Proof.
  revert db. induction p as [r|X c k IH]; intros db; cbn; [done|]. destruct (exec quota c db) as [db' x]. apply IH.
Qed.

Lemma run_await {R S} (p : async R) (f : R -> async S) db :
  run quota (await p f) db =
    match run quota p db with (db', Ok x) => run quota (f x) db' | (db', Throw e) => (db', Throw e) end.
Proof. unfold await. rewrite run_bind. by destruct (run quota p db) as [db' [x|e]]. Qed.

Lemma run_call {X} (c : cmd X) db :
  run quota (call c) db =
    match exec quota c db with (db', Ok x) => (db', Ok x) | (db', Throw e) => (db', Throw (Thrown e)) end.
Proof. cbn [call run]. by destruct (exec quota c db) as [db' [x|e]]. Qed.

Ltac run_step := rewrite run_await, run_call; cbn [exec].

(** ** The abstract vault *)

(** The refusal of a growth by [amounts] when [stored] is what the vault holds. *)
Definition refusal (amounts stored : Counts) : option VaultError :=
  if (0 <? amounts c_items) && (ROW_CAP item <? stored c_items + amounts c_items)
  then Some (VaultRowLimitError item (stored c_items))
  else if (0 <? amounts c_folders) && (ROW_CAP folder <? stored c_folders + amounts c_folders)
  then Some (VaultRowLimitError folder (stored c_folders))
  else if (0 <? amounts c_bytes) && (quota <? stored c_bytes + amounts c_bytes)
  then Some VaultQuotaExceededError
  else None.

Definition vault_create (kind : CountedKind) (id : Z) (data : Doc) (db : DB) : option Doc * result VaultError Doc :=
  match refusal (oneRowOf kind (countedBytesOfNew kind data)) (totals db), rows db kind !! id with
  | Some e, row => (row, Throw e)
  | None, Some doc => (Some doc, Throw (Thrown (serverError 11000)))
  | None, None => let doc := completeNew (clock db) (storedFields kind data) in (Some doc, Ok doc)
  end.

Definition vault_update (kind : CountedKind) (id : Z) (update : CountedUpdate) (extraFilter : Filter) (db : DB)
    : option Doc * result VaultError (option Doc) :=
  match find_row kind id extraFilter db with
  | None => (rows db kind !! id, Ok None)
  | Some doc =>
      let grown := deltaOfPinnedUpdate kind (measureImage kind doc update) update in
      match refusal (counts (Z.max 0 grown) 0 0) (totals db), applyPinned kind update (clock db) doc with
      | Some e, _ => (Some doc, Throw e)
      | None, Some doc' => (Some doc', Ok (Some doc'))
      | None, None => (Some doc, Throw (Thrown (serverError 14)))
      end
  end.

Definition vault_delete (id : Z) (db : DB) : option Doc * result VaultError unit :=
  match find_row item id trashed db with
  | None => (rows db item !! id, Throw NotFound)
  | Some doc => (None, Ok tt)
  end.

(** ** The protocol, alone *)

(** Every counter is installed and is what is stored. *)
Definition exact (db : DB) : Prop := ∃ a, account db = Some a /\ ∀ k, counter a k = Some (totals db k).

Definition reservable (amounts : Counts) : Prop := ∀ k, 0 <= amounts k <= MAX_SAFE_INTEGER.

Lemma assertReservable_ok name amount db : 0 <= amount <= MAX_SAFE_INTEGER ->
  run quota (assertReservable name amount) db = (db, Ok tt).
Proof. intros Ha. unfold assertReservable. by replace (_ && _) with true by lia. Qed.

Lemma room_refusal a amounts stored : (∀ k, counter a k = Some (stored k)) -> (∀ k, 0 <= amounts k) ->
  forallb (λ k, counterRoom (counter a k) (amounts k) (ceiling quota k)) COUNTER_PATHS =
    bool_decide (refusal amounts stored = None).
Proof.
  intros Hc Hp. cbn [forallb COUNTER_PATHS]. rewrite !Hc. cbn [counterRoom ceiling]. unfold refusal.
  pose proof (Hp c_bytes). pose proof (Hp c_items). pose proof (Hp c_folders).
  destruct (_ && (ROW_CAP item <? _)) eqn:E1; [rewrite bool_decide_eq_false_2 by done; lia|].
  destruct (_ && (ROW_CAP folder <? _)) eqn:E2; [rewrite bool_decide_eq_false_2 by done; lia|].
  destruct (_ && (quota <? _)) eqn:E3; [rewrite bool_decide_eq_false_2 by done; lia|].
  rewrite bool_decide_eq_true_2 by done. lia.
Qed.

(** A reservation with every counter installed is granted, or refused for the first thing that has
    no room. *)
Lemma reserve_installed amounts db a stored : account db = Some a -> (∀ k, counter a k = Some (stored k)) ->
  reservable amounts ->
  run quota (reserveVaultWrite quota amounts) db =
    match refusal amounts stored with
    | Some e => (db, Throw e)
    | None => (set_account (add_counts amounts (clock db) a) db, Ok amounts)
    end.
Proof.
  intros Ea Hc Ha. unfold reserveVaultWrite. do 3 (rewrite run_await, assertReservable_ok by apply Ha).
  pose proof (room_refusal a amounts stored Hc (λ k, proj1 (Ha k))) as Hroom.
  unfold RESERVE_ATTEMPTS. generalize 2%nat as n. intros n. cbn [reserve_loop]. do 2 run_step. rewrite Ea, Hroom.
  destruct (refusal amounts stored) as [e|] eqn:Er.
  - rewrite bool_decide_eq_false_2 by done. run_step. rewrite Ea. cbn [fmap option_fmap option_map]. rewrite !Hc.
    unfold refusal in Er. repeat (destruct (_ && _); [by injection Er as <-|]). done.
  - by rewrite bool_decide_eq_true_2.
Qed.

Lemma settle_alone reservation actual db a stored : account db = Some a -> (∀ k, counter a k = Some (stored k)) ->
  ∃ a', run quota (settleVaultWrite reservation actual) db = (set_account a' db, Ok tt) /\
    ∀ k, counter a' k = Some (stored k + (actual k - reservation k)).
Proof.
  intros Ea Hc. unfold settleVaultWrite, addVaultCounts. destruct (forallb _ COUNTER_PATHS) eqn:Ez.
  - exists a. cbn. split; [destruct db; cbn in *; by subst|]. intros k. rewrite forallb_forall in Ez.
    assert (In k COUNTER_PATHS) as Hin by (destruct k; cbn; tauto). specialize (Ez k Hin). rewrite Hc. f_equal. cbn in Ez. lia.
  - exists (add_counts (λ k, actual k - reservation k) (clock db) a).
    rewrite run_bind. run_step. rewrite run_call. cbn [exec]. rewrite Ea.
    replace (forallb _ COUNTER_PATHS) with true by (cbn [forallb COUNTER_PATHS]; rewrite !Hc; cbn; lia).
    split; [done|]. intros k. rewrite add_counts_of, Hc. done.
Qed.

(** ** Refinement *)

(** Run alone, [p] answers as the abstract operation does, leaves the row that operation leaves and
    no other row changed, and leaves the counters exact. *)
Definition refines {R} (p : async R) (kind : CountedKind) (id : Z) (spec : option Doc * result VaultError R) (db : DB) : Prop :=
  let '(db', r) := run quota p db in
  r = snd spec /\ exact db' /\ ∀ k i, rows db' k !! i = rows (set_row kind id (fst spec) db) k !! i.

Lemma set_row_same kind id db k i : rows db k !! i = rows (set_row kind id (rows db kind !! id) db) k !! i.
Proof. rewrite set_row_rows. case_decide as E; [|done]. by destruct E as [-> ->]. Qed.

(** A run that changes the account alone. *)
Lemma refines_same {R} (p : async R) kind id row r db a :
  run quota p db = (set_account a db, r) -> (∀ k, counter a k = Some (totals db k)) -> row = rows db kind !! id ->
  refines p kind id (row, r) db.
Proof.
  intros Hr Hc ->. unfold refines. rewrite Hr. split; [done|]. split; [exists a; by split|]. exact (set_row_same kind id db).
Qed.

Lemma refines_refused {R} (p : async R) kind id row r db :
  run quota p db = (db, r) -> exact db -> row = rows db kind !! id -> refines p kind id (row, r) db.
Proof.
  intros Hr Hex ->. unfold refines. rewrite Hr. split; [done|]. split; [done|]. apply set_row_same.
Qed.

(** A run that writes one row and settles. *)
Lemma refines_written {R} (p : async R) kind id row r db db1 a :
  run quota p db = (set_account a db1, r) -> rows db1 = rows (set_row kind id row db) ->
  (∀ k, counter a k = Some (totals db k + row_delta kind id row db k)) ->
  refines p kind id (row, r) db.
Proof.
  intros Hr Hrows Hc. unfold refines. rewrite Hr. split; [done|]. split.
  - exists a. split; [done|]. intros k. rewrite Hc. f_equal. unfold row_delta.
    assert (totals (set_account a db1) k = totals (set_row kind id row db) k) as -> by (unfold totals; cbn; by rewrite Hrows).
    rewrite totals_set_row. lia.
  - intros k i. cbn [fst]. rewrite <- Hrows. done.
Qed.

Lemma create_refines kind id data db : exact db ->
  (∀ f, f ∈ [f_v; f_createdAt; f_updatedAt] -> storedFields kind data !! f = None) ->
  countedBytesOfNew kind data <= MAX_SAFE_INTEGER ->
  refines (createCountedRow quota kind id data) kind id (vault_create kind id data db) db.
Proof.
  intros Hex Hfresh Hsz. destruct Hex as (a & Ea & Hc). unfold vault_create.
  set (amounts := oneRowOf kind (countedBytesOfNew kind data)).
  assert (reservable amounts) as Ha.
  { pose proof (countedBytes_pos kind (completeNew 0 (storedFields kind data))). intros k. unfold amounts, MAX_SAFE_INTEGER in *.
    fold (countedBytesOfNew kind data) in *. destruct kind, k; cbn; lia. }
  assert (∀ k, counter (add_counts amounts (clock db) a) k = Some (totals db k + amounts k)) as Hc1.
  { intros k. by rewrite add_counts_of, Hc. }
  pose proof (reserve_installed amounts db a (totals db) Ea Hc Ha) as Hres. fold amounts in Hres.
  destruct (refusal amounts (totals db)) as [e|] eqn:Er.
  - apply refines_refused; [|by exists a|done]. unfold createCountedRow. fold amounts. by rewrite run_await, Hres.
  - set (db1 := set_account (add_counts amounts (clock db) a) db) in *.
    destruct (rows db kind !! id) as [doc|] eqn:Ed.
    + destruct (settle_alone amounts (counts 0 0 0) db1 _ _ eq_refl Hc1) as (a' & Hrun & Hc').
      apply (refines_same _ _ _ _ _ _ a'); [|intros k; rewrite Hc'; f_equal; destruct k; cbn; lia|done].
      unfold createCountedRow. fold amounts. rewrite run_await, Hres. run_step. cbn [run exec]. change (rows db1) with (rows db). rewrite Ed.
      unfold releaseOnDefiniteFailure. change (isDefiniteWriteFailure (serverError 11000)) with true. cbn iota.
      unfold releaseVaultWrite. by rewrite run_await, Hrun.
    + set (doc := completeNew (clock db) (storedFields kind data)).
      set (db2 := add_creation kind id (doc !! f_createdAt) (set_row kind id (Some doc) db1)).
      destruct (settle_alone amounts (oneRowOf kind (countedBytes kind doc)) db2 _ _ eq_refl Hc1) as (a' & Hrun & Hc').
      apply (refines_written _ _ _ _ _ _ db2 a').
      * unfold createCountedRow. fold amounts. rewrite run_await, Hres. run_step. cbn [run exec]. change (rows db1) with (rows db). rewrite Ed.
        rewrite run_await. change (clock db1) with (clock db). fold doc. fold db2. by rewrite Hrun.
      * done.
      * intros k. rewrite Hc'. f_equal. unfold row_delta, amounts. rewrite Ed. cbn [row_counts].
        unfold doc. rewrite new_bytes by done. destruct k; cbn; lia.
Qed.

Lemma delete_refines id db : exact db ->
  refines (permanentDelete quota (Some id)) item id (vault_delete id db) db.
Proof.
  intros (a & Ea & Hc). unfold vault_delete.
  assert (∀ k, counter (add_counts (counts 0 0 0) (clock db) a) k = Some (totals db k)) as Hc1.
  { intros k. rewrite add_counts_of, Hc. cbn [fmap option_fmap option_map]. f_equal. destruct k; cbn [counts]; lia. }
  assert (reservable (counts 0 0 0)) as Ha by (unfold reservable, MAX_SAFE_INTEGER; intros []; cbn; lia).
  pose proof (reserve_installed (counts 0 0 0) db a (totals db) Ea Hc Ha) as Hres. change (refusal (counts 0 0 0) (totals db)) with (@None VaultError) in Hres.
  cbn iota in Hres. set (db1 := set_account (add_counts (counts 0 0 0) (clock db) a) db) in *.
  destruct (find_row item id trashed db) as [doc|] eqn:Ed.
  - destruct (settle_alone (counts 0 0 0) (counts (- countedBytes item doc) (-1) 0) (set_row item id None db1) _ _ eq_refl Hc1) as (a' & Hrun & Hc').
    apply (refines_written _ _ _ _ _ _ (set_row item id None db1) a').
    + unfold permanentDelete. rewrite run_await, Hres, run_await. unfold deleteCountedRow. rewrite run_call. cbn [exec].
      change (find_row item id trashed db1) with (find_row item id trashed db). rewrite Ed. exact Hrun.
    + done.
    + intros k. rewrite Hc'. f_equal. unfold row_delta. apply find_row_Some in Ed. rewrite Ed. destruct k; cbn; lia.
  - apply (refines_same _ _ _ _ _ _ (add_counts (counts 0 0 0) (clock db) a)); [|done|done].
    unfold permanentDelete. rewrite run_await, Hres, run_await. unfold deleteCountedRow. rewrite run_call. cbn [exec].
    change (find_row item id trashed db1) with (find_row item id trashed db). by rewrite Ed.
Qed.

Lemma update_refines kind id update extraFilter db : exact db -> sound db -> plain update ->
  writesCountedField kind update = true ->
  (∀ doc, find_row kind id extraFilter db = Some doc -> is_Some (nextVersion doc) /\
     deltaOfPinnedUpdate kind (measureImage kind doc update) update <= MAX_SAFE_INTEGER) ->
  refines (updateCountedRow quota kind (Some id) update extraFilter false) kind id (vault_update kind id update extraFilter db) db.
Proof.
  intros Hex Hs Hpl Hw Hdoc. destruct Hex as (a & Ea & Hc). unfold vault_update, updateCountedRow. rewrite Hw. cbn [negb].
  unfold PINNED_UPDATE_ATTEMPTS. generalize 2%nat as n. intros n. cbn [update_loop].
  destruct (find_row kind id extraFilter db) as [doc|] eqn:Ed.
  2: { apply refines_refused; [|by exists a|done]. run_step. by rewrite Ed. }
  destruct (Hdoc doc eq_refl) as [[v Hv] Hd]. set (measure := measureImage kind doc update) in *.
  set (d := deltaOfPinnedUpdate kind measure update) in *. set (amounts := counts (Z.max 0 d) 0 0).
  assert (reservable amounts) as Ha by (unfold reservable, amounts, MAX_SAFE_INTEGER in *; intros []; cbn; lia).
  assert (∀ k, counter (add_counts amounts (clock db) a) k = Some (totals db k + amounts k)) as Hc1.
  { intros k. by rewrite add_counts_of, Hc. }
  pose proof (reserve_installed amounts db a (totals db) Ea Hc Ha) as Hres.
  assert (versionPin measure doc = true) as Hpin by (unfold versionPin; cbn; by rewrite !bool_decide_eq_true_2).
  pose proof (find_row_Some _ _ _ _ _ Ed) as Erow.
  destruct (refusal amounts (totals db)) as [e|] eqn:Er.
  { apply refines_refused; [|by exists a|done]. run_step. rewrite Ed. cbn [fmap option_fmap option_map default]. fold measure.
    unfold sameIncarnation. rewrite bool_decide_eq_true_2 by done. cbn [negb]. rewrite run_await. cbn [run ret].
    fold d. fold amounts. by rewrite run_await, Hres. }
  destruct (applyPinned kind update (clock db) doc) as [doc'|] eqn:Ea'; [|unfold applyPinned in Ea'; by rewrite Hv in Ea'].
  pose proof (pinned_delta kind doc update (clock db) doc' Hpl (proj1 (proj1 (Hs kind id doc Erow))) Ea') as Hdelta.
  fold measure in Hdelta. fold d in Hdelta. set (db1 := set_account (add_counts amounts (clock db) a) db) in *.
  destruct (settle_alone amounts (counts (countedBytes kind doc' - counted measure) 0 0) (set_row kind id (Some doc') db1) _ _ eq_refl Hc1)
    as (a' & Hrun & Hc').
  apply (refines_written _ _ _ _ _ _ (set_row kind id (Some doc') db1) a').
  - run_step. rewrite Ed. cbn [fmap option_fmap option_map default]. fold measure.
    unfold sameIncarnation. rewrite bool_decide_eq_true_2 by done. cbn [negb]. rewrite run_await. cbn [run ret].
    fold d. fold amounts. rewrite run_await, Hres. run_step. cbn [run exec].
    change (find_row kind id extraFilter db1) with (find_row kind id extraFilter db). rewrite Ed, Hpin.
    change (clock db1) with (clock db). rewrite Ea'. rewrite run_await. by rewrite Hrun.
  - done.
  - intros k. rewrite Hc'. f_equal. unfold row_delta. rewrite Erow, !row_counts_eq. unfold amounts.
    cbn [counted measure measureImage]. destruct k, kind; cbn; lia.
Qed.

(** C11: Alone and without faults, creating, updating and permanently deleting a row implement the
    abstract vault, which has no counters and checks its limits against what it stores: the same
    answer, refusals in the same order of precedence included, the same row, no other row touched,
    and counters that are exact again. *)
Theorem requests_refine_vault db : exact db -> sound db ->
  (∀ kind id data, request_ok (R_create kind id data) -> countedBytesOfNew kind data <= MAX_SAFE_INTEGER ->
     refines (createCountedRow quota kind id data) kind id (vault_create kind id data db) db) /\
  (∀ kind id update extraFilter, plain update -> writesCountedField kind update = true ->
     (∀ doc, find_row kind id extraFilter db = Some doc -> is_Some (nextVersion doc) /\
        deltaOfPinnedUpdate kind (measureImage kind doc update) update <= MAX_SAFE_INTEGER) ->
     refines (updateCountedRow quota kind (Some id) update extraFilter false) kind id
       (vault_update kind id update extraFilter db) db) /\
  (∀ id, refines (permanentDelete quota (Some id)) item id (vault_delete id db) db).
Proof.
  intros Hex Hs. split; [|split].
  - intros kind id data Hok Hsz. by apply create_refines.
  - intros kind id update extraFilter Hpl Hw Hd. by apply update_refines.
  - intros id. by apply delete_refines.
Qed.

(** Moving or trashing a row that has no [updatedAt] is not byte-neutral: Mongoose adds the date,
    and no counter is told. *)
Lemma placement_grows_legacy_row kind update now doc :
  writesCountedField kind update = false -> stamped doc -> doc !! f_updatedAt = None ->
  countedBytes kind doc < countedBytes kind (applyPlacement kind update now doc).
Proof.
  intros Hw Hst Hu. rewrite placement_bytes, Hu, bool_decide_eq_false_2 by (done || by intros [? ?]).
  pose proof (entry_positive f_updatedAt (VDate 0)). lia.
Qed.
End alone.

#[local] Existing Instance sampleStorage.
#[local] Existing Instance sampleLaws.

Lemma requests_refine_vault_witness :
  exact sampleDB /\ sound sampleDB /\
  refines sampleQuota (createCountedRow sampleQuota item 2 sampleData) item 2 (vault_create sampleQuota item 2 sampleData sampleDB) sampleDB /\
  snd (vault_create 70 item 2 sampleData sampleDB) = Throw VaultQuotaExceededError /\
  refines 70 (createCountedRow 70 item 2 sampleData) item 2 (vault_create 70 item 2 sampleData sampleDB) sampleDB.
Proof.
  assert (exact sampleDB) as Hex by (eexists; split; [reflexivity|intros []; vm_compute; reflexivity]).
  assert (sound sampleDB) as Hs by apply sample_idle.
  assert (countedBytesOfNew item sampleData <= MAX_SAFE_INTEGER) as Hsz by (vm_compute; discriminate).
  split; [exact Hex|]. split; [exact Hs|]. split; [|split; [vm_compute; reflexivity|]].
  - exact (proj1 (requests_refine_vault sampleQuota sampleDB Hex Hs) item 2 sampleData sample_create_ok Hsz).
  - exact (proj1 (requests_refine_vault 70 sampleDB Hex Hs) item 2 sampleData sample_create_ok Hsz).
Defined.

(** Trashing a row stored without [updatedAt]. *)
Lemma placement_grows_legacy_row_witness :
  let doc := delete f_updatedAt (sampleRow 7) in
  let update := {| set_fields := {[js "deletedAt" := Some (VDate 40)]}; unset_fields := ∅ |} in
  stamped doc /\ countedBytes item doc < countedBytes item (applyPlacement item update 40 doc).
Proof.
  assert (stamped (delete f_updatedAt (sampleRow 7))) as Hst.
  { split; intros v Hv; vm_compute in Hv; [injection Hv as <-; eexists; done|discriminate]. }
  split; [exact Hst|]. apply placement_grows_legacy_row; [vm_compute; reflexivity|exact Hst|vm_compute; reflexivity].
Defined.
