(* ===== verification/FullBackup.v ===== *)
(** The full backup file, client/src/services/backup/fullBackupFormat.ts and the row schema it
    uses of shared/src/schemas/document.ts: the writer, the reader and their shared rules.

    Files are lists of bytes.  Zod is a library: its formats [base64] and [datetime] are parameters
    ([Zod]), while the schemas the sources build with it are translated field by field, with the
    path of the first issue.  JSON text and UTF-8 are the platform's ([TextCodec]); what the writer
    relies on is that parsing reads back what was serialised ([TextLaws]), for values without
    repeated keys. *)
From S2P Require Import Prelude.
Local Open Scope Z_scope.
Local Open Scope result_scope.

(** ** JSON values *)

(** [JReal] is a number that is not an integer, by its text. *)
#[warnings="-register-all"]
Inductive Json :=
  | JNull
  | JBool (b : bool)
  | JNum (n : Z)
  | JReal (text : jsstr)
  | JStr (s : jsstr)
  | JArr (items : list Json)
  | JObj (members : list (jsstr * Json)).

Fixpoint assoc (key : jsstr) (members : list (jsstr * Json)) : option Json :=
  match members with
  | [] => None
  | (k, v) :: rest => if bool_decide (k = key) then Some v else assoc key rest
  end.

(** Every object's keys are distinct, and none is an array index, which an object would reorder. *)
Definition index_like (key : jsstr) : bool := negb (length key =? 0)%nat && forallb (λ c, (48 <=? c) && (c <=? 57)) key.

Fixpoint plain_json (j : Json) : bool :=
  match j with
  | JArr items => forallb plain_json items
  | JObj members =>
      bool_decide (NoDup (map fst members)) && forallb (λ '(k, v), negb (index_like k) && plain_json v) members
  | _ => true
  end.

Class TextCodec := {
  stringify : Json -> jsstr;              (* [JSON.stringify] *)
  parse : jsstr -> option Json;           (* [JSON.parse], [None] for a SyntaxError *)
  encodeUtf8 : jsstr -> list Z;           (* [new TextEncoder().encode] *)
  decodeUtf8 : list Z -> option jsstr;    (* the fatal [TextDecoder], [None] when it throws *)
}.

Class TextLaws `{TextCodec} := {
  text_roundtrip j : plain_json j = true ->
    decodeUtf8 (encodeUtf8 (stringify j)) = Some (stringify j) /\ parse (stringify j) = Some j;
  object_text members : (2 <= length (encodeUtf8 (stringify (JObj members))))%nat;
}.

Class Zod := { isBase64 : jsstr -> bool; isDatetime : jsstr -> bool }.

(** ** Constants *)

Definition DOCUMENT_TAG_BYTES : Z := 16.
Definition DOCUMENT_STREAM_SALT_BYTES : Z := 32.
Definition DOCUMENT_NONCE_PREFIX_BYTES : Z := 7.
Definition MAX_DOCUMENT_CHUNK_COUNT : Z := 10000.
Definition MAX_DOCUMENTS_PER_ROTATION : Z := 5000 + 3.
Definition MAX_RESTORE_DATA_LENGTH : Z := 26214400.
Definition MAX_SAFE_INTEGER : Z := 9007199254740991.

Definition FULL_BACKUP_FORMAT : jsstr := js "hvault-full-backup".
Definition FULL_BACKUP_FORMAT_VERSION : Z := 1.
Definition FULL_BACKUP_HEADER_BYTES : Z := 16.
Definition FULL_BACKUP_FOOTER_BYTES : Z := 16.
Definition FULL_BACKUP_MAGIC : list Z := [72; 86; 70; 66; 13; 10; 26; 10].
Definition FOOTER_MAGIC : list Z := [72; 86; 70; 66; 69; 78; 68; 0].
Definition MAX_FULL_BACKUP_SEGMENT_PLAINTEXT_BYTES : Z := 64 * 1024 * 1024.
Definition MAX_FULL_BACKUP_MANIFEST_BYTES : Z := MAX_RESTORE_DATA_LENGTH + MAX_DOCUMENTS_PER_ROTATION * 56 * 1024.

(** ** Rows and manifests *)

Record DocumentResponse := {
  r_id : jsstr;
  folderId : option jsstr;
  favorite : bool;
  encryptedDek : jsstr; dekIv : jsstr; dekTag : jsstr;
  streamSalt : jsstr; noncePrefix : jsstr;
  encryptedMeta : jsstr; metaIv : jsstr; metaTag : jsstr;
  chunkPlaintextBytes : Z;
  chunkCount : Z;
  ciphertextBytes : Z;
  plaintextBytes : Z;
  purgePending : option bool;
  deletedAt : option jsstr;
  createdAt : jsstr;
  updatedAt : jsstr;
}.

Inductive OmittedReason := unreadable | deleted | contents_missing.
Record OmittedDocument := { o_id : jsstr; reason : OmittedReason }.
Record FullBackupEntry := { row : DocumentResponse; offset : Z; len : Z }.

Record FullBackupManifest := {
  m_createdAt : jsstr;
  vault : list (jsstr * Json);
  documents : list FullBackupEntry;
  omitted : list OmittedDocument;
  unlisted : Z;
}.

(** The framing identities. *)
Definition ceil_div (a b : Z) : Z := - ((- a) / b).
Definition documentChunkCountFor (plaintext chunk : Z) : Z := Z.max 1 (ceil_div plaintext chunk).
Definition documentPlaintextBytesFor (ciphertext count : Z) : Z := ciphertext - DOCUMENT_TAG_BYTES * count.
Definition documentCiphertextBytesFor (plaintext count : Z) : Z := plaintext + DOCUMENT_TAG_BYTES * count.

Definition hasConsistentFraming (plaintext chunk count : Z) : bool :=
  if chunk <=? 0 then true else count =? documentChunkCountFor plaintext chunk.

(** ** Schemas *)

Definition Path := list jsstr.
Definition Schema (A : Type) := option Json -> result Path A.

Section schemas.
Context `{Zod}.

Definition z_string (ok : jsstr -> bool) : Schema jsstr :=
  λ j, match j with Some (JStr s) => if ok s then Ok s else Throw [] | _ => Throw [] end.
Definition z_boolean : Schema bool := λ j, match j with Some (JBool b) => Ok b | _ => Throw [] end.
Definition z_int (ok : Z -> bool) : Schema Z :=
  λ j, match j with
       | Some (JNum n) => if (Z.abs n <=? MAX_SAFE_INTEGER) && ok n then Ok n else Throw []
       | _ => Throw []
       end.
Definition z_optional {A} (s : Schema A) : Schema (option A) :=
  λ j, match j with None => Ok None | Some _ => let? x := s j in Ok (Some x) end.

(** One member of an object schema; its issues carry its name. *)
Definition member {A} (members : list (jsstr * Json)) (name : jsstr) (s : Schema A) : result Path A :=
  match s (assoc name members) with Ok x => Ok x | Throw path => Throw (name :: path) end.

Definition z_object {A} (body : list (jsstr * Json) -> result Path A) : Schema A :=
  λ j, match j with Some (JObj members) => body members | _ => Throw [] end.

Fixpoint z_items {A} (s : Schema A) (index : nat) (items : list Json) : result Path (list A) :=
  match items with
  | [] => Ok []
  | j :: rest =>
      match s (Some j) with
      | Throw path => Throw (num (Z.of_nat index) :: path)
      | Ok x => let? xs := z_items s (S index) rest in Ok (x :: xs)
      end
  end.
Definition z_array {A} (s : Schema A) : Schema (list A) :=
  λ j, match j with Some (JArr items) => z_items s 0 items | _ => Throw [] end.

Definition nonempty (s : jsstr) : bool := (0 <? length s)%nat.
Definition lower_hex (n : nat) (s : jsstr) : bool :=
  (length s =? n)%nat && forallb (λ c, (48 <=? c) && (c <=? 57) || (97 <=? c) && (c <=? 102)) s.
Definition documentId : jsstr -> bool := lower_hex 24.

Definition ends_with (s suffix : jsstr) : bool := starts_with (rev s) (rev suffix).
Definition base64OfBytes (bytes : Z) (s : jsstr) : bool :=
  let length := ceil_div bytes 3 * 4 in
  let padding := Z.to_nat ((3 - bytes mod 3) mod 3) in
  isBase64 s && (Z.of_nat (List.length s) =? length)
  && ends_with s (repeat 61 padding) && negb (ends_with s (repeat 61 (S padding))).

Definition documentResponseFields (m : list (jsstr * Json)) : result Path DocumentResponse :=
  let? f_id := member m (js "_id") (z_string documentId) in
  let? f_folderId := member m (js "folderId") (z_optional (z_string (λ _, true))) in
  let? f_favorite := member m (js "favorite") z_boolean in
  let? f_encryptedDek := member m (js "encryptedDek") (z_string nonempty) in
  let? f_dekIv := member m (js "dekIv") (z_string nonempty) in
  let? f_dekTag := member m (js "dekTag") (z_string nonempty) in
  let? f_streamSalt := member m (js "streamSalt") (z_string (base64OfBytes DOCUMENT_STREAM_SALT_BYTES)) in
  let? f_noncePrefix := member m (js "noncePrefix") (z_string (base64OfBytes DOCUMENT_NONCE_PREFIX_BYTES)) in
  let? f_encryptedMeta := member m (js "encryptedMeta") (z_string nonempty) in
  let? f_metaIv := member m (js "metaIv") (z_string nonempty) in
  let? f_metaTag := member m (js "metaTag") (z_string nonempty) in
  let? f_chunkPlaintextBytes := member m (js "chunkPlaintextBytes") (z_int (λ n, 0 <? n)) in
  let? f_chunkCount := member m (js "chunkCount") (z_int (λ n, (1 <=? n) && (n <=? MAX_DOCUMENT_CHUNK_COUNT))) in
  let? f_ciphertextBytes := member m (js "ciphertextBytes") (z_int (λ n, DOCUMENT_TAG_BYTES <=? n)) in
  let? f_plaintextBytes := member m (js "plaintextBytes") (z_int (λ n, 0 <=? n)) in
  let? f_purgePending := member m (js "purgePending") (z_optional z_boolean) in
  let? f_deletedAt := member m (js "deletedAt") (z_optional (z_string (λ _, true))) in
  let? f_createdAt := member m (js "createdAt") (z_string nonempty) in
  let? f_updatedAt := member m (js "updatedAt") (z_string nonempty) in
  Ok {| r_id := f_id; folderId := f_folderId; favorite := f_favorite; encryptedDek := f_encryptedDek;
        dekIv := f_dekIv; dekTag := f_dekTag; streamSalt := f_streamSalt; noncePrefix := f_noncePrefix;
        encryptedMeta := f_encryptedMeta; metaIv := f_metaIv; metaTag := f_metaTag;
        chunkPlaintextBytes := f_chunkPlaintextBytes; chunkCount := f_chunkCount;
        ciphertextBytes := f_ciphertextBytes; plaintextBytes := f_plaintextBytes;
        purgePending := f_purgePending; deletedAt := f_deletedAt;
        createdAt := f_createdAt; updatedAt := f_updatedAt |}.

Definition documentResponseSchema : Schema DocumentResponse :=
  z_object (λ m,
    let? r := documentResponseFields m in
    if negb (hasConsistentFraming (plaintextBytes r) (chunkPlaintextBytes r) (chunkCount r))
    then Throw [js "chunkCount"]
    else if negb (plaintextBytes r =? documentPlaintextBytesFor (ciphertextBytes r) (chunkCount r))
    then Throw [js "ciphertextBytes"]
    else Ok r).

Definition z_reason : Schema OmittedReason :=
  λ j, match j with
       | Some (JStr s) =>
           if bool_decide (s = js "unreadable") then Ok unreadable
           else if bool_decide (s = js "deleted") then Ok deleted
           else if bool_decide (s = js "contents-missing") then Ok contents_missing
           else Throw []
       | _ => Throw []
       end.

Definition entrySchema : Schema FullBackupEntry :=
  z_object (λ m,
    let? e_row := member m (js "row") documentResponseSchema in
    let? e_offset := member m (js "offset") (z_int (λ n, FULL_BACKUP_HEADER_BYTES <=? n)) in
    let? e_length := member m (js "length") (z_int (λ n, DOCUMENT_TAG_BYTES <=? n)) in
    Ok {| row := e_row; offset := e_offset; len := e_length |}).

Definition omittedSchema : Schema OmittedDocument :=
  z_object (λ m,
    let? id := member m (js "id") (z_string documentId) in
    let? r := member m (js "reason") z_reason in
    Ok {| o_id := id; reason := r |}).

(** The manifest and its [integrity]. *)
Definition manifestSchema : Schema (FullBackupManifest * jsstr) :=
  z_object (λ m,
    let? _ := member m (js "format") (z_string (λ s, bool_decide (s = FULL_BACKUP_FORMAT))) in
    let? _ := member m (js "formatVersion") (z_int (λ n, n =? FULL_BACKUP_FORMAT_VERSION)) in
    let? f_createdAt := member m (js "createdAt") (z_string isDatetime) in
    let? f_vault := member m (js "vault") (z_object (λ members, Ok members)) in
    let? f_documents := member m (js "documents") (z_array entrySchema) in
    let? f_omitted := member m (js "omitted") (z_array omittedSchema) in
    let? f_unlisted := member m (js "unlisted") (z_int (λ n, (0 <=? n) && (n <=? MAX_DOCUMENTS_PER_ROTATION))) in
    let? integrity := member m (js "integrity") (z_string (lower_hex 64)) in
    Ok ({| m_createdAt := f_createdAt; vault := f_vault; documents := f_documents;
           omitted := f_omitted; unlisted := f_unlisted |}, integrity)).
End schemas.

(** ** The file *)

(** [n] big-endian bytes, and back. *)
Fixpoint toBytes (n : nat) (v : Z) : list Z :=
  match n with O => [] | S n' => Z.land (Z.shiftr v (8 * Z.of_nat n')) 255 :: toBytes n' v end.
Definition fromBytes (bytes : list Z) : Z := foldl (λ acc b, Z.shiftl acc 8 + b) 0 bytes.

Definition fullBackupHeader : list Z := FULL_BACKUP_MAGIC ++ toBytes 4 FULL_BACKUP_FORMAT_VERSION ++ [0; 0; 0; 0].
Definition fullBackupFooter (manifestBytes : Z) : list Z := FOOTER_MAGIC ++ toBytes 8 manifestBytes.

(** [file.slice(start, end)] on non-negative bounds. *)
Definition bytesOf (file : list Z) (start end_ : Z) : list Z := slice file (Z.to_nat start) (Z.to_nat end_).
Definition startsWith (bytes prefix : list Z) : bool := starts_with bytes prefix.

(** [isFullBackupFile] (fullBackupMagic.ts). *)
Definition isFullBackupFile (file : list Z) : bool := startsWith (bytesOf file 0 8) FULL_BACKUP_MAGIC.

(** The one row rule. *)
Definition unbackupableRow (r : DocumentResponse) : option jsstr :=
  if bool_decide (is_Some (deletedAt r)) || bool_decide (purgePending r = Some true)
  then Some (js "it lists a document that is in the trash or being deleted")
  else if MAX_FULL_BACKUP_SEGMENT_PLAINTEXT_BYTES <? chunkPlaintextBytes r
  then Some (js "it lists a document framed in segments larger than this version reads")
  else None.

(** [FullBackupFormatError], by its reason. *)
Inductive FullBackupFormatError := FormatError (reason : jsstr).

Section file.
Context `{TextCodec} `{Zod}.

Definition vaultBackupTooLarge (v : list (jsstr * Json)) : bool :=
  MAX_RESTORE_DATA_LENGTH <? Z.of_nat (length (stringify (JObj v))).

Definition canonicalManifest (members : list (jsstr * Json)) : jsstr :=
  stringify (JObj (List.filter (λ '(k, _), negb (bool_decide (k = js "integrity"))) members)).

Record OpenedFullBackup := { manifest : FullBackupManifest; signature : jsstr; signedPayload : jsstr }.

(** The length of a list member of the raw value, zero for anything else. *)
Definition lengthOf (raw : Json) (key : jsstr) : Z :=
  match raw with
  | JObj members => match assoc key members with Some (JArr items) => Z.of_nat (length items) | _ => 0 end
  | _ => 0
  end.

(** The document loop: the ids seen and the offset reached. *)
Fixpoint check_documents (entries : list FullBackupEntry) (seen : list jsstr) (expectedOffset : Z)
    : result FullBackupFormatError (list jsstr * Z) :=
  match entries with
  | [] => Ok (seen, expectedOffset)
  | entry :: rest =>
      match unbackupableRow (row entry) with
      | Some refusal => Throw (FormatError refusal)
      | None =>
          if bool_decide (r_id (row entry) ∈ seen) then Throw (FormatError (js "it lists a document twice"))
          else if negb (offset entry =? expectedOffset) || negb (len entry =? ciphertextBytes (row entry))
          then Throw (FormatError (js "its documents do not line up with its contents"))
          else check_documents rest (r_id (row entry) :: seen) (expectedOffset + len entry)
      end
  end.

Fixpoint check_omitted (left : list OmittedDocument) (seen : list jsstr) : result FullBackupFormatError (list jsstr) :=
  match left with
  | [] => Ok seen
  | o :: rest =>
      if bool_decide (o_id o ∈ seen) then Throw (FormatError (js "it lists a document twice"))
      else check_omitted rest (o_id o :: seen)
  end.

(** The checks of the header, down to the size of the manifest. *)
Definition readFrame (file : list Z) : result FullBackupFormatError Z :=
  let size := Z.of_nat (length file) in
  if size <? FULL_BACKUP_HEADER_BYTES + FULL_BACKUP_FOOTER_BYTES + 2 then Throw (FormatError (js "it is too short")) else
  let header := bytesOf file 0 FULL_BACKUP_HEADER_BYTES in
  if negb (startsWith header FULL_BACKUP_MAGIC) then Throw (FormatError (js "it does not start like one")) else
  let version := fromBytes (slice header 8 12) in
  if FULL_BACKUP_FORMAT_VERSION <? version then Throw (FormatError (js "it was made by a newer version of H-Vault")) else
  if negb (version =? FULL_BACKUP_FORMAT_VERSION) || negb (fromBytes (slice header 12 16) =? 0)
  then Throw (FormatError (js "its header is damaged")) else
  let footer := bytesOf file (size - FULL_BACKUP_FOOTER_BYTES) size in
  if negb (startsWith footer FOOTER_MAGIC)
  then Throw (FormatError (js "its end is missing, so it is incomplete or damaged")) else
  let declared := fromBytes (slice footer 8 16) in
  let room := size - FULL_BACKUP_HEADER_BYTES - FULL_BACKUP_FOOTER_BYTES in
  if Z.min MAX_FULL_BACKUP_MANIFEST_BYTES room <? declared
  then Throw (FormatError (js "its table of contents is larger than the file allows"))
  else Ok declared.

Definition openFullBackupFile (file : list Z) : result FullBackupFormatError OpenedFullBackup :=
  let? manifestBytes := readFrame file in
  let size := Z.of_nat (length file) in
  let manifestStart := size - FULL_BACKUP_FOOTER_BYTES - manifestBytes in
  match decodeUtf8 (bytesOf file manifestStart (size - FULL_BACKUP_FOOTER_BYTES)) ≫= parse with
  | None => Throw (FormatError (js "its table of contents is not readable"))
  | Some raw =>
      if MAX_DOCUMENTS_PER_ROTATION <? lengthOf raw (js "documents") + lengthOf raw (js "omitted")
      then Throw (FormatError (js "it lists more documents than an account can hold")) else
      match manifestSchema (Some raw), raw with
      | Throw path, _ =>
          Throw (FormatError (js "its table of contents is invalid"
            ++ match path with [] => [] | _ => js " at " ++ join (js ".") path end))
      | Ok (m, integrity), JObj members =>
          if vaultBackupTooLarge (vault m)
          then Throw (FormatError (js "its vault backup is larger than a restore accepts")) else
          let? (seen, expectedOffset) := check_documents (documents m) [] FULL_BACKUP_HEADER_BYTES in
          if negb (expectedOffset =? manifestStart)
          then Throw (FormatError (js "its documents do not line up with its contents")) else
          let? _ := check_omitted (omitted m) seen in
          Ok {| manifest := m; signature := integrity; signedPayload := canonicalManifest members |}
      | Ok _, _ => Throw (FormatError (js "its table of contents is invalid"))
      end
  end.

(** [readSegment] of an opened file. *)
Definition readSegment (file : list Z) (entry : FullBackupEntry) (index : Z) : result FullBackupFormatError (list Z) :=
  if (index <? 0) || (chunkCount (row entry) <=? index)
  then Throw (FormatError (js "a document asked for a part it does not have")) else
  let stride := chunkPlaintextBytes (row entry) + DOCUMENT_TAG_BYTES in
  let start := offset entry + index * stride in
  Ok (bytesOf file start (Z.min (offset entry + len entry) (start + stride))).

(** ** The writer *)

Definition optional_member (name : jsstr) (v : option Json) : list (jsstr * Json) :=
  match v with Some j => [(name, j)] | None => [] end.

Definition rowJson (r : DocumentResponse) : Json :=
  JObj ([(js "_id", JStr (r_id r))] ++ optional_member (js "folderId") (JStr <$> folderId r)
    ++ [(js "favorite", JBool (favorite r)); (js "encryptedDek", JStr (encryptedDek r)); (js "dekIv", JStr (dekIv r));
        (js "dekTag", JStr (dekTag r)); (js "streamSalt", JStr (streamSalt r)); (js "noncePrefix", JStr (noncePrefix r));
        (js "encryptedMeta", JStr (encryptedMeta r)); (js "metaIv", JStr (metaIv r)); (js "metaTag", JStr (metaTag r));
        (js "chunkPlaintextBytes", JNum (chunkPlaintextBytes r)); (js "chunkCount", JNum (chunkCount r));
        (js "ciphertextBytes", JNum (ciphertextBytes r)); (js "plaintextBytes", JNum (plaintextBytes r))]
    ++ optional_member (js "purgePending") (JBool <$> purgePending r)
    ++ optional_member (js "deletedAt") (JStr <$> deletedAt r)
    ++ [(js "createdAt", JStr (createdAt r)); (js "updatedAt", JStr (updatedAt r))]).

Definition reasonText (r : OmittedReason) : jsstr :=
  match r with unreadable => js "unreadable" | deleted => js "deleted" | contents_missing => js "contents-missing" end.

Definition entryJson (e : FullBackupEntry) : Json :=
  JObj [(js "row", rowJson (row e)); (js "offset", JNum (offset e)); (js "length", JNum (len e))].
Definition omittedJson (o : OmittedDocument) : Json :=
  JObj [(js "id", JStr (o_id o)); (js "reason", JStr (reasonText (reason o)))].

Definition manifestMembers (m : FullBackupManifest) : list (jsstr * Json) :=
  [(js "format", JStr FULL_BACKUP_FORMAT); (js "formatVersion", JNum FULL_BACKUP_FORMAT_VERSION);
   (js "createdAt", JStr (m_createdAt m)); (js "vault", JObj (vault m));
   (js "documents", JArr (map entryJson (documents m))); (js "omitted", JArr (map omittedJson (omitted m)));
   (js "unlisted", JNum (unlisted m))].

Inductive WriterError :=
  | CannotHold (refusal : jsstr)
  | SameDocumentTwice
  | DidNotAddUp
  | IncludedAndLeftOut
  | ManifestTooLarge.

(** [target] is what was written to the target; a write that fails ends the run. *)
Record FullBackupWriter := { target : list Z; w_documents : list FullBackupEntry; w_offset : Z }.

(** [begin] of a new writer. *)
Definition begun : FullBackupWriter :=
  {| target := fullBackupHeader; w_documents := []; w_offset := FULL_BACKUP_HEADER_BYTES |}.

Definition sizeWith (w : FullBackupWriter) (manifestBytes : Z) : Z := w_offset w + manifestBytes + FULL_BACKUP_FOOTER_BYTES.

Definition addDocument (w : FullBackupWriter) (r : DocumentResponse) (segments : list (list Z))
    : result WriterError FullBackupWriter :=
  match unbackupableRow r with
  | Some refusal => Throw (CannotHold refusal)
  | None =>
      if existsb (λ e, bool_decide (r_id (row e) = r_id r)) (w_documents w) then Throw SameDocumentTwice else
      let length := foldl (λ total segment, total + Z.of_nat (List.length segment)) 0 segments in
      if negb (length =? ciphertextBytes r) then Throw DidNotAddUp else
      Ok {| target := target w ++ mjoin segments;
            w_documents := w_documents w ++ [{| row := r; offset := w_offset w; len := length |}];
            w_offset := w_offset w + length |}
  end.

Fixpoint addDocuments (w : FullBackupWriter) (docs : list (DocumentResponse * list (list Z))) : result WriterError FullBackupWriter :=
  match docs with
  | [] => Ok w
  | (r, segments) :: rest => let? w' := addDocument w r segments in addDocuments w' rest
  end.

(** [sign] is [signFullBackupManifest] under the caller's key; [maxManifestBytes] the bound of the
    constructor.  The answer is the whole file. *)
Definition finish (maxManifestBytes : Z) (sign : jsstr -> jsstr) (w : FullBackupWriter) (f_createdAt : jsstr)
    (f_vault : list (jsstr * Json)) (f_omitted : list OmittedDocument) (f_unlisted : Z)
    : result WriterError (list Z * Z) :=
  if existsb (λ left, existsb (λ e, bool_decide (r_id (row e) = o_id left)) (w_documents w)) f_omitted
  then Throw IncludedAndLeftOut else
  let m := {| m_createdAt := f_createdAt; vault := f_vault; documents := w_documents w;
              omitted := f_omitted; unlisted := f_unlisted |} in
  let canonical := stringify (JObj (manifestMembers m)) in
  let integrity := sign canonical in
  let encoded := encodeUtf8 (stringify (JObj (manifestMembers m ++ [(js "integrity", JStr integrity)]))) in
  let size := Z.of_nat (length encoded) in
  if maxManifestBytes <? size then Throw ManifestTooLarge
  else Ok (target w ++ encoded ++ fullBackupFooter size, sizeWith w size).
End file.

(** ** Bytes *)

Lemma toBytes_length n v : length (toBytes n v) = n.
Proof. induction n as [|n IH]; [done|]. cbn. by rewrite IH. Qed.

Lemma toBytes_range n v : Forall (λ b, 0 <= b < 256) (toBytes n v).
Proof.
  induction n as [|n IH]; [constructor|]. constructor; [|done].
  change 255 with (Z.ones 8). rewrite Z.land_ones by done. apply Z.mod_pos_bound. done.
Qed.

Lemma fromBytes_toBytes_acc n v acc :
  foldl (λ acc b, Z.shiftl acc 8 + b) acc (toBytes n v) = acc * 2 ^ (8 * Z.of_nat n) + v mod 2 ^ (8 * Z.of_nat n).
Proof.
  revert acc. induction n as [|n IH]; intros acc; [cbn; rewrite Z.mod_1_r; lia|].
  cbn [toBytes foldl]. rewrite IH. set (m := 8 * Z.of_nat n) in *.
  replace (8 * Z.of_nat (S n)) with (m + 8) by lia. rewrite Z.pow_add_r by lia. change (2 ^ 8) with 256.
  rewrite Z.rem_mul_r by lia. rewrite Z.shiftl_mul_pow2 by done. change 255 with (Z.ones 8).
  rewrite Z.land_ones, Z.shiftr_div_pow2 by lia. change (2 ^ 8) with 256. lia.
Qed.

Lemma fromBytes_toBytes n v : 0 <= v < 2 ^ (8 * Z.of_nat n) -> fromBytes (toBytes n v) = v.
Proof. intros Hv. unfold fromBytes. rewrite fromBytes_toBytes_acc, Z.mod_small by done. lia. Qed.
