(* ===== verification/FullBackupSpec.v ===== *)
(** The reader of a full backup accounts for every byte and hands out exactly the stored objects.
    At the end, a text codec that satisfies the laws, for concrete runs. *)
From S2P Require Import Prelude FullBackup.
Local Open Scope Z_scope.
Local Open Scope result_scope.
#[local] Ltac Zify.zify_post_hook ::= Z.to_euclidean_division_equations.

(** ** Slices *)

Lemma slice_join {A} (s : list A) i j k : (i <= j <= k)%nat -> slice s i j ++ slice s j k = slice s i k.
Proof.
  intros Hij. unfold slice. replace (k - i)%nat with ((j - i) + (k - j))%nat by lia.
  rewrite <- (take_drop (j - i) (drop i s)) at 2. rewrite drop_drop. replace (i + (j - i))%nat with j by lia.
  destruct (decide (j - i <= length (drop i s))%nat) as [Hl|Hl].
  - rewrite take_app_ge by (rewrite length_take; lia). rewrite length_take, Nat.min_l by done.
    by replace (j - i + (k - j) - (j - i))%nat with (k - j)%nat by lia.
  - rewrite length_drop in Hl. rewrite (drop_ge s j) by lia. rewrite take_nil, !app_nil_r.
    rewrite take_take. f_equal. lia.
Qed.

(** Consecutive slices put back together. *)
Lemma slices_join {A} (s : list A) (a : nat -> nat) n : (∀ i, (i < n)%nat -> (a i <= a (S i))%nat) ->
  mjoin (map (λ i, slice s (a i) (a (S i))) (seq 0 n)) = slice s (a 0%nat) (a n).
Proof.
  intros Hmono. induction n as [|n IH].
  - cbn. unfold slice. by rewrite Nat.sub_diag.
  - rewrite seq_S, map_app, join_app. cbn [map]. change (mjoin [slice s (a (0 + n)%nat) (a (S (0 + n)))]) with (slice s (a n) (a (S n)) ++ []). rewrite app_nil_r, IH by (intros; apply Hmono; lia).
    apply slice_join. split; [|apply Hmono; lia]. clear IH.
    assert (∀ m, (m <= n)%nat -> (a 0 <= a m)%nat) as Ha; [|by apply Ha].
    induction m as [|m IHm]; intros Hm; [lia|]. specialize (IHm ltac:(lia)). specialize (Hmono m ltac:(lia)). lia.
Qed.

(** ** What the schemas promise *)

Section schemas.
Context `{Zod}.

Lemma let_Ok {E A B} (m : result E A) (f : A -> result E B) y : result_bind m f = Ok y -> ∃ x, m = Ok x /\ f x = Ok y.
Proof. destruct m as [x|e]; [by exists x|done]. Qed.

Lemma member_Ok {A} members name (s : Schema A) x : member members name s = Ok x -> s (assoc name members) = Ok x.
Proof. unfold member. by destruct (s (assoc name members)). Qed.

Lemma z_int_Ok ok j n : z_int ok j = Ok n -> Z.abs n <= MAX_SAFE_INTEGER /\ ok n = true.
Proof.
  unfold z_int. destruct j as [[]|]; try done. destruct (_ && _) eqn:E; [|done]. intros [= ->]. apply andb_true_iff in E as [E ?]. split; [lia|done].
Qed.

(** A row's sizes, and the identities between them. *)
Record framed (r : DocumentResponse) : Prop := {
  fr_chunk : 0 < chunkPlaintextBytes r;
  fr_count : 1 <= chunkCount r <= MAX_DOCUMENT_CHUNK_COUNT;
  fr_plaintext : 0 <= plaintextBytes r;
  fr_identity : ciphertextBytes r = documentCiphertextBytesFor (plaintextBytes r) (chunkCount r);
  fr_derived : chunkCount r = documentChunkCountFor (plaintextBytes r) (chunkPlaintextBytes r);
}.

Ltac next_member H := let x := fresh "x" in let E := fresh "E" in apply let_Ok in H as (x & E & H); apply member_Ok in E.

Lemma row_framed j r : documentResponseSchema j = Ok r -> framed r.
Proof.
  unfold documentResponseSchema, z_object. destruct j as [[]|]; try done. intros Hr.
  apply let_Ok in Hr as (r' & Hf & Hr).
  destruct (hasConsistentFraming _ _ _) eqn:Ec; [|done]. destruct (_ =? _) eqn:Es; [|done]. injection Hr as ->.
  unfold documentResponseFields in Hf. do 19 next_member Hf. injection Hf as <-.
  cbn [plaintextBytes chunkPlaintextBytes chunkCount ciphertextBytes] in *.
  repeat match goal with E : z_int _ _ = Ok _ |- _ => apply z_int_Ok in E end.
  unfold hasConsistentFraming, documentPlaintextBytesFor in *. unfold documentCiphertextBytesFor.
  destruct (_ <=? 0) eqn:Epos; [lia|]. split; cbn; unfold documentCiphertextBytesFor; lia.
Qed.

Lemma z_items_Forall {A} (s : Schema A) (P : A -> Prop) i items xs :
  (∀ j x, s (Some j) = Ok x -> P x) -> z_items s i items = Ok xs -> Forall P xs.
Proof.
  intros HP. revert i xs. induction items as [|j items IH]; intros i xs Hx; cbn in Hx; [injection Hx as <-; constructor|].
  destruct (s (Some j)) as [x|] eqn:Ex; [|done]. apply let_Ok in Hx as (xs' & Exs & [= <-]).
  constructor; [by apply (HP j)|by apply (IH (S i))].
Qed.

Lemma entry_framed j e : entrySchema j = Ok e -> framed (row e).
Proof.
  unfold entrySchema, z_object. destruct j as [[]|]; try done. intros He. do 3 next_member He. injection He as <-.
  cbn [row]. by eapply row_framed.
Qed.

Lemma manifest_framed j m integrity : manifestSchema j = Ok (m, integrity) -> Forall (λ e, framed (row e)) (documents m).
Proof.
  unfold manifestSchema, z_object. destruct j as [[]|]; try done. intros Hm. do 8 next_member Hm. injection Hm as <- <-.
  cbn [documents]. unfold z_array in E3. destruct (assoc (js "documents") members) as [[]|]; try done.
  eapply z_items_Forall; [|exact E3]. intros j e. apply entry_framed.
Qed.
End schemas.

(** ** The entries tile the region *)

Fixpoint tiles (es : list FullBackupEntry) (start stop : Z) : Prop :=
  match es with
  | [] => start = stop
  | e :: rest => offset e = start /\ tiles rest (start + len e) stop
  end.

Definition entry_id (e : FullBackupEntry) : jsstr := r_id (row e).

Lemma check_documents_Ok es seen start seen' stop : check_documents es seen start = Ok (seen', stop) ->
  tiles es start stop /\ seen' = rev (map entry_id es) ++ seen /\
  Forall (λ e, unbackupableRow (row e) = None /\ len e = ciphertextBytes (row e)) es /\
  (NoDup seen -> NoDup seen').
Proof.
  revert seen start. induction es as [|e es IH]; intros seen start Hc; cbn [check_documents] in Hc.
  - injection Hc as <- <-. by repeat split.
  - destruct (unbackupableRow (row e)) eqn:Eu; [done|]. destruct (bool_decide _) eqn:Ed; [done|].
    destruct (_ || _) eqn:Eo; [done|]. apply bool_decide_eq_false_1 in Ed.
    destruct (IH _ _ Hc) as (Ht & -> & Hf & Hnd). split; [split; [lia|done]|]. split.
    { cbn [map rev]. unfold entry_id at 3. by rewrite <- app_assoc. }
    split; [constructor; [split; [done|lia]|done]|]. intros Hs. apply Hnd. by constructor.
Qed.

Lemma check_omitted_Ok os seen seen' : check_omitted os seen = Ok seen' ->
  seen' = rev (map o_id os) ++ seen /\ (NoDup seen -> NoDup seen').
Proof.
  revert seen. induction os as [|o os IH]; intros seen Hc; cbn in Hc; [by injection Hc as <-|].
  destruct (bool_decide _) eqn:Ed; [done|]. apply bool_decide_eq_false_1 in Ed.
  destruct (IH _ Hc) as [-> Hnd]. split; [cbn; by rewrite <- app_assoc|]. intros Hs. apply Hnd. by constructor.
Qed.

(** The bytes of the region are the documents', one after the other. *)
Lemma tiles_region file es start stop : tiles es start stop -> 0 <= start -> Forall (λ e, 0 <= len e) es ->
  mjoin (map (λ e, bytesOf file (offset e) (offset e + len e)) es) = bytesOf file start stop /\ start <= stop.
Proof.
  revert start. induction es as [|e es IH]; intros start Ht Hs Hl; cbn in Ht.
  - subst. cbn. unfold bytesOf, slice. rewrite Nat.sub_diag. split; [done|lia].
  - destruct Ht as [Ho Ht]. apply Forall_cons in Hl as [Hle Hl]. destruct (IH _ Ht ltac:(lia) Hl) as [IHr IHs].
    split; [|lia]. cbn [map]. change (mjoin (?x :: ?l)) with (x ++ mjoin l). rewrite IHr, Ho. unfold bytesOf.
    apply slice_join. lia.
Qed.

(** Every entry lies inside. *)
Lemma tiles_entry es start stop e : tiles es start stop -> 0 <= start -> Forall (λ e, 0 <= len e) es -> e ∈ es ->
  start <= offset e /\ offset e + len e <= stop.
Proof.
  revert start. induction es as [|e' es IH]; intros start Ht Hs Hl He; [by apply elem_of_nil in He|].
  destruct Ht as [Ho Ht]. apply Forall_cons in Hl as [Hle Hl]. apply elem_of_cons in He as [->|He].
  - destruct (tiles_region [] es _ _ Ht ltac:(lia) Hl) as [_ ?]. lia.
  - destruct (IH _ Ht ltac:(lia) Hl He). lia.
Qed.

(** ** Segments *)

Lemma framing_bounds r : framed r -> let P := chunkPlaintextBytes r in let n := chunkCount r in
  plaintextBytes r <= n * P /\ (1 < n -> (n - 1) * P < plaintextBytes r).
Proof.
  intros [HP Hn Hpt _ Hd]. cbn zeta. unfold documentChunkCountFor, ceil_div in Hd.
  pose proof (Z.div_mod (- plaintextBytes r) (chunkPlaintextBytes r) ltac:(lia)) as Hdm.
  pose proof (Z.mod_pos_bound (- plaintextBytes r) (chunkPlaintextBytes r) HP) as Hm.
  set (q := - plaintextBytes r / chunkPlaintextBytes r) in *. rewrite Hd. split; nia.
Qed.

Section segments.
Context (file : list Z) (e : FullBackupEntry).
Hypothesis Hframed : framed (row e).
Hypothesis Hlen : len e = ciphertextBytes (row e).
Hypothesis Hpos : 0 <= offset e.

Let stride : Z := chunkPlaintextBytes (row e) + DOCUMENT_TAG_BYTES.

(** Where segment [i] starts, or the object ends. *)
Definition cut (i : nat) : nat := Z.to_nat (offset e + Z.min (len e) (Z.of_nat i * stride)).

Lemma stride_bounds : len e <= chunkCount (row e) * stride /\ ∀ i, 0 <= i < chunkCount (row e) -> i * stride <= len e.
Proof.
  pose proof (framing_bounds _ Hframed) as [Hle Hlt]. destruct Hframed as [HP Hn Hpt Hid _].
  unfold documentCiphertextBytesFor in Hid. unfold stride, DOCUMENT_TAG_BYTES in *. rewrite Hlen, Hid.
  split; [nia|]. intros i Hi. destruct (Z.eq_dec (chunkCount (row e)) 1) as [E|E]; [nia|].
  specialize (Hlt ltac:(lia)). nia.
Qed.

Lemma readSegment_cut i : 0 <= i < chunkCount (row e) ->
  readSegment file e i = Ok (slice file (cut (Z.to_nat i)) (cut (S (Z.to_nat i)))).
Proof.
  intros Hi. destruct stride_bounds as [_ Hs]. specialize (Hs i Hi). unfold readSegment.
  destruct (_ || _) eqn:E; [lia|]. fold stride. unfold bytesOf, cut. rewrite Nat2Z.inj_succ, !Z2Nat.id by lia.
  do 3 f_equal; lia.
Qed.

Lemma cut_mono i : (cut i <= cut (S i))%nat.
Proof.
  destruct Hframed as [HP _ _ _ _]. unfold cut, stride, DOCUMENT_TAG_BYTES. rewrite Nat2Z.inj_succ. nia.
Qed.

(** The segments are the stored object, in order. *)
Lemma segments_join :
  mjoin (map (λ i, slice file (cut i) (cut (S i))) (seq 0 (Z.to_nat (chunkCount (row e))))) =
    bytesOf file (offset e) (offset e + len e).
Proof.
  rewrite slices_join by (intros; apply cut_mono). destruct stride_bounds as [Hle Hs]. pose proof (fr_count _ Hframed) as Hn.
  specialize (Hs 0 ltac:(lia)). unfold bytesOf, cut. rewrite Z2Nat.id by lia. f_equal; lia.
Qed.

(** Each is one run of plaintext and a tag. *)
Lemma segment_length i : 0 <= i < chunkCount (row e) -> offset e + len e <= Z.of_nat (length file) ->
  Z.of_nat (length (slice file (cut (Z.to_nat i)) (cut (S (Z.to_nat i))))) =
    Z.min (chunkPlaintextBytes (row e)) (plaintextBytes (row e) - i * chunkPlaintextBytes (row e)) + DOCUMENT_TAG_BYTES.
Proof.
  intros Hi Hfile. destruct stride_bounds as [Hle Hs]. specialize (Hs i Hi).
  pose proof (framing_bounds _ Hframed) as [Hb1 Hb2]. destruct Hframed as [HP Hn Hpt Hid _].
  rewrite length_slice by (unfold cut; lia). unfold cut. rewrite Nat2Z.inj_succ, !Z2Nat.id by lia.
  unfold documentCiphertextBytesFor in Hid. unfold stride, DOCUMENT_TAG_BYTES in *. rewrite Hlen, Hid in *.
  destruct (Z.eq_dec i (chunkCount (row e) - 1)) as [->|E].
  - destruct (Z.eq_dec (chunkCount (row e)) 1) as [E1|E1]; [rewrite E1 in *; nia|]. specialize (Hb2 ltac:(lia)). nia.
  - specialize (Hb2 ltac:(lia)). nia.
Qed.
End segments.

(** ** The reader *)

Section reader.
Context `{TextCodec} `{Zod}.

Lemma fromBytes_pos bytes : Forall (λ b, 0 <= b < 256) bytes -> 0 <= fromBytes bytes.
Proof.
  unfold fromBytes. intros Hb. assert (∀ acc, 0 <= acc -> 0 <= foldl (λ acc b, Z.shiftl acc 8 + b) acc bytes) as Ha; [|by apply Ha].
  induction Hb as [|b bytes Hb _ IH]; intros acc Hacc; cbn; [done|]. apply IH. rewrite Z.shiftl_mul_pow2; lia.
Qed.

Lemma readFrame_Ok file n : Forall (λ b, 0 <= b < 256) file -> readFrame file = Ok n ->
  startsWith file FULL_BACKUP_MAGIC = true /\ 0 <= n <= MAX_FULL_BACKUP_MANIFEST_BYTES /\
  FULL_BACKUP_HEADER_BYTES + n + FULL_BACKUP_FOOTER_BYTES <= Z.of_nat (length file).
Proof.
  intros Hb. unfold readFrame. cbv zeta.
  repeat match goal with |- (if ?b then Throw _ else _) = _ -> _ => destruct b eqn:?; [done|] end.
  intros Hr. apply Ok_inj in Hr. rewrite <- Hr. split; [|split; [split; [|lia]|lia]].
  - match goal with E : negb (startsWith _ FULL_BACKUP_MAGIC) = false |- _ => apply negb_false_iff in E; rename E into E2 end.
    clear -E2. unfold bytesOf, slice, startsWith in *. cbn in E2.
    do 8 (destruct file as [|? file]; [done|]). exact E2.
  - apply fromBytes_pos. unfold bytesOf, slice. repeat (apply Forall_take || apply Forall_drop). done.
Qed.

Lemma open_Ok file o : openFullBackupFile file = Ok o ->
  ∃ n seen, readFrame file = Ok n /\
    Forall (λ e, framed (row e)) (documents (manifest o)) /\
    check_documents (documents (manifest o)) [] FULL_BACKUP_HEADER_BYTES =
      Ok (seen, Z.of_nat (length file) - FULL_BACKUP_FOOTER_BYTES - n) /\
    ∃ seen', check_omitted (omitted (manifest o)) seen = Ok seen'.
Proof.
  unfold openFullBackupFile. intros Ho. apply let_Ok in Ho as (n & Hn & Ho).
  destruct (_ ≫= _) as [raw|]; [|done]. destruct (_ <? _); [done|].
  destruct (manifestSchema (Some raw)) as [[m integrity]|] eqn:Em; [|by destruct raw].
  destruct raw; try done. destruct (vaultBackupTooLarge _); [done|].
  apply let_Ok in Ho as ([seen stop] & Hc & Ho). destruct (negb _) eqn:Est; [done|].
  apply let_Ok in Ho as (seen' & Hom & [= <-]). cbn [manifest]. exists n, seen. split; [done|].
  split; [by eapply manifest_framed|]. split; [|by exists seen']. rewrite Hc. do 2 f_equal. lia.
Qed.

(** C19: A file the reader accepts is accounted for to the byte: it starts with the magic, its
    document entries lie one after the other from the header to the manifest, so the region is
    exactly their bytes; no document is named twice, included or left out; every row is one that
    can be backed up; and the segments [readSegment] hands out for an entry are, in order, exactly
    its stored object, each one run of plaintext and one tag, with any other index refused. *)
Theorem openFullBackupFile_sound file o : Forall (λ b, 0 <= b < 256) file -> openFullBackupFile file = Ok o ->
  startsWith file FULL_BACKUP_MAGIC = true /\
  (∃ n, readFrame file = Ok n /\
     tiles (documents (manifest o)) FULL_BACKUP_HEADER_BYTES (Z.of_nat (length file) - FULL_BACKUP_FOOTER_BYTES - n) /\
     mjoin (map (λ e, bytesOf file (offset e) (offset e + len e)) (documents (manifest o))) =
       bytesOf file FULL_BACKUP_HEADER_BYTES (Z.of_nat (length file) - FULL_BACKUP_FOOTER_BYTES - n)) /\
  NoDup (map entry_id (documents (manifest o)) ++ map o_id (omitted (manifest o))) /\
  Forall (λ e, unbackupableRow (row e) = None /\ len e = ciphertextBytes (row e) /\
    ∃ pieces : Z -> list Z,
      (∀ i, 0 <= i < chunkCount (row e) -> readSegment file e i = Ok (pieces i) /\
         Z.of_nat (length (pieces i)) =
           Z.min (chunkPlaintextBytes (row e)) (plaintextBytes (row e) - i * chunkPlaintextBytes (row e)) + DOCUMENT_TAG_BYTES) /\
      (∀ i, ~ 0 <= i < chunkCount (row e) -> ∃ err, readSegment file e i = Throw err) /\
      mjoin (map (λ i, pieces (Z.of_nat i)) (seq 0 (Z.to_nat (chunkCount (row e))))) =
        bytesOf file (offset e) (offset e + len e)) (documents (manifest o)).
Proof.
  intros Hb Ho. destruct (open_Ok file o Ho) as (n & seen & Hn & Hfr & Hc & seen' & Hom).
  destruct (readFrame_Ok file n Hb Hn) as (Hmagic & Hmax & Hroom). split; [done|].
  destruct (check_documents_Ok _ _ _ _ _ Hc) as (Ht & -> & Hrows & Hnd).
  destruct (check_omitted_Ok _ _ _ Hom) as [-> Hnd'].
  assert (Forall (λ e, 0 <= len e) (documents (manifest o))) as Hl.
  { apply Forall_forall. intros e He. rewrite Forall_forall in Hrows, Hfr. destruct (Hrows e He) as [_ ->].
    destruct (Hfr e He) as [? ? ? -> _]. unfold documentCiphertextBytesFor, DOCUMENT_TAG_BYTES. lia. }
  destruct (tiles_region file _ _ _ Ht ltac:(done) Hl) as [Hreg _]. split; [by exists n|]. split.
  { rewrite app_nil_r in Hnd', Hnd. rewrite <- rev_app_distr in Hnd'. specialize (Hnd' (Hnd (NoDup_nil_2))).
    rewrite <- (rev_involutive (_ ++ _)). apply NoDup_ListNoDup, List.NoDup_rev, NoDup_ListNoDup, Hnd'. }
  apply Forall_forall. intros e He. rewrite Forall_forall in Hrows, Hfr, Hl.
  destruct (Hrows e He) as [Hu Hle]. pose proof (Hfr e He) as Hf. split; [done|]. split; [done|].
  destruct (tiles_entry _ _ _ e Ht ltac:(done) ltac:(by apply Forall_forall) He) as [Hoff Hend].
  unfold FULL_BACKUP_HEADER_BYTES, FULL_BACKUP_FOOTER_BYTES in *.
  exists (λ i, slice file (cut e (Z.to_nat i)) (cut e (S (Z.to_nat i)))). split; [|split].
  - intros i Hi. split; [apply readSegment_cut; (done || lia)|]. apply segment_length; (done || lia).
  - intros i Hi. unfold readSegment. destruct (_ || _) eqn:E; [by eexists|lia].
  - rewrite <- (segments_join file e Hf Hle ltac:(lia)). f_equal. apply map_ext. intros i. by rewrite Nat2Z.id.
Qed.
End reader.

Local Open Scope Z_scope.

Section induction.
Context (P : Json -> Prop).
Hypothesis Pleaf : ∀ j, match j with JArr _ | JObj _ => False | _ => True end -> P j.
Hypothesis Parr : ∀ items, Forall P items -> P (JArr items).
Hypothesis Pobj : ∀ members, Forall (λ m, P (snd m)) members -> P (JObj members).

Fixpoint Json_nested_ind (j : Json) : P j :=
  match j with
  | JArr items => Parr items ((fix go l : Forall P l :=
      match l with [] => List.Forall_nil _ | x :: l' => List.Forall_cons _ x l' (Json_nested_ind x) (go l') end) items)
  | JObj members => Pobj members ((fix go l : Forall (λ m, P (snd m)) l :=
      match l with [] => List.Forall_nil _ | x :: l' => List.Forall_cons _ x l' (Json_nested_ind (snd x)) (go l') end) members)
  | JNull => Pleaf JNull I
  | JBool b => Pleaf (JBool b) I
  | JNum n => Pleaf (JNum n) I
  | JReal t => Pleaf (JReal t) I
  | JStr s => Pleaf (JStr s) I
  end.
End induction.

Abbreviation Tree := (gen_tree (bool + Z + list Z)).

Fixpoint toTree (j : Json) : Tree :=
  match j with
  | JNull => GenNode 0 []
  | JBool b => GenLeaf (inl (inl b))
  | JNum n => GenLeaf (inl (inr n))
  | JReal t => GenNode 1 [GenLeaf (inr t)]
  | JStr s => GenLeaf (inr s)
  | JArr items => GenNode 2 (map toTree items)
  | JObj members => GenNode 3 (map (λ '(k, v), GenNode 4 [GenLeaf (inr k); toTree v]) members)
  end.

Fixpoint ofTree (t : Tree) : Json :=
  match t with
  | GenLeaf (inl (inl b)) => JBool b
  | GenLeaf (inl (inr n)) => JNum n
  | GenLeaf (inr s) => JStr s
  | GenNode 1 [GenLeaf (inr t)] => JReal t
  | GenNode 2 ts => JArr (map ofTree ts)
  | GenNode 3 ts => JObj (map (λ t, match t with GenNode 4 [GenLeaf (inr k); v] => (k, ofTree v) | _ => ([], JNull) end) ts)
  | GenNode _ _ => JNull
  end.

Lemma ofTree_toTree j : ofTree (toTree j) = j.
Proof.
  induction j as [j Hj|items IH|members IH] using Json_nested_ind.
  - by destruct j.
  - cbn. f_equal. rewrite map_map. induction IH as [|x l Hx _ IH]; cbn; [done|]. by rewrite Hx, IH.
  - cbn. f_equal. rewrite map_map. induction IH as [|[k v] l Hx _ IH]; cbn; [done|]. cbn in Hx. by rewrite Hx, IH.
Qed.

Definition sampleCodec : TextCodec :=
  {| stringify := λ j, [0; Zpos (encode (toTree j))];
     parse := λ s, match s with [0; Zpos p] => ofTree <$> decode p | _ => None end;
     encodeUtf8 := λ s, match s with [0; z] => 0 :: toBytes (Z.to_nat (Z.log2 z / 8 + 1)) z | _ => s end;
     decodeUtf8 := λ bytes, match bytes with 0 :: digits => Some [0; fromBytes digits] | _ => None end |}.

Lemma sampleCodecLaws : @TextLaws sampleCodec.
Proof.
  split.
  - intros j _. split.
    + cbn [decodeUtf8 encodeUtf8 stringify sampleCodec]. rewrite fromBytes_toBytes; [done|]. split; [done|].
      set (z := Zpos _). pose proof (Z.log2_nonneg z). pose proof (Z.div_pos (Z.log2 z) 8 ltac:(done) ltac:(done)).
      rewrite Z2Nat.id by lia. apply Z.log2_lt_pow2; [done|]. pose proof (Z.mod_pos_bound (Z.log2 z) 8 ltac:(done)).
      pose proof (Z.div_mod (Z.log2 z) 8 ltac:(done)). lia.
    + cbn. rewrite decode_encode. cbn. by rewrite ofTree_toTree.
  - intros members. cbn [encodeUtf8 stringify sampleCodec length]. rewrite toBytes_length.
    set (z := Zpos _). pose proof (Z.log2_nonneg z). pose proof (Z.div_pos (Z.log2 z) 8 ltac:(done) ltac:(done)). lia.
Qed.

Definition sampleZod : Zod := {| isBase64 := λ _, true; isDatetime := λ _, true |}.

(** A document of 40 bytes in three segments of at most 16, and its stored object. *)
Definition sampleDocument (id : jsstr) : DocumentResponse :=
  {| r_id := id; folderId := None; favorite := false;
     encryptedDek := js "dek"; dekIv := js "iv"; dekTag := js "tag";
     streamSalt := repeat 65 43 ++ js "="; noncePrefix := repeat 65 10 ++ js "==";
     encryptedMeta := js "meta"; metaIv := js "iv"; metaTag := js "tag";
     chunkPlaintextBytes := 16; chunkCount := 3; ciphertextBytes := 88; plaintextBytes := 40;
     purgePending := None; deletedAt := None; createdAt := js "now"; updatedAt := js "now" |}.
Definition sampleSegments : list (list Z) := [repeat 1 32; repeat 2 32; repeat 3 24].
Definition sampleId (c : Z) : jsstr := repeat c 24.
