(* ===== verification/FullBackupRoundTrip.v ===== *)
(** What the writer of a full backup writes, the reader reads back, and what the writer does not
    check. *)
From S2P Require Import Prelude FullBackup FullBackupSpec.
Local Open Scope Z_scope.
Local Open Scope result_scope.
#[local] Ltac Zify.zify_post_hook ::= Z.to_euclidean_division_equations.

(** ** Rows and entries survive their own schema *)

Section values.
Context `{Zod}.

(** A row as the shared schema promises it. *)
Record row_valid (r : DocumentResponse) : Prop := {
  rv_framed : framed r;
  rv_id : documentId (r_id r) = true;
  rv_strings : forallb nonempty [encryptedDek r; dekIv r; dekTag r; encryptedMeta r; metaIv r; metaTag r; createdAt r; updatedAt r] = true;
  rv_salt : base64OfBytes DOCUMENT_STREAM_SALT_BYTES (streamSalt r) = true;
  rv_nonce : base64OfBytes DOCUMENT_NONCE_PREFIX_BYTES (noncePrefix r) = true;
  rv_chunk : chunkPlaintextBytes r <= MAX_SAFE_INTEGER;
  rv_size : ciphertextBytes r <= MAX_SAFE_INTEGER;
}.

Lemma z_string_ok ok s : ok s = true -> z_string ok (Some (JStr s)) = Ok s.
Proof. intros Hs. cbn. by rewrite Hs. Qed.

Lemma z_int_ok ok n : 0 <= n <= MAX_SAFE_INTEGER -> ok n = true -> z_int ok (Some (JNum n)) = Ok n.
Proof. intros Hn Hok. unfold z_int. rewrite Hok. by replace (Z.abs n <=? MAX_SAFE_INTEGER) with true by lia. Qed.

Lemma member_of {A} members name (s : Schema A) j x : assoc name members = j -> s j = Ok x -> member members name s = Ok x.
Proof. intros <- Hs. unfold member. by rewrite Hs. Qed.

Lemma let_ok {E A B} (m : result E A) (f : A -> result E B) x y : m = Ok x -> f x = Ok y -> result_bind m f = Ok y.
Proof. intros ->. done. Qed.

(** One member of a written object, by its schema. *)
Ltac read_member := eapply let_ok; [eapply member_of; [vm_compute; reflexivity|
  first [apply z_string_ok; done | apply z_int_ok; [unfold MAX_SAFE_INTEGER; lia|unfold MAX_DOCUMENT_CHUNK_COUNT, DOCUMENT_TAG_BYTES; first [done|lia]] | reflexivity]]|].

Lemma row_fields r : row_valid r -> ∃ l, rowJson r = JObj l /\ documentResponseFields l = Ok r.
Proof.
  intros [[HP Hn Hpt Hid Hd] Hrid Hstr Hsalt Hnonce Hchunk Hsize]. eexists. split; [reflexivity|].
  destruct r as [a b c d e f g h i j k l m n o p q s t].
  cbn [r_id folderId favorite encryptedDek dekIv dekTag streamSalt noncePrefix encryptedMeta metaIv metaTag
    chunkPlaintextBytes chunkCount ciphertextBytes plaintextBytes purgePending deletedAt createdAt updatedAt forallb] in *.
  repeat rewrite andb_true_iff in Hstr. destruct Hstr as (? & ? & ? & ? & ? & ? & ? & ? & _).
  unfold documentCiphertextBytesFor, MAX_DOCUMENT_CHUNK_COUNT, DOCUMENT_TAG_BYTES, MAX_SAFE_INTEGER in *.
  unfold documentResponseFields. destruct b, p, q; do 19 read_member; reflexivity.
Qed.

Lemma row_schema r : row_valid r -> documentResponseSchema (Some (rowJson r)) = Ok r.
Proof.
  intros Hr. destruct (row_fields r Hr) as (l & -> & Hl). unfold documentResponseSchema, z_object. rewrite Hl.
  cbn [result_bind]. destruct (rv_framed r Hr) as [HP Hn Hpt Hid Hd]. unfold hasConsistentFraming.
  destruct (_ <=? 0) eqn:E; [lia|]. rewrite <- Hd, Z.eqb_refl. cbn [negb]. unfold documentPlaintextBytesFor.
  rewrite Hid. unfold documentCiphertextBytesFor.
  by replace (plaintextBytes r =? _) with true by lia.
Qed.

Record entry_valid (e : FullBackupEntry) : Prop := {
  ev_row : row_valid (row e);
  ev_offset : FULL_BACKUP_HEADER_BYTES <= offset e <= MAX_SAFE_INTEGER;
  ev_len : len e = ciphertextBytes (row e);
}.

Lemma entry_schema e : entry_valid e -> entrySchema (Some (entryJson e)) = Ok e.
Proof.
  intros [Hr Ho Hl]. destruct e as [rw off ln]. cbn [row offset len] in *. unfold entrySchema, z_object, entryJson. pose proof (rv_size _ Hr) as Hs.
  destruct (rv_framed _ Hr) as [_ Hn Hpt Hid _]. unfold documentCiphertextBytesFor, MAX_SAFE_INTEGER, FULL_BACKUP_HEADER_BYTES, DOCUMENT_TAG_BYTES in *.
  eapply let_ok. { eapply member_of; [|by apply row_schema]. vm_compute. reflexivity. }
  eapply let_ok. { eapply member_of; [vm_compute; reflexivity|]. apply z_int_ok; unfold MAX_SAFE_INTEGER, FULL_BACKUP_HEADER_BYTES, DOCUMENT_TAG_BYTES; lia. }
  eapply let_ok. { eapply member_of; [vm_compute; reflexivity|]. apply z_int_ok; unfold MAX_SAFE_INTEGER, FULL_BACKUP_HEADER_BYTES, DOCUMENT_TAG_BYTES; lia. }
  done.
Qed.

Lemma omitted_schema o : documentId (o_id o) = true -> omittedSchema (Some (omittedJson o)) = Ok o.
Proof.
  destruct o as [id r]. cbn [o_id]. intros Hid. unfold omittedSchema, z_object, omittedJson. read_member.
  eapply let_ok. { eapply member_of; [vm_compute; reflexivity|]. destruct r; reflexivity. }
  done.
Qed.

Lemma items_schema {A} (s : Schema A) (f : A -> Json) xs : Forall (λ x, s (Some (f x)) = Ok x) xs ->
  ∀ i, z_items s i (map f xs) = Ok xs.
Proof. induction 1 as [|x xs Hx _ IH]; intros i; cbn; [done|]. by rewrite Hx, IH. Qed.

(** What a manifest has to satisfy besides its rows. *)
Record manifest_valid (m : FullBackupManifest) : Prop := {
  mv_created : isDatetime (m_createdAt m) = true;
  mv_documents : Forall entry_valid (documents m);
  mv_omitted : Forall (λ o, documentId (o_id o) = true) (omitted m);
  mv_unlisted : 0 <= unlisted m <= MAX_DOCUMENTS_PER_ROTATION;
}.

Definition signedMembers (m : FullBackupManifest) (integrity : jsstr) : list (jsstr * Json) :=
  manifestMembers m ++ [(js "integrity", JStr integrity)].

Lemma manifest_schema m integrity : manifest_valid m -> lower_hex 64 integrity = true ->
  manifestSchema (Some (JObj (signedMembers m integrity))) = Ok (m, integrity).
Proof.
  destruct m as [created v docs om un]. intros [Hc Hd Ho Hu] Hi. cbn [m_createdAt documents omitted unlisted] in *.
  unfold manifestSchema, z_object, signedMembers, manifestMembers. cbn [app].
  read_member. read_member. read_member. read_member.
  eapply let_ok. { eapply member_of; [vm_compute; reflexivity|]. cbn [z_array]. apply items_schema.
    eapply Forall_impl; [exact Hd|]. intros e. apply entry_schema. }
  eapply let_ok. { eapply member_of; [vm_compute; reflexivity|]. cbn [z_array]. apply items_schema.
    eapply Forall_impl; [exact Ho|]. intros o. apply omitted_schema. }
  unfold MAX_DOCUMENTS_PER_ROTATION in Hu.
  eapply let_ok. { eapply member_of; [vm_compute; reflexivity|]. apply z_int_ok; unfold MAX_SAFE_INTEGER, MAX_DOCUMENTS_PER_ROTATION; lia. }
  read_member. done.
Qed.
End values.

(** ** Written values have no repeated keys *)

Lemma rowJson_plain r : plain_json (rowJson r) = true.
Proof. destruct r as [a b c d e f g h i j k l m n o p q s t]. destruct b, p, q; vm_compute; reflexivity. Qed.

Lemma entryJson_plain e : plain_json (entryJson e) = true.
Proof.
  unfold entryJson. destruct e as [rw off ln]. cbn [row offset len].
  change (plain_json (JObj [(js "row", rowJson rw); (js "offset", JNum off); (js "length", JNum ln)]))
    with (true && (true && plain_json (rowJson rw) && true)). by rewrite rowJson_plain.
Qed.

Lemma omittedJson_plain o : plain_json (omittedJson o) = true.
Proof. destruct o as [id []]; vm_compute; reflexivity. Qed.

Lemma forallb_map_true {A} (f : A -> Json) xs : (∀ x, plain_json (f x) = true) -> forallb plain_json (map f xs) = true.
Proof. intros Hf. induction xs as [|x xs IH]; cbn; [done|]. by rewrite Hf, IH. Qed.

Lemma signed_plain m integrity : plain_json (JObj (vault m)) = true -> plain_json (JObj (signedMembers m integrity)) = true.
Proof.
  intros Hv. destruct m as [created v docs om un]. cbn [vault] in Hv.
  assert (∀ jv jd jo, plain_json jv = true -> plain_json jd = true -> plain_json jo = true ->
    plain_json (JObj ([(js "format", JStr FULL_BACKUP_FORMAT); (js "formatVersion", JNum FULL_BACKUP_FORMAT_VERSION);
      (js "createdAt", JStr created); (js "vault", jv); (js "documents", jd); (js "omitted", jo);
      (js "unlisted", JNum un)] ++ [(js "integrity", JStr integrity)])) = true) as Hgen.
  { intros jv jd jo Hjv Hjd Hjo.
    change (true && (true && (true && (true && (plain_json jv && (plain_json jd && (plain_json jo && (true && (true && true)))))))) = true).
    by rewrite Hjv, Hjd, Hjo. }
  apply Hgen; [done| |]; cbn [plain_json]; apply forallb_map_true; [apply entryJson_plain|apply omittedJson_plain].
Qed.

(** ** Where the bytes are *)

Lemma bytesOf_app_here (pre s rest : list Z) a b : a = Z.of_nat (length pre) -> b = a + Z.of_nat (length s) ->
  bytesOf (pre ++ s ++ rest) a b = s.
Proof.
  intros -> ->. unfold bytesOf, slice. rewrite Z2Nat.inj_add, !Nat2Z.id by lia. rewrite drop_app_length.
  replace (length pre + length s - length pre)%nat with (length s) by lia. apply take_app_length.
Qed.

Lemma fullBackupHeader_length : length fullBackupHeader = 16%nat.
Proof. reflexivity. Qed.

Lemma fullBackupFooter_length n : length (fullBackupFooter n) = 16%nat.
Proof. unfold fullBackupFooter. by rewrite length_app, toBytes_length. Qed.

Lemma readFrame_written region encoded : (2 <= length encoded)%nat ->
  Z.of_nat (length encoded) <= MAX_FULL_BACKUP_MANIFEST_BYTES ->
  readFrame (fullBackupHeader ++ region ++ encoded ++ fullBackupFooter (Z.of_nat (length encoded))) =
    Ok (Z.of_nat (length encoded)).
Proof.
  intros H2 Hmax. unfold readFrame. set (n := Z.of_nat (length encoded)) in *. set (file := fullBackupHeader ++ _).
  assert (Z.of_nat (length file) = 16 + Z.of_nat (length region) + n + 16) as Hsize.
  { unfold file. rewrite !length_app, fullBackupFooter_length, fullBackupHeader_length. lia. }
  rewrite Hsize. unfold FULL_BACKUP_HEADER_BYTES, FULL_BACKUP_FOOTER_BYTES.
  destruct (_ <? 16 + 16 + 2) eqn:E1; [lia|]. cbv zeta.
  assert (bytesOf file 0 16 = fullBackupHeader) as ->.
  { apply (bytesOf_app_here [] fullBackupHeader); done. }
  change (negb (startsWith fullBackupHeader FULL_BACKUP_MAGIC)) with false. cbn iota.
  change (fromBytes (slice fullBackupHeader 8 12)) with 1. change (fromBytes (slice fullBackupHeader 12 16)) with 0. cbn iota.
  change (FULL_BACKUP_FORMAT_VERSION <? 1) with false. cbn iota. change (negb (1 =? FULL_BACKUP_FORMAT_VERSION) || negb (0 =? 0)) with false. cbn iota.
  assert (bytesOf file (16 + Z.of_nat (length region) + n + 16 - 16) (16 + Z.of_nat (length region) + n + 16) = fullBackupFooter n) as ->.
  { unfold file. rewrite !app_assoc, <- (app_nil_r (_ ++ fullBackupFooter n)), <- app_assoc.
    apply bytesOf_app_here; rewrite ?length_app, ?fullBackupFooter_length, ?fullBackupHeader_length; lia. }
  change (negb (startsWith (fullBackupFooter n) FOOTER_MAGIC)) with false. cbn iota.
  assert (slice (fullBackupFooter n) 8 16 = toBytes 8 n) as -> by reflexivity.
  rewrite fromBytes_toBytes by (change (8 * Z.of_nat 8) with 64; unfold MAX_FULL_BACKUP_MANIFEST_BYTES, MAX_RESTORE_DATA_LENGTH, MAX_DOCUMENTS_PER_ROTATION in *; lia).
  destruct (_ <? n) eqn:E2; [lia|]. done.
Qed.

(** ** The writer's state *)

Lemma segments_size segments : foldl (λ total segment, total + Z.of_nat (length segment)) 0 segments =
  Z.of_nat (length (mjoin segments : list Z)).
Proof.
  assert (∀ acc, foldl (λ total segment, total + Z.of_nat (length segment)) acc segments =
    acc + Z.of_nat (length (mjoin segments : list Z))) as Ha; [|by rewrite Ha].
  induction segments as [|s segments IH]; intros acc; cbn [foldl]; [cbn; lia|].
  rewrite IH. change (mjoin (s :: segments)) with (s ++ mjoin segments). rewrite length_app. lia.
Qed.

Lemma tiles_app es e start stop : tiles es start stop -> offset e = stop -> tiles (es ++ [e]) start (stop + len e).
Proof.
  revert start. induction es as [|e' es IH]; intros start Ht He; cbn in *.
  - by subst.
  - destruct Ht as [-> Ht]. split; [done|]. by apply IH.
Qed.

(** What has been written of [docs]. *)
Record written (w : FullBackupWriter) (docs : list (DocumentResponse * list (list Z))) : Prop := {
  wr_offset : w_offset w = Z.of_nat (length (target w));
  wr_target : target w = fullBackupHeader ++ mjoin (map (λ d, mjoin (snd d)) docs);
  wr_rows : map row (w_documents w) = map fst docs;
  wr_lens : map len (w_documents w) = map (λ d, Z.of_nat (length (mjoin (snd d)))) docs;
  wr_tiles : tiles (w_documents w) FULL_BACKUP_HEADER_BYTES (w_offset w);
  wr_good : Forall (λ e, unbackupableRow (row e) = None /\ len e = ciphertextBytes (row e)) (w_documents w);
  wr_ids : NoDup (map entry_id (w_documents w));
}.

Lemma addDocument_written w docs r segments w' : written w docs -> addDocument w r segments = Ok w' ->
  written w' (docs ++ [(r, segments)]).
Proof.
  intros [Hoff Ht Hr Hl Hti Hg Hid] Ha. unfold addDocument in Ha. destruct (unbackupableRow r) eqn:Eu; [done|].
  destruct (existsb _ _) eqn:Ex; [done|]. destruct (negb _) eqn:Es; [done|]. apply Ok_inj in Ha as <-.
  rewrite segments_size in *. split; cbn [target w_documents w_offset].
  - rewrite length_app. lia.
  - rewrite Ht, map_app, join_app, <- app_assoc. cbn. by rewrite app_nil_r.
  - rewrite !map_app, Hr. done.
  - rewrite !map_app, Hl. done.
  - by apply tiles_app.
  - apply Forall_app. split; [done|]. apply Forall_singleton. cbn. split; [done|lia].
  - rewrite map_app. apply NoDup_app. split; [done|]. split; [|apply NoDup_singleton].
    intros x Hx Hin. apply list_elem_of_singleton in Hin as ->. apply list_elem_of_In, in_map_iff in Hx as (e & He & Hin).
    apply not_true_iff_false in Ex. apply Ex. apply existsb_exists. exists e. split; [done|].
    apply bool_decide_eq_true_2. exact He.
Qed.

Lemma addDocuments_written docs w done_ w' : written w done_ -> addDocuments w docs = Ok w' -> written w' (done_ ++ docs).
Proof.
  revert w done_. induction docs as [|[r segments] docs IH]; intros w done_ Hw Ha; cbn in Ha.
  - apply Ok_inj in Ha as <-. by rewrite app_nil_r.
  - apply let_Ok in Ha as (w1 & Ha1 & Ha). replace (done_ ++ (r, segments) :: docs) with ((done_ ++ [(r, segments)]) ++ docs) by (by rewrite <- app_assoc).
    apply (IH w1); [by apply (addDocument_written w)|done].
Qed.

Lemma begun_written : written begun [].
Proof. by repeat constructor. Qed.

(** ** The reader accepts it *)

Lemma check_documents_tiles es seen start stop : tiles es start stop ->
  Forall (λ e, unbackupableRow (row e) = None /\ len e = ciphertextBytes (row e)) es ->
  NoDup (map entry_id es) -> (∀ x, x ∈ map entry_id es -> x ∉ seen) ->
  check_documents es seen start = Ok (rev (map entry_id es) ++ seen, stop).
Proof.
  revert seen start. induction es as [|e es IH]; intros seen start Ht Hg Hnd Hs; cbn [check_documents].
  - cbn in Ht. by subst.
  - destruct Ht as [Ho Ht]. apply Forall_cons in Hg as [[Hu Hl] Hg]. cbn [map] in Hnd. apply NoDup_cons in Hnd as [Hn Hnd].
    rewrite Hu, bool_decide_eq_false_2 by (apply Hs; left). rewrite Ho, Hl, !Z.eqb_refl. cbn [negb orb].
    rewrite <- Hl, (IH _ _ Ht Hg Hnd).
    + cbn [map rev]. by rewrite <- app_assoc.
    + intros x Hx. apply not_elem_of_cons. split; [intros ->; by apply Hn|]. apply Hs. by right.
Qed.

Lemma check_omitted_fresh os seen : NoDup (map o_id os) -> (∀ o, o ∈ os -> o_id o ∉ seen) ->
  check_omitted os seen = Ok (rev (map o_id os) ++ seen).
Proof.
  revert seen. induction os as [|o os IH]; intros seen Hnd Hs; cbn [check_omitted]; [done|].
  cbn [map] in Hnd. apply NoDup_cons in Hnd as [Hn Hnd]. rewrite bool_decide_eq_false_2 by (apply Hs; left).
  rewrite IH; [|done|].
  - cbn. by rewrite <- app_assoc.
  - intros o' Ho'. apply not_elem_of_cons. split; [|apply Hs; by right]. intros E. apply Hn. rewrite <- E.
    apply list_elem_of_In, in_map, list_elem_of_In, Ho'.
Qed.

Lemma check_omitted_repeat os seen : ~ NoDup (map o_id os) -> check_omitted os seen = Throw (FormatError (js "it lists a document twice")).
Proof.
  revert seen. induction os as [|o os IH]; intros seen Hnd; [by destruct Hnd; constructor|]. cbn [check_omitted].
  case_bool_decide as Hs; [done|]. destruct (decide (NoDup (map o_id os))) as [Hd|Hd]; [|by apply IH].
  assert (∀ os seen, (∃ o', o' ∈ os /\ o_id o' ∈ seen) -> check_omitted os seen = Throw (FormatError (js "it lists a document twice"))) as Hhit.
  { clear. induction os as [|x os IH]; intros seen (o' & Hin & Hs); [by apply elem_of_nil in Hin|]. cbn [check_omitted].
    case_bool_decide as Hx; [done|]. apply IH. apply elem_of_cons in Hin as [->|Hin]; [done|]. exists o'. split; [done|by right]. }
  apply Hhit. cbn [map] in Hnd. destruct (decide (o_id o ∈ map o_id os)) as [Hin|Hin].
  - apply list_elem_of_In, in_map_iff in Hin as (o' & He & Hin). exists o'. split; [by apply list_elem_of_In|]. rewrite He. left.
  - destruct Hnd. by apply NoDup_cons.
Qed.


(** ** The reader on a finished file *)

Section finished.
Context `{TextCodec} `{!TextLaws} `{Zod}.
Context (maxManifestBytes : Z) (sign : jsstr -> jsstr).
Hypothesis Hmax : maxManifestBytes <= MAX_FULL_BACKUP_MANIFEST_BYTES.
Hypothesis Hsign : ∀ text, lower_hex 64 (sign text) = true.

(** The manifest [finish] writes. *)
Definition finished (w : FullBackupWriter) created v om un : FullBackupManifest :=
  {| m_createdAt := created; vault := v; documents := w_documents w; omitted := om; unlisted := un |}.
Definition payloadOf (m : FullBackupManifest) : jsstr := stringify (JObj (manifestMembers m)).
Definition encodedOf (m : FullBackupManifest) : list Z :=
  encodeUtf8 (stringify (JObj (signedMembers m (sign (payloadOf m))))).

Lemma finish_Ok w created v om un file size : finish maxManifestBytes sign w created v om un = Ok (file, size) ->
  let encoded := encodedOf (finished w created v om un) in
  let n := Z.of_nat (length encoded) in
  file = target w ++ encoded ++ fullBackupFooter n /\ n <= maxManifestBytes /\ size = sizeWith w n /\
  ∀ o, o ∈ om -> o_id o ∉ map entry_id (w_documents w).
Proof.
  unfold finish. destruct (existsb _ _) eqn:Ex; [done|]. fold (finished w created v om un).
  fold (payloadOf (finished w created v om un)). fold (signedMembers (finished w created v om un) (sign (payloadOf (finished w created v om un)))).
  fold (encodedOf (finished w created v om un)). cbv zeta. destruct (_ <? _) eqn:El; [done|]. intros E. apply Ok_inj in E.
  injection E as <- <-. repeat split; [lia|]. intros o Ho Hin. apply not_true_iff_false in Ex. apply Ex.
  apply existsb_exists. exists o. split; [by apply list_elem_of_In|]. apply list_elem_of_In, in_map_iff in Hin as (e & He & Hin).
  apply existsb_exists. exists e. split; [done|]. by apply bool_decide_eq_true_2.
Qed.

Lemma canonical_signed m integrity : canonicalManifest (signedMembers m integrity) = payloadOf m.
Proof. destruct m. reflexivity. Qed.

Lemma lengths_signed m integrity :
  lengthOf (JObj (signedMembers m integrity)) (js "documents") = Z.of_nat (length (documents m)) /\
  lengthOf (JObj (signedMembers m integrity)) (js "omitted") = Z.of_nat (length (omitted m)).
Proof.
  destruct m as [c v d o u]. cbn [documents omitted].
  change (Z.of_nat (length (map entryJson d)) = Z.of_nat (length d) /\ Z.of_nat (length (map omittedJson o)) = Z.of_nat (length o)).
  by rewrite !length_map.
Qed.

(** A finished file passes every rule of the reader but the one on the omitted documents. *)
Section opened.
Context (w : FullBackupWriter) (docs : list (DocumentResponse * list (list Z))).
Context (created : jsstr) (v : list (jsstr * Json)) (om : list OmittedDocument) (un : Z).
Hypothesis Hw : written w docs.
Hypothesis Hrows : Forall (λ d, row_valid (fst d)) docs.
Hypothesis Hcreated : isDatetime created = true.
Hypothesis Hplain : plain_json (JObj v) = true.
Hypothesis Hvault : vaultBackupTooLarge v = false.
Hypothesis Hom : Forall (λ o, documentId (o_id o) = true) om.
Hypothesis Hun : 0 <= un <= MAX_DOCUMENTS_PER_ROTATION.
Hypothesis Hcount : Z.of_nat (length docs) + Z.of_nat (length om) <= MAX_DOCUMENTS_PER_ROTATION.

Let m : FullBackupManifest := finished w created v om un.

Lemma written_rows : Forall (λ e, row_valid (row e)) (w_documents w).
Proof.
  apply Forall_forall. intros e He. assert (row e ∈ map fst docs) as Hin.
  { rewrite <- (wr_rows _ _ Hw). apply list_elem_of_In, in_map, list_elem_of_In, He. }
  apply list_elem_of_In, in_map_iff in Hin as (d & <- & Hd). rewrite Forall_forall in Hrows. by apply Hrows, list_elem_of_In.
Qed.

Lemma written_entries : w_offset w <= MAX_SAFE_INTEGER -> Forall entry_valid (w_documents w).
Proof.
  intros Hsafe. pose proof written_rows as Hr. pose proof (wr_good _ _ Hw) as Hg. rewrite Forall_forall in Hr, Hg.
  assert (Forall (λ e, 0 <= len e) (w_documents w)) as Hl.
  { apply Forall_forall. intros e He. destruct (Hg e He) as [_ ->]. destruct (rv_framed _ (Hr e He)) as [_ Hn Hpt Hid _].
    unfold documentCiphertextBytesFor, DOCUMENT_TAG_BYTES in Hid. lia. }
  apply Forall_forall. intros e He. destruct (tiles_entry _ _ _ e (wr_tiles _ _ Hw) ltac:(done) Hl He) as [Hlo Hhi].
  rewrite Forall_forall in Hl. specialize (Hl e He). split; [by apply Hr|lia|apply (Hg e He)].
Qed.

Lemma finished_valid : w_offset w <= MAX_SAFE_INTEGER -> manifest_valid m.
Proof. intros Hsafe. split; [done|by apply written_entries|done|done]. Qed.

Lemma written_length : length (w_documents w) = length docs.
Proof. rewrite <- (length_map row), (wr_rows _ _ Hw). apply length_map. Qed.

Lemma open_written file size : finish maxManifestBytes sign w created v om un = Ok (file, size) ->
  size <= MAX_SAFE_INTEGER ->
  openFullBackupFile file =
    (let? _ := check_omitted om (rev (map entry_id (w_documents w))) in
     Ok {| manifest := m; signature := sign (payloadOf m); signedPayload := payloadOf m |}).
Proof using All.
  intros Hf Hsafe. apply finish_Ok in Hf as (-> & Hn & -> & _). fold m in Hn, Hsafe |- *.
  set (encoded := encodedOf m) in *. set (n := Z.of_nat (length encoded)) in *.
  assert (2 <= length encoded)%nat as H2 by apply object_text.
  unfold sizeWith, FULL_BACKUP_FOOTER_BYTES in Hsafe.
  pose proof (wr_offset _ _ Hw) as Hoff. unfold openFullBackupFile.
  rewrite (wr_target _ _ Hw), <- app_assoc, readFrame_written by (fold n; lia). rewrite app_assoc, <- (wr_target _ _ Hw). cbn [result_bind]. cbv zeta. fold n.
  rewrite !length_app, fullBackupFooter_length. unfold FULL_BACKUP_FOOTER_BYTES.
  rewrite bytesOf_app_here by lia.
  destruct (text_roundtrip (JObj (signedMembers m (sign (payloadOf m)))) (signed_plain m _ Hplain)) as [Hdec Hparse].
  unfold encoded at 1, encodedOf. rewrite Hdec. cbn [mbind option_bind]. rewrite Hparse.
  destruct (lengths_signed m (sign (payloadOf m))) as [-> ->]. cbn [documents omitted m finished]. rewrite written_length.
  destruct (_ <? _) eqn:Ec; [lia|]. rewrite (manifest_schema m) by (done || apply finished_valid; lia).
  rewrite canonical_signed. cbn [vault documents omitted m finished]. rewrite Hvault.
  rewrite (check_documents_tiles _ _ _ _ (wr_tiles _ _ Hw) (wr_good _ _ Hw) (wr_ids _ _ Hw)) by (intros x _; apply not_elem_of_nil).
  cbn [result_bind]. destruct (negb _) eqn:Es; [lia|]. by rewrite app_nil_r.
Qed.
End opened.
End finished.

Definition contents (d : DocumentResponse * list (list Z)) : list Z := mjoin (snd d).

Lemma tiles_contents es docs pre rest start stop : tiles es start stop ->
  map len es = map (λ d, Z.of_nat (length (contents d))) docs -> start = Z.of_nat (length pre) ->
  map (λ e, bytesOf (pre ++ mjoin (map contents docs) ++ rest) (offset e) (offset e + len e)) es = map contents docs.
Proof.
  revert docs pre start. induction es as [|e es IH]; intros [|d docs] pre start Ht Hl Hs; try done.
  destruct Ht as [Ho Ht]. cbn [map] in Hl. injection Hl as He Hl. cbn [map].
  change (mjoin (contents d :: map contents docs)) with (contents d ++ mjoin (map contents docs)). f_equal.
  - rewrite <- app_assoc. apply bytesOf_app_here; lia.
  - replace (pre ++ (contents d ++ mjoin (map contents docs)) ++ rest) with ((pre ++ contents d) ++ mjoin (map contents docs) ++ rest)
      by (by rewrite <- !app_assoc).
    apply (IH docs _ _ Ht Hl). rewrite length_app. lia.
Qed.

(** ** The two ends of the writer's promise *)

Section promise.
Context `{TextCodec} `{!TextLaws} `{Zod}.

(** What a backup run hands to the writer. *)
Record run_valid (docs : list (DocumentResponse * list (list Z))) (created : jsstr) (v : list (jsstr * Json))
    (om : list OmittedDocument) (un : Z) : Prop := {
  ru_rows : Forall (λ d, row_valid (fst d)) docs;
  ru_created : isDatetime created = true;
  ru_vault : plain_json (JObj v) = true;
  ru_restorable : vaultBackupTooLarge v = false;
  ru_omitted : Forall (λ o, documentId (o_id o) = true) om;
  ru_unlisted : 0 <= un <= MAX_DOCUMENTS_PER_ROTATION;
  ru_count : Z.of_nat (length docs) + Z.of_nat (length om) <= MAX_DOCUMENTS_PER_ROTATION;
}.

(** C16: A full backup reads back.  When the writer accepts a run's documents and finishes the file, of a
    size that is a safe integer, and the run left no document out twice the reader opens it: the answered size is the file's, the manifest carries
    the run's timestamp, vault, omitted documents and count of unlisted rows, the rows are the documents'
    in order, each entry's bytes are the stored object it was given as segments, and the signature is the
    one of the payload the reader recomputes. *)
Theorem full_backup_roundtrip maxManifestBytes (sign : jsstr -> jsstr) docs created v om un w file size :
  maxManifestBytes <= MAX_FULL_BACKUP_MANIFEST_BYTES -> (∀ text, lower_hex 64 (sign text) = true) ->
  run_valid docs created v om un -> NoDup (map o_id om) ->
  addDocuments begun docs = Ok w -> finish maxManifestBytes sign w created v om un = Ok (file, size) ->
  size <= MAX_SAFE_INTEGER ->
  size = Z.of_nat (length file) /\ ∃ o, openFullBackupFile file = Ok o /\ signature o = sign (signedPayload o) /\
    map row (documents (manifest o)) = map fst docs /\
    map (λ e, bytesOf file (offset e) (offset e + len e)) (documents (manifest o)) = map contents docs /\
    m_createdAt (manifest o) = created /\ vault (manifest o) = v /\ omitted (manifest o) = om /\
    unlisted (manifest o) = un.
Proof.
  intros Hmax Hsign [] Hnd Ha Hf Hsafe. pose proof (addDocuments_written _ _ _ _ begun_written Ha) as Hw. cbn [app] in Hw.
  pose proof (finish_Ok _ _ _ _ _ _ _ _ _ Hf) as (Hfile & _ & Hsize & Hfresh). split.
  { rewrite Hsize, Hfile, !length_app, fullBackupFooter_length. unfold sizeWith, FULL_BACKUP_FOOTER_BYTES.
    rewrite (wr_offset _ _ Hw). lia. }
  erewrite open_written by eauto. rewrite check_omitted_fresh; [|done|].
  - cbn [result_bind]. eexists. split; [done|]. cbn [signature signedPayload manifest finished documents m_createdAt vault omitted unlisted].
    split; [done|]. split; [apply (wr_rows _ _ Hw)|]. split; [|done].
    rewrite Hfile, (wr_target _ _ Hw), <- app_assoc. by apply (tiles_contents _ _ _ _ _ _ (wr_tiles _ _ Hw) (wr_lens _ _ Hw)).
  - intros o Ho Hin. apply (Hfresh o Ho). apply list_elem_of_In, in_rev, list_elem_of_In, Hin.
Qed.

(** C38: The writer does not check the whole of the reader's rule on identities: a run that left the
    same document out twice is written and signed without an error, and the reader refuses the
    file it just produced. *)
Theorem full_backup_repeated_omission maxManifestBytes (sign : jsstr -> jsstr) docs created v om un w file size :
  maxManifestBytes <= MAX_FULL_BACKUP_MANIFEST_BYTES -> (∀ text, lower_hex 64 (sign text) = true) ->
  run_valid docs created v om un -> ~ NoDup (map o_id om) ->
  addDocuments begun docs = Ok w -> finish maxManifestBytes sign w created v om un = Ok (file, size) ->
  size <= MAX_SAFE_INTEGER ->
  openFullBackupFile file = Throw (FormatError (js "it lists a document twice")).
Proof.
  intros Hmax Hsign [] Hnd Ha Hf Hsafe. pose proof (addDocuments_written _ _ _ _ begun_written Ha) as Hw.
  erewrite open_written by eauto. by rewrite check_omitted_repeat.
Qed.
End promise.


(** ** Concrete runs *)

Module SampleRun.
#[local] Existing Instance sampleCodec.
#[local] Existing Instance sampleZod.

Definition docs := [(sampleDocument (sampleId 97), sampleSegments)].
Definition left_out := {| o_id := sampleId 99; reason := unreadable |}.
Definition sign (_ : jsstr) : jsstr := repeat 48 64.

Definition run (om : list OmittedDocument) : result WriterError (FullBackupWriter * (list Z * Z)) :=
  let? w := addDocuments begun docs in
  let? f := finish MAX_FULL_BACKUP_MANIFEST_BYTES sign w (js "now") [] om 0 in
  Ok (w, f).

Lemma sample_row : row_valid (sampleDocument (sampleId 97)).
Proof. by repeat split. Qed.

Lemma run_valid_sample om : Forall (λ o, documentId (o_id o) = true) om -> (length om <= 2)%nat ->
  run_valid docs (js "now") [] om 0.
Proof.
  intros Ho Hl. split; try done.
  - repeat constructor; try apply sample_row.
  - cbn. unfold MAX_DOCUMENTS_PER_ROTATION. lia.
Qed.

Lemma run_Ok om w file size : run om = Ok (w, (file, size)) ->
  addDocuments begun docs = Ok w /\ finish MAX_FULL_BACKUP_MANIFEST_BYTES sign w (js "now") [] om 0 = Ok (file, size) /\
  size <= MAX_SAFE_INTEGER.
Proof.
  intros E. apply let_Ok in E as (w' & Ha & E). apply let_Ok in E as (f & Hf & E). apply Ok_inj in E. injection E as -> ->.
  split; [done|]. split; [done|]. apply finish_Ok in Hf as (_ & Hn & -> & _). revert Hn. vm_compute in Ha. apply Ok_inj in Ha as <-.
  unfold sizeWith. cbn [w_offset]. unfold MAX_FULL_BACKUP_MANIFEST_BYTES, MAX_RESTORE_DATA_LENGTH, MAX_DOCUMENTS_PER_ROTATION,
    FULL_BACKUP_FOOTER_BYTES, MAX_SAFE_INTEGER. lia.
Qed.

(** The bytes of the run that leaves one document out, which the reader opens. *)
Lemma run_bytes : ∃ w file size o, run [left_out] = Ok (w, (file, size)) /\ Forall (λ b, 0 <= b < 256) file /\
  openFullBackupFile file = Ok o.
Proof.
  assert (match run [left_out] with
    | Ok (_, (file, _)) => forallb (λ b, (0 <=? b) && (b <? 256)) file && match openFullBackupFile file with Ok _ => true | Throw _ => false end
    | Throw _ => false end = true) as Hc by (vm_compute; reflexivity).
  destruct (run [left_out]) as [[w [file size]]|]; [|done]. apply andb_true_iff in Hc as [Hb Ho].
  destruct (openFullBackupFile file) as [o|] eqn:Eo; [|done]. exists w, file, size, o. split; [done|]. split; [|done].
  apply Forall_forall. intros b Hin. rewrite forallb_forall in Hb. apply list_elem_of_In, Hb in Hin. lia.
Qed.
End SampleRun.

Lemma full_backup_roundtrip_witness : ∃ file o, @openFullBackupFile sampleCodec sampleZod file = Ok o /\
  map row (documents (manifest o)) = map fst SampleRun.docs /\ omitted (manifest o) = [SampleRun.left_out].
Proof.
  destruct SampleRun.run_bytes as (w & file & size & _ & Hrun & _). apply SampleRun.run_Ok in Hrun as (Ha & Hf & Hs).
  destruct (@full_backup_roundtrip sampleCodec sampleCodecLaws sampleZod MAX_FULL_BACKUP_MANIFEST_BYTES SampleRun.sign SampleRun.docs (js "now") []
    [SampleRun.left_out] 0 w file size) as (_ & o & Ho & _ & Hr & _ & _ & _ & Hom & _); try done.
  - apply SampleRun.run_valid_sample; [by repeat constructor|cbn; lia].
  - apply NoDup_singleton.
  - by exists file, o.
Defined.

Lemma full_backup_repeated_omission_witness : ∃ w file size,
  SampleRun.run [SampleRun.left_out; SampleRun.left_out] = Ok (w, (file, size)) /\
  @openFullBackupFile sampleCodec sampleZod file = Throw (FormatError (js "it lists a document twice")).
Proof.
  destruct (SampleRun.run [SampleRun.left_out; SampleRun.left_out]) as [[w [file size]]|e] eqn:E;
    [|exfalso; vm_compute in E; discriminate].
  exists w, file, size. split; [done|]. apply SampleRun.run_Ok in E as (Ha & Hf & Hs).
  apply (@full_backup_repeated_omission sampleCodec sampleCodecLaws sampleZod MAX_FULL_BACKUP_MANIFEST_BYTES SampleRun.sign SampleRun.docs
    (js "now") [] [SampleRun.left_out; SampleRun.left_out] 0 w file size); try done.
  - apply SampleRun.run_valid_sample; [by repeat constructor|cbn; lia].
  - intros Hnd. apply NoDup_cons in Hnd as [Hnd _]. apply Hnd. left.
Defined.

Lemma openFullBackupFile_sound_witness : ∃ file o, @openFullBackupFile sampleCodec sampleZod file = Ok o /\
  startsWith file FULL_BACKUP_MAGIC = true.
Proof.
  destruct SampleRun.run_bytes as (w & file & size & o & _ & Hb & Ho). exists file, o. split; [done|].
  destruct (@openFullBackupFile_sound sampleCodec sampleZod file o Hb Ho) as [Hm _]. exact Hm.
Defined.
