(* ===== verification/ZipArchive.v ===== *)
(** The ZIP writer of the document export: client/src/services/documents/zipArchive.ts.

    A buffer is a list of bytes; a [DataView] setter writes a number modulo its width, little-endian,
    and throws a [RangeError] past the end.  The sink is the bytes written to it so far; a write that
    fails ends the run.  The lookup table of CRC-32 is built on first use in the source; here it is
    the constant it is built to.  [TextEncoder] is the parameter [encode].  A [Date] is what its
    local-calendar getters answer, [None] for an invalid one. *)
From S2P Require Import Prelude.
Local Open Scope Z_scope.
Local Open Scope result_scope.

(** ** Buffers *)

(** [n] little-endian bytes of [v] modulo [2 ^ (8 * n)]. *)
Fixpoint le (n : nat) (v : Z) : list Z :=
  match n with O => [] | S n' => v mod 256 :: le n' (v / 256) end.

Inductive ZipError := NameTooLong | NeedsZip64 | RangeError.

Definition setBytes (at_ : nat) (bs : list Z) (buf : list Z) : result ZipError (list Z) :=
  if (at_ + length bs <=? length buf)%nat then Ok (take at_ buf ++ bs ++ drop (at_ + length bs) buf) else Throw RangeError.
Definition setUint16 (at_ : nat) (v : Z) : list Z -> result ZipError (list Z) := setBytes at_ (le 2 v).
Definition setUint32 (at_ : nat) (v : Z) : list Z -> result ZipError (list Z) := setBytes at_ (le 4 v).

(** ** Constants *)

Definition LOCAL_HEADER_BYTES : nat := 30.
Definition CENTRAL_RECORD_BYTES : nat := 46.
Definition END_RECORD_BYTES : nat := 22.
Definition LOCAL_HEADER_SIGNATURE : Z := 0x04034b50.
Definition CENTRAL_RECORD_SIGNATURE : Z := 0x02014b50.
Definition END_RECORD_SIGNATURE : Z := 0x06054b50.
Definition VERSION_MADE_BY : Z := 0x0014.
Definition VERSION_NEEDED : Z := 10.
Definition FLAG_UTF8_NAME : Z := 0x0800.
Definition METHOD_STORED : Z := 0.
Definition ZIP32_MAX_ARCHIVE_BYTES : Z := 0xfffffffe.
Definition ZIP32_MAX_ENTRIES : nat := Z.to_nat 0xfffe.
Definition ZIP_MAX_NAME_BYTES : Z := 0xffff.
Definition DOS_FIRST_YEAR : Z := 1980.
Definition DOS_LAST_YEAR : Z := 2107.

(** ** CRC-32 *)

Definition to_int32 (n : Z) : Z := let m := n mod 2 ^ 32 in if m <? 2 ^ 31 then m else m - 2 ^ 32.
Definition bit_xor (a b : Z) : Z := to_int32 (Z.lxor a b).
Definition bit_not (a : Z) : Z := to_int32 (Z.lnot a).
Definition bit_and (a b : Z) : Z := to_int32 (Z.land a b).
Definition ushr (a s : Z) : Z := Z.shiftr (a mod 2 ^ 32) s.

Definition crc_bit (value : Z) : Z := if bit_and value 1 =? 0 then ushr value 1 else bit_xor 0xedb88320 (ushr value 1).
Definition buildCrcTable : list Z := map (λ index, ushr (Nat.iter 8 crc_bit (Z.of_nat index)) 0) (seq 0 256).
Definition crcTable : list Z := Eval vm_compute in buildCrcTable.

(** [table.getUint32(4 * index)]. *)
Definition getEntry (table : list Z) (index : Z) : Z := default 0 (table !! Z.to_nat index).
Definition crc_step (crc byte : Z) : Z := bit_xor (getEntry crcTable (bit_and (bit_xor crc byte) 0xff)) (ushr crc 8).
Definition crc32 (bytes : list Z) (previous : Z) : Z :=
  ushr (bit_not (foldl crc_step (ushr (bit_not previous) 0) bytes)) 0.

(** ** Times *)

(** Months count from zero, as [getMonth] does. *)
Record LocalTime := { year : Z; month : Z; day : Z; hours : Z; minutes : Z; seconds : Z }.

Definition dosDateTime (moment : option LocalTime) : Z * Z :=
  match moment with
  | None => (0, Z.lor (Z.shiftl 1 5) 1)
  | Some t =>
      if year t <? DOS_FIRST_YEAR then (0, Z.lor (Z.shiftl 1 5) 1)
      else if DOS_LAST_YEAR <? year t
      then (Z.lor (Z.lor (Z.shiftl 23 11) (Z.shiftl 59 5)) 29,
            Z.lor (Z.lor (Z.shiftl (DOS_LAST_YEAR - DOS_FIRST_YEAR) 9) (Z.shiftl 12 5)) 31)
      else (Z.lor (Z.lor (Z.shiftl (hours t) 11) (Z.shiftl (minutes t) 5)) (Z.shiftr (seconds t) 1),
            Z.lor (Z.lor (Z.shiftl (year t - DOS_FIRST_YEAR) 9) (Z.shiftl (month t + 1) 5)) (day t))
  end.

(** ** The writer *)

Record ZipFileEntry := { path : jsstr; modified : option LocalTime; chunks : list (list Z); crc : Z }.
Record CentralRecord := { c_name : list Z; c_time : Z; c_date : Z; c_crc : Z; c_size : Z; c_offset : Z }.
Record StoredZipWriter := {
  sink : list Z;
  limitBytes : Z;
  records : list CentralRecord;
  offset : Z;
  centralBytes : Z;
}.

(** [new StoredZipWriter(sink, limitBytes)] on an empty sink. *)
Definition newWriter (limit : Z) : StoredZipWriter :=
  {| sink := []; limitBytes := limit; records := []; offset := 0; centralBytes := 0 |}.

Definition entryCount (w : StoredZipWriter) : nat := length (records w).
Definition projectedBytes (w : StoredZipWriter) (pathBytes size : Z) : Z :=
  offset w + Z.of_nat LOCAL_HEADER_BYTES + pathBytes + size + centralBytes w + Z.of_nat CENTRAL_RECORD_BYTES
  + pathBytes + Z.of_nat END_RECORD_BYTES.

Definition fits (w : StoredZipWriter) (pathBytes size : Z) : bool :=
  if (entryCount w =? 0)%nat then true
  else (entryCount w <? ZIP32_MAX_ENTRIES)%nat && (projectedBytes w pathBytes size <=? limitBytes w).

(** The local header, in a zeroed buffer. *)
Definition localHeader (name : list Z) (time date crc size : Z) : result ZipError (list Z) :=
  let? view := setUint32 0 LOCAL_HEADER_SIGNATURE (repeat 0 (LOCAL_HEADER_BYTES + length name)) in
  let? view := setUint16 4 VERSION_NEEDED view in
  let? view := setUint16 6 FLAG_UTF8_NAME view in
  let? view := setUint16 8 METHOD_STORED view in
  let? view := setUint16 10 time view in
  let? view := setUint16 12 date view in
  let? view := setUint32 14 crc view in
  let? view := setUint32 18 size view in
  let? view := setUint32 22 size view in
  let? view := setUint16 26 (Z.of_nat (length name)) view in
  setBytes LOCAL_HEADER_BYTES name view.

(** One record of the central directory, at [at_] of the zeroed tail. *)
Definition putRecord (at_ : nat) (r : CentralRecord) (view : list Z) : result ZipError (list Z) :=
  let? view := setUint32 at_ CENTRAL_RECORD_SIGNATURE view in
  let? view := setUint16 (at_ + 4) VERSION_MADE_BY view in
  let? view := setUint16 (at_ + 6) VERSION_NEEDED view in
  let? view := setUint16 (at_ + 8) FLAG_UTF8_NAME view in
  let? view := setUint16 (at_ + 10) METHOD_STORED view in
  let? view := setUint16 (at_ + 12) (c_time r) view in
  let? view := setUint16 (at_ + 14) (c_date r) view in
  let? view := setUint32 (at_ + 16) (c_crc r) view in
  let? view := setUint32 (at_ + 20) (c_size r) view in
  let? view := setUint32 (at_ + 24) (c_size r) view in
  let? view := setUint16 (at_ + 28) (Z.of_nat (length (c_name r))) view in
  let? view := setUint32 (at_ + 42) (c_offset r) view in
  setBytes (at_ + CENTRAL_RECORD_BYTES) (c_name r) view.

Fixpoint putRecords (at_ : nat) (rs : list CentralRecord) (view : list Z) : result ZipError (nat * list Z) :=
  match rs with
  | [] => Ok (at_, view)
  | r :: rest =>
      let? view := putRecord at_ r view in
      putRecords (at_ + (CENTRAL_RECORD_BYTES + length (c_name r)))%nat rest view
  end.

(** The end record, after the directory. *)
Definition putEnd (at_ : nat) (w : StoredZipWriter) (view : list Z) : result ZipError (list Z) :=
  let? view := setUint32 at_ END_RECORD_SIGNATURE view in
  let? view := setUint16 (at_ + 8) (Z.of_nat (entryCount w)) view in
  let? view := setUint16 (at_ + 10) (Z.of_nat (entryCount w)) view in
  let? view := setUint32 (at_ + 12) (centralBytes w) view in
  setUint32 (at_ + 16) (offset w) view.

Definition finish (w : StoredZipWriter) : result ZipError (list Z) :=
  let tail := repeat 0 (Z.to_nat (centralBytes w + Z.of_nat END_RECORD_BYTES)) in
  let? (at_, view) := putRecords 0 (records w) tail in
  let? view := putEnd at_ w view in
  Ok (sink w ++ view).

Section writer.
Context (encode : jsstr -> list Z).

Definition addFile (w : StoredZipWriter) (entry : ZipFileEntry) : result ZipError StoredZipWriter :=
  let name := encode (path entry) in
  let size := foldl (λ total chunk, total + Z.of_nat (length chunk)) 0 (chunks entry) in
  if ZIP_MAX_NAME_BYTES <? Z.of_nat (length name) then Throw NameTooLong
  else if (ZIP32_MAX_ENTRIES <=? entryCount w)%nat
      || (ZIP32_MAX_ARCHIVE_BYTES <? projectedBytes w (Z.of_nat (length name)) size)
  then Throw NeedsZip64
  else
    let (time, date) := dosDateTime (modified entry) in
    let? header := localHeader name time date (crc entry) size in
    Ok {| sink := foldl app (sink w ++ header) (chunks entry);
          limitBytes := limitBytes w;
          records := records w ++ [{| c_name := name; c_time := time; c_date := date; c_crc := crc entry;
                                      c_size := size; c_offset := offset w |}];
          offset := offset w + (Z.of_nat (length header) + size);
          centralBytes := centralBytes w + Z.of_nat (CENTRAL_RECORD_BYTES + length name) |}.

Fixpoint addFiles (w : StoredZipWriter) (entries : list ZipFileEntry) : result ZipError StoredZipWriter :=
  match entries with
  | [] => Ok w
  | e :: rest => let? w' := addFile w e in addFiles w' rest
  end.
End writer.

Example crc_check : crc32 (js "123456789") 0 = 0xcbf43926.
Proof. reflexivity. Qed.
