(* ===== verification/ZipArchiveSpec.v ===== *)
(** What the ZIP writer promises: its archives are read back by both kinds of extractor, those that
    follow the central directory and those that stream, and its CRC-32 is the standard one. *)
From S2P Require Import Prelude ZipArchive.
Local Open Scope Z_scope.
Local Open Scope result_scope.
#[local] Ltac Zify.zify_post_hook ::= Z.to_euclidean_division_equations.

(** ** Extractors *)

(** Reading the format, written from its description and not from the writer. *)
Definition num_le (bs : list Z) : Z := foldr (λ b acc, b + 256 * acc) 0 bs.
Definition field (file : list Z) (at_ n : nat) : option Z :=
  if (at_ + n <=? length file)%nat then Some (num_le (slice file at_ (at_ + n))) else None.
Definition bytes_at (file : list Z) (at_ n : nat) : option (list Z) :=
  if (at_ + n <=? length file)%nat then Some (slice file at_ (at_ + n)) else None.
Definition expect (file : list Z) (at_ n : nat) (v : Z) : option unit :=
  x ← field file at_ n; if x =? v then Some () else None.

Record Extracted := { x_name : list Z; x_time : Z; x_date : Z; x_crc : Z; x_data : list Z }.

(** A local header with its stored data, and where it ends.  Bit 3 of the flags announces sizes that
    follow the data, which a stored entry cannot be read with. *)
Definition read_local (file : list Z) (at_ : nat) : option (Extracted * nat) :=
  _ ← expect file at_ 4 0x04034b50;
  flags ← field file (at_ + 6) 2;
  _ ← expect file (at_ + 8) 2 0;
  time ← field file (at_ + 10) 2;
  date ← field file (at_ + 12) 2;
  crc ← field file (at_ + 14) 4;
  csize ← field file (at_ + 18) 4;
  usize ← field file (at_ + 22) 4;
  n ← field file (at_ + 26) 2;
  extra ← field file (at_ + 28) 2;
  if Z.testbit flags 3 || negb (csize =? usize) || (csize =? 0xffffffff) then None else
  name ← bytes_at file (at_ + 30) (Z.to_nat n);
  let start := (at_ + 30 + Z.to_nat n + Z.to_nat extra)%nat in
  data ← bytes_at file start (Z.to_nat csize);
  Some ({| x_name := name; x_time := time; x_date := date; x_crc := crc; x_data := data |},
        (start + Z.to_nat csize)%nat).

(** A streaming extractor: from the first byte, until the central directory. *)
Fixpoint stream (fuel : nat) (file : list Z) (at_ : nat) : option (list Extracted) :=
  match fuel with
  | O => None
  | S fuel =>
      sig ← field file at_ 4;
      if (sig =? 0x02014b50) || (sig =? 0x06054b50) then Some [] else
      '(x, next) ← read_local file at_;
      xs ← stream fuel file next;
      Some (x :: xs)
  end.

(** A record of the central directory, checked against the local header it points to. *)
Definition read_record (file : list Z) (at_ : nat) : option (Extracted * nat) :=
  _ ← expect file at_ 4 0x02014b50;
  time ← field file (at_ + 12) 2;
  date ← field file (at_ + 14) 2;
  crc ← field file (at_ + 16) 4;
  csize ← field file (at_ + 20) 4;
  usize ← field file (at_ + 24) 4;
  n ← field file (at_ + 28) 2;
  extra ← field file (at_ + 30) 2;
  comment ← field file (at_ + 32) 2;
  _ ← expect file (at_ + 34) 2 0;
  start ← field file (at_ + 42) 4;
  name ← bytes_at file (at_ + 46) (Z.to_nat n);
  '(x, _) ← read_local file (Z.to_nat start);
  if (start =? 0xffffffff) || negb (usize =? Z.of_nat (length (x_data x))) || negb (csize =? usize)
    || negb (bool_decide (name = x_name x)) || negb (time =? x_time x) || negb (date =? x_date x) || negb (crc =? x_crc x)
  then None
  else Some (x, (at_ + 46 + Z.to_nat n + Z.to_nat extra + Z.to_nat comment)%nat).

Fixpoint read_records (n : nat) (file : list Z) (at_ : nat) : option (list Extracted * nat) :=
  match n with
  | O => Some ([], at_)
  | S n => '(x, at_) ← read_record file at_; '(xs, at_) ← read_records n file at_; Some (x :: xs, at_)
  end.

(** An extractor that starts at the end. *)
Definition unzip (file : list Z) : option (list Extracted) :=
  let end_ := (length file - 22)%nat in
  _ ← expect file end_ 4 0x06054b50;
  _ ← expect file (end_ + 4) 2 0;
  _ ← expect file (end_ + 6) 2 0;
  here ← field file (end_ + 8) 2;
  total ← field file (end_ + 10) 2;
  size ← field file (end_ + 12) 4;
  start ← field file (end_ + 16) 4;
  _ ← expect file (end_ + 20) 2 0;
  if negb (here =? total) || (total =? 0xffff) || (start =? 0xffffffff) then None else
  '(xs, at_) ← read_records (Z.to_nat total) file (Z.to_nat start);
  if (at_ =? end_)%nat && (start + size =? Z.of_nat end_) then Some xs else None.

(** ** Fields *)

Lemma le_length n v : length (le n v) = n.
Proof. revert v. induction n as [|n IH]; intros v; cbn; [done|]. by rewrite IH. Qed.

Lemma num_le_le n v : num_le (le n v) = v mod 2 ^ (8 * Z.of_nat n).
Proof.
  revert v. induction n as [|n IH]; intros v; [cbn; by rewrite Z.mod_1_r|].
  cbn [le num_le foldr]. change (foldr _ 0 (le n (v / 256))) with (num_le (le n (v / 256))). rewrite IH.
  replace (8 * Z.of_nat (S n)) with (8 + 8 * Z.of_nat n) by lia. rewrite Z.pow_add_r by lia. change (2 ^ 8) with 256.
  rewrite Z.rem_mul_r by lia. done.
Qed.

Lemma num_le_small n v : 0 <= v < 2 ^ (8 * Z.of_nat n) -> num_le (le n v) = v.
Proof. intros Hv. rewrite num_le_le. by apply Z.mod_small. Qed.

Lemma shift_ok (pre file : list Z) i n : (length pre + i + n <=? length (pre ++ file))%nat = (i + n <=? length file)%nat.
Proof. rewrite length_app. lia. Qed.

Lemma slice_shift (pre file : list Z) i n : slice (pre ++ file) (length pre + i) (length pre + i + n) = slice file i (i + n).
Proof. unfold slice. rewrite drop_app_here. f_equal. lia. Qed.

Lemma field_shift pre file i n : field (pre ++ file) (length pre + i) n = field file i n.
Proof. unfold field. by rewrite shift_ok, slice_shift. Qed.

Lemma bytes_shift pre file i n : bytes_at (pre ++ file) (length pre + i) n = bytes_at file i n.
Proof. unfold bytes_at. by rewrite shift_ok, slice_shift. Qed.

Lemma bytes_here (bs rest : list Z) : bytes_at (bs ++ rest) 0 (length bs) = Some bs.
Proof. unfold bytes_at. rewrite length_app. destruct (_ <=? _)%nat eqn:E; [|lia]. unfold slice. rewrite drop_0, Nat.add_0_l, Nat.sub_0_r, take_app_length. done. Qed.

Lemma setBytes_shift pre i bs buf :
  setBytes (length pre + i) bs (pre ++ buf) = (let? b := setBytes i bs buf in Ok (pre ++ b)).
Proof.
  unfold setBytes. rewrite shift_ok. destruct (_ <=? _)%nat eqn:E; [|done]. cbn [result_bind]. f_equal.
  rewrite <- Nat.add_assoc, drop_app_here. rewrite take_app, take_ge by lia.
  replace (length pre + i - length pre)%nat with i by lia. by rewrite <- app_assoc.
Qed.

(** ** What is written *)

(** The 30 bytes before a name, and the 46 bytes of a directory record. *)
Definition local_fields (n : nat) (time date crc size : Z) : list Z :=
  le 4 LOCAL_HEADER_SIGNATURE ++ le 2 VERSION_NEEDED ++ le 2 FLAG_UTF8_NAME ++ le 2 METHOD_STORED ++ le 2 time
  ++ le 2 date ++ le 4 crc ++ le 4 size ++ le 4 size ++ le 2 (Z.of_nat n) ++ [0; 0].

Definition record_fields (r : CentralRecord) : list Z :=
  le 4 CENTRAL_RECORD_SIGNATURE ++ le 2 VERSION_MADE_BY ++ le 2 VERSION_NEEDED ++ le 2 FLAG_UTF8_NAME
  ++ le 2 METHOD_STORED ++ le 2 (c_time r) ++ le 2 (c_date r) ++ le 4 (c_crc r) ++ le 4 (c_size r) ++ le 4 (c_size r)
  ++ le 2 (Z.of_nat (length (c_name r))) ++ repeat 0 12 ++ le 4 (c_offset r).

Definition record_bytes (r : CentralRecord) : list Z := record_fields r ++ c_name r.

Definition end_record (count bytes start : Z) : list Z :=
  le 4 END_RECORD_SIGNATURE ++ repeat 0 4 ++ le 2 count ++ le 2 count ++ le 4 bytes ++ le 4 start ++ [0; 0].

(** A field of as many bytes as its value has. *)
Lemma setBytes_here (bs old rest : list Z) : length bs = length old -> setBytes 0 bs (old ++ rest) = Ok (bs ++ rest).
Proof.
  intros Hl. unfold setBytes. rewrite Hl, length_app. destruct (_ <=? _)%nat eqn:E; [|lia]. cbn [Nat.add].
  by rewrite drop_app_length.
Qed.

(** A name over the zeros left for it. *)
Lemma setBytes_name (pre name : list Z) i rest : i = length pre ->
  setBytes i name (pre ++ repeat 0 (length name) ++ rest) = Ok (pre ++ name ++ rest).
Proof.
  intros ->. rewrite <- (Nat.add_0_r (length pre)), setBytes_shift, setBytes_here; [done|]. by rewrite repeat_length.
Qed.

Lemma localHeader_bytes name time date crc size :
  localHeader name time date crc size = Ok (local_fields (length name) time date crc size ++ name).
Proof.
  transitivity (setBytes LOCAL_HEADER_BYTES name (local_fields (length name) time date crc size ++ repeat 0 (length name))).
  - reflexivity.
  - rewrite <- (app_nil_r (repeat 0 _)), setBytes_name by reflexivity. by rewrite app_nil_r.
Qed.

(** A run of setters after [pre] is the run at the front, after [pre]. *)
Ltac shift_setters := repeat (rewrite setBytes_shift; cbn [Nat.add];
  match goal with |- context [result_bind (setBytes ?i ?bs ?b) (λ x, Ok (_ ++ x))] =>
    destruct (setBytes i bs b) as [?|?]; cbn [result_bind]; [|reflexivity] end).

Lemma putRecord_shift pre r buf :
  putRecord (length pre) r (pre ++ buf) = (let? view := putRecord 0 r buf in Ok (pre ++ view)).
Proof.
  unfold putRecord, setUint32, setUint16, CENTRAL_RECORD_BYTES. rewrite <- (Nat.add_0_r (length pre)) at 1.
  by shift_setters.
Qed.

Lemma putEnd_shift pre w buf : putEnd (length pre) w (pre ++ buf) = (let? view := putEnd 0 w buf in Ok (pre ++ view)).
Proof.
  unfold putEnd, setUint32, setUint16. rewrite <- (Nat.add_0_r (length pre)) at 1. by shift_setters.
Qed.

Lemma putRecord_bytes pre r rest :
  putRecord (length pre) r (pre ++ repeat 0 (CENTRAL_RECORD_BYTES + length (c_name r)) ++ rest) = Ok (pre ++ record_bytes r ++ rest).
Proof.
  rewrite putRecord_shift.
  assert (putRecord 0 r (repeat 0 (CENTRAL_RECORD_BYTES + length (c_name r)) ++ rest) =
    setBytes CENTRAL_RECORD_BYTES (c_name r) (record_fields r ++ repeat 0 (length (c_name r)) ++ rest)) as -> by reflexivity.
  rewrite setBytes_name by reflexivity. cbn [result_bind]. unfold record_bytes. by rewrite <- app_assoc.
Qed.

Definition directory (rs : list CentralRecord) : list Z := mjoin (map record_bytes rs).

Lemma record_bytes_length r : length (record_bytes r) = (CENTRAL_RECORD_BYTES + length (c_name r))%nat.
Proof. unfold record_bytes. by rewrite length_app. Qed.

Lemma directory_cons r rs : directory (r :: rs) = record_bytes r ++ directory rs.
Proof. reflexivity. Qed.

Lemma putRecords_bytes rs pre rest :
  putRecords (length pre) rs (pre ++ repeat 0 (length (directory rs)) ++ rest) =
    Ok (length pre + length (directory rs), pre ++ directory rs ++ rest)%nat.
Proof.
  revert pre. induction rs as [|r rs IH]; intros pre; cbn [putRecords].
  - cbn. by rewrite Nat.add_0_r.
  - rewrite directory_cons, length_app, record_bytes_length, repeat_app, <- app_assoc, putRecord_bytes. cbn [result_bind].
    rewrite app_assoc. rewrite <- record_bytes_length, <- length_app, IH. by rewrite length_app, <- !app_assoc, Nat.add_assoc.
Qed.

Definition end_fields (w : StoredZipWriter) : list Z := end_record (Z.of_nat (entryCount w)) (centralBytes w) (offset w).

Lemma finish_bytes w : centralBytes w = Z.of_nat (length (directory (records w))) ->
  finish w = Ok (sink w ++ directory (records w) ++ end_fields w).
Proof.
  intros Hc. unfold finish. replace (Z.to_nat _) with (length (directory (records w)) + END_RECORD_BYTES)%nat
    by (rewrite Hc; unfold END_RECORD_BYTES; lia).
  rewrite repeat_app. pose proof (putRecords_bytes (records w) [] (repeat 0 END_RECORD_BYTES)) as Hp. cbn [app length Nat.add] in Hp.
  rewrite Hp. cbn [result_bind]. rewrite putEnd_shift. reflexivity.
Qed.

(** ** What is read *)

Definition extracted (r : CentralRecord) (data : list Z) : Extracted :=
  {| x_name := c_name r; x_time := c_time r; x_date := c_date r; x_crc := c_crc r; x_data := data |}.

Definition local_bytes (r : CentralRecord) (data : list Z) : list Z :=
  local_fields (length (c_name r)) (c_time r) (c_date r) (c_crc r) (c_size r) ++ c_name r ++ data.

(** Every value of a record is smaller than its field, and the sizes are not the Zip64 marker. *)
Record record_ok (r : CentralRecord) (data : list Z) : Prop := {
  ro_name : Z.of_nat (length (c_name r)) < 2 ^ 16;
  ro_time : 0 <= c_time r < 2 ^ 16;
  ro_date : 0 <= c_date r < 2 ^ 16;
  ro_crc : 0 <= c_crc r < 2 ^ 32;
  ro_data : c_size r = Z.of_nat (length data);
  ro_size : c_size r < 0xffffffff;
  ro_offset : 0 <= c_offset r < 0xffffffff;
}.

Lemma expect_shift pre file i n v : expect (pre ++ file) (length pre + i) n v = expect file i n v.
Proof. unfold expect. by rewrite field_shift. Qed.

Lemma expect_here file i n v w : field file i n = Some (num_le (le n w)) -> num_le (le n w) = v -> expect file i n v = Some ().
Proof. intros Hf Hv. unfold expect. rewrite Hf. cbn. by rewrite Hv, Z.eqb_refl. Qed.

Section local.
Context (pre rest : list Z) (r : CentralRecord) (data : list Z).
Hypothesis Hok : record_ok r data.
Let fields : list Z := local_fields (length (c_name r)) (c_time r) (c_date r) (c_crc r) (c_size r).
Let file : list Z := pre ++ local_bytes r data ++ rest.

(** Field [i] of the header at [pre]. *)
Lemma local_field i n v : (∀ tail, field (fields ++ tail) i n = Some (num_le (le n v))) ->
  0 <= v < 2 ^ (8 * Z.of_nat n) -> field file (length pre + i) n = Some v.
Proof.
  intros Hf Hv. unfold file. rewrite field_shift. unfold local_bytes. fold fields. rewrite <- app_assoc, Hf.
  by rewrite num_le_small.
Qed.

Lemma local_name : bytes_at file (length pre + 30) (length (c_name r)) = Some (c_name r).
Proof.
  unfold file. rewrite bytes_shift. unfold local_bytes. fold fields. rewrite <- !app_assoc.
  change 30%nat with (length fields + 0)%nat. rewrite bytes_shift. apply bytes_here.
Qed.

Lemma local_data : bytes_at file (length pre + (30 + length (c_name r))) (length data) = Some data.
Proof.
  unfold file. rewrite bytes_shift. unfold local_bytes. fold fields. rewrite <- !app_assoc, (app_assoc fields).
  replace (30 + length (c_name r))%nat with (length (fields ++ c_name r) + 0)%nat by (rewrite length_app; unfold fields; cbn; lia).
  rewrite bytes_shift. apply bytes_here.
Qed.

Lemma local_sig : field file (length pre) 4 = Some 0x04034b50.
Proof. rewrite <- (Nat.add_0_r (length pre)). by apply (local_field 0 4). Qed.

Lemma read_local_here : read_local file (length pre) = Some (extracted r data, length pre + length (local_bytes r data))%nat.
Proof.
  destruct Hok as [Hn Ht Hd Hc Hdata Hs _]. unfold read_local, expect. rewrite local_sig.
  rewrite (local_field 6 2 FLAG_UTF8_NAME) by done. rewrite (local_field 8 2 METHOD_STORED) by done.
  rewrite (local_field 10 2 (c_time r)) by done. rewrite (local_field 12 2 (c_date r)) by done.
  rewrite (local_field 14 4 (c_crc r)) by done. rewrite (local_field 18 4 (c_size r)) by (done || lia).
  rewrite (local_field 22 4 (c_size r)) by (done || lia). rewrite (local_field 26 2 (Z.of_nat (length (c_name r)))) by (done || lia).
  rewrite (local_field 28 2 0) by done. cbn [mbind option_bind].
  change (0x04034b50 =? 0x04034b50) with true. change (METHOD_STORED =? 0) with true. cbn iota.
  change (Z.testbit FLAG_UTF8_NAME 3) with false. rewrite Z.eqb_refl. destruct (_ || _) eqn:E; [cbn in E; lia|].
  rewrite Nat2Z.id, local_name. cbn [mbind option_bind]. cbv zeta. change (Z.to_nat 0) with 0%nat. rewrite Nat.add_0_r, Hdata, Nat2Z.id.
  pose proof local_data as Hl. rewrite Nat.add_assoc in Hl. rewrite Hl. cbn [mbind option_bind]. unfold local_bytes. rewrite !length_app.
  change (length (local_fields _ _ _ _ _)) with 30%nat. unfold extracted. do 2 f_equal. lia.
Qed.
End local.

(** ** Records of the directory *)

Section record.
Context (pre rest : list Z) (r : CentralRecord) (data : list Z) (file : list Z).
Hypothesis Hok : record_ok r data.
Hypothesis Hfile : file = pre ++ record_bytes r ++ rest.

Lemma record_field i n v : (∀ tail, field (record_fields r ++ tail) i n = Some (num_le (le n v))) ->
  0 <= v < 2 ^ (8 * Z.of_nat n) -> field file (length pre + i) n = Some v.
Proof.
  intros Hf Hv. rewrite Hfile, field_shift. unfold record_bytes. rewrite <- app_assoc, Hf. by rewrite num_le_small.
Qed.

Lemma record_name : bytes_at file (length pre + 46) (length (c_name r)) = Some (c_name r).
Proof.
  rewrite Hfile, bytes_shift. unfold record_bytes. rewrite <- app_assoc.
  change 46%nat with (length (record_fields r) + 0)%nat. rewrite bytes_shift. apply bytes_here.
Qed.

Lemma record_sig : field file (length pre) 4 = Some 0x02014b50.
Proof. rewrite <- (Nat.add_0_r (length pre)). by apply (record_field 0 4). Qed.

Lemma read_record_here next : read_local file (Z.to_nat (c_offset r)) = Some (extracted r data, next) ->
  read_record file (length pre) = Some (extracted r data, length pre + length (record_bytes r))%nat.
Proof.
  intros Hl. destruct Hok as [Hn Ht Hd Hc Hdata Hs Ho]. unfold read_record, expect. rewrite record_sig.
  rewrite (record_field 12 2 (c_time r)) by done. rewrite (record_field 14 2 (c_date r)) by done.
  rewrite (record_field 16 4 (c_crc r)) by done. rewrite (record_field 20 4 (c_size r)) by (done || lia).
  rewrite (record_field 24 4 (c_size r)) by (done || lia). rewrite (record_field 28 2 (Z.of_nat (length (c_name r)))) by (done || lia).
  rewrite (record_field 30 2 0), (record_field 32 2 0), (record_field 34 2 0) by done.
  rewrite (record_field 42 4 (c_offset r)) by (done || lia). cbn [mbind option_bind].
  change (0x02014b50 =? 0x02014b50) with true. change (0 =? 0) with true. cbn iota. rewrite Nat2Z.id, record_name, Hl.
  cbn [mbind option_bind extracted x_data x_name x_time x_date x_crc]. rewrite bool_decide_eq_true_2 by done.
  destruct (_ || _) eqn:E; [lia|]. rewrite record_bytes_length. unfold CENTRAL_RECORD_BYTES. do 2 f_equal. lia.
Qed.
End record.

(** ** Whole archives *)

Abbreviation Pieces := (list (CentralRecord * list Z)).
Definition images (ps : Pieces) : list Z := mjoin (map (λ p, local_bytes (fst p) (snd p)) ps).
Definition contents_of (ps : Pieces) : list Extracted := map (λ p, extracted (fst p) (snd p)) ps.

Lemma images_cons (p : CentralRecord * list Z) (ps : Pieces) : images (p :: ps) = local_bytes (fst p) (snd p) ++ images ps.
Proof. reflexivity. Qed.

Lemma images_app (ps qs : Pieces) : images (ps ++ qs) = images ps ++ images qs.
Proof. unfold images. by rewrite map_app, join_app. Qed.

(** The local headers follow one another, each where its record says. *)
Fixpoint placed (ps : Pieces) (start : nat) : Prop :=
  match ps with
  | [] => True
  | p :: rest => c_offset (fst p) = Z.of_nat start /\ placed rest (start + length (local_bytes (fst p) (snd p)))
  end.

Lemma stream_images (ps : Pieces) (pre rest : list Z) (fuel : nat) : Forall (λ p, record_ok (fst p) (snd p)) ps -> (length ps < fuel)%nat ->
  (∃ sig, field rest 0 4 = Some sig /\ (sig = 0x02014b50 \/ sig = 0x06054b50)) ->
  stream fuel (pre ++ images ps ++ rest) (length pre) = Some (contents_of ps).
Proof.
  intros Hok Hf (sig & Hsig & Hend). revert pre fuel Hf. induction Hok as [|[r data] ps Hr _ IH]; intros pre fuel Hf;
    (destruct fuel as [|fuel]; [cbn in Hf; lia|]); cbn [stream].
  - rewrite <- (Nat.add_0_r (length pre)), field_shift. cbn [images map mjoin list_join app].
    change (images []) with (@nil Z). cbn [app]. rewrite Hsig. cbn [mbind option_bind]. by destruct Hend as [-> | ->].
  - rewrite images_cons. cbn [fst snd] in *. rewrite <- app_assoc, local_sig by done. cbn [mbind option_bind].
    change ((0x04034b50 =? 0x02014b50) || (0x04034b50 =? 0x06054b50)) with false. cbn iota.
    rewrite read_local_here by done. cbn [mbind option_bind]. rewrite app_assoc, <- length_app, IH by (cbn in Hf; lia). done.
Qed.

Lemma read_records_directory (ps : Pieces) (pre file rest : list Z) : Forall (λ p, record_ok (fst p) (snd p)) ps ->
  Forall (λ p, ∃ next, read_local file (Z.to_nat (c_offset (fst p))) = Some (extracted (fst p) (snd p), next)) ps ->
  file = pre ++ directory (map fst ps) ++ rest ->
  read_records (length ps) file (length pre) = Some (contents_of ps, length pre + length (directory (map fst ps)))%nat.
Proof.
  intros Hok. revert pre. induction Hok as [|[r data] ps Hr _ IH]; intros pre Hl Hfile.
  - cbn. by rewrite Nat.add_0_r.
  - apply Forall_cons in Hl as [[next Hn] Hl]. cbn [fst snd map length read_records] in *. rewrite directory_cons in Hfile |- *.
    rewrite <- app_assoc in Hfile. rewrite (read_record_here pre _ r data file Hr Hfile next Hn). cbn [mbind option_bind].
    rewrite <- length_app, IH; [|done|by rewrite Hfile, <- app_assoc]. cbn [mbind option_bind]. by rewrite !length_app, Nat.add_assoc.
Qed.

Lemma placed_local (ps : Pieces) (pre : list Z) (start : nat) (rest file : list Z) : Forall (λ p, record_ok (fst p) (snd p)) ps -> placed ps start ->
  start = length pre -> file = pre ++ images ps ++ rest ->
  Forall (λ p, ∃ next, read_local file (Z.to_nat (c_offset (fst p))) = Some (extracted (fst p) (snd p), next)) ps.
Proof.
  intros Hok. revert pre start. induction Hok as [|[r data] ps Hr _ IH]; intros pre start Hp -> Hfile; [constructor|].
  destruct Hp as [Ho Hp]. rewrite images_cons in Hfile. cbn [fst snd] in *. rewrite <- app_assoc in Hfile. constructor.
  - cbn [fst snd]. rewrite Ho, Nat2Z.id, Hfile. eexists. by apply read_local_here.
  - eapply (IH (pre ++ local_bytes r data)); [exact Hp|by rewrite length_app|by rewrite Hfile, <- app_assoc].
Qed.

Lemma record_bytes_min r : (46 <= length (record_bytes r))%nat.
Proof. rewrite record_bytes_length. unfold CENTRAL_RECORD_BYTES. lia. Qed.

Lemma pieces_length (ps : Pieces) : (length ps <= length (directory (map fst ps)))%nat.
Proof.
  induction ps as [|[r data] ps IH]; [done|]. cbn [map length fst]. rewrite directory_cons, length_app. pose proof (record_bytes_min r). lia.
Qed.

Section archive.
Context (ps : Pieces).
Let a : nat := length (images ps).
Let b : nat := length (directory (map fst ps)).
Let file : list Z := images ps ++ directory (map fst ps) ++ end_record (Z.of_nat (length ps)) (Z.of_nat b) (Z.of_nat a).
Hypothesis Hok : Forall (λ p, record_ok (fst p) (snd p)) ps.
Hypothesis Hplaced : placed ps 0.
Hypothesis Hcount : (length ps <= ZIP32_MAX_ENTRIES)%nat.
Hypothesis Hsize : Z.of_nat (a + b + 22) <= ZIP32_MAX_ARCHIVE_BYTES.

Lemma archive_streams : stream (S (length file)) file 0 = Some (contents_of ps).
Proof.
  apply (stream_images ps []); [done| |].
  - unfold file. rewrite !length_app. pose proof (pieces_length ps). lia.
  - destruct ps as [|[r data] qs]; cbn [map fst].
    + eexists. split; [reflexivity|by right].
    + exists 0x02014b50. split; [|by left]. rewrite directory_cons, <- app_assoc. unfold record_bytes. rewrite <- app_assoc. reflexivity.
Qed.

Lemma end_field i n v : (field (end_record (Z.of_nat (length ps)) (Z.of_nat b) (Z.of_nat a)) i n = Some (num_le (le n v))) ->
  0 <= v < 2 ^ (8 * Z.of_nat n) -> field file (a + b + i) n = Some v.
Proof.
  intros Hf Hv. unfold file. rewrite app_assoc. replace (a + b)%nat with (length (images ps ++ directory (map fst ps))) by apply length_app.
  by rewrite field_shift, Hf, num_le_small.
Qed.

Lemma archive_unzips : unzip file = Some (contents_of ps).
Proof.
  unfold ZIP32_MAX_ARCHIVE_BYTES in Hsize. unfold ZIP32_MAX_ENTRIES in Hcount.
  assert (length file - 22 = a + b)%nat as Hend.
  { unfold file. rewrite !length_app. change (length (end_record _ _ _)) with 22%nat. unfold a, b. lia. }
  unfold unzip. rewrite Hend. cbv zeta. unfold expect.
  pose proof (end_field 0 4 END_RECORD_SIGNATURE ltac:(done) ltac:(done)) as H0. rewrite Nat.add_0_r in H0. rewrite H0.
  rewrite (end_field 4 2 0), (end_field 6 2 0), (end_field 20 2 0) by done.
  rewrite (end_field 8 2 (Z.of_nat (length ps))), (end_field 10 2 (Z.of_nat (length ps))) by (lia || reflexivity).
  rewrite (end_field 12 4 (Z.of_nat b)), (end_field 16 4 (Z.of_nat a)) by (lia || reflexivity).
  cbn [mbind option_bind]. change (END_RECORD_SIGNATURE =? 0x06054b50) with true. change (0 =? 0) with true. cbn iota.
  rewrite Z.eqb_refl. destruct (_ || _) eqn:E; [cbn [negb orb] in E; lia|]. rewrite !Nat2Z.id.
  pose proof (λ rest, read_records_directory ps (images ps) file rest Hok) as Hr. fold a b in Hr.
  erewrite Hr; [|by apply (placed_local ps [] 0 _ _ Hok Hplaced eq_refl eq_refl)|reflexivity]. cbn [mbind option_bind]. rewrite Nat.eqb_refl. rewrite Nat2Z.inj_add, Z.eqb_refl. done.
Qed.
End archive.

(** ** Times *)

(** What the getters of a valid [Date] answer. *)
Record local_valid (t : LocalTime) : Prop := {
  lv_month : 0 <= month t < 12;
  lv_day : 1 <= day t <= 31;
  lv_hours : 0 <= hours t < 24;
  lv_minutes : 0 <= minutes t < 60;
  lv_seconds : 0 <= seconds t < 60;
}.

Lemma packed a b c s1 s2 : 0 <= s1 <= s2 -> 0 <= c < 2 ^ s1 -> 0 <= b < 2 ^ (s2 - s1) -> 0 <= a ->
  Z.lor (Z.lor (Z.shiftl a s2) (Z.shiftl b s1)) c = c + b * 2 ^ s1 + a * 2 ^ s2.
Proof.
  intros Hs Hc Hb Ha. assert (2 ^ s2 = 2 ^ (s2 - s1) * 2 ^ s1) as E by (rewrite <- Z.pow_add_r by lia; f_equal; lia).
  rewrite <- Z.lor_assoc, (Z.lor_comm (Z.shiftl b s1) c), (lor_shiftl c b s1), Z.lor_comm by lia. apply lor_shiftl; [lia|]. nia.
Qed.

(** The two fields of a time are the packed fields of the moment, clamped to the years they hold, at
    a resolution of two seconds. *)
Lemma dosDateTime_packed moment : match moment with Some t => local_valid t | None => True end ->
  ∃ y mo d h mi s2, dosDateTime moment = (s2 + mi * 2 ^ 5 + h * 2 ^ 11, d + mo * 2 ^ 5 + y * 2 ^ 9) /\
    0 <= y < 128 /\ 1 <= mo <= 12 /\ 1 <= d <= 31 /\ 0 <= h < 24 /\ 0 <= mi < 60 /\ 0 <= s2 < 30 /\
    (∀ t, moment = Some t -> DOS_FIRST_YEAR <= year t <= DOS_LAST_YEAR ->
      y + DOS_FIRST_YEAR = year t /\ mo = month t + 1 /\ d = day t /\ h = hours t /\ mi = minutes t /\ s2 = seconds t / 2).
Proof.
  unfold DOS_FIRST_YEAR, DOS_LAST_YEAR. intros Hv. destruct moment as [t|]; cbn [dosDateTime].
  - destruct Hv as [Hmo Hd Hh Hmi Hs]. unfold DOS_FIRST_YEAR, DOS_LAST_YEAR. destruct (year t <? 1980) eqn:E1.
    { exists 0, 1, 1, 0, 0, 0. split; [reflexivity|]. repeat split; try lia. all: intros; simplify_eq; lia. }
    destruct (2107 <? year t) eqn:E2.
    { exists 127, 12, 31, 23, 59, 29. split; [reflexivity|]. repeat split; try lia. all: intros; simplify_eq; lia. }
    exists (year t - 1980), (month t + 1), (day t), (hours t), (minutes t), (seconds t / 2).
    rewrite Z.shiftr_div_pow2 by done. change (2 ^ 1) with 2. rewrite !packed by lia.
    split; [done|]. repeat split; try lia; intros; simplify_eq; lia.
  - exists 0, 1, 1, 0, 0, 0. split; [reflexivity|]. by repeat split.
Qed.

Definition moment_valid (moment : option LocalTime) : Prop := match moment with Some t => local_valid t | None => True end.

Lemma dosDateTime_range moment : moment_valid moment ->
  0 <= fst (dosDateTime moment) < 2 ^ 16 /\ 0 <= snd (dosDateTime moment) < 2 ^ 16.
Proof. intros Hv. destruct (dosDateTime_packed moment Hv) as (y & mo & d & h & mi & s2 & -> & ?). cbn [fst snd]. lia. Qed.

(** ** The writer's state *)

Lemma placed_app (ps : Pieces) (p : CentralRecord * list Z) (start : nat) : placed ps start ->
  c_offset (fst p) = Z.of_nat (start + length (images ps)) -> placed (ps ++ [p]) start.
Proof.
  revert start. induction ps as [|q ps IH]; intros start Hp Ho; cbn [app placed].
  - rewrite Nat.add_0_r in Ho. by split.
  - destruct Hp as [Hq Hp]. split; [done|]. apply IH; [done|]. rewrite Ho, images_cons, length_app. f_equal. lia.
Qed.

Record written (w : StoredZipWriter) (ps : Pieces) : Prop := {
  wr_records : records w = map fst ps;
  wr_sink : sink w = images ps;
  wr_offset : offset w = Z.of_nat (length (images ps));
  wr_central : centralBytes w = Z.of_nat (length (directory (map fst ps)));
  wr_ok : Forall (λ p, record_ok (fst p) (snd p)) ps;
  wr_placed : placed ps 0;
  wr_count : (length ps <= ZIP32_MAX_ENTRIES)%nat;
  wr_size : Z.of_nat (length (images ps) + length (directory (map fst ps)) + 22) <= ZIP32_MAX_ARCHIVE_BYTES;
}.

Lemma newWriter_written limit : written (newWriter limit) [].
Proof. split; cbn; (done || constructor || unfold ZIP32_MAX_ENTRIES; lia). Qed.

Lemma written_finish w ps : written w ps -> ∃ archive, finish w = Ok archive /\
  archive = images ps ++ directory (map fst ps) ++ end_record (Z.of_nat (length ps)) (Z.of_nat (length (directory (map fst ps)))) (Z.of_nat (length (images ps))) /\
  Z.of_nat (length archive) = offset w + centralBytes w + 22.
Proof.
  intros [Hr Hs Ho Hc _ _ _ _]. eexists. split; [apply finish_bytes; by rewrite Hr|]. unfold end_fields, entryCount.
  rewrite Hr, Hs, Ho, Hc, length_map. split; [done|]. rewrite !length_app. change (length (end_record _ _ _)) with 22%nat. lia.
Qed.

(** What a caller hands over: a moment as a [Date] answers it, and a 32-bit checksum. *)
Record entry_valid (e : ZipFileEntry) : Prop := {
  en_moment : moment_valid (modified e);
  en_crc : 0 <= crc e < 2 ^ 32;
}.

Lemma chunks_size cs : foldl (λ total chunk, total + Z.of_nat (length chunk)) 0 cs = Z.of_nat (length (mjoin cs : list Z)).
Proof.
  assert (∀ acc, foldl (λ total chunk, total + Z.of_nat (length chunk)) acc cs = acc + Z.of_nat (length (mjoin cs : list Z))) as Ha; [|by rewrite Ha].
  induction cs as [|c cs IH]; intros acc; cbn [foldl]; [cbn; lia|].
  rewrite IH. change (mjoin (c :: cs)) with (c ++ mjoin cs). rewrite length_app. lia.
Qed.

Lemma chunks_sink (s : list Z) cs : foldl app s cs = s ++ mjoin cs.
Proof.
  revert s. induction cs as [|c cs IH]; intros s; cbn [foldl]; [by rewrite app_nil_r|].
  rewrite IH. change (mjoin (c :: cs)) with (c ++ mjoin cs). by rewrite <- app_assoc.
Qed.

Section adding.
Context (encode : jsstr -> list Z).

(** What an extractor should answer for an entry. *)
Definition expected (e : ZipFileEntry) : Extracted :=
  {| x_name := encode (path e); x_time := fst (dosDateTime (modified e)); x_date := snd (dosDateTime (modified e));
     x_crc := crc e; x_data := mjoin (chunks e) |}.

Definition record_of (w : StoredZipWriter) (e : ZipFileEntry) : CentralRecord :=
  {| c_name := encode (path e); c_time := fst (dosDateTime (modified e)); c_date := snd (dosDateTime (modified e));
     c_crc := crc e; c_size := Z.of_nat (length (mjoin (chunks e) : list Z)); c_offset := offset w |}.

Definition added (w : StoredZipWriter) (e : ZipFileEntry) : StoredZipWriter :=
  let r := record_of w e in
  {| sink := sink w ++ local_bytes r (mjoin (chunks e)); limitBytes := limitBytes w; records := records w ++ [r];
     offset := offset w + Z.of_nat (length (local_bytes r (mjoin (chunks e))));
     centralBytes := centralBytes w + Z.of_nat (length (record_bytes r)) |}.

Definition projected (w : StoredZipWriter) (e : ZipFileEntry) : Z :=
  projectedBytes w (Z.of_nat (length (encode (path e)))) (Z.of_nat (length (mjoin (chunks e) : list Z))).

(** Which branch [addFile] takes. *)
Lemma addFile_branch w e : addFile encode w e =
  if ZIP_MAX_NAME_BYTES <? Z.of_nat (length (encode (path e))) then Throw NameTooLong
  else if (ZIP32_MAX_ENTRIES <=? entryCount w)%nat || (ZIP32_MAX_ARCHIVE_BYTES <? projected w e) then Throw NeedsZip64
  else Ok (added w e).
Proof.
  unfold addFile. rewrite chunks_size. fold (projected w e). destruct (_ <? _); [done|]. destruct (_ || _); [done|].
  destruct (dosDateTime (modified e)) as [time date] eqn:Ed. rewrite localHeader_bytes. cbn [result_bind]. rewrite chunks_sink.
  unfold added, record_of, local_bytes. rewrite Ed. cbn [fst snd c_name c_time c_date c_crc c_size]. f_equal. f_equal.
  - by rewrite <- !app_assoc.
  - rewrite !length_app. lia.
Qed.

Lemma added_projected w e : offset (added w e) + centralBytes (added w e) + 22 = projected w e.
Proof.
  cbn [added offset centralBytes]. unfold projected, projectedBytes, local_bytes. rewrite record_bytes_length, !length_app.
  change (length (local_fields _ _ _ _ _)) with LOCAL_HEADER_BYTES. cbn [record_of c_name].
  change (Z.of_nat END_RECORD_BYTES) with 22. lia.
Qed.

Lemma added_written w ps e : written w ps -> entry_valid e ->
  Z.of_nat (length (encode (path e))) <= ZIP_MAX_NAME_BYTES -> (entryCount w < ZIP32_MAX_ENTRIES)%nat ->
  projected w e <= ZIP32_MAX_ARCHIVE_BYTES -> written (added w e) (ps ++ [(record_of w e, mjoin (chunks e))]).
Proof.
  intros [Hr Hs Ho Hc Hok Hp Hn _] [Hm Hcrc] Hname Hcount Hsize. rewrite <- added_projected in Hsize.
  assert (images (ps ++ [(record_of w e, mjoin (chunks e))]) = sink (added w e)) as Hi.
  { rewrite images_app, <- Hs. cbn. by rewrite app_nil_r. }
  assert (directory (map fst (ps ++ [(record_of w e, mjoin (chunks e))])) = directory (map fst ps) ++ record_bytes (record_of w e)) as Hd.
  { rewrite map_app. unfold directory. rewrite map_app, join_app. cbn. by rewrite app_nil_r. }
  assert (offset (added w e) = Z.of_nat (length (sink (added w e)))) as Hoff.
  { cbn [added offset sink]. rewrite length_app, Hs, Ho. lia. }
  assert (centralBytes (added w e) = Z.of_nat (length (directory (map fst ps) ++ record_bytes (record_of w e)))) as Hcen.
  { cbn [added centralBytes]. rewrite length_app, Hc. lia. }
  unfold ZIP32_MAX_ARCHIVE_BYTES, ZIP_MAX_NAME_BYTES in *.
  assert (0 <= offset w /\ offset w + Z.of_nat (length (mjoin (chunks e) : list Z)) < 0xffffffff) as [Hw1 Hw2].
  { pose proof Hsize as Hs'. cbn [added offset centralBytes] in Hs'. unfold local_bytes in Hs'. rewrite !length_app in Hs'. lia. }
  split; rewrite ?Hi, ?Hd; try done.
  - cbn [added records]. rewrite Hr, map_app. done.
  - apply Forall_app. split; [done|]. apply Forall_singleton. destruct (dosDateTime_range _ Hm) as [? ?].
    split; cbn [fst snd record_of c_name c_time c_date c_crc c_size c_offset]; lia || done.
  - apply placed_app; [done|]. by rewrite Nat.add_0_l.
  - rewrite length_app. cbn [length]. unfold entryCount in Hcount. rewrite Hr, length_map in Hcount. lia.
  - unfold ZIP32_MAX_ARCHIVE_BYTES. lia.
Qed.

Lemma addFiles_written entries w ps w' : written w ps -> Forall entry_valid entries -> addFiles encode w entries = Ok w' ->
  limitBytes w' = limitBytes w /\ ∃ qs, written w' (ps ++ qs) /\ contents_of qs = map expected entries.
Proof.
  revert w ps. induction entries as [|e entries IH]; intros w ps Hw Hv Ha; cbn [addFiles] in Ha.
  - apply Ok_inj in Ha as <-. split; [done|]. exists []. by rewrite app_nil_r.
  - apply Forall_cons in Hv as [He Hv]. rewrite addFile_branch in Ha. destruct (_ <? _) eqn:En; [done|].
    destruct (_ || _) eqn:Ez; [done|]. apply orb_false_iff in Ez as [Ec Ep]. apply Nat.leb_gt in Ec.
    cbn [result_bind] in Ha. destruct (IH (added w e) (ps ++ [(record_of w e, mjoin (chunks e))])) as (Hl & qs & Hq & Hx);
      [apply added_written; (done || lia)|done|done|].
    split; [done|]. exists ((record_of w e, mjoin (chunks e)) :: qs). rewrite <- app_assoc in Hq. split; [done|].
    unfold contents_of in *. cbn [map]. by rewrite Hx.
Qed.

(** C22: An archive of any files the writer accepted finishes without an error, stays below the
    Zip64 markers, and is read back exactly, names, packed times, checksums and bytes in order, by
    an extractor that starts from the end record and compares every directory record with its local
    header, and by one that streams through the local headers. *)
Theorem zip_roundtrip limit entries w : Forall entry_valid entries -> addFiles encode (newWriter limit) entries = Ok w ->
  ∃ archive, finish w = Ok archive /\ Z.of_nat (length archive) <= ZIP32_MAX_ARCHIVE_BYTES /\
    unzip archive = Some (map expected entries) /\
    stream (S (length archive)) archive 0 = Some (map expected entries).
Proof.
  intros Hv Ha. destruct (addFiles_written _ _ _ _ (newWriter_written limit) Hv Ha) as (_ & ps & Hw & Hx). cbn [app] in Hw.
  destruct (written_finish _ _ Hw) as (archive & Hf & -> & Hlen).
  destruct Hw as [_ _ Ho Hc Hok Hp Hn Hs]. eexists. split; [exact Hf|]. rewrite <- Hx. split; [lia|].
  split; [by apply archive_unzips|by apply archive_streams].
Qed.

(** Adding a file refuses, before anything is written, exactly the names the name field cannot
    hold and the files that would need Zip64; otherwise the finished archive has the projected size
    to the byte, and a file that [fits] keeps it within the caller's limit unless it is the only
    one.  No setter ever writes past a buffer. *)
Theorem addFile_outcome limit entries w e : Forall entry_valid entries -> entry_valid e ->
  addFiles encode (newWriter limit) entries = Ok w ->
  let n := Z.of_nat (length (encode (path e))) in
  let size := Z.of_nat (length (mjoin (chunks e) : list Z)) in
  match addFile encode w e with
  | Ok w' => n <= ZIP_MAX_NAME_BYTES /\ (entryCount w < ZIP32_MAX_ENTRIES)%nat /\
      ∃ archive, finish w' = Ok archive /\ Z.of_nat (length archive) = projectedBytes w n size /\
        Z.of_nat (length archive) <= ZIP32_MAX_ARCHIVE_BYTES /\
        (fits w n size = true -> entryCount w = 0%nat \/ Z.of_nat (length archive) <= limit)
  | Throw NameTooLong => ZIP_MAX_NAME_BYTES < n
  | Throw NeedsZip64 => (ZIP32_MAX_ENTRIES <= entryCount w)%nat \/ ZIP32_MAX_ARCHIVE_BYTES < projectedBytes w n size
  | Throw RangeError => False
  end.
Proof.
  intros Hv He Ha n size. destruct (addFiles_written _ _ _ _ (newWriter_written limit) Hv Ha) as (Hl & ps & Hw & _). cbn [app] in Hw.
  rewrite addFile_branch. fold n. destruct (_ <? _) eqn:En; [lia|]. unfold projected. fold n size.
  destruct (_ || _) eqn:Ez; [apply orb_true_iff in Ez as [Ez|Ez]; [left; by apply Nat.leb_le|right; lia]|].
  apply orb_false_iff in Ez as [Ec Ep]. apply Nat.leb_gt in Ec. split; [lia|]. split; [done|].
  assert (written (added w e) (ps ++ [(record_of w e, mjoin (chunks e))])) as Hw' by (apply added_written; (done || unfold projected; fold n size; lia)).
  destruct (written_finish _ _ Hw') as (archive & Hf & _ & Hlen). rewrite added_projected in Hlen. unfold projected in Hlen. fold n size in Hlen.
  exists archive. split; [done|]. split; [done|]. split; [lia|]. unfold fits. destruct (_ =? 0)%nat eqn:E0; [left; lia|].
  intros Hfit. right. apply andb_true_iff in Hfit as [_ Hfit]. cbn in Hl. lia.
Qed.
End adding.

(** ** Concrete runs *)

Module SampleArchive.
Definition noon : LocalTime := {| year := 2024; month := 1; day := 29; hours := 12; minutes := 30; seconds := 45 |}.
Definition note : ZipFileEntry := {| path := js "a/note.txt"; modified := Some noon; chunks := [js "hel"; js "lo"]; crc := crc32 (js "hello") 0 |}.
Definition empty : ZipFileEntry := {| path := js "empty"; modified := None; chunks := []; crc := 0 |}.

Lemma valid_note : entry_valid note.
Proof. split; [|by vm_compute]. split; cbn; lia. Qed.

Lemma valid : Forall entry_valid [note; empty].
Proof. apply Forall_cons. split; [apply valid_note|]. apply Forall_singleton. by split. Qed.
End SampleArchive.

Lemma zip_roundtrip_witness : ∃ w archive,
  addFiles (λ s, s) (newWriter 1000) [SampleArchive.note; SampleArchive.empty] = Ok w /\ finish w = Ok archive /\
  unzip archive = Some (map (expected (λ s, s)) [SampleArchive.note; SampleArchive.empty]).
Proof.
  destruct (addFiles (λ s, s) (newWriter 1000) [SampleArchive.note; SampleArchive.empty]) as [w|] eqn:Ew; [|vm_compute in Ew; discriminate].
  destruct (zip_roundtrip (λ s, s) 1000 _ _ SampleArchive.valid Ew) as (archive & Hf & _ & Hu & _). by exists w, archive.
Defined.

Lemma addFile_outcome_witness : ∃ w' archive, addFile (λ s, s) (newWriter 200) SampleArchive.note = Ok w' /\
  finish w' = Ok archive /\ length archive = 123%nat.
Proof.
  pose proof (addFile_outcome (λ s, s) 200 [] (newWriter 200) SampleArchive.note ltac:(by constructor) SampleArchive.valid_note eq_refl) as Ho. cbv zeta in Ho.
  destruct (addFile (λ s, s) (newWriter 200) SampleArchive.note) as [w'|] eqn:Ew; [|vm_compute in Ew; discriminate].
  destruct Ho as (_ & _ & archive & Hf & Hlen & _). exists w', archive. split; [done|]. split; [done|].
  apply Nat2Z.inj. rewrite Hlen. vm_compute. reflexivity.
Defined.

Local Open Scope Z_scope.

(** ** The standard *)

Definition POLYNOMIAL : Z := 0xedb88320.
Definition ALL_ONES : Z := 0xffffffff.

(** The register takes one bit. *)
Definition register (reg : Z) (bit : bool) : Z :=
  if xorb (Z.odd reg) bit then Z.lxor (Z.shiftr reg 1) POLYNOMIAL else Z.shiftr reg 1.
Definition bits_of (byte : Z) : list bool := map (λ i, Z.testbit byte (Z.of_nat i)) (seq 0 8).
Definition crc32_standard (bytes : list Z) : Z :=
  Z.lxor (foldl register ALL_ONES (mjoin (map bits_of bytes))) ALL_ONES.

(** ** The register is linear *)

Definition shift (x : Z) : Z := if Z.odd x then Z.lxor (Z.shiftr x 1) POLYNOMIAL else Z.shiftr x 1.

Lemma shift_lxor x y : shift (Z.lxor x y) = Z.lxor (shift x) (shift y).
Proof.
  unfold shift. rewrite Z.shiftr_lxor. assert (Z.odd (Z.lxor x y) = xorb (Z.odd x) (Z.odd y)) as ->
    by (rewrite <- !Z.bit0_odd; apply Z.lxor_spec).
  destruct (Z.odd x), (Z.odd y); cbn [xorb]; apply Z.bits_inj; intros i; rewrite !Z.lxor_spec;
    by destruct (Z.testbit _ i), (Z.testbit _ i), (Z.testbit POLYNOMIAL i).
Qed.

Lemma shift_double y : shift (2 * y) = y.
Proof.
  unfold shift. rewrite Z.odd_mul. cbn [Z.odd andb]. rewrite Z.shiftr_div_pow2 by done. rewrite Z.mul_comm. by apply Z.div_mul.
Qed.

Lemma register_shift reg bit : register reg bit = shift (Z.lxor reg (Z.b2z bit)).
Proof.
  unfold register, shift. rewrite Z.shiftr_lxor. assert (Z.odd (Z.lxor reg (Z.b2z bit)) = xorb (Z.odd reg) bit) as ->
    by (rewrite <- !Z.bit0_odd, Z.lxor_spec; f_equal; by destruct bit).
  replace (Z.shiftr (Z.b2z bit) 1) with 0 by (by destruct bit). by rewrite Z.lxor_0_r.
Qed.

(** A number by its bits, the least first. *)
Definition of_bits (bs : list bool) : Z := foldr (λ b acc, Z.b2z b + 2 * acc) 0 bs.

Lemma b2z_double b x : Z.b2z b + 2 * x = Z.lxor (Z.b2z b) (2 * x).
Proof.
  rewrite Z.add_nocarry_lxor; [done|]. apply Z.bits_inj_0. intros i. rewrite Z.land_spec.
  destruct (Z.eq_dec i 0) as [->|Hi]; [rewrite Z.testbit_even_0; apply andb_false_r|].
  destruct (Z.lt_ge_cases i 0) as [?|?]; [by rewrite Z.testbit_neg_r|].
  destruct b; cbn [Z.b2z]; [|by rewrite Z.bits_0]. change 1 with (2 ^ 0). by rewrite Z.pow2_bits_false by lia.
Qed.

Lemma registers_shift bs reg : foldl register reg bs = Nat.iter (length bs) shift (Z.lxor reg (of_bits bs)).
Proof.
  revert reg. induction bs as [|b bs IH]; intros reg; cbn [foldl length]; [cbn; by rewrite Z.lxor_0_r|].
  rewrite IH, register_shift. cbn [of_bits foldr]. fold (of_bits bs). rewrite b2z_double, <- Z.lxor_assoc.
  rewrite Nat.iter_succ_r. by rewrite (shift_lxor _ (2 * of_bits bs)), shift_double.
Qed.

Lemma iter_shift_lxor n x y : Nat.iter n shift (Z.lxor x y) = Z.lxor (Nat.iter n shift x) (Nat.iter n shift y).
Proof. induction n as [|n IH]; [done|]. rewrite !Nat.iter_succ, IH. apply shift_lxor. Qed.

Lemma iter_shift_up n y : Nat.iter n shift (Z.shiftl y (Z.of_nat n)) = y.
Proof.
  induction n as [|n IH]; [apply Z.shiftl_0_r|]. rewrite Nat.iter_succ_r.
  replace (Z.shiftl y (Z.of_nat (S n))) with (2 * Z.shiftl y (Z.of_nat n)); [by rewrite shift_double|].
  rewrite !Z.shiftl_mul_pow2 by lia. rewrite Nat2Z.inj_succ, Z.pow_succ_r by lia. lia.
Qed.

Lemma byte_cases (P : Z -> bool) : forallb (λ n, P (Z.of_nat n)) (seq 0 256) = true -> ∀ b, 0 <= b < 256 -> P b = true.
Proof.
  intros Hall b Hb. rewrite forallb_forall in Hall. specialize (Hall (Z.to_nat b)). rewrite Z2Nat.id in Hall by lia.
  apply Hall, in_seq. lia.
Qed.

Lemma of_bits_of b : 0 <= b < 256 -> of_bits (bits_of b) = b.
Proof. intros Hb. apply Z.eqb_eq, (byte_cases (λ b, of_bits (bits_of b) =? b)); [vm_compute; reflexivity|done]. Qed.

(** The table holds what eight steps do to the low byte. *)
Lemma table_entry b : 0 <= b < 256 -> getEntry crcTable b = Nat.iter 8 shift b /\ 0 <= getEntry crcTable b < 2 ^ 32.
Proof.
  intros Hb. assert ((getEntry crcTable b =? Nat.iter 8 shift b) && (0 <=? getEntry crcTable b) && (getEntry crcTable b <? 2 ^ 32) = true) as H; [|lia].
  apply (byte_cases (λ b, (getEntry crcTable b =? Nat.iter 8 shift b) && (0 <=? getEntry crcTable b) && (getEntry crcTable b <? 2 ^ 32)));
    [vm_compute; reflexivity|done].
Qed.

(** One byte of the register, by the table. *)
Lemma register_byte reg b : 0 <= b < 256 ->
  foldl register reg (bits_of b) = Z.lxor (getEntry crcTable (Z.land (Z.lxor reg b) 255)) (Z.shiftr reg 8).
Proof.
  intros Hb. rewrite registers_shift, of_bits_of by done. change (length (bits_of b)) with 8%nat. set (x := Z.lxor reg b).
  assert (0 <= Z.land x 255 < 256) as Hr by (change 255 with (Z.ones 8); rewrite Z.land_ones by done; by apply Z.mod_pos_bound).
  destruct (table_entry _ Hr) as [-> _]. assert (x = Z.lxor (Z.land x 255) (Z.shiftl (Z.shiftr x 8) 8)) as E.
  { apply Z.bits_inj. intros i. change 255 with (Z.ones 8). rewrite Z.lxor_spec, Z.land_spec.
    destruct (Z.lt_ge_cases i 0) as [?|?]; [by rewrite !Z.testbit_neg_r|]. rewrite Z.testbit_ones_nonneg by lia.
    destruct (Z.lt_ge_cases i 8) as [?|?].
    - rewrite Z.shiftl_spec_low by lia. replace (i <? 8) with true by lia. by rewrite andb_true_r, xorb_false_r.
    - rewrite Z.shiftl_spec_high, Z.shiftr_spec by lia. replace (i <? 8) with false by lia. rewrite andb_false_r.
      cbn [xorb]. f_equal. lia. }
  rewrite E at 1. rewrite iter_shift_lxor. f_equal. rewrite (iter_shift_up 8). unfold x. rewrite Z.shiftr_lxor.
  replace (Z.shiftr b 8) with 0; [apply Z.lxor_0_r|]. rewrite Z.shiftr_div_pow2 by done. by rewrite Z.div_small.
Qed.

(** ** JavaScript's 32-bit operations *)

Definition u32 (n : Z) : Z := n mod 2 ^ 32.

Lemma u32_range n : 0 <= u32 n < 2 ^ 32.
Proof. by apply Z.mod_pos_bound. Qed.

Lemma u32_small n : 0 <= n < 2 ^ 32 -> u32 n = n.
Proof. apply Z.mod_small. Qed.

Lemma u32_to_int32 n : u32 (to_int32 n) = u32 n.
Proof.
  unfold u32, to_int32. cbv zeta. destruct (_ <? _); [by apply Z.mod_mod|].
  rewrite <- (Z.mul_1_l (2 ^ 32)) at 2. replace (n mod 2 ^ 32 - 1 * 2 ^ 32) with (n mod 2 ^ 32 + (-1) * 2 ^ 32) by lia.
  by rewrite Z.mod_add, Z.mod_mod.
Qed.

Lemma u32_lxor a b : u32 (Z.lxor a b) = Z.lxor (u32 a) (u32 b).
Proof. unfold u32. rewrite <- !Z.land_ones by done. apply Z.bits_inj. intros i. rewrite !Z.land_spec, !Z.lxor_spec, !Z.land_spec.
  by destruct (Z.testbit a i), (Z.testbit b i), (Z.testbit (Z.ones 32) i). Qed.

Lemma u32_xor a b : u32 (bit_xor a b) = Z.lxor (u32 a) (u32 b).
Proof. unfold bit_xor. by rewrite u32_to_int32, u32_lxor. Qed.

Lemma bit_and_byte a : bit_and a 255 = Z.land (u32 a) 255.
Proof.
  unfold bit_and. assert (Z.land a 255 = Z.land (u32 a) 255) as <-.
  { unfold u32. change 255 with (Z.ones 8). rewrite !Z.land_ones by done.
    symmetry. apply Z.mod_mod_divide. by exists (2 ^ 24). }
  assert (0 <= Z.land a 255 < 256) by (change 255 with (Z.ones 8); rewrite Z.land_ones by done; by apply Z.mod_pos_bound).
  unfold to_int32. rewrite Z.mod_small by lia. destruct (_ <? _) eqn:E; [done|lia].
Qed.

Lemma ushr_not a : ushr (bit_not a) 0 = Z.lxor (u32 a) ALL_ONES.
Proof.
  unfold ushr. rewrite Z.shiftr_0_r. fold (u32 (bit_not a)). unfold bit_not. rewrite u32_to_int32.
  rewrite <- Z.lxor_m1_r, u32_lxor. done.
Qed.

Lemma crc_step_register crc b : 0 <= b < 256 -> u32 (crc_step crc b) = foldl register (u32 crc) (bits_of b).
Proof.
  intros Hb. rewrite register_byte by done. unfold crc_step. rewrite u32_xor, bit_and_byte, u32_xor, (u32_small b) by lia.
  set (x := Z.land _ 255). assert (0 <= x < 256) as Hx by (unfold x; change 255 with (Z.ones 8); rewrite Z.land_ones by done; by apply Z.mod_pos_bound).
  destruct (table_entry x Hx) as [_ Ht]. rewrite (u32_small (getEntry _ _)) by done. f_equal. unfold ushr. fold (u32 crc).
  apply u32_small. rewrite Z.shiftr_div_pow2 by done. pose proof (u32_range crc). split; [apply Z.div_pos; lia|]. apply Z.div_lt_upper_bound; lia.
Qed.

Lemma crc_steps_register bytes crc : Forall (λ b, 0 <= b < 256) bytes ->
  u32 (foldl crc_step crc bytes) = foldl register (u32 crc) (mjoin (map bits_of bytes)).
Proof.
  intros Hb. revert crc. induction Hb as [|b bytes Hb _ IH]; intros crc; [done|]. cbn [foldl map].
  change (mjoin (bits_of b :: ?l)) with (bits_of b ++ mjoin l). by rewrite foldl_app, IH, crc_step_register.
Qed.

Lemma ALL_ONES_twice x : 0 <= x < 2 ^ 32 -> Z.lxor (Z.lxor x ALL_ONES) ALL_ONES = x.
Proof. intros _. by rewrite Z.lxor_assoc, Z.lxor_nilpotent, Z.lxor_0_r. Qed.

Lemma crc32_register bytes previous : Forall (λ b, 0 <= b < 256) bytes ->
  crc32 bytes previous = Z.lxor (foldl register (Z.lxor (u32 previous) ALL_ONES) (mjoin (map bits_of bytes))) ALL_ONES.
Proof.
  intros Hb. unfold crc32. rewrite (ushr_not (foldl _ _ _)), crc_steps_register, ushr_not by done. do 2 f_equal.
  rewrite u32_lxor, (u32_small (u32 previous)) by apply u32_range. done.
Qed.

(** C23: The checksum written for a file is the CRC-32 of the standard, bit for bit, and computing it
    one segment at a time, each call continuing from the last, gives the checksum of the whole. *)
Theorem crc32_is_standard (segments : list (list Z)) : Forall (Forall (λ b, 0 <= b < 256)) segments ->
  foldl (λ previous segment, crc32 segment previous) 0 segments = crc32_standard (mjoin segments).
Proof.
  intros Hs. assert (∀ pre, Forall (λ b, 0 <= b < 256) pre ->
    foldl (λ previous segment, crc32 segment previous) (crc32_standard pre) segments = crc32_standard (pre ++ mjoin segments)) as Hgen;
    [|by apply (Hgen [])].
  induction Hs as [|s segments Hseg _ IH]; intros pre Hpre; cbn [foldl]; [by rewrite app_nil_r|].
  change (mjoin (s :: segments)) with (s ++ mjoin segments). rewrite app_assoc, <- IH; [|apply Forall_app; by split].
  f_equal. rewrite crc32_register by done. unfold crc32_standard. rewrite map_app, join_app, foldl_app. do 2 f_equal.
  assert (crc32 pre 0 = crc32_standard pre) as E by (rewrite crc32_register by done; done).
  fold (crc32_standard pre). rewrite <- E. rewrite u32_small by (unfold crc32, ushr; rewrite Z.shiftr_0_r; by apply Z.mod_pos_bound).
  rewrite E. unfold crc32_standard. by rewrite Z.lxor_assoc, Z.lxor_nilpotent, Z.lxor_0_r.
Qed.

Lemma crc32_is_standard_witness :
  foldl (λ previous segment, crc32 segment previous) 0 [[49; 50; 51; 52]; []; [53; 54; 55; 56; 57]] =
    crc32_standard [49; 50; 51; 52; 53; 54; 55; 56; 57].
Proof.
  apply (crc32_is_standard [[49; 50; 51; 52]; []; [53; 54; 55; 56; 57]]). repeat (constructor; try lia).
Defined.
