(* ===== verification/ArchiveNames.v ===== *)
(** The paths documents are given inside an archive: client/src/services/documents/archiveNames.ts,
    with the download rules it builds on (download.ts), the split of a name from its extension
    (shared/src/utils/index.ts) and the folder chains (services/export/folderPath.ts).

    Unicode normalisation and upper-casing are the language's tables: the fields of [Unicode], with
    what the allocator relies on in [UnicodeLaws].  The loop that looks for a free name takes as fuel
    one more than the names taken, and the walk up a folder's parents one more than the folders;
    [None] is a loop that has not ended.  A [Map] or [Set] is a finite map or set; the empty set
    [#names] leaves behind when it is read cannot be told from an absent one. *)
From stdpp Require Import gmap.
From S2P Require Import Prelude.
Local Open Scope Z_scope.

Class Unicode := { normalizeNFC : jsstr -> jsstr; toUpperCase : jsstr -> jsstr }.

Definition ascii (c : Z) : Prop := 0 <= c < 128.
Definition upper_unit (c : Z) : Z := if (97 <=? c) && (c <=? 122) then c - 32 else c.

(** An ASCII character never combines with what stands before it, and has no context in the case
    mapping; both leave an ASCII text as ASCII defines them. *)
Class UnicodeLaws `{Unicode} := {
  nfc_split a c b : ascii c -> normalizeNFC (a ++ c :: b) = normalizeNFC a ++ normalizeNFC (c :: b);
  upper_split a c b : ascii c -> toUpperCase (a ++ c :: b) = toUpperCase a ++ toUpperCase (c :: b);
  nfc_ascii s : Forall ascii s -> normalizeNFC s = s;
  upper_ascii s : Forall ascii s -> toUpperCase s = map upper_unit s;
}.

(** ** Strings *)

(** Length of [TextEncoder().encode] of one code point; a lone surrogate is encoded as U+FFFD. *)
Definition utf8Units (point : jsstr) : nat :=
  match point with
  | [c] => if c <? 128 then 1 else if c <? 2048 then 2 else 3
  | _ => 4
  end.
Definition utf8Length (text : jsstr) : nat := list_sum (map utf8Units (code_points text)).

Definition lastIndexOf (c : Z) (s : jsstr) : option nat :=
  (λ i, length s - 1 - i)%nat <$> indexOf c (rev s) 0.

Definition trimTrailing (p : Z -> bool) (s : jsstr) : jsstr := rev (drop (span_len p (rev s)) (rev s)).
Definition dot_or_space (c : Z) : bool := (c =? 46) || (c =? 32).

Definition splitDocumentName (name : jsstr) : jsstr * jsstr :=
  match lastIndexOf 46 name with
  | Some (S k) => (take (S k) name, drop (S k) name)
  | _ => (name, [])
  end.

(** ** Characters *)

(** [UNSAFE_FILENAME_CHARACTERS]. *)
Definition unsafe_character (c : Z) : bool :=
  (0 <=? c) && (c <=? 0x1f) || (0x7f <=? c) && (c <=? 0x9f) || (c =? 47) || (c =? 92) || (c =? 0x61c)
  || (c =? 0x200e) || (c =? 0x200f) || (0x202a <=? c) && (c <=? 0x202e) || (0x2066 <=? c) && (c <=? 0x2069).

Definition stripUnsafeFilenameCharacters (name : jsstr) : jsstr :=
  let replaced := map (λ c, if unsafe_character c then 95 else c) name in
  trimTrailing dot_or_space (trim replaced).

(** [NON_PORTABLE_CHARACTERS]. *)
Definition non_portable (c : Z) : bool :=
  existsb (Z.eqb c) [60; 62; 58; 34; 124; 63; 42; 0x2044; 0x2215; 0x29f8; 0xff0f; 0xff3c].

(** [LONE_SURROGATE], replaced by U+FFFD. *)
Definition replaceLone (p : jsstr) : jsstr :=
  match p with [c] => if is_high c || is_low c then [0xfffd] else p | _ => p end.
Definition replaceLoneSurrogates (s : jsstr) : jsstr := mjoin (map replaceLone (code_points s)).

(** [RESERVED_DEVICE_NAME]. *)
Definition device_rest (s : jsstr) : option jsstr :=
  let l := map lower_unit s in
  if existsb (starts_with l) [js "con"; js "prn"; js "aux"; js "nul"] then Some (drop 3 s)
  else if existsb (starts_with l) [js "com"; js "lpt"] && existsb (λ d, is_digit d || existsb (Z.eqb d) [0xb9; 0xb2; 0xb3]) (take 1 (drop 3 s))
  then Some (drop 4 s)
  else None.
Definition isReservedDeviceName (s : jsstr) : bool :=
  match device_rest s with
  | Some rest =>
      match drop (span_len (Z.eqb 32) rest) rest with [] => true | c :: _ => c =? 46 end
  | None => false
  end.

(** [DOT_LIKE_ONLY]. *)
Definition isDotLikeOnly (s : jsstr) : bool :=
  negb (length s =? 0)%nat && forallb (λ c, existsb (Z.eqb c) [46; 0x2024; 0xff0e]) s.

(** ** Segments *)

Definition MAX_SEGMENT_BYTES : nat := 255.
Definition MAX_DOCUMENT_EXT_LENGTH : nat := 32.
Definition MAX_FOLDER_NESTING_DEPTH : nat := 50.
Definition FALLBACK_DOCUMENT_SEGMENT : jsstr := js "document".
Definition FALLBACK_FOLDER_SEGMENT : jsstr := js "folder".

Fixpoint cut_loop (points : list jsstr) (used budget : nat) (kept : jsstr) : jsstr :=
  match points with
  | [] => kept
  | character :: rest =>
      let used := (used + utf8Units character)%nat in
      if (budget <? used)%nat then kept else cut_loop rest used budget (kept ++ character)
  end.
Definition cutToBytes (text : jsstr) (budget : nat) : jsstr := cut_loop (code_points text) 0 budget [].

Definition fitSegment (stem tail fallback : jsstr) : jsstr :=
  let cut := cutToBytes stem (MAX_SEGMENT_BYTES - utf8Length tail) in
  if bool_decide (cut = stem) then stem ++ tail
  else
    let trimmed := trimTrailing dot_or_space cut in
    (if bool_decide (trimmed = []) then fallback else trimmed) ++ tail.

Definition splitForArchive (segment : jsstr) : jsstr * jsstr :=
  let (stem, suffix) := splitDocumentName segment in
  if (MAX_DOCUMENT_EXT_LENGTH <? length suffix - 1)%nat then (segment, []) else (stem, suffix).

Definition settle (segment fallback : jsstr) : jsstr :=
  if isDotLikeOnly segment then fallback
  else if negb (isReservedDeviceName segment) then segment
  else let (stem, suffix) := splitForArchive (95 :: segment) in fitSegment stem suffix fallback.

Section names.
Context `{Unicode}.

Definition archiveSegment (name fallback : jsstr) : jsstr :=
  let segment := map (λ c, if non_portable c then 95 else c)
    (stripUnsafeFilenameCharacters (replaceLoneSurrogates (normalizeNFC name))) in
  if bool_decide (segment = []) then fallback
  else let (stem, suffix) := splitForArchive segment in settle (fitSegment stem suffix fallback) fallback.

Definition numbered (segment : jsstr) (counter : nat) (fallback : jsstr) : jsstr :=
  let (stem, suffix) := splitForArchive segment in
  settle (fitSegment stem (js " (" ++ num (Z.of_nat counter) ++ js ")" ++ suffix) fallback) fallback.

Definition collisionKey (segment : jsstr) : jsstr := toUpperCase (normalizeNFC segment).

(** ** Folder chains *)

Record DecryptedFolder := { f_id : jsstr; f_name : jsstr; parentId : option jsstr }.

Definition byId (folders : list DecryptedFolder) : gmap jsstr DecryptedFolder :=
  foldl (λ m f, <[f_id f := f]> m) ∅ folders.

Fixpoint walk (fuel : nat) (ids : gmap jsstr DecryptedFolder) (visited : gset jsstr) (current : option DecryptedFolder)
    (chain : list DecryptedFolder) : option (list DecryptedFolder) :=
  match fuel, current with
  | _, None => Some chain
  | O, Some _ => None
  | S fuel, Some f =>
      if bool_decide (f_id f ∈ visited) then Some chain
      else walk fuel ids ({[f_id f]} ∪ visited) (parentId f ≫= λ p, ids !! p) (f :: chain)
  end.

Definition folderAncestry (folders : list DecryptedFolder) : option (gmap jsstr (list DecryptedFolder)) :=
  foldl (λ acc f, m ← acc; chain ← walk (2 + length folders) (byId folders) ∅ (Some f) []; Some (<[f_id f := chain]> m))
    (Some ∅) folders.

(** ** The allocator *)

Record ArchivePlacement := { path : jsstr; pathBytes : nat; directory : jsstr; key : jsstr }.

Record ArchivePathAllocator := {
  chains : gmap jsstr (list DecryptedFolder);
  directories : gmap jsstr jsstr;
  taken : gmap jsstr (gset jsstr);
  pending : list (jsstr * jsstr);
}.

Definition newAllocator (folders : list DecryptedFolder) : option ArchivePathAllocator :=
  c ← folderAncestry folders; Some {| chains := c; directories := ∅; taken := ∅; pending := [] |}.

Definition names (a : ArchivePathAllocator) (d : jsstr) : gset jsstr := default ∅ (taken a !! d).
Definition addName (d k : jsstr) (a : ArchivePathAllocator) : ArchivePathAllocator :=
  {| chains := chains a; directories := directories a; taken := <[d := {[k]} ∪ names a d]> (taken a); pending := pending a |}.

Fixpoint unique_loop (fuel : nat) (taken : gset jsstr) (segment fallback candidate : jsstr) (counter : nat) : option jsstr :=
  match fuel with
  | O => None
  | S fuel =>
      if bool_decide (collisionKey candidate ∈ taken)
      then unique_loop fuel taken segment fallback (numbered segment counter fallback) (S counter)
      else Some candidate
  end.
Definition unique (a : ArchivePathAllocator) (d segment fallback : jsstr) : option jsstr :=
  unique_loop (2 + size (names a d)) (names a d) segment fallback segment 2.

(** A name within a directory. *)
Definition within (d segment : jsstr) : jsstr := if bool_decide (d = []) then segment else d ++ [47] ++ segment.

Fixpoint directory_loop (a : ArchivePathAllocator) (chain : list DecryptedFolder) (d idPath : jsstr)
    : option (jsstr * ArchivePathAllocator) :=
  match chain with
  | [] => Some (d, a)
  | folder :: rest =>
      let idPath := idPath ++ [47] ++ f_id folder in
      match directories a !! idPath with
      | Some known => directory_loop a rest known idPath
      | None =>
          segment ← unique a d (archiveSegment (f_name folder) FALLBACK_FOLDER_SEGMENT) FALLBACK_FOLDER_SEGMENT;
          let a := addName d (collisionKey segment) a in
          let d := within d segment in
          directory_loop {| chains := chains a; directories := <[idPath := d]> (directories a); taken := taken a; pending := pending a |}
            rest d idPath
      end
  end.

Definition directoryFor (a : ArchivePathAllocator) (folderId : option jsstr) : option (jsstr * ArchivePathAllocator) :=
  match chains a !! default [] folderId with
  | None => Some ([], a)
  | Some chain => if (MAX_FOLDER_NESTING_DEPTH <? length chain)%nat then Some ([], a) else directory_loop a chain [] []
  end.

Definition place (a : ArchivePathAllocator) (name : jsstr) (folderId : option jsstr) : option (ArchivePlacement * ArchivePathAllocator) :=
  '(d, a) ← directoryFor a folderId;
  segment ← unique a d (archiveSegment name FALLBACK_DOCUMENT_SEGMENT) FALLBACK_DOCUMENT_SEGMENT;
  let p := within d segment in
  Some ({| path := p; pathBytes := utf8Length p; directory := d; key := collisionKey segment |}, a).

Definition reserve (placement : ArchivePlacement) (a : ArchivePathAllocator) : ArchivePathAllocator :=
  let a := addName (directory placement) (key placement) a in
  {| chains := chains a; directories := directories a; taken := taken a;
     pending := pending a ++ [(directory placement, key placement)] |}.

Definition keepArchive (a : ArchivePathAllocator) : ArchivePathAllocator :=
  {| chains := chains a; directories := directories a; taken := taken a; pending := [] |}.

Definition giveBack (a : ArchivePathAllocator) (reserved : jsstr * jsstr) : ArchivePathAllocator :=
  {| chains := chains a; directories := directories a;
     taken := <[fst reserved := names a (fst reserved) ∖ {[snd reserved]}]> (taken a); pending := pending a |}.
Definition dropArchive (a : ArchivePathAllocator) : ArchivePathAllocator := keepArchive (foldl giveBack a (pending a)).
End names.
