(* ===== verification/ArchiveSegmentSpec.v ===== *)
(** A name made safe as one path segment: what every segment of an archive satisfies, whatever the
    document or folder was called; and names made distinct. *)
From stdpp Require Import gmap.
From S2P Require Import Prelude ArchiveNames.
Local Open Scope Z_scope.

(** ** Code points *)

Lemma surrogate_ind (P : jsstr -> Prop) :
  P [] -> (∀ a, P [a]) -> (∀ a b s, P (b :: s) -> P s -> P (a :: b :: s)) -> ∀ s, P s.
Proof.
  intros H0 H1 H2 s. assert (P s /\ ∀ a, P (a :: s)) as [? _]; [|done].
  induction s as [|b s [IH1 IH2]]; [by split|]. split; [apply IH2|]. intros a. by apply H2.
Qed.

Lemma code_points_two a b s : code_points (a :: b :: s) =
  if is_high a && is_low b then [a; b] :: code_points s else [a] :: code_points (b :: s).
Proof. reflexivity. Qed.

Lemma code_points_join s : mjoin (code_points s) = s.
Proof.
  induction s as [|a|a b s IH1 IH2] using surrogate_ind; [done|done|]. rewrite code_points_two. destruct (is_high a && is_low b).
  - change (mjoin ([a; b] :: ?l)) with (a :: b :: mjoin l). by rewrite IH2.
  - change (mjoin ([a] :: ?l)) with (a :: mjoin l). by rewrite IH1.
Qed.

Lemma code_points_app a b : (∀ c r, b = c :: r -> is_low c = false) -> code_points (a ++ b) = code_points a ++ code_points b.
Proof.
  intros Hb. induction a as [|x|x y a IH1 IH2] using surrogate_ind; [done| |].
  - destruct b as [|c b]; [done|]. cbn [app]. by rewrite code_points_two, (Hb c b eq_refl), andb_false_r.
  - cbn [app] in *. rewrite !code_points_two. destruct (is_high x && is_low y); [by rewrite IH2|]. by rewrite IH1.
Qed.

Lemma code_points_plain a b : Forall (λ c, is_high c = false) a -> code_points (a ++ b) = map (λ c, [c]) a ++ code_points b.
Proof.
  induction 1 as [|c a Hc _ IH]; [done|]. cbn [app map]. rewrite <- IH. destruct (a ++ b) as [|d s]; [done|].
  by rewrite code_points_two, Hc.
Qed.

Lemma head_code_points a s n : ∃ t, mjoin (take (S n) (code_points (a :: s))) = a :: t.
Proof.
  destruct s as [|b s]; [by eexists|]. rewrite code_points_two. destruct (is_high a && is_low b); cbn [take]; by eexists.
Qed.

Lemma code_points_take n s : code_points (mjoin (take n (code_points s))) = take n (code_points s).
Proof.
  revert n. induction s as [|a|a b s IH1 IH2] using surrogate_ind; intros n; [by destruct n|destruct n as [|[|n]]; done|].
  destruct n as [|n]; [done|]. rewrite code_points_two. destruct (is_high a && is_low b) eqn:E; cbn [take].
  - change (mjoin ([a; b] :: ?l)) with (a :: b :: mjoin l). by rewrite code_points_two, E, IH2.
  - change (mjoin ([a] :: ?l)) with (a :: mjoin l). specialize (IH1 n). destruct n as [|n]; [done|].
    destruct (head_code_points b s n) as [t Ht]. rewrite Ht in IH1 |- *. by rewrite code_points_two, E, IH1.
Qed.

(** No lone surrogate: the text has a UTF-8 encoding of its own. *)
Definition lone (p : jsstr) : bool := match p with [c] => is_high c || is_low c | _ => false end.
Definition scalar (s : jsstr) : Prop := Forall (λ p, lone p = false) (code_points s).

Lemma scalar_app a b : (∀ c r, b = c :: r -> is_low c = false) -> scalar (a ++ b) <-> scalar a /\ scalar b.
Proof. intros Hb. unfold scalar. rewrite code_points_app by done. apply Forall_app. Qed.

Lemma utf8Length_app a b : (∀ c r, b = c :: r -> is_low c = false) -> utf8Length (a ++ b) = (utf8Length a + utf8Length b)%nat.
Proof. intros Hb. unfold utf8Length. by rewrite code_points_app, map_app, list_sum_app. Qed.

Lemma utf8Units_le p : (utf8Units p <= 4)%nat.
Proof. unfold utf8Units. destruct p as [|c [|]]; try lia. repeat destruct (_ <? _); lia. Qed.

Lemma sum_cons p ps : list_sum (map utf8Units (p :: ps)) = (utf8Units p + list_sum (map utf8Units ps))%nat.
Proof. reflexivity. Qed.

Lemma utf8Length_le s : (utf8Length s <= 4 * length s)%nat.
Proof.
  unfold utf8Length. induction s as [|a|a b s IH1 IH2] using surrogate_ind; [done| |].
  - cbn. pose proof (utf8Units_le [a]). cbn in H. lia.
  - rewrite code_points_two. destruct (is_high a && is_low b); rewrite sum_cons; cbn [length] in *.
    + cbn [utf8Units]. lia.
    + pose proof (utf8Units_le [a]). lia.
Qed.

Lemma utf8Length_ascii s : Forall ascii s -> utf8Length s = length s.
Proof.
  intros Hs. unfold utf8Length. rewrite <- (app_nil_r s), code_points_plain.
  - rewrite app_nil_r. cbn [code_points]. rewrite app_nil_r. induction Hs as [|c s Hc _ IH]; [done|].
    cbn [map length]. change (list_sum (?x :: ?l)) with (x + list_sum l)%nat. rewrite IH. unfold ascii in Hc.
    cbn [utf8Units]. by replace (c <? 128) with true by lia.
  - eapply Forall_impl; [exact Hs|]. unfold ascii, is_high. intros c Hc. lia.
Qed.

(** ** Cutting *)

Lemma cut_loop_prefix points used budget kept : (used <= budget)%nat ->
  ∃ n, cut_loop points used budget kept = kept ++ mjoin (take n points) /\
    (used + list_sum (map utf8Units (take n points)) <= budget)%nat.
Proof.
  revert used kept. induction points as [|p points IH]; intros used kept Hu; cbn [cut_loop].
  - exists 0%nat. cbn. rewrite app_nil_r. split; [done|lia].
  - cbv zeta. destruct (_ <? _)%nat eqn:E.
    + exists 0%nat. cbn. rewrite app_nil_r. split; [done|lia].
    + destruct (IH (used + utf8Units p)%nat (kept ++ p)) as (n & -> & Hn); [lia|]. exists (S n).
      cbn [take]. rewrite sum_cons.
      change (mjoin (p :: ?l)) with (p ++ mjoin l). rewrite <- app_assoc. split; [done|lia].
Qed.

(** A cut keeps whole code points from the front, within the budget. *)
Lemma cutToBytes_spec text budget : ∃ n, cutToBytes text budget = mjoin (take n (code_points text)) /\
  (utf8Length (cutToBytes text budget) <= budget)%nat.
Proof.
  destruct (cut_loop_prefix (code_points text) 0 budget [] ltac:(lia)) as (n & Hc & Hn). exists n.
  fold (cutToBytes text budget) in Hc. cbn [app] in Hc. split; [done|]. unfold utf8Length. by rewrite Hc, code_points_take.
Qed.

Lemma cutToBytes_prefix text budget : ∃ rest, text = cutToBytes text budget ++ rest.
Proof.
  destruct (cutToBytes_spec text budget) as (n & -> & _). exists (mjoin (drop n (code_points text))).
  by rewrite <- join_app, take_drop, code_points_join.
Qed.

Lemma cutToBytes_scalar text budget : scalar text -> scalar (cutToBytes text budget).
Proof.
  intros Hs. destruct (cutToBytes_spec text budget) as (n & -> & _). unfold scalar. rewrite code_points_take. by apply Forall_take.
Qed.

Lemma cutToBytes_head c text budget : ascii c -> (1 <= budget)%nat -> ∃ rest, cutToBytes (c :: text) budget = c :: rest.
Proof.
  unfold ascii. intros Hc Hb. unfold cutToBytes. assert (code_points (c :: text) = [c] :: code_points text) as ->.
  { apply (code_points_plain [c]). repeat constructor. unfold is_high. lia. }
  cbn [cut_loop utf8Units]. replace (c <? 128) with true by lia. cbv zeta. destruct (_ <? _)%nat eqn:E; [lia|].
  destruct (cut_loop_prefix (code_points text) (0 + 1) budget ([] ++ [c]) ltac:(lia)) as (n & -> & _). by eexists.
Qed.

(** ** Trimming and splitting *)

Lemma trimTrailing_spec p s : ∃ post, s = trimTrailing p s ++ post /\ Forall (λ c, p c = true) post /\
  ∀ r c, trimTrailing p s = r ++ [c] -> p c = false.
Proof.
  exists (rev (take (span_len p (rev s)) (rev s))). unfold trimTrailing. split; [|split].
  - by rewrite <- rev_app_distr, take_drop, rev_involutive.
  - apply Forall_rev. apply Forall_forall. intros c Hc. pose proof (span_len_take p (rev s)) as Hs. rewrite forallb_forall in Hs.
    by apply Hs, list_elem_of_In.
  - intros r c Hr. apply (f_equal (@rev Z)) in Hr. rewrite rev_involutive, rev_app_distr in Hr. by apply span_len_next in Hr.
Qed.

Lemma dot_or_space_ascii c : dot_or_space c = true -> c = 46 \/ c = 32.
Proof. unfold dot_or_space. lia. Qed.

Lemma trim_scalar s : scalar s -> scalar (trimTrailing dot_or_space s).
Proof.
  destruct (trimTrailing_spec dot_or_space s) as (post & Hs & Hp & _). intros Hsc. rewrite Hs in Hsc.
  apply scalar_app in Hsc as [? _]; [done|]. intros c r ->. apply Forall_cons in Hp as [Hc _].
  by apply dot_or_space_ascii in Hc as [-> | ->].
Qed.

(** A name is its stem and its extension, which is its last dot and what follows. *)
Definition extension (suffix : jsstr) : Prop := suffix = [] \/ ∃ ext, suffix = 46 :: ext /\ 46 ∉ ext.

Lemma lastIndexOf_hit c pre post : c ∉ post -> lastIndexOf c (pre ++ c :: post) = Some (length pre).
Proof.
  intros Hc. unfold lastIndexOf, indexOf. rewrite rev_app_distr. cbn [rev]. rewrite <- app_assoc. cbn [app].
  assert (find_from (Z.eqb c) (rev post ++ c :: rev pre) 0 = Some (length (rev post))) as ->.
  2: { cbn [fmap option_fmap option_map]. f_equal. rewrite length_app, length_rev. cbn [length]. lia. }
  apply (find_from_hit (Z.eqb c) [] (rev post) c (rev pre)).
  - apply forallb_forall. intros x Hx. apply in_rev, list_elem_of_In in Hx. apply negb_true_iff, Z.eqb_neq. by intros ->.
  - apply Z.eqb_refl.
Qed.

Lemma lastIndexOf_miss c s : c ∉ s -> lastIndexOf c s = None.
Proof.
  intros Hc. unfold lastIndexOf, indexOf. assert (find_from (Z.eqb c) (rev s) 0 = None) as ->; [|done]. apply (find_from_miss (Z.eqb c) [] (rev s)).
  apply forallb_forall. intros x Hx. apply in_rev, list_elem_of_In in Hx. apply negb_true_iff, Z.eqb_neq. by intros ->.
Qed.

Lemma splitDocumentName_spec name stem suffix : splitDocumentName name = (stem, suffix) ->
  name = stem ++ suffix /\ extension suffix /\ (name <> [] -> stem <> []).
Proof.
  unfold splitDocumentName. destruct (decide (46 ∈ name)) as [Hin|Hno].
  - apply list_elem_of_split_r in Hin as (pre & post & -> & Hp). rewrite lastIndexOf_hit by done.
    destruct pre as [|a pre]; cbn [length]; intros E; injection E as <- <-.
    + rewrite app_nil_r. split; [done|]. split; [by left|done].
    + change (S (length pre)) with (length (a :: pre)). rewrite take_app_length, drop_app_length. split; [done|]. split; [right; by exists post|done].
  - rewrite lastIndexOf_miss by done. intros [= <- <-]. rewrite app_nil_r. split; [done|]. split; [by left|done].
Qed.

Lemma splitForArchive_spec segment stem suffix : splitForArchive segment = (stem, suffix) ->
  segment = stem ++ suffix /\ extension suffix /\ (segment <> [] -> stem <> []) /\ (length suffix <= 33)%nat.
Proof.
  unfold splitForArchive, MAX_DOCUMENT_EXT_LENGTH. destruct (splitDocumentName segment) as [st su] eqn:E.
  apply splitDocumentName_spec in E as (-> & He & Hn). destruct (_ <? _)%nat eqn:El; intros [= <- <-].
  - rewrite app_nil_r. split; [done|]. split; [by left|]. split; [done|]. cbn. lia.
  - repeat split; try done. lia.
Qed.

Lemma extension_low suffix c r : extension suffix -> suffix = c :: r -> is_low c = false.
Proof. intros [-> | (ext & -> & _)] E; [done|]. by injection E as <- <-. Qed.

(** ** What every step keeps *)

Definition fine (c : Z) : bool := negb (unsafe_character c) && negb (non_portable c).

Record decent (s : jsstr) : Prop := {
  de_nonempty : s <> [];
  de_chars : Forall (λ c, fine c = true) s;
  de_scalar : scalar s;
  de_end : ∀ r c, s = r ++ [c] -> dot_or_space c = false;
}.

(** A counter in brackets, or nothing. *)
Definition bracketed (n : nat) : jsstr := js " (" ++ num (Z.of_nat n) ++ js ")".
Definition middle (mid : jsstr) : Prop := mid = [] \/ ∃ n, mid = bracketed n /\ (length mid <= 40)%nat.

Lemma num_ascii n : Forall (λ c, ascii c /\ fine c = true /\ is_digit c = true) (num (Z.of_nat n)).
Proof.
  pose proof (num_digits (Z.of_nat n) ltac:(lia)) as Hd. rewrite forallb_forall in Hd. apply Forall_forall. intros c Hc.
  apply list_elem_of_In, Hd in Hc. split; [unfold is_digit, ascii in *; lia|]. split; [|done]. clear -Hc.
  unfold is_digit, fine, unsafe_character, non_portable in *. cbn [existsb]. lia.
Qed.

Lemma bracketed_chars n : Forall (λ c, ascii c /\ fine c = true) (bracketed n).
Proof.
  unfold bracketed. apply Forall_app. split; [by repeat constructor|]. apply Forall_app. split; [|by repeat constructor].
  eapply Forall_impl; [apply num_ascii|]. intros c (? & ? & _). done.
Qed.

Lemma middle_chars mid : middle mid -> Forall (λ c, ascii c /\ fine c = true) mid.
Proof. intros [-> | (n & -> & _)]; [constructor|apply bracketed_chars]. Qed.

Lemma ascii_low c : ascii c -> is_low c = false.
Proof. unfold ascii, is_low. lia. Qed.

Lemma ascii_scalar s : Forall ascii s -> scalar s.
Proof.
  intros Hs. unfold scalar. rewrite <- (app_nil_r s), code_points_plain.
  - cbn [code_points]. rewrite app_nil_r. apply Forall_map. eapply Forall_impl; [exact Hs|].
    unfold ascii, lone, is_high, is_low. intros c Hc. lia.
  - eapply Forall_impl; [exact Hs|]. unfold ascii, is_high. intros c Hc. lia.
Qed.

(** What stands after a stem: a counter or nothing, and an extension. *)
Lemma tail_low mid suffix c r : middle mid -> extension suffix -> mid ++ suffix = c :: r -> is_low c = false.
Proof.
  intros Hm Hs E. destruct mid as [|d mid]; [by eapply extension_low|]. injection E as <- _.
  apply middle_chars, Forall_cons in Hm as [[Ha _] _]. by apply ascii_low.
Qed.

(** Replacing a last character's string by an empty one keeps the end. *)
Lemma end_app a b : (∀ r c, b = r ++ [c] -> dot_or_space c = false) -> b <> [] -> ∀ r c, a ++ b = r ++ [c] -> dot_or_space c = false.
Proof.
  intros Hb Hn r c E. destruct b as [|x b] using rev_ind; [done|]. rewrite app_assoc in E. apply app_inj_tail in E as [_ <-].
  by apply (Hb b).
Qed.

(** ** Fitting *)

Definition fallback_ok (fallback : jsstr) : Prop :=
  fallback = FALLBACK_DOCUMENT_SEGMENT \/ fallback = FALLBACK_FOLDER_SEGMENT.

Lemma fallback_facts fallback : fallback_ok fallback -> Forall ascii fallback /\ decent fallback /\ (length fallback <= 8)%nat /\
  isReservedDeviceName fallback = false /\ isDotLikeOnly fallback = false /\ 46 ∉ fallback.
Proof.
  intros Hf. assert (Forall ascii fallback) as Ha by (destruct Hf as [-> | ->]; by repeat constructor).
  split; [done|]. split; [|by destruct Hf as [-> | ->]; vm_compute; repeat split; try lia; intros Hin; repeat (apply elem_of_cons in Hin as [Hin|Hin]; [done|]); apply elem_of_nil in Hin].
  split; [by destruct Hf as [-> | ->]|by destruct Hf as [-> | ->]; repeat constructor|by apply ascii_scalar|].
  intros r c E. destruct Hf as [-> | ->].
  - change FALLBACK_DOCUMENT_SEGMENT with (js "documen" ++ [116]) in E. apply app_inj_tail in E as [_ <-]. done.
  - change FALLBACK_FOLDER_SEGMENT with (js "folde" ++ [114]) in E. apply app_inj_tail in E as [_ <-]. done.
Qed.

(** The stem that is kept of a cut one. *)
Definition kept (stem cut fallback : jsstr) : jsstr :=
  if bool_decide (cut = stem) then stem
  else if bool_decide (trimTrailing dot_or_space cut = []) then fallback else trimTrailing dot_or_space cut.

Lemma fitSegment_kept stem tail fallback :
  fitSegment stem tail fallback = kept stem (cutToBytes stem (MAX_SEGMENT_BYTES - utf8Length tail)) fallback ++ tail.
Proof. unfold fitSegment, kept. case_bool_decide; [done|]. by case_bool_decide. Qed.

Lemma kept_spec stem budget fallback : stem <> [] -> fallback_ok fallback -> Forall (λ c, fine c = true) stem -> scalar stem ->
  (8 <= budget)%nat ->
  let s := kept stem (cutToBytes stem budget) fallback in
  s <> [] /\ Forall (λ c, fine c = true) s /\ scalar s /\ (utf8Length s <= budget)%nat /\
  (s = fallback \/ ∃ rest, stem = s ++ rest) /\
  ((∀ r c, stem = r ++ [c] -> dot_or_space c = false) -> ∀ r c, s = r ++ [c] -> dot_or_space c = false).
Proof.
  intros Hn Hf Hc Hs Hb. destruct (fallback_facts _ Hf) as (Ha & [Hfn Hfc Hfs Hfe] & Hfl & _).
  destruct (cutToBytes_spec stem budget) as (_ & _ & Hlen). destruct (cutToBytes_prefix stem budget) as [rest Hrest].
  pose proof (cutToBytes_scalar stem budget Hs) as Hcs. set (cut := cutToBytes stem budget) in *. unfold kept. cbv zeta.
  case_bool_decide as E.
  - split; [done|]. split; [done|]. split; [done|]. split; [by rewrite <- E|]. split; [right; exists []; by rewrite app_nil_r|done].
  - case_bool_decide as E2.
    + split; [done|]. split; [done|]. split; [done|]. split; [rewrite utf8Length_ascii by done; lia|]. split; [by left|done].
    + destruct (trimTrailing_spec dot_or_space cut) as (post & Hp & Hpost & Hend). set (t := trimTrailing dot_or_space cut) in *.
      split; [done|]. split; [rewrite Hrest, Hp in Hc; by apply Forall_app in Hc as [[? _]%Forall_app _]|].
      split; [by apply trim_scalar|]. split; [|split; [right; exists (post ++ rest); rewrite app_assoc, <- Hp; done|done]].
      rewrite Hp, utf8Length_app in Hlen; [lia|]. intros c r ->. apply Forall_cons in Hpost as [Hd _].
      by apply dot_or_space_ascii in Hd as [-> | ->].
Qed.

(** A fitted segment is decent and within the limit, and ends with the tail it was given. *)
Lemma fit_decent segment stem suffix mid fallback : decent segment -> splitForArchive segment = (stem, suffix) -> middle mid ->
  fallback_ok fallback ->
  decent (fitSegment stem (mid ++ suffix) fallback) /\ (utf8Length (fitSegment stem (mid ++ suffix) fallback) <= MAX_SEGMENT_BYTES)%nat /\
  ∃ s, fitSegment stem (mid ++ suffix) fallback = s ++ mid ++ suffix /\ s <> [] /\ (s = fallback \/ ∃ rest, stem = s ++ rest).
Proof.
  intros [Hn Hc Hs He] Hsplit Hm Hf. apply splitForArchive_spec in Hsplit as (-> & Hx & Hst & Hl). specialize (Hst Hn).
  apply scalar_app in Hs as [Hs1 Hs2]; [|intros; by eapply extension_low]. apply Forall_app in Hc as [Hc1 Hc2].
  assert (∀ c r, mid ++ suffix = c :: r -> is_low c = false) as Hlow by (intros; by eapply tail_low).
  assert (Forall ascii mid) as Hma by (eapply Forall_impl; [by apply middle_chars|by intros c [? _]]).
  assert (utf8Length mid <= 40)%nat as Hml.
  { rewrite utf8Length_ascii by done. destruct Hm as [-> | (n & -> & Hln)]; [cbn; lia|done]. }
  assert (utf8Length (mid ++ suffix) <= 172)%nat as Htail.
  { rewrite utf8Length_app by (intros; by eapply extension_low). pose proof (utf8Length_le suffix). lia. }
  rewrite fitSegment_kept. unfold MAX_SEGMENT_BYTES. set (budget := (255 - utf8Length (mid ++ suffix))%nat).
  destruct (kept_spec stem budget fallback Hst Hf Hc1 Hs1 ltac:(lia)) as (Hk & Hkc & Hks & Hkl & Hko & Hke).
  set (s := kept stem (cutToBytes stem budget) fallback) in *. split; [split|split].
  - by destruct s.
  - apply Forall_app. split; [done|]. apply Forall_app. split; [|done]. eapply Forall_impl; [by apply middle_chars|by intros c [_ ?]].
  - apply scalar_app; [done|]. split; [done|]. apply scalar_app; [intros; by eapply extension_low|]. split; [by apply ascii_scalar|done].
  - destruct suffix as [|x suffix]; [|rewrite app_assoc; apply end_app; [|done]; intros r c E; apply (He (stem ++ r) c); by rewrite E, app_assoc].
    rewrite !app_nil_r in *. destruct Hm as [-> | (n & -> & _)]; [rewrite app_nil_r; by apply Hke|].
    apply end_app; [|done]. intros r c E. unfold bracketed in E. rewrite app_assoc in E.
    change (js ")") with [41] in E. apply app_inj_tail in E as [_ <-]. done.
  - rewrite utf8Length_app by done. lia.
  - by exists s.
Qed.

(** ** Settling *)

(** What a segment of an archive's path is: a name any extractor writes as it stands. *)
Record safe_segment (s : jsstr) : Prop := {
  sg_decent : decent s;
  sg_bytes : (utf8Length s <= MAX_SEGMENT_BYTES)%nat;
  sg_dots : isDotLikeOnly s = false;
  sg_device : isReservedDeviceName s = false;
}.

Lemma fallback_safe fallback : fallback_ok fallback -> safe_segment fallback.
Proof.
  intros Hf. destruct (fallback_facts _ Hf) as (Ha & Hd & Hl & Hr & Hdot & _). split; try done.
  rewrite utf8Length_ascii by done. unfold MAX_SEGMENT_BYTES. lia.
Qed.

Lemma underscore_kept stem budget fallback : (1 <= budget)%nat ->
  ∃ r, kept (95 :: stem) (cutToBytes (95 :: stem) budget) fallback = 95 :: r.
Proof.
  intros Hb. destruct (cutToBytes_head 95 stem budget ltac:(done) Hb) as [r Hr]. rewrite Hr. unfold kept.
  case_bool_decide as E; [by exists stem|]. destruct (trimTrailing_spec dot_or_space (95 :: r)) as (post & Hp & Hpost & _).
  destruct (trimTrailing _ _) as [|c t] eqn:Et.
  - cbn [app] in Hp. rewrite <- Hp in Hpost. apply Forall_cons in Hpost as [Hc _]. done.
  - rewrite bool_decide_eq_false_2 by done. injection Hp as <- _. by exists t.
Qed.

Lemma settle_safe segment fallback : decent segment -> (utf8Length segment <= MAX_SEGMENT_BYTES)%nat -> fallback_ok fallback ->
  safe_segment (settle segment fallback).
Proof.
  intros Hd Hl Hf. unfold settle. destruct (isDotLikeOnly segment) eqn:Edot; [by apply fallback_safe|].
  destruct (isReservedDeviceName segment) eqn:Er; cbn [negb]; [|by split].
  assert (decent (95 :: segment)) as Hd'.
  { destruct Hd as [Hn Hc Hs He]. split; [done|by constructor| |].
    - unfold scalar. pose proof (code_points_plain [95] segment) as Hp. cbn [app map] in Hp. rewrite Hp by (by repeat constructor). by constructor.
    - by apply (end_app [95]). }
  destruct (splitForArchive (95 :: segment)) as [stem suffix] eqn:Es.
  destruct (fit_decent _ _ _ [] _ Hd' Es (or_introl eq_refl) Hf) as (Hfd & Hfl & _). cbn [app] in Hfd, Hfl.
  apply splitForArchive_spec in Es as (Es & Hx & Hst & Hsl). destruct stem as [|c stem]; [by destruct (Hst ltac:(done))|].
  injection Es as <- Es. assert (∃ r, fitSegment (95 :: stem) suffix fallback = 95 :: r) as [r Hr].
  { rewrite fitSegment_kept. destruct (underscore_kept stem (MAX_SEGMENT_BYTES - utf8Length suffix) fallback) as [r ->]; [|by eexists].
    pose proof (utf8Length_le suffix). unfold MAX_SEGMENT_BYTES. lia. }
  split; [done|done|by rewrite Hr|by rewrite Hr].
Qed.

(** ** From a name to a segment *)

Definition underscored (p : Z -> bool) (s : jsstr) : jsstr := map (λ c, if p c then 95 else c) s.

Lemma underscored_points p s : (∀ c, p c = true -> is_high c = false /\ is_low c = false) ->
  code_points (underscored p s) = map (underscored p) (code_points s).
Proof.
  intros Hp. assert (∀ c, is_high (if p c then 95 else c) = is_high c) as Hh by (intros c; destruct (p c) eqn:E; [by destruct (Hp c E) as [-> _]|done]).
  assert (∀ c, is_low (if p c then 95 else c) = is_low c) as Hlo by (intros c; destruct (p c) eqn:E; [by destruct (Hp c E) as [_ ->]|done]).
  induction s as [|a|a b s IH1 IH2] using surrogate_ind; [done|done|]. rewrite code_points_two.
  unfold underscored in *. cbn [map] in *. rewrite code_points_two, Hh, Hlo. destruct (is_high a && is_low b); cbn [map]; [by rewrite IH2|by rewrite IH1].
Qed.

Lemma underscored_scalar p s : (∀ c, p c = true -> is_high c = false /\ is_low c = false) -> scalar s -> scalar (underscored p s).
Proof.
  intros Hp Hs. unfold scalar. rewrite underscored_points by done. apply Forall_map. eapply Forall_impl; [exact Hs|].
  intros q Hq. destruct q as [|c [|]]; try done. cbn in *. destruct (p c); done.
Qed.

Lemma underscored_chars p (Q : Z -> Prop) s : Q 95 -> (∀ c, c ∈ s -> p c = false -> Q c) -> Forall Q (underscored p s).
Proof.
  intros H95 HQ. apply Forall_map, Forall_forall. intros c Hc. destruct (p c) eqn:E; [done|by apply HQ].
Qed.

Lemma replaceLone_points s : code_points (replaceLoneSurrogates s) = map replaceLone (code_points s).
Proof.
  unfold replaceLoneSurrogates. induction s as [|a|a b s IH1 IH2] using surrogate_ind; [done| |].
  - cbn. destruct (is_high a || is_low a); done.
  - rewrite code_points_two. destruct (is_high a && is_low b) eqn:E; cbn [map].
    + change (mjoin (replaceLone [a; b] :: ?l)) with (a :: b :: mjoin l). by rewrite code_points_two, E, IH2.
    + change (mjoin (replaceLone [a] :: ?l)) with (replaceLone [a] ++ mjoin l). cbn [replaceLone].
      destruct (is_high a || is_low a) eqn:Ea; rewrite code_points_plain, IH1; try done; repeat constructor.
      by apply orb_false_iff in Ea as [? _].
Qed.

Lemma replaceLone_scalar s : scalar (replaceLoneSurrogates s).
Proof.
  unfold scalar. rewrite replaceLone_points. apply Forall_map.
  assert (∀ s, Forall (λ p, length p = 1%nat \/ length p = 2%nat) (code_points s)) as Hl.
  { clear. intros s. induction s as [|a|a b s IH1 IH2] using surrogate_ind; [constructor|by repeat constructor; left|].
    rewrite code_points_two. destruct (_ && _); constructor; auto. }
  eapply Forall_impl; [apply Hl|]. intros p Hp. destruct p as [|c [|d q]]; [done| |done]. cbn [replaceLone].
  destruct (is_high c || is_low c) eqn:E; [done|exact E].
Qed.

Lemma is_ws_units c : is_ws c = true -> is_high c = false /\ is_low c = false.
Proof. unfold is_ws, is_high, is_low. lia. Qed.

Lemma trimStart_parts s : ∃ pre, s = pre ++ trimStart s /\ Forall (λ c, is_ws c = true) pre.
Proof.
  exists (take (span_len is_ws s) s). unfold trimStart. rewrite take_drop. split; [done|]. apply Forall_forall. intros c Hc.
  pose proof (span_len_take is_ws s) as Hs. rewrite forallb_forall in Hs. by apply Hs, list_elem_of_In.
Qed.

(** Trimming takes white space off both ends. *)
Lemma trim_parts s : ∃ pre post, s = pre ++ trim s ++ post /\ Forall (λ c, is_ws c = true) pre /\ Forall (λ c, is_ws c = true) post.
Proof.
  destruct (trimStart_parts s) as (pre & Hs & Hpre). destruct (trimStart_parts (rev (trimStart s))) as (post & Hp & Hpost).
  exists pre, (rev post). split; [|split; [done|by apply Forall_rev]]. rewrite Hs at 1. f_equal. unfold trim, trimEnd.
  rewrite <- rev_app_distr, <- Hp. by rewrite rev_involutive.
Qed.

Lemma trim_keeps_scalar s : scalar s -> scalar (trim s).
Proof.
  destruct (trim_parts s) as (pre & post & Hs & Hpre & Hpost). intros Hsc. rewrite Hs in Hsc. unfold scalar in Hsc.
  rewrite code_points_plain in Hsc.
  - apply Forall_app in Hsc as [_ Hsc]. apply scalar_app in Hsc as [? _]; [done|]. intros c r ->.
    apply Forall_cons in Hpost as [Hc _]. by apply is_ws_units.
  - eapply Forall_impl; [exact Hpre|]. intros c Hc. by apply is_ws_units.
Qed.

Lemma trim_chars (Q : Z -> Prop) s : Forall Q s -> Forall Q (trim s).
Proof. destruct (trim_parts s) as (pre & post & Hs & _). intros HQ. rewrite Hs in HQ. by apply Forall_app in HQ as [_ [? _]%Forall_app]. Qed.

Lemma strip_facts s : scalar s ->
  let t := stripUnsafeFilenameCharacters s in
  scalar t /\ Forall (λ c, unsafe_character c = false) t /\ ∀ r c, t = r ++ [c] -> dot_or_space c = false.
Proof.
  intros Hs. unfold stripUnsafeFilenameCharacters. fold (underscored unsafe_character s). cbv zeta.
  assert (∀ c, unsafe_character c = true -> is_high c = false /\ is_low c = false) as Hu by (unfold unsafe_character, is_high, is_low; lia).
  assert (Forall (λ c, unsafe_character c = false) (underscored unsafe_character s)) as Hc by (by apply underscored_chars).
  destruct (trimTrailing_spec dot_or_space (trim (underscored unsafe_character s))) as (post & Hp & _ & Hend).
  split; [by apply trim_scalar, trim_keeps_scalar, underscored_scalar|]. split; [|done].
  apply trim_chars in Hc. rewrite Hp in Hc. by apply Forall_app in Hc as [? _].
Qed.

Section names.
Context `{Unicode}.

Lemma archiveSegment_safe name fallback : fallback_ok fallback -> safe_segment (archiveSegment name fallback).
Proof.
  intros Hf. unfold archiveSegment. set (t := stripUnsafeFilenameCharacters _).
  destruct (strip_facts (replaceLoneSurrogates (normalizeNFC name)) (replaceLone_scalar _)) as (Hs & Hc & He). fold t in Hs, Hc, He.
  fold (underscored non_portable t). cbv zeta. case_bool_decide as E; [by apply fallback_safe|].
  assert (∀ c, non_portable c = true -> is_high c = false /\ is_low c = false) as Hn
    by (unfold non_portable, is_high, is_low; cbn [existsb]; lia).
  assert (decent (underscored non_portable t)) as Hd.
  { split; [done| |by apply underscored_scalar|].
    - apply underscored_chars; [done|]. intros c Hin Hp. rewrite Forall_forall in Hc. unfold fine. by rewrite (Hc c Hin), Hp.
    - intros r c Hr. destruct t as [|x t'] using rev_ind; [by destruct r|]. unfold underscored in Hr. rewrite map_app in Hr.
      apply app_inj_tail in Hr as [_ <-]. destruct (non_portable x); [done|]. by apply (He t' x). }
  destruct (splitForArchive _) as [stem suffix] eqn:Es.
  destruct (fit_decent _ _ _ [] _ Hd Es (or_introl eq_refl) Hf) as (Hfd & Hfl & _). by apply settle_safe.
Qed.
End names.

Local Open Scope Z_scope.

(** ** Decimal length *)

Lemma pretty_N_go_length x s k : (x < 10 ^ N.of_nat k)%N -> (length (js (pretty_N_go x s)) <= k + length (js s))%nat.
Proof.
  revert x s. induction k as [|k IH]; intros x s Hx.
  - replace x with 0%N by (cbn in Hx; lia). rewrite pretty_N_go_0. lia.
  - destruct (decide (0 < x)%N) as [Hp|Hp]; [|replace x with 0%N by lia; rewrite pretty_N_go_0; lia].
    rewrite pretty_N_go_step by done. etransitivity; [apply IH|rewrite js_cons; cbn [length]; lia].
    rewrite Nat2N.inj_succ, N.pow_succ_r' in Hx. by apply N.Div0.div_lt_upper_bound.
Qed.

Lemma num_length n k : 0 <= n -> n < 10 ^ Z.of_nat (S k) -> (length (num n) <= S k)%nat.
Proof.
  intros Hn Hk. unfold num. destruct n as [|p|p]; [change (length (js (pretty 0))) with 1%nat; lia| |lia].
  change (pretty (Z.pos p)) with (pretty_N_go (N.pos p) ""). etransitivity; [apply (pretty_N_go_length _ _ (S k)); lia|].
  change (length (js "")) with 0%nat. lia.
Qed.

Lemma bracketed_length n : Z.of_nat n < 10 ^ 30 -> (length (bracketed n) <= 40)%nat.
Proof.
  intros Hn. unfold bracketed. rewrite !length_app. pose proof (num_length (Z.of_nat n) 29 ltac:(lia) Hn).
  change (length (js " (")) with 2%nat. change (length (js ")")) with 1%nat. lia.
Qed.

(** ** Device names *)

Lemma starts_with_take s p : starts_with s p = bool_decide (take (length p) s = p).
Proof.
  revert s. induction p as [|c p IH]; intros s; cbn [starts_with length]; [done|]. destruct s as [|d s]; [done|]. cbn [take].
  rewrite IH. destruct (d =? c) eqn:E; cbn [andb].
  - apply Z.eqb_eq in E as ->. apply bool_decide_ext. split; [by intros ->|by intros [= ->]].
  - apply Z.eqb_neq in E. symmetry. apply bool_decide_eq_false_2. by intros [= -> _].
Qed.

(** How many units of a device name [s] starts with. *)
Definition three (s : jsstr) (ps : list jsstr) : bool := existsb (λ p, bool_decide (take 3 (map lower_unit s) = p)) ps.
Definition device_kind (s : jsstr) : option nat :=
  if three s [js "con"; js "prn"; js "aux"; js "nul"] then Some 3%nat
  else if three s [js "com"; js "lpt"] && existsb (λ d, is_digit d || existsb (Z.eqb d) [0xb9; 0xb2; 0xb3]) (take 1 (drop 3 s))
  then Some 4%nat else None.

Lemma device_rest_kind s : device_rest s = (λ k, drop k s) <$> device_kind s.
Proof.
  unfold device_rest, device_kind, three. cbv zeta. cbn [existsb]. rewrite !starts_with_take. cbn [length].
  repeat match goal with |- context [length (js ?x)] => change (length (js x)) with 3%nat end.
  destruct (_ || _); [done|]. by destruct (_ && _).
Qed.

Definition is_device (name : jsstr) : bool := bool_decide (device_kind name = Some (length name)).

Lemma device_kind_app name rest : is_device name = true -> device_kind (name ++ rest) = Some (length name).
Proof.
  unfold is_device. intros Hk%bool_decide_eq_true_1. unfold device_kind in *. destruct (three name _) eqn:E3.
  - injection Hk as Hl. assert (three (name ++ rest) [js "con"; js "prn"; js "aux"; js "nul"] = true) as ->; [|by rewrite Hl].
    unfold three in *. rewrite map_app, take_app_le; [done|]. rewrite length_map. lia.
  - destruct (_ && _) eqn:E4; [|done]. injection Hk as Hl.
    assert (∀ ps, three (name ++ rest) ps = three name ps) as Ht by (intros ps; unfold three; rewrite map_app, take_app_le; [done|rewrite length_map; lia]).
    rewrite !Ht, E3. rewrite drop_app_le by lia. rewrite take_app_le by (rewrite length_drop; lia). by rewrite E4, Hl.
Qed.

Lemma device_kind_name s k : device_kind s = Some k -> is_device (take k s) = true /\ (k <= length s)%nat.
Proof.
  intros Hk. assert (k <= length s)%nat as Hl.
  { unfold device_kind in Hk. destruct (three s _) eqn:E3.
    - injection Hk as <-. unfold three in E3. apply existsb_exists in E3 as (p & Hp & E%bool_decide_eq_true_1).
      apply (f_equal length) in E. rewrite length_take, length_map in E. cbn in Hp.
      assert (length p = 3%nat) by (repeat destruct Hp as [<-|Hp]; done). lia.
    - destruct (_ && _) eqn:E4; [|done]. injection Hk as <-. apply andb_true_iff in E4 as [_ E4]. apply existsb_exists in E4 as (d & Hd & _).
      destruct (drop 3 s) as [|e t] eqn:Et; [done|]. apply (f_equal length) in Et. rewrite length_drop in Et. cbn in Et. lia. }
  split; [|done]. unfold is_device. apply bool_decide_eq_true_2. rewrite length_take, Nat.min_l by done.
  unfold device_kind in *. assert (∀ ps, (3 <= k)%nat -> three (take k s) ps = three s ps) as Ht.
  { intros ps H3. unfold three. by rewrite <- firstn_map, take_take, Nat.min_l. }
  destruct (three s _) eqn:E3.
  - injection Hk as <-. by rewrite Ht, E3 by lia.
  - destruct (_ && _) eqn:E4; [|done]. injection Hk as <-. rewrite !Ht, E3 by lia.
    rewrite skipn_firstn_comm, take_take. change (1 `min` (4 - 3))%nat with 1%nat. by rewrite E4.
Qed.

Lemma is_device_units name : is_device name = true -> (40 ∉ name) /\ (46 ∉ name).
Proof.
  intros Hd. assert (∀ c, c ∈ name -> 97 <= lower_unit c <= 122 \/ is_digit c = true \/ c = 0xb9 \/ c = 0xb2 \/ c = 0xb3) as Hu.
  2: { split; intros Hin; apply Hu in Hin; unfold lower_unit, is_digit in Hin; cbn in Hin; lia. }
  unfold is_device in Hd. apply bool_decide_eq_true_1 in Hd. unfold device_kind in Hd. intros c Hc.
  assert (∀ ps, Forall (λ p, Forall (λ x, 97 <= x <= 122) p) ps -> three name ps = true -> Forall (λ x, 97 <= lower_unit x <= 122) (take 3 name)) as Hthree.
  { intros ps Hps Ht. unfold three in Ht. apply existsb_exists in Ht as (p & Hp & E%bool_decide_eq_true_1). rewrite firstn_map in E.
    rewrite Forall_forall in Hps. apply list_elem_of_In, Hps in Hp. rewrite <- E in Hp. by apply Forall_map in Hp. }
  destruct (three name [js "con"; _; _; _]) eqn:E3.
  - injection Hd as Hl. left. apply Hthree in E3; [|by repeat constructor]. rewrite take_ge in E3 by lia. rewrite Forall_forall in E3. by apply E3.
  - destruct (_ && _) eqn:E4; [|done]. injection Hd as Hl. apply andb_true_iff in E4 as [E4 E5].
    apply Hthree in E4; [|by repeat constructor]. rewrite <- (take_drop 3 name) in Hc. apply elem_of_app in Hc as [Hc|Hc].
    + left. rewrite Forall_forall in E4. by apply E4.
    + right. apply existsb_exists in E5 as (d & Hin & E5). rewrite take_ge in Hin by (rewrite length_drop; lia).
      assert (length (drop 3 name) = 1%nat) as H1 by (rewrite length_drop; lia). destruct (drop 3 name) as [|e [|]]; [done| |done].
      apply list_elem_of_singleton in Hc as ->. destruct Hin as [<-|[]]. cbn [existsb] in E5. lia.
Qed.

(** A reserved name is a device name, spaces, and nothing or an extension. *)
Definition device_form (s : jsstr) : Prop := ∃ name spaces rest, s = name ++ spaces ++ rest /\ is_device name = true /\
  Forall (λ c, c = 32) spaces /\ (rest = [] \/ ∃ r, rest = 46 :: r).

Lemma reserved_form s : isReservedDeviceName s = true <-> device_form s.
Proof.
  unfold isReservedDeviceName, device_form. rewrite device_rest_kind. split.
  - destruct (device_kind s) as [k|] eqn:Ek; [|done]. cbn [fmap option_fmap option_map]. intros Hr.
    destruct (device_kind_name s k Ek) as [Hd Hl]. exists (take k s), (take (span_len (Z.eqb 32) (drop k s)) (drop k s)), (drop (span_len (Z.eqb 32) (drop k s)) (drop k s)).
    rewrite take_drop, take_drop. split; [done|]. split; [done|]. split.
    + apply Forall_forall. intros c Hc. pose proof (span_len_take (Z.eqb 32) (drop k s)) as Hs. rewrite forallb_forall in Hs.
      apply list_elem_of_In, Hs in Hc. lia.
    + destruct (drop _ (drop k s)) as [|c r]; [by left|]. right. exists r. f_equal. lia.
  - intros (name & spaces & rest & -> & Hd & Hsp & Hrest). rewrite device_kind_app by done. cbn [fmap option_fmap option_map].
    rewrite drop_app_length. assert (forallb (Z.eqb 32) spaces = true) as Hall.
    { apply forallb_forall. intros c Hc. rewrite Forall_forall in Hsp. apply list_elem_of_In, Hsp in Hc. lia. }
    destruct Hrest as [-> | (r & ->)].
    + rewrite app_nil_r, span_len_all, drop_ge by done. done.
    + rewrite (span_len_stop _ spaces 46 r), drop_app_length by done. done.
Qed.

(** ** Numbering *)

Lemma bracketed_open n : bracketed n = 32 :: 40 :: num (Z.of_nat n) ++ [41].
Proof. reflexivity. Qed.

(** A counter in front of the extension makes no device name. *)
Lemma numbered_not_device segment stem suffix s n fallback : isReservedDeviceName segment = false -> segment = stem ++ suffix ->
  fallback_ok fallback -> (s = fallback \/ ∃ rest, stem = s ++ rest) ->
  isReservedDeviceName (s ++ bracketed n ++ suffix) = false.
Proof.
  intros Hr -> Hf Hs. destruct (isReservedDeviceName (s ++ bracketed n ++ suffix)) eqn:E; [|done]. exfalso.
  apply reserved_form in E as (name & spaces & rest & E & Hd & Hsp & Hrest). destruct (is_device_units _ Hd) as [H40 H46].
  rewrite bracketed_open in E. cbn [app] in E. rewrite app_assoc in E.
  assert (40 ∉ name ++ spaces) as Hno.
  { intros [?|Hin]%elem_of_app; [done|]. rewrite Forall_forall in Hsp. by apply Hsp in Hin. }
  apply app_eq_inv in E as [(l & -> & E)|(l & E2 & E)].
  - destruct l as [|c l]; [cbn in E; by destruct Hrest as [-> | (r & ->)]|]. destruct Hrest as [-> | (r & ->)]; [done|].
    injection E as <- _. destruct Hs as [<- | (more & ->)].
    + destruct (fallback_facts _ Hf) as (_ & _ & _ & _ & _ & Hdot). apply Hdot. set_solver.
    + apply not_true_iff_false in Hr. apply Hr, reserved_form. exists name, spaces, (46 :: l ++ more ++ suffix).
      rewrite <- !app_assoc. cbn [app]. split; [done|]. split; [done|]. split; [done|]. right. by eexists.
  - destruct l as [|c [|d l]].
    + cbn in E. destruct Hrest as [-> | (r & ->)]; [done|]. by injection E.
    + cbn in E. injection E as <- E. destruct Hrest as [-> | (r & ->)]; [done|]. by injection E.
    + injection E as <- <- _. apply Hno. rewrite E2, elem_of_app. right. right. left.
Qed.

Section numbering.
Context `{Unicode} `{!UnicodeLaws}.

Lemma numbered_form segment n fallback : safe_segment segment -> fallback_ok fallback -> Z.of_nat n < 10 ^ 30 ->
  safe_segment (numbered segment n fallback) /\
  ∃ s, numbered segment n fallback = s ++ bracketed n ++ snd (splitForArchive segment).
Proof.
  intros [Hd Hb Hdot Hdev] Hf Hn. unfold numbered. destruct (splitForArchive segment) as [stem suffix] eqn:Es.
  assert (middle (bracketed n)) as Hm by (right; exists n; split; [done|by apply bracketed_length]).
  destruct (fit_decent _ _ _ _ _ Hd Es Hm Hf) as (Hfd & Hfl & s & Hs & Hsn & Hso).
  apply splitForArchive_spec in Es as (Es & _).
  assert (js " (" ++ num (Z.of_nat n) ++ js ")" ++ suffix = bracketed n ++ suffix) as -> by (unfold bracketed; by rewrite <- !app_assoc).
  assert (isDotLikeOnly (fitSegment stem (bracketed n ++ suffix) fallback) = false) as Hd0.
  { rewrite Hs. unfold isDotLikeOnly. apply andb_false_iff. right. apply not_true_iff_false. intros Hall. rewrite forallb_forall in Hall.
    specialize (Hall 40 ltac:(apply in_app_iff; right; rewrite bracketed_open; right; by left)). done. }
  assert (isReservedDeviceName (fitSegment stem (bracketed n ++ suffix) fallback) = false) as Hr0
    by (rewrite Hs; by eapply numbered_not_device).
  unfold settle. rewrite Hd0, Hr0. cbn [negb snd]. split; [by split|]. by exists s.
Qed.

(** The key of a numbered name shows its number. *)
Lemma numbered_key s n suffix : extension suffix ->
  collisionKey (s ++ bracketed n ++ suffix) =
    toUpperCase (normalizeNFC s) ++ [32; 40] ++ num (Z.of_nat n) ++ toUpperCase (41 :: normalizeNFC suffix).
Proof.
  intros Hx. unfold collisionKey.
  assert (Forall ascii (bracketed n)) as Hb by (eapply Forall_impl; [apply bracketed_chars|by intros c [? _]]).
  assert (normalizeNFC (bracketed n ++ suffix) = bracketed n ++ normalizeNFC suffix) as Hn.
  { destruct Hx as [-> | (ext & -> & _)].
    - rewrite app_nil_r, (nfc_ascii (bracketed n)), (nfc_ascii []), app_nil_r by (done || constructor). done.
    - rewrite nfc_split, (nfc_ascii (bracketed n)) by done. done. }
  assert (normalizeNFC (s ++ bracketed n ++ suffix) = normalizeNFC s ++ bracketed n ++ normalizeNFC suffix) as ->
    by (rewrite <- Hn, bracketed_open; by apply nfc_split).
  rewrite bracketed_open. cbn [app]. rewrite upper_split by done. f_equal.
  change (32 :: 40 :: (num (Z.of_nat n) ++ [41]) ++ ?x) with ((32 :: 40 :: num (Z.of_nat n) ++ [41]) ++ x). cbn [app].
  assert (32 :: 40 :: (num (Z.of_nat n) ++ [41]) ++ normalizeNFC suffix = (32 :: 40 :: num (Z.of_nat n)) ++ 41 :: normalizeNFC suffix) as ->
    by (cbn [app]; by rewrite <- app_assoc).
  rewrite upper_split by done. rewrite upper_ascii.
  - cbn [map app]. do 2 f_equal. f_equal. pose proof (num_ascii n) as Hnum. induction Hnum as [|c l (_ & _ & Hc) _ IH]; [done|].
    cbn [map]. rewrite IH. f_equal. unfold is_digit, upper_unit in *. destruct ((97 <=? c) && (c <=? 122)) eqn:E; [lia|done].
  - rewrite bracketed_open in Hb. apply Forall_cons in Hb as [? Hb]. apply Forall_cons in Hb as [? Hb]. apply Forall_app in Hb as [? _].
    by repeat constructor.
Qed.

(** Two counters give names that do not collide. *)
Lemma numbered_inj segment n m fallback : safe_segment segment -> fallback_ok fallback -> Z.of_nat n < 10 ^ 30 -> Z.of_nat m < 10 ^ 30 ->
  collisionKey (numbered segment n fallback) = collisionKey (numbered segment m fallback) -> n = m.
Proof.
  intros Hs Hf Hn Hm. destruct (numbered_form segment n fallback Hs Hf Hn) as (_ & s & ->).
  destruct (numbered_form segment m fallback Hs Hf Hm) as (_ & t & ->). destruct (splitForArchive segment) as [stem suffix] eqn:Es.
  apply splitForArchive_spec in Es as (_ & Hx & _). cbn [snd]. rewrite !numbered_key by done.
  rewrite !app_assoc. intros E%app_inv_tail. apply (f_equal (@rev Z)) in E. rewrite !rev_app_distr in E. cbn [rev app] in E.
  assert (∀ k, forallb is_digit (rev (num (Z.of_nat k))) = true) as Hd.
  { intros k. apply forallb_forall. intros c Hc. apply in_rev in Hc. pose proof (num_digits (Z.of_nat k) ltac:(lia)) as H2.
    rewrite forallb_forall in H2. by apply H2. }
  apply (split_at_first is_digit) in E as (E & _ & _); [|done..]. apply (f_equal (@rev Z)) in E. rewrite !rev_involutive in E.
  apply num_inj in E. lia.
Qed.

(** ** The search *)

Lemma unique_loop_Some fuel T segment fallback candidate counter x :
  unique_loop fuel T segment fallback candidate counter = Some x ->
  (collisionKey x ∉ T) /\ (x = candidate \/ ∃ k, (counter <= k < counter + fuel)%nat /\ x = numbered segment k fallback).
Proof.
  revert candidate counter. induction fuel as [|fuel IH]; intros candidate counter; cbn [unique_loop]; [done|].
  case_bool_decide as E.
  - intros Hx. destruct (IH _ _ Hx) as [Hf [->|(k & Hk & ->)]]; (split; [done|right]); [exists counter; split; [lia|done]|exists k; split; [lia|done]].
  - intros [= <-]. split; [done|by left].
Qed.

Lemma unique_loop_None fuel T segment fallback candidate counter :
  unique_loop fuel T segment fallback candidate counter = None ->
  ∀ k, (counter <= k)%nat -> (S k < counter + fuel)%nat -> collisionKey (numbered segment k fallback) ∈ T.
Proof.
  revert candidate counter. induction fuel as [|fuel IH]; intros candidate counter; cbn [unique_loop]; [lia|].
  case_bool_decide as E; [|done]. intros Hx k Hk Hlt. destruct (decide (k = counter)) as [->|Hne]; [|apply (IH _ _ Hx); lia].
  destruct fuel as [|fuel]; [lia|]. cbn [unique_loop] in Hx. case_bool_decide as E2; [done|done].
Qed.

(** The fuel is enough: there are more numbered names than names taken. *)
Lemma unique_total (a : ArchivePathAllocator) d segment fallback : safe_segment segment -> fallback_ok fallback ->
  Z.of_nat (size (names a d)) < 10 ^ 20 -> ∃ x, unique a d segment fallback = Some x /\ safe_segment x /\ collisionKey x ∉ names a d.
Proof.
  intros Hs Hf Hsize. unfold unique. destruct (unique_loop _ _ _ _ _ _) as [x|] eqn:E.
  - exists x. split; [done|]. apply unique_loop_Some in E as [Hfree [->|(k & Hk & ->)]]; [by split|].
    split; [|done]. apply numbered_form; [done|done|lia].
  - exfalso. pose proof (unique_loop_None _ _ _ _ _ _ E) as Hall. set (T := names a d) in *.
    set (ks := map (λ k, collisionKey (numbered segment k fallback)) (seq 2 (S (size T)))).
    assert (NoDup ks) as Hnd.
    { apply NoDup_fmap_2_strong; [|apply NoDup_seq]. intros x y Hx Hy Exy. apply elem_of_seq in Hx, Hy.
      apply (numbered_inj segment x y fallback); (done || lia). }
    assert (list_to_set ks ⊆ T) as Hsub.
    { intros k Hk. apply elem_of_list_to_set in Hk. apply list_elem_of_fmap in Hk as (i & -> & Hi). apply elem_of_seq in Hi. apply Hall; lia. }
    apply subseteq_size in Hsub. rewrite size_list_to_set in Hsub by done. unfold ks in Hsub. rewrite length_map, length_seq in Hsub. lia.
Qed.
End numbering.
