(* ===== verification/ArchiveNamesSpec.v ===== *)
(** The allocator over a whole run: every path is safe, short enough for a ZIP entry, and different
    from every other one, even to a file system that ignores case. *)
From stdpp Require Import gmap.
From S2P Require Import Prelude ArchiveNames ArchiveSegmentSpec.
Local Open Scope Z_scope.

Lemma NoDup_map_elem {A B} (f : A -> B) (l : list A) x y : NoDup (map f l) -> x ∈ l -> y ∈ l -> f x = f y -> x = y.
Proof.
  induction l as [|z l IH]; [by intros _ ?%elem_of_nil|]. cbn [map]. rewrite NoDup_cons. intros [Hz Hn] Hx Hy E.
  apply elem_of_cons in Hx as [->|Hx], Hy as [->|Hy]; [done| | |by apply IH].
  - destruct Hz. rewrite E. by apply list_elem_of_In, in_map, list_elem_of_In.
  - destruct Hz. rewrite <- E. by apply list_elem_of_In, in_map, list_elem_of_In.
Qed.

(** ** Paths as lists of segments *)

Definition segments_of (p : jsstr) : list jsstr := if bool_decide (p = []) then [] else split_on 47 p.

Lemma segments_nil : segments_of [] = [].
Proof. done. Qed.

Lemma segments_nonempty p : p <> [] -> segments_of p <> [].
Proof. intros Hp. unfold segments_of. rewrite bool_decide_eq_false_2 by done. apply split_on_nonempty. Qed.

Lemma within_nonempty d s : s <> [] -> within d s <> [].
Proof. intros Hs. unfold within. case_bool_decide; [done|]. by destruct d. Qed.

Lemma segments_within d s : s <> [] -> 47 ∉ s -> segments_of (within d s) = segments_of d ++ [s].
Proof.
  intros Hn Hs. unfold segments_of at 1. rewrite bool_decide_eq_false_2 by (by apply within_nonempty). unfold within, segments_of.
  case_bool_decide as E; [by apply split_on_plain|]. cbn [app]. by rewrite split_on_app, (split_on_plain 47 s).
Qed.

Lemma safe_no_slash s : safe_segment s -> 47 ∉ s.
Proof. intros [[_ Hc _ _] _ _ _] Hin. rewrite Forall_forall in Hc. by apply Hc in Hin. Qed.

Lemma safe_nonempty s : safe_segment s -> s <> [].
Proof. by intros [[? _ _ _] _ _ _]. Qed.

(** A file or a directory: the directory it is in, and its name there. *)
Abbreviation Node := (jsstr * jsstr)%type.

Section paths.
Context `{Unicode} `{!UnicodeLaws}.

(** A path as a file system that ignores case compares it. *)
Definition fold_path (p : jsstr) : list jsstr := map collisionKey (segments_of p).

Definition path_of (n : Node) : jsstr := within (fst n) (snd n).
Definition key_of (n : Node) : jsstr * jsstr := (fst n, collisionKey (snd n)).

(** A tree of nodes: safe names, no two in one directory that collide, every directory a node. *)
Record tree (dirs nodes : list Node) : Prop := {
  tr_safe : Forall (λ n, safe_segment (snd n)) nodes;
  tr_keys : NoDup (map key_of nodes);
  tr_dirs : dirs ⊆ nodes;
  tr_parent : Forall (λ n, fst n = [] \/ fst n ∈ map path_of dirs) nodes;
}.

Lemma fold_path_node n : safe_segment (snd n) -> fold_path (path_of n) = fold_path (fst n) ++ [collisionKey (snd n)].
Proof.
  intros Hs. unfold fold_path, path_of. rewrite segments_within; [by rewrite map_app|by apply safe_nonempty|by apply safe_no_slash].
Qed.

(** Two nodes of a tree never fold to the same path. *)
Lemma tree_inj dirs nodes : tree dirs nodes -> ∀ n m, n ∈ nodes -> m ∈ nodes -> fold_path (path_of n) = fold_path (path_of m) -> n = m.
Proof.
  intros [Hsafe Hkeys Hdirs Hpar]. rewrite Forall_forall in Hsafe, Hpar. intros n.
  remember (length (fold_path (path_of n))) as k eqn:Hk. revert n Hk. induction (lt_wf k) as [k _ IH]. intros n -> m Hn Hm E.
  rewrite !fold_path_node in E by auto. apply app_inj_tail in E as [E Ekey].
  assert (fst n = fst m) as Ed.
  { destruct (Hpar n Hn) as [Hn0|Hn0], (Hpar m Hm) as [Hm0|Hm0].
    - by rewrite Hn0, Hm0.
    - exfalso. rewrite Hn0 in E. apply list_elem_of_fmap in Hm0 as (q & Hq & Hqd). rewrite Hq, fold_path_node in E by auto. by destruct (fold_path (fst q)).
    - exfalso. rewrite Hm0 in E. apply list_elem_of_fmap in Hn0 as (q & Hq & Hqd). rewrite Hq, fold_path_node in E by auto. by destruct (fold_path (fst q)).
    - apply list_elem_of_fmap in Hn0 as (q & Hq & Hqd), Hm0 as (r & Hr & Hrd). rewrite Hq, Hr in *. f_equal.
      apply (IH (length (fold_path (path_of q)))); auto. rewrite (fold_path_node n) by auto. rewrite Hq, length_app. cbn. lia. }
  apply (NoDup_map_elem key_of nodes); auto. unfold key_of. by rewrite Ed, Ekey.
Qed.
End paths.

(** ** Folder chains *)

Lemma byId_lookup folders p f : byId folders !! p = Some f -> f ∈ folders /\ f_id f = p.
Proof.
  unfold byId. assert (∀ m : gmap jsstr DecryptedFolder, (∀ q g, m !! q = Some g -> f_id g = q) ->
    foldl (λ m f, <[f_id f := f]> m) m folders !! p = Some f -> (f ∈ folders \/ m !! p = Some f) /\ f_id f = p) as H.
  { induction folders as [|g folders IH]; intros m Hm Hf; cbn [foldl] in Hf; [split; [by right|by apply Hm]|].
    apply IH in Hf as [[Hf|Hf] Hid].
    - split; [left; by right|done].
    - split; [|done]. destruct (decide (f_id g = p)) as [<-|Hne]; [rewrite lookup_insert_eq in Hf; injection Hf as <-; left; left|].
      rewrite lookup_insert_ne in Hf by done. by right.
    - intros q h. destruct (decide (f_id g = q)) as [<-|Hne]; [rewrite lookup_insert_eq; by intros [= <-]|].
      rewrite lookup_insert_ne by done. apply Hm. }
  intros Hf. destruct (H ∅ ltac:(intros q g Hq; by rewrite lookup_empty in Hq) Hf) as [[?|Hn] ?]; [done|]. by rewrite lookup_empty in Hn.
Qed.

Lemma byId_dom folders : dom (byId folders) = list_to_set (map f_id folders).
Proof.
  unfold byId. assert (∀ m : gmap jsstr DecryptedFolder,
    dom (foldl (λ m f, <[f_id f := f]> m) m folders) = list_to_set (map f_id folders) ∪ dom m) as H.
  { induction folders as [|g folders IH]; intros m; cbn [foldl map]; [set_solver|]. rewrite IH, dom_insert_L. set_solver. }
  rewrite H. set_solver.
Qed.

Lemma walk_total folders visited current chain fuel : visited ⊆ dom (byId folders) ->
  (∀ f, current = Some f -> f ∈ folders) -> (size (dom (byId folders)) < fuel + size visited)%nat ->
  Forall (λ f, f ∈ folders) chain ->
  ∃ r, walk fuel (byId folders) visited current chain = Some r /\ Forall (λ f, f ∈ folders) r.
Proof.
  revert visited current chain. induction fuel as [|fuel IH]; intros visited current chain Hv Hc Hf Hch.
  - exfalso. apply subseteq_size in Hv. lia.
  - destruct current as [f|]; [|by exists chain]. cbn [walk]. specialize (Hc f eq_refl).
    case_bool_decide as E; [by exists chain|]. apply IH.
    + apply union_subseteq. split; [|done]. apply singleton_subseteq_l. rewrite byId_dom, elem_of_list_to_set.
      apply list_elem_of_In, in_map, list_elem_of_In, Hc.
    + intros g Hg. destruct (parentId f) as [q|]; [|done]. cbn in Hg. by apply byId_lookup in Hg as [? _].
    + rewrite size_union by set_solver. rewrite size_singleton. lia.
    + by constructor.
Qed.

(** Every folder gets its chain, whatever its parents point at. *)
Lemma folderAncestry_total folders : ∃ c, folderAncestry folders = Some c /\
  ∀ id chain, c !! id = Some chain -> Forall (λ f, f ∈ folders) chain.
Proof.
  unfold folderAncestry. set (fuel := (2 + length folders)%nat).
  assert (size (dom (byId folders)) < fuel)%nat as Hfuel.
  { rewrite byId_dom. unfold fuel. assert (∀ l : list jsstr, size (list_to_set l : gset jsstr) <= length l)%nat as Hs; [|pose proof (Hs (map f_id folders)) as H1; rewrite length_map in H1; lia].
    induction l as [|x l IHl]; [done|]. cbn [list_to_set length]. pose proof (size_union_alt ({[x]} : gset jsstr) (list_to_set l)) as H1.
    rewrite size_singleton in H1. pose proof (subseteq_size (list_to_set l ∖ {[x]} : gset jsstr) (list_to_set l) ltac:(set_solver)). lia. }
  assert (∀ l (m : gmap jsstr (list DecryptedFolder)), (∀ f, f ∈ l -> f ∈ folders) -> (∀ id chain, m !! id = Some chain -> Forall (λ f, f ∈ folders) chain) ->
    ∃ c, foldl (λ acc f, m ← acc; chain ← walk fuel (byId folders) ∅ (Some f) []; Some (<[f_id f := chain]> m)) (Some m) l = Some c /\
    ∀ id chain, c !! id = Some chain -> Forall (λ f, f ∈ folders) chain) as Hgen; [|by apply Hgen].
  induction l as [|f l IH]; intros m Hl Hm; cbn [foldl]; [by exists m|]. cbn [mbind option_bind].
  destruct (walk_total folders ∅ (Some f) [] fuel) as (chain & -> & Hchain); [set_solver| |rewrite size_empty; lia|constructor|].
  - intros g [= <-]. apply Hl. left.
  - cbn [mbind option_bind]. apply IH; [intros g Hg; apply Hl; by right|]. intros id c. destruct (decide (f_id f = id)) as [<-|Hne].
    + rewrite lookup_insert_eq. by intros [= <-].
    + rewrite lookup_insert_ne by done. apply Hm.
Qed.

(** ** The allocator's state *)

Section allocator.
Context `{Unicode} `{!UnicodeLaws}.
Context (folders : list DecryptedFolder).
Hypothesis Hids : Forall (λ f, 47 ∉ f_id f) folders.

(** [files] are the files whose names are taken, [fresh] those of the archive being written; [n]
    bounds how many names a directory holds. *)
Record state_ok (a : ArchivePathAllocator) (dirs files fresh : list Node) (n : nat) : Prop := {
  st_tree : tree dirs (dirs ++ files ++ fresh);
  st_taken : Forall (λ x, collisionKey (snd x) ∈ names a (fst x)) (dirs ++ files ++ fresh);
  st_known : ∀ i d, directories a !! i = Some d -> d ∈ map path_of dirs;
  st_depth : ∀ i d, directories a !! i = Some d -> S (length (segments_of d)) = length (split_on 47 i);
  st_nesting : Forall (λ x, (length (segments_of (fst x)) <= MAX_FOLDER_NESTING_DEPTH)%nat) (dirs ++ files ++ fresh);
  st_pending : pending a = map key_of fresh;
  st_size : ∀ d, (size (names a d) <= n)%nat;
  st_chains : ∀ i chain, chains a !! i = Some chain -> Forall (λ f, f ∈ folders) chain;
}.

Lemma names_addName d k a d' : names (addName d k a) d' = if bool_decide (d = d') then {[k]} ∪ names a d else names a d'.
Proof.
  unfold names at 1, addName. cbn [taken]. case_bool_decide as E; [subst; by rewrite lookup_insert_eq|by rewrite lookup_insert_ne].
Qed.

Lemma size_addName d k a n d' : (∀ d, (size (names a d) <= n)%nat) -> (size (names (addName d k a) d') <= S n)%nat.
Proof.
  intros Hs. rewrite names_addName. case_bool_decide; [|specialize (Hs d'); lia].
  pose proof (size_union_alt ({[k]} : gset jsstr) (names a d)) as Halt. rewrite size_singleton in Halt.
  pose proof (subseteq_size (names a d ∖ {[k]} : gset jsstr) (names a d) ltac:(set_solver)). specialize (Hs d). lia.
Qed.

Lemma taken_addName d k a nodes : Forall (λ x, collisionKey (snd x) ∈ names a (fst x)) nodes ->
  Forall (λ x : Node, collisionKey (snd x) ∈ names (addName d k a) (fst x)) nodes.
Proof.
  intros Ht. eapply Forall_impl; [exact Ht|]. intros x Hx. cbn beta. rewrite names_addName. case_bool_decide; [subst; set_solver|done].
Qed.

(** A free name can join the tree. *)
Lemma free_node (a : ArchivePathAllocator) (nodes : list Node) d s : Forall (λ x, collisionKey (snd x) ∈ names a (fst x)) nodes ->
  collisionKey s ∉ names a d -> (d, collisionKey s) ∉ map key_of nodes.
Proof.
  intros Ht Hs Hin. apply list_elem_of_fmap in Hin as (x & E & Hx). unfold key_of in E. injection E as -> E.
  rewrite Forall_forall in Ht. apply Ht in Hx. rewrite <- E in Hx. done.
Qed.

Lemma tree_dir dirs rest d s : tree dirs (dirs ++ rest) -> safe_segment s -> (d, collisionKey s) ∉ map key_of (dirs ++ rest) ->
  d = [] \/ d ∈ map path_of dirs -> tree (dirs ++ [(d, s)]) ((dirs ++ [(d, s)]) ++ rest).
Proof.
  intros [Hs Hk Hd Hp] Hsafe Hfree Hpar.
  assert ((dirs ++ [(d, s)]) ++ rest ≡ₚ (d, s) :: dirs ++ rest) as Hperm by (rewrite <- app_assoc; symmetry; apply Permutation_middle).
  split.
  - rewrite Hperm. by constructor.
  - assert (map key_of ((dirs ++ [(d, s)]) ++ rest) ≡ₚ (d, collisionKey s) :: map key_of (dirs ++ rest)) as -> by (by rewrite Hperm).
    by apply NoDup_cons.
  - intros x. rewrite !elem_of_app. tauto.
  - rewrite Hperm. constructor; cbn [fst].
    + rewrite map_app, elem_of_app. tauto.
    + eapply Forall_impl; [exact Hp|]. intros x Hx. cbn beta in *. rewrite map_app, elem_of_app. tauto.
Qed.

Lemma tree_file dirs rest d s : tree dirs (dirs ++ rest) -> safe_segment s -> (d, collisionKey s) ∉ map key_of (dirs ++ rest) ->
  d = [] \/ d ∈ map path_of dirs -> tree dirs (dirs ++ rest ++ [(d, s)]).
Proof.
  intros [Hs Hk Hd Hp] Hsafe Hfree Hpar. rewrite app_assoc. split.
  - apply Forall_app. split; [done|]. by apply Forall_singleton.
  - rewrite map_app. apply NoDup_app. split; [done|]. split; [|apply NoDup_singleton]. intros x Hx Hin.
    apply list_elem_of_singleton in Hin as ->. done.
  - intros x Hx. rewrite elem_of_app. left. by apply Hd.
  - apply Forall_app. split; [done|]. by apply Forall_singleton.
Qed.

(** A directory that can be searched for a name. *)
Definition reachable_dir (dirs : list Node) (d : jsstr) : Prop := d = [] \/ d ∈ map path_of dirs.

(** The allocator with a new directory. *)
Definition withDirectory (a : ArchivePathAllocator) (d s i : jsstr) : ArchivePathAllocator :=
  {| chains := chains a; directories := <[i := within d s]> (directories a);
     taken := taken (addName d (collisionKey s) a); pending := pending a |}.

Lemma withDirectory_ok a dirs files fresh n d s i : state_ok a dirs files fresh n -> safe_segment s -> collisionKey s ∉ names a d ->
  reachable_dir dirs d -> S (S (length (segments_of d))) = length (split_on 47 i) ->
  (length (segments_of d) <= MAX_FOLDER_NESTING_DEPTH)%nat ->
  state_ok (withDirectory a d s i) (dirs ++ [(d, s)]) files fresh (S n).
Proof.
  intros [Htree Htaken Hknown Hdepth Hnesting Hpending Hsize Hchains] Hs Hfree Hd Hi Hnest.
  pose proof (segments_within d s (safe_nonempty s Hs) (safe_no_slash s Hs)) as Hseg. split; cbn [withDirectory directories chains pending].
  - apply tree_dir; [done|done|by apply (free_node a)|done].
  - change (Forall (λ x : Node, collisionKey (snd x) ∈ names (addName d (collisionKey s) a) (fst x)) ((dirs ++ [(d, s)]) ++ files ++ fresh)).
    rewrite <- app_assoc. apply (taken_addName d (collisionKey s)), Forall_app in Htaken as [? ?]. apply Forall_app. split; [done|].
    constructor; [|done]. cbn [fst snd]. rewrite names_addName, bool_decide_eq_true_2 by done. set_solver.
  - intros j e. destruct (decide (i = j)) as [<-|Hne]; [rewrite lookup_insert_eq; intros [= <-]|rewrite lookup_insert_ne by done];
      rewrite map_app, elem_of_app; [right; left|]. intros He. left. by apply (Hknown j).
  - intros j e. destruct (decide (i = j)) as [<-|Hne]; [rewrite lookup_insert_eq; intros [= <-]|rewrite lookup_insert_ne by done; apply Hdepth].
    rewrite Hseg, length_app. cbn [length]. lia.
  - rewrite <- app_assoc. apply Forall_app in Hnesting as [? ?]. apply Forall_app. split; [done|]. constructor; [cbn [fst]; lia|done].
  - done.
  - intros e. by apply (size_addName d (collisionKey s)).
  - done.
Qed.

Lemma state_ok_more a dirs files fresh n m : state_ok a dirs files fresh n -> (n <= m)%nat -> state_ok a dirs files fresh m.
Proof. intros [Htree Htaken Hknown Hdepth Hnesting Hpending Hsize Hchains] Hm. split; try done. intros e. specialize (Hsize e). lia. Qed.

Lemma directory_loop_ok chain a dirs files fresh n d i : state_ok a dirs files fresh n -> Forall (λ f, f ∈ folders) chain ->
  Z.of_nat (n + length chain) < 10 ^ 20 -> reachable_dir dirs d -> S (length (segments_of d)) = length (split_on 47 i) ->
  (length (segments_of d) + length chain <= MAX_FOLDER_NESTING_DEPTH)%nat ->
  ∃ d' a' new, directory_loop a chain d i = Some (d', a') /\ state_ok a' (dirs ++ new) files fresh (n + length chain) /\
    reachable_dir (dirs ++ new) d' /\ (length (segments_of d') <= MAX_FOLDER_NESTING_DEPTH)%nat.
Proof.
  revert a dirs n d i. induction chain as [|f chain IH]; intros a dirs n d i Hok Hch Hn Hd Hdep Hnest; cbn [directory_loop].
  - exists d, a, []. rewrite app_nil_r, Nat.add_0_r. cbn [length] in Hnest. split; [done|]. split; [done|]. split; [done|]. lia.
  - apply Forall_cons in Hch as [Hf Hch]. cbn [length] in *. assert (length (split_on 47 (i ++ [47] ++ f_id f)) = S (length (split_on 47 i))) as Hi.
    { rewrite Forall_forall in Hids. pose proof (Hids f Hf). cbn [app]. rewrite split_on_app, (split_on_plain 47 (f_id f)), length_app by done. cbn. lia. }
    destruct (directories a !! _) as [known|] eqn:Ek.
    + pose proof (st_depth _ _ _ _ _ Hok _ _ Ek) as Hk. apply state_ok_more with (m := S n) in Hok as Hok1; [|lia].
      destruct (IH a dirs (S n) known (i ++ [47] ++ f_id f)) as (d' & a' & new & Hl & Hok' & Hrest); try done; try lia.
      { right. by apply (st_known _ _ _ _ _ Hok) in Ek. }
      exists d', a', new. split; [done|]. split; [by rewrite Nat.add_succ_r|done].
    + destruct (unique_total a d (archiveSegment (f_name f) FALLBACK_FOLDER_SEGMENT) FALLBACK_FOLDER_SEGMENT) as (s & -> & Hs & Hfree);
        [apply archiveSegment_safe; by right|by right|pose proof (st_size _ _ _ _ _ Hok d); lia|].
      cbn [mbind option_bind]. pose proof (segments_within d s (safe_nonempty s Hs) (safe_no_slash s Hs)) as Hseg.
      apply (f_equal length) in Hseg. rewrite length_app in Hseg. cbn [length] in Hseg.
      destruct (IH (withDirectory a d s (i ++ [47] ++ f_id f)) (dirs ++ [(d, s)]) (S n) (within d s) (i ++ [47] ++ f_id f))
        as (d' & a' & new & Hl & Hok' & Hd' & Hnest'); try lia; [apply withDirectory_ok; (done || lia)|done| |].
      { right. rewrite map_app, elem_of_app. right. left. }
      exists d', a', ((d, s) :: new). rewrite <- app_assoc in Hok', Hd'. split; [done|]. split; [by rewrite Nat.add_succ_r|done].
Qed.

Lemma directoryFor_ok a dirs files fresh n folderId : state_ok a dirs files fresh n -> Z.of_nat (n + 50) < 10 ^ 20 ->
  ∃ d a' new, directoryFor a folderId = Some (d, a') /\ state_ok a' (dirs ++ new) files fresh (n + 50) /\
    reachable_dir (dirs ++ new) d /\ (length (segments_of d) <= MAX_FOLDER_NESTING_DEPTH)%nat.
Proof.
  intros Hok Hn. assert (∃ d a' new, Some ([] : jsstr, a) = Some (d, a') /\ state_ok a' (dirs ++ new) files fresh (n + 50) /\
    reachable_dir (dirs ++ new) d /\ (length (segments_of d) <= MAX_FOLDER_NESTING_DEPTH)%nat) as Hroot.
  { exists [], a, []. rewrite app_nil_r. split; [done|]. split; [apply (state_ok_more _ _ _ _ n); [done|lia]|]. split; [by left|].
    rewrite segments_nil. cbn. lia. }
  unfold directoryFor. destruct (chains a !! _) as [chain|] eqn:Ec; [|done]. destruct (_ <? _)%nat eqn:El; [done|].
  apply Nat.ltb_ge in El. unfold MAX_FOLDER_NESTING_DEPTH in El.
  destruct (directory_loop_ok chain a dirs files fresh n [] []) as (d & a' & new & Hl & Hok' & Hd & Hnest); try done.
  - by apply (st_chains _ _ _ _ _ Hok) in Ec.
  - lia.
  - by left.
  - exists d, a', new. split; [done|]. split; [apply (state_ok_more _ _ _ _ (n + length chain)); [done|lia]|done].
Qed.

(** The placement of a file at a node. *)
Definition placement_of (x : Node) : ArchivePlacement :=
  {| path := path_of x; pathBytes := utf8Length (path_of x); directory := fst x; key := collisionKey (snd x) |}.

Lemma place_ok a dirs files fresh n name folderId : state_ok a dirs files fresh n -> Z.of_nat (n + 50) < 10 ^ 20 ->
  ∃ x a' new, place a name folderId = Some (placement_of x, a') /\ state_ok a' (dirs ++ new) files fresh (n + 50) /\
    safe_segment (snd x) /\ (collisionKey (snd x) ∉ names a' (fst x)) /\ reachable_dir (dirs ++ new) (fst x) /\
    (length (segments_of (fst x)) <= MAX_FOLDER_NESTING_DEPTH)%nat.
Proof.
  intros Hok Hn. destruct (directoryFor_ok a dirs files fresh n folderId Hok Hn) as (d & a' & new & Hl & Hok' & Hd & Hnest).
  unfold place. rewrite Hl. cbn [mbind option_bind].
  destruct (unique_total a' d (archiveSegment name FALLBACK_DOCUMENT_SEGMENT) FALLBACK_DOCUMENT_SEGMENT) as (s & -> & Hs & Hfree);
    [apply archiveSegment_safe; by left|by left|pose proof (st_size _ _ _ _ _ Hok' d); lia|].
  cbn [mbind option_bind]. by exists (d, s), a', new.
Qed.

Lemma reserve_ok a dirs files fresh n x : state_ok a dirs files fresh n -> safe_segment (snd x) -> collisionKey (snd x) ∉ names a (fst x) ->
  reachable_dir dirs (fst x) -> (length (segments_of (fst x)) <= MAX_FOLDER_NESTING_DEPTH)%nat ->
  state_ok (reserve (placement_of x) a) dirs files (fresh ++ [x]) (S n).
Proof.
  intros [Htree Htaken Hknown Hdepth Hnesting Hpending Hsize Hchains] Hs Hfree Hd Hnest. destruct x as [d s]. cbn [fst snd] in *.
  split; cbn [reserve placement_of directories chains pending directory key].
  - rewrite (app_assoc files). apply tree_file; [done|done|by apply (free_node a)|done].
  - change (Forall (λ x : Node, collisionKey (snd x) ∈ names (addName d (collisionKey s) a) (fst x)) (dirs ++ files ++ fresh ++ [(d, s)])).
    rewrite (app_assoc files), app_assoc. apply Forall_app. split; [by apply taken_addName|]. apply Forall_singleton. cbn [fst snd].
    rewrite names_addName, bool_decide_eq_true_2 by done. set_solver.
  - done.
  - done.
  - rewrite (app_assoc files), app_assoc. apply Forall_app. split; [done|]. by apply Forall_singleton.
  - by rewrite map_app, <- Hpending.
  - intros e. by apply (size_addName d (collisionKey s)).
  - done.
Qed.

Lemma keep_ok a dirs files fresh n : state_ok a dirs files fresh n -> state_ok (keepArchive a) dirs (files ++ fresh) [] n.
Proof.
  intros [Htree Htaken Hknown Hdepth Hnesting Hpending Hsize Hchains]. by split; rewrite ?app_nil_r.
Qed.

Lemma giveBack_names rs a d k : k ∈ names (foldl giveBack a rs) d <-> k ∈ names a d /\ (d, k) ∉ rs.
Proof.
  revert a. induction rs as [|[e j] rs IH]; intros a; cbn [foldl]; [set_solver|]. rewrite IH.
  assert (k ∈ names (giveBack a (e, j)) d <-> k ∈ names a d /\ (d, k) <> (e, j)) as ->.
  { unfold names at 1, giveBack. cbn [taken fst snd]. destruct (decide (e = d)) as [->|Hne].
    - rewrite lookup_insert_eq. simpl. rewrite elem_of_difference, elem_of_singleton. split; [|naive_solver].
      intros [? Hkj]. split; [done|]. intros [= ->]. done.
    - rewrite lookup_insert_ne by done. split; [|by intros [? _]]. intros ?. split; [done|]. by intros [= <-]. }
  rewrite not_elem_of_cons. tauto.
Qed.

Lemma giveBack_rest rs a : directories (foldl giveBack a rs) = directories a /\ chains (foldl giveBack a rs) = chains a.
Proof. revert a. induction rs as [|r rs IH]; intros a; cbn [foldl]; [done|]. by destruct (IH (giveBack a r)) as [-> ->]. Qed.

Lemma drop_ok a dirs files fresh n : state_ok a dirs files fresh n -> state_ok (dropArchive a) dirs files [] n.
Proof.
  intros [[Hs Hk Hd Hp] Htaken Hknown Hdepth Hnesting Hpending Hsize Hchains]. unfold dropArchive.
  destruct (giveBack_rest (pending a) a) as [Hdir Hch]. rewrite app_assoc in *. rewrite map_app in Hk. apply NoDup_app in Hk as (Hk & Hdis & _).
  assert (∀ d, names (keepArchive (foldl giveBack a (pending a))) d = names (foldl giveBack a (pending a)) d) as Hnames by done.
  apply Forall_app in Hs as [Hs _], Hp as [Hp _], Htaken as [Htaken _], Hnesting as [Hnesting _].
  split; rewrite ?app_nil_r; cbn [keepArchive directories chains pending]; rewrite ?Hdir, ?Hch; try done.
  - split; try done. intros x Hx. rewrite elem_of_app. by left.
  - rewrite Forall_forall in Htaken |- *. intros x Hx. rewrite Hnames, giveBack_names. split; [by apply Htaken|].
    rewrite Hpending. intros Hin. apply (Hdis (key_of x)); [|done]. by apply list_elem_of_In, in_map, list_elem_of_In.
  - intros d. rewrite Hnames. etransitivity; [|apply (Hsize d)]. apply subseteq_size. intros k. rewrite giveBack_names. by intros [? _].
Qed.
End allocator.

(** ** Runs *)

Section runs.
Context `{Unicode}.

(** What a run does with its allocator: a document is placed and reserved, or placed only (it did
    not fit or could not be read); an archive is saved or thrown away. *)
Inductive Op := Add (name : jsstr) (folderId : option jsstr) | Skip (name : jsstr) (folderId : option jsstr) | Keep | Drop.

(** The allocator, and the paths in saved archives and in the one being written. *)
Record Run := { allocator : ArchivePathAllocator; saved : list jsstr; writing : list jsstr }.

Definition apply_op (r : Run) (op : Op) : option Run :=
  match op with
  | Add name folderId =>
      '(p, a) ← place (allocator r) name folderId;
      Some {| allocator := reserve p a; saved := saved r; writing := writing r ++ [path p] |}
  | Skip name folderId =>
      '(_, a) ← place (allocator r) name folderId; Some {| allocator := a; saved := saved r; writing := writing r |}
  | Keep => Some {| allocator := keepArchive (allocator r); saved := saved r ++ writing r; writing := [] |}
  | Drop => Some {| allocator := dropArchive (allocator r); saved := saved r; writing := [] |}
  end.

Fixpoint run_ops (r : Run) (ops : list Op) : option Run :=
  match ops with [] => Some r | op :: rest => r' ← apply_op r op; run_ops r' rest end.

Definition run (folders : list DecryptedFolder) (ops : list Op) : option Run :=
  a ← newAllocator folders; run_ops {| allocator := a; saved := []; writing := [] |} ops.

Context `{!UnicodeLaws}.
Context (folders : list DecryptedFolder).
Hypothesis Hids : Forall (λ f, 47 ∉ f_id f) folders.

Definition run_ok (r : Run) (n : nat) : Prop := ∃ dirs files fresh, state_ok folders (allocator r) dirs files fresh n /\
  saved r = map path_of files /\ writing r = map path_of fresh.

Lemma apply_op_ok r op n : run_ok r n -> Z.of_nat (n + 51) < 10 ^ 20 -> ∃ r', apply_op r op = Some r' /\ run_ok r' (n + 51).
Proof using All.
  intros (dirs & files & fresh & Hok & Hsaved & Hwriting) Hn. destruct op as [name folderId|name folderId| |]; cbn [apply_op].
  - destruct (place_ok folders Hids _ _ _ _ _ name folderId Hok ltac:(lia)) as (x & a' & new & -> & Hok' & Hs & Hfree & Hd & Hnest).
    cbn [mbind option_bind]. eexists. split; [done|]. exists (dirs ++ new), files, (fresh ++ [x]). cbn [allocator saved writing].
    split; [|by rewrite map_app, <- Hwriting]. apply (state_ok_more _ _ _ _ _ (S (n + 50))); [by apply reserve_ok|lia].
  - destruct (place_ok folders Hids _ _ _ _ _ name folderId Hok ltac:(lia)) as (x & a' & new & -> & Hok' & _).
    cbn [mbind option_bind]. eexists. split; [done|]. exists (dirs ++ new), files, fresh. cbn [allocator saved writing].
    split; [|done]. apply (state_ok_more _ _ _ _ _ (n + 50)); [done|lia].
  - eexists. split; [done|]. exists dirs, (files ++ fresh), []. cbn [allocator saved writing]. split; [|by rewrite map_app, Hsaved, Hwriting].
    apply (state_ok_more _ _ _ _ _ n); [by apply keep_ok|lia].
  - eexists. split; [done|]. exists dirs, files, []. cbn [allocator saved writing]. split; [|done].
    apply (state_ok_more _ _ _ _ _ n); [by eapply drop_ok|lia].
Qed.

Lemma run_ops_ok ops r n : run_ok r n -> Z.of_nat (n + 51 * length ops) < 10 ^ 20 ->
  ∃ r', run_ops r ops = Some r' /\ run_ok r' (n + 51 * length ops).
Proof using All.
  revert r n. induction ops as [|op ops IH]; intros r n Hr Hn; cbn [run_ops length] in *.
  - exists r. split; [done|]. by replace (n + 51 * 0)%nat with n by lia.
  - destruct (apply_op_ok r op n Hr ltac:(lia)) as (r1 & -> & Hr1). cbn [mbind option_bind].
    destruct (IH r1 (n + 51)%nat Hr1 ltac:(lia)) as (r' & -> & Hr'). exists r'. split; [done|].
    by replace (n + 51 * S (length ops))%nat with (n + 51 + 51 * length ops)%nat by lia.
Qed.

Lemma run_total ops : Z.of_nat (length ops) < 10 ^ 18 -> ∃ r n, run folders ops = Some r /\ run_ok r n.
Proof using All.
  intros Hn. unfold run, newAllocator. destruct (folderAncestry_total folders) as (c & -> & Hc). cbn [mbind option_bind].
  destruct (run_ops_ok ops {| allocator := {| chains := c; directories := ∅; taken := ∅; pending := [] |}; saved := []; writing := [] |} 0) as (r & -> & Hr).
  - exists [], [], []. split; [|done]. split; cbn [allocator directories chains pending].
    + split; constructor || done.
    + constructor.
    + intros i d. by rewrite lookup_empty.
    + intros i d. by rewrite lookup_empty.
    + constructor.
    + done.
    + intros d. unfold names. cbn [taken]. by rewrite lookup_empty.
    + done.
  - lia.
  - by eexists r, _.
Qed.

(** Every path of a tree is its safe segments, and takes at most 256 bytes for each. *)
Lemma tree_paths dirs nodes : tree dirs nodes -> ∀ x, x ∈ nodes -> Forall safe_segment (segments_of (path_of x)) /\
  (utf8Length (path_of x) <= 256 * length (segments_of (path_of x)))%nat.
Proof.
  intros [Hsafe _ Hdirs Hpar] x. rewrite Forall_forall in Hsafe, Hpar.
  remember (length (segments_of (path_of x))) as k eqn:Hk. revert x Hk. induction (lt_wf k) as [k _ IH]. intros [d s] -> Hx.
  pose proof (Hsafe _ Hx) as Hs. cbn [snd] in Hs. unfold path_of. cbn [fst snd].
  pose proof (segments_within d s (safe_nonempty s Hs) (safe_no_slash s Hs)) as Hseg. rewrite Hseg, length_app. cbn [length].
  pose proof (sg_bytes _ Hs) as Hb. unfold MAX_SEGMENT_BYTES in Hb. unfold within. case_bool_decide as E.
  { subst d. rewrite segments_nil. split; [by constructor|cbn; lia]. }
  destruct (Hpar _ Hx) as [Hd|Hd]; [done|]. cbn [fst] in Hd. apply list_elem_of_fmap in Hd as (y & -> & Hy).
  assert (Forall safe_segment (segments_of (path_of y)) /\ (utf8Length (path_of y) <= 256 * length (segments_of (path_of y)))%nat) as [Hys Hyl].
  { apply (IH (length (segments_of (path_of y)))); [|done|by apply Hdirs]. unfold path_of at 2. cbn [fst snd].
    rewrite Hseg, length_app. cbn. lia. }
  split; [apply Forall_app; split; [done|by constructor]|]. rewrite utf8Length_app by (intros c r [= <- _]; done).
  assert (utf8Length ([47] ++ s) = S (utf8Length s)) as ->; [|lia].
  unfold utf8Length. rewrite (code_points_plain [47] s) by (by repeat constructor). done.
Qed.

(** C21: Whatever documents and folders (whose ids, database keys, contain no slash) a run archives, and however often an archive is saved or
    thrown away, the allocator answers (every search for a free name and every walk up the folders
    ends), and the paths in the archives are pairwise different even when every segment is compared
    in composed upper case, none is where a directory is, each segment is one any extractor can
    write (nothing reserved or unsafe, no lone surrogate, at most 255 bytes, no device name, not
    dots alone), and each path fits the name field of a ZIP entry. *)
Theorem archive_paths_safe_and_distinct ops : Z.of_nat (length ops) < 10 ^ 18 ->
  ∃ r, run folders ops = Some r /\
    let files := saved r ++ writing r in
    NoDup (map fold_path files) /\
    (∀ i d, directories (allocator r) !! i = Some d -> fold_path d ∉ map fold_path files) /\
    Forall (λ p, Forall safe_segment (segments_of p) /\ segments_of p <> [] /\ Z.of_nat (utf8Length p) <= 0xffff) files.
Proof using All.
  intros Hn. destruct (run_total ops Hn) as (r & n & Hr & dirs & files & fresh & [Htree _ Hknown _ Hnest _ _ _] & Hsv & Hwr).
  exists r. split; [done|]. cbv zeta. rewrite Hsv, Hwr, <- map_app. pose proof (tree_inj _ _ Htree) as Hinj. pose proof (tree_paths _ _ Htree) as Hpaths.
  pose proof Htree as [Hsafe Hkeys Hdirs Hpar]. split; [|split].
  - rewrite map_map. apply NoDup_fmap_2_strong.
    + intros x y Hx Hy. apply Hinj; rewrite elem_of_app; by right.
    + rewrite map_app in Hkeys. apply NoDup_app in Hkeys as (_ & _ & Hkeys). by apply NoDup_fmap_1 in Hkeys.
  - intros i d Hd Hin. apply Hknown in Hd. apply list_elem_of_fmap in Hd as (x & -> & Hx). rewrite map_map in Hin.
    apply list_elem_of_fmap in Hin as (y & E & Hy). apply Hinj in E; [|rewrite elem_of_app; by left|rewrite elem_of_app; by right]. subst y.
    rewrite map_app in Hkeys. apply NoDup_app in Hkeys as (_ & Hdis & _).
    apply (Hdis (key_of x)); by apply list_elem_of_In, in_map, list_elem_of_In.
  - apply Forall_map, Forall_forall. intros x Hx. assert (x ∈ dirs ++ files ++ fresh) as Hx' by (rewrite elem_of_app; by right).
    destruct (Hpaths x Hx') as [Hall Hbytes]. rewrite Forall_forall in Hsafe, Hnest. specialize (Hnest x Hx'). split; [done|].
    pose proof (Hsafe _ Hx') as Hs. assert (segments_of (path_of x) = segments_of (fst x) ++ [snd x]) as Hseg
      by (apply segments_within; [by apply safe_nonempty|by apply safe_no_slash]).
    rewrite Hseg in *. rewrite length_app in Hbytes. cbn [length] in Hbytes. unfold MAX_FOLDER_NESTING_DEPTH in Hnest.
    split; [by destruct (segments_of (fst x))|]. lia.
Qed.
End runs.

(** ** A concrete run *)

Module SampleNames.
(** Unicode on ASCII text. *)
Definition asciiUnicode : Unicode := {| normalizeNFC := λ s, s; toUpperCase := map upper_unit |}.

Lemma asciiUnicodeLaws : @UnicodeLaws asciiUnicode.
Proof. split; intros; cbn; [done|by rewrite map_app|done|done]. Qed.

Definition folders : list DecryptedFolder :=
  [{| f_id := js "f1"; f_name := js "Work: 2024"; parentId := Some (js "f2") |};
   {| f_id := js "f2"; f_name := js ".."; parentId := Some (js "f1") |}].
Definition ops : list Op :=
  [Add (js "a.txt") (Some (js "f1")); Drop; Add (js "A.TXT") (Some (js "f1")); Add (js "a.txt") (Some (js "f1"));
   Keep; Skip (js "con") None; Add (js "con.log") None].
End SampleNames.

Lemma archive_paths_safe_and_distinct_witness : ∃ r, @run SampleNames.asciiUnicode SampleNames.folders SampleNames.ops = Some r /\
  saved r ++ writing r = [js "folder/Work_ 2024/A.TXT"; js "folder/Work_ 2024/a (2).txt"; js "_con.log"] /\
  NoDup (map (@fold_path SampleNames.asciiUnicode) (saved r ++ writing r)).
Proof.
  destruct (@archive_paths_safe_and_distinct SampleNames.asciiUnicode SampleNames.asciiUnicodeLaws SampleNames.folders) with (ops := SampleNames.ops)
    as (r & Hr & Hd & _).
  - repeat constructor; vm_compute; intros Hin; repeat (apply elem_of_cons in Hin as [Hin|Hin]; [discriminate|]); by apply elem_of_nil in Hin.
  - vm_compute. reflexivity.
  - exists r. split; [done|]. split; [|done].
    assert (match @run SampleNames.asciiUnicode SampleNames.folders SampleNames.ops with Some r => saved r ++ writing r | None => [] end =
      [js "folder/Work_ 2024/A.TXT"; js "folder/Work_ 2024/a (2).txt"; js "_con.log"]) as E by (vm_compute; reflexivity).
    by rewrite Hr in E.
Defined.
