(* ===== verification/Admission.v ===== *)
(** Holding a slot of a process-wide memory budget: the counting semaphore and the per-identity
    quota of server/src/utils/partSemaphore.ts, and the admission mechanics of
    server/src/middleware/admission.ts built on them.

    A request is a number; its record holds the variables the closures of [admitWithinBudget]
    and [createHandlerSettledRelease] share for it.  Everything a callback does synchronously is
    one function on the state; what the event loop interleaves (arrivals, the response's [close],
    the handler starting and settling) are the events of [step].  Node runs one callback at a
    time, so any sequence of events is an interleaving. *)
From S2P Require Import Prelude.
Local Open Scope nat_scope.

(** The two fields of a [SlotTicket]. *)
Record SlotTicket := { inHandler : bool; releaseWhenSettled : bool }.

(** Where the request's handler is: only [run] changes it. *)
Inductive Handler := NotReached | Running | Settled | Unadmitted.

Record Req := {
  identity : jsstr;
  closed : bool;
  slot : option bool;          (* [releaseSlot]: undefined, or defined with its [released] flag *)
  shareReleased : bool;        (* the [released] flag of [releaseShare] *)
  ticket : option SlotTicket;  (* the entry of the [tickets] map *)
  nextCalled : bool;
  handler : Handler;
}.

Record Adm := {
  permits : nat;
  free : nat;
  waiters : list nat;
  draining : bool;
  limit : nat;
  held : gmap jsstr nat;
  reqs : gmap nat Req;
  refused : list nat;          (* the requests answered by [refuse] *)
  grants : list nat;           (* the order in which slots were granted *)
}.

(** The [RangeError] of a budget below one. *)
Inductive BudgetError := InvalidPermits | InvalidLimit.

Definition createBudget (permits limit : nat) : result BudgetError Adm :=
  if permits <? 1 then Throw InvalidPermits
  else if limit <? 1 then Throw InvalidLimit
  else Ok {| permits := permits; free := permits; waiters := []; draining := false; limit := limit;
             held := ∅; reqs := ∅; refused := []; grants := [] |}.

(** ** State updates *)

Definition set_req (r : nat) (q : Req) (s : Adm) : Adm :=
  {| permits := permits s; free := free s; waiters := waiters s; draining := draining s;
     limit := limit s; held := held s; reqs := <[r := q]> (reqs s); refused := refused s;
     grants := grants s |}.

Definition set_free (n : nat) (s : Adm) : Adm :=
  {| permits := permits s; free := n; waiters := waiters s; draining := draining s;
     limit := limit s; held := held s; reqs := reqs s; refused := refused s; grants := grants s |}.

Definition set_waiters (ws : list nat) (s : Adm) : Adm :=
  {| permits := permits s; free := free s; waiters := ws; draining := draining s;
     limit := limit s; held := held s; reqs := reqs s; refused := refused s; grants := grants s |}.

Definition set_draining (b : bool) (s : Adm) : Adm :=
  {| permits := permits s; free := free s; waiters := waiters s; draining := b;
     limit := limit s; held := held s; reqs := reqs s; refused := refused s; grants := grants s |}.

Definition set_held (h : gmap jsstr nat) (s : Adm) : Adm :=
  {| permits := permits s; free := free s; waiters := waiters s; draining := draining s;
     limit := limit s; held := h; reqs := reqs s; refused := refused s; grants := grants s |}.

Definition log_refused (r : nat) (s : Adm) : Adm :=
  {| permits := permits s; free := free s; waiters := waiters s; draining := draining s;
     limit := limit s; held := held s; reqs := reqs s; refused := refused s ++ [r]; grants := grants s |}.

Definition log_grant (r : nat) (s : Adm) : Adm :=
  {| permits := permits s; free := free s; waiters := waiters s; draining := draining s;
     limit := limit s; held := held s; reqs := reqs s; refused := refused s; grants := grants s ++ [r] |}.

Definition with_slot (b : option bool) (q : Req) : Req :=
  {| identity := identity q; closed := closed q; slot := b; shareReleased := shareReleased q;
     ticket := ticket q; nextCalled := nextCalled q; handler := handler q |}.
Definition with_closed (q : Req) : Req :=
  {| identity := identity q; closed := true; slot := slot q; shareReleased := shareReleased q;
     ticket := ticket q; nextCalled := nextCalled q; handler := handler q |}.
Definition with_share (q : Req) : Req :=
  {| identity := identity q; closed := closed q; slot := slot q; shareReleased := true;
     ticket := ticket q; nextCalled := nextCalled q; handler := handler q |}.
Definition with_ticket (t : SlotTicket) (q : Req) : Req :=
  {| identity := identity q; closed := closed q; slot := slot q; shareReleased := shareReleased q;
     ticket := Some t; nextCalled := nextCalled q; handler := handler q |}.
Definition with_next (q : Req) : Req :=
  {| identity := identity q; closed := closed q; slot := slot q; shareReleased := shareReleased q;
     ticket := ticket q; nextCalled := true; handler := handler q |}.
Definition with_handler (h : Handler) (q : Req) : Req :=
  {| identity := identity q; closed := closed q; slot := slot q; shareReleased := shareReleased q;
     ticket := ticket q; nextCalled := nextCalled q; handler := h |}.

(** Apply [f] to a request's record. *)
Definition on_req (r : nat) (f : Req -> Req) (s : Adm) : Adm :=
  match reqs s !! r with Some q => set_req r (f q) s | None => s end.

(** ** The quota *)

Definition heldBy (key : jsstr) (s : Adm) : nat := default 0 (held s !! key).

(** [charge]: the state with one more unit charged, or [None] for a key at its limit. *)
Definition charge (key : jsstr) (s : Adm) : option Adm :=
  let current := heldBy key s in
  if limit s <=? current then None
  else Some (set_held (<[key := current + 1]> (held s)) s).

(** [releaseShare] of a request. *)
Definition releaseShare (r : nat) (s : Adm) : Adm :=
  match reqs s !! r with
  | None => s
  | Some q =>
      if shareReleased q then s
      else
        let s := set_req r (with_share q) s in
        let remaining := default 1 (held s !! identity q) - 1 in
        if remaining <=? 0 then set_held (delete (identity q) (held s)) s
        else set_held (<[identity q := remaining]> (held s)) s
  end.

(** ** The semaphore *)

(** A release function of [makeRelease], on the slot a request was granted. *)
Definition releaseSlot (drain : Adm -> Adm) (r : nat) (s : Adm) : Adm :=
  match reqs s !! r with
  | None => s
  | Some q =>
      match slot q with
      | Some false => drain (set_free (free s + 1) (set_req r (with_slot (Some true) q) s))
      | _ => s
      end
  end.

(** The task [admitWithinBudget] queues: what runs when the slot is granted. *)
Definition grantTask (drain : Adm -> Adm) (r : nat) (s : Adm) : Adm :=
  let s := on_req r (with_slot (Some false)) s in
  match reqs s !! r with
  | None => s
  | Some q =>
      if closed q then releaseSlot drain r s
      else
        let s := on_req r (with_ticket {| inHandler := false; releaseWhenSettled := false |}) s in
        on_req r with_next s
  end.

(** The loop of [drain]; a nested [drain] is the flag's early return. *)
Fixpoint drain_loop (fuel : nat) (s : Adm) : Adm :=
  match fuel with
  | O => s
  | S fuel =>
      if free s =? 0 then s
      else
        match waiters s with
        | [] => s
        | r :: ws =>
            let nested s :=
              if draining s then s else set_draining false (drain_loop fuel (set_draining true s)) in
            drain_loop fuel (grantTask nested r (log_grant r (set_free (free s - 1) (set_waiters ws s))))
        end
  end.

Definition drain (s : Adm) : Adm :=
  if draining s then s
  else set_draining false (drain_loop (S (length (waiters s))) (set_draining true s)).

Definition acquire (r : nat) (s : Adm) : Adm := drain (set_waiters (waiters s ++ [r]) s).

(** ** Admission *)

Definition new_req (who : jsstr) : Req :=
  {| identity := who; closed := false; slot := None; shareReleased := false; ticket := None;
     nextCalled := false; handler := NotReached |}.

(** [hold], for a request of [who] whose response is [destroyed] or not. *)
Definition admitWithinBudget (r : nat) (who : jsstr) (destroyed : bool) (s : Adm) : Adm :=
  if destroyed then s
  else
    match charge who s with
    | None => log_refused r s
    | Some s => acquire r (set_req r (new_req who) s)
    end.

(** What the [close] listener hands to the [closed] hook. *)
Definition releaseAll (r : nat) (s : Adm) : Adm := releaseSlot drain r (releaseShare r s).

(** The [close] event of a response: the listener, and the holder's [closed] hook. *)
Definition onClose (r : nat) (s : Adm) : Adm :=
  let s := on_req r with_closed s in
  match reqs s !! r with
  | None => s
  | Some q =>
      match ticket q with
      | Some {| inHandler := true |} =>
          on_req r (with_ticket {| inHandler := true; releaseWhenSettled := true |}) s
      | _ => releaseAll r s
      end
  end.

(** [run] up to the handler's first suspension. *)
Definition handlerStart (r : nat) (s : Adm) : Adm :=
  match reqs s !! r with
  | None => s
  | Some q =>
      match ticket q with
      | None => on_req r (with_handler Unadmitted) s
      | Some t =>
          on_req r (λ q, with_handler Running
            (with_ticket {| inHandler := true; releaseWhenSettled := releaseWhenSettled t |} q)) s
      end
  end.

(** The [finally] of [run]. *)
Definition handlerSettle (r : nat) (s : Adm) : Adm :=
  match reqs s !! r with
  | None => s
  | Some q =>
      match ticket q with
      | None => s
      | Some t =>
          let s := on_req r (λ q, with_handler Settled
            (with_ticket {| inHandler := false; releaseWhenSettled := releaseWhenSettled t |} q)) s in
          if releaseWhenSettled t then releaseAll r s else s
      end
  end.

(** ** Interleavings *)

Inductive Event :=
  | Arrive (r : nat) (who : jsstr) (destroyed : bool)
  | Close (r : nat)
  | HandlerStart (r : nat)
  | HandlerSettle (r : nat).

Definition handle (e : Event) (s : Adm) : Adm :=
  match e with
  | Arrive r who destroyed => admitWithinBudget r who destroyed s
  | Close r => onClose r s
  | HandlerStart r => handlerStart r s
  | HandlerSettle r => handlerSettle r s
  end.

(** When the event loop can deliver an event: a request arrives once; [close] fires once on a
    response with a listener ([res.once]); the chain reaches the handler once, after [next]; a
    running handler settles. *)
Definition enabled (s : Adm) (e : Event) : Prop :=
  match e with
  | Arrive r _ _ => reqs s !! r = None /\ r ∉ refused s
  | Close r => ∃ q, reqs s !! r = Some q /\ closed q = false
  | HandlerStart r => ∃ q, reqs s !! r = Some q /\ nextCalled q = true /\ handler q = NotReached
  | HandlerSettle r => ∃ q, reqs s !! r = Some q /\ handler q = Running
  end.

Inductive step : Adm -> Event -> Adm -> Prop :=
  | step_handle s e : enabled s e -> step s e (handle e s).

Inductive reachable (permits limit : nat) : Adm -> Prop :=
  | reach_init s : createBudget permits limit = Ok s -> reachable permits limit s
  | reach_step s e s' : reachable permits limit s -> step s e s' -> reachable permits limit s'.
