(* ===== verification/AdmissionSpec.v ===== *)
(** What admission promises, over every interleaving of arrivals, closes and handlers: the
    budget is never exceeded and never leaks, slots are granted in arrival order, no identity
    passes its share, and a handler whose client goes away keeps its slot until it settles. *)
From S2P Require Import Prelude Admission.
Local Open Scope nat_scope.

(** ** Concrete runs *)

Definition enabledb (s : Adm) (e : Event) : bool :=
  match e with
  | Arrive r _ _ => bool_decide (reqs s !! r = None) && bool_decide (r ∉ refused s)
  | Close r => match reqs s !! r with Some q => negb (closed q) | None => false end
  | HandlerStart r =>
      match reqs s !! r with
      | Some q => nextCalled q && match handler q with NotReached => true | _ => false end
      | None => false
      end
  | HandlerSettle r =>
      match reqs s !! r with
      | Some q => match handler q with Running => true | _ => false end
      | None => false
      end
  end.

Fixpoint trace (es : list Event) (s : Adm) : option Adm :=
  match es with
  | [] => Some s
  | e :: es => if enabledb s e then trace es (handle e s) else None
  end.

Lemma enabledb_sound s e : enabledb s e = true -> enabled s e.
Proof.
  destruct e as [r who d|r|r|r]; cbn; [|destruct (reqs s !! r) as [q|]; [|done]..].
  - intros [?%bool_decide_eq_true ?%bool_decide_eq_true]%andb_true_iff. done.
  - intros Hc%negb_true_iff. eauto.
  - intros [Hn Hh]%andb_true_iff. exists q. destruct (handler q); done.
  - intros Hh. exists q. destruct (handler q); done.
Qed.

Lemma trace_reachable p l es s s' : reachable p l s -> trace es s = Some s' -> reachable p l s'.
Proof.
  revert s. induction es as [|e es IH]; intros s Hr; cbn; [by intros [= <-]|].
  destruct (enabledb s e) eqn:E; [|done]. intros Ht. eapply IH; [|exact Ht].
  eapply reach_step; [exact Hr|]. constructor. by apply enabledb_sound.
Qed.

(** A state reached by a run from the initial budget, for the witnesses. *)
Definition reached (p l : nat) (es : list Event) : Adm :=
  match createBudget p l with
  | Ok s => default s (trace es s)
  | Throw _ => {| permits := 0; free := 0; waiters := []; draining := false; limit := 0; held := ∅;
                  reqs := ∅; refused := []; grants := [] |}
  end.

Lemma reached_reachable p l es :
  match createBudget p l with Ok s => bool_decide (is_Some (trace es s)) | Throw _ => false end = true ->
  reachable p l (reached p l es).
Proof.
  unfold reached. destruct (createBudget p l) as [s|] eqn:E; [|done].
  intros [s' Hs]%bool_decide_eq_true. rewrite Hs. cbn. by eapply trace_reachable; [apply reach_init|].
Qed.

(** ** Counting requests *)

Definition count (p : Req -> bool) (m : gmap nat Req) : nat :=
  size (filter (λ '(_, q), p q = true) m).

Definition b2n (b : bool) : nat := if b then 1 else 0.

Lemma count_empty p : count p ∅ = 0.
Proof. unfold count. by rewrite map_filter_empty, map_size_empty. Qed.

Lemma count_insert p m r q : m !! r = None -> count p (<[r := q]> m) = b2n (p q) + count p m.
Proof.
  intros Hr. unfold count. rewrite map_filter_insert. case_decide as Hp.
  - rewrite Hp. cbn. rewrite map_size_insert_None; [done|]. apply map_lookup_filter_None. by left.
  - rewrite delete_id by done. destruct (p q); [done|]. done.
Qed.

Lemma count_update p m r q q' : m !! r = Some q ->
  count p (<[r := q']> m) + b2n (p q) = b2n (p q') + count p m.
Proof.
  intros Hr. rewrite <- (insert_delete_id m r q Hr) at 2. rewrite <- insert_delete_eq.
  rewrite !count_insert by apply lookup_delete_eq. lia.
Qed.

(** A request that holds a slot, and one whose share is still charged to [who]. *)
Definition live (q : Req) : bool := bool_decide (slot q = Some false).
Definition charged (who : jsstr) (q : Req) : bool := bool_decide (identity q = who) && negb (shareReleased q).

Lemma count_pos p m r q : m !! r = Some q -> p q = true -> 1 <= count p m.
Proof.
  intros Hr Hp. rewrite <- (insert_delete_id m r q Hr). rewrite count_insert by apply lookup_delete_eq.
  rewrite Hp. cbn. lia.
Qed.

Lemma count_zero p m : (∀ r q, m !! r = Some q -> p q = false) -> count p m = 0.
Proof.
  intros H. unfold count. apply map_size_empty_iff, map_empty. intros r.
  apply map_lookup_filter_None. right. intros q Hr Hp. by rewrite (H r q Hr) in Hp.
Qed.

(** ** The invariant *)

(** What holds of every request's record between callbacks. *)
Record req_ok (q : Req) : Prop := {
  ok_open : closed q = false -> shareReleased q = false /\ slot q <> Some true /\
    ∀ t, ticket q = Some t -> releaseWhenSettled t = false;
  ok_closed : closed q = true ->
    (shareReleased q = true /\ slot q <> Some false /\ handler q <> Running)
    \/ (shareReleased q = false /\ slot q = Some false /\ handler q = Running /\
        ticket q = Some {| inHandler := true; releaseWhenSettled := true |})
    \/ (shareReleased q = true /\ slot q = Some true /\ handler q = Running /\
        ∃ w, ticket q = Some {| inHandler := true; releaseWhenSettled := w |});
  ok_running : handler q = Running <-> ∃ w, ticket q = Some {| inHandler := true; releaseWhenSettled := w |};
  ok_next : nextCalled q = true <-> is_Some (ticket q);
  ok_queued : slot q = None -> ticket q = None;
  ok_admitted : handler q <> Unadmitted;
}.

Record inv (s : Adm) : Prop := {
  inv_budget : free s + count live (reqs s) = permits s;
  inv_queue : NoDup (waiters s) /\
    ∀ r, r ∈ waiters s <-> ∃ q, reqs s !! r = Some q /\ slot q = None;
  inv_quota : ∀ who, heldBy who s = count (charged who) (reqs s) /\ heldBy who s <= limit s;
  inv_nonzero : ∀ who n, held s !! who = Some n -> 1 <= n;
  inv_reqs : map_Forall (λ _ q, req_ok q) (reqs s);
  inv_grants : ∀ r q, reqs s !! r = Some q -> slot q <> None -> r ∈ grants s;
}.

(** Between callbacks nobody waits while a slot is free. *)
Definition quiet (s : Adm) : Prop := draining s = false /\ (waiters s <> [] -> free s = 0).

(** Replacing a record by one that counts the same. *)
Lemma inv_set_req s r q q' : inv s -> reqs s !! r = Some q -> req_ok q' ->
  slot q' = slot q -> identity q' = identity q -> shareReleased q' = shareReleased q ->
  inv (set_req r q' s).
Proof.
  intros [Hb [Hnd Hq] Hquota Hnz Hreqs Hg] Hr Hok Hslot Hid Hshare.
  assert (live q' = live q) as El by (unfold live; by rewrite Hslot).
  assert (∀ who, charged who q' = charged who q) as Ec by (intros; unfold charged; by rewrite Hid, Hshare).
  constructor; cbn.
  - pose proof (count_update live (reqs s) r q q' Hr). rewrite El in *. lia.
  - split; [done|]. intros r'. rewrite Hq. destruct (decide (r' = r)) as [->|Hne].
    + rewrite lookup_insert_eq, Hr. split; intros (x & [= <-] & Hx); eexists; (split; [done|]); congruence.
    + by rewrite lookup_insert_ne.
  - intros who. destruct (Hquota who) as [H1 H2]. change (heldBy who (set_req r q' s)) with (heldBy who s).
    split; [|done]. pose proof (count_update (charged who) (reqs s) r q q' Hr). rewrite Ec in *. lia.
  - done.
  - by apply map_Forall_insert_2.
  - intros r' x. destruct (decide (r' = r)) as [->|Hne].
    + rewrite lookup_insert_eq. intros [= <-]. rewrite Hslot. by apply Hg.
    + rewrite lookup_insert_ne by done. apply Hg.
Qed.

(** *** Draining *)

(** What granting the head of the queue does to its record. *)
Definition granted_req (q : Req) : Req :=
  if closed q then with_slot (Some true) q
  else with_next (with_ticket {| inHandler := false; releaseWhenSettled := false |} (with_slot (Some false) q)).

Definition granted_state (r : nat) (ws : list nat) (q : Req) (s : Adm) : Adm :=
  log_grant r (set_req r (granted_req q)
    (set_free (if closed q then free s else free s - 1) (set_waiters ws s))).

Lemma grantTask_eq nested r ws q s :
  (∀ x, draining x = true -> nested x = x) -> draining s = true -> 1 <= free s ->
  reqs s !! r = Some q ->
  grantTask nested r (log_grant r (set_free (free s - 1) (set_waiters ws s))) = granted_state r ws q s.
Proof.
  intros Hnest Hdr Hfree Hr. unfold grantTask, on_req, granted_state, granted_req. cbn. rewrite Hr. cbn.
  rewrite lookup_insert_eq. cbn. destruct (closed q) eqn:Hc.
  - unfold releaseSlot. cbn. rewrite lookup_insert_eq. cbn. rewrite Hnest by done.
    unfold set_free, set_req, log_grant, with_slot. cbn. rewrite insert_insert_eq. f_equal. lia.
  - unfold set_req, log_grant. cbn. rewrite !lookup_insert_eq. cbn. by rewrite !insert_insert_eq.
Qed.

Lemma granted_req_ok q : req_ok q -> slot q = None -> req_ok (granted_req q).
Proof.
  intros [H1 H2 H3 H4 H5 H6] Hslot. unfold granted_req. specialize (H5 Hslot).
  destruct (closed q) eqn:Hc.
  - constructor; cbn; try done; try congruence. intros _.
    destruct (H2 eq_refl) as [(? & _ & ?)|[(_ & ? & _)|(_ & ? & _)]]; [by left|congruence..].
  - specialize (H1 eq_refl) as (Hs & _ & _). constructor; cbn; try done; try congruence.
    + intros _. split_and!; [done..|]. by intros t [= <-].
    + split; [|by intros [w [=]]]. intros [w Hw]%H3. congruence.
Qed.

Lemma inv_granted r ws q s : inv s -> waiters s = r :: ws -> 1 <= free s -> reqs s !! r = Some q ->
  slot q = None -> inv (granted_state r ws q s).
Proof.
  intros [Hb [Hnd Hq] Hquota Hnz Hreqs Hg] Hws Hfree Hr Hslot.
  rewrite Hws in *. apply NoDup_cons in Hnd as [Hnin Hnd].
  assert (slot (granted_req q) = Some (closed q)) as Eslot by (unfold granted_req; by destruct (closed q)).
  assert (∀ who, charged who (granted_req q) = charged who q) as Ec
    by (intros; unfold granted_req, charged; by destruct (closed q)).
  constructor; cbn.
  - pose proof (count_update live (reqs s) r q (granted_req q) Hr) as Hcount.
    assert (live q = false) as El by (unfold live; by rewrite Hslot).
    assert (live (granted_req q) = negb (closed q)) as El' by (unfold live; rewrite Eslot; by destruct (closed q)).
    rewrite El, El' in Hcount. destruct (closed q); cbn in Hcount; lia.
  - split; [done|]. intros r'. destruct (decide (r' = r)) as [->|Hne].
    + rewrite lookup_insert_eq. split; [done|]. intros (x & [= <-] & Hx). congruence.
    + rewrite lookup_insert_ne by done. rewrite <- Hq, elem_of_cons. naive_solver.
  - intros who. destruct (Hquota who) as [H1 H2].
    pose proof (count_update (charged who) (reqs s) r q (granted_req q) Hr) as Hcount. rewrite Ec in Hcount.
    split; [|exact H2]. change (heldBy who (granted_state r ws q s)) with (heldBy who s). lia.
  - done.
  - apply map_Forall_insert_2; [|done]. apply granted_req_ok; [|done]. by apply (Hreqs r).
  - intros r' x. rewrite elem_of_app, list_elem_of_singleton. destruct (decide (r' = r)) as [->|Hne]; [by right|].
    rewrite lookup_insert_ne by done. intros Hx Hs. left. by apply (Hg r' x).
Qed.

(** What draining never touches. *)
Definition same_frame (s s' : Adm) : Prop :=
  permits s' = permits s /\ limit s' = limit s /\ held s' = held s /\ refused s' = refused s /\
  dom (reqs s') = dom (reqs s) /\ grants s' ++ waiters s' = grants s ++ waiters s.

Lemma drain_loop_inv fuel s : draining s = true -> inv s -> length (waiters s) < fuel ->
  let s' := drain_loop fuel s in
  inv s' /\ draining s' = true /\ (waiters s' <> [] -> free s' = 0) /\ same_frame s s' /\
  (∀ r q, reqs s !! r = Some q -> reqs s' !! r = Some q \/ (slot q = None /\ reqs s' !! r = Some (granted_req q))).
Proof.
  revert s. induction fuel as [|fuel IH]; intros s Hdr Hinv Hlen; cbn [drain_loop]; [lia|].
  destruct (Nat.eqb_spec (free s) 0) as [Hz|Hz]; [split_and!; auto; by split_and!|].
  destruct (waiters s) as [|r ws] eqn:Hws; [split_and!; auto; [done|by split_and!]|].
  destruct (inv_queue s Hinv) as [Hnd Hq]. destruct (proj1 (Hq r)) as (q & Hr & Hslot); [rewrite Hws; left|].
  rewrite (grantTask_eq _ r ws q s); [|by intros x ->|done|lia|done].
  assert (inv (granted_state r ws q s)) as Hinv' by (apply inv_granted; [done..|lia|done|done]).
  cbn [length] in Hlen. destruct (IH (granted_state r ws q s)) as (H1 & H2 & H3 & H4 & H5); [done|done|cbn; lia|].
  split_and!; try done.
  - destruct H4 as (E1 & E2 & E3 & E4 & E5 & E6). split_and!; try done.
    + rewrite E5. cbn. rewrite dom_insert_lookup_L; eauto.
    + rewrite E6. cbn. by rewrite Hws, <- app_assoc.
  - intros r' q' Hr'. destruct (decide (r' = r)) as [->|Hne].
    + rewrite Hr in Hr'. injection Hr' as <-. right. split; [done|].
      destruct (H5 r (granted_req q)) as [?|[Hs _]]; [cbn; by rewrite lookup_insert_eq|done|].
      unfold granted_req in Hs. by destruct (closed q).
    + apply H5. cbn. by rewrite lookup_insert_ne.
Qed.

Lemma inv_set_draining b s : inv s -> inv (set_draining b s).
Proof. by intros [? ? ? ? ? ?]. Qed.

Lemma drain_inv s : draining s = false -> inv s ->
  inv (drain s) /\ quiet (drain s) /\ same_frame s (drain s) /\
  (∀ r q, reqs s !! r = Some q -> reqs (drain s) !! r = Some q \/
     (slot q = None /\ reqs (drain s) !! r = Some (granted_req q))).
Proof.
  intros Hdr Hinv. unfold drain. rewrite Hdr.
  destruct (drain_loop_inv (S (length (waiters s))) (set_draining true s)) as (H1 & H2 & H3 & H4 & H5);
    [done|by apply inv_set_draining|cbn; lia|].
  split; [by apply inv_set_draining|]. split; [by split|]. split; [exact H4|exact H5].
Qed.

(** *** The operations *)

(** A request that is closed, with everything it held handed back. *)
Definition released_req (q : Req) : Req :=
  with_share (match slot q with Some _ => with_slot (Some true) q | None => q end).

(** One unit less for [who]. *)
Definition uncharge (who : jsstr) (h : gmap jsstr nat) : gmap jsstr nat :=
  let remaining := default 1 (h !! who) - 1 in
  if remaining <=? 0 then delete who h else <[who := remaining]> h.

Lemma uncharge_lookup who h who' : 1 <= default 0 (h !! who) ->
  default 0 (uncharge who h !! who') = default 0 (h !! who') - b2n (bool_decide (who = who')).
Proof.
  intros Hpos. unfold uncharge. destruct (h !! who) as [n|] eqn:E; cbn in Hpos; [|lia].
  cbn [from_option id]. case_bool_decide as Heq.
  - subst. rewrite E. destruct (Nat.leb_spec (n - 1) 0).
    + rewrite lookup_delete_eq. cbn. lia.
    + by rewrite lookup_insert_eq.
  - destruct (Nat.leb_spec (n - 1) 0); [rewrite lookup_delete_ne by done|rewrite lookup_insert_ne by done]; cbn; lia.
Qed.

Lemma releaseShare_eq r q s : reqs s !! r = Some q -> shareReleased q = false ->
  releaseShare r s = set_held (uncharge (identity q) (held s)) (set_req r (with_share q) s).
Proof.
  intros Hr Hs. unfold releaseShare, uncharge. rewrite Hr, Hs. cbn. by destruct (_ <=? 0).
Qed.

(** The state in which a request's share and slot are back, before the queue moves; [q'] is its
    record then. *)
Definition released_state (r : nat) (q q' : Req) (s : Adm) : Adm :=
  set_free (free s + b2n (live q)) (set_held (uncharge (identity q) (held s)) (set_req r q' s)).

(** Handing back, on a state where only the request's own record has moved, to [q1]. *)
Lemma releaseAll_eq r q1 s : shareReleased q1 = false -> slot q1 <> Some true ->
  releaseAll r (set_req r q1 s) = (if live q1 then drain else id) (released_state r q1 (released_req q1) s).
Proof.
  intros Hs Hslot. unfold releaseAll. rewrite (releaseShare_eq r q1) by (done || apply lookup_insert_eq).
  unfold releaseSlot. cbn. rewrite lookup_insert_eq. cbn. unfold released_state, released_req, live.
  destruct (slot q1) as [[]|] eqn:E; [done| |].
  - rewrite bool_decide_true by done. f_equal. unfold set_free, set_req, set_held, with_slot, with_share. cbn.
    by rewrite !insert_insert_eq.
  - rewrite bool_decide_false by done. unfold set_free, set_req, set_held, id. cbn.
    by rewrite Nat.add_0_r, insert_insert_eq.
Qed.

(** Nothing to hand back. *)
Lemma releaseAll_done r q s : reqs s !! r = Some q -> shareReleased q = true -> slot q <> Some false ->
  releaseAll r s = s.
Proof.
  intros Hr Hs Hslot. unfold releaseAll, releaseShare. rewrite Hr, Hs. unfold releaseSlot. rewrite Hr.
  by destruct (slot q) as [[]|].
Qed.

Lemma inv_released r q q' s : inv s -> reqs s !! r = Some q -> shareReleased q = false -> slot q <> Some true ->
  req_ok q' -> shareReleased q' = true -> slot q' = match slot q with Some _ => Some true | None => None end ->
  inv (released_state r q q' s).
Proof.
  intros [Hb [Hnd Hq] Hquota Hnz Hreqs Hg] Hr Hs Hslot Hok Hs' Hslot'.
  assert ((slot q' = None <-> slot q = None) /\ live q' = false) as [Hnone Hlive].
  { unfold live. rewrite Hslot'. by destruct (slot q). }
  assert (∀ who, charged who q' = false) as Hch.
  { intros who. unfold charged. by rewrite Hs', andb_false_r. }
  assert (∀ who, charged who q = bool_decide (identity q = who)) as Hch'.
  { intros who. unfold charged. by rewrite Hs, andb_true_r. }
  assert (1 <= heldBy (identity q) s) as Hpos.
  { destruct (Hquota (identity q)) as [-> _]. apply (count_pos _ _ r q); [done|].
    rewrite Hch'. by apply bool_decide_eq_true. }
  constructor; cbn.
  - pose proof (count_update live (reqs s) r q q' Hr) as Hc. rewrite Hlive in Hc. cbn in Hc. lia.
  - split; [done|]. intros r'. rewrite Hq. destruct (decide (r' = r)) as [->|Hne].
    + rewrite lookup_insert_eq, Hr. split; intros (x & [= <-] & Hx); eexists; (split; [done|]); tauto.
    + by rewrite lookup_insert_ne.
  - intros who. destruct (Hquota who) as [H1 H2].
    pose proof (count_update (charged who) (reqs s) r q q' Hr) as Hc. rewrite Hch, Hch' in Hc.
    unfold heldBy in *. cbn. rewrite uncharge_lookup by done. cbn in Hc. lia.
  - intros who n. unfold uncharge. destruct (Nat.leb_spec (default 1 (held s !! identity q) - 1) 0).
    + intros [_ Hn]%lookup_delete_Some. by apply (Hnz who).
    + intros [[<- <-]|[_ Hn]]%lookup_insert_Some; [lia|by apply (Hnz who)].
  - by apply map_Forall_insert_2.
  - intros r' x. destruct (decide (r' = r)) as [->|Hne].
    + rewrite lookup_insert_eq. intros [= <-] Hn. apply (Hg r q Hr). tauto.
    + rewrite lookup_insert_ne by done. apply Hg.
Qed.

Lemma quiet_frame s s' : draining s' = draining s -> waiters s' = waiters s -> free s' = free s -> quiet s -> quiet s'.
Proof. unfold quiet. by intros -> -> ->. Qed.

(** What every callback on request [r] comes to: the invariant, the budget's constants, the
    arrival order extended by [arrivals], and the other requests untouched or granted. *)
Definition calm (r : nat) (arrivals : list nat) (s s' : Adm) : Prop :=
  inv s' /\ quiet s' /\ permits s' = permits s /\ limit s' = limit s /\
  grants s' ++ waiters s' = (grants s ++ waiters s) ++ arrivals /\
  ∀ r' x, r' <> r -> reqs s !! r' = Some x ->
    reqs s' !! r' = Some x \/ (slot x = None /\ reqs s' !! r' = Some (granted_req x)).

Lemma calm_set r q s : inv (set_req r q s) -> quiet s -> calm r [] s (set_req r q s).
Proof.
  intros Hinv Hq. unfold calm. rewrite app_nil_r. split; [done|]. split; [done|]. do 3 (split; [done|]).
  intros r' x Hne Hx. left. cbn. by rewrite lookup_insert_ne.
Qed.

(** Draining after an update of request [r] alone. *)
Lemma calm_drain r arrivals s s1 : inv s1 -> draining s1 = false -> permits s1 = permits s -> limit s1 = limit s ->
  grants s1 ++ waiters s1 = (grants s ++ waiters s) ++ arrivals ->
  (∀ r' x, r' <> r -> reqs s !! r' = Some x -> reqs s1 !! r' = Some x) ->
  calm r arrivals s (drain s1).
Proof.
  intros Hinv Hd Hp Hl Hg Hreqs.
  destruct (drain_inv s1 Hd Hinv) as (H1 & H2 & (E1 & E2 & _ & _ & _ & E6) & Hreq).
  split; [done|]. split; [done|]. split; [congruence|]. split; [congruence|]. split; [congruence|].
  intros r' x Hne Hx. apply Hreq. by apply Hreqs.
Qed.

(** Closing or settling a request that gives everything back. *)
Lemma release_inv r q q1 s : inv s -> quiet s -> reqs s !! r = Some q -> identity q1 = identity q ->
  shareReleased q = false -> shareReleased q1 = false -> slot q <> Some true -> slot q1 = slot q ->
  req_ok (released_req q1) ->
  calm r [] s (releaseAll r (set_req r q1 s)).
Proof.
  intros Hinv Hq Hr Hid Hs Hs1 Hslot Hslot1 Hok.
  rewrite releaseAll_eq by congruence.
  assert (released_state r q1 (released_req q1) s = released_state r q (released_req q1) s) as ->.
  { unfold released_state, live. by rewrite Hid, Hslot1. }
  assert (inv (released_state r q (released_req q1) s)) as Hinv'.
  { apply inv_released; try done.
    unfold released_req. rewrite Hslot1. destruct (slot q) eqn:E; cbn; congruence. }
  assert (live q1 = live q) as -> by (unfold live; by rewrite Hslot1). destruct (live q) eqn:El.
  - apply calm_drain; try done; [apply Hq|cbn; by rewrite app_nil_r|].
    intros r' x Hne Hx. cbn. by rewrite lookup_insert_ne.
  - unfold id, calm. rewrite app_nil_r. destruct Hq as [Hd Hf]. split; [done|]. split.
    { split; [done|]. cbn. rewrite El. cbn. intros Hw. by rewrite Hf. }
    do 3 (split; [done|]). intros r' x Hne Hx. left. cbn. by rewrite lookup_insert_ne.
Qed.

(** Whether an arrival is let into the queue. *)
Definition accepted (s : Adm) (e : Event) : list nat :=
  match e with
  | Arrive r who false => if limit s <=? heldBy who s then [] else [r]
  | _ => []
  end.

Lemma arrive_inv r who destroyed s : inv s -> quiet s -> reqs s !! r = None ->
  calm r (accepted s (Arrive r who destroyed)) s (admitWithinBudget r who destroyed s).
Proof.
  intros Hinv Hq Hr. unfold admitWithinBudget, accepted. destruct destroyed.
  { unfold calm. rewrite app_nil_r. auto 7. }
  unfold charge. destruct (Nat.leb_spec (limit s) (heldBy who s)) as [|Hlt].
  { unfold calm. rewrite app_nil_r. split; [by destruct Hinv|]. split; [done|]. cbn. auto 7. }
  unfold acquire.
  assert (inv (set_waiters (waiters s ++ [r]) (set_req r (new_req who)
    (set_held (<[who := heldBy who s + 1]> (held s)) s)))) as Hinv'.
  { destruct Hinv as [Hb [Hnd Hin] Hquota Hnz Hreqs Hg]. constructor; cbn.
    - rewrite count_insert by done. done.
    - split.
      + apply NoDup_app. split_and!; [done| |apply NoDup_singleton].
        intros x Hx ->%list_elem_of_singleton. apply Hin in Hx as (? & ? & _). congruence.
      + intros r'. rewrite elem_of_app, list_elem_of_singleton, Hin. destruct (decide (r' = r)) as [->|Hne].
        * rewrite lookup_insert_eq. split; [intros _; by exists (new_req who)|by right].
        * rewrite lookup_insert_ne by done. naive_solver.
    - intros who'. destruct (Hquota who') as [H1 H2]. unfold heldBy in *. cbn. rewrite count_insert by done.
      unfold charged at 1. cbn. rewrite andb_true_r. case_bool_decide as E.
      + subst. rewrite lookup_insert_eq. cbn. lia.
      + rewrite lookup_insert_ne by done. cbn. lia.
    - intros who' n [[<- <-]|[_ Hn]]%lookup_insert_Some; [lia|by apply (Hnz who')].
    - apply map_Forall_insert_2; [|done]. constructor; cbn; try done. split; [done|by intros []].
    - intros r' x [[<- <-]|[_ Hx]]%lookup_insert_Some; [done|by apply Hg]. }
  apply calm_drain; try done; [apply Hq|cbn; by rewrite app_assoc|].
  intros r' x Hne Hx. cbn. by rewrite lookup_insert_ne.
Qed.

(** Once closed with no handler running, handing everything back is the end of a request. *)
Lemma released_req_ok q : closed q = true -> handler q <> Running -> handler q <> Unadmitted ->
  (∀ w, ticket q <> Some {| inHandler := true; releaseWhenSettled := w |}) ->
  (nextCalled q = true <-> is_Some (ticket q)) -> (slot q = None -> ticket q = None) ->
  req_ok (released_req q).
Proof.
  intros Hc Hh Hu Ht Hn Hs. unfold released_req.
  destruct (slot q) as [b|] eqn:E; constructor; cbn; rewrite ?E, ?Hc; try done.
  all: try (intros _; left; done).
  all: split; [done|by intros [w ?%Ht]].
Qed.

Lemma close_inv r q s : inv s -> quiet s -> reqs s !! r = Some q -> closed q = false ->
  calm r [] s (onClose r s).
Proof.
  intros Hinv Hq Hr Hc. pose proof (inv_reqs s Hinv r q Hr) as [H1 H2 H3 H4 H5 H6].
  destruct (H1 Hc) as (Hs & Hslot & Ht). unfold onClose, on_req. rewrite Hr. cbn. rewrite lookup_insert_eq. cbn.
  assert ((∀ w, ticket q <> Some {| inHandler := true; releaseWhenSettled := w |}) ->
    calm r [] s (releaseAll r (set_req r (with_closed q) s))) as Hrel.
  { intros Hno. apply (release_inv r q); try done.
    apply released_req_ok; try done. cbn. intros [w Hw]%H3. by apply Hno in Hw. }
  destruct (ticket q) as [[[] w]|] eqn:Et; [|by apply Hrel..].
  assert (handler q = Running) as Hrun by (apply H3; eauto).
  assert (∀ q2, set_req r q2 (set_req r (with_closed q) s) = set_req r q2 s) as ->
    by (intros; unfold set_req; cbn; by rewrite insert_insert_eq).
  apply calm_set; [|done]. apply (inv_set_req s r q); try done.
  assert (slot q = Some false) as Esl by (destruct (slot q) as [[]|]; [done|done|by specialize (H5 eq_refl)]).
  constructor; cbn; try done; try congruence.
  - intros _. right. left. done.
  - split; [eauto|done].
  - split; [eauto|]. intros _. by apply H4.
Qed.

Lemma start_inv r q s : inv s -> quiet s -> reqs s !! r = Some q -> nextCalled q = true -> handler q = NotReached ->
  calm r [] s (handlerStart r s).
Proof.
  intros Hinv Hq Hr Hn Hh. pose proof (inv_reqs s Hinv r q Hr) as [H1 H2 H3 H4 H5 H6].
  destruct (proj1 H4 Hn) as [[i w] Et]. unfold handlerStart, on_req. rewrite Hr, Et. cbn [releaseWhenSettled].
  apply calm_set; [|done]. apply (inv_set_req s r q); try done. constructor; cbn; try done; try congruence.
  - intros Hc. destruct (H1 Hc) as (? & ? & Ht). split_and!; [done..|]. intros t [= <-]. cbn. by apply (Ht _ Et).
  - intros Hc. right. right. destruct (H2 Hc) as [(? & ? & _)|[(_ & _ & ? & _)|(_ & _ & ? & _)]]; [|congruence..].
    split_and!; [done| |done|eauto]. destruct (slot q) as [[]|]; [done|done|]. by rewrite H5 in Et.
  - split; [eauto|done].
  - intros E. by rewrite H5 in Et.
Qed.

Lemma settle_inv r q s : inv s -> quiet s -> reqs s !! r = Some q -> handler q = Running ->
  calm r [] s (handlerSettle r s).
Proof.
  intros Hinv Hq Hr Hh. pose proof (inv_reqs s Hinv r q Hr) as [H1 H2 H3 H4 H5 H6].
  destruct (proj1 H3 Hh) as [w Et]. unfold handlerSettle, on_req. rewrite Hr, Et. cbn [releaseWhenSettled].
  set (q1 := with_handler Settled (with_ticket {| inHandler := false; releaseWhenSettled := w |} q)).
  assert (∀ w', ticket q1 <> Some {| inHandler := true; releaseWhenSettled := w' |}) as Hno by (intros w' [=]).
  assert (slot q <> None) as Hsome by (intros E; by rewrite H5 in Et).
  assert (nextCalled q1 = true <-> is_Some (ticket q1)) as Hnext by (cbn; split; [eauto|intros _; apply H4; eauto]).
  assert (shareReleased q = true \/ w = false ->
    (closed q = true -> shareReleased q = true /\ slot q <> Some false) -> inv (set_req r q1 s)) as Hset.
  { intros Hw Hcl. apply (inv_set_req s r q); try done. constructor; cbn; try done.
    - intros Hc. destruct (H1 Hc) as (Hs & ? & Ht). split_and!; [done..|]. intros t [= <-]. cbn.
      destruct Hw; congruence.
    - intros Hc. left. by destruct (Hcl Hc).
    - split; [done|by intros [? [=]]]. }
  destruct w.
  - destruct (closed q) eqn:Hc; [|by destruct (H1 eq_refl) as (_ & _ & Ht); specialize (Ht _ Et)].
    destruct (H2 eq_refl) as [(_ & _ & ?)|[(Hs & Hsl & _ & _)|(Hs & Hsl & _ & _)]]; [done| |].
    + apply (release_inv r q); try done; [congruence|]. by apply released_req_ok.
    + rewrite (releaseAll_done r q1); [|apply lookup_insert_eq|done|cbn; congruence].
      apply calm_set; [|done]. apply Hset; [by left|]. intros _. split; congruence.
  - apply calm_set; [|done]. apply Hset; [by right|]. intros Hc.
    destruct (H2 Hc) as [(_ & _ & ?)|[(_ & _ & _ & Ht)|(Hs & Hsl & _)]]; [done|congruence|split; congruence].
Qed.

(** The request an event is about. *)
Definition event_request (e : Event) : nat :=
  match e with Arrive r _ _ | Close r | HandlerStart r | HandlerSettle r => r end.

Lemma step_calm s e s' : inv s -> quiet s -> step s e s' -> calm (event_request e) (accepted s e) s s'.
Proof.
  intros Hinv Hq Hstep. inversion Hstep as [? ? Hen]; subst. destruct e; cbn [event_request handle].
  - apply arrive_inv; [done..|apply Hen].
  - destruct Hen as (q & Hr & Hc). by apply (close_inv r q).
  - destruct Hen as (q & Hr & Hn & Hh). by apply (start_inv r q).
  - destruct Hen as (q & Hr & Hh). by apply (settle_inv r q).
Qed.

Lemma reachable_inv p l s : reachable p l s -> inv s /\ quiet s /\ 1 <= p /\ permits s = p /\ limit s = l.
Proof.
  induction 1 as [s Hs|s e s' _ (IH1 & IH2 & IH3 & IH4 & IH5) Hstep].
  - unfold createBudget in Hs. destruct (Nat.ltb_spec p 1); [done|]. destruct (Nat.ltb_spec l 1); [done|].
    injection Hs as <-. split; [|split_and!; done || lia].
    constructor; cbn.
    + rewrite count_empty. lia.
    + split; [constructor|]. intros r. rewrite elem_of_nil. split; [done|]. intros (q & Hq & _). by rewrite lookup_empty in Hq.
    + intros who. unfold heldBy. cbn. rewrite lookup_empty, count_empty. cbn. lia.
    + intros who n Hn. by rewrite lookup_empty in Hn.
    + apply map_Forall_empty.
    + intros r q Hn. by rewrite lookup_empty in Hn.
  - destruct (step_calm s e s' IH1 IH2 Hstep) as (H1 & H2 & H3 & H4 & _). split_and!; try done; congruence.
Qed.

(** ** The claims *)

(** C8: The budget holds on every interleaving: the free slots and the slots held always add up
    to the permits, nobody waits while a slot is free, each waiting request waits once, every
    identity's charge counts exactly its requests in flight (queued ones included) and stays
    within its share, and the quota map has an entry only for identities in flight. *)
Theorem admission_budget p l s :
  reachable p l s ->
  free s + count live (reqs s) = p /\
  (waiters s <> [] -> free s = 0) /\ NoDup (waiters s) /\
  (∀ who, heldBy who s = count (charged who) (reqs s) /\ heldBy who s <= l) /\
  ∀ who, is_Some (held s !! who) <-> ∃ r q, reqs s !! r = Some q /\ charged who q = true.
Proof.
  intros Hr. destruct (reachable_inv p l s Hr) as ([Hb [Hnd _] Hquota Hnz _ _] & [_ Hwork] & _ & <- & <-).
  split_and!; [done..|]. intros who. destruct (Hquota who) as [Hh _]. split.
  - intros [n Hn]. pose proof (Hnz who n Hn) as Hpos. unfold heldBy in Hh. rewrite Hn in Hh. cbn in Hh.
    destruct (decide (map_Forall (λ _ q, charged who q = false) (reqs s))) as [Hall|Hex].
    + rewrite count_zero in Hh by (intros r q Hq; by apply (Hall r)). lia.
    + apply map_not_Forall in Hex as (r & q & Hq & Hc); [|solve_decision || (intros; apply _)].
      exists r, q. split; [done|]. by apply not_false_iff_true.
  - intros (r & q & Hq & Hc). pose proof (count_pos _ _ r q Hq Hc) as Hpos. unfold heldBy in Hh.
    destruct (held s !! who); [eauto|]. cbn in Hh. lia.
Qed.

(** Nothing leaks: once every response has closed and no handler is running, all slots are
    free, nobody is queued and no identity is charged, whatever was refused, abandoned in the
    queue, closed before or during its handler, and in whatever order. *)
Theorem admission_no_leak p l s :
  reachable p l s ->
  (∀ r q, reqs s !! r = Some q -> closed q = true /\ handler q <> Running) ->
  free s = p /\ waiters s = [] /\ held s = ∅.
Proof.
  intros Hr Hall. destruct (reachable_inv p l s Hr) as ([Hb _ Hquota Hnz Hreqs _] & [_ Hwork] & Hpos & <- & <-).
  assert (∀ r q, reqs s !! r = Some q -> shareReleased q = true /\ slot q <> Some false) as Hdone.
  { intros r q Hq. destruct (Hall r q Hq) as [Hc Hh].
    destruct (ok_closed q (Hreqs r q Hq) Hc) as [(? & ? & _)|[(_ & _ & ? & _)|(_ & _ & ? & _)]]; done. }
  assert (count live (reqs s) = 0) as H0.
  { apply count_zero. intros r q Hq. destruct (Hdone r q Hq) as [_ ?]. unfold live. by apply bool_decide_eq_false. }
  split; [lia|]. split.
  - destruct (waiters s); [done|]. rewrite Hwork in Hb by done. lia.
  - apply map_empty. intros who. destruct (held s !! who) as [n|] eqn:E; [|done].
    pose proof (Hnz who n E). destruct (Hquota who) as [Hh _]. unfold heldBy in Hh. rewrite E in Hh.
    rewrite count_zero in Hh; [cbn in Hh; lia|]. intros r q Hq. destruct (Hdone r q Hq) as [Hs _].
    unfold charged. rewrite Hs. apply andb_false_r.
Qed.

(** Slots are granted in order of arrival: at every step the requests granted so far followed
    by those still waiting are the previous ones, in the same order, then the request that just
    arrived within its share. *)
Theorem admission_fifo p l s e s' :
  reachable p l s -> step s e s' ->
  grants s' ++ waiters s' = (grants s ++ waiters s) ++ accepted s e.
Proof.
  intros Hr Hstep. destruct (reachable_inv p l s Hr) as (Hi & Hq & _).
  by destruct (step_calm s e s' Hi Hq Hstep) as (_ & _ & _ & _ & ? & _).
Qed.

(** A closed connection does not free a running handler's slot: while a handler runs that
    holds its slot and its share, every event but its own settling leaves both held; the
    response's [close] in particular only defers the release, and settling then hands them
    back. *)
Theorem admission_handler_keeps_slot p l s e s' r q :
  reachable p l s -> step s e s' ->
  reqs s !! r = Some q -> handler q = Running -> slot q = Some false ->
  (e <> HandlerSettle r ->
     ∃ q', reqs s' !! r = Some q' /\ handler q' = Running /\ slot q' = Some false /\ shareReleased q' = false) /\
  (e = HandlerSettle r -> closed q = true ->
     ∃ q', reqs s' !! r = Some q' /\ handler q' = Settled /\ slot q' = Some true /\ shareReleased q' = true).
Proof.
  intros Hr Hstep Hq Hrun Hslot. destruct (reachable_inv p l s Hr) as (Hi & Hqu & _).
  pose proof (step_calm s e s' Hi Hqu Hstep) as (Hi' & _ & _ & _ & _ & Hother).
  pose proof (inv_reqs s Hi r q Hq) as Hok.
  assert (shareReleased q = false) as Hshare.
  { destruct (closed q) eqn:Hc; [|by apply (ok_open q Hok)].
    destruct (ok_closed q Hok Hc) as [(_ & ? & _)|[(? & _)|(_ & ? & _)]]; congruence. }
  destruct (proj1 (ok_running q Hok) Hrun) as [w Et]. split.
  - intros Hne. destruct (decide (event_request e = r)) as [He|He].
    2: { destruct (Hother r q (not_eq_sym He) Hq) as [?|[? _]]; [eauto|congruence]. }
    inversion Hstep as [? ? Hen]; subst. destruct e as [r0 ? ?|r0|r0|r0]; cbn in *; try done.
    + destruct Hen as [Hnone _]. congruence.
    + destruct Hen as (q0 & Hq0 & Hc). rewrite Hq in Hq0. injection Hq0 as <-.
      unfold onClose, on_req. rewrite Hq. cbn. rewrite lookup_insert_eq. cbn. rewrite Et.
      cbn. rewrite lookup_insert_eq. eauto.
    + destruct Hen as (q0 & Hq0 & _ & Hh). rewrite Hq in Hq0. congruence.
  - intros -> Hc. inversion Hstep as [? ? Hen]; subst. cbn in *.
    destruct (ok_closed q Hok Hc) as [(_ & ? & _)|[(_ & _ & _ & Et')|(_ & ? & _)]]; [done| |congruence].
    unfold handlerSettle, on_req. rewrite Hq, Et'. cbn [releaseWhenSettled].
    set (q1 := with_handler Settled (with_ticket _ q)).
    assert (released_req q1 = with_share (with_slot (Some true) q1)) as Erel
      by (unfold released_req, q1; cbn; by rewrite Hslot).
    rewrite releaseAll_eq by (done || cbn; congruence).
    assert (live q1 = true) as -> by (unfold live, q1; cbn; rewrite Hslot; by apply bool_decide_eq_true).
    assert (inv (released_state r q1 (released_req q1) s)) as Hinv.
    { replace (released_state r q1 (released_req q1) s) with (released_state r q (released_req q1) s) by done.
      apply inv_released; [done|done|done|congruence| |by rewrite Erel|by rewrite Erel, Hslot].
      apply released_req_ok; [done..| |cbn; congruence].
      cbn. split; [eauto|]. intros _. apply (ok_next q Hok). eauto. }
    destruct (drain_inv (released_state r q1 (released_req q1) s) (proj1 Hqu) Hinv) as (_ & _ & _ & Hd).
    destruct (Hd r (released_req q1)) as [?|[Hs _]]; [cbn; by rewrite lookup_insert_eq| |by rewrite Erel in Hs].
    exists (released_req q1). by rewrite Erel in *.
Qed.

(** Two slots, two per identity: five requests of two identities, the third waits, the fourth is
    over its share, the fifth arrives with its socket gone; the second closes while its handler
    runs. *)
Definition alice : jsstr := js "alice".
Definition bob : jsstr := js "bob".
Definition sample_run : list Event :=
  [Arrive 1 alice false; Arrive 2 alice false; HandlerStart 2; Arrive 3 bob false; Arrive 4 alice false;
   Arrive 5 bob true; Close 2].
Definition sample : Adm := reached 2 2 sample_run.

Lemma admission_budget_witness :
  free sample = 0 /\ waiters sample = [3] /\ refused sample = [4] /\
  (free sample + count live (reqs sample) = 2 /\
  (waiters sample <> [] -> free sample = 0) /\ NoDup (waiters sample) /\
  (∀ who, heldBy who sample = count (charged who) (reqs sample) /\ heldBy who sample <= 2) /\
  ∀ who, is_Some (held sample !! who) <-> ∃ r q, reqs sample !! r = Some q /\ charged who q = true).
Proof.
  split; [vm_compute; reflexivity|]. split; [vm_compute; reflexivity|]. split; [vm_compute; reflexivity|].
  apply (admission_budget 2 2). apply reached_reachable. vm_compute. reflexivity.
Defined.

Definition drained : Adm :=
  reached 2 2 (sample_run ++ [Close 3; HandlerSettle 2; HandlerStart 1; HandlerSettle 1; Close 1]).

Lemma admission_no_leak_witness : free drained = 2 /\ waiters drained = [] /\ held drained = ∅.
Proof.
  apply (admission_no_leak 2 2).
  - apply reached_reachable. vm_compute. reflexivity.
  - assert (map_Forall (λ _ q, closed q = true /\ handler q <> Running) (reqs drained)) as H; [|exact H].
    apply map_Forall_to_list. vm_compute. repeat constructor; discriminate.
Defined.

Lemma admission_fifo_witness :
  ∃ s', step sample (HandlerSettle 2) s' /\
    grants s' ++ waiters s' = (grants sample ++ waiters sample) ++ accepted sample (HandlerSettle 2).
Proof.
  assert (step sample (HandlerSettle 2) (handle (HandlerSettle 2) sample)) as Hs
    by (constructor; apply enabledb_sound; vm_compute; reflexivity).
  eexists. split; [exact Hs|]. apply (admission_fifo 2 2 _ _ _); [|exact Hs].
  apply reached_reachable. vm_compute. reflexivity.
Defined.

Definition closing_req : Req :=
  {| identity := alice; closed := true; slot := Some false; shareReleased := false;
     ticket := Some {| inHandler := true; releaseWhenSettled := true |}; nextCalled := true;
     handler := Running |}.

Lemma admission_handler_keeps_slot_witness :
  reqs sample !! 2 = Some closing_req /\
  ∃ q', reqs (handle (HandlerSettle 2) sample) !! 2 = Some q' /\ handler q' = Settled /\
    slot q' = Some true /\ shareReleased q' = true.
Proof.
  assert (reqs sample !! 2 = Some closing_req) as Hq by (vm_compute; reflexivity).
  split; [exact Hq|].
  apply (admission_handler_keeps_slot 2 2 sample (HandlerSettle 2) _ 2 closing_req);
    [|constructor; apply enabledb_sound; vm_compute; reflexivity|exact Hq|reflexivity..].
  apply reached_reachable. vm_compute. reflexivity.
Defined.
