(* ===== verification/AccountRecord.v ===== *)
(** The account row as the authentication code stores it: the paths of models/User.ts that it
    reads and writes, and MongoDB's filters and updates on them, as the data they are in the source.

    A document gives each path its value, or nothing; no code here stores a null.  An update whose
    operators touch one path twice, or a path and its parent, is refused by the database. *)
From S2P Require Import Prelude.
Local Open Scope Z_scope.

(** ** Paths *)

Inductive Path :=
  | authHash | emailVerified | deletionPending | rotationInProgress
  | failedLoginAttempts | lockoutUntil | lockoutEpisodeId | lockoutNotifiedAt
  | secondFactorLockout                     (* the sub-document, and the four paths below it *)
  | sf_failedAttempts | sf_until | sf_episodeId | sf_notifiedAt
  | twoFactorEnabled | twoFactorSecret | pendingTwoFactorSecret | pendingTwoFactorExpiry
  | backupCodes | lastTotpTimestamp.

Definition path_index (p : Path) : nat :=
  match p with
  | authHash => 0 | emailVerified => 1 | deletionPending => 2 | rotationInProgress => 3
  | failedLoginAttempts => 4 | lockoutUntil => 5 | lockoutEpisodeId => 6 | lockoutNotifiedAt => 7
  | secondFactorLockout => 8 | sf_failedAttempts => 9 | sf_until => 10 | sf_episodeId => 11 | sf_notifiedAt => 12
  | twoFactorEnabled => 13 | twoFactorSecret => 14 | pendingTwoFactorSecret => 15 | pendingTwoFactorExpiry => 16
  | backupCodes => 17 | lastTotpTimestamp => 18
  end.

Definition path_eqb (p q : Path) : bool := (path_index p =? path_index q)%nat.

Definition parent (p : Path) : option Path :=
  match p with
  | sf_failedAttempts | sf_until | sf_episodeId | sf_notifiedAt => Some secondFactorLockout
  | _ => None
  end.

(** [q] is [p] or lies below it. *)
Definition covers (p q : Path) : bool :=
  path_eqb p q || match parent q with Some r => path_eqb p r | None => false end.

Definition overlap (p q : Path) : bool := covers p q || covers q p.

(** ** Values and documents *)

Inductive Value := VNum (n : Z) | VDate (t : Z) | VBool (b : bool) | VStr (s : jsstr) | VArr (ss : list jsstr).

#[export] Instance Value_eq_dec : EqDecision Value.
Proof. solve_decision. Defined.

Definition Doc := Path -> option Value.

Definition put (p : Path) (v : Value) (d : Doc) : Doc := λ q, if path_eqb p q then Some v else d q.
Definition remove (p : Path) (d : Doc) : Doc := λ q, if covers p q then None else d q.

Definition num_at (d : Doc) (p : Path) : option Z := match d p with Some (VNum n) => Some n | _ => None end.
Definition date_at (d : Doc) (p : Path) : option Z := match d p with Some (VDate t) => Some t | _ => None end.
Definition str_at (d : Doc) (p : Path) : option jsstr := match d p with Some (VStr s) => Some s | _ => None end.
Definition true_at (d : Doc) (p : Path) : bool := match d p with Some (VBool b) => b | _ => false end.
Definition codes_at (d : Doc) (p : Path) : list jsstr := match d p with Some (VArr ss) => ss | _ => [] end.

(** ** JavaScript objects *)

Section object.
Context {K V : Type} (eqb : K -> K -> bool).

Fixpoint obj_get (o : list (K * V)) (k : K) : option V :=
  match o with
  | [] => None
  | (k', v) :: o => if eqb k k' then Some v else obj_get o k
  end.

(** [o[k] = v]: a key keeps its place. *)
Fixpoint obj_set (o : list (K * V)) (k : K) (v : V) : list (K * V) :=
  match o with
  | [] => [(k, v)]
  | (k', v') :: o => if eqb k k' then (k', v) :: o else (k', v') :: obj_set o k v
  end.

Definition obj_delete (o : list (K * V)) (k : K) : list (K * V) := List.filter (λ e, negb (eqb k (fst e))) o.

(** [{ ...a, ...b }] *)
Definition spread (a b : list (K * V)) : list (K * V) := foldl (λ o e, obj_set o (fst e) (snd e)) a b.
End object.

(** ** Filters *)

Inductive Cond :=
  | Eq_ (v : Value) | Null | Lt_ (v : Value) | Lte (v : Value) | Ne (v : Value) | Missing.

Inductive Key := KPath (p : Path) | KOr | KAnd.

Definition key_eqb (a b : Key) : bool :=
  match a, b with
  | KPath p, KPath q => path_eqb p q
  | KOr, KOr | KAnd, KAnd => true
  | _, _ => false
  end.

(** What stands at a key: a condition, or the list of [$or] and [$and]. *)
#[warnings="-register-all"]
Inductive Clause := Condition (c : Cond) | Clauses (fs : list (list (Key * Clause))).

Definition Filter : Type := list (Key * Clause).

(** [$lt] and [$lte] compare within one type. *)
Definition less (strict : bool) (a b : Value) : bool :=
  match a, b with
  | VNum x, VNum y | VDate x, VDate y => if strict then x <? y else x <=? y
  | _, _ => false
  end.

(** Equality with a string also holds of an array that contains it. *)
Definition same_value (stored : Value) (v : Value) : bool :=
  match stored, v with
  | VArr ss, VStr s => bool_decide (s ∈ ss)
  | _, _ => bool_decide (stored = v)
  end.

Definition cond_holds (c : Cond) (stored : option Value) : bool :=
  match c, stored with
  | Eq_ v, Some x => same_value x v
  | Eq_ _, None => false
  | Null, None | Missing, None => true
  | Null, Some _ | Missing, Some _ => false
  | Lt_ v, Some x => less true x v
  | Lte v, Some x => less false x v
  | Lt_ _, None | Lte _, None => false
  | Ne v, Some x => negb (same_value x v)
  | Ne _, None => true
  end.

Fixpoint clause_holds (d : Doc) (k : Key) (c : Clause) : bool :=
  match c with
  | Condition c => match k with KPath p => cond_holds c (d p) | _ => false end
  | Clauses fs =>
      let all := λ f : list (Key * Clause), forallb (λ e, let '(k, c) := e in clause_holds d k c) f in
      match k with KOr => existsb all fs | KAnd => forallb all fs | KPath _ => false end
  end.

Definition matches (f : Filter) (d : Doc) : bool := forallb (λ '(k, c), clause_holds d k c) f.

(** ** Updates *)

Inductive Operator := Set_ | Unset | Inc | Pull.

Definition operator_eqb (a b : Operator) : bool :=
  match a, b with Set_, Set_ | Unset, Unset | Inc, Inc | Pull, Pull => true | _, _ => false end.

Definition Fragment : Type := list (Path * Value).
Definition Update : Type := list (Operator * Fragment).

Definition apply_one (op : Operator) (p : Path) (v : Value) (d : Doc) : option Doc :=
  match op with
  | Set_ => Some (put p v d)
  | Unset => Some (remove p d)
  | Inc =>
      match v, d p with
      | VNum n, None => Some (put p (VNum n) d)
      | VNum n, Some (VNum m) => Some (put p (VNum (m + n)) d)
      | _, _ => None
      end
  | Pull =>
      match v, d p with
      | VStr s, Some (VArr ss) => Some (put p (VArr (List.filter (λ x, negb (bool_decide (x = s))) ss)) d)
      | _, None => Some d
      | _, _ => None
      end
  end.

Definition changes (u : Update) : list (Operator * Path * Value) :=
  concat (map (λ '(op, paths), map (λ '(p, v), (op, p, v)) paths) u).

Fixpoint distinct_paths (ps : list Path) : bool :=
  match ps with [] => true | p :: ps => negb (existsb (overlap p) ps) && distinct_paths ps end.

Definition apply_changes (cs : list (Operator * Path * Value)) (d : Doc) : option Doc :=
  foldl (λ d '(op, p, v), d ≫= apply_one op p v) (Some d) cs.

(** [None] is the server's refusal. *)
Definition apply_update (u : Update) (d : Doc) : option Doc :=
  if distinct_paths (map (λ '(_, p, _), p) (changes u)) then apply_changes (changes u) d else None.

(** An aggregation-pipeline update with one [$set] stage, whose right-hand sides see the document
    the stage was given. *)
Inductive Expr := Literal (v : Value) | IfNull (p : Path) (v : Value).

Definition eval_expr (e : Expr) (d : Doc) : Value :=
  match e with Literal v => v | IfNull p v => default v (d p) end.

Definition apply_pipeline (sets : list (Path * Expr)) (d : Doc) : Doc :=
  foldl (λ d' '(p, e), put p (eval_expr e d) d') d sets.

#[global] Arguments put : simpl never.
#[global] Arguments remove : simpl never.
