(* ===== verification/AuthProgram.v ===== *)
(** Requests of the authentication code as programs of atomic commands, and their interleaving.

    Between two commands of a request anything else may run.  A request reads the clock where the
    code builds a date.  A random value (an identifier, a sealed secret, a hashed code) is drawn by
    the command that stores it: nothing reads it before.  What belongs to another part of the
    server (audit rows, sessions, device proofs, trusted devices, the rotation lock) is an
    [External] call, whose answer may be anything. *)
From stdpp Require Import gmap.
From S2P Require Import Prelude AccountRecord.
Local Open Scope Z_scope.

Inductive LockoutFactor := password | second_factor.

#[export] Instance LockoutFactor_eq_dec : EqDecision LockoutFactor.
Proof. solve_decision. Defined.

(** Code outside the repository: random values, hashes, the cipher and the TOTP check.
    [totp_validate] is the offset of the matching step, if one does. *)
Class Crypto := {
  random_text : nat -> jsstr;
  sha256 : jsstr -> jsstr;
  bcrypt_compare : jsstr -> jsstr -> bool;
  opens : jsstr -> bool;
  totp_validate : jsstr -> jsstr -> Z -> option Z;
}.

Class CryptoLaws `{Crypto} := {
  random_inj i j : random_text i = random_text j -> i = j;
  random_nonempty i : random_text i <> [];
  sha256_inj a b : sha256 a = sha256 b -> a = b;
}.

(** ** The stored state *)

Record Challenge := { expiresAt : Z; consumedAt : option Z }.

(** An unlock link, as the payload its token carries, and the second it was signed. *)
Record UnlockMail := { mailed_factor : LockoutFactor; mailed_state : jsstr; mailed_iat : Z }.

(** What a write can spend. *)
Inductive Credential := TotpStep (secret : jsstr) (step : Z) | BackupCode (hash : jsstr).

#[export] Instance Credential_eq_dec : EqDecision Credential.
Proof. solve_decision. Defined.

(** [drawn] counts the random values drawn.  [spent], [unlocked], [exchanged] and [extended] list what
    landed, latest first: the database keeps no such lists. *)
Record World := {
  user : option Doc;
  clock : Z;
  challenges : gmap jsstr Challenge;
  mails : list UnlockMail;
  drawn : nat;
  spent : list Credential;
  unlocked : list (LockoutFactor * jsstr);
  exchanged : list jsstr;
}.

Definition set_user (d : option Doc) (w : World) : World :=
  {| user := d; clock := clock w; challenges := challenges w; mails := mails w; drawn := drawn w;
     spent := spent w; unlocked := unlocked w; exchanged := exchanged w |}.
Definition set_clock (t : Z) (w : World) : World :=
  {| user := user w; clock := t; challenges := challenges w; mails := mails w; drawn := drawn w;
     spent := spent w; unlocked := unlocked w; exchanged := exchanged w |}.
Definition set_challenges (cs : gmap jsstr Challenge) (w : World) : World :=
  {| user := user w; clock := clock w; challenges := cs; mails := mails w; drawn := drawn w;
     spent := spent w; unlocked := unlocked w; exchanged := exchanged w |}.
Definition add_mail (m : UnlockMail) (w : World) : World :=
  {| user := user w; clock := clock w; challenges := challenges w; mails := m :: mails w; drawn := drawn w;
     spent := spent w; unlocked := unlocked w; exchanged := exchanged w |}.
Definition set_drawn (n : nat) (w : World) : World :=
  {| user := user w; clock := clock w; challenges := challenges w; mails := mails w; drawn := n;
     spent := spent w; unlocked := unlocked w; exchanged := exchanged w |}.
Definition log_exchange (jti : jsstr) (w : World) : World :=
  {| user := user w; clock := clock w; challenges := challenges w; mails := mails w; drawn := drawn w;
     spent := spent w; unlocked := unlocked w; exchanged := jti :: exchanged w |}.

(** What a matched write does beside the row, for the lists above. *)
Inductive Mark :=
  | NoMark | Spends (c : Credential) | Unlocks (f : LockoutFactor) (episode : jsstr)
  | Locks (f : LockoutFactor) | Claims (f : LockoutFactor).

Definition log_mark (m : Mark) (w : World) : World :=
  {| user := user w; clock := clock w; challenges := challenges w; mails := mails w; drawn := drawn w;
     spent := match m with Spends c => c :: spent w | _ => spent w end;
     unlocked := match m with Unlocks f e => (f, e) :: unlocked w | _ => unlocked w end;
     exchanged := exchanged w |}.

Definition BACKUP_CODES_COUNT : nat := 8.
Definition UNLOCK_TOKEN_TTL_MINUTES : Z := 60.
Definition UNLOCK_TOKEN_TTL_MS : Z := UNLOCK_TOKEN_TTL_MINUTES * 60 * 1000.

Section commands.
Context `{Crypto}.

(** The random values a write may store: an identifier or a secret, or one value per backup code. *)
Definition fresh_texts (w : World) : list jsstr := map random_text (seq (drawn w) BACKUP_CODES_COUNT).
Definition draw (w : World) : World := set_drawn (drawn w + BACKUP_CODES_COUNT) w.
Definition fresh_text (texts : list jsstr) : jsstr := default [] (head texts).

(** ** Commands *)

Inductive ExternalCall :=
  | createAuditLog | recordLockedAttempt | recordNothing | recordProofFailure | consumeDeviceProof
  | issueDeviceProof | issueUnlockProof | isVaultRotationLockHeld | consumeTrustedDevice | grantTrustedDevice
  | revokeTrustedDevices | revokeDeviceProofs | revokeSessions | createSession | suspendThirdPartyRecipients
  | restoreCriticalNotifications | notifySecurityEvent | cascadeDeleteUser.

Inductive cmd : Type -> Type :=
  | DateNow : cmd Z
  | FindUser : cmd (option Doc)
  | FindOneAndUpdate (filter : Filter) (update : list jsstr -> Update) (mark : Mark) : cmd (option Doc)
  | PipelineUpdate (filter : Filter) (sets : list jsstr -> list (Path * Expr)) : cmd bool
  | CreateChallenge (expires : Z) : cmd jsstr
  | FindChallenge (jti : jsstr) (now : Z) : cmd bool
  | ConsumeChallenge (jti : jsstr) (now : Z) : cmd bool
  | DeleteChallenges : cmd unit
  | SendUnlockEmail (f : LockoutFactor) (stateHash : jsstr) : cmd unit
  | External (e : ExternalCall) : cmd bool.

(** [openChallengeFilter]. *)
Definition is_open (now : Z) (c : Challenge) : bool :=
  match consumedAt c with Some _ => false | None => now <? expiresAt c end.

Definition open_challenge (jti : jsstr) (now : Z) (w : World) : option Challenge :=
  match challenges w !! jti with Some c => if is_open now c then Some c else None | None => None end.

(** What a command does and answers; [None] is an error the database reports.  [answer] is the
    answer of an external call. *)
Definition exec {X} (answer : bool) (c : cmd X) (w : World) : World * option X :=
  match c in cmd X return World * option X with
  | DateNow => (w, Some (clock w))
  | FindUser => (w, Some (user w))
  | FindOneAndUpdate filter update mark =>
      match user w with
      | Some d =>
          if matches filter d then
            match apply_update (update (fresh_texts w)) d with
            | Some d' => (log_mark mark (draw (set_user (Some d') w)), Some (Some d'))
            | None => (w, None)
            end
          else (w, Some None)
      | None => (w, Some None)
      end
  | PipelineUpdate filter sets =>
      match user w with
      | Some d => if matches filter d
                  then (draw (set_user (Some (apply_pipeline (sets (fresh_texts w)) d)) w), Some true)
                  else (w, Some false)
      | None => (w, Some false)
      end
  | CreateChallenge expires =>
      let jti := fresh_text (fresh_texts w) in
      (draw (set_challenges (<[jti := {| expiresAt := expires; consumedAt := None |}]> (challenges w)) w), Some jti)
  | FindChallenge jti now => (w, Some (bool_decide (is_Some (open_challenge jti now w))))
  | ConsumeChallenge jti now =>
      match open_challenge jti now w with
      | Some c => (log_exchange jti (set_challenges
                     (<[jti := {| expiresAt := expiresAt c; consumedAt := Some now |}]> (challenges w)) w), Some true)
      | None => (w, Some false)
      end
  | DeleteChallenges => (set_challenges ∅ w, Some tt)
  | SendUnlockEmail f stateHash =>
      (add_mail {| mailed_factor := f; mailed_state := stateHash; mailed_iat := clock w / 1000 |} w, Some tt)
  | External _ => (w, Some answer)
  end.
End commands.

(** ** Programs *)

Inductive HttpError :=
  | Unauthorized (message : jsstr) | Forbidden (message : jsstr) | BadRequest (message : jsstr)
  | NotFound (message : jsstr) | Conflict (message : jsstr) | InternalServerError | Interrupted.

Inductive prog (R : Type) : Type :=
  | Done (r : R)
  | Call {X : Type} (c : cmd X) (k : option X -> prog R).
#[global] Arguments Done {R} _.
#[global] Arguments Call {R X} _ _.

Fixpoint bind {R S} (p : prog R) (f : R -> prog S) : prog S :=
  match p with
  | Done r => f r
  | Call c k => Call c (λ x, bind (k x) f)
  end.

(** An [async] function: a program whose result may be a thrown error. *)
Definition async (R : Type) : Type := prog (result HttpError R).
Definition ret {R} (r : R) : async R := Done (Ok r).
Definition throw {R} (e : HttpError) : async R := Done (Throw e).
Definition await {R S} (p : async R) (f : R -> async S) : async S :=
  bind p (λ r, match r with Ok x => f x | Throw e => throw e end).

(** No code here catches an error of the database: the request ends. *)
Definition call {X} (c : cmd X) : async X :=
  Call c (λ r, match r with Some x => ret x | None => throw InternalServerError end).
Definition external (e : ExternalCall) : async unit := await (call (External e)) (λ _, ret tt).

Declare Scope async_scope.
Delimit Scope async_scope with async.
Notation "'let!' x := m 'in' k" := (await m (λ x, k))
  (at level 10, x pattern, m at level 100, k at level 200) : async_scope.
