(* ===== verification/Lockout.v ===== *)
(** The failed-authentication brake: server/src/utils/lockout.ts, with the account conditions of
    accountStatus.ts.  Each factor has a counter, a deadline, an episode and the time of the last
    unlock link mailed for it. *)
From S2P Require Import Prelude AccountRecord AuthProgram.
Local Open Scope Z_scope.
Local Open Scope async_scope.

(** ** Account status *)

Record AccountStatus := {
  is_deletionPending : bool;
  emailUnverified : bool;
  passwordLocked : bool;
  secondFactorLocked : bool;
}.

Definition isLockoutRunning (until : option Z) (now : Z) : bool :=
  match until with Some t => now <? t | None => false end.

Definition evaluateAccountStatus (user : Doc) (now : Z) : AccountStatus :=
  {| is_deletionPending := true_at user deletionPending;
     emailUnverified := negb (true_at user emailVerified);
     passwordLocked := isLockoutRunning (date_at user lockoutUntil) now;
     secondFactorLocked := isLockoutRunning (date_at user sf_until) now |}.

(** ** Paths and constants *)

Definition MAX_LOGIN_ATTEMPTS : Z := 10.
Definition LOCKOUT_DURATION_MINUTES : Z := 30.
Definition LOCKOUT_DURATION_MS : Z := LOCKOUT_DURATION_MINUTES * 60 * 1000.
Definition LOCKOUT_EXTENSION_INTERVAL_MS : Z := 60 * 1000.

Record FactorPaths := { attempts : Path; until : Path; episode : Path; notified : Path }.

Definition FACTOR_PATHS (f : LockoutFactor) : FactorPaths :=
  match f with
  | password => {| attempts := failedLoginAttempts; until := lockoutUntil; episode := lockoutEpisodeId;
                   notified := lockoutNotifiedAt |}
  | second_factor => {| attempts := sf_failedAttempts; until := sf_until; episode := sf_episodeId;
                        notified := sf_notifiedAt |}
  end.

(** [factorStateOf(user, factor).failedAttempts]. *)
Definition failedAttempts (user : Doc) (f : LockoutFactor) : Z :=
  default 0 (num_at user (attempts (FACTOR_PATHS f))).

Definition unlockEpisodeOf (user : Doc) (f : LockoutFactor) : option jsstr :=
  str_at user (episode (FACTOR_PATHS f)).

(** [user.secondFactorLockout != null]. *)
Definition has_secondFactorLockout (user : Doc) : bool :=
  existsb (λ p, bool_decide (is_Some (user p))) [sf_failedAttempts; sf_until; sf_episodeId; sf_notifiedAt].

Definition lockoutClearUpdate (f : LockoutFactor) : Update :=
  match f with
  | second_factor => [(Unset, [(secondFactorLockout, VNum 1)])]
  | password =>
      [(Set_, [(failedLoginAttempts, VNum 0)]);
       (Unset, [(lockoutUntil, VNum 1); (lockoutEpisodeId, VNum 1); (lockoutNotifiedAt, VNum 1)])]
  end.

(** The copy a handler loaded, cleared in memory. *)
Definition clearLockoutStateOnDocument (user : Doc) (f : LockoutFactor) : Doc :=
  match f with
  | second_factor => remove secondFactorLockout user
  | password =>
      remove lockoutNotifiedAt (remove lockoutEpisodeId (remove lockoutUntil (put failedLoginAttempts (VNum 0) user)))
  end.

Section lockout.
Context `{Crypto}.

(** ** Unlock links *)

Definition unlockTokenNamesEpisode (stateHash : jsstr) (episodeId : option jsstr) : bool :=
  match episodeId with
  | None | Some [] => false
  | Some e => bool_decide (stateHash = sha256 e)
  end.

(** ** Locking a factor *)

(** Its filter matches while no link mailed outlives the deadline. *)
Definition mail_filter (f : LockoutFactor) (episodeId : jsstr) (until_ : Z) : Filter :=
  let paths := FACTOR_PATHS f in
  [(KPath (episode paths), Condition (Eq_ (VStr episodeId)));
   (KOr, Clauses [[(KPath (notified paths), Condition Null)];
                  [(KPath (notified paths), Condition (Lt_ (VDate (until_ - UNLOCK_TOKEN_TTL_MS))))]])].

(** The third write of [lockFactor], and the mail. *)
Definition claimMail (f : LockoutFactor) (episodeId : jsstr) (now until_ : Z) : async unit :=
  let! claimed := call (FindOneAndUpdate (mail_filter f episodeId until_)
                          (λ _, [(Set_, [(notified (FACTOR_PATHS f), VDate now)])]) (Claims f)) in
  match claimed with
  | None => ret tt
  | Some _ =>
      let! _ := (match f with second_factor => external notifySecurityEvent | password => ret tt end) in
      call (SendUnlockEmail f (sha256 episodeId))
  end.

(** The read-back of [lockFactor]. *)
Definition readBack (f : LockoutFactor) (now until_ : Z) : async unit :=
  let! current := call FindUser in
  match current ≫= (λ d, unlockEpisodeOf d f) with
  | None | Some [] => ret tt
  | Some episodeId => claimMail f episodeId now until_
  end.

Definition lockFactor (f : LockoutFactor) (extraFilter : Filter) : async unit :=
  let paths := FACTOR_PATHS f in
  let! now := call DateNow in
  let until_ := now + LOCKOUT_DURATION_MS in
  let! locked := call (PipelineUpdate extraFilter (λ texts,
                   [(until paths, Literal (VDate until_));
                    (episode paths, IfNull (episode paths) (VStr (fresh_text texts)))])) in
  if negb locked then ret tt else readBack f now until_.

(** ** Counting *)

Definition registerFailedAuthAttempt (f : LockoutFactor) : async Z :=
  let paths := FACTOR_PATHS f in
  let! incremented := call (FindOneAndUpdate
    [(KOr, Clauses [[(KPath (attempts paths), Condition (Lt_ (VNum MAX_LOGIN_ATTEMPTS)))];
                    [(KPath (attempts paths), Condition Null)]])]
    (λ _, [(Inc, [(attempts paths, VNum 1)])]) NoMark) in
  let count := match incremented with Some d => failedAttempts d f | None => MAX_LOGIN_ATTEMPTS end in
  if count <? MAX_LOGIN_ATTEMPTS then ret count else
  let! _ := lockFactor f [] in
  ret count.

Definition extendPasswordLockout : async unit :=
  let! now := call DateNow in
  let threshold := now + LOCKOUT_DURATION_MS - LOCKOUT_EXTENSION_INTERVAL_MS in
  lockFactor password [(KPath lockoutUntil, Condition (Lt_ (VDate threshold)))].

(** ** Discharging *)

Definition dischargeServedSecondFactor (now : Z) : async unit :=
  let! _ := call (FindOneAndUpdate [(KPath sf_until, Condition (Lte (VDate now)))]
                    (λ _, lockoutClearUpdate second_factor) NoMark) in
  ret tt.

Definition dischargeUnlockedEpisode (f : LockoutFactor) (episodeId : jsstr) : async bool :=
  let! result := call (FindOneAndUpdate
    [(KPath (episode (FACTOR_PATHS f)), Condition (Eq_ (VStr episodeId)));
     (KPath deletionPending, Condition (Ne (VBool true)))]
    (λ _, lockoutClearUpdate f) (Unlocks f episodeId)) in
  ret (bool_decide (is_Some result)).

Definition notRunning (untilPath : Path) (now : Z) : Filter :=
  [(KOr, Clauses [[(KPath untilPath, Condition Missing)]; [(KPath untilPath, Condition Null)];
                  [(KPath untilPath, Condition (Lte (VDate now)))]])].

Definition dischargeFactor (f : LockoutFactor) (now : Z) : async unit :=
  let! _ := call (FindOneAndUpdate (notRunning (until (FACTOR_PATHS f)) now) (λ _, lockoutClearUpdate f) NoMark) in
  ret tt.

Definition dischargeOnCompletion (user : Doc) (status : AccountStatus) : async unit :=
  let! now := call DateNow in
  let! _ := (if negb (passwordLocked status)
                && ((0 <? failedAttempts user password) || bool_decide (is_Some (user lockoutUntil)))
             then dischargeFactor password now else ret tt) in
  if negb (secondFactorLocked status) && has_secondFactorLockout user
  then dischargeFactor second_factor now else ret tt.
End lockout.
