(* ===== verification/SecondFactor.v ===== *)
(** The one second-factor verifier, server/src/utils/secondFactor.ts, and the single-use challenge
    of twoFactorChallenge.ts.  A right code is not consumed here: the verdict carries the filter and
    the update that consume it, and each caller merges them into its own write. *)
From S2P Require Import Prelude AccountRecord AuthProgram Lockout.
Local Open Scope Z_scope.
Local Open Scope async_scope.

Inductive SecondFactorSite := site_login2fa | site_verify2fa | site_disable2fa | site_regenerateBackupCodes | site_deleteAccount.

#[export] Instance SecondFactorSite_eq_dec : EqDecision SecondFactorSite.
Proof. solve_decision. Defined.

(** What a right code is consumed by.  [credential] is what the two fragments consume. *)
Record Accepted := { casFilter : Filter; casUpdate : Update; credential : Credential }.

Inductive SecondFactorVerdict :=
  | accepted (a : Accepted)
  | locked
  | invalid (attempts : Z).

Definition TOTP_PERIOD_SECONDS : Z := 30.

(** [/^\d{6}$/] *)
Definition TOTP_CODE_PATTERN (code : jsstr) : bool := (length code =? 6)%nat && forallb is_digit code.

(** The verdict on a matching step of the secret's code. *)
Definition totpAccepted (enrolment : bool) (secret : jsstr) (step : Z) : Accepted :=
  {| casFilter :=
       (if enrolment
        then [(KPath twoFactorEnabled, Condition (Eq_ (VBool false))); (KPath pendingTwoFactorSecret, Condition (Eq_ (VStr secret)))]
        else [(KPath twoFactorEnabled, Condition (Eq_ (VBool true))); (KPath twoFactorSecret, Condition (Eq_ (VStr secret)))])
       ++ [(KOr, Clauses [[(KPath lastTotpTimestamp, Condition Missing)]; [(KPath lastTotpTimestamp, Condition Null)];
                          [(KPath lastTotpTimestamp, Condition (Lt_ (VNum step)))]])];
     casUpdate := [(Set_, [(lastTotpTimestamp, VNum step)])];
     credential := TotpStep secret step |}.

(** The verdict on a stored backup code. *)
Definition backupAccepted (matched : jsstr) : Accepted :=
  {| casFilter := [(KPath twoFactorEnabled, Condition (Eq_ (VBool true))); (KPath backupCodes, Condition (Eq_ (VStr matched)))];
     casUpdate := [(Pull, [(backupCodes, VStr matched)])];
     credential := BackupCode matched |}.

Section verifier.
Context `{Crypto}.

(** Every stored hash is compared; the last that matches is the answer. *)
Definition findMatchingBackupCodeIndex (code : jsstr) (hashedCodes : list jsstr) : option nat :=
  foldl (λ found i, match hashedCodes !! i with
                    | Some hashed => if bcrypt_compare code hashed then Some i else found
                    | None => found
                    end) None (seq 0 (length hashedCodes)).

(** Whether the code is a TOTP code of the secret whose step is unspent; [Throw] when the stored
    secret does not open. *)
Definition checkTotp (user : Doc) (enrolment : bool) (code : jsstr) (now : Z) : result HttpError (option Accepted) :=
  match str_at user (if enrolment then pendingTwoFactorSecret else twoFactorSecret) with
  | None | Some [] => Ok None
  | Some secret =>
      if negb (opens secret) then Throw InternalServerError else
      match totp_validate secret code now with
      | None => Ok None
      | Some delta =>
          let step := now / 1000 / TOTP_PERIOD_SECONDS + delta in
          let spent := match num_at user lastTotpTimestamp with Some last => step <=? last | None => false end in
          Ok (if spent then None else Some (totpAccepted enrolment secret step))
      end
  end.

Definition checkBackupCode (user : Doc) (code : jsstr) : option Accepted :=
  let storedCodes := codes_at user backupCodes in
  index ← findMatchingBackupCodeIndex code storedCodes;
  matched ← storedCodes !! index;
  Some (backupAccepted matched).

(** The refusal of a locked factor, and the discharge of one whose lockout was served. *)
Definition consultLockout (now : Z) : async bool :=
  let! state := call FindUser in
  let until_ := state ≫= (λ d, date_at d sf_until) in
  if isLockoutRunning until_ now then ret true else
  let! _ := (if bool_decide (is_Some until_) then dischargeServedSecondFactor now else ret tt) in
  ret false.

Definition verifySecondFactor (user : Doc) (code : jsstr) (site : SecondFactorSite) (acceptBackupCodes : bool)
    : async SecondFactorVerdict :=
  let enrolment := bool_decide (site = site_verify2fa) in
  let! now := call DateNow in
  let! refused := (if enrolment then ret false else consultLockout now) in
  if (refused : bool) then ret locked else
  let totpShaped := TOTP_CODE_PATTERN code in
  let! verdict := (if totpShaped then Done (checkTotp user enrolment code now)
                   else ret (if acceptBackupCodes then checkBackupCode user code else None)) in
  match verdict with
  | Some a => ret (accepted a)
  | None =>
      if enrolment then ret (invalid 0) else
      let! attempts := registerFailedAuthAttempt second_factor in
      ret (invalid attempts)
  end.
End verifier.

(** ** Merging a verdict into a caller's write *)

(** [{ ...merged, [operator]: { ...merged[operator], ...paths } }] for each operator of the fragment. *)
Definition mergeUpdate (update cas : Update) : Update :=
  foldl (λ merged e, let '(operator, paths) := e in
           obj_set operator_eqb merged operator
             (spread path_eqb (default [] (obj_get operator_eqb merged operator)) paths)) update cas.

(** A path the write unsets is not set. *)
Definition dropUnset (merged : Update) : Update :=
  match obj_get operator_eqb merged Unset, obj_get operator_eqb merged Set_ with
  | Some unset, Some set =>
      obj_set operator_eqb merged Set_
        (List.filter (λ e, negb (bool_decide (is_Some (obj_get path_eqb unset (fst e))))) set)
  | _, _ => merged
  end.

Definition mergeFilter (filter cas : Filter) : Filter :=
  match obj_get key_eqb filter KOr, obj_get key_eqb cas KOr with
  | Some callerOr, Some fragmentOr =>
      let callerAnd := match obj_get key_eqb filter KAnd with Some (Clauses fs) => fs | _ => [] end in
      let callerRest := obj_delete key_eqb (obj_delete key_eqb filter KOr) KAnd in
      let fragmentRest := obj_delete key_eqb cas KOr in
      obj_set key_eqb (spread key_eqb callerRest fragmentRest) KAnd
        (Clauses (callerAnd ++ [[(KOr, callerOr)]; [(KOr, fragmentOr)]]))
  | _, _ => spread key_eqb filter cas
  end.

Definition withSecondFactorCas (filter : Filter) (update : Update) (verdict : Accepted) : Filter * Update :=
  (mergeFilter filter (casFilter verdict), dropUnset (mergeUpdate update (casUpdate verdict))).

(** ** Challenges *)

Definition TWO_FACTOR_CHALLENGE_SECONDS : Z := 300.

Section challenge.
Context `{Crypto}.

Definition issueTwoFactorChallenge : async (jsstr * Z * Z) :=
  let! now := call DateNow in
  let iat := now / 1000 in
  let exp := iat + TWO_FACTOR_CHALLENGE_SECONDS in
  let! jti := call (CreateChallenge (exp * 1000)) in
  ret (jti, iat, exp).

Definition isChallengeOpen (jti : jsstr) : async bool :=
  let! now := call DateNow in call (FindChallenge jti now).

Definition consumeTwoFactorChallenge (jti : jsstr) : async bool :=
  let! now := call DateNow in call (ConsumeChallenge jti now).

Definition revokeTwoFactorChallenges : async unit := call DeleteChallenges.
End challenge.
