(* ===== verification/AuthRequests.v ===== *)
(** The requests that count failures, lock and discharge a factor, and spend codes: handlers of
    server/src/controllers/authController.ts and userController.ts.

    [Request] lists what a request carries.  A signed token is its payload; a device proof is known
    by whether it is single-use.  Cookies, bodies and log lines of the responses are left out, as is the
    sleep of the progressive delay. *)
From S2P Require Import Prelude AccountRecord AuthProgram Lockout SecondFactor.
Local Open Scope Z_scope.
Local Open Scope async_scope.

Inductive Response := SignedIn | TwoFactorRequired (jti : jsstr) | EmailNotVerified | Success | WithBackupCodes.

Inductive Request :=
  | Login (authHash_ : jsstr) (proof : option bool) (trustedCookie : bool)
  | Login2fa (jti : option jsstr) (code : jsstr) (remember : bool)
  | UnlockAccount (token : UnlockMail) (holdsProof : bool)
  | ResetPassword (stateHash : jsstr) (emailMatches : bool)
  | Setup2fa (password_ : jsstr)
  | Verify2fa (code : jsstr)
  | Disable2fa (password_ code : jsstr)
  | RegenerateBackupCodes (password_ : jsstr) (code : option jsstr)
  | DeleteAccount (password_ : jsstr) (code : option jsstr).

Definition INVALID_CREDENTIALS : HttpError := Unauthorized (js "Invalid email or password").
Definition TOKEN_INVALID : jsstr := js "TOKEN_INVALID".

Section requests.
Context `{Crypto}.

(** [bcrypt.compare(password, user.authHash)] *)
Definition proves (password_ : jsstr) (user : Doc) : bool :=
  match str_at user authHash with Some h => bcrypt_compare password_ h | None => false end.

(** ** Signing in *)

Definition finishLogin (user : Doc) (status : AccountStatus) : async Response :=
  let! _ := dischargeOnCompletion user status in
  let! _ := external createSession in
  let! _ := external issueDeviceProof in
  let! _ := external createAuditLog in
  ret SignedIn.

(** From a correct password on. *)
Definition loginProven (user : Doc) (status : AccountStatus) (trustedCookie : bool) : async Response :=
  let! user :=
    match date_at user lockoutUntil with
    | Some served =>
        if negb (passwordLocked status) then
          let! _ := call (FindOneAndUpdate [(KPath lockoutUntil, Condition (Lte (VDate served)))]
                            (λ _, lockoutClearUpdate password) NoMark) in
          ret (clearLockoutStateOnDocument user password)
        else ret user
    | None => ret user
    end in
  let! _ :=
    (if true_at user rotationInProgress then
       let! held := call (External isVaultRotationLockHeld) in
       if (held : bool) then ret tt else
       let! _ := call (FindOneAndUpdate [] (λ _, [(Set_, [(rotationInProgress, VBool false)])]) NoMark) in
       external createAuditLog
     else ret tt) in
  if true_at user twoFactorEnabled then
    let! trusted := (if trustedCookie then call (External consumeTrustedDevice) else ret false) in
    if (trusted : bool) then
      let! _ := external grantTrustedDevice in
      finishLogin user status
    else
      let! _ := (if trustedCookie then external createAuditLog else ret tt) in
      let! challenge := issueTwoFactorChallenge in
      let '(jti, _, _) := challenge in
      ret (TwoFactorRequired jti)
  else finishLogin user status.

Definition login (authHash_ : jsstr) (proof : option bool) (trustedCookie : bool) : async Response :=
  let! found := call FindUser in
  match found with
  | None =>
      let! _ := external recordNothing in
      throw INVALID_CREDENTIALS
  | Some user =>
      let isMatch := proves authHash_ user in
      let! now := call DateNow in
      let status := evaluateAccountStatus user now in
      if is_deletionPending status then
        let! _ := external recordNothing in
        throw INVALID_CREDENTIALS
      else
      let! proven :=
        match proof with
        | None => ret false
        | Some singleUse => if negb singleUse || negb isMatch then ret true else call (External consumeDeviceProof)
        end in
      if passwordLocked status && negb proven then
        let! _ := extendPasswordLockout in
        let! _ := external recordLockedAttempt in
        throw INVALID_CREDENTIALS
      else if isMatch && emailUnverified status then ret EmailNotVerified
      else if negb isMatch then
        match proof with
        | Some _ =>
            let! _ := external recordProofFailure in
            let! _ := external createAuditLog in
            throw INVALID_CREDENTIALS
        | None =>
            let! _ := registerFailedAuthAttempt password in
            let! _ := external createAuditLog in
            throw INVALID_CREDENTIALS
        end
      else loginProven user status trustedCookie
  end.

Definition is_backup (c : Credential) : bool := match c with BackupCode _ => true | TotpStep _ _ => false end.

(** From an accepted code on: the challenge, then the code, then the session. *)
Definition login2faAccepted (user : Doc) (status : AccountStatus) (challengeId : jsstr) (remember : bool)
    (verdict : Accepted) : async Response :=
  let! won := consumeTwoFactorChallenge challengeId in
  if negb won then throw (Unauthorized TOKEN_INVALID) else
  let usedBackupCode := is_backup (credential verdict) in
  let! consumed := call (FindOneAndUpdate (casFilter verdict) (λ _, casUpdate verdict) (Spends (credential verdict))) in
  match consumed with
  | None =>
      let! _ := external createAuditLog in
      throw (Unauthorized TOKEN_INVALID)
  | Some _ =>
      let! _ := (if usedBackupCode then external createAuditLog else ret tt) in
      let! _ := dischargeOnCompletion user status in
      let! _ := external createSession in
      let! _ := external issueDeviceProof in
      let! _ := (if remember && negb usedBackupCode then
                   let! _ := external grantTrustedDevice in
                   let! _ := external createAuditLog in
                   external notifySecurityEvent
                 else ret tt) in
      let! _ := external createAuditLog in
      ret SignedIn
  end.

Definition login2fa (jti : option jsstr) (code : jsstr) (remember : bool) : async Response :=
  match jti with
  | None => throw (Unauthorized TOKEN_INVALID)
  | Some challengeId =>
      let! open := isChallengeOpen challengeId in
      if negb open then throw (Unauthorized TOKEN_INVALID) else
      let! found := call FindUser in
      match found with
      | None => throw (Unauthorized TOKEN_INVALID)
      | Some user =>
          let! now := call DateNow in
          let status := evaluateAccountStatus user now in
          if is_deletionPending status then throw (Unauthorized TOKEN_INVALID) else
          if negb (true_at user twoFactorEnabled) || bool_decide (default [] (str_at user twoFactorSecret) = [])
          then throw (BadRequest (js "TWO_FA_NOT_ENABLED")) else
          let! verdict := verifySecondFactor user code site_login2fa true in
          match verdict with
          | locked => throw (Forbidden (js "ACCOUNT_LOCKED"))
          | invalid _ =>
              let! _ := external createAuditLog in
              throw (Unauthorized (js "TWO_FA_INVALID"))
          | accepted a => login2faAccepted user status challengeId remember a
          end
      end
  end.

(** ** Recovering *)

(** [jwt.verify] accepts what was signed until the second it expires. *)
Definition link_live (token : UnlockMail) (now : Z) : bool :=
  now / 1000 <? mailed_iat token + UNLOCK_TOKEN_TTL_MS / 1000.

Definition unlockAccount (token : UnlockMail) (holdsProof : bool) : async Response :=
  let! now := call DateNow in
  if negb (link_live token now) then throw (BadRequest TOKEN_INVALID) else
  let f := mailed_factor token in
  let! found := call FindUser in
  match found with
  | None => throw (BadRequest TOKEN_INVALID)
  | Some user =>
      if true_at user deletionPending then throw (BadRequest TOKEN_INVALID) else
      match unlockEpisodeOf user f with
      | None => throw (BadRequest TOKEN_INVALID)
      | Some episodeId =>
          if negb (unlockTokenNamesEpisode (mailed_state token) (Some episodeId)) then throw (BadRequest TOKEN_INVALID) else
          let! discharged := dischargeUnlockedEpisode f episodeId in
          if negb discharged then throw (BadRequest TOKEN_INVALID) else
          let! _ := (if holdsProof then ret tt else external issueUnlockProof) in
          let! _ := external createAuditLog in
          ret Success
      end
  end.

(** What [user.save()] writes: the assigned paths whose value is not the loaded one, and those the
    query did not load ([lockoutEpisodeId], [lockoutNotifiedAt]). *)
Definition resetUpdate (user : Doc) (texts : list jsstr) : Update :=
  [(Set_, (authHash, VStr (fresh_text texts))
            :: (if true_at user rotationInProgress then [(rotationInProgress, VBool false)] else [])
            ++ (if failedAttempts user password =? 0 then [] else [(failedLoginAttempts, VNum 0)]));
   (Unset, (if bool_decide (is_Some (user lockoutUntil)) then [(lockoutUntil, VNum 1)] else [])
            ++ [(lockoutEpisodeId, VNum 1); (lockoutNotifiedAt, VNum 1)])].

Definition resetPassword (stateHash : jsstr) (emailMatches : bool) : async Response :=
  let! found := call FindUser in
  match found with
  | None => throw (BadRequest TOKEN_INVALID)
  | Some user =>
      if true_at user deletionPending then throw (BadRequest TOKEN_INVALID) else
      if negb emailMatches then throw (BadRequest (js "EMAIL_MISMATCH")) else
      if negb (bool_decide (stateHash = sha256 (default [] (str_at user authHash)))) then throw (BadRequest TOKEN_INVALID) else
      let! _ := external revokeSessions in
      let! _ := external revokeTrustedDevices in
      let! _ := external revokeDeviceProofs in
      let! _ := revokeTwoFactorChallenges in
      let! _ := external suspendThirdPartyRecipients in
      let! saved := call (FindOneAndUpdate [] (resetUpdate user) NoMark) in
      match saved with
      | None => throw (BadRequest TOKEN_INVALID)
      | Some _ =>
          let! after := call FindUser in
          if match after with Some d => true_at d deletionPending | None => true end
          then throw (BadRequest TOKEN_INVALID) else
          let! _ := external restoreCriticalNotifications in
          let! _ := external suspendThirdPartyRecipients in
          let! _ := external createAuditLog in
          let! _ := external notifySecurityEvent in
          ret Success
      end
  end.

(** ** The second factor's own life *)

Definition throwSecondFactorRefusal {R} (verdict : SecondFactorVerdict) : async R :=
  match verdict with
  | locked => throw (Forbidden (js "ACCOUNT_LOCKED"))
  | _ => throw (BadRequest (js "Invalid verification code"))
  end.

Definition passwordRefused {R} : async R :=
  let! _ := external createAuditLog in throw (Unauthorized (js "Current password is incorrect")).

Definition PENDING_TWO_FACTOR_MS : Z := 10 * 60 * 1000.

Definition setup2fa (password_ : jsstr) : async Response :=
  let! found := call FindUser in
  match found with
  | None => throw (NotFound (js "User not found"))
  | Some user =>
      if negb (proves password_ user) then passwordRefused else
      if true_at user twoFactorEnabled then throw (Conflict (js "Two-factor authentication is already enabled")) else
      let! now := call DateNow in
      let! _ := call (FindOneAndUpdate []
        (λ texts, [(Set_, [(pendingTwoFactorSecret, VStr (fresh_text texts));
                           (pendingTwoFactorExpiry, VDate (now + PENDING_TWO_FACTOR_MS))])]) NoMark) in
      ret Success
  end.

(** The write that enables the factor: the loaded pending secret and the new codes. *)
Definition enableUpdate (secret : jsstr) (codes : list jsstr) : Update :=
  [(Set_, [(twoFactorSecret, VStr secret); (backupCodes, VArr codes); (twoFactorEnabled, VBool true)]);
   (Unset, [(pendingTwoFactorSecret, VNum 1); (pendingTwoFactorExpiry, VNum 1); (secondFactorLockout, VNum 1)])].

Definition verify2fa (code : jsstr) : async Response :=
  let! found := call FindUser in
  match found with
  | None => throw (NotFound (js "User not found"))
  | Some user =>
      if true_at user twoFactorEnabled then throw (Conflict (js "Two-factor authentication is already enabled")) else
      match str_at user pendingTwoFactorSecret, date_at user pendingTwoFactorExpiry with
      | Some ((c :: r) as encryptedSecret), Some expiry =>
          let! now := call DateNow in
          if expiry <? now then
            let! _ := call (FindOneAndUpdate []
              (λ _, [(Unset, [(pendingTwoFactorSecret, VNum 1); (pendingTwoFactorExpiry, VNum 1)])]) NoMark) in
            throw (BadRequest (js "2FA setup has expired. Please start the setup process again."))
          else
          let! verdict := verifySecondFactor user code site_verify2fa false in
          match verdict with
          | accepted a =>
              let! updated := call (FindOneAndUpdate
                (fst (withSecondFactorCas [(KPath twoFactorEnabled, Condition (Eq_ (VBool false)))] [] a))
                (λ texts, snd (withSecondFactorCas [] (enableUpdate encryptedSecret texts) a))
                (Spends (credential a))) in
              match updated with
              | None => throw (Conflict (js "Two-factor authentication is already enabled"))
              | Some _ =>
                  let! _ := external revokeTrustedDevices in
                  let! _ := external createAuditLog in
                  let! _ := external notifySecurityEvent in
                  ret WithBackupCodes
              end
          | _ => throw (BadRequest (js "Invalid verification code"))
          end
      | _, _ => throw (BadRequest (js "No pending 2FA setup found. Please start the setup process first."))
      end
  end.

Definition disableUpdate : Update :=
  [(Set_, [(twoFactorEnabled, VBool false)]);
   (Unset, [(twoFactorSecret, VNum 1); (backupCodes, VNum 1); (lastTotpTimestamp, VNum 1); (secondFactorLockout, VNum 1)])].

Definition disable2fa (password_ code : jsstr) : async Response :=
  let! found := call FindUser in
  match found with
  | None => throw (NotFound (js "User not found"))
  | Some user =>
      if negb (proves password_ user) then passwordRefused else
      if negb (true_at user twoFactorEnabled) || bool_decide (default [] (str_at user twoFactorSecret) = [])
      then throw (BadRequest (js "Two-factor authentication is not enabled")) else
      let! verdict := verifySecondFactor user code site_disable2fa false in
      match verdict with
      | accepted a =>
          let! disabled := call (FindOneAndUpdate (fst (withSecondFactorCas [] disableUpdate a))
            (λ _, snd (withSecondFactorCas [] disableUpdate a)) (Spends (credential a))) in
          match disabled with
          | None => throw (BadRequest (js "Invalid verification code"))
          | Some _ =>
              let! _ := external revokeSessions in
              let! _ := external revokeTrustedDevices in
              let! _ := external createAuditLog in
              let! _ := external notifySecurityEvent in
              ret Success
          end
      | refusal => throwSecondFactorRefusal refusal
      end
  end.

Definition regenerated : async Response :=
  let! _ := external revokeTrustedDevices in
  let! _ := external createAuditLog in
  let! _ := external notifySecurityEvent in
  ret WithBackupCodes.

Definition regenerateUpdate (codes : list jsstr) : Update := [(Set_, [(backupCodes, VArr codes)])].

Definition regenerateBackupCodes (password_ : jsstr) (code : option jsstr) : async Response :=
  let! found := call FindUser in
  match found with
  | None => throw (NotFound (js "User not found"))
  | Some user =>
      if negb (true_at user twoFactorEnabled) then throw (BadRequest (js "Two-factor authentication is not enabled")) else
      if negb (proves password_ user) then passwordRefused else
      if bool_decide (default [] (str_at user twoFactorSecret) = []) then
        let! updated := call (FindOneAndUpdate [(KPath twoFactorEnabled, Condition (Eq_ (VBool true)))]
                                regenerateUpdate NoMark) in
        match updated with
        | None => throw (BadRequest (js "Two-factor authentication is not enabled"))
        | Some _ => regenerated
        end
      else
        match code with
        | None | Some [] => throw (BadRequest (js "Two-factor authentication code is required"))
        | Some code =>
            let! verdict := verifySecondFactor user code site_regenerateBackupCodes false in
            match verdict with
            | accepted a =>
                let! updated := call (FindOneAndUpdate
                  (fst (withSecondFactorCas [(KPath twoFactorEnabled, Condition (Eq_ (VBool true)))] [] a))
                  (λ texts, snd (withSecondFactorCas [] (regenerateUpdate texts) a)) (Spends (credential a))) in
                match updated with
                | None => throw (BadRequest (js "Invalid verification code"))
                | Some _ => regenerated
                end
            | refusal => throwSecondFactorRefusal refusal
            end
        end
  end.

Definition notYetPending : Filter := [(KPath deletionPending, Condition (Ne (VBool true)))].
Definition pendingUpdate : Update := [(Set_, [(deletionPending, VBool true)])].

(** The mark of [deleteAccount]; the cascade that follows is another part's. *)
Definition markForDeletion (verdict : option Accepted) : async Response :=
  let! marked := match verdict with
    | None => call (FindOneAndUpdate notYetPending (λ _, pendingUpdate) NoMark)
    | Some a => let '(filter, update) := withSecondFactorCas notYetPending pendingUpdate a in
                call (FindOneAndUpdate filter (λ _, update) (Spends (credential a)))
    end in
  match marked with
  | None =>
      let! after := call FindUser in
      if match after with Some d => matches notYetPending d | None => false end
      then throw (BadRequest (js "Invalid verification code"))
      else throw (Conflict (js "Account deletion is already in progress."))
  | Some _ =>
      let! _ := external notifySecurityEvent in
      let! deleted := call (External cascadeDeleteUser) in
      if (deleted : bool) then ret Success else throw InternalServerError
  end.

Definition deleteAccount (password_ : jsstr) (code : option jsstr) : async Response :=
  let! found := call FindUser in
  match found with
  | None => throw (NotFound (js "User not found"))
  | Some user =>
      if negb (proves password_ user) then passwordRefused else
      if negb (true_at user twoFactorEnabled) || bool_decide (default [] (str_at user twoFactorSecret) = [])
      then markForDeletion None else
      match code with
      | None | Some [] => throw (BadRequest (js "Two-factor authentication code is required"))
      | Some code =>
          let! verdict := verifySecondFactor user code site_deleteAccount false in
          match verdict with
          | accepted a => markForDeletion (Some a)
          | refusal => throwSecondFactorRefusal refusal
          end
      end
  end.

Definition handle (r : Request) : async Response :=
  match r with
  | Login authHash_ proof trustedCookie => login authHash_ proof trustedCookie
  | Login2fa jti code remember => login2fa jti code remember
  | UnlockAccount token holdsProof => unlockAccount token holdsProof
  | ResetPassword stateHash emailMatches => resetPassword stateHash emailMatches
  | Setup2fa password_ => setup2fa password_
  | Verify2fa code => verify2fa code
  | Disable2fa password_ code => disable2fa password_ code
  | RegenerateBackupCodes password_ code => regenerateBackupCodes password_ code
  | DeleteAccount password_ code => deleteAccount password_ code
  end.
End requests.
