(* ===== verification/AuthSystem.v ===== *)
(** Any number of authentication requests against one account, interleaved with time, crashes, the
    expiry of challenges and the erasure of the account; and the calculus in which a request is
    checked once for every company it may have.

    [issued] is the table of the writes the program makes: each request is shown to make no other,
    and the invariants are shown to survive each of them. *)
From stdpp Require Import gmap.
From S2P Require Import Prelude AccountRecord AuthProgram Lockout SecondFactor AuthRequests.
Local Open Scope Z_scope.

(** ** The system *)

Section system.
Context `{Crypto}.

Record System := { world : World; requests : list (async Response) }.

(** An unlock link is one that was mailed: nobody else can sign its token.  [resets] and [faults] say
    whether passwords are reset and whether requests crash. *)
Definition admissible (resets : bool) (r : Request) (w : World) : Prop :=
  match r with
  | UnlockAccount token _ => token ∈ mails w
  | ResetPassword _ _ => resets = true
  | _ => True
  end.

Definition forget (jti : jsstr) (w : World) : World := set_challenges (delete jti (challenges w)) w.

Inductive step (resets faults : bool) : System -> System -> Prop :=
  | step_time s t : clock (world s) <= t ->
      step resets faults s {| world := set_clock t (world s); requests := requests s |}
  | step_start s r : admissible resets r (world s) ->
      step resets faults s {| world := world s; requests := requests s ++ [handle r] |}
  | step_run s i X (c : cmd X) k answer w x :
      requests s !! i = Some (Call c k) -> exec answer c (world s) = (w, x) ->
      step resets faults s {| world := w; requests := <[i := k x]> (requests s) |}
  | step_crash s i : faults = true ->
      step resets faults s {| world := world s; requests := <[i := Done (Throw Interrupted)]> (requests s) |}
  | step_erase s d : user (world s) = Some d -> true_at d deletionPending = true ->
      step resets faults s {| world := set_user None (world s); requests := requests s |}
  | step_expire s jti c : challenges (world s) !! jti = Some c -> expiresAt c <= clock (world s) ->
      step resets faults s {| world := forget jti (world s); requests := requests s |}.

(** A registered account. *)
Definition registered (hash : jsstr) (verified : bool) : Doc :=
  λ p, match p with
       | authHash => Some (VStr hash)
       | emailVerified => Some (VBool verified)
       | rotationInProgress | twoFactorEnabled => Some (VBool false)
       | failedLoginAttempts => Some (VNum 0)
       | _ => None
       end.

Definition initial (hash : jsstr) (verified : bool) (t : Z) : System :=
  {| world := {| user := Some (registered hash verified); clock := t; challenges := ∅; mails := []; drawn := 0;
                 spent := []; unlocked := []; exchanged := [] |};
     requests := [] |}.

Definition reachable (resets faults : bool) (s : System) : Prop :=
  ∃ hash verified t, rtc (step resets faults) (initial hash verified t) s.

(** ** What may happen around a request *)

Record later (w w' : World) : Prop := {
  later_clock : clock w <= clock w';
  later_drawn : (drawn w <= drawn w')%nat;
  later_mails : ∀ m, m ∈ mails w -> m ∈ mails w';
}.

#[export] Instance later_preorder : PreOrder later.
Proof.
  split; [by intros w; constructor|]. intros a b c [H1 H2 H3] [H4 H5 H6]. constructor; auto; lia.
Qed.

Lemma exec_later {X} answer (c : cmd X) w w' x : exec answer c w = (w', x) -> later w w'.
Proof.
  destruct c; cbn [exec]; intros E; repeat case_match; injection E as <- <-; constructor; cbn; try lia; auto.
  intros m Hm. apply elem_of_cons. by right.
Qed.

(** ** The writes of the program *)

Definition lock_sets (f : LockoutFactor) (until_ : Z) (texts : list jsstr) : list (Path * Expr) :=
  [(until (FACTOR_PATHS f), Literal (VDate until_));
   (episode (FACTOR_PATHS f), IfNull (episode (FACTOR_PATHS f)) (VStr (fresh_text texts)))].

Definition claim_update (f : LockoutFactor) (now : Z) (texts : list jsstr) : Update :=
  [(Set_, [(notified (FACTOR_PATHS f), VDate now)])].

Definition count_filter (f : LockoutFactor) : Filter :=
  [(KOr, Clauses [[(KPath (attempts (FACTOR_PATHS f)), Condition (Lt_ (VNum MAX_LOGIN_ATTEMPTS)))];
                  [(KPath (attempts (FACTOR_PATHS f)), Condition Null)]])].
Definition count_update (f : LockoutFactor) (texts : list jsstr) : Update :=
  [(Inc, [(attempts (FACTOR_PATHS f), VNum 1)])].

Definition unlock_filter (f : LockoutFactor) (e : jsstr) : Filter :=
  [(KPath (episode (FACTOR_PATHS f)), Condition (Eq_ (VStr e))); (KPath deletionPending, Condition (Ne (VBool true)))].

Definition enabled_filter : Filter := [(KPath twoFactorEnabled, Condition (Eq_ (VBool true)))].
Definition not_enabled_filter : Filter := [(KPath twoFactorEnabled, Condition (Eq_ (VBool false)))].

(** A verdict of an enrolled factor. *)
Inductive enrolled_verdict : Accepted -> Prop :=
  | enrolled_totp secret step : enrolled_verdict (totpAccepted false secret step)
  | enrolled_backup hash : enrolled_verdict (backupAccepted hash).

Inductive issued_write (resets : bool) (w : World) : Filter -> (list jsstr -> Update) -> Mark -> Prop :=
  | w_count f : issued_write resets w (count_filter f) (count_update f) NoMark
  | w_claim f e now : now <= clock w ->
      issued_write resets w (mail_filter f e (now + LOCKOUT_DURATION_MS)) (claim_update f now) (Claims f)
  | w_clear f filter : issued_write resets w filter (λ _, lockoutClearUpdate f) NoMark
  | w_unlock f e token : token ∈ mails w -> mailed_factor token = f -> mailed_state token = sha256 e ->
      issued_write resets w (unlock_filter f e) (λ _, lockoutClearUpdate f) (Unlocks f e)
  | w_rotation : issued_write resets w [] (λ _, [(Set_, [(rotationInProgress, VBool false)])]) NoMark
  | w_setup expiry : issued_write resets w []
      (λ texts, [(Set_, [(pendingTwoFactorSecret, VStr (fresh_text texts)); (pendingTwoFactorExpiry, VDate expiry)])]) NoMark
  | w_drop_pending : issued_write resets w []
      (λ _, [(Unset, [(pendingTwoFactorSecret, VNum 1); (pendingTwoFactorExpiry, VNum 1)])]) NoMark
  | w_sign_in a : enrolled_verdict a ->
      issued_write resets w (casFilter a) (λ _, casUpdate a) (Spends (credential a))
  | w_enable secret step : let a := totpAccepted true secret step in
      issued_write resets w (fst (withSecondFactorCas not_enabled_filter [] a))
        (λ texts, snd (withSecondFactorCas [] (enableUpdate secret texts) a)) (Spends (credential a))
  | w_disable secret step : let a := totpAccepted false secret step in
      issued_write resets w (fst (withSecondFactorCas [] disableUpdate a))
        (λ _, snd (withSecondFactorCas [] disableUpdate a)) (Spends (credential a))
  | w_regenerate secret step : let a := totpAccepted false secret step in
      issued_write resets w (fst (withSecondFactorCas enabled_filter [] a))
        (λ texts, snd (withSecondFactorCas [] (regenerateUpdate texts) a)) (Spends (credential a))
  | w_regenerate_plain : issued_write resets w enabled_filter regenerateUpdate NoMark
  | w_mark secret step : let a := totpAccepted false secret step in
      issued_write resets w (fst (withSecondFactorCas notYetPending pendingUpdate a))
        (λ _, snd (withSecondFactorCas notYetPending pendingUpdate a)) (Spends (credential a))
  | w_mark_plain : issued_write resets w notYetPending (λ _, pendingUpdate) NoMark
  | w_reset d : resets = true -> issued_write resets w [] (resetUpdate d) NoMark.

(** *** What follows a lock and a claim *)

Definition sends_mail {R} (f : LockoutFactor) (e : jsstr) (p : prog R) : Prop :=
  (∃ k, p = Call (SendUnlockEmail f (sha256 e)) k) \/
  (∃ n k, p = Call (External n) k /\ ∀ b, ∃ k', k (Some b) = Call (SendUnlockEmail f (sha256 e)) k').

Definition claims_mail {R} (f : LockoutFactor) (e : jsstr) (until_ : Z) (p : prog R) : Prop :=
  ∃ now k, until_ = now + LOCKOUT_DURATION_MS /\
    p = Call (FindOneAndUpdate (mail_filter f e until_) (claim_update f now) (Claims f)) k /\
    ∀ d, sends_mail f e (k (Some (Some d))).

Definition reads_back {R} (f : LockoutFactor) (until_ : Z) (p : prog R) : Prop :=
  ∃ k, p = Call FindUser k /\
    ∀ d e, unlockEpisodeOf d f = Some e -> e <> [] -> claims_mail f e until_ (k (Some (Some d))).

(** ** Checking a request *)

Definition issued (resets : bool) (w : World) {X R} (c : cmd X) : (option X -> prog R) -> Prop :=
  match c in cmd X return (option X -> prog R) -> Prop with
  | FindOneAndUpdate filter update mark => λ k, issued_write resets w filter update mark /\
      ∀ f, mark = Claims f -> ∃ e until_, filter = mail_filter f e until_ /\ ∀ d, sends_mail f e (k (Some (Some d)))
  | PipelineUpdate filter sets => λ k, ∃ f now, now <= clock w /\ sets = lock_sets f (now + LOCKOUT_DURATION_MS) /\
      reads_back f (now + LOCKOUT_DURATION_MS) (k (Some true))
  | SendUnlockEmail f stateHash => λ _, ∃ e, stateHash = sha256 e
  | _ => λ _, True
  end.

Fixpoint ok (resets : bool) {R} (Q : World -> R -> Prop) (w : World) (p : prog R) : Prop :=
  match p with
  | Done r => Q w r
  | Call c k => ∀ w1, later w w1 -> issued resets w1 c k /\
      ∀ answer w2 x, exec answer c w1 = (w2, x) -> ok resets Q w2 (k x)
  end.
End system.
