(* ===== verification/AuthSafety.v ===== *)
(** Every authentication request makes only the writes of the table, in any company. *)
From stdpp Require Import gmap.
From S2P Require Import Prelude AccountRecord AuthProgram Lockout SecondFactor AuthRequests AuthSystem.
Local Open Scope Z_scope.
Local Open Scope async_scope.

Section safety.
Context `{Crypto} (resets : bool).

(** ** Rules *)

Lemma sends_mail_bind {R S} f e (p : prog R) (g : R -> prog S) : sends_mail f e p -> sends_mail f e (bind p g).
Proof.
  intros [[k ->]|(n & k & -> & Hk)]; [left; by eexists|right]. eexists _, _. split; [reflexivity|].
  intros b. destruct (Hk b) as [k' E]. cbn. rewrite E. by eexists.
Qed.

Lemma claims_mail_bind {R S} f e u (p : prog R) (g : R -> prog S) : claims_mail f e u p -> claims_mail f e u (bind p g).
Proof.
  intros (now & k & -> & -> & Hk). eexists now, _. do 2 (split; [reflexivity|]). intros d. by apply sends_mail_bind.
Qed.

Lemma reads_back_bind {R S} f u (p : prog R) (g : R -> prog S) : reads_back f u p -> reads_back f u (bind p g).
Proof.
  intros (k & -> & Hk). eexists. split; [reflexivity|]. intros d e He Hn. by apply claims_mail_bind, Hk.
Qed.

Lemma issued_bind {X R S} w (c : cmd X) (k : option X -> prog R) (g : R -> prog S) :
  issued resets w c k -> issued resets w c (λ x, bind (k x) g).
Proof.
  destruct c; cbn [issued]; auto.
  - intros [Hw Hk]. split; [done|]. intros f E. destruct (Hk f E) as (e & u & Ef & Hs). exists e, u. split; [done|].
    intros d. by apply sends_mail_bind.
  - intros (f & now & Hn & Hs & Hk). exists f, now. split_and!; [done|done|]. by apply reads_back_bind.
Qed.

Lemma ok_bind {R S} (P : World -> R -> Prop) (Q : World -> S -> Prop) w p f :
  ok resets P w p -> (∀ w' r, later w w' -> P w' r -> ok resets Q w' (f r)) -> ok resets Q w (bind p f).
Proof.
  revert w. induction p as [r|X c k IH]; intros w Hp Hf; cbn [ok bind] in *; [by apply Hf|].
  intros w1 Hl. destruct (Hp w1 Hl) as [Hi Hk]. split; [by apply issued_bind|].
  intros answer w2 x E. eapply IH; [by eapply Hk|]. intros w' r Hl' HP. apply Hf; [|done].
  etransitivity; [exact Hl|]. etransitivity; [by eapply exec_later|done].
Qed.

(** The result, when the request does not throw. *)
Definition okr {R} (P : R -> Prop) : World -> async R -> Prop :=
  ok resets (λ _ r, match r with Ok x => P x | Throw _ => True end).

Lemma okr_ret {R} (P : R -> Prop) w x : P x -> okr P w (ret x).
Proof. done. Qed.

Lemma okr_throw {R} (P : R -> Prop) w e : okr P w (throw e).
Proof. done. Qed.

Lemma okr_await {R S} (P : R -> Prop) (Q : S -> Prop) w m f :
  okr P w m -> (∀ w' x, later w w' -> P x -> okr Q w' (f x)) -> okr Q w (await m f).
Proof. intros Hm Hf. eapply ok_bind; [exact Hm|]. intros w' [x|e] Hl HP; [by apply Hf|done]. Qed.

Lemma okr_call {X} (P : X -> Prop) w (c : cmd X) :
  (∀ w1, later w w1 -> ∀ k : option X -> async X, (∀ x, k (Some x) = ret x) -> issued resets w1 c k) ->
  (∀ answer w1 w2 x, exec answer c w1 = (w2, Some x) -> P x) -> okr P w (call c).
Proof.
  intros Hi HP. unfold okr, call. cbn [ok]. intros w1 Hl. split; [by apply Hi|].
  intros answer w2 [x|] E; [|done]. cbn. by eapply HP.
Qed.

Lemma okr_now {S} (Q : S -> Prop) w f :
  (∀ w' t, later w w' -> t <= clock w' -> okr Q w' (f t)) -> okr Q w (await (call DateNow) f).
Proof.
  intros Hf. unfold okr, await, call. cbn [bind ok]. intros w1 Hl. split; [done|].
  intros answer w2 x E. cbn in E. injection E as <- <-. cbn. by apply Hf.
Qed.

(** A command with nothing to show. *)
Definition plain {X} (c : cmd X) : bool :=
  match c with FindOneAndUpdate _ _ _ | PipelineUpdate _ _ | SendUnlockEmail _ _ => false | _ => true end.

Lemma okr_plain {X} w (c : cmd X) : plain c = true -> okr (λ _, True) w (call c).
Proof. intros Hc. apply okr_call; [|done]. by destruct c. Qed.

Lemma okr_external w e : okr (λ _, True) w (external e).
Proof. eapply okr_await; [by apply okr_plain|]. done. Qed.

(** A write of the table that is no claim. *)
Lemma okr_write w filter update mark :
  (∀ w1, later w w1 -> issued_write resets w1 filter update mark) -> (∀ f, mark <> Claims f) ->
  okr (λ _, True) w (call (FindOneAndUpdate filter update mark)).
Proof.
  intros Hw Hn. apply okr_call; [|done]. intros w1 Hl k _. split; [by apply Hw|]. intros f E. by destruct (Hn f).
Qed.

(** ** The brake *)

Lemma sends_claim f e (d : Doc) :
  sends_mail f e (await (ret (Some d)) (λ claimed,
    match claimed with
    | None => ret tt
    | Some _ =>
        let! _ := (match f with second_factor => external notifySecurityEvent | password => ret tt end) in
        call (SendUnlockEmail f (sha256 e))
    end)).
Proof.
  destruct f; [left; by eexists|right]. eexists _, _. split; [reflexivity|].
  intros b. by eexists.
Qed.

Lemma claimMail_claims f e now : claims_mail f e (now + LOCKOUT_DURATION_MS) (claimMail f e now (now + LOCKOUT_DURATION_MS)).
Proof. eexists now, _. do 2 (split; [reflexivity|]). intros d. exact (sends_claim f e d). Qed.

Lemma readBack_reads f now : reads_back f (now + LOCKOUT_DURATION_MS) (readBack f now (now + LOCKOUT_DURATION_MS)).
Proof.
  eexists. split; [reflexivity|]. intros d e He Hn. cbn. rewrite He. destruct e; [done|]. apply claimMail_claims.
Qed.

Lemma okr_claimMail w f e now : now <= clock w -> okr (λ _, True) w (claimMail f e now (now + LOCKOUT_DURATION_MS)).
Proof.
  intros Hn. unfold okr, claimMail, await, call. cbn [bind ok]. intros w1 Hl. split.
  - split; [apply w_claim; destruct Hl; lia|]. intros f' [= <-].
    eexists e, _. split; [reflexivity|]. intros d. exact (sends_claim f e d).
  - intros answer w2 [[d|]|] _; try done. cbn [bind].
    apply (okr_await (λ _, True)); [destruct f; [done|apply okr_external]|]. intros w' _ _ _.
    apply okr_call; [|done]. intros w3 _ k _. by eexists.
Qed.

Lemma okr_readBack w f now : now <= clock w -> okr (λ _, True) w (readBack f now (now + LOCKOUT_DURATION_MS)).
Proof.
  intros Hn. eapply okr_await; [by apply okr_plain|]. intros w' x Hl _.
  destruct (x ≫= _) as [[|c e]|]; try done. apply okr_claimMail. destruct Hl. lia.
Qed.

Lemma okr_lockFactor w f extra : okr (λ _, True) w (lockFactor f extra).
Proof.
  apply okr_now. intros w' now Hl Hn. unfold okr, await, call. cbn [bind ok]. intros w1 Hl1. split.
  - exists f, now. split_and!; [destruct Hl1; lia|reflexivity|]. apply readBack_reads.
  - intros answer w2 [[|]|] E; cbn; try done. apply okr_readBack.
    apply exec_later in E. destruct Hl1, E. lia.
Qed.

Lemma okr_registerFailed w f : okr (λ _, True) w (registerFailedAuthAttempt f).
Proof.
  eapply okr_await.
  - apply okr_write; [intros; apply w_count|done].
  - intros w' x _ _. cbn zeta. destruct (_ <? _); [done|]. eapply okr_await; [apply okr_lockFactor|done].
Qed.

Lemma okr_extend w : okr (λ _, True) w extendPasswordLockout.
Proof. apply okr_now. intros. apply okr_lockFactor. Qed.

Lemma okr_clear w f filter :
  okr (λ _, True) w (let! _ := call (FindOneAndUpdate filter (λ _, lockoutClearUpdate f) NoMark) in ret tt).
Proof. eapply okr_await; [by apply okr_write; [intros; apply w_clear|]|done]. Qed.

Lemma okr_dischargeFactor w f now : okr (λ _, True) w (dischargeFactor f now).
Proof. apply okr_clear. Qed.

Lemma okr_dischargeOnCompletion w user status : okr (λ _, True) w (dischargeOnCompletion user status).
Proof.
  apply okr_now. intros w' now _ _. eapply okr_await; [case_match; [apply okr_dischargeFactor|apply okr_ret; done]|].
  intros w2 _ _ _. destruct (_ && _); [apply okr_dischargeFactor|done].
Qed.

(** ** The requests *)

(** Takes one step of a request: a branch, a clock, a command with nothing to show, a known part. *)
Ltac okr_step :=
  lazymatch goal with
  | |- okr _ _ (throw _) => apply okr_throw
  | |- okr _ _ (ret _) => by apply okr_ret
  | |- okr _ _ (await (call DateNow) _) => apply okr_now; intros ? ? ? ?
  | |- okr _ _ (await _ _) => eapply (okr_await (λ _, True)); [|intros ? ? ? _]
  | |- okr _ _ (external _) => apply okr_external
  | |- okr _ _ (dischargeOnCompletion _ _) => apply okr_dischargeOnCompletion
  | |- okr _ _ (registerFailedAuthAttempt _) => apply okr_registerFailed
  | |- okr _ _ extendPasswordLockout => apply okr_extend
  | |- okr _ _ (call (FindOneAndUpdate _ (λ _, lockoutClearUpdate _) NoMark)) =>
      apply okr_write; [intros; apply w_clear|done]
  | |- okr _ _ (call _) => by apply okr_plain
  | |- okr _ _ (if ?b then _ else _) => destruct b
  | |- okr _ _ (match ?x with _ => _ end) => destruct x
  end.
Ltac okr_steps := repeat okr_step.

Lemma okr_finishLogin w user status : okr (λ _, True) w (finishLogin user status).
Proof. unfold finishLogin. okr_steps. Qed.

Lemma okr_issueChallenge w : okr (λ _, True) w issueTwoFactorChallenge.
Proof. unfold issueTwoFactorChallenge. okr_steps. Qed.

Lemma okr_loginProven w user status trusted : okr (λ _, True) w (loginProven user status trusted).
Proof.
  unfold loginProven. eapply (okr_await (λ _, True)); [okr_steps|]. intros w1 u _ _.
  eapply (okr_await (λ _, True)).
  { do 3 okr_step; okr_steps. apply okr_write; [intros; apply w_rotation|done]. }
  intros w2 [] _ _. okr_steps; (apply okr_finishLogin || apply okr_issueChallenge).
Qed.

Lemma okr_login w h proof trusted : okr (λ _, True) w (login h proof trusted).
Proof. unfold login. okr_steps. all: apply okr_loginProven. Qed.

(** What the verifier answers at each kind of site. *)
Definition site_verdict (user : Doc) (enrolment : bool) (a : Accepted) : Prop :=
  (∃ secret step, a = totpAccepted enrolment secret step /\
     str_at user (if enrolment then pendingTwoFactorSecret else twoFactorSecret) = Some secret)
  \/ ∃ hash, a = backupAccepted hash.

Lemma checkTotp_verdict user enrolment code now :
  match checkTotp user enrolment code now with Ok (Some a) =>
    ∃ secret step, a = totpAccepted enrolment secret step /\
      str_at user (if enrolment then pendingTwoFactorSecret else twoFactorSecret) = Some secret
  | _ => True end.
Proof.
  unfold checkTotp. destruct (str_at user _) as [[|c s]|] eqn:E; try done. destruct (negb _); [done|].
  destruct (totp_validate _ _ _) as [delta|]; [|done]. cbv zeta.
  destruct (num_at user lastTotpTimestamp) as [last|]; [destruct (_ <=? last)|]; eauto.
Qed.

Lemma checkBackupCode_verdict user code a : checkBackupCode user code = Some a -> ∃ hash, a = backupAccepted hash.
Proof.
  unfold checkBackupCode. destruct (findMatchingBackupCodeIndex _ _) as [i|]; [|done]. cbn.
  destruct (_ !! i) as [h|]; [|done]. intros [= <-]. by eexists.
Qed.

Lemma okr_verify w user code site backup (enrolment := bool_decide (site = site_verify2fa)) :
  okr (λ v, match v with
            | accepted a => site_verdict user enrolment a /\ (backup = false -> is_backup (credential a) = false)
            | _ => True end) w (verifySecondFactor user code site backup).
Proof.
  unfold verifySecondFactor. fold enrolment. apply okr_now. intros w1 now _ _.
  eapply (okr_await (λ _, True)).
  { destruct enrolment; [done|]. unfold consultLockout, dischargeServedSecondFactor. okr_steps. }
  intros w2 refused _ _. destruct refused; [done|].
  eapply (okr_await (λ v, match v with Some a => site_verdict user enrolment a /\ (backup = false -> is_backup (credential a) = false) | None => True end)).
  - destruct (TOTP_CODE_PATTERN code).
    + pose proof (checkTotp_verdict user enrolment code now) as Hc. destruct (checkTotp _ _ _ _) as [[a|]|e]; try done.
      destruct Hc as (secret & step & -> & Hs). split; [left; eauto|done].
    + destruct backup; [|done]. destruct (checkBackupCode user code) as [a|] eqn:E; [|done].
      apply checkBackupCode_verdict in E as [hash ->]. split; [right; by eexists|done].
  - intros w3 [a|] _ Ha; [done|]. destruct enrolment; [done|].
    eapply (okr_await (λ _, True)); [apply okr_registerFailed|done].
Qed.

Lemma okr_login2faAccepted w user status jti remember a : enrolled_verdict a ->
  okr (λ _, True) w (login2faAccepted user status jti remember a).
Proof.
  intros Ha. unfold login2faAccepted.
  eapply (okr_await (λ _, True)); [unfold consumeTwoFactorChallenge; okr_steps|]. intros w1 [] _ _; [|done]. cbv zeta.
  change (negb true) with false. cbv iota.
  eapply (okr_await (λ _, True)); [|intros; okr_steps].
  by apply okr_write; [intros; by apply w_sign_in|].
Qed.

Lemma site_enrolled user a : site_verdict user false a -> enrolled_verdict a.
Proof. intros [(s & k & -> & _)|[h ->]]; constructor. Qed.

Lemma site_totp user enrolment a : site_verdict user enrolment a /\ (false = false -> is_backup (credential a) = false) ->
  ∃ secret step, a = totpAccepted enrolment secret step /\
    str_at user (if enrolment then pendingTwoFactorSecret else twoFactorSecret) = Some secret.
Proof. intros [[H1|[h ->]] Hb]; [done|]. by specialize (Hb eq_refl). Qed.

Lemma okr_login2fa w jti code remember : okr (λ _, True) w (login2fa jti code remember).
Proof.
  unfold login2fa. destruct jti as [jti|]; [|done]. eapply (okr_await (λ _, True)); [unfold isChallengeOpen; okr_steps|].
  intros w1 open _ _. okr_step; [done|]. okr_step; [okr_steps|]. destruct x as [user|]; [|done].
  apply okr_now. intros w3 now _ _. cbv zeta. do 2 (okr_step; [done|]).
  eapply okr_await; [apply okr_verify|]. intros w4 [a| |n] _ Ha; [|done|okr_steps].
  apply okr_login2faAccepted. by eapply site_enrolled, Ha.
Qed.

Lemma okr_unlock w token holds : token ∈ mails w -> okr (λ _, True) w (unlockAccount token holds).
Proof.
  intros Ht. unfold unlockAccount. apply okr_now. intros w1 now Hl1 _. okr_step; [done|]. cbv zeta.
  eapply (okr_await (λ _, True)); [okr_steps|]. intros w2 [user|] Hl2 _; [|done]. okr_step; [done|].
  destruct (unlockEpisodeOf _ _) as [e|]; [|done].
  destruct (unlockTokenNamesEpisode _ _) eqn:En; [|done]. cbn [negb].
  eapply (okr_await (λ _, True)); [|intros; okr_steps].
  eapply (okr_await (λ _, True)); [|done]. apply okr_write.
  - intros w3 Hl3. apply (w_unlock _ _ _ _ token); [|done|].
    + apply Hl3, Hl2, Hl1, Ht.
    + unfold unlockTokenNamesEpisode in En. destruct e; [done|]. by apply bool_decide_eq_true in En.
  - done.
Qed.

Lemma okr_reset w h m : resets = true -> okr (λ _, True) w (resetPassword h m).
Proof.
  intros Hr. unfold resetPassword. okr_step; [okr_steps|]. destruct x as [user|]; [|done]. do 3 (okr_step; [done|]).
  do 3 (okr_step; [okr_steps|]). okr_step; [unfold revokeTwoFactorChallenges; okr_steps|]. okr_step; [okr_steps|].
  eapply (okr_await (λ _, True)); [|intros; okr_steps]. apply okr_write; [intros; by apply w_reset|done].
Qed.

Lemma okr_setup2fa w p : okr (λ _, True) w (setup2fa p).
Proof.
  unfold setup2fa, passwordRefused. okr_steps. apply okr_write; [intros; apply w_setup|done].
Qed.

Lemma okr_verify2fa w code : okr (λ _, True) w (verify2fa code).
Proof.
  unfold verify2fa. okr_step; [okr_steps|]. destruct x as [user|]; [|done]. okr_step; [done|].
  destruct (str_at user pendingTwoFactorSecret) as [[|c s]|] eqn:Es; try done.
  destruct (date_at user pendingTwoFactorExpiry) as [expiry|]; [|done]. apply okr_now. intros w2 now _ _. okr_step.
  { eapply (okr_await (λ _, True)); [|done]. apply okr_write; [intros; apply w_drop_pending|done]. }
  eapply okr_await; [apply okr_verify|]. intros w3 [a| |n] _ Ha; try done.
  apply site_totp in Ha as (secret & step & -> & Hs). change (str_at user pendingTwoFactorSecret = Some secret) in Hs. rewrite Es in Hs. injection Hs as <-.
  eapply (okr_await (λ _, True)); [|intros; okr_steps]. apply okr_write; [intros; apply w_enable|done].
Qed.

Lemma okr_refusal {R} (P : R -> Prop) w v : okr P w (throwSecondFactorRefusal v).
Proof. by destruct v. Qed.

Lemma okr_disable2fa w p code : okr (λ _, True) w (disable2fa p code).
Proof.
  unfold disable2fa, passwordRefused. okr_step; [okr_steps|]. destruct x as [user|]; [|done].
  okr_step; [okr_steps|]. okr_step; [done|].
  eapply okr_await; [apply okr_verify|]. intros w3 [a| |n] _ Ha; try apply okr_refusal.
  apply site_totp in Ha as (secret & step & -> & _).
  eapply (okr_await (λ _, True)); [|intros; okr_steps]. apply okr_write; [intros; apply w_disable|done].
Qed.

Lemma okr_regenerated w : okr (λ _, True) w regenerated.
Proof. unfold regenerated. okr_steps. Qed.

Lemma okr_regenerate w p code : okr (λ _, True) w (regenerateBackupCodes p code).
Proof.
  unfold regenerateBackupCodes, passwordRefused. okr_step; [okr_steps|]. destruct x as [user|]; [|done].
  okr_step; [done|]. okr_step; [okr_steps|]. okr_step.
  - eapply (okr_await (λ _, True)); [|intros ? []; intros; [apply okr_regenerated|done]].
    apply okr_write; [intros; apply w_regenerate_plain|done].
  - destruct code as [[|c code]|]; try done.
    eapply okr_await; [apply okr_verify|]. intros w3 [a| |n] _ Ha; try apply okr_refusal.
    apply site_totp in Ha as (secret & step & -> & _).
    eapply (okr_await (λ _, True)); [|intros ? []; intros; [apply okr_regenerated|done]].
    apply okr_write; [intros; apply w_regenerate|done].
Qed.

Lemma okr_mark w (v : option Accepted) :
  (v = None \/ ∃ secret step, v = Some (totpAccepted false secret step)) -> okr (λ _, True) w (markForDeletion v).
Proof.
  intros Hv. unfold markForDeletion. eapply (okr_await (λ _, True)); [|intros; okr_steps].
  destruct Hv as [->|(s & k & ->)]; apply okr_write; try done; intros; [apply w_mark_plain|apply w_mark].
Qed.

Lemma okr_deleteAccount w p code : okr (λ _, True) w (deleteAccount p code).
Proof.
  unfold deleteAccount, passwordRefused. okr_step; [okr_steps|]. destruct x as [user|]; [|done].
  okr_step; [okr_steps|]. okr_step; [apply okr_mark; by left|].
  destruct code as [[|c code]|]; try done.
  eapply okr_await; [apply okr_verify|]. intros w3 [a| |n] _ Ha; try apply okr_refusal.
  apply site_totp in Ha as (secret & step & -> & _). apply okr_mark. right. eauto.
Qed.

(** Every request, from where it may start. *)
Lemma okr_handle w r : admissible resets r w -> okr (λ _, True) w (handle r).
Proof.
  destruct r; cbn [admissible handle]; intros Ha.
  - apply okr_login.
  - apply okr_login2fa.
  - by apply okr_unlock.
  - by apply okr_reset.
  - apply okr_setup2fa.
  - apply okr_verify2fa.
  - apply okr_disable2fa.
  - apply okr_regenerate.
  - apply okr_deleteAccount.
Qed.
End safety.
