(* ===== verification/AuthRows.v ===== *)
(** What each write of the table does to a well-typed account row: the filters as facts, the updates
    as explicit rows.  No matched write is ever refused by the database. *)
From stdpp Require Import gmap.
From S2P Require Import Prelude AccountRecord AuthProgram Lockout SecondFactor AuthRequests AuthSystem.
Local Open Scope Z_scope.

(** ** Types of the row *)

(** The type models/User.ts declares at a path; the sub-document is known by its own paths. *)
Definition typed (p : Path) (v : Value) : Prop :=
  match p, v with
  | (authHash | lockoutEpisodeId | sf_episodeId | twoFactorSecret | pendingTwoFactorSecret), VStr _
  | (emailVerified | deletionPending | rotationInProgress | twoFactorEnabled), VBool _
  | (failedLoginAttempts | sf_failedAttempts | lastTotpTimestamp), VNum _
  | (lockoutUntil | lockoutNotifiedAt | sf_until | sf_notifiedAt | pendingTwoFactorExpiry), VDate _
  | backupCodes, VArr _ => True
  | _, _ => False
  end.

Definition Row_typed (d : Doc) : Prop := ∀ p v, d p = Some v -> typed p v.

Lemma typed_put p v d : typed p v -> Row_typed d -> Row_typed (put p v d).
Proof.
  intros Hv Hd q u. unfold put, path_eqb. destruct (Nat.eqb_spec (path_index p) (path_index q)) as [E|]; [|apply Hd].
  intros [= <-]. assert (p = q) as <- by (by destruct p, q). done.
Qed.

Lemma typed_remove p d : Row_typed d -> Row_typed (remove p d).
Proof. intros Hd q u. unfold remove. destruct (covers p q); [done|apply Hd]. Qed.

(** ** Conditions as facts *)

Lemma holds_eq v x : cond_holds (Eq_ v) x = true -> (∀ ss, x <> Some (VArr ss)) -> x = Some v.
Proof.
  destruct x as [x|]; [|done]. cbn. intros E Hx. f_equal.
  destruct x; try (by apply bool_decide_eq_true in E). by destruct (Hx ss).
Qed.

Lemma holds_lt_num n x : cond_holds (Lt_ (VNum n)) x = true -> ∃ m, x = Some (VNum m) /\ m < n.
Proof. destruct x as [[]|]; try done. cbn. intros E. eexists. split; [done|lia]. Qed.

Lemma holds_lt_date n x : cond_holds (Lt_ (VDate n)) x = true -> ∃ m, x = Some (VDate m) /\ m < n.
Proof. destruct x as [[]|]; try done. cbn. intros E. eexists. split; [done|lia]. Qed.

Lemma holds_null x : cond_holds Null x = true -> x = None.
Proof. by destruct x. Qed.

Lemma holds_missing x : cond_holds Missing x = true -> x = None.
Proof. by destruct x. Qed.

(** A step later than the last one accepted. *)
Definition unspent (k : Z) (d : Doc) : Prop :=
  match d lastTotpTimestamp with Some (VNum last) => last < k | None => True | _ => False end.

(** ** Steps of the row *)

Section rows.
Context `{Crypto}.

Definition remaining (h : jsstr) (d : Doc) : Value :=
  VArr (List.filter (λ x, negb (bool_decide (x = h))) (codes_at d backupCodes)).

Definition reset_row (d0 : Doc) (text : jsstr) (d : Doc) : Doc :=
  let d := put authHash (VStr text) d in
  let d := if true_at d0 rotationInProgress then put rotationInProgress (VBool false) d else d in
  let d := if failedAttempts d0 password =? 0 then d else put failedLoginAttempts (VNum 0) d in
  let d := if bool_decide (is_Some (d0 lockoutUntil)) then remove lockoutUntil d else d in
  remove lockoutNotifiedAt (remove lockoutEpisodeId d).

Inductive row_step (resets : bool) (w : World) : Mark -> Doc -> Doc -> Prop :=
  | r_count f n d : (d (attempts (FACTOR_PATHS f)) = None /\ n = 0 \/ d (attempts (FACTOR_PATHS f)) = Some (VNum n)) ->
      n < MAX_LOGIN_ATTEMPTS -> row_step resets w NoMark d (put (attempts (FACTOR_PATHS f)) (VNum (n + 1)) d)
  | r_lock f now d : now <= clock w ->
      row_step resets w (Locks f) d
        (put (episode (FACTOR_PATHS f)) (default (VStr (fresh_text (fresh_texts w))) (d (episode (FACTOR_PATHS f))))
          (put (until (FACTOR_PATHS f)) (VDate (now + LOCKOUT_DURATION_MS)) d))
  | r_claim f e now d : now <= clock w -> d (episode (FACTOR_PATHS f)) = Some (VStr e) ->
      (d (notified (FACTOR_PATHS f)) = None \/
       ∃ t, d (notified (FACTOR_PATHS f)) = Some (VDate t) /\ t < now + LOCKOUT_DURATION_MS - UNLOCK_TOKEN_TTL_MS) ->
      row_step resets w (Claims f) d (put (notified (FACTOR_PATHS f)) (VDate now) d)
  | r_clear f d : row_step resets w NoMark d (clearLockoutStateOnDocument d f)
  | r_unlock f e token d : token ∈ mails w -> mailed_factor token = f -> mailed_state token = sha256 e ->
      d (episode (FACTOR_PATHS f)) = Some (VStr e) -> d deletionPending <> Some (VBool true) ->
      row_step resets w (Unlocks f e) d (clearLockoutStateOnDocument d f)
  | r_rotation d : row_step resets w NoMark d (put rotationInProgress (VBool false) d)
  | r_setup expiry d : row_step resets w NoMark d
      (put pendingTwoFactorExpiry (VDate expiry) (put pendingTwoFactorSecret (VStr (fresh_text (fresh_texts w))) d))
  | r_drop_pending d : row_step resets w NoMark d (remove pendingTwoFactorExpiry (remove pendingTwoFactorSecret d))
  | r_totp s k d : d twoFactorSecret = Some (VStr s) -> unspent k d ->
      row_step resets w (Spends (TotpStep s k)) d (put lastTotpTimestamp (VNum k) d)
  | r_backup h d : h ∈ codes_at d backupCodes ->
      row_step resets w (Spends (BackupCode h)) d (put backupCodes (remaining h d) d)
  | r_enable s k d : d twoFactorEnabled = Some (VBool false) -> d pendingTwoFactorSecret = Some (VStr s) -> unspent k d ->
      row_step resets w (Spends (TotpStep s k)) d
        (remove secondFactorLockout (remove pendingTwoFactorExpiry (remove pendingTwoFactorSecret
          (put lastTotpTimestamp (VNum k) (put twoFactorEnabled (VBool true)
            (put backupCodes (VArr (fresh_texts w)) (put twoFactorSecret (VStr s) d)))))))
  | r_disable s k d : d twoFactorSecret = Some (VStr s) -> unspent k d ->
      row_step resets w (Spends (TotpStep s k)) d
        (remove secondFactorLockout (remove lastTotpTimestamp (remove backupCodes (remove twoFactorSecret
          (put twoFactorEnabled (VBool false) d)))))
  | r_regenerate s k d : d twoFactorSecret = Some (VStr s) -> unspent k d ->
      row_step resets w (Spends (TotpStep s k)) d (put lastTotpTimestamp (VNum k) (put backupCodes (VArr (fresh_texts w)) d))
  | r_regenerate_plain d : row_step resets w NoMark d (put backupCodes (VArr (fresh_texts w)) d)
  | r_mark s k d : d twoFactorSecret = Some (VStr s) -> unspent k d ->
      row_step resets w (Spends (TotpStep s k)) d (put lastTotpTimestamp (VNum k) (put deletionPending (VBool true) d))
  | r_mark_plain d : row_step resets w NoMark d (put deletionPending (VBool true) d)
  | r_reset d0 d : resets = true -> row_step resets w NoMark d (reset_row d0 (fresh_text (fresh_texts w)) d).

(** *** The filters *)

Lemma step_filter k d : Row_typed d ->
  cond_holds Missing (d lastTotpTimestamp) || (cond_holds Null (d lastTotpTimestamp) ||
    (cond_holds (Lt_ (VNum k)) (d lastTotpTimestamp) || false)) = true -> unspent k d.
Proof.
  intros _. rewrite orb_false_r. unfold unspent. destruct (d lastTotpTimestamp) as [[]|]; try done. cbn. lia.
Qed.

Lemma string_eq d p s : Row_typed d -> (∀ ss, ~ typed p (VArr ss)) -> cond_holds (Eq_ (VStr s)) (d p) = true -> d p = Some (VStr s).
Proof. intros Hd Hp E. apply holds_eq; [done|]. intros ss E'. by apply (Hp ss), Hd. Qed.

Lemma bool_eq d p b : Row_typed d -> (∀ ss, ~ typed p (VArr ss)) -> cond_holds (Eq_ (VBool b)) (d p) = true -> d p = Some (VBool b).
Proof. intros Hd Hp E. apply holds_eq; [done|]. intros ss E'. by apply (Hp ss), Hd. Qed.

(** Matching a condition on a step and a secret. *)
Ltac facts :=
  repeat match goal with
  | E : _ && _ = true |- _ => apply andb_true_iff in E as [? E]
  | E : _ || _ = true |- _ => apply step_filter in E; [|assumption]
  | E : cond_holds (Eq_ (VStr _)) (?d ?p) = true |- _ => apply string_eq in E; [|assumption|intros ? []]
  | E : cond_holds (Eq_ (VBool _)) (?d ?p) = true |- _ => apply bool_eq in E; [|assumption|intros ? []]
  end.

(** The row of a write, by the step that names it. *)
Ltac row_is t := eexists; split; cycle 1; [t | reflexivity].

#[local] Arguments cond_holds : simpl never.

Lemma count_row resets w f d : Row_typed d -> matches (count_filter f) d = true ->
  ∃ d', apply_update (count_update f (fresh_texts w)) d = Some d' /\ row_step resets w NoMark d d'.
Proof.
  intros Hd Hm. destruct f; cbn in Hm; rewrite !andb_true_r, orb_false_r in Hm; apply orb_true_iff in Hm as [Hm|Hm].
  1,3: apply holds_lt_num in Hm as (n & En & Hn); eexists; split;
    [|first [eapply (r_count _ _ password n); [right; exact En|done] | eapply (r_count _ _ second_factor n); [right; exact En|done]]]; cbn; by rewrite En.
  all: apply holds_null in Hm; eexists; split; [|first [eapply (r_count _ _ password 0); [left; done|done] | eapply (r_count _ _ second_factor 0); [left; done|done]]]; cbn; by rewrite Hm.
Qed.

Lemma claim_row resets w f e now d : Row_typed d -> now <= clock w -> matches (mail_filter f e (now + LOCKOUT_DURATION_MS)) d = true ->
  ∃ d', apply_update (claim_update f now (fresh_texts w)) d = Some d' /\ row_step resets w (Claims f) d d'.
Proof.
  intros Hd Hn Hm. destruct f; cbn in Hm; apply andb_true_iff in Hm as [He Hm];
    rewrite !andb_true_r, orb_false_r in Hm; apply string_eq in He; try done; try (intros ? []);
    apply orb_true_iff in Hm.
  1: row_is ltac:(eapply (r_claim _ _ password); [done|exact He|]).
  2: row_is ltac:(eapply (r_claim _ _ second_factor); [done|exact He|]).
  all: destruct Hm as [Hm|Hm]; [left; by apply holds_null|right; by apply holds_lt_date].
Qed.

Lemma unlock_row resets w f e token d : Row_typed d -> token ∈ mails w -> mailed_factor token = f -> mailed_state token = sha256 e ->
  matches (unlock_filter f e) d = true ->
  ∃ d', apply_update (lockoutClearUpdate f) d = Some d' /\ row_step resets w (Unlocks f e) d d'.
Proof.
  intros Hd Ht Hf Hs Hm. destruct f; cbn in Hm; apply andb_true_iff in Hm as [He Hm]; rewrite andb_true_r in Hm;
    apply string_eq in He; try done; try (intros ? []).
  1: row_is ltac:(eapply (r_unlock _ _ password e token); try done).
  2: row_is ltac:(eapply (r_unlock _ _ second_factor e token); try done).
  all: by intros E; rewrite E in Hm.
Qed.

Lemma sign_in_row resets w a d : Row_typed d -> enrolled_verdict a -> matches (casFilter a) d = true ->
  ∃ d', apply_update (casUpdate a) d = Some d' /\ row_step resets w (Spends (credential a)) d d'.
Proof.
  intros Hd Ha Hm. destruct Ha as [s k|h]; cbn in Hm; rewrite ?andb_true_r in Hm.
  - facts. row_is ltac:(by eapply r_totp).
  - apply andb_true_iff in Hm as [_ Hm]. unfold cond_holds in Hm.
    destruct (d backupCodes) as [v|] eqn:E; [|done]. pose proof (Hd _ _ E) as Ht. destruct v as [| | | |ss]; try done.
    cbn in Hm. apply bool_decide_eq_true in Hm. eexists. split; [|eapply (r_backup _ _ h)].
    + cbn. rewrite E. unfold remaining, codes_at. by rewrite E.
    + unfold codes_at. by rewrite E.
Qed.

Lemma enable_row resets w s k d (a := totpAccepted true s k) : Row_typed d ->
  matches (fst (withSecondFactorCas not_enabled_filter [] a)) d = true ->
  ∃ d', apply_update (snd (withSecondFactorCas [] (enableUpdate s (fresh_texts w)) a)) d = Some d' /\
    row_step resets w (Spends (credential a)) d d'.
Proof. intros Hd Hm. cbn in Hm. rewrite ?andb_true_r in Hm. facts. row_is ltac:(by eapply r_enable). Qed.

Lemma disable_row resets w s k d (a := totpAccepted false s k) : Row_typed d ->
  matches (fst (withSecondFactorCas [] disableUpdate a)) d = true ->
  ∃ d', apply_update (snd (withSecondFactorCas [] disableUpdate a)) d = Some d' /\ row_step resets w (Spends (credential a)) d d'.
Proof. intros Hd Hm. cbn in Hm. rewrite ?andb_true_r in Hm. facts. row_is ltac:(by eapply r_disable). Qed.

Lemma regenerate_row resets w s k d (a := totpAccepted false s k) : Row_typed d ->
  matches (fst (withSecondFactorCas enabled_filter [] a)) d = true ->
  ∃ d', apply_update (snd (withSecondFactorCas [] (regenerateUpdate (fresh_texts w)) a)) d = Some d' /\
    row_step resets w (Spends (credential a)) d d'.
Proof. intros Hd Hm. cbn in Hm. rewrite ?andb_true_r in Hm. facts. row_is ltac:(by eapply r_regenerate). Qed.

Lemma mark_row resets w s k d (a := totpAccepted false s k) : Row_typed d ->
  matches (fst (withSecondFactorCas notYetPending pendingUpdate a)) d = true ->
  ∃ d', apply_update (snd (withSecondFactorCas notYetPending pendingUpdate a)) d = Some d' /\
    row_step resets w (Spends (credential a)) d d'.
Proof. intros Hd Hm. cbn in Hm. rewrite ?andb_true_r in Hm. facts. row_is ltac:(by eapply r_mark). Qed.

Lemma reset_row_eq d0 texts d : apply_update (resetUpdate d0 texts) d = Some (reset_row d0 (fresh_text texts) d).
Proof.
  unfold resetUpdate, reset_row.
  destruct (true_at d0 rotationInProgress), (failedAttempts d0 password =? 0), (bool_decide (is_Some (d0 lockoutUntil)));
    reflexivity.
Qed.

(** Every write of the table, on a row its filter matches. *)
Lemma write_row_step resets w filter update mark d :
  issued_write resets w filter update mark -> Row_typed d -> matches filter d = true ->
  ∃ d', apply_update (update (fresh_texts w)) d = Some d' /\ row_step resets w mark d d'.
Proof.
  intros Hw Hd Hm. destruct Hw.
  - by apply count_row.
  - by eapply claim_row.
  - destruct f; row_is ltac:(apply (r_clear _ _ password)) || row_is ltac:(apply (r_clear _ _ second_factor)).
  - by eapply unlock_row.
  - row_is ltac:(apply r_rotation).
  - row_is ltac:(apply r_setup).
  - row_is ltac:(apply r_drop_pending).
  - by apply sign_in_row.
  - by apply enable_row.
  - by apply disable_row.
  - by apply regenerate_row.
  - row_is ltac:(apply r_regenerate_plain).
  - by apply mark_row.
  - row_is ltac:(apply r_mark_plain).
  - eexists. split; [apply reset_row_eq|]. by apply r_reset.
Qed.

Lemma lock_row resets w f now d : now <= clock w ->
  row_step resets w (Locks f) d (apply_pipeline (lock_sets f (now + LOCKOUT_DURATION_MS) (fresh_texts w)) d).
Proof. intros Hn. destruct f; [by apply (r_lock _ _ password)|by apply (r_lock _ _ second_factor)]. Qed.
End rows.
