(* ===== verification/AuthSample.v ===== *)
(** One request run alone, and a concrete [Crypto] on which the theorems are evaluated: numbers as
    texts, a hash that keeps its input, codes that must repeat the secret's digits. *)
From stdpp Require Import gmap.
From S2P Require Import Prelude AccountRecord AuthProgram Lockout SecondFactor AuthRequests AuthSystem.
Local Open Scope Z_scope.

Section alone.
Context `{Crypto}.

(** The request with the database to itself; every external call answers [answer]. *)
Fixpoint run {R} (answer : bool) (p : prog R) (w : World) : World * R :=
  match p with
  | Done r => (w, r)
  | Call c k => let '(w', x) := exec answer c w in run answer (k x) w'
  end.

Lemma alone_bind {R S} answer (p : prog R) (f : R -> prog S) w :
  run answer (bind p f) w = let '(w', r) := run answer p w in run answer (f r) w'.
Proof.
  revert w. induction p as [r|X c k IH]; intros w; cbn; [done|]. destruct (exec answer c w). by rewrite IH.
Qed.

Lemma alone_await {R S} answer (m : async R) (f : R -> async S) w :
  run answer (await m f) w =
    let '(w', r) := run answer m w in match r with Ok x => run answer (f x) w' | Throw e => (w', Throw e) end.
Proof. unfold await. rewrite alone_bind. destruct (run answer m w) as [w' [x|e]]; done. Qed.

(** Running a request alone is one way the system can go. *)
Lemma run_steps resets faults answer (p : async Response) w rs :
  rtc (step resets faults) {| world := w; requests := rs ++ [p] |}
    {| world := fst (run answer p w); requests := rs ++ [Done (snd (run answer p w))] |}.
Proof.
  revert w. induction p as [r|X c k IH]; intros w; cbn [run]; [done|].
  destruct (exec answer c w) as [w' x] eqn:E. eapply rtc_l; [|apply IH].
  pose proof (step_run resets faults {| world := w; requests := rs ++ [Call c k] |} (length rs) X c k answer w' x) as Hs.
  cbn [requests world] in Hs. rewrite list_lookup_middle in Hs by done. specialize (Hs eq_refl E).
  by rewrite insert_app_r_alt, Nat.sub_diag in Hs by done.
Qed.

Lemma reachable_run resets faults answer s r :
  reachable resets faults s -> admissible resets r (world s) ->
  reachable resets faults {| world := fst (run answer (handle r) (world s));
                             requests := requests s ++ [Done (snd (run answer (handle r) (world s)))] |}.
Proof.
  intros (hash & verified & t & Hs) Ha. exists hash, verified, t. etransitivity; [exact Hs|].
  eapply rtc_l; [by apply step_start|]. apply run_steps.
Qed.

Lemma reachable_time resets faults s t : reachable resets faults s -> clock (world s) <= t ->
  reachable resets faults {| world := set_clock t (world s); requests := requests s |}.
Proof.
  intros (hash & verified & t0 & Hs) Ht. exists hash, verified, t0. eapply rtc_r; [exact Hs|]. by apply step_time.
Qed.

Lemma reachable_initial resets faults hash verified t : reachable resets faults (initial hash verified t).
Proof. by exists hash, verified, t. Qed.
(** The request run alone at [t]. *)
Definition after (t : Z) (r : Request) (s : System) : System :=
  let w := set_clock t (world s) in
  {| world := fst (run true (handle r) w); requests := requests s ++ [Done (snd (run true (handle r) w))] |}.

Lemma reachable_after resets faults t r s : reachable resets faults s -> clock (world s) <= t ->
  admissible resets r (set_clock t (world s)) -> reachable resets faults (after t r s).
Proof.
  intros Hs Ht Ha. apply (reachable_run resets faults true {| world := set_clock t (world s); requests := requests s |}); [|done].
  by apply reachable_time.
Qed.

(** ** Requests a command at a time *)

(** The request enters, and nothing of it runs. *)
Definition enter (r : Request) (s : System) : System := {| world := world s; requests := requests s ++ [handle r] |}.

(** One command of the [i]-th request. *)
Definition advance (i : nat) (s : System) : System :=
  match requests s !! i with
  | Some (Call c k) => let '(w, x) := exec true c (world s) in {| world := w; requests := <[i := k x]> (requests s) |}
  | _ => s
  end.

Lemma reachable_enter resets faults r s : reachable resets faults s -> admissible resets r (world s) ->
  reachable resets faults (enter r s).
Proof.
  intros (hash & verified & t & Hs) Ha. exists hash, verified, t. eapply rtc_r; [exact Hs|]. by apply step_start.
Qed.

Lemma reachable_command resets faults i s : reachable resets faults s -> reachable resets faults (advance i s).
Proof.
  intros Hs. unfold advance. destruct (requests s !! i) as [[r|X c k]|] eqn:Ei; [done| |done].
  destruct (exec true c (world s)) as [w x] eqn:E. destruct Hs as (hash & verified & t & Hs). exists hash, verified, t.
  eapply rtc_r; [exact Hs|]. by eapply step_run.
Qed.

Lemma reachable_advance resets faults n i s : reachable resets faults s -> reachable resets faults (Nat.iter n (advance i) s).
Proof. intros Hs. induction n; [done|]. by apply reachable_command. Qed.
End alone.

Definition sample_text (i : nat) : jsstr := [Z.of_nat i].

#[export] Instance sample_crypto : Crypto :=
  {| random_text := sample_text; sha256 := id; bcrypt_compare a b := bool_decide (a = b); opens _ := true;
     totp_validate secret code _ := if bool_decide (code = js "123456") then Some 0 else None |}.

#[export] Instance sample_crypto_laws : CryptoLaws.
Proof. constructor; [|done|done]. intros i j. cbn. unfold sample_text. intros [= E]. lia. Qed.
