(* ===== verification/AuthInduction.v ===== *)
(** Reachable states of the authentication system: requests stay checked, rows stay well typed, and
    an invariant need only survive the steps of the row, of the challenges and of the mail. *)
From stdpp Require Import gmap.
From S2P Require Import Prelude AccountRecord AuthProgram Lockout SecondFactor AuthRequests AuthSystem AuthSafety AuthRows AuthSample.
Local Open Scope Z_scope.

Section induction.
Context `{Crypto} (resets faults : bool).

Definition checked (w : World) (p : async Response) : Prop := okr resets (λ _, True) w p.

Lemma checked_later w w' p : later w w' -> checked w p -> checked w' p.
Proof.
  intros Hl. destruct p as [r|X c k]; [done|]. unfold checked, okr. cbn [ok]. intros Hp w1 Hl1. apply Hp. by etransitivity.
Qed.

Lemma checked_call w {X} (c : cmd X) k : checked w (Call c k) ->
  issued resets w c k /\ ∀ answer w' x, exec answer c w = (w', x) -> checked w' (k x).
Proof. intros Hp. apply Hp. reflexivity. Qed.

Definition user_typed (w : World) : Prop := ∀ d, user w = Some d -> Row_typed d.

Lemma row_step_typed w m d d' : row_step resets w m d d' -> Row_typed d -> Row_typed d'.
Proof.
  intros Hs Hd. destruct Hs; repeat (apply typed_put || apply typed_remove); try done; try (destruct f; done).
  - destruct (d (episode (FACTOR_PATHS f))) as [v|] eqn:E; [|by destruct f]. by apply Hd in E.
  - destruct f; unfold clearLockoutStateOnDocument; repeat (apply typed_put || apply typed_remove); done.
  - destruct f; unfold clearLockoutStateOnDocument; repeat (apply typed_put || apply typed_remove); done.
  - unfold reset_row. repeat case_match; repeat (apply typed_put || apply typed_remove); done.
Qed.

(** A row write that matched. *)
Definition written (m : Mark) (d : Doc) (w : World) : World := log_mark m (draw (set_user (Some d) w)).

(** What running a checked command can do to the state. *)
Inductive moved (w : World) : World -> Prop :=
  | m_same : moved w w
  | m_row m d d' : user w = Some d -> row_step resets w m d d' -> moved w (written m d' w)
  | m_create expires : moved w
      (draw (set_challenges (<[fresh_text (fresh_texts w) := {| expiresAt := expires; consumedAt := None |}]> (challenges w)) w))
  | m_exchange jti now c : open_challenge jti now w = Some c -> moved w
      (log_exchange jti (set_challenges (<[jti := {| expiresAt := expiresAt c; consumedAt := Some now |}]> (challenges w)) w))
  | m_revoke : moved w (set_challenges ∅ w)
  | m_mail f e : moved w (add_mail {| mailed_factor := f; mailed_state := sha256 e; mailed_iat := clock w / 1000 |} w).

Lemma exec_moved {X R} answer (c : cmd X) (k : option X -> prog R) w w' x :
  user_typed w -> issued resets w c k -> exec answer c w = (w', x) -> moved w w' /\ x <> None.
Proof.
  intros Ht Hi E. destruct c; cbn [exec issued] in *.
  - injection E as <- <-. by split; [constructor|].
  - injection E as <- <-. by split; [constructor|].
  - destruct Hi as [Hw _]. destruct (user w) as [d|] eqn:Eu; [|injection E as <- <-; by split; [constructor|]].
    destruct (matches filter d) eqn:Em; [|injection E as <- <-; by split; [constructor|]].
    destruct (write_row_step _ _ _ _ _ d Hw (Ht d Eu) Em) as (d' & Ea & Hs). rewrite Ea in E. injection E as <- <-.
    split; [by eapply m_row|done].
  - destruct Hi as (f & now & Hn & -> & _). destruct (user w) as [d|] eqn:Eu; [|injection E as <- <-; by split; [constructor|]].
    destruct (matches filter d); [|injection E as <- <-; by split; [constructor|]]. injection E as <- <-.
    split; [|done]. eapply (m_row _ (Locks f)); [done|]. by apply lock_row.
  - injection E as <- <-. by split; [constructor|].
  - injection E as <- <-. by split; [constructor|].
  - destruct (open_challenge jti now w) as [c|] eqn:Eo; injection E as <- <-; (split; [|done]); [by eapply m_exchange|constructor].
  - injection E as <- <-. by split; [constructor|].
  - destruct Hi as [e ->]. injection E as <- <-. by split; [constructor|].
  - injection E as <- <-. by split; [constructor|].
Qed.

Lemma moved_typed w w' : moved w w' -> user_typed w -> user_typed w'.
Proof.
  intros Hm Ht. destruct Hm; try done. intros d1 E. injection E as <-. eapply row_step_typed; [done|]. by apply Ht.
Qed.

(** ** The induction *)

(** An invariant of the stored state. *)
Record Invariant (I : World -> Prop) : Prop := {
  inv_initial hash verified t : I (world (initial hash verified t));
  inv_time w t : clock w <= t -> I w -> I (set_clock t w);
  inv_moved w w' : I w -> user_typed w -> moved w w' -> I w';
  inv_erase w : I w -> I (set_user None w);
  inv_forget w jti : I w -> I (forget jti w);
}.

Lemma registered_typed hash verified : Row_typed (registered hash verified).
Proof. intros p v. destruct p; cbn; try done; by intros [= <-]. Qed.

Lemma step_checked I s s' : Invariant I ->
  step resets faults s s' ->
  I (world s) /\ user_typed (world s) /\ Forall (checked (world s)) (requests s) ->
  I (world s') /\ user_typed (world s') /\ Forall (checked (world s')) (requests s').
Proof.
  intros HI Hs (Hw & Ht & Hr). destruct Hs as [s t Hl|s r Ha|s i X c k answer w x Ei Ex|s i Hf|s d Hu Hd|s jti c Hc Hx]; cbn.
  - split_and!; [by apply (inv_time I HI)|done|]. eapply Forall_impl; [exact Hr|]. intros p. apply checked_later. by constructor.
  - split_and!; [done..|]. apply Forall_app. split; [done|]. constructor; [|done]. by apply okr_handle.
  - pose proof (proj1 (Forall_lookup _ _) Hr i _ Ei) as Hc. apply checked_call in Hc as [Hi Hk].
    destruct (exec_moved answer c k _ _ _ Ht Hi Ex) as [Hm _]. split_and!.
    + by eapply (inv_moved I HI).
    + by eapply moved_typed.
    + apply Forall_insert; [|by eapply Hk]. eapply Forall_impl; [exact Hr|]. intros p. apply checked_later. by eapply exec_later.
  - split_and!; [done..|]. by apply Forall_insert.
  - split_and!; [by apply (inv_erase I HI)|done|]. eapply Forall_impl; [exact Hr|]. intros p. apply checked_later. by constructor.
  - split_and!; [by apply (inv_forget I HI)|done|]. eapply Forall_impl; [exact Hr|]. intros p. apply checked_later. by constructor.
Qed.

Lemma reachable_invariant I s : Invariant I -> reachable resets faults s ->
  I (world s) /\ user_typed (world s) /\ Forall (checked (world s)) (requests s).
Proof.
  intros HI (hash & verified & t & Hs).
  assert (I (world (initial hash verified t)) /\ user_typed (world (initial hash verified t)) /\
    Forall (checked (world (initial hash verified t))) (requests (initial hash verified t))) as H0.
  { split_and!; [by apply (inv_initial I HI)| |constructor]. intros d [= <-]. apply registered_typed. }
  revert H0. induction Hs as [s|s1 s2 s3 Hstep _ IH]; [done|]. intros H0. apply IH. by eapply step_checked.
Qed.

Lemma trivial_invariant : Invariant (λ _, True).
Proof. by constructor. Qed.

(** C26: The account row keeps the types its schema declares whatever requests run together, are
    interrupted or race with an erasure: every path of every reachable row holds a value of its type.
    And no request is ever answered by a database error: every update that matches is well formed
    (no two operators on one path, nothing incremented or pulled that is not a number or an array). *)
Theorem account_row_well_typed s :
  reachable resets faults s ->
  (∀ d, user (world s) = Some d -> Row_typed d) /\
  (∀ i X (c : cmd X) k answer, requests s !! i = Some (Call c k) -> snd (exec answer c (world s)) <> None).
Proof.
  intros Hs. destruct (reachable_invariant _ s trivial_invariant Hs) as (_ & Ht & Hr). split; [done|].
  intros i X c k answer Ei. pose proof (proj1 (Forall_lookup _ _) Hr i _ Ei) as Hc.
  apply checked_call in Hc as [Hi _]. destruct (exec answer c (world s)) as [w' x] eqn:Ex.
  by destruct (exec_moved answer c k _ _ _ Ht Hi Ex).
Qed.
End induction.

(** An enrolment under way. *)
Definition sample_enrolling : System := after 0 (Setup2fa (js "pw")) (initial (js "pw") true 0).

Lemma account_row_well_typed_witness :
  user (world sample_enrolling) ≫= (λ d, d pendingTwoFactorExpiry) = Some (VDate 600000) /\
  (∀ d, user (world sample_enrolling) = Some d -> Row_typed d) /\
  (∀ i X (c : cmd X) k answer, requests sample_enrolling !! i = Some (Call c k) -> snd (exec answer c (world sample_enrolling)) <> None).
Proof.
  split; [vm_compute; reflexivity|]. apply (account_row_well_typed false true).
  apply reachable_after; [apply reachable_initial|vm_compute; discriminate|exact I].
Defined.
