(* ===== verification/SecondFactorSpec.v ===== *)
(** Codes and challenges are single-use: however requests are interleaved, a TOTP step of a secret, a
    backup code and a sign-in challenge are each consumed at most once. *)
From stdpp Require Import gmap.
From S2P Require Import Prelude AccountRecord AuthProgram Lockout SecondFactor AuthRequests AuthSystem AuthRows AuthInduction AuthSample.
Local Open Scope Z_scope.

Ltac row_simpl :=
  unfold put, remove, covers, path_eqb, clearLockoutStateOnDocument, codes_at, written in *;
  cbn [FACTOR_PATHS attempts until episode notified path_index parent Nat.eqb orb] in *.

Section spec.
Context `{CryptoLaws} (resets : bool).

Definition drawn_text (w : World) (s : jsstr) : Prop := ∃ i, (i < drawn w)%nat /\ s = random_text i.

Lemma fresh_not_drawn w s : s ∈ fresh_texts w -> ~ drawn_text w s.
Proof.
  unfold fresh_texts. intros Hs (i & Hi & ->). apply list_elem_of_fmap in Hs as (j & E & Hj).
  apply random_inj in E. apply elem_of_seq in Hj. lia.
Qed.

Lemma fresh_drawn w s : s ∈ fresh_texts w -> drawn_text (draw w) s.
Proof.
  unfold fresh_texts. intros Hs. apply list_elem_of_fmap in Hs as (j & -> & Hj). exists j. split; [|done].
  apply elem_of_seq in Hj. cbn. lia.
Qed.

Lemma fresh_text_in w : fresh_text (fresh_texts w) ∈ fresh_texts w.
Proof. by left. Qed.

Lemma drawn_later w w' s : (drawn w <= drawn w')%nat -> drawn_text w s -> drawn_text w' s.
Proof. intros Hl (i & Hi & ->). exists i. split; [lia|done]. Qed.

(** ** The invariant *)

(** What a row may hold, given what has been spent. *)
Record row_unspent (w : World) (d : Doc) : Prop := {
  u_secret s : d twoFactorSecret = Some (VStr s) -> drawn_text w s;
  u_pending s : d pendingTwoFactorSecret = Some (VStr s) -> drawn_text w s /\ d twoFactorSecret <> Some (VStr s);
  u_codes h : h ∈ codes_at d backupCodes -> drawn_text w h;
  u_totp s k : TotpStep s k ∈ spent w ->
    d pendingTwoFactorSecret <> Some (VStr s) /\
    (d twoFactorSecret = Some (VStr s) -> ∃ last, d lastTotpTimestamp = Some (VNum last) /\ k <= last);
  u_backup h : BackupCode h ∈ spent w -> h ∉ codes_at d backupCodes;
}.

Definition credential_text (c : Credential) : jsstr := match c with TotpStep s _ => s | BackupCode h => h end.

Record single_use (w : World) : Prop := {
  su_row d : user w = Some d -> row_unspent w d;
  su_drawn c : c ∈ spent w -> drawn_text w (credential_text c);
  su_spent : NoDup (spent w);
  su_exchanged jti : jti ∈ exchanged w -> drawn_text w jti /\ ∀ c, challenges w !! jti = Some c -> consumedAt c <> None;
  su_challenges jti c : challenges w !! jti = Some c -> drawn_text w jti;
  su_once : NoDup (exchanged w);
}.

(** A row write leaves the challenges alone, and adds at most its credential. *)
Lemma single_use_write w m d d' :
  single_use w -> user w = Some d ->
  (∀ c, m = Spends c -> drawn_text w (credential_text c) /\ c ∉ spent w) ->
  row_unspent (written m d' w) d' -> single_use (written m d' w).
Proof.
  intros [_ Hd Hn He Hc Ho] Hu Hm Hr. assert (∀ s, drawn_text w s -> drawn_text (written m d' w) s) as Hl.
  { intros s. apply drawn_later. cbn. lia. }
  constructor; cbn.
  - by intros d1 [= <-].
  - intros c Hin. destruct m; cbn in *; auto. apply elem_of_cons in Hin as [->|Hin]; auto. apply Hl. by apply Hm.
  - destruct m; cbn; try done. constructor; [|done]. by apply Hm.
  - intros jti Hj. destruct (He jti Hj). auto.
  - intros jti c Hj. eapply Hl, Hc, Hj.
  - done.
Qed.

(** What is drawn stays drawn. *)
Lemma row_unspent_same w m d d' : row_unspent w d -> (∀ c, m <> Spends c) ->
  d' twoFactorSecret = d twoFactorSecret -> d' pendingTwoFactorSecret = d pendingTwoFactorSecret ->
  d' backupCodes = d backupCodes -> d' lastTotpTimestamp = d lastTotpTimestamp ->
  row_unspent (written m d' w) d'.
Proof.
  intros [H1 H2 H3 H4 H5] Hm E1 E2 E3 E4.
  assert (∀ s, drawn_text w s -> drawn_text (written m d' w) s) as Hl by (intros s; apply drawn_later; cbn; lia).
  assert (spent (written m d' w) = spent w) as Es by (destruct m; try done; by destruct (Hm c)).
  constructor; unfold codes_at in *; rewrite ?Es, ?E1, ?E2, ?E3, ?E4; auto.
  intros s Hs. destruct (H2 s Hs). auto.
Qed.

(** No step of the current secret from the last one on is spent. *)
Lemma unspent_new w d s k : row_unspent w d -> d twoFactorSecret = Some (VStr s) -> unspent k d -> TotpStep s k ∉ spent w.
Proof.
  intros Hr Hs Hu Hin. destruct (u_totp w d Hr s k Hin) as [_ Hl]. destruct (Hl Hs) as (l & El & Hk).
  unfold unspent in Hu. rewrite El in Hu. lia.
Qed.

(** A secret and the codes after a TOTP step is accepted for the current secret. *)
Lemma row_unspent_totp w d s k d' : (∀ c, c ∈ spent w -> drawn_text w (credential_text c)) -> row_unspent w d -> d twoFactorSecret = Some (VStr s) -> unspent k d ->
  (d' twoFactorSecret = Some (VStr s) /\ d' lastTotpTimestamp = Some (VNum k) \/ d' twoFactorSecret = None) ->
  d' pendingTwoFactorSecret = d pendingTwoFactorSecret ->
  (d' backupCodes = d backupCodes \/ d' backupCodes = None \/ d' backupCodes = Some (VArr (fresh_texts w))) ->
  row_unspent (written (Spends (TotpStep s k)) d' w) d'.
Proof.
  intros Hsd Hr Hs Hu Ht Hp Hc. pose proof Hr as [H1 H2 H3 H4 H5].
  assert (∀ t, drawn_text w t -> drawn_text (written (Spends (TotpStep s k)) d' w) t) as Hl by (intros t; apply drawn_later; cbn; lia).
  constructor; cbn [spent written log_mark]; unfold codes_at in *; rewrite ?Hp.
  - intros t Et. destruct Ht as [[E _]|E]; [|congruence]. apply Hl, H1. congruence.
  - intros t Et. destruct (H2 t Et) as [Hd Hne]. split; [by apply Hl|]. destruct Ht as [[E _]|E]; congruence.
  - intros h Hh. destruct Hc as [E|[E|E]]; rewrite E in Hh; [by apply Hl, H3|by apply elem_of_nil in Hh|by apply fresh_drawn].
  - intros t n Hin. apply elem_of_cons in Hin as [[= -> ->]|Hin].
    + split; [by intros E; apply H2 in E as [_ []]|]. intros E. destruct Ht as [[_ E']|E']; [by exists k|congruence].
    + destruct (H4 t n Hin) as [Hne Hl']. split; [done|]. intros E.
      destruct Ht as [[E1 E2]|E1]; [|congruence]. rewrite E1 in E. injection E as <-. exists k. split; [done|].
      destruct (Hl' Hs) as (l & El & Hn). unfold unspent in Hu. rewrite El in Hu. lia.
  - intros h Hin. apply elem_of_cons in Hin as [?|Hin]; [done|].
    destruct Hc as [E|[E|E]]; rewrite E; [by apply H5|by apply not_elem_of_nil|].
    intros Hf. by apply (fresh_not_drawn w h Hf), (Hsd (BackupCode h)).
Qed.

(** ** The steps *)

Lemma unspent_backup w d h d' : row_unspent w d -> h ∈ codes_at d backupCodes ->
  d' = put backupCodes (remaining h d) d -> row_unspent (written (Spends (BackupCode h)) d' w) d'.
Proof.
  intros [H1 H2 H3 H4 H5] Hh ->.
  set (d' := put backupCodes (remaining h d) d).
  assert (∀ t, drawn_text w t -> drawn_text (written (Spends (BackupCode h)) d' w) t) as Hl by (intros t; apply drawn_later; cbn; lia).
  assert (∀ x, x ∈ codes_at d' backupCodes -> x ∈ codes_at d backupCodes /\ x <> h) as Hc.
  { intros x. unfold d', remaining. row_simpl. intros Hx%list_elem_of_In%filter_In. destruct Hx as [Hx E].
    apply list_elem_of_In in Hx. split; [done|]. by case_bool_decide. }
  constructor; cbn [spent written log_mark].
  - intros s E. apply Hl, H1. exact E.
  - intros s E. destruct (H2 s E). auto.
  - intros x Hx. apply Hc in Hx as [Hx _]. auto.
  - intros s k Hin. apply elem_of_cons in Hin as [?|Hin]; [done|]. exact (H4 s k Hin).
  - intros x Hin Hx. apply Hc in Hx as [Hx Hne]. apply elem_of_cons in Hin as [[= ->]|Hin]; [done|]. by apply (H5 x).
Qed.

(** Only the codes change. *)
Lemma unspent_new_codes w d d' : (∀ c, c ∈ spent w -> drawn_text w (credential_text c)) -> row_unspent w d ->
  d' = put backupCodes (VArr (fresh_texts w)) d -> row_unspent (written NoMark d' w) d'.
Proof.
  intros Hsd [H1 H2 H3 H4 H5] ->. set (d' := put _ _ _).
  assert (∀ t, drawn_text w t -> drawn_text (written NoMark d' w) t) as Hl by (intros t; apply drawn_later; cbn; lia).
  constructor; cbn [spent written log_mark].
  - intros s E. apply Hl, H1. exact E.
  - intros s E. destruct (H2 s E). auto.
  - intros x Hx. by apply fresh_drawn.
  - exact H4.
  - intros x Hin Hx. by apply (fresh_not_drawn w x Hx), (Hsd (BackupCode x)).
Qed.

(** A new pending secret. *)
Lemma unspent_setup w d d' expiry : (∀ c, c ∈ spent w -> drawn_text w (credential_text c)) -> row_unspent w d ->
  d' = put pendingTwoFactorExpiry (VDate expiry) (put pendingTwoFactorSecret (VStr (fresh_text (fresh_texts w))) d) ->
  row_unspent (written NoMark d' w) d'.
Proof.
  intros Hsd [H1 H2 H3 H4 H5] ->. set (d' := put _ _ _).
  assert (∀ t, drawn_text w t -> drawn_text (written NoMark d' w) t) as Hl by (intros t; apply drawn_later; cbn; lia).
  pose proof (fresh_text_in w) as Hf.
  assert (∀ s, d' pendingTwoFactorSecret = Some (VStr s) -> s ∈ fresh_texts w) as Hp.
  { intros s. unfold d'. row_simpl. by intros [= <-]. }
  constructor; cbn [spent written log_mark].
  - intros s E. apply Hl, H1. exact E.
  - intros s E%Hp. split; [by apply fresh_drawn|]. intros E'. apply (fresh_not_drawn w s E). apply H1. exact E'.
  - intros x Hx. apply Hl, H3. exact Hx.
  - intros s k Hin. destruct (H4 s k Hin) as [_ Hk]. split; [|exact Hk]. intros E%Hp.
    by apply (fresh_not_drawn w s E), (Hsd (TotpStep s k)).
  - exact H5.
Qed.

(** Enabling the factor moves the pending secret, which nothing was spent of. *)
Lemma unspent_enable w d s k : (∀ c, c ∈ spent w -> drawn_text w (credential_text c)) -> row_unspent w d ->
  d pendingTwoFactorSecret = Some (VStr s) ->
  let d' := remove secondFactorLockout (remove pendingTwoFactorExpiry (remove pendingTwoFactorSecret
              (put lastTotpTimestamp (VNum k) (put twoFactorEnabled (VBool true)
                (put backupCodes (VArr (fresh_texts w)) (put twoFactorSecret (VStr s) d)))))) in
  row_unspent (written (Spends (TotpStep s k)) d' w) d'.
Proof.
  intros Hsd [H1 H2 H3 H4 H5] Hp d'.
  assert (∀ t, drawn_text w t -> drawn_text (written (Spends (TotpStep s k)) d' w) t) as Hl by (intros t; apply drawn_later; cbn; lia).
  constructor; cbn [spent written log_mark].
  - intros t E. unfold d' in E. row_simpl. injection E as <-. by apply Hl, H2.
  - intros t E. unfold d' in E. by row_simpl.
  - intros x Hx. by apply fresh_drawn.
  - intros t n Hin. split; [unfold d'; by row_simpl|]. intros E. exists k. split; [done|].
    assert (t = s) as -> by (unfold d' in E; row_simpl; congruence).
    apply elem_of_cons in Hin as [[= ->]|Hin]; [done|]. by destruct (H4 s n Hin).
  - intros x Hin Hx. apply elem_of_cons in Hin as [?|Hin]; [done|].
    by apply (fresh_not_drawn w x Hx), (Hsd (BackupCode x)).
Qed.

Lemma unspent_drop_pending w d : row_unspent w d ->
  let d' := remove pendingTwoFactorExpiry (remove pendingTwoFactorSecret d) in row_unspent (written NoMark d' w) d'.
Proof.
  intros [H1 H2 H3 H4 H5] d'.
  assert (∀ t, drawn_text w t -> drawn_text (written NoMark d' w) t) as Hl by (intros t; apply drawn_later; cbn; lia).
  constructor; cbn [spent written log_mark].
  - intros t E. apply Hl, H1. exact E.
  - intros t E. unfold d' in E. by row_simpl.
  - intros x Hx. apply Hl, H3. exact Hx.
  - intros t n Hin. split; [unfold d'; by row_simpl|]. by apply H4.
  - exact H5.
Qed.

Lemma enable_new w d s k : row_unspent w d -> d pendingTwoFactorSecret = Some (VStr s) -> TotpStep s k ∉ spent w.
Proof. intros Hr Hp Hin. by destruct (u_totp w d Hr s k Hin). Qed.

(** Every write keeps codes single-use. *)
Lemma single_use_row w m d d' : single_use w -> user w = Some d -> row_step resets w m d d' -> single_use (written m d' w).
Proof.
  intros Hs Hu Hr. pose proof (su_row w Hs d Hu) as Hd. pose proof (su_drawn w Hs) as Hsd.
  assert (∀ s k, d twoFactorSecret = Some (VStr s) -> unspent k d ->
    ∀ c, Spends (TotpStep s k) = Spends c -> drawn_text w (credential_text c) /\ c ∉ spent w) as Hnew.
  { intros s k Es Ek c [= <-]. split; [by apply (u_secret w d Hd)|by eapply unspent_new]. }
  eapply single_use_write; [done|exact Hu| |]; destruct Hr; try done.
  all: try (by apply Hnew).
  all: try (by eapply row_unspent_totp; row_simpl; eauto).
  all: try (by apply (row_unspent_same w _ d); (destruct f || idtac)).
  - intros c [= <-]. split; [by apply (u_codes w d Hd)|]. intros Hin. by apply (u_backup w d Hd h Hin).
  - intros c [= <-]. split; [by apply (u_pending w d Hd)|by eapply enable_new].
  - by eapply unspent_setup.
  - by eapply unspent_drop_pending.
  - by eapply unspent_backup.
  - by eapply unspent_enable.
  - by eapply unspent_new_codes.
  - apply (row_unspent_same w _ d); try done; unfold reset_row; row_simpl; repeat case_match; done.
Qed.

(** ** Challenges *)

Lemma single_use_same w w' : single_use w -> user w' = user w \/ user w' = None -> drawn w' = drawn w ->
  spent w' = spent w -> exchanged w' = exchanged w -> challenges w' = challenges w -> single_use w'.
Proof.
  intros [H1 H2 H3 H4 H5 H6] Hu Ed Es Ee Ec.
  assert (∀ s, drawn_text w' s <-> drawn_text w s) as Hdr by (intros s; unfold drawn_text; by rewrite Ed).
  constructor; rewrite ?Es, ?Ee, ?Ec; try done.
  - intros d E. destruct Hu as [Hu|Hu]; rewrite Hu in E; [|done]. destruct (H1 d E) as [G1 G2 G3 G4 G5].
    constructor; rewrite ?Es; try done; intros; setoid_rewrite Hdr; auto.
  - intros c Hc. apply Hdr. auto.
  - intros jti Hj. rewrite Hdr. auto.
  - intros jti c Hj. rewrite Hdr. eauto.
Qed.

Lemma single_use_fewer w cs : single_use w -> (∀ jti c, cs !! jti = Some c -> challenges w !! jti = Some c) ->
  single_use (set_challenges cs w).
Proof.
  intros [H1 H2 H3 H4 H5 H6] Hc. constructor; try done.
  - intros d E. destruct (H1 d E) as [G1 G2 G3 G4 G5]. by constructor.
  - intros jti Hj. destruct (H4 jti Hj) as [Hd Ho]. split; [done|]. intros c E. by apply Ho, Hc.
  - intros jti c E. by eapply H5, Hc.
Qed.

Lemma single_use_create w expires : single_use w ->
  single_use (draw (set_challenges (<[fresh_text (fresh_texts w) := {| expiresAt := expires; consumedAt := None |}]> (challenges w)) w)).
Proof.
  intros [H1 H2 H3 H4 H5 H6].
  assert (∀ s, drawn_text w s -> drawn_text (draw (set_challenges (<[fresh_text (fresh_texts w) :=
    {| expiresAt := expires; consumedAt := None |}]> (challenges w)) w)) s) as Hl by (intros s; apply drawn_later; cbn; lia).
  constructor; cbn; auto.
  - intros d E. destruct (H1 d E) as [G1 G2 G3 G4 G5]. constructor; auto. intros s Es. destruct (G2 s Es). auto.
  - intros jti Hj. destruct (H4 jti Hj) as [Hd Ho]. split; [auto|]. intros c E.
    rewrite lookup_insert_ne in E; [auto|]. intros <-. by apply (fresh_not_drawn w _ (fresh_text_in w)).
  - intros jti c E. apply lookup_insert_Some in E as [[<- _]|[_ E]]; [|eauto].
    apply (drawn_later (draw w)); [cbn; lia|]. apply fresh_drawn, fresh_text_in.
Qed.

Lemma single_use_exchange w jti now c : single_use w -> open_challenge jti now w = Some c ->
  single_use (log_exchange jti (set_challenges (<[jti := {| expiresAt := expiresAt c; consumedAt := Some now |}]> (challenges w)) w)).
Proof.
  intros [H1 H2 H3 H4 H5 H6] Ho. unfold open_challenge in Ho. destruct (challenges w !! jti) as [c0|] eqn:Ec; [|done].
  unfold is_open in Ho. destruct (consumedAt c0) eqn:Econs; [done|].
  constructor; cbn; auto.
  - intros d E. destruct (H1 d E) as [G1 G2 G3 G4 G5]. by constructor.
  - intros j Hj. apply elem_of_cons in Hj as [->|Hj].
    + split; [by eapply H5|]. intros c1. rewrite lookup_insert_eq. by intros [= <-].
    + destruct (H4 j Hj) as [Hd Hn]. split; [done|]. intros c1 E. apply lookup_insert_Some in E as [[_ <-]|[_ E]]; [done|auto].
  - intros j c1 E. apply lookup_insert_Some in E as [[<- _]|[_ E]]; eauto.
  - constructor; [|done]. intros Hj. destruct (H4 jti Hj) as [_ Hn]. by apply (Hn c0).
Qed.

Lemma single_use_invariant : Invariant resets single_use.
Proof.
  constructor.
  - intros hash verified t. constructor; cbn; try (by intros ? ?%elem_of_nil); try done.
    2,3: apply NoDup_nil_2. intros d [= <-]. constructor; cbn; try done; try (by intros ? ?%elem_of_nil).
  - intros w t _ Hw. eapply single_use_same; eauto.
  - intros w w' Hw _ Hm. destruct Hm as [|m d d' Hu Hr|expires|jti now c Ho| |f e].
    + done.
    + by eapply single_use_row.
    + by apply single_use_create.
    + by apply single_use_exchange.
    + by apply single_use_fewer.
    + eapply single_use_same; eauto.
  - intros w Hw. eapply single_use_same; eauto.
  - intros w jti Hw. apply single_use_fewer; [done|]. intros j c E. by apply lookup_delete_Some in E as [_ E].
Qed.

(** C5: A code buys one thing.  Whatever requests run together on the account (sign-ins, both ways to
    change the factor, new backup codes, a deletion, a password reset), interleaved in any way and
    interrupted anywhere: a TOTP step of a secret and a backup code are each consumed by at most one
    request, and a sign-in challenge completes at most one exchange.  A step once accepted stays
    below the account's replay mark for as long as its secret is enrolled. *)
Theorem second_factor_single_use faults s :
  reachable resets faults s ->
  NoDup (spent (world s)) /\ NoDup (exchanged (world s)) /\
  ∀ d secret step, user (world s) = Some d -> TotpStep secret step ∈ spent (world s) ->
    str_at d twoFactorSecret = Some secret -> ∃ last, num_at d lastTotpTimestamp = Some last /\ step <= last.
Proof.
  intros Hs. destruct (reachable_invariant resets faults _ s single_use_invariant Hs) as (Hi & _ & _).
  split_and!; [apply Hi..|]. intros d t k Hu Hin Es. destruct (u_totp _ d (su_row _ Hi d Hu) t k Hin) as [_ Hk].
  destruct Hk as (l & El & Hl).
  - unfold str_at in Es. destruct (d twoFactorSecret) as [[]|]; try done. by injection Es as ->.
  - exists l. split; [unfold num_at; by rewrite El|done].
Qed.
End spec.

(** Enrolment, a sign-in with a later step, and a backup code. *)
Definition sample_run : System :=
  let s := initial (js "pw") true 0 in
  let s := after 0 (Setup2fa (js "pw")) s in
  let s := after 1000 (Verify2fa (js "123456")) s in
  let s := after 60000 (Login (js "pw") None false) s in
  let s := after 61000 (Login2fa (Some (sample_text 16)) (js "123456") true) s in
  let s := after 62000 (Login (js "pw") None false) s in
  after 63000 (Login2fa (Some (sample_text 32)) (sample_text 12) false) s.

Lemma second_factor_single_use_witness :
  (spent (world sample_run) = [BackupCode (sample_text 12); TotpStep (sample_text 0) 2; TotpStep (sample_text 0) 0]
   /\ exchanged (world sample_run) = [sample_text 32; sample_text 16])
  /\ NoDup (spent (world sample_run)) /\ NoDup (exchanged (world sample_run)) /\
  ∀ d secret step, user (world sample_run) = Some d -> TotpStep secret step ∈ spent (world sample_run) ->
    str_at d twoFactorSecret = Some secret -> ∃ last, num_at d lastTotpTimestamp = Some last /\ step <= last.
Proof.
  split; [split; vm_compute; reflexivity|]. apply (second_factor_single_use false true).
  unfold sample_run. repeat (apply reachable_after; [|vm_compute; discriminate|exact I]). apply reachable_initial.
Defined.
