(* ===== verification/LockoutSpec.v ===== *)
(** The brake in every reachable state: counters and deadlines are bounded, no factor is locked
    without an episode, an episode is discharged at most once, by a link mailed for it, and a
    locked owner has an outstanding link. *)
From stdpp Require Import gmap.
From S2P Require Import Prelude AccountRecord AuthProgram Lockout SecondFactor AuthRequests AuthSystem AuthRows AuthSample AuthInduction SecondFactorSpec.
Local Open Scope Z_scope.

Section spec.
Context `{CryptoLaws}.

Abbreviation ep f := (episode (FACTOR_PATHS f)).

(** ** Episodes *)

Record episodes_row (w : World) (d : Doc) : Prop := {
  er_drawn f e : d (ep f) = Some (VStr e) -> drawn_text w e;
  er_live f e f' : d (ep f) = Some (VStr e) -> (f', e) ∉ unlocked w;
  er_apart e : d (ep password) = Some (VStr e) -> d (ep second_factor) <> Some (VStr e);
}.

Record episodes_ok (w : World) : Prop := {
  eo_row d : user w = Some d -> episodes_row w d;
  eo_unlocked f e : (f, e) ∈ unlocked w ->
    drawn_text w e /\ ∃ m, m ∈ mails w /\ mailed_factor m = f /\ mailed_state m = sha256 e;
  eo_once : NoDup (map snd (unlocked w));
}.

(** Rows whose episodes are among those there were. *)
Definition fewer_episodes (d d' : Doc) : Prop := ∀ f e, d' (ep f) = Some (VStr e) -> d (ep f) = Some (VStr e).

Lemma drawn_written w m d e : drawn_text w e -> drawn_text (written m d w) e.
Proof. apply drawn_later. cbn. lia. Qed.

Lemma episodes_fewer w m d d' : episodes_ok w -> user w = Some d -> fewer_episodes d d' -> (∀ f e, m <> Unlocks f e) ->
  episodes_ok (written m d' w).
Proof.
  intros [H1 H2 H3] Hu Hf Hm. destruct (H1 d Hu) as [G1 G2 G3].
  assert (unlocked (written m d' w) = unlocked w) as Eu by (destruct m; try done; by destruct (Hm f episode)).
  constructor; rewrite ?Eu; try done.
  - intros d1 [= <-]. constructor; rewrite ?Eu.
    + intros f e E. eapply drawn_written, G1, Hf, E.
    + intros f e f' E. eapply G2, Hf, E.
    + intros e E E'. by apply (G3 e); apply Hf.
  - intros f e Hin. destruct (H2 f e Hin) as [Hd Hmail]. split; [by apply drawn_written|done].
Qed.

Lemma unlocked_once w f e d : episodes_ok w -> user w = Some d -> d (ep f) = Some (VStr e) -> e ∉ map snd (unlocked w).
Proof.
  intros He Hu E Hin. apply list_elem_of_In, in_map_iff in Hin as ([f' e'] & Ee & Hin). cbn in Ee. subst e'.
  eapply (er_live w d (eo_row w He d Hu) f e f' E). by apply list_elem_of_In.
Qed.

Lemma episodes_unlock w d f e m : episodes_ok w -> user w = Some d -> d (ep f) = Some (VStr e) ->
  m ∈ mails w -> mailed_factor m = f -> mailed_state m = sha256 e ->
  episodes_ok (written (Unlocks f e) (clearLockoutStateOnDocument d f) w).
Proof.
  intros He Hu E Hm Hf Hs. pose proof (unlocked_once w f e d He Hu E) as Hn. destruct He as [H1 H2 H3]. destruct (H1 d Hu) as [G1 G2 G3].
  assert (∀ f' e', clearLockoutStateOnDocument d f (ep f') = Some (VStr e') -> d (ep f') = Some (VStr e') /\ e' <> e) as Hc.
  { intros f' e' E'. destruct f, f'; row_simpl; try done; (split; [done|]); intros ->; by eapply (G3 e). }
  constructor; cbn.
  - intros d1 [= <-]. constructor; cbn.
    + intros f' e' [E' _]%Hc. by eapply drawn_written, G1.
    + intros f' e' f2 [E' Hne]%Hc [[= _ ->]|Hin]%elem_of_cons; [done|]. by eapply G2.
    + intros e' E1 E2. destruct (Hc password e' E1), (Hc second_factor e' E2). by eapply G3.
  - intros f' e' [[= -> ->]|Hin]%elem_of_cons.
    + split; [by eapply drawn_written, G1|]. by exists m.
    + destruct (H2 f' e' Hin) as [Hd Hmail]. split; [by apply drawn_written|done].
  - by constructor.
Qed.

Lemma episodes_lock w d f v : episodes_ok w -> user w = Some d ->
  let d' := put (ep f) (default (VStr (fresh_text (fresh_texts w))) (d (ep f))) (put (until (FACTOR_PATHS f)) v d) in
  episodes_ok (written (Locks f) d' w).
Proof.
  intros He Hu d'. pose proof He as [H1 H2 H3]. pose proof (H1 d Hu) as [G1 G2 G3].
  pose proof (fresh_text_in w) as Hin. set (t := fresh_text (fresh_texts w)) in *.
  assert (∀ f' e, d' (ep f') = Some (VStr e) -> d (ep f') = Some (VStr e) \/ f' = f /\ d (ep f) = None /\ e = t) as Hd'.
  { intros f' e. unfold d'. destruct f, f'; row_simpl; auto; destruct (d _); cbn; intros [= ->]; auto. }
  assert (~ drawn_text w t) as Ht by by apply fresh_not_drawn.
  constructor; cbn; try done.
  - intros d1 [= <-]. constructor; cbn.
    + intros f' e [E|(-> & _ & ->)]%Hd'; [by eapply drawn_written, G1|].
      apply (drawn_later (draw w)); [cbn; lia|]. by apply fresh_drawn.
    + intros f' e f2 [E|(-> & _ & ->)]%Hd' Hx; [by eapply G2|]. by destruct (H2 f2 t Hx).
    + intros e E1 E2. destruct (Hd' password e E1) as [E1'|(Ef1 & _ & ->)], (Hd' second_factor _ E2) as [E2'|(Ef2 & _ & E2')].
      * by eapply G3.
      * subst e. by apply Ht, (G1 password).
      * by apply Ht, (G1 second_factor).
      * congruence.
  - intros f' e Hx. destruct (H2 f' e Hx) as [Hd Hmail]. split; [by apply drawn_written|done].
Qed.

Lemma reset_episodes d0 t d : fewer_episodes d (reset_row d0 t d).
Proof.
  intros f e. unfold reset_row.
  destruct (true_at d0 rotationInProgress), (failedAttempts d0 password =? 0), (bool_decide (is_Some (d0 lockoutUntil)));
    by destruct f; row_simpl.
Qed.

Lemma row_step_episodes resets w m d d' : episodes_ok w -> user w = Some d -> row_step resets w m d d' ->
  episodes_ok (written m d' w).
Proof.
  intros He Hu Hs. destruct Hs; try (by eapply episodes_lock); try (by eapply episodes_unlock).
  all: eapply episodes_fewer; [done|exact Hu| |done]; try apply reset_episodes; intros f' e'.
  all: try (destruct f); destruct f'; row_simpl; done.
Qed.

Lemma episodes_same w w' : episodes_ok w -> user w' = user w \/ user w' = None -> (drawn w <= drawn w')%nat ->
  (∀ m, m ∈ mails w -> m ∈ mails w') -> unlocked w' = unlocked w -> episodes_ok w'.
Proof.
  intros [H1 H2 H3] Hu Hd Hm Eu. constructor; rewrite ?Eu; [| |done].
  - intros d E. destruct Hu as [Hu|Hu]; rewrite Hu in E; [|done]. destruct (H1 d E) as [G1 G2 G3].
    constructor; rewrite ?Eu; [|done|done]. intros f e E'. by eapply drawn_later, G1.
  - intros f e Hin. destruct (H2 f e Hin) as [Hd' (m & Hm' & Hx)]. split; [by eapply drawn_later|]. exists m. auto.
Qed.

Lemma episodes_invariant resets : Invariant resets episodes_ok.
Proof.
  constructor.
  - intros hash verified t. constructor; cbn; [|by intros ? ? ?%elem_of_nil|apply NoDup_nil_2].
    intros d [= <-]. constructor; try done; by intros [].
  - intros w t _ Hw. eapply episodes_same; eauto.
  - intros w w' Hw _ Hm. destruct Hm as [|m d d' Hu Hr|expires|jti now c Ho| |f e]; try done.
    + by eapply row_step_episodes.
    + eapply episodes_same; eauto. cbn. lia.
    + eapply episodes_same; eauto.
    + eapply episodes_same; eauto.
    + eapply episodes_same; eauto. intros m Hm. by right.
  - intros w Hw. eapply episodes_same; eauto.
  - intros w jti Hw. eapply episodes_same; eauto.
Qed.

(** C14: An unlock link discharges only what it was mailed for, and only once: of all unlock requests ever
    made, at most one discharges a given lock episode, and it presented a link that was mailed for that
    episode of that factor.  This holds through re-locks, double clicks, races with sign-ins and resets,
    and crashes. *)
Theorem unlock_once resets faults s :
  reachable resets faults s ->
  NoDup (map snd (unlocked (world s))) /\
  ∀ f e, (f, e) ∈ unlocked (world s) ->
    (∃ m, m ∈ mails (world s) /\ mailed_factor m = f /\ mailed_state m = sha256 e) /\
    ∀ d f', user (world s) = Some d -> unlockEpisodeOf d f' <> Some e.
Proof.
  intros Hs. destruct (reachable_invariant resets faults _ s (episodes_invariant resets) Hs) as (Hi & _ & _).
  split; [apply Hi|]. intros f e Hin. split; [by apply Hi|]. intros d f' Hu E.
  eapply (er_live _ _ (eo_row _ Hi d Hu) f' e f); [|done].
  unfold unlockEpisodeOf, str_at in E. destruct (d _) as [[]|]; try done. by injection E as ->.
Qed.

(** ** Counters and deadlines *)

(** One factor's four facts. *)
Record factor_row (w : World) (d : Doc) (f : LockoutFactor) : Prop := {
  fr_count n : d (attempts (FACTOR_PATHS f)) = Some (VNum n) -> 0 <= n <= MAX_LOGIN_ATTEMPTS;
  fr_until u : d (until (FACTOR_PATHS f)) = Some (VDate u) -> u <= clock w + LOCKOUT_DURATION_MS;
  fr_locked : is_Some (d (until (FACTOR_PATHS f))) <-> is_Some (d (ep f));
  fr_notified t : d (notified (FACTOR_PATHS f)) = Some (VDate t) -> t <= clock w;
  fr_mailed : is_Some (d (notified (FACTOR_PATHS f))) -> is_Some (d (ep f));
}.

Definition lock_ok (w : World) : Prop := ∀ d f, user w = Some d -> factor_row w d f.

Lemma factor_row_clear w d f : d (attempts (FACTOR_PATHS f)) = None \/ d (attempts (FACTOR_PATHS f)) = Some (VNum 0) ->
  d (until (FACTOR_PATHS f)) = None -> d (ep f) = None -> d (notified (FACTOR_PATHS f)) = None -> factor_row w d f.
Proof.
  intros Ha Hu He Hn. constructor; rewrite ?Hu, ?He, ?Hn; try done; try (by intros [? ?]).
  intros n E. destruct Ha as [Ha|Ha]; rewrite Ha in E; [done|]. injection E as <-. unfold MAX_LOGIN_ATTEMPTS. lia.
Qed.

(** A row with the same four facts. *)
Lemma factor_row_same w w' d d' f : factor_row w d f -> clock w <= clock w' ->
  d' (attempts (FACTOR_PATHS f)) = d (attempts (FACTOR_PATHS f)) -> d' (until (FACTOR_PATHS f)) = d (until (FACTOR_PATHS f)) ->
  d' (ep f) = d (ep f) -> d' (notified (FACTOR_PATHS f)) = d (notified (FACTOR_PATHS f)) -> factor_row w' d' f.
Proof.
  intros [H1 H2 H3 H4 H5] Hc E1 E2 E3 E4. constructor; rewrite ?E1, ?E2, ?E3, ?E4; auto.
  - intros u E%H2. lia.
  - intros t E%H4. lia.
Qed.

Lemma clear_rows w d f f' : factor_row w d f' -> factor_row w (clearLockoutStateOnDocument d f) f'.
Proof.
  intros Hf. destruct f, f'; try (by apply (factor_row_same w _ d)); apply factor_row_clear; row_simpl; auto.
Qed.

Lemma remove_sf_rows w w' d f : factor_row w d f -> clock w' = clock w -> ∀ d', d' failedLoginAttempts = d failedLoginAttempts ->
  d' lockoutUntil = d lockoutUntil -> d' lockoutEpisodeId = d lockoutEpisodeId -> d' lockoutNotifiedAt = d lockoutNotifiedAt ->
  factor_row w' (remove secondFactorLockout d') f.
Proof.
  intros Hf Hc d' E1 E2 E3 E4. destruct f; [|apply factor_row_clear; row_simpl; auto].
  apply (factor_row_same w _ d); [done|lia|done..].
Qed.

Lemma row_step_locks w m d d' f : row_step false w m d d' -> factor_row w d f -> factor_row (written m d' w) d' f.
Proof.
  intros Hs Hf. enough (factor_row w d' f) as Hw by (by apply (factor_row_same w _ d')).
  destruct Hs as [g n d Hn Hlt|g now d Hnow|g e now d Hnow He Hm|g d|g e token d Ht Hg Hst He Hdp| | | | | |
    s k d Hen Hp Hu|s k d Hse Hu| | | | |d0 d ?]; try done;
    try (by apply (factor_row_same w _ d); destruct f).
  - destruct Hf as [H1 H2 H3 H4 H5]. unfold MAX_LOGIN_ATTEMPTS in *.
    destruct g, f; constructor; row_simpl; auto; unfold MAX_LOGIN_ATTEMPTS; intros n' [= <-]; (destruct Hn as [[_ ->]|Hn]; [lia|apply H1 in Hn; lia]).
  - destruct Hf as [H1 H2 H3 H4 H5]. destruct g, f; constructor; row_simpl; auto; try (by intros u [= <-]; lia);
      try (destruct (d _); cbn; by split; eauto); by intros _; destruct (d _); cbn; eauto.
  - destruct Hf as [H1 H2 H3 H4 H5]. destruct g, f; constructor; row_simpl; auto; try (by intros u [= <-]); by intros _; rewrite He.
  - by apply clear_rows.
  - by apply clear_rows.
  - by apply (remove_sf_rows w _ d).
  - by apply (remove_sf_rows w _ d).
Qed.

Lemma lock_invariant : Invariant false lock_ok.
Proof.
  constructor.
  - intros hash verified t d f [= <-]. apply factor_row_clear; destruct f; auto.
  - intros w t Ht Hw d f Hu. apply (factor_row_same w _ d); [by apply Hw|done..].
  - intros w w' Hw _ Hm. destruct Hm as [|m d d' Hu Hr|expires|jti now c Ho| |f e].
    2: { intros d1 f [= <-]. eapply row_step_locks; [done|]. by apply Hw. }
    all: intros d f' Hu; apply (factor_row_same w _ d); [by apply Hw|done..].
  - by intros w Hw d f.
  - intros w jti Hw d f Hu. apply (factor_row_same w _ d); [by apply Hw|done..].
Qed.

Lemma typed_date d p t : Row_typed d -> typed p (VDate t) -> is_Some (d p) -> ∃ u, d p = Some (VDate u).
Proof. intros Hd Ht [v E]. pose proof (Hd p v E). destruct p, v; try done; eauto. Qed.

Lemma typed_string d p t : Row_typed d -> typed p (VStr t) -> is_Some (d p) -> ∃ u, d p = Some (VStr u).
Proof. intros Hd Ht [v E]. pose proof (Hd p v E). destruct p, v; try done; eauto. Qed.

(** C15: The brake stays within its bounds however failures, sign-ins, unlocks and erasures are interleaved
    (no password being reset): each factor's counter is between 0 and 10; a factor is locked exactly
    when it has an episode, which is never the empty text; its deadline is at most thirty minutes
    away; and the two factors never share an episode. *)
Theorem lockout_bounds faults s d f :
  reachable false faults s -> user (world s) = Some d ->
  0 <= failedAttempts d f <= MAX_LOGIN_ATTEMPTS /\
  match date_at d (until (FACTOR_PATHS f)), unlockEpisodeOf d f with
  | Some u, Some e => u <= clock (world s) + LOCKOUT_DURATION_MS /\ e <> [] /\
      ∀ f', f' <> f -> unlockEpisodeOf d f' <> Some e
  | None, None => d (until (FACTOR_PATHS f)) = None
  | _, _ => False
  end.
Proof.
  intros Hs Hu. destruct (reachable_invariant false faults _ s lock_invariant Hs) as (Hl & Ht & _).
  destruct (reachable_invariant false faults _ s (episodes_invariant false) Hs) as (He & _ & _).
  destruct (Hl d f Hu) as [H1 H2 H3 H4 H5]. specialize (Ht d Hu). destruct (eo_row _ He d Hu) as [G1 _ G3].
  split.
  { unfold failedAttempts, num_at. destruct (d (attempts _)) as [[]|] eqn:E; cbn; try (unfold MAX_LOGIN_ATTEMPTS; lia). by apply H1. }
  unfold date_at, unlockEpisodeOf, str_at. destruct (d (until _)) as [v|] eqn:E.
  - assert (is_Some (d (ep f))) as Hep by (apply H3; eauto).
    destruct (typed_date d (until (FACTOR_PATHS f)) 0 Ht) as [u Eu]; [by destruct f|by eexists|]. rewrite Eu in E. injection E as <-.
    destruct (typed_string d (ep f) [] Ht) as [e Ee]; [by destruct f|done|]. rewrite Ee. split; [by apply H2|]. split.
    + destruct (G1 f e Ee) as (i & _ & ->). apply random_nonempty.
    + intros f' Hne E'. destruct (d (ep f')) as [[]|] eqn:Ef'; try done. injection E' as ->.
      destruct f, f'; try done; by eapply G3.
  - destruct (d (ep f)) eqn:Ee; [|done]. assert (is_Some (@None Value)) as [? ?] by (apply H3; eauto). done.
Qed.
End spec.

(** ** A lockout and its link *)

(** The presses of a wrong password, the tenth of which locks, and the mailed link. *)
Definition sample_lockout : System :=
  let s := initial (js "pw") true 0 in
  let s := foldl (λ s t, after t (Login (js "guess") None false) s) s (map Z.of_nat (seq 1 10)) in
  after 2000 (UnlockAccount {| mailed_factor := password; mailed_state := sample_text 80; mailed_iat := 0 |} false) s.

Lemma sample_lockout_reachable faults : reachable false faults sample_lockout.
Proof.
  unfold sample_lockout. cbn [seq map foldl].
  repeat (apply reachable_after; [|vm_compute; discriminate|first [exact I|vm_compute; by left]]). apply reachable_initial.
Qed.

Lemma unlock_once_witness :
  unlocked (world sample_lockout) = [(password, sample_text 80)] /\
  NoDup (map snd (unlocked (world sample_lockout))) /\
  ∀ f e, (f, e) ∈ unlocked (world sample_lockout) ->
    (∃ m, m ∈ mails (world sample_lockout) /\ mailed_factor m = f /\ mailed_state m = sha256 e) /\
    ∀ d f', user (world sample_lockout) = Some d -> unlockEpisodeOf d f' <> Some e.
Proof. split; [vm_compute; reflexivity|]. apply (unlock_once false true), sample_lockout_reachable. Defined.

(** The state the ten guesses leave. *)
Definition sample_locked : System :=
  foldl (λ s t, after t (Login (js "guess") None false) s) (initial (js "pw") true 0) (map Z.of_nat (seq 1 10)).

Lemma sample_locked_reachable faults : reachable false faults sample_locked.
Proof.
  unfold sample_locked. cbn [seq map foldl]. repeat (apply reachable_after; [|vm_compute; discriminate|exact I]).
  apply reachable_initial.
Qed.

Lemma lockout_bounds_witness :
  let d := default (registered [] false) (user (world sample_locked)) in
  (failedAttempts d password = 10 /\ date_at d lockoutUntil = Some 1800010 /\ unlockEpisodeOf d password = Some (sample_text 80)) /\
  0 <= failedAttempts d password <= MAX_LOGIN_ATTEMPTS /\
  match date_at d (until (FACTOR_PATHS password)), unlockEpisodeOf d password with
  | Some u, Some e => u <= clock (world sample_locked) + LOCKOUT_DURATION_MS /\ e <> [] /\
      ∀ f', f' <> password -> unlockEpisodeOf d f' <> Some e
  | None, None => d (until (FACTOR_PATHS password)) = None
  | _, _ => False
  end.
Proof.
  intros d. split; [split_and!; vm_compute; reflexivity|].
  apply (lockout_bounds true sample_locked d password); [apply sample_locked_reachable|vm_compute; reflexivity].
Defined.

(** ** A reset against a lock *)

(** A link mailed for a factor without an episode is refused, whenever it is followed. *)
Lemma unlock_without_episode `{Crypto} answer m holds w d : user w = Some d -> unlockEpisodeOf d (mailed_factor m) = None ->
  snd (run answer (unlockAccount m holds) w) = Throw (BadRequest TOKEN_INVALID).
Proof.
  intros Hu He. unfold unlockAccount. rewrite alone_await. cbn [run call exec ret]. destruct (link_live m (clock w)); [|done]. cbn [negb]. cbv zeta.
  rewrite alone_await. cbn [run call exec ret]. rewrite Hu. destruct (true_at d deletionPending); [done|]. by rewrite He.
Qed.

(** The save of a reset, on the four facts of the password lockout. *)
Lemma reset_row_lockout d0 t d : d0 lockoutUntil = None ->
  reset_row d0 t d lockoutUntil = d lockoutUntil /\ reset_row d0 t d lockoutEpisodeId = None.
Proof.
  intros E. unfold reset_row. rewrite E. destruct (true_at d0 rotationInProgress), (failedAttempts d0 password =? 0); split; by row_simpl.
Qed.

(** C39: [resetPassword] saves the copy it loaded: the deadline is unset only where that copy had one, while
    the episode and the mail's time, which it never loads, are unset always.  So whenever a reset that
    loaded a row without a deadline ([d0]) is about to save and the row meanwhile has one, the save keeps
    the deadline and takes the episode: until then the account is locked, with no episode, and every
    link mailed for its password is refused, whenever it is followed. *)
Theorem reset_leaves_lock_without_episode `{Crypto} faults s i d0 k d u :
  requests s !! i = Some (Call (FindOneAndUpdate [] (resetUpdate d0) NoMark) k) -> d0 lockoutUntil = None ->
  user (world s) = Some d -> date_at d lockoutUntil = Some u ->
  ∃ s' d', step true faults s s' /\ requests s' = <[i := k (Some (Some d'))]> (requests s) /\ user (world s') = Some d' /\
    mails (world s') = mails (world s) /\ (∀ now, now < u -> passwordLocked (evaluateAccountStatus d' now) = true) /\ unlockEpisodeOf d' password = None /\
    ∀ answer m holds t, m ∈ mails (world s') -> mailed_factor m = password ->
      snd (run answer (unlockAccount m holds) (set_clock t (world s'))) = Throw (BadRequest TOKEN_INVALID).
Proof.
  intros Hi Hd0 Hu Hd. set (d' := reset_row d0 (fresh_text (fresh_texts (world s))) d). destruct (reset_row_lockout d0 (fresh_text (fresh_texts (world s))) d Hd0) as [E1 E2].
  assert (unlockEpisodeOf d' password = None) as Hep by (unfold unlockEpisodeOf, str_at, d'; cbn [FACTOR_PATHS episode]; by rewrite E2).
  eexists {| world := log_mark NoMark (draw (set_user (Some d') (world s))); requests := <[i := k (Some (Some d'))]> (requests s) |}, d'.
  split_and!; [|done|done|done| |done|].
  - apply (step_run true faults s i _ _ k true _ (Some (Some d')) Hi). cbn [exec]. rewrite Hu. cbn [matches forallb]. by rewrite reset_row_eq.
  - intros now Hn. unfold evaluateAccountStatus. cbn [passwordLocked]. unfold date_at, d' in *. rewrite E1. destruct (d lockoutUntil) as [[]|]; try done.
    injection Hd as ->. cbn. lia.
  - intros answer m holds t _ Hm. apply (unlock_without_episode _ m holds _ d'); [done|by rewrite Hm].
Qed.

(** Nine guesses; a reset reads the row; the tenth guess locks it and mails the link; the reset is at its save. *)
Definition sample_reset_race : System :=
  let s := foldl (λ s t, after t (Login (js "guess") None false) s) (initial (js "pw") true 0) (map Z.of_nat (seq 1 9)) in
  let s := Nat.iter 1 (advance 9) (enter (ResetPassword (js "pw") true) s) in
  let s := after 10 (Login (js "guess") None false) s in
  Nat.iter 5 (advance 9) s.

Lemma sample_reset_race_reachable : reachable true false sample_reset_race.
Proof.
  unfold sample_reset_race. cbn [seq map foldl]. cbv zeta. apply reachable_advance.
  apply reachable_after; [|vm_compute; discriminate|exact I]. apply reachable_advance. apply reachable_enter; [|reflexivity].
  repeat (apply reachable_after; [|vm_compute; discriminate|exact I]). apply reachable_initial.
Qed.

(** The row the reset loaded. *)
Definition sample_loaded : Doc :=
  default (registered [] false) (user (world (foldl (λ s t, after t (Login (js "guess") None false) s) (initial (js "pw") true 0) (map Z.of_nat (seq 1 9))))).

Lemma sample_at_save : ∃ k, requests sample_reset_race !! 9%nat = Some (Call (FindOneAndUpdate [] (resetUpdate sample_loaded) NoMark) k).
Proof. vm_compute. by eexists. Qed.

Lemma reset_leaves_lock_without_episode_witness :
  reachable true false sample_reset_race /\
  ∃ s' d', step true false sample_reset_race s' /\ user (world s') = Some d' /\ unlockEpisodeOf d' password = None /\ length (mails (world s')) = 1%nat /\
    (∀ now, now < 1800010 -> passwordLocked (evaluateAccountStatus d' now) = true) /\
    ∀ answer m holds t, m ∈ mails (world s') -> mailed_factor m = password ->
      snd (run answer (unlockAccount m holds) (set_clock t (world s'))) = Throw (BadRequest TOKEN_INVALID).
Proof.
  split; [exact sample_reset_race_reachable|]. destruct sample_at_save as [k Hk].
  assert (user (world sample_reset_race) = Some (default (registered [] false) (user (world sample_reset_race)))) as Hu by (vm_compute; reflexivity).
  assert (date_at (default (registered [] false) (user (world sample_reset_race))) lockoutUntil = Some 1800010) as Hd by (vm_compute; reflexivity).
  destruct (reset_leaves_lock_without_episode false sample_reset_race 9 sample_loaded k _ 1800010 Hk eq_refl Hu Hd) as (s' & d' & A1 & _ & A2 & A3 & A4 & A5 & A6).
  exists s', d'. rewrite A3. split; [exact A1|]. split; [exact A2|]. split; [exact A5|]. split; [vm_compute; reflexivity|]. split; [exact A4|]. rewrite <- A3. exact A6.
Defined.

Local Open Scope Z_scope.

Section mail.
Context `{CryptoLaws}.

Abbreviation ep f := (episode (FACTOR_PATHS f)).

(** ** The next command of a request *)

Inductive Next := N_done | N_find | N_update (m : Mark) | N_pipeline | N_send (f : LockoutFactor) (state : jsstr)
  | N_external | N_other.

Definition next {R} (p : prog R) : Next :=
  match p with
  | Done _ => N_done
  | Call c _ => match c with
                | FindUser => N_find
                | FindOneAndUpdate _ _ m => N_update m
                | PipelineUpdate _ _ => N_pipeline
                | SendUnlockEmail f st => N_send f st
                | External _ => N_external
                | _ => N_other
                end
  end.

Definition find_cont {R} (p : prog R) : option (option (option Doc) -> prog R) :=
  match p with
  | Call c k => match c in cmd X return (option X -> prog R) -> option (option (option Doc) -> prog R) with
                | FindUser => λ k, Some k
                | _ => λ _, None
                end k
  | _ => None
  end.

Definition update_cont {R} (p : prog R) : option (Filter * (list jsstr -> Update) * (option (option Doc) -> prog R)) :=
  match p with
  | Call c k => match c in cmd X return (option X -> prog R) -> option (Filter * (list jsstr -> Update) * (option (option Doc) -> prog R)) with
                | FindOneAndUpdate f u _ => λ k, Some (f, u, k)
                | _ => λ _, None
                end k
  | _ => None
  end.

Definition external_cont {R} (p : prog R) : option (option bool -> prog R) :=
  match p with
  | Call c k => match c in cmd X return (option X -> prog R) -> option (option bool -> prog R) with
                | External _ => λ k, Some k
                | _ => λ _, None
                end k
  | _ => None
  end.

(** ** The obligations *)

Definition pending {R} (f : LockoutFactor) (u : Z) (e : jsstr) (p : prog R) : Prop := reads_back f u p \/ claims_mail f e u p.

Lemma pending_next {R} f u e (p : prog R) : pending f u e p -> next p = N_find \/ next p = N_update (Claims f).
Proof. intros [(k & -> & _)|(now & k & _ & -> & _)]; auto. Qed.

Lemma sends_next {R} f e (p : prog R) : sends_mail f e p -> next p = N_send f (sha256 e) \/ next p = N_external.
Proof. intros [(k & ->)|(n & k & -> & _)]; auto. Qed.

Definition owed {R} (P : prog R -> Prop) (rs : list (prog R)) : Prop := ∃ i p, rs !! i = Some p /\ P p.

(** A link is claimed for the deadline, or a request is about to. *)
Definition link_due (f : LockoutFactor) (w : World) (rs : list (async Response)) : Prop :=
  ∀ d u e, user w = Some d -> d (until (FACTOR_PATHS f)) = Some (VDate u) -> d (ep f) = Some (VStr e) ->
    (∃ t, d (notified (FACTOR_PATHS f)) = Some (VDate t) /\ u - UNLOCK_TOKEN_TTL_MS <= t) \/ owed (pending f u e) rs.

(** A link claimed was mailed, or a request is about to. *)
Definition mail_due (f : LockoutFactor) (w : World) (rs : list (async Response)) : Prop :=
  ∀ d e t, user w = Some d -> d (ep f) = Some (VStr e) -> d (notified (FACTOR_PATHS f)) = Some (VDate t) ->
    (∃ m, m ∈ mails w /\ mailed_factor m = f /\ mailed_state m = sha256 e /\ t / 1000 <= mailed_iat m)
    \/ owed (sends_mail f e) rs.

Lemma owed_start {R} (P : prog R -> Prop) rs p : owed P rs -> owed P (rs ++ [p]).
Proof. intros (i & q & Hi & Hq). exists i, q. split; [by apply lookup_app_l_Some|done]. Qed.

Lemma owed_now {R} (P : prog R -> Prop) rs i p q : rs !! i = Some p -> P q -> owed P (<[i := q]> rs).
Proof. intros Hp Hq. exists i, q. split; [apply list_lookup_insert_eq; by eapply lookup_lt_Some|done]. Qed.

(** ** What a write does to a factor's four facts *)

Definition same_factor (f : LockoutFactor) (d d' : Doc) : Prop :=
  d' (until (FACTOR_PATHS f)) = d (until (FACTOR_PATHS f)) /\ d' (ep f) = d (ep f) /\
  d' (notified (FACTOR_PATHS f)) = d (notified (FACTOR_PATHS f)).

Definition free_factor (f : LockoutFactor) (d' : Doc) : Prop := d' (until (FACTOR_PATHS f)) = None /\ d' (ep f) = None.

Lemma row_step_quiet w m d d' f : row_step false w m d d' -> (∀ g, m <> Locks g) -> (∀ g, m <> Claims g) ->
  same_factor f d d' \/ free_factor f d'.
Proof.
  intros Hs Hl Hc. destruct Hs as [g n d Hn Hlt|g now d Hnow|g e now d Hnow He Hm|g d|g e token d Ht Hg Hst He Hdp| | | | | |
    s k d Hen Hp Hu|s k d Hse Hu| | | | |d0 d ?]; try done; try (left; by destruct f).
  - left. by destruct g, f.
  - by destruct (Hl g).
  - by destruct (Hc g).
  - destruct g, f; ((left; by row_simpl) || (right; by row_simpl)).
  - destruct g, f; ((left; by row_simpl) || (right; by row_simpl)).
  - destruct f; [left; by row_simpl | right; by row_simpl].
  - destruct f; [left; by row_simpl | right; by row_simpl].
Qed.

Lemma row_step_claim w g d d' : row_step false w (Claims g) d d' ->
  (∀ f, f <> g -> same_factor f d d') /\ d' (until (FACTOR_PATHS g)) = d (until (FACTOR_PATHS g)) /\ d' (ep g) = d (ep g) /\
  ∃ now, d' (notified (FACTOR_PATHS g)) = Some (VDate now) /\
    (d (notified (FACTOR_PATHS g)) = None \/
     ∃ t, d (notified (FACTOR_PATHS g)) = Some (VDate t) /\ t < now + LOCKOUT_DURATION_MS - UNLOCK_TOKEN_TTL_MS).
Proof.
  intros Hs. inversion Hs as [| |f e now d0 Hn He Hm| | | | | | | | | | | | | |]; subst. rename g into f. split_and!.
  - intros g Hne. by destruct f, g.
  - by destruct f.
  - by destruct f.
  - exists now. split; [by destruct f|done].
Qed.

Lemma lock_row_effect g now texts d (d' := apply_pipeline (lock_sets g (now + LOCKOUT_DURATION_MS) texts) d) :
  (∀ f, f <> g -> same_factor f d d') /\ d' (until (FACTOR_PATHS g)) = Some (VDate (now + LOCKOUT_DURATION_MS)) /\
  d' (ep g) = Some (default (VStr (fresh_text texts)) (d (ep g))) /\
  d' (notified (FACTOR_PATHS g)) = d (notified (FACTOR_PATHS g)).
Proof. split_and!; [intros f Hne; by destruct f, g|by destruct g..]. Qed.

Lemma mail_filter_episode f e u d : Row_typed d -> matches (mail_filter f e u) d = true -> d (ep f) = Some (VStr e).
Proof.
  intros Hd Hm. unfold matches, mail_filter in Hm. cbn [forallb clause_holds] in Hm. apply andb_true_iff in Hm as [He _].
  apply string_eq in He; [done|done|]. by destruct f; intros ? [].
Qed.

(** A claim that does not match finds a link that outlives the deadline. *)
Lemma mail_filter_declined f e u d : Row_typed d -> matches (mail_filter f e u) d = false -> d (ep f) = Some (VStr e) ->
  ∃ t, d (notified (FACTOR_PATHS f)) = Some (VDate t) /\ u - UNLOCK_TOKEN_TTL_MS <= t.
Proof.
  intros Hd Hm He. unfold matches, mail_filter in Hm. cbn [forallb clause_holds existsb] in Hm. rewrite He in Hm.
  assert (cond_holds (Eq_ (VStr e)) (Some (VStr e)) = true) as E by (cbn; by apply bool_decide_eq_true). rewrite E in Hm.
  rewrite !andb_true_r, orb_false_r, andb_true_l in Hm. apply orb_false_iff in Hm as [Hn Hl].
  destruct (d (notified (FACTOR_PATHS f))) as [v|] eqn:En; [|done]. pose proof (Hd _ _ En) as Ht.
  destruct f, v; try done; cbn in Hl; eexists; (split; [done|lia]).
Qed.

(** ** The obligations survive every step *)

#[local] Instance is_claim_dec (m : Mark) : Decision (∃ g, m = Claims g).
Proof. destruct m; try (right; by intros [? ?]). left. by eexists. Defined.

Definition mail_ok (w : World) (rs : list (async Response)) : Prop := ∀ f, link_due f w rs /\ mail_due f w rs.

Definition mailed (w : World) (f : LockoutFactor) (e : jsstr) (t : Z) : Prop :=
  ∃ m, m ∈ mails w /\ mailed_factor m = f /\ mailed_state m = sha256 e /\ t / 1000 <= mailed_iat m.

(** A step that leaves a factor as it was, and either keeps or settles what its request owed. *)
Lemma link_due_same f w w' rs i p q : link_due f w rs -> rs !! i = Some p ->
  (∀ d', user w' = Some d' -> ∃ d, user w = Some d /\ same_factor f d d' \/ free_factor f d') ->
  (∀ d u e, user w = Some d -> d (ep f) = Some (VStr e) -> pending f u e p -> pending f u e q \/
     ∃ t, d (notified (FACTOR_PATHS f)) = Some (VDate t) /\ u - UNLOCK_TOKEN_TTL_MS <= t) ->
  link_due f w' (<[i := q]> rs).
Proof.
  intros Hl Hp Hsame Hq d' u e Hu' Eu Ee. destruct (Hsame d' Hu') as (d & [[Hu (E1 & E2 & E3)]|[E1 _]]); [|congruence].
  rewrite E1 in Eu. rewrite E2 in Ee. rewrite E3. destruct (Hl d u e Hu Eu Ee) as [?|(j & r & Hj & Hr)]; [by left|].
  destruct (decide (i = j)) as [->|Hne].
  - assert (r = p) as -> by (pose proof (eq_trans (eq_sym Hj) Hp) as E; by injection E). destruct (Hq d u e Hu Ee Hr); [right; by eapply owed_now|by left].
  - right. exists j, r. by rewrite list_lookup_insert_ne.
Qed.

Lemma mail_due_same f w w' rs i p q : mail_due f w rs -> rs !! i = Some p ->
  (∀ d', user w' = Some d' -> ∃ d, user w = Some d /\ same_factor f d d' \/ free_factor f d') ->
  (∀ m, m ∈ mails w -> m ∈ mails w') ->
  (∀ d e t, user w = Some d -> d (notified (FACTOR_PATHS f)) = Some (VDate t) -> sends_mail f e p -> sends_mail f e q \/ mailed w' f e t) ->
  mail_due f w' (<[i := q]> rs).
Proof.
  intros Hl Hp Hsame Hm Hq d' e t Hu' Ee Et. destruct (Hsame d' Hu') as (d & [[Hu (E1 & E2 & E3)]|[_ E2]]); [|congruence].
  rewrite E2 in Ee. rewrite E3 in Et.
  destruct (Hl d e t Hu Ee Et) as [(m & Hin & Hx)|(j & r & Hj & Hr)]; [left; exists m; auto|].
  destruct (decide (i = j)) as [->|Hne].
  - assert (r = p) as -> by (pose proof (eq_trans (eq_sym Hj) Hp) as E; by injection E). destruct (Hq d e t Hu Et Hr); [right; by eapply owed_now|by left].
  - right. exists j, r. by rewrite list_lookup_insert_ne.
Qed.

Lemma same_user f (w w' : World) : user w' = user w ->
  ∀ d', user w' = Some d' -> ∃ d, user w = Some d /\ same_factor f d d' \/ free_factor f d'.
Proof. intros E d' Hu. exists d'. left. by rewrite <- E. Qed.

(** A command that touches neither the row nor the mail. *)
Lemma mail_ok_other w w' rs i p q : mail_ok w rs -> rs !! i = Some p -> user w' = user w -> mails w' = mails w ->
  (∀ f u e d, user w = Some d -> d (ep f) = Some (VStr e) -> pending f u e p -> pending f u e q) ->
  (∀ f e, sends_mail f e p -> sends_mail f e q) -> mail_ok w' (<[i := q]> rs).
Proof.
  intros Hok Hp Eu Em Hpend Hsend f. destruct (Hok f) as [Hl Hm]. split.
  - eapply link_due_same; [done|done|by apply same_user|]. intros d u e Hu Ee Hq. left. by eapply Hpend.
  - eapply mail_due_same; [done|done|by apply same_user|by rewrite Em|]. intros d e t _ _ Hq. left. by apply Hsend.
Qed.

(** What a state gives the steps. *)
Record facts (w : World) : Prop := {
  f_typed d : user w = Some d -> Row_typed d;
  f_locks : lock_ok w;
  f_texts d f e : user w = Some d -> d (ep f) = Some (VStr e) -> e <> [];
}.

Lemma reachable_facts faults s : reachable false faults s -> facts (world s).
Proof.
  intros Hs. destruct (reachable_invariant false faults _ s lock_invariant Hs) as (Hl & Ht & _).
  destruct (reachable_invariant false faults _ s (episodes_invariant false) Hs) as (He & _ & _).
  constructor; [done..|]. intros d f e Hu E. destruct (er_drawn _ _ (eo_row _ He d Hu) f e E) as (i & _ & ->).
  apply random_nonempty.
Qed.

Lemma mail_ok_find w rs i k : facts w -> mail_ok w rs -> rs !! i = Some (Call FindUser k) ->
  mail_ok w (<[i := k (Some (user w))]> rs).
Proof.
  intros Hf Hok Hi. eapply mail_ok_other; [done|done|done|done| |].
  - intros f u e d Hu Ee [(k' & E & Hk)|(n & k' & _ & E & _)]; [|by apply (f_equal next) in E].
    apply (f_equal find_cont) in E. injection E as ->. right. rewrite Hu. apply Hk.
    + unfold unlockEpisodeOf, str_at. by rewrite Ee.
    + by eapply f_texts.
  - intros f e Hs. by apply sends_next in Hs as [?|?].
Qed.

Lemma mail_ok_external w rs i n k answer : mail_ok w rs -> rs !! i = Some (Call (External n) k) ->
  mail_ok w (<[i := k (Some answer)]> rs).
Proof.
  intros Hok Hi. eapply mail_ok_other; [done|done|done|done| |].
  - intros f u e d _ _ Hp. by apply pending_next in Hp as [?|?].
  - intros f e [(k' & E)|(n' & k' & E & Hk)]; [by apply (f_equal next) in E|].
    apply (f_equal external_cont) in E. injection E as ->. destruct (Hk answer) as [k2 E]. rewrite E. left. by eexists.
Qed.

Lemma mail_ok_send w rs i f st k : facts w -> mail_ok w rs -> rs !! i = Some (Call (SendUnlockEmail f st) k) ->
  mail_ok (add_mail {| mailed_factor := f; mailed_state := st; mailed_iat := clock w / 1000 |} w) (<[i := k (Some tt)]> rs).
Proof.
  intros Hf Hok Hi g. destruct (Hok g) as [Hl Hm]. split.
  - eapply link_due_same; [done|done|by apply same_user|]. intros d u e _ _ Hp. by apply pending_next in Hp as [?|?].
  - eapply mail_due_same; [done|done|by apply same_user|intros m Hin; by right|].
    intros d e t Hu Et Hs. right. apply sends_next in Hs as [[= -> ->]|?]; [|done].
    eexists. split; [by left|]. split_and!; [done|done|]. cbn. apply Z.div_le_mono; [done|].
    by eapply fr_notified; [apply (f_locks w Hf d g)|].
Qed.

Lemma claims_same f e u filter update m k : claims_mail f e u (Call (FindOneAndUpdate filter update m) k : async Response) ->
  filter = mail_filter f e u /\ m = Claims f /\ ∃ now, u = now + LOCKOUT_DURATION_MS /\ update = claim_update f now.
Proof.
  intros (now & k' & -> & E & _). pose proof (f_equal next E) as En. injection En as ->.
  apply (f_equal update_cont) in E. injection E as -> -> ->. split_and!; [done..|]. by exists now.
Qed.

Lemma pending_update f e u filter update m k : pending f u e (Call (FindOneAndUpdate filter update m) k : async Response) ->
  filter = mail_filter f e u /\ m = Claims f /\ ∃ now, u = now + LOCKOUT_DURATION_MS /\ update = claim_update f now.
Proof. intros [(k' & E & _)|Hc]; [by apply (f_equal next) in E|by eapply claims_same]. Qed.

Lemma mail_ok_declined w rs i filter update m k : facts w -> mail_ok w rs ->
  rs !! i = Some (Call (FindOneAndUpdate filter update m) k) ->
  (∀ d, user w = Some d -> matches filter d = false) -> mail_ok w (<[i := k (Some None)]> rs).
Proof.
  intros Hf Hok Hi Hn f. destruct (Hok f) as [Hl Hm]. split.
  - eapply link_due_same; [done|done|by apply same_user|]. intros d u e Hu Ee Hp. right.
    apply pending_update in Hp as (-> & _ & _). eapply mail_filter_declined; [by eapply f_typed|by apply Hn|done].
  - eapply mail_due_same; [done|done|by apply same_user|done|]. intros d e t _ _ Hs. by apply sends_next in Hs as [?|?].
Qed.

(** A write other than a claim. *)
Lemma mail_ok_quiet w rs i filter update m k d d' x : mail_ok w rs -> rs !! i = Some (Call (FindOneAndUpdate filter update m) k) ->
  user w = Some d -> row_step false w m d d' -> (∀ g, m <> Locks g) -> (∀ g, m <> Claims g) ->
  mail_ok (written m d' w) (<[i := k x]> rs).
Proof.
  intros Hok Hi Hu Hs Hlk Hcl f. destruct (Hok f) as [Hl Hm].
  assert (∀ d1, user (written m d' w) = Some d1 -> ∃ d, user w = Some d /\ same_factor f d d1 \/ free_factor f d1) as Hsame.
  { intros d1 [= <-]. exists d. destruct (row_step_quiet w m d d' f Hs Hlk Hcl); auto. }
  split.
  - eapply link_due_same; [done|done|exact Hsame|]. intros d1 u e _ _ Hp.
    apply pending_update in Hp as (_ & -> & _). by destruct (Hcl f).
  - eapply mail_due_same; [done|done|exact Hsame|done|]. intros d1 e t _ _ Hp. by apply sends_next in Hp as [?|?].
Qed.

Lemma mail_ok_claim w rs i filter update g k d d' e until_ : facts w -> mail_ok w rs ->
  rs !! i = Some (Call (FindOneAndUpdate filter update (Claims g)) k) -> user w = Some d -> matches filter d = true ->
  filter = mail_filter g e until_ -> apply_update (update (fresh_texts w)) d = Some d' ->
  row_step false w (Claims g) d d' -> issued_write false w filter update (Claims g) ->
  sends_mail g e (k (Some (Some d'))) -> mail_ok (written (Claims g) d' w) (<[i := k (Some (Some d'))]> rs).
Proof.
  intros Hf Hok Hi Hu Hmatch -> Ha Hs Hw Hk f. destruct (Hok f) as [Hl Hm].
  destruct (row_step_claim _ _ _ _ Hs) as (Hother & E1 & E2 & now & En & Hlate).
  pose proof (f_typed w Hf d Hu) as Ht. pose proof (mail_filter_episode _ _ _ _ Ht Hmatch) as Ee.
  destruct (decide (f = g)) as [->|Hne].
  2: { assert (∀ d1, user (written (Claims g) d' w) = Some d1 -> ∃ d, user w = Some d /\ same_factor f d d1 \/ free_factor f d1) as Hsame.
       { intros d1 [= <-]. exists d. auto. }
       split.
       - eapply link_due_same; [done|done|exact Hsame|]. intros d1 u e1 _ _ Hp. apply pending_update in Hp as (_ & [= ->] & _). done.
       - eapply mail_due_same; [done|done|exact Hsame|done|]. intros d1 e1 t _ _ Hp. by apply sends_next in Hp as [?|?]. }
  split.
  - intros d1 u e1 [= <-] Eu Ee1. rewrite E1 in Eu. rewrite E2, Ee in Ee1. injection Ee1 as <-.
    destruct (Hl d u e Hu Eu Ee) as [(t & Et & Hlive)|(j & r & Hj & Hr)].
    + left. exists now. split; [done|]. destruct Hlate as [E|(t' & Et' & Hlt)]; [congruence|].
      rewrite Et' in Et. injection Et as ->. unfold UNLOCK_TOKEN_TTL_MS, UNLOCK_TOKEN_TTL_MINUTES, LOCKOUT_DURATION_MS, LOCKOUT_DURATION_MINUTES in *. lia.
    + destruct (decide (i = j)) as [->|Hij]; [|right; exists j, r; by rewrite list_lookup_insert_ne].
      assert (r = Call (FindOneAndUpdate (mail_filter g e until_) update (Claims g)) k) as ->
        by (pose proof (eq_trans (eq_sym Hj) Hi) as E; by injection E).
      apply pending_update in Hr as (_ & _ & now' & -> & ->). left. exists now. split; [done|].
      assert (now = now') as ->.
      { destruct g; cbn in Ha; injection Ha as <-; cbn in En; by injection En. }
      unfold UNLOCK_TOKEN_TTL_MS, UNLOCK_TOKEN_TTL_MINUTES, LOCKOUT_DURATION_MS, LOCKOUT_DURATION_MINUTES. lia.
  - intros d1 e1 t [= <-] Ee1 _. rewrite E2, Ee in Ee1. injection Ee1 as <-. right. by eapply owed_now.
Qed.

Lemma mail_ok_lock w rs i g now k d filter sets : facts w -> mail_ok w rs ->
  rs !! i = Some (Call (PipelineUpdate filter sets) k) -> user w = Some d ->
  sets = lock_sets g (now + LOCKOUT_DURATION_MS) -> reads_back g (now + LOCKOUT_DURATION_MS) (k (Some true)) ->
  mail_ok (draw (set_user (Some (apply_pipeline (sets (fresh_texts w)) d)) w)) (<[i := k (Some true)]> rs).
Proof.
  intros Hf Hok Hi Hu -> Hk f. destruct (Hok f) as [Hl Hm].
  destruct (lock_row_effect g now (fresh_texts w) d) as (Hother & E1 & E2 & E3).
  set (d' := apply_pipeline _ _) in *. set (w' := draw _).
  destruct (decide (f = g)) as [->|Hne].
  2: { assert (∀ d1, user w' = Some d1 -> ∃ d, user w = Some d /\ same_factor f d d1 \/ free_factor f d1) as Hsame.
       { intros d1 [= <-]. exists d. auto. }
       split.
       - eapply link_due_same; [done|done|exact Hsame|]. intros d1 u e1 _ _ Hp. by apply pending_next in Hp as [?|?].
       - eapply mail_due_same; [done|done|exact Hsame|done|]. intros d1 e1 t _ _ Hp. by apply sends_next in Hp as [?|?]. }
  split.
  - intros d1 u e [= <-] Eu Ee. rewrite E1 in Eu. injection Eu as <-. right. eapply owed_now; [done|]. by left.
  - intros d1 e t [= <-] Ee Et. rewrite E3 in Et. rewrite E2 in Ee.
    destruct (d (ep g)) as [v|] eqn:Ev.
    + cbn in Ee. injection Ee as ->. destruct (Hm d e t Hu Ev Et) as [?|(j & r & Hj & Hr)]; [by left|right].
      destruct (decide (i = j)) as [->|Hij]; [|exists j, r; by rewrite list_lookup_insert_ne].
      assert (r = Call (PipelineUpdate filter (lock_sets g (now + LOCKOUT_DURATION_MS))) k) as ->
        by (pose proof (eq_trans (eq_sym Hj) Hi) as E; by injection E).
      by apply sends_next in Hr as [?|?].
    + assert (is_Some (d (ep g))) as [? ?] by (apply (fr_mailed w d g); [by apply (f_locks w Hf)|by eexists]). congruence.
Qed.

Lemma mail_ok_update w rs i filter update m k answer w' x : facts w -> mail_ok w rs ->
  rs !! i = Some (Call (FindOneAndUpdate filter update m) k) -> issued false w (FindOneAndUpdate filter update m) k ->
  exec answer (FindOneAndUpdate filter update m) w = (w', x) -> mail_ok w' (<[i := k x]> rs).
Proof.
  intros Hf Hok Hi [Hw Hclaim] Ex. cbn [exec] in Ex.
  destruct (user w) as [d|] eqn:Hu; [|injection Ex as <- <-; eapply mail_ok_declined; [done..|congruence]].
  destruct (matches filter d) eqn:Hmatch; [|injection Ex as <- <-; eapply mail_ok_declined; [done..|]; intros d1 E; congruence].
  destruct (write_row_step false w filter update m d Hw (f_typed w Hf d Hu) Hmatch) as (d' & Ha & Hs).
  rewrite Ha in Ex. injection Ex as <- <-. change (mail_ok (written m d' w) (<[i := k (Some (Some d'))]> rs)).
  destruct (decide (∃ g, m = Claims g)) as [[g ->]|Hn].
  - destruct (Hclaim g eq_refl) as (e & until_ & E & Hk). by eapply mail_ok_claim.
  - eapply mail_ok_quiet; [done..| |].
    + intros g ->. inversion Hw.
    + intros g ->. apply Hn. by exists g.
Qed.

Lemma mail_ok_run w rs i X (c : cmd X) k answer w' x : facts w -> mail_ok w rs -> rs !! i = Some (Call c k) ->
  issued false w c k -> exec answer c w = (w', x) -> mail_ok w' (<[i := k x]> rs).
Proof.
  intros Hf Hok Hi Hc Ex. destruct c.
  3: by eapply mail_ok_update.
  2: { injection Ex as <- <-. by apply mail_ok_find. }
  2: { cbn [exec] in Ex. destruct (user w) as [d|] eqn:Hu; [destruct (matches filter d) eqn:Hmatch|].
       - injection Ex as <- <-. destruct Hc as (g & now & _ & -> & Hk). by eapply mail_ok_lock.
       - injection Ex as <- <-. eapply mail_ok_other; [done..| |].
         + intros f u e d0 _ _ Hp. by apply pending_next in Hp as [?|?].
         + intros f e Hp. by apply sends_next in Hp as [?|?].
       - injection Ex as <- <-. eapply mail_ok_other; [done..| |].
         + intros f u e d0 _ _ Hp. by apply pending_next in Hp as [?|?].
         + intros f e Hp. by apply sends_next in Hp as [?|?]. }
  6: { injection Ex as <- <-. by apply mail_ok_send. }
  6: { injection Ex as <- <-. by eapply mail_ok_external. }
  all: eapply (mail_ok_other w w'); [done|done| | | |];
    [| |intros f u e d0 _ _ Hp; by apply pending_next in Hp as [?|?]|intros f e Hp; by apply sends_next in Hp as [?|?]].
  all: cbn [exec] in Ex; try destruct (open_challenge _ _ _); by injection Ex as <- <-.
Qed.

Lemma mail_ok_step s s' : reachable false false s -> mail_ok (world s) (requests s) -> step false false s s' ->
  mail_ok (world s') (requests s').
Proof.
  intros Hs Hok Hstep. pose proof (reachable_facts false s Hs) as Hf.
  destruct (reachable_invariant false false _ s lock_invariant Hs) as (_ & _ & Hr).
  destruct Hstep as [s t Hl|s r Ha|s i X c k answer w x Ei Ex|s i Hx|s d Hu Hd|s jti c Hc Hx]; cbn.
  - exact Hok.
  - intros f. destruct (Hok f) as [Hl Hm]. split.
    + intros d u e Hu Eu Ee. destruct (Hl d u e Hu Eu Ee); [by left|right; by apply owed_start].
    + intros d e t Hu Ee Et. destruct (Hm d e t Hu Ee Et); [by left|right; by apply owed_start].
  - pose proof (proj1 (Forall_lookup _ _) Hr i _ Ei) as Hc. apply checked_call in Hc as [Hi _].
    by eapply mail_ok_run.
  - done.
  - intros f. by split.
  - exact Hok.
Qed.

Lemma reachable_mail s : reachable false false s -> mail_ok (world s) (requests s).
Proof.
  intros (hash & verified & t & Hs).
  enough (reachable false false s /\ mail_ok (world s) (requests s)) as [_ ?] by done.
  revert s Hs. apply (rtc_ind_r (λ s, reachable false false s /\ mail_ok (world s) (requests s))); [|intros s1 s2 Hs Hstep IH].
  - split; [apply reachable_initial|]. intros f. split.
    + intros d u e [= <-] E. by destruct f.
    + intros d e u [= <-] E. by destruct f.
  - destruct IH as [Hr Hok]. split; [|by eapply mail_ok_step].
    destruct Hr as (h & v & t' & Hr). exists h, v, t'. by eapply rtc_r.
Qed.

(** ** The link at work *)

(** An unlock link that names the current episode, followed while it verifies. *)
Lemma unlock_alone w m holds d e f : user w = Some d -> Row_typed d -> mailed_factor m = f ->
  link_live m (clock w) = true -> true_at d deletionPending = false -> d (ep f) = Some (VStr e) -> e <> [] ->
  mailed_state m = sha256 e ->
  let '(w', r) := run true (unlockAccount m holds) w in
  r = Ok Success /\ user w' = Some (clearLockoutStateOnDocument d f).
Proof.
  intros Hu Ht Ef Hlive Hdel Ee Hne Hst.
  assert (matches (unlock_filter f e) d = true) as Hmatch.
  { unfold matches, unlock_filter. cbn [forallb clause_holds]. rewrite Ee, andb_true_r. apply andb_true_iff. split.
    - cbn. by apply bool_decide_eq_true.
    - unfold true_at in Hdel. destruct (d deletionPending) as [v|] eqn:E; [|done]. apply Ht in E.
      destruct v as [| |b| |]; try done. by subst b. }
  assert (apply_update (lockoutClearUpdate f) d = Some (clearLockoutStateOnDocument d f)) as Ha by by destruct f.
  unfold unlockAccount. rewrite alone_await. cbn [run call exec ret]. rewrite Hlive. cbn [negb]. cbv zeta.
  rewrite alone_await. cbn [run call exec ret]. rewrite Hu, Hdel. rewrite Ef. unfold unlockEpisodeOf at 1, str_at. rewrite Ee.
  assert (unlockTokenNamesEpisode (mailed_state m) (Some e) = true) as Hn.
  { unfold unlockTokenNamesEpisode. destruct e; [done|]. by apply bool_decide_eq_true. }
  rewrite Hn. cbn [negb]. rewrite alone_await. unfold dischargeUnlockedEpisode at 1. rewrite alone_await.
  cbn [run call exec ret]. fold (unlock_filter f e). rewrite Hu, Hmatch, Ha. cbn [run ret].
  rewrite bool_decide_eq_true_2 by done. cbn [negb]. destruct holds; by vm_compute.
Qed.

(** C7: A locked owner is never left without a way in.  In a state reached without a password reset, a fault
    or a crash, when the requests have run and the account is not pending deletion, each locked factor has
    an unlock link in the owner's inbox that verifies until a second before the lockout ends, and following
    it, at any time until then, succeeds and clears the factor. *)
Theorem lockout_link_outstanding s d f u :
  reachable false false s -> (∀ p, p ∈ requests s -> ∃ r, p = Done r) ->
  user (world s) = Some d -> date_at d (until (FACTOR_PATHS f)) = Some u -> true_at d deletionPending = false ->
  ∃ m, m ∈ mails (world s) /\ ∀ t holds, clock (world s) <= t -> t + 1000 <= u ->
    let s' := after t (UnlockAccount m holds) s in
    last (requests s') = Some (Done (Ok Success)) /\ user (world s') = Some (clearLockoutStateOnDocument d f).
Proof.
  intros Hs Hdone Hu Eu Hdel. pose proof (reachable_facts false s Hs) as Hf. pose proof (f_typed _ Hf d Hu) as Ht.
  assert (d (until (FACTOR_PATHS f)) = Some (VDate u)) as Eu'.
  { unfold date_at in Eu. destruct (d _) as [[]|]; try done. by injection Eu as ->. }
  assert (is_Some (d (ep f))) as Hep by (apply (fr_locked _ d f (f_locks _ Hf d f Hu)); by eexists).
  destruct (typed_string d (ep f) [] Ht) as [e Ee]; [by destruct f|done|].
  assert (∀ P : async Response -> Prop, owed P (requests s) -> ∃ r, P (Done r)) as Hnone.
  { intros P (i & p & Hi & HP). destruct (Hdone p) as [r ->]; [by eapply list_elem_of_lookup_2|]. by exists r. }
  destruct (reachable_mail s Hs f) as [Hl Hm].
  destruct (Hl d u e Hu Eu' Ee) as [(tn & Etn & Hlate)|[r Hp]%Hnone]; [|by apply pending_next in Hp as [?|?]].
  destruct (Hm d e tn Hu Ee Etn) as [(m & Hin & Hmf & Hms & Hiat)|[r Hp]%Hnone]; [|by apply sends_next in Hp as [?|?]].
  exists m. split; [done|]. intros t holds Hct Htu. unfold after. cbn [world requests handle]. rewrite last_snoc.
  pose proof (unlock_alone (set_clock t (world s)) m holds d e f) as Hrun.
  destruct (run true (unlockAccount m holds) (set_clock t (world s))) as [w' r] eqn:Er. cbn [fst snd].
  destruct Hrun as [-> Hw]; try done; [|by eapply f_texts].
  unfold link_live. cbn [clock set_clock]. unfold UNLOCK_TOKEN_TTL_MS, UNLOCK_TOKEN_TTL_MINUTES in *.
  apply Z.ltb_lt. Z.to_euclidean_division_equations. lia.
Qed.
End mail.

Lemma lockout_link_outstanding_witness :
  let d := default (registered [] false) (user (world sample_locked)) in
  ∃ m, m ∈ mails (world sample_locked) /\ ∀ t holds, clock (world sample_locked) <= t -> t + 1000 <= 1800010 ->
    let s' := after t (UnlockAccount m holds) sample_locked in
    last (requests s') = Some (Done (Ok Success)) /\ user (world s') = Some (clearLockoutStateOnDocument d password).
Proof.
  intros d. apply (lockout_link_outstanding sample_locked d password).
  - apply sample_locked_reachable.
  - intros p Hp. assert (∃ rs, requests sample_locked = map Done rs) as [rs E].
    { exists (repeat (Throw INVALID_CREDENTIALS) 10). vm_compute. reflexivity. }
    rewrite E in Hp. apply list_elem_of_fmap in Hp as (r & -> & _). by exists r.
  - vm_compute. reflexivity.
  - vm_compute. reflexivity.
  - vm_compute. reflexivity.
Defined.
