(* ===== verification/SecondFactorMerge.v ===== *)
(** Merging a verdict into a caller's write: the merged write matches where both filters do, and
    changes what both updates change, less the paths it unsets. *)
From stdpp Require Import list.
From S2P Require Import Prelude AccountRecord AuthProgram SecondFactor.
Local Open Scope Z_scope.

(** ** Objects *)

Section object.
Context {K V : Type} (eqb : K -> K -> bool) (eqb_spec : ∀ a b, reflect (a = b) (eqb a b)).
Implicit Types (o a b : list (K * V)) (k : K).

Lemma obj_get_set o k v k' : obj_get eqb (obj_set eqb o k v) k' = if eqb k' k then Some v else obj_get eqb o k'.
Proof.
  induction o as [|[k1 v1] o IH]; cbn; [done|]. destruct (eqb_spec k k1) as [->|Hne]; cbn.
  - by destruct (eqb_spec k' k1).
  - rewrite IH. destruct (eqb_spec k' k1), (eqb_spec k' k); congruence.
Qed.

Lemma obj_set_keys o k v : map fst (obj_set eqb o k v) = if existsb (eqb k) (map fst o) then map fst o else map fst o ++ [k].
Proof.
  induction o as [|[k1 v1] o IH]; cbn; [done|]. destruct (eqb_spec k k1) as [->|Hne]; cbn; [done|]. rewrite IH.
  by destruct (existsb _ _).
Qed.

Lemma obj_set_distinct o k v : NoDup (map fst o) -> NoDup (map fst (obj_set eqb o k v)).
Proof.
  intros Hd. rewrite obj_set_keys. destruct (existsb _ _) eqn:E; [done|]. apply NoDup_app. split_and!; [done| |apply NoDup_singleton].
  intros x Hx ->%list_elem_of_singleton. assert (existsb (eqb k) (map fst o) = true) as E'; [|congruence].
  apply existsb_exists. exists k. split; [by apply list_elem_of_In|]. by destruct (eqb_spec k k).
Qed.

Lemma spread_distinct a b : NoDup (map fst a) -> NoDup (map fst (spread eqb a b)).
Proof.
  unfold spread. revert a. induction b as [|[k v] b IH]; intros a Ha; cbn; [done|]. by apply IH, obj_set_distinct.
Qed.

Lemma obj_get_spread a b k : NoDup (map fst b) ->
  obj_get eqb (spread eqb a b) k = match obj_get eqb b k with Some v => Some v | None => obj_get eqb a k end.
Proof.
  unfold spread. revert a. induction b as [|[k1 v1] b IH]; intros a Hb; cbn; [done|]. apply NoDup_cons in Hb as [Hn Hb].
  rewrite IH by done. rewrite obj_get_set. destruct (eqb_spec k k1) as [->|]; [|done].
  destruct (obj_get eqb b k1) eqn:E; [|done]. destruct Hn. clear -E eqb_spec. induction b as [|[k2 v2] b IH]; cbn in *; [done|].
  destruct (eqb_spec k1 k2) as [->|]; [by left|]. right. by apply IH.
Qed.

Lemma obj_get_filter (P : K -> bool) o k :
  obj_get eqb (List.filter (λ e, P (fst e)) o) k = if P k then obj_get eqb o k else None.
Proof.
  induction o as [|[k1 v1] o IH]; cbn; [by destruct (P k)|]. destruct (P k1) eqn:E; cbn; rewrite IH;
    destruct (eqb_spec k k1) as [->|]; rewrite ?E; done.
Qed.

Lemma obj_delete_distinct o k : NoDup (map fst o) -> NoDup (map fst (obj_delete eqb o k)).
Proof.
  unfold obj_delete. induction o as [|[k1 v1] o IH]; cbn; [done|]. intros [Hn Hd]%NoDup_cons.
  destruct (eqb k k1); cbn; [by apply IH|]. apply NoDup_cons. split; [|by apply IH]. intros Hin. apply Hn.
  apply list_elem_of_In, in_map_iff in Hin as (e & <- & Hin). apply filter_In in Hin as [Hin _].
  apply list_elem_of_In, in_map. done.
Qed.

Lemma obj_get_delete o k k' : obj_get eqb (obj_delete eqb o k) k' = if eqb k k' then None else obj_get eqb o k'.
Proof. unfold obj_delete. rewrite (obj_get_filter (λ x, negb (eqb k x))). by destruct (eqb k k'). Qed.

Lemma obj_get_In o k v : NoDup (map fst o) -> In (k, v) o <-> obj_get eqb o k = Some v.
Proof.
  induction o as [|[k1 v1] o IH]; cbn; [done|]. intros [Hn Hd]%NoDup_cons. destruct (eqb_spec k k1) as [->|Hne].
  - split; [|by intros [= ->]; left]. intros [[= ->]|Hin]; [done|]. destruct Hn.
    apply list_elem_of_In, in_map_iff. by exists (k1, v).
  - rewrite <- (IH Hd). split; [intros [[= <- <-]|?]; done|by right].
Qed.
End object.

Lemma path_eqb_spec p q : reflect (p = q) (path_eqb p q).
Proof. unfold path_eqb. destruct (Nat.eqb_spec (path_index p) (path_index q)); constructor; [by destruct p, q|congruence]. Qed.

Lemma key_eqb_spec a b : reflect (a = b) (key_eqb a b).
Proof. destruct a, b; cbn; try (constructor; congruence). destruct (path_eqb_spec p p0); constructor; congruence. Qed.

Lemma operator_eqb_spec a b : reflect (a = b) (operator_eqb a b).
Proof. destruct a, b; constructor; done. Qed.

(** ** Filters *)

Lemma matches_get f d : NoDup (map fst f) ->
  matches f d = true <-> ∀ k c, obj_get key_eqb f k = Some c -> clause_holds d k c = true.
Proof.
  intros Hd. unfold matches. rewrite forallb_forall. split.
  - intros Hf k c E. apply (obj_get_In key_eqb key_eqb_spec) in E; [|done]. by apply (Hf (k, c)).
  - intros Hf [k c] Hin. apply Hf. by apply (obj_get_In key_eqb key_eqb_spec).
Qed.

Lemma and_holds d fs : clause_holds d KAnd (Clauses fs) = true <-> Forall (λ f, matches f d = true) fs.
Proof. cbn. rewrite forallb_forall, List.Forall_forall. done. Qed.

Lemma or_alone c d : matches [(KOr, c)] d = clause_holds d KOr c.
Proof. unfold matches. cbn [forallb]. by rewrite andb_true_r. Qed.

Section filters.
Context (f cas : Filter) (d : Doc).
Context (Hf : NoDup (map fst f)) (Hcas : NoDup (map fst cas)) (Hand : obj_get key_eqb cas KAnd = None).
Context (Hlist : ∀ c, obj_get key_eqb f KAnd = Some c -> ∃ fs, c = Clauses fs).
Context (Hsame : ∀ k c c', k <> KOr -> obj_get key_eqb f k = Some c -> obj_get key_eqb cas k = Some c' -> c = c').

Lemma merge_both callerOr fragmentOr : obj_get key_eqb f KOr = Some callerOr -> obj_get key_eqb cas KOr = Some fragmentOr ->
  matches (mergeFilter f cas) d = true <-> matches f d = true /\ matches cas d = true.
Proof.
  intros E1 E2. unfold mergeFilter. rewrite E1, E2. cbv zeta.
  set (ands := match obj_get key_eqb f KAnd with Some (Clauses fs) => fs | _ => [] end).
  set (rest := obj_delete key_eqb (obj_delete key_eqb f KOr) KAnd). set (frest := obj_delete key_eqb cas KOr).
  assert (NoDup (map fst frest)) as Hfr by by apply obj_delete_distinct.
  assert (∀ k, k <> KAnd -> obj_get key_eqb (spread key_eqb rest frest) k =
    if key_eqb KOr k then None else match obj_get key_eqb cas k with Some v => Some v | None => obj_get key_eqb f k end) as Hk.
  { intros k Hne. rewrite (obj_get_spread _ key_eqb_spec) by done. unfold frest, rest.
    rewrite !(obj_get_delete _ key_eqb_spec). destruct (key_eqb_spec KOr k), (key_eqb_spec KAnd k); congruence. }
  rewrite !matches_get; [|done|done|apply (obj_set_distinct _ key_eqb_spec), (spread_distinct _ key_eqb_spec), obj_delete_distinct, obj_delete_distinct, Hf; apply key_eqb_spec].
  setoid_rewrite (obj_get_set _ key_eqb_spec). split.
  - intros Hm. pose proof (Hm KAnd _ eq_refl) as Ha. apply and_holds, Forall_app in Ha as [Ha Hor].
    rewrite !Forall_cons, !or_alone in Hor. destruct Hor as (Ho1 & Ho2 & _).
    assert (∀ k c, k <> KOr -> k <> KAnd -> obj_get key_eqb f k = Some c \/ obj_get key_eqb cas k = Some c -> clause_holds d k c = true) as Hrest.
    { intros k c N1 N2 Hc. apply Hm. destruct (key_eqb_spec k KAnd); [done|]. rewrite (Hk k) by done.
      destruct (key_eqb_spec KOr k); [by subst|]. destruct (obj_get key_eqb cas k) as [c'|] eqn:Ec; [|by destruct Hc].
      destruct Hc as [Hc|Hc]; [|done]. f_equal. symmetry. by eapply Hsame. }
    split; intros k c E.
    + destruct (key_eqb_spec k KOr) as [->|]; [congruence|]. destruct (key_eqb_spec k KAnd) as [->|]; [|by apply Hrest; auto].
      destruct (Hlist c E) as [fs ->]. apply and_holds. unfold ands in Ha. by rewrite E in Ha.
    + destruct (key_eqb_spec k KOr) as [->|]; [congruence|]. destruct (key_eqb_spec k KAnd) as [->|]; [congruence|]. apply Hrest; auto.
  - intros [H1 H2] k c. destruct (key_eqb_spec k KAnd) as [->|Hne].
    + intros [= <-]. apply and_holds, Forall_app. split.
      * unfold ands. destruct (obj_get key_eqb f KAnd) as [[|fs]|] eqn:E; try done. apply and_holds. by apply H1.
      * repeat constructor; rewrite or_alone; [by apply H1|by apply H2].
    + rewrite Hk by done. destruct (key_eqb KOr k); [done|]. destruct (obj_get key_eqb cas k) as [v|] eqn:E; [|apply H1].
      intros [= <-]. by apply H2.
Qed.

Lemma merge_spread : (obj_get key_eqb f KOr = None \/ obj_get key_eqb cas KOr = None) ->
  matches (spread key_eqb f cas) d = true <-> matches f d = true /\ matches cas d = true.
Proof.
  intros Hor. rewrite !matches_get; [|done|done|by apply (spread_distinct _ key_eqb_spec)].
  setoid_rewrite (λ k, obj_get_spread key_eqb key_eqb_spec f cas k Hcas). split.
  - intros Hm. split; intros k c E; apply Hm; [|by rewrite E]. destruct (obj_get key_eqb cas k) as [c'|] eqn:Ec; [|done].
    f_equal. symmetry. eapply Hsame; [|done|done]. intros ->. destruct Hor; congruence.
  - intros [H1 H2] k c. destruct (obj_get key_eqb cas k) as [v|] eqn:E; [|apply H1]. intros [= <-]. by apply H2.
Qed.

Lemma mergeFilter_matches : matches (mergeFilter f cas) d = true <-> matches f d = true /\ matches cas d = true.
Proof.
  destruct (obj_get key_eqb f KOr) eqn:E1; [destruct (obj_get key_eqb cas KOr) eqn:E2; [by eapply merge_both|]|].
  all: unfold mergeFilter; rewrite E1, ?E2; apply merge_spread; auto.
Qed.
End filters.

(** ** Updates *)

(** What an update writes to a path under an operator. *)
Definition written_by (u : Update) (op : Operator) (p : Path) : option Value :=
  match obj_get operator_eqb u op with Some paths => obj_get path_eqb paths p | None => None end.

Lemma written_by_merge u op p v op' p' :
  written_by (mergeUpdate u [(op, [(p, v)])]) op' p' =
    if operator_eqb op' op && path_eqb p' p then Some v else written_by u op' p'.
Proof.
  unfold written_by, mergeUpdate. cbn [foldl]. rewrite (obj_get_set _ operator_eqb_spec).
  destruct (operator_eqb_spec op' op) as [->|]; cbn [andb]; [|done].
  rewrite (obj_get_spread _ path_eqb_spec) by apply NoDup_singleton. cbn [obj_get].
  destruct (path_eqb p' p); [done|]. unfold Update, Fragment in *. by destruct (obj_get operator_eqb u op).
Qed.

Lemma written_by_drop m op p :
  written_by (dropUnset m) op p =
    if operator_eqb op Set_ && bool_decide (is_Some (written_by m Unset p)) then None else written_by m op p.
Proof.
  unfold written_by, dropUnset. destruct (obj_get operator_eqb m Unset) as [unset|] eqn:Eu.
  2: { rewrite bool_decide_eq_false_2 by (by intros [? ?]). by rewrite andb_false_r. }
  destruct (obj_get operator_eqb m Set_) as [set|] eqn:Es.
  - rewrite (obj_get_set _ operator_eqb_spec). destruct (operator_eqb_spec op Set_) as [->|]; cbn [andb]; [|done].
    rewrite Es. etransitivity; [apply (obj_get_filter _ path_eqb_spec (λ q : Path, negb (@bool_decide _ (is_Some_dec (obj_get path_eqb unset q)))))|].
    by case_bool_decide.
  - destruct (operator_eqb_spec op Set_) as [->|]; cbn [andb]; [|done]. rewrite Es. by case_bool_decide.
Qed.

(** ** The merged write *)

(** The verdicts of the verifier. *)
Inductive verifier_verdict : Accepted -> Prop :=
  | v_totp enrolment secret step : verifier_verdict (totpAccepted enrolment secret step)
  | v_backup hash : verifier_verdict (backupAccepted hash).

Lemma verdict_filter a : verifier_verdict a -> NoDup (map fst (casFilter a)) /\ obj_get key_eqb (casFilter a) KAnd = None.
Proof.
  intros Ha. split; [|by destruct Ha as [[]|]]. apply NoDup_ListNoDup.
  destruct Ha as [[]|]; cbn; repeat constructor; cbn; intuition congruence.
Qed.

Lemma verdict_update a : verifier_verdict a -> ∃ op p v, casUpdate a = [(op, [(p, v)])] /\ op <> Unset.
Proof. intros [e s k|h]; by eexists _, _, _. Qed.

(** C25: Consuming a code and doing what it was asked for are one write.  Merged with any caller's filter
    (whose conditions on the paths the code's filter also names are the same), the filter matches
    exactly the rows both match, an [$or] on either side or on both, and an [$and] kept; the update
    writes under every operator what the code's update or else the caller's writes, except that a path
    the caller unsets is never set, the replay mark included: the database never refuses it for a conflict
    between the two. *)
Theorem withSecondFactorCas_merges filter update a d :
  verifier_verdict a -> NoDup (map fst filter) ->
  (∀ c, obj_get key_eqb filter KAnd = Some c -> ∃ fs, c = Clauses fs) ->
  (∀ k c c', k <> KOr -> obj_get key_eqb filter k = Some c -> obj_get key_eqb (casFilter a) k = Some c' -> c = c') ->
  let merged := withSecondFactorCas filter update a in
  (matches (fst merged) d = true <-> matches filter d = true /\ matches (casFilter a) d = true) /\
  ∀ op p, written_by (snd merged) op p =
    if operator_eqb op Set_ && bool_decide (is_Some (written_by update Unset p)) then None
    else match written_by (casUpdate a) op p with Some v => Some v | None => written_by update op p end.
Proof.
  intros Ha Hf Hlist Hsame merged. destruct (verdict_filter a Ha) as [Hcas Hand]. split.
  - by apply mergeFilter_matches.
  - intros op p. unfold merged, withSecondFactorCas. cbn [snd]. rewrite written_by_drop.
    destruct (verdict_update a Ha) as (o & q & v & -> & Ho). rewrite !written_by_merge.
    destruct (operator_eqb_spec Unset o) as [<-|]; [done|]. cbn [andb].
    assert (written_by [(o, [(q, v)])] op p = if operator_eqb op o && path_eqb p q then Some v else None) as ->.
    { unfold written_by. cbn [obj_get]. destruct (operator_eqb op o); cbn [andb]; [|done]. reflexivity. }
    by destruct (operator_eqb op o && path_eqb p q).
Qed.

(** A filter with an [$or] and an [$and] of its own, and an update that unsets the replay mark. *)
Lemma withSecondFactorCas_merges_witness :
  let filter := [(KPath deletionPending, Condition (Ne (VBool true)));
                 (KOr, Clauses [[(KPath emailVerified, Condition (Eq_ (VBool true)))]; [(KPath sf_until, Condition Null)]]);
                 (KAnd, Clauses [[(KPath authHash, Condition (Eq_ (VStr (js "h"))))]])] in
  let update := [(Unset, [(lastTotpTimestamp, VNum 1)])] in
  let a := totpAccepted false (js "s") 7 in
  let d := put twoFactorEnabled (VBool true) (put authHash (VStr (js "h")) (put twoFactorSecret (VStr (js "s")) (λ _, None))) in
  let merged := withSecondFactorCas filter update a in
  matches (fst merged) d = true /\ matches (fst merged) (put lastTotpTimestamp (VNum 7) d) = false /\
  ((matches (fst merged) d = true <-> matches filter d = true /\ matches (casFilter a) d = true) /\
   ∀ op p, written_by (snd merged) op p =
     if operator_eqb op Set_ && bool_decide (is_Some (written_by update Unset p)) then None
     else match written_by (casUpdate a) op p with Some v => Some v | None => written_by update op p end).
Proof.
  cbv zeta. split; [vm_compute; reflexivity|]. split; [vm_compute; reflexivity|]. apply withSecondFactorCas_merges.
  - constructor.
  - apply NoDup_ListNoDup. repeat constructor; cbn; intuition congruence.
  - cbn. intros c [= <-]. by eexists.
  - intros [[]| |] c c' Hk; cbn; congruence.
Defined.
