(* ===== verification/DocumentObjects.v ===== *)
(** Where a document's bytes are: server/src/utils/documentObjects.ts, and the checks by which
    server/src/controllers/documentController.ts compares what it accepted with what the storage
    engine holds.  Sizes and indices are integers; [Number.isSafeInteger] is a bound on them. *)
From S2P Require Import Prelude FullBackup.
Local Open Scope Z_scope.
Local Open Scope result_scope.

Inductive DocError := TypeError (message : jsstr) | RangeError (message : jsstr) | BadRequest (message : jsstr).

(** ** Object keys *)

(** One character of [[0-9a-fA-F]]. *)
Definition hex_char (c : Z) : bool :=
  ((48 <=? c) && (c <=? 57)) || ((97 <=? c) && (c <=? 102)) || ((65 <=? c) && (c <=? 70)).

(** [/^[0-9a-fA-F]{24}$/] *)
Definition OBJECT_ID_PATTERN (s : jsstr) : bool := (length s =? 24)%nat && forallb hex_char s.

Definition requireObjectId (value label : jsstr) : result DocError jsstr :=
  if negb (OBJECT_ID_PATTERN value) then Throw (TypeError (label ++ js " must be a 24-character ObjectId hex string"))
  else Ok (toLowerCase value).

Definition isSafeInteger (n : Z) : bool := Z.abs n <=? MAX_SAFE_INTEGER.

Definition requireIntegerAtLeast (value minimum : Z) (label : jsstr) : result DocError unit :=
  if negb (isSafeInteger value) || (value <? minimum)
  then Throw (RangeError (label ++ js " must be a safe integer of at least " ++ num minimum))
  else Ok tt.

Definition userObjectPrefix (userId : jsstr) : result DocError jsstr :=
  let? u := requireObjectId userId (js "userId") in
  Ok (js "u/" ++ u ++ js "/").

Definition buildObjectKey (userId documentId : jsstr) : result DocError jsstr :=
  let? prefix := userObjectPrefix userId in
  let? d := requireObjectId documentId (js "documentId") in
  Ok (prefix ++ js "d/" ++ d).

(** The two groups of [/^u\/([0-9a-fA-F]{24})\/d\/([0-9a-fA-F]{24})$/]. *)
Definition OBJECT_KEY_PATTERN (key : jsstr) : option (jsstr * jsstr) :=
  if negb (starts_with key (js "u/")) then None else
  let userId := take 24 (drop 2 key) in
  let rest := drop 26 key in
  if negb (OBJECT_ID_PATTERN userId) || negb (starts_with rest (js "/d/")) then None else
  let documentId := drop 3 rest in
  if OBJECT_ID_PATTERN documentId then Some (userId, documentId) else None.

Definition parseObjectKey (key : jsstr) : option (jsstr * jsstr) :=
  match OBJECT_KEY_PATTERN key with
  | Some (userId, documentId) => Some (toLowerCase userId, toLowerCase documentId)
  | None => None
  end.

(** ** Segments *)

Record SegmentRange := { start : Z; end_ : Z; length_ : Z }.

Definition segmentRange (index chunkCount chunkPlaintextBytes ciphertextBytes : Z) : result DocError SegmentRange :=
  let? _ := requireIntegerAtLeast chunkCount 1 (js "chunkCount") in
  let? _ := requireIntegerAtLeast chunkPlaintextBytes 1 (js "chunkPlaintextBytes") in
  let? _ := requireIntegerAtLeast ciphertextBytes DOCUMENT_TAG_BYTES (js "ciphertextBytes") in
  let? _ := requireIntegerAtLeast index 0 (js "index") in
  if chunkCount <=? index then
    Throw (RangeError (js "index " ++ num index ++ js " is outside a document of " ++ num chunkCount ++ js " segment(s)"))
  else
  let segmentCiphertextBytes := chunkPlaintextBytes + DOCUMENT_TAG_BYTES in
  let fullSegments := chunkCount - 1 in
  let smallestObject := fullSegments * segmentCiphertextBytes + DOCUMENT_TAG_BYTES in
  let largestObject := chunkCount * segmentCiphertextBytes in
  if (ciphertextBytes <? smallestObject) || (largestObject <? ciphertextBytes) then
    Throw (RangeError (js "ciphertextBytes " ++ num ciphertextBytes ++ js " cannot hold " ++ num chunkCount
      ++ js " segment(s) of " ++ num chunkPlaintextBytes ++ js " plaintext byte(s) each"))
  else
  let start := index * segmentCiphertextBytes in
  let end_ := if index =? fullSegments then ciphertextBytes - 1 else start + segmentCiphertextBytes - 1 in
  Ok {| start := start; end_ := end_; length_ := end_ - start + 1 |}.

Definition expectedPartSize (partNumber chunkCount chunkPlaintextBytes ciphertextBytes : Z) : result DocError Z :=
  let? _ := requireIntegerAtLeast chunkCount 1 (js "chunkCount") in
  let? _ := requireIntegerAtLeast partNumber 1 (js "partNumber") in
  if chunkCount <? partNumber then
    Throw (RangeError (js "partNumber " ++ num partNumber ++ js " is outside an upload of " ++ num chunkCount ++ js " part(s)"))
  else
  let? range := segmentRange (partNumber - 1) chunkCount chunkPlaintextBytes ciphertextBytes in
  Ok (length_ range).

(** ** The ledger of a transfer *)

Record Part := { partNumber : Z; bytes : Z }.

(** One element of [engine.entries()] after another. *)
Fixpoint assertParts_loop (index : nat) (stagedByNumber engine : list Part) : result DocError unit :=
  match engine with
  | [] => Ok tt
  | part :: engine =>
      let expectedNumber := Z.of_nat index + 1 in
      if negb (partNumber part =? expectedNumber) then
        Throw (BadRequest (js "This transfer is missing part " ++ num expectedNumber
          ++ js "; the storage engine's next part is " ++ num (partNumber part) ++ js "."))
      else
      match stagedByNumber !! index with
      | Some stagedPart =>
          if negb (partNumber stagedPart =? partNumber part) then
            Throw (BadRequest (js "The server accepted no part " ++ num (partNumber part) ++ js " for this transfer."))
          else if negb (bytes stagedPart =? bytes part) then
            Throw (BadRequest (js "Part " ++ num (partNumber part) ++ js " is " ++ num (bytes part)
              ++ js " byte(s) in storage and " ++ num (bytes stagedPart) ++ js " byte(s) in this transfer's ledger."))
          else assertParts_loop (S index) stagedByNumber engine
      | None => Throw (BadRequest (js "The server accepted no part " ++ num (partNumber part) ++ js " for this transfer."))
      end
  end.

Definition assertLedgerAgreesWithEngine (staged engine : list Part) : result DocError unit :=
  if negb (length staged =? length engine)%nat then
    Throw (BadRequest (js "The storage engine holds " ++ num (Z.of_nat (length engine))
      ++ js " part(s) for this transfer and the server accepted " ++ num (Z.of_nat (length staged)) ++ js "."))
  else assertParts_loop 0 (sort_by partNumber staged) engine.

Definition sumBytes (parts : list Part) : Z := foldl (λ total part, total + bytes part) 0 parts.

Record Framing := { f_chunkCount : Z; f_ciphertextBytes : Z; f_plaintextBytes : Z }.

Definition deriveFraming (engine : list Part) : Framing :=
  let chunkCount := Z.of_nat (length engine) in
  let ciphertextBytes := sumBytes engine in
  {| f_chunkCount := chunkCount; f_ciphertextBytes := ciphertextBytes;
     f_plaintextBytes := documentPlaintextBytesFor ciphertextBytes chunkCount |}.

(** Every part re-measured. *)
Fixpoint measure_loop (framing : Framing) (chunkPlaintextBytes : Z) (engine : list Part) : result DocError unit :=
  match engine with
  | [] => Ok tt
  | part :: engine =>
      let? required := expectedPartSize (partNumber part) (f_chunkCount framing) chunkPlaintextBytes (f_ciphertextBytes framing) in
      if negb (bytes part =? required) then
        Throw (BadRequest (js "Part " ++ num (partNumber part) ++ js " is " ++ num (bytes part) ++ js " byte(s) and must be "
          ++ num required ++ js " to sit at the segment boundary the document is framed on."))
      else measure_loop framing chunkPlaintextBytes engine
  end.

(** The checks of a completion, from the ledger to the framing it commits. *)
Definition verifyLedger (staged engine : list Part) (declaredChunkCount chunkPlaintextBytes : Z) : result DocError Framing :=
  let? _ := assertLedgerAgreesWithEngine staged engine in
  if negb (Z.of_nat (length engine) =? declaredChunkCount) then
    Throw (BadRequest (js "This transfer declared " ++ num declaredChunkCount ++ js " part(s) and "
      ++ num (Z.of_nat (length engine)) ++ js " arrived."))
  else
  let framing := deriveFraming engine in
  if (f_plaintextBytes framing <? 0) || negb (f_chunkCount framing =? documentChunkCountFor (f_plaintextBytes framing) chunkPlaintextBytes)
  then Throw (BadRequest (js "The parts received cannot frame a document: chunkCount must equal ceil(plaintextBytes / chunkPlaintextBytes), and at least 1."))
  else
  let? _ := measure_loop framing chunkPlaintextBytes engine in
  Ok framing.

(** What a part must measure, by what the transfer declared. *)
Definition requiredBytes (number declaredChunkCount declaredPlaintextBytes chunkPlaintextBytes : Z) : result DocError Z :=
  expectedPartSize number declaredChunkCount chunkPlaintextBytes (documentCiphertextBytesFor declaredPlaintextBytes declaredChunkCount).

(** The ledger after a part: its entry replaced, and their sum. *)
Definition recordPart (parts : list Part) (entry : Part) : list Part :=
  List.filter (λ p, negb (partNumber p =? partNumber entry)) parts ++ [entry].

Definition receivedBytes (parts : list Part) : Z := sumBytes parts.
