(* ===== verification/DocumentObjectsSpec.v ===== *)
(** Object keys round trip and are separated by account; a verified ledger frames a document whose
    segments are read back from where they were written; and a transfer whose parts were accepted
    always verifies. *)
From S2P Require Import Prelude FullBackup DocumentObjects.
From stdpp Require Import sorting.
From Stdlib Require Import ZifyNat.
Local Open Scope Z_scope.
Local Open Scope result_scope.

#[local] Ltac Zify.zify_post_hook ::= Z.to_euclidean_division_equations.

(** ** Keys *)

Lemma starts_with_app p r : starts_with (p ++ r) p = true.
Proof. induction p as [|x p IH]; cbn; [by destruct r|]. by rewrite Z.eqb_refl, IH. Qed.

Lemma starts_with_split s p : starts_with s p = true -> s = p ++ drop (length p) s.
Proof.
  revert s. induction p as [|x p IH]; intros s; cbn; [by rewrite drop_0|].
  destruct s as [|y s]; [done|]. cbn. intros [E Hs]%andb_true_iff. apply Z.eqb_eq in E as ->. f_equal. by apply IH.
Qed.

Lemma starts_with_same_length p q r : length p = length q -> starts_with (p ++ r) q = true -> p = q.
Proof.
  intros Hl Hs. apply starts_with_split in Hs. rewrite <- Hl, drop_app_length in Hs. by apply app_inv_tail in Hs.
Qed.

Lemma lower_hex c : hex_char c = true -> hex_char (lower_unit c) = true.
Proof. unfold hex_char, lower_unit. intros. case_match; lia. Qed.

Lemma lower_idem c : lower_unit (lower_unit c) = lower_unit c.
Proof. unfold lower_unit. repeat case_match; lia. Qed.

Lemma toLowerCase_idem s : toLowerCase (toLowerCase s) = toLowerCase s.
Proof. unfold toLowerCase. rewrite map_map. apply map_ext. apply lower_idem. Qed.

Lemma object_id_lower s : OBJECT_ID_PATTERN s = true -> OBJECT_ID_PATTERN (toLowerCase s) = true.
Proof.
  unfold OBJECT_ID_PATTERN, toLowerCase. rewrite length_map. intros [-> Hs]%andb_true_iff. cbn [andb].
  rewrite forallb_forall in Hs |- *. intros x (c & <- & Hc)%in_map_iff. by apply lower_hex, Hs.
Qed.

Lemma object_id_length s : OBJECT_ID_PATTERN s = true -> length s = 24%nat.
Proof. unfold OBJECT_ID_PATTERN. intros [E _]%andb_true_iff. by apply Nat.eqb_eq in E. Qed.

Lemma requireObjectId_ok s label : OBJECT_ID_PATTERN s = true -> requireObjectId s label = Ok (toLowerCase s).
Proof. intros Hs. unfold requireObjectId. by rewrite Hs. Qed.

Lemma userObjectPrefix_ok u : OBJECT_ID_PATTERN u = true -> userObjectPrefix u = Ok (js "u/" ++ toLowerCase u ++ js "/").
Proof. intros Hu. unfold userObjectPrefix. by rewrite requireObjectId_ok. Qed.

Lemma buildObjectKey_ok u d : OBJECT_ID_PATTERN u = true -> OBJECT_ID_PATTERN d = true ->
  buildObjectKey u d = Ok (js "u/" ++ toLowerCase u ++ js "/d/" ++ toLowerCase d).
Proof.
  intros Hu Hd. unfold buildObjectKey. rewrite userObjectPrefix_ok, requireObjectId_ok by done. cbn [result_bind].
  change (js "/d/") with (js "/" ++ js "d/"). by rewrite <- !app_assoc.
Qed.

Lemma key_pattern_hit u d : OBJECT_ID_PATTERN u = true -> OBJECT_ID_PATTERN d = true ->
  OBJECT_KEY_PATTERN (js "u/" ++ u ++ js "/d/" ++ d) = Some (u, d).
Proof.
  intros Hu Hd. unfold OBJECT_KEY_PATTERN. rewrite starts_with_app. cbn [negb]. pose proof (object_id_length u Hu) as Lu.
  change (js "u/") with [117; 47]. cbn [app drop]. rewrite drop_0.
  rewrite (take_app_length' u) by done. rewrite (drop_app_length' u) by done. rewrite Hu, starts_with_app. cbn [negb orb].
  change (js "/d/") with [47; 100; 47]. cbn [app drop]. by rewrite drop_0, Hd.
Qed.

Lemma key_pattern_shape key u d : OBJECT_KEY_PATTERN key = Some (u, d) ->
  key = js "u/" ++ u ++ js "/d/" ++ d /\ OBJECT_ID_PATTERN u = true /\ OBJECT_ID_PATTERN d = true.
Proof.
  unfold OBJECT_KEY_PATTERN. destruct (starts_with key _) eqn:E1; [|done]. cbn [negb].
  destruct (OBJECT_ID_PATTERN (take 24 _)) eqn:Eu; [|done]. destruct (starts_with (drop 26 key) _) eqn:E2; [|done]. cbn [negb orb].
  destruct (OBJECT_ID_PATTERN (drop 3 _)) eqn:Ed; [|done]. intros [= <- <-]. split; [|done].
  apply starts_with_split in E1, E2. rewrite E1 at 1. f_equal. change (length (js "u/")) with 2%nat in *.
  rewrite <- (take_drop 24 (drop 2 key)) at 1. f_equal. rewrite drop_drop. exact E2.
Qed.

(** An object key names its account and its document and nothing else does: building a key and parsing it
    gives back the two identifiers (in lower case); every key that parses was built from what it
    parses to, up to case; and the keys under an account's prefix are exactly those of its own
    documents, so erasing by prefix reaches no other account. *)
Theorem object_key_roundtrip :
  (∀ u d, OBJECT_ID_PATTERN u = true -> OBJECT_ID_PATTERN d = true ->
    ∃ key, buildObjectKey u d = Ok key /\ parseObjectKey key = Some (toLowerCase u, toLowerCase d) /\
      ∀ v prefix, userObjectPrefix v = Ok prefix -> (starts_with key prefix = true <-> toLowerCase v = toLowerCase u)) /\
  (∀ key u d, parseObjectKey key = Some (u, d) -> buildObjectKey u d = Ok (toLowerCase key)) /\
  (∀ u d, OBJECT_ID_PATTERN u && OBJECT_ID_PATTERN d = false -> ∃ m, buildObjectKey u d = Throw (TypeError m)).
Proof.
  split_and!.
  - intros u d Hu Hd. eexists. split; [by apply buildObjectKey_ok|]. split.
    + unfold parseObjectKey. rewrite key_pattern_hit by by apply object_id_lower. by rewrite !toLowerCase_idem.
    + intros v prefix Hp. unfold userObjectPrefix, requireObjectId in Hp. destruct (OBJECT_ID_PATTERN v) eqn:Hv; [|done].
      injection Hp as <-.
      assert (js "u/" ++ toLowerCase u ++ js "/d/" ++ toLowerCase d = (js "u/" ++ toLowerCase u ++ js "/") ++ js "d/" ++ toLowerCase d) as ->.
      { change (js "/d/") with (js "/" ++ js "d/"). by rewrite <- !app_assoc. }
      split.
      * intros Hs. apply (starts_with_same_length (js "u/" ++ toLowerCase u ++ js "/") (js "u/" ++ toLowerCase v ++ js "/")) in Hs;
          [by apply app_inv_head, app_inv_tail in Hs|].
        rewrite !length_app. unfold toLowerCase. rewrite !length_map, (object_id_length u), (object_id_length v); done.
      * intros ->. exact (starts_with_app (js "u/" ++ toLowerCase u ++ js "/") _).
  - intros key u d Hp. unfold parseObjectKey in Hp. destruct (OBJECT_KEY_PATTERN key) as [[u0 d0]|] eqn:E; [|done].
    injection Hp as <- <-. apply key_pattern_shape in E as (-> & Hu & Hd).
    rewrite buildObjectKey_ok, !toLowerCase_idem by by apply object_id_lower. unfold toLowerCase. by rewrite !map_app.
  - intros u d Hn. unfold buildObjectKey, userObjectPrefix, requireObjectId.
    destruct (OBJECT_ID_PATTERN u); [|by eexists]. destruct (OBJECT_ID_PATTERN d); [done|]. by eexists.
Qed.

(** ** Segments *)

Lemma requireInteger_inv v m label : requireIntegerAtLeast v m label = Ok tt -> m <= v /\ Z.abs v <= MAX_SAFE_INTEGER.
Proof. unfold requireIntegerAtLeast, isSafeInteger. destruct (_ || _) eqn:E; [done|]. lia. Qed.

Lemma requireInteger_ok v m label : m <= v -> Z.abs v <= MAX_SAFE_INTEGER -> requireIntegerAtLeast v m label = Ok tt.
Proof. intros. unfold requireIntegerAtLeast, isSafeInteger. destruct (_ || _) eqn:E; [lia|done]. Qed.

(** The sealed size of a full segment, and the size of segment [i]. *)
Definition sealed (P : Z) : Z := P + DOCUMENT_TAG_BYTES.
Definition segment_size (i n P C : Z) : Z := if i =? n - 1 then C - i * sealed P else sealed P.

(** Columns that can describe an object. *)
Record describes (n P C : Z) : Prop := {
  ds_count : 1 <= n <= MAX_SAFE_INTEGER;
  ds_chunk : 1 <= P <= MAX_SAFE_INTEGER;
  ds_size : (n - 1) * sealed P + DOCUMENT_TAG_BYTES <= C <= n * sealed P;
  ds_safe : C <= MAX_SAFE_INTEGER;
}.

Lemma segmentRange_ok i n P C : describes n P C -> 0 <= i < n ->
  segmentRange i n P C = Ok {| start := i * sealed P; end_ := i * sealed P + segment_size i n P C - 1; length_ := segment_size i n P C |}.
Proof.
  intros [Hn HP HC Hs] Hi. unfold segmentRange, segment_size, sealed in *. unfold DOCUMENT_TAG_BYTES in *.
  rewrite !requireInteger_ok by nia. cbn [result_bind]. destruct (_ <=? i) eqn:E1; [lia|].
  destruct (_ || _) eqn:E2; [lia|]. destruct (i =? n - 1) eqn:E; do 2 f_equal; lia.
Qed.

Lemma segmentRange_inv i n P C r : segmentRange i n P C = Ok r -> describes n P C /\ 0 <= i < n.
Proof.
  unfold segmentRange. destruct (requireIntegerAtLeast n 1 _) as [[]|] eqn:E1; [|done].
  destruct (requireIntegerAtLeast P 1 _) as [[]|] eqn:E2; [|done]. destruct (requireIntegerAtLeast C _ _) as [[]|] eqn:E3; [|done].
  destruct (requireIntegerAtLeast i 0 _) as [[]|] eqn:E4; [|done]. cbn [result_bind].
  apply requireInteger_inv in E1, E2, E3, E4. destruct (_ <=? i) eqn:E5; [done|]. destruct (_ || _) eqn:E6; [done|]. intros _.
  unfold DOCUMENT_TAG_BYTES in *. split; [constructor; unfold sealed, DOCUMENT_TAG_BYTES; lia|lia].
Qed.

Lemma expectedPartSize_ok k n P C : describes n P C -> 1 <= k <= n -> expectedPartSize k n P C = Ok (segment_size (k - 1) n P C).
Proof.
  intros Hd Hk. unfold expectedPartSize. pose proof Hd as [Hn _ _ _]. rewrite !requireInteger_ok by lia. cbn [result_bind].
  destruct (_ <? k) eqn:E; [lia|]. by rewrite segmentRange_ok by (done || lia).
Qed.

Lemma expectedPartSize_inv k n P C z : expectedPartSize k n P C = Ok z ->
  describes n P C /\ 1 <= k <= n /\ z = segment_size (k - 1) n P C.
Proof.
  intros H. assert (∃ r, segmentRange (k - 1) n P C = Ok r) as [r Hr].
  { unfold expectedPartSize in H. destruct (requireIntegerAtLeast n _ _) as [[]|]; [|done].
    destruct (requireIntegerAtLeast k _ _) as [[]|]; [|done]. cbn [result_bind] in H. destruct (_ <? k); [done|].
    destruct (segmentRange _ _ _ _) as [r|] eqn:E; [by exists r|done]. }
  apply segmentRange_inv in Hr as [Hd Hk]. rewrite expectedPartSize_ok in H by (done || lia). injection H as <-. split_and!; [done|lia..].
Qed.

(** ** Ledgers *)

Lemma foldl_bytes total parts : foldl (λ total part, total + bytes part) total parts = total + sumBytes parts.
Proof.
  unfold sumBytes. revert total. induction parts as [|p parts IH]; intros total; cbn [foldl]; [lia|].
  rewrite IH, (IH (0 + _)). lia.
Qed.

Lemma sumBytes_cons p parts : sumBytes (p :: parts) = bytes p + sumBytes parts.
Proof. unfold sumBytes at 1. cbn [foldl]. rewrite foldl_bytes. lia. Qed.

Lemma assertParts_sound staged engine index : assertParts_loop index staged engine = Ok tt ->
  ∀ i part, engine !! i = Some part -> partNumber part = Z.of_nat (index + i) + 1 /\ staged !! (index + i)%nat = Some part.
Proof.
  revert index. induction engine as [|p engine IH]; intros index; cbn [assertParts_loop]; [done|].
  destruct (partNumber p =? _) eqn:E1; [|done]. cbn [negb]. destruct (staged !! index) as [q|] eqn:Eq; [|done].
  destruct (partNumber q =? _) eqn:E2; [|done]. destruct (bytes q =? _) eqn:E3; [|done]. cbn [negb]. intros H [|i] part.
  - intros [= <-]. rewrite Nat.add_0_r. split; [lia|]. rewrite Eq. f_equal. destruct p, q; cbn in *. f_equal; lia.
  - intros Hi. rewrite Nat.add_succ_r. exact (IH (S index) H i part Hi).
Qed.

Lemma assertParts_complete staged engine index :
  (∀ i part, engine !! i = Some part -> partNumber part = Z.of_nat (index + i) + 1 /\ staged !! (index + i)%nat = Some part) ->
  assertParts_loop index staged engine = Ok tt.
Proof.
  revert index. induction engine as [|p engine IH]; intros index Hp; cbn [assertParts_loop]; [done|].
  destruct (Hp 0%nat p eq_refl) as [E1 E2]. rewrite Nat.add_0_r in E1, E2. rewrite E2, E1, !Z.eqb_refl. cbn [negb].
  apply IH. intros i part Hi. replace (S index + i)%nat with (index + S i)%nat by lia. by apply Hp.
Qed.

Lemma measure_sound fr P engine : measure_loop fr P engine = Ok tt ->
  ∀ part, part ∈ engine -> expectedPartSize (partNumber part) (f_chunkCount fr) P (f_ciphertextBytes fr) = Ok (bytes part).
Proof.
  induction engine as [|p engine IH]; cbn [measure_loop]; [by intros _ ? ?%elem_of_nil|].
  destruct (expectedPartSize _ _ _ _) as [z|] eqn:E; [|done]. cbn [result_bind]. destruct (bytes p =? z) eqn:Ez; [|done]. cbn [negb].
  apply Z.eqb_eq in Ez as <-. intros H part [->|Hin]%elem_of_cons; [done|by apply IH].
Qed.

Lemma measure_complete fr P engine :
  (∀ part, part ∈ engine -> expectedPartSize (partNumber part) (f_chunkCount fr) P (f_ciphertextBytes fr) = Ok (bytes part)) ->
  measure_loop fr P engine = Ok tt.
Proof.
  induction engine as [|p engine IH]; cbn [measure_loop]; [done|]. intros Hp. rewrite (Hp p) by by left. cbn [result_bind].
  rewrite Z.eqb_refl. cbn [negb]. apply IH. intros part Hin. apply Hp. by right.
Qed.

(** ** Reading back *)

Lemma length_concat_same {A} (ss : list (list A)) k : (∀ s, s ∈ ss -> length s = k) -> length (concat ss) = (length ss * k)%nat.
Proof.
  induction ss as [|s ss IH]; cbn; [done|]. intros Hs. rewrite length_app, (Hs s), IH; [lia| |by left]. intros t Ht. apply Hs. by right.
Qed.

Lemma slice_concat {A} (ss : list (list A)) i s k : ss !! i = Some s -> (∀ j t, ss !! j = Some t -> (j < i)%nat -> length t = k) ->
  slice (concat ss) (i * k) (i * k + length s) = s.
Proof.
  intros Hi Hk. assert (length (concat (take i ss)) = (i * k)%nat) as Hl.
  { rewrite (length_concat_same _ k), length_take_le; [done|apply lookup_lt_Some in Hi; lia|].
    intros t (j & Hj)%list_elem_of_lookup. apply lookup_take_Some in Hj as [Hj Hlt]. by eapply Hk. }
  rewrite <- Hl. rewrite <- (take_drop_middle ss i s Hi) at 1. rewrite concat_app. cbn [concat]. apply slice_mid.
Qed.

Lemma sumBytes_concat (stored : list (Z * list Z)) :
  sumBytes (map (λ e, {| partNumber := fst e; bytes := Z.of_nat (length (snd e)) |}) stored) = Z.of_nat (length (concat (map snd stored))).
Proof.
  induction stored as [|e stored IH]; cbn [map concat]; [done|]. rewrite sumBytes_cons, IH, length_app. cbn [bytes]. lia.
Qed.

Lemma verifyLedger_inv staged engine n P fr : verifyLedger staged engine n P = Ok fr ->
  length staged = length engine /\ Z.of_nat (length engine) = n /\ fr = deriveFraming engine /\ 0 <= f_plaintextBytes fr /\
  n = documentChunkCountFor (f_plaintextBytes fr) P /\
  (∀ i part, engine !! i = Some part -> partNumber part = Z.of_nat i + 1 /\ sort_by partNumber staged !! i = Some part /\
     expectedPartSize (partNumber part) n P (f_ciphertextBytes fr) = Ok (bytes part)).
Proof.
  unfold verifyLedger, assertLedgerAgreesWithEngine. destruct (length staged =? _)%nat eqn:E1; [|done]. cbn [negb].
  destruct (assertParts_loop 0 _ engine) as [[]|] eqn:E2; [|done]. cbn [result_bind].
  destruct (_ =? n) eqn:E3; [|done]. cbn [negb]. apply Z.eqb_eq in E3. cbv zeta.
  destruct (_ || _) eqn:E4; [done|]. apply orb_false_iff in E4 as [E4 E5].
  destruct (measure_loop _ P engine) as [[]|] eqn:E6; [|done]. cbn [result_bind]. intros [= <-].
  apply Nat.eqb_eq in E1. change (f_chunkCount (deriveFraming engine)) with (Z.of_nat (length engine)) in E5.
  split_and!; [done..|lia|lia|]. intros i part Hi. pose proof (assertParts_sound _ _ _ E2 i part Hi) as [Hn Hs].
  split_and!; [done..|]. rewrite <- E3. apply (measure_sound _ _ _ E6). by eapply list_elem_of_lookup_2.
Qed.

(** A committed document is read back as it was stored.  Whenever a completion accepts the parts the engine
    lists (their numbers and contents), whatever they are, the columns it commits satisfy the framing
    identities every later read checks; the segment ranges computed from those columns tile the stored
    object; and the range of segment [i] returns exactly the bytes of the [i]-th part. *)
Theorem verified_document_reads_back staged (stored : list (Z * list Z)) n P fr :
  verifyLedger staged (map (λ e, {| partNumber := fst e; bytes := Z.of_nat (length (snd e)) |}) stored) n P = Ok fr ->
  let object := concat (map snd stored) in
  f_chunkCount fr = n /\ f_ciphertextBytes fr = Z.of_nat (length object) /\
  f_ciphertextBytes fr = documentCiphertextBytesFor (f_plaintextBytes fr) n /\ hasConsistentFraming (f_plaintextBytes fr) P n = true /\
  (∀ i number content, stored !! i = Some (number, content) -> number = Z.of_nat i + 1 /\
    ∃ r, segmentRange (Z.of_nat i) n P (f_ciphertextBytes fr) = Ok r /\ length_ r = Z.of_nat (length content) /\
      slice object (Z.to_nat (start r)) (Z.to_nat (end_ r + 1)) = content) /\
  (∀ i r r', segmentRange i n P (f_ciphertextBytes fr) = Ok r -> segmentRange (i + 1) n P (f_ciphertextBytes fr) = Ok r' ->
    start r' = end_ r + 1).
Proof.
  intros H object. pose proof (verifyLedger_inv _ _ _ _ _ H) as (_ & Hn & Hfr & Hp & Hc & Hparts). rewrite length_map in Hn.
  assert (f_ciphertextBytes fr = Z.of_nat (length object)) as Hsize by (rewrite Hfr; apply sumBytes_concat).
  assert (f_chunkCount fr = n) as Hcount by (rewrite Hfr; unfold deriveFraming; cbn [f_chunkCount]; by rewrite length_map).
  split_and!; [done|done| | | |].
  - rewrite Hfr. unfold deriveFraming, documentCiphertextBytesFor, documentPlaintextBytesFor. cbn [f_plaintextBytes f_ciphertextBytes].
    rewrite length_map. lia.
  - unfold hasConsistentFraming. rewrite <- Hc, Z.eqb_refl. by destruct (P <=? 0).
  - intros i number content Hi. assert (∀ j e, stored !! j = Some e -> fst e = Z.of_nat j + 1 /\
      describes n P (f_ciphertextBytes fr) /\ Z.of_nat (length (snd e)) = segment_size (Z.of_nat j) n P (f_ciphertextBytes fr)) as Hall.
    { intros j e Hj. destruct (Hparts j {| partNumber := fst e; bytes := Z.of_nat (length (snd e)) |}) as (H1 & _ & H3);
        [by rewrite list_lookup_fmap, Hj|]. cbn [partNumber bytes] in *. apply expectedPartSize_inv in H3 as (Hd & _ & ->).
      split_and!; [done..|]. f_equal. lia. }
    destruct (Hall i _ Hi) as (H1 & Hd & H2). cbn [fst snd] in *. split; [done|]. pose proof (lookup_lt_Some _ _ _ Hi) as Hlt.
    rewrite segmentRange_ok by (done || lia). eexists. split; [done|]. cbn [length_ start end_]. split; [done|].
    assert (0 <= sealed P) by (destruct Hd; unfold sealed, DOCUMENT_TAG_BYTES; lia).
    rewrite <- H2. replace (_ - 1 + 1) with (Z.of_nat (i * Z.to_nat (sealed P) + length content)) by
      (rewrite Nat2Z.inj_add, Nat2Z.inj_mul, Z2Nat.id by lia; lia).
    rewrite Nat2Z.id, Z2Nat.inj_mul, Nat2Z.id by lia.
    apply slice_concat; [by rewrite list_lookup_fmap, Hi|]. intros j t Hj Hji. rewrite list_lookup_fmap in Hj.
    destruct (stored !! j) as [e|] eqn:Ej; [|done]. injection Hj as <-. destruct (Hall j e Ej) as (_ & _ & Hsz).
    unfold segment_size in Hsz. destruct (_ =? _) eqn:E; lia.
  - intros i r r' Hr Hr'. pose proof (segmentRange_inv _ _ _ _ _ Hr) as [Hd Hi]. pose proof (segmentRange_inv _ _ _ _ _ Hr') as [_ Hi'].
    rewrite segmentRange_ok in Hr, Hr' by (done || lia). injection Hr as <-. injection Hr' as <-. cbn [start end_].
    unfold segment_size. destruct (_ =? _) eqn:E; lia.
Qed.

Lemma verified_document_reads_back_witness :
  let stored := [(1, repeat 7 20); (2, repeat 8 20); (3, repeat 9 17)] in
  let staged := [{| partNumber := 2; bytes := 20 |}; {| partNumber := 3; bytes := 17 |}; {| partNumber := 1; bytes := 20 |}] in
  let fr := {| f_chunkCount := 3; f_ciphertextBytes := 57; f_plaintextBytes := 9 |} in
  let object := concat (map snd stored) in
  f_chunkCount fr = 3 /\ f_ciphertextBytes fr = Z.of_nat (length object) /\
  f_ciphertextBytes fr = documentCiphertextBytesFor (f_plaintextBytes fr) 3 /\ hasConsistentFraming (f_plaintextBytes fr) 4 3 = true /\
  (∀ i number content, stored !! i = Some (number, content) -> number = Z.of_nat i + 1 /\
    ∃ r, segmentRange (Z.of_nat i) 3 4 (f_ciphertextBytes fr) = Ok r /\ length_ r = Z.of_nat (length content) /\
      slice object (Z.to_nat (start r)) (Z.to_nat (end_ r + 1)) = content) /\
  (∀ i r r', segmentRange i 3 4 (f_ciphertextBytes fr) = Ok r -> segmentRange (i + 1) 3 4 (f_ciphertextBytes fr) = Ok r' ->
    start r' = end_ r + 1).
Proof.
  cbv zeta. apply (verified_document_reads_back
    [{| partNumber := 2; bytes := 20 |}; {| partNumber := 3; bytes := 17 |}; {| partNumber := 1; bytes := 20 |}]).
  vm_compute. reflexivity.
Defined.

(** ** A transfer whose parts were accepted *)

Lemma recordPart_elem parts e p : p ∈ recordPart parts e -> p ∈ parts \/ p = e.
Proof.
  unfold recordPart. intros [Hp|Hp%list_elem_of_singleton]%elem_of_app; [left|by right].
  apply list_elem_of_In, filter_In in Hp as [Hp _]. by apply list_elem_of_In.
Qed.

Lemma recordPart_numbers parts e k : k ∈ map partNumber (recordPart parts e) <-> k ∈ map partNumber parts \/ k = partNumber e.
Proof.
  unfold recordPart. rewrite map_app, elem_of_app. cbn [map]. rewrite list_elem_of_singleton. split.
  - intros [Hk|Hk]; [|by right]. left. apply list_elem_of_In, in_map_iff in Hk as (p & <- & Hp). apply filter_In in Hp as [Hp _].
    by apply list_elem_of_In, in_map.
  - intros [Hk|Hk]; [|by right]. destruct (Z.eq_dec k (partNumber e)) as [->|Hne]; [by right|left].
    apply list_elem_of_In, in_map_iff in Hk as (p & <- & Hp). apply list_elem_of_In, in_map, filter_In. split; [done|].
    destruct (Z.eqb_spec (partNumber p) (partNumber e)); [done|reflexivity].
Qed.

Lemma recordPart_distinct parts e : NoDup (map partNumber parts) -> NoDup (map partNumber (recordPart parts e)).
Proof.
  intros Hd. unfold recordPart. rewrite map_app. apply NoDup_app. split_and!; [| |apply NoDup_singleton].
  - induction parts as [|p parts IH]; [done|]. cbn [map] in Hd. apply NoDup_cons in Hd as [Hn Hd]. cbn [List.filter].
    destruct (negb _); [|by apply IH]. cbn [map]. apply NoDup_cons. split; [|by apply IH]. intros Hin. apply Hn.
    apply list_elem_of_In, in_map_iff in Hin as (q & <- & Hq). apply filter_In in Hq as [Hq _]. by apply list_elem_of_In, in_map.
  - intros k Hk ->%list_elem_of_singleton. apply list_elem_of_In, in_map_iff in Hk as (p & E & Hp). apply filter_In in Hp as [_ Hp].
    rewrite E, Z.eqb_refl in Hp. done.
Qed.

(** The ledger after every part sent. *)
Definition recordParts (sent : list Part) : list Part := foldl recordPart [] sent.

Lemma recordParts_spec sent : NoDup (map partNumber (recordParts sent)) /\
  (∀ p, p ∈ recordParts sent -> p ∈ sent) /\ ∀ k, k ∈ map partNumber (recordParts sent) <-> k ∈ map partNumber sent.
Proof.
  unfold recordParts. induction sent as [|e sent IH] using rev_ind; cbn; [split_and!; [apply NoDup_nil_2|done|done]|].
  destruct IH as (H1 & H2 & H3). rewrite foldl_app. cbn [foldl]. split_and!.
  - by apply recordPart_distinct.
  - intros p [Hp| ->]%recordPart_elem; apply elem_of_app; [left; by apply H2|right; by left].
  - intros k. rewrite recordPart_numbers, H3, map_app, elem_of_app. cbn [map]. by rewrite list_elem_of_singleton.
Qed.

Lemma sorted_numbers l : StronglySorted (key_le partNumber) l -> StronglySorted Z.le (map partNumber l).
Proof.
  induction 1 as [|p l Hs IH Hp]; cbn [map]; constructor; [done|]. apply List.Forall_map. eapply Forall_impl; [exact Hp|]. done.
Qed.

(** The ascending list of a complete set of parts. *)
Lemma sorted_complete n staged (size : Z -> Z) : NoDup (map partNumber staged) ->
  (∀ k, k ∈ map partNumber staged <-> 1 <= k <= Z.of_nat n) -> (∀ p, p ∈ staged -> bytes p = size (partNumber p)) ->
  sort_by partNumber staged = map (λ k, {| partNumber := k; bytes := size k |}) (map Z.of_nat (seq 1 n)).
Proof.
  intros Hd Hk Hb. set (l := sort_by partNumber staged). pose proof (sort_by_perm partNumber staged) as Hp. fold l in Hp.
  assert (map partNumber l = map Z.of_nat (seq 1 n)) as Hn.
  { apply (StronglySorted_unique Z.le).
    - apply sorted_numbers, sort_by_sorted.
    - clear. generalize 1%nat as a. induction n as [|n IH]; intros a; cbn; constructor; [apply IH|].
      apply List.Forall_forall. intros x (y & <- & Hy)%in_map_iff. apply in_seq in Hy. lia.
    - apply NoDup_Permutation; [by rewrite (Permutation_map partNumber Hp)| |].
      + apply NoDup_fmap_2; [intros ? ? ?; lia|apply NoDup_seq].
      + intros x. assert (x ∈ map partNumber l <-> x ∈ map partNumber staged) as -> by by rewrite (Permutation_map partNumber Hp).
        rewrite Hk. rewrite (list_elem_of_In (map Z.of_nat (seq 1 n)) x), in_map_iff. split.
        * intros Hx. exists (Z.to_nat x). rewrite in_seq. lia.
        * intros (y & <- & Hy). apply in_seq in Hy. lia. }
  rewrite <- Hn, map_map. rewrite <- (map_id l) at 1. apply map_ext_in. intros p Hin. apply list_elem_of_In in Hin.
  rewrite Hp in Hin. rewrite <- Hb by done. by destruct p.
Qed.

Lemma sumBytes_app a b : sumBytes (a ++ b) = sumBytes a + sumBytes b.
Proof. induction a as [|p a IH]; cbn [app]; [done|]. rewrite !sumBytes_cons, IH. lia. Qed.

Lemma sumBytes_perm a b : a ≡ₚ b -> sumBytes a = sumBytes b.
Proof. induction 1; rewrite ?sumBytes_cons; lia. Qed.

Lemma sum_segments n P C : (1 <= n)%nat ->
  sumBytes (map (λ k, {| partNumber := k; bytes := segment_size (k - 1) (Z.of_nat n) P C |}) (map Z.of_nat (seq 1 n))) = C.
Proof.
  intros Hn. destruct n as [|m]; [lia|]. rewrite seq_S, !map_app, sumBytes_app. cbn [map]. rewrite sumBytes_cons. cbn [bytes].
  assert (∀ j, (j <= m)%nat -> sumBytes (map (λ k, {| partNumber := k; bytes := segment_size (k - 1) (Z.of_nat (S m)) P C |})
    (map Z.of_nat (seq 1 j))) = Z.of_nat j * sealed P) as Hfull.
  { induction j as [|j IH]; intros Hj; [done|]. rewrite seq_S, !map_app, sumBytes_app, IH by lia. cbn [map]. rewrite sumBytes_cons.
    cbn [bytes]. unfold segment_size. destruct (_ =? _) eqn:E; [lia|]. change (sumBytes []) with 0. lia. }
  rewrite Hfull by done. unfold segment_size. change (sumBytes []) with 0. destruct (_ =? _) eqn:E; lia.
Qed.

(** A complete ledger, of parts of the sizes required, is verified as the transfer was declared. *)
Lemma ledger_verifies staged n declared P :
  n = documentChunkCountFor declared P -> 0 <= declared -> NoDup (map partNumber staged) ->
  (∀ p, p ∈ staged -> requiredBytes (partNumber p) n declared P = Ok (bytes p)) ->
  (∀ k, 1 <= k <= n -> k ∈ map partNumber staged) ->
  verifyLedger staged (sort_by partNumber staged) n P =
    Ok {| f_chunkCount := n; f_ciphertextBytes := documentCiphertextBytesFor declared n; f_plaintextBytes := declared |} /\
  receivedBytes staged = documentCiphertextBytesFor declared n.
Proof.
  intros Hn Hdecl Hd Hsize Hall.
  assert (1 <= n) as Hn1 by (unfold documentChunkCountFor in Hn; lia). set (C := documentCiphertextBytesFor declared n) in *.
  assert (∀ p, p ∈ staged -> describes n P C /\ 1 <= partNumber p <= n /\ bytes p = segment_size (partNumber p - 1) n P C) as Hp.
  { intros p Hin. by apply expectedPartSize_inv, Hsize. }
  assert (describes n P C) as Hdesc.
  { assert (1 ∈ map partNumber staged) as Hin by (apply Hall; lia). apply list_elem_of_In, in_map_iff in Hin as (p & _ & Hin).
    apply list_elem_of_In in Hin. by apply (Hp p). }
  assert (sort_by partNumber staged = map (λ k, {| partNumber := k; bytes := segment_size (k - 1) n P C |})
    (map Z.of_nat (seq 1 (Z.to_nat n)))) as Hsort.
  { apply sorted_complete; [done| |].
    - intros k. rewrite Z2Nat.id by lia. split; [|apply Hall]. intros Hk. apply list_elem_of_In, in_map_iff in Hk as (p & <- & Hin).
      apply list_elem_of_In in Hin. by apply (Hp p).
    - intros p Hin. by apply Hp. }
  pose proof (sum_segments (Z.to_nat n) P C ltac:(lia)) as Hsum. rewrite Z2Nat.id, <- Hsort in Hsum by lia.
  assert (length (sort_by partNumber staged) = Z.to_nat n) as Hlen by (rewrite Hsort, !length_map, length_seq; done).
  assert (length staged = Z.to_nat n) as Hlen' by (rewrite <- Hlen; symmetry; apply Permutation_length, sort_by_perm).
  split.
  - unfold verifyLedger, assertLedgerAgreesWithEngine. rewrite Hlen, Hlen', Nat.eqb_refl. cbn [negb].
    rewrite assertParts_complete; [|intros i p Hi; split; [|done]; rewrite Hsort in Hi].
    2: { rewrite !list_lookup_fmap in Hi. destruct (seq 1 _ !! i) as [j|] eqn:Ej; [|done]. injection Hi as <-.
         apply lookup_seq in Ej as [-> _]. cbn [partNumber]. lia. }
    cbn [result_bind]. rewrite Z2Nat.id, Z.eqb_refl by lia. cbn [negb]. unfold deriveFraming. rewrite Hlen, Z2Nat.id, Hsum by lia.
    cbv zeta. cbn [f_chunkCount f_ciphertextBytes f_plaintextBytes].
    assert (documentPlaintextBytesFor C n = declared) as -> by (unfold C, documentPlaintextBytesFor, documentCiphertextBytesFor; lia).
    rewrite <- Hn, Z.eqb_refl. destruct (declared <? 0) eqn:E; [lia|]. cbn [negb orb].
    rewrite measure_complete; [done|]. intros p Hin. cbn [f_chunkCount f_ciphertextBytes]. rewrite sort_by_perm in Hin.
    by apply Hsize.
  - unfold receivedBytes. rewrite <- Hsum. apply sumBytes_perm. symmetry. apply sort_by_perm.
Qed.

(** A transfer the server accepted can always be completed.  If its declared count is the one its declared size
    implies, and every part it sent, in any order and with any repeats, had the size the part route
    requires, and every number was sent, then the completion's checks pass against an engine that holds
    the same parts, and what they commit is exactly what was declared; the received bytes the quota sees are
    the declared object's size. *)
Theorem accepted_transfer_completes sent n declared P :
  n = documentChunkCountFor declared P -> 0 <= declared ->
  (∀ p, p ∈ sent -> requiredBytes (partNumber p) n declared P = Ok (bytes p)) ->
  (∀ k, 1 <= k <= n -> k ∈ map partNumber sent) ->
  let staged := recordParts sent in
  verifyLedger staged (sort_by partNumber staged) n P =
    Ok {| f_chunkCount := n; f_ciphertextBytes := documentCiphertextBytesFor declared n; f_plaintextBytes := declared |} /\
  receivedBytes staged = documentCiphertextBytesFor declared n.
Proof.
  intros Hn Hdecl Hsize Hall staged. destruct (recordParts_spec sent) as (Hd & Hsub & Hnum). fold staged in Hd, Hsub, Hnum.
  apply ledger_verifies; [done|done|done|by intros p Hp; apply Hsize, Hsub|]. intros k Hk. apply Hnum, Hall, Hk.
Qed.

Lemma accepted_transfer_completes_witness :
  let sent := [{| partNumber := 3; bytes := 17 |}; {| partNumber := 1; bytes := 20 |}; {| partNumber := 3; bytes := 17 |}; {| partNumber := 2; bytes := 20 |}] in
  let staged := recordParts sent in
  verifyLedger staged (sort_by partNumber staged) 3 4 =
    Ok {| f_chunkCount := 3; f_ciphertextBytes := documentCiphertextBytesFor 9 3; f_plaintextBytes := 9 |} /\
  receivedBytes staged = documentCiphertextBytesFor 9 3.
Proof.
  apply (accepted_transfer_completes _ 3 9 4); [reflexivity|lia| |].
  - intros p Hin. repeat (apply elem_of_cons in Hin as [->|Hin]; [vm_compute; reflexivity|]). by apply elem_of_nil in Hin.
  - intros k Hk. assert (k = 1 \/ k = 2 \/ k = 3) as [-> | [-> | ->]] by lia; cbn; set_solver.
Defined.
