(* ===== verification/DocumentStore.v ===== *)
(** The stored state behind documents: the staging rows and the documents of one account, the objects
    and multipart uploads of the storage engine, the job locks, and the atomic commands on them that
    requests and the collector are programs of.

    An object key is the identifier it is built from ([buildObjectKey] is injective).  Which keys a
    listing of the engine holds is an answer of the environment, and so is what other parts of the
    server answer (the rotation fence, the version of the vault key, folders, the account, audit
    rows).  The sealed key and metadata columns are opaque to the server and left out.  [made],
    [opened] and [cancel_claims] record the past, of which the database keeps no such sets: the
    documents inserted, the transfers opened with what they declared, and the single-segment transfers
    whose staging row a cancel claimed ([findOneAndDelete] of [abortUpload]; the cancel of a multipart
    transfer claims nothing and is not among them). *)
From stdpp Require Import gmap.
From S2P Require Import Prelude FullBackup DocumentObjects.
Local Open Scope Z_scope.

(** An ObjectId: its counter, and the millisecond it was minted, of which it keeps the second. *)
Notation DocId := (nat * Z)%type.
Definition getTimestamp (id : DocId) : Z := snd id / 1000 * 1000.

(** ** Rows *)

Record Upload := {
  s3UploadId : option nat;
  declaredPlaintextBytes : Z;
  declaredChunkCount : Z;
  u_chunkPlaintextBytes : Z;
  parts : list Part;
  u_receivedBytes : Z;
  u_folderId : option Z;
  expiresAt : Z;
}.

Record Document := {
  d_folderId : option Z;
  d_chunkCount : Z;
  d_chunkPlaintextBytes : Z;
  d_ciphertextBytes : Z;
  d_plaintextBytes : Z;
  deletedAt : option Z;
  purgePending : bool;
}.

Inductive LockName := documentInitLockName | documentCompleteLockName (id : DocId) | vaultRotationLockName | cleanupLockName.

#[export] Instance LockName_eq_dec : EqDecision LockName.
Proof. solve_decision. Defined.

Definition lock_code (n : LockName) : nat + DocId :=
  match n with
  | documentInitLockName => inl 0%nat
  | vaultRotationLockName => inl 1%nat
  | cleanupLockName => inl 2%nat
  | documentCompleteLockName id => inr id
  end.

#[export] Instance LockName_countable : Countable LockName.
Proof.
  apply (inj_countable' lock_code (λ c, match c with
    | inl 0%nat => documentInitLockName | inl 1%nat => vaultRotationLockName | inl _ => cleanupLockName
    | inr id => documentCompleteLockName id end)). by intros [].
Defined.

Record JobLock := { lockedBy : nat; l_expiresAt : Z }.

(** ** The engine *)

Record Stored := { content : list Z; lastModified : Z }.

(** A multipart upload: its key, when it began, and its parts by number, each with its etag. *)
Record Multipart := { m_key : DocId; initiated : Z; m_parts : gmap Z (nat * list Z) }.

Record Store := {
  uploads : gmap DocId Upload;
  documents : gmap DocId Document;
  objects : gmap DocId Stored;
  multiparts : gmap nat Multipart;
  locks : gmap LockName JobLock;
  clock : Z;
  fresh : nat;
  made : gset DocId;
  cancel_claims : gset DocId;
  opened : gmap DocId (Z * Z * Z);
}.

Definition set_uploads f s := {| uploads := f (uploads s); documents := documents s; objects := objects s; multiparts := multiparts s;
  locks := locks s; clock := clock s; fresh := fresh s; made := made s; cancel_claims := cancel_claims s; opened := opened s |}.
Definition set_documents f s := {| uploads := uploads s; documents := f (documents s); objects := objects s; multiparts := multiparts s;
  locks := locks s; clock := clock s; fresh := fresh s; made := made s; cancel_claims := cancel_claims s; opened := opened s |}.
Definition set_objects f s := {| uploads := uploads s; documents := documents s; objects := f (objects s); multiparts := multiparts s;
  locks := locks s; clock := clock s; fresh := fresh s; made := made s; cancel_claims := cancel_claims s; opened := opened s |}.
Definition set_multiparts f s := {| uploads := uploads s; documents := documents s; objects := objects s; multiparts := f (multiparts s);
  locks := locks s; clock := clock s; fresh := fresh s; made := made s; cancel_claims := cancel_claims s; opened := opened s |}.
Definition set_locks f s := {| uploads := uploads s; documents := documents s; objects := objects s; multiparts := multiparts s;
  locks := f (locks s); clock := clock s; fresh := fresh s; made := made s; cancel_claims := cancel_claims s; opened := opened s |}.
Definition set_clock t s := {| uploads := uploads s; documents := documents s; objects := objects s; multiparts := multiparts s;
  locks := locks s; clock := t; fresh := fresh s; made := made s; cancel_claims := cancel_claims s; opened := opened s |}.
Definition tick s := {| uploads := uploads s; documents := documents s; objects := objects s; multiparts := multiparts s;
  locks := locks s; clock := clock s; fresh := S (fresh s); made := made s; cancel_claims := cancel_claims s; opened := opened s |}.
Definition log_made id s := {| uploads := uploads s; documents := documents s; objects := objects s; multiparts := multiparts s;
  locks := locks s; clock := clock s; fresh := fresh s; made := {[id]} ∪ made s; cancel_claims := cancel_claims s; opened := opened s |}.
Definition log_cancel_claim id s := {| uploads := uploads s; documents := documents s; objects := objects s; multiparts := multiparts s;
  locks := locks s; clock := clock s; fresh := fresh s; made := made s; cancel_claims := {[id]} ∪ cancel_claims s; opened := opened s |}.
Definition log_opened id row s := {| uploads := uploads s; documents := documents s; objects := objects s; multiparts := multiparts s;
  locks := locks s; clock := clock s; fresh := fresh s; made := made s; cancel_claims := cancel_claims s;
  opened := <[id := (declaredPlaintextBytes row, declaredChunkCount row, u_chunkPlaintextBytes row)]> (opened s) |}.

(** ** Commands *)

Inductive ExternalCall := vaultRotating | folderExists (folderId : Z) | vaultKeyVersion | accountLive | createAuditLog | recordJobAuditEntries.

(** Where a listing starts. *)
Inductive Listing := FromStart | StartAfter (key : DocId) | ContinuationToken (token : nat).

(** What the environment answers: an external call, the keys on a page of objects, with whether their
    dates are reported, the token of the next page, and the uploads on the page of uploads. *)
Record Answer := {
  external_answer : Z;
  page_keys : list (DocId * bool);
  page_next : option nat;
  page_uploads : list (nat * bool);
}.

Inductive cmd : Type -> Type :=
  | Now : cmd Z
  | External (e : ExternalCall) : cmd Z
  | AcquireJobLock (name : LockName) (ttlMs : Z) : cmd (option nat)
  | ReleaseJobLock (name : LockName) (lockId : nat) : cmd unit
  | NewObjectId : cmd DocId
  | CountUploads (now : Z) : cmd Z
  | CountDocuments : cmd Z
  | SumUploads (now : Z) : cmd Z
  | SumDocuments : cmd Z
  | CreateUpload (id : DocId) (row : Upload) : cmd unit
  | FindUpload (id : DocId) : cmd (option Upload)
  | FindUploads (ids : list DocId) : cmd (list DocId)
  | RecordPart (id : DocId) (entry : Part) : cmd (option Z)
  | ClaimUpload (id : DocId) (received : option Z) : cmd bool
  | DeleteUpload (id : DocId) : cmd unit
  | FindDocument (id : DocId) : cmd (option Document)
  | FindDocuments (ids : list DocId) : cmd (list DocId)
  | CreateDocument (id : DocId) (row : Document) : cmd bool
  | DeleteDocument (id : DocId) : cmd bool
  | TrashDocument (id : DocId) (at_ : Z) : cmd bool
  | RestoreDocument (id : DocId) : cmd bool
  | MarkPurgePending (id : DocId) (before : option Z) : cmd bool
  | FindTrashed (before : Z) (after : option DocId) (limit : nat) : cmd (list DocId)
  | FindPurgePending (after : option DocId) (limit : nat) : cmd (list DocId)
  | HeadObject (id : DocId) : cmd (option Z)
  | PutObject (id : DocId) (body : list Z) : cmd unit
  | DeleteObject (id : DocId) : cmd unit
  | GetObjectRange (id : DocId) (start end_ : Z) : cmd (option (list Z))
  | CreateMultipartUpload (id : DocId) : cmd nat
  | UploadPart (id : DocId) (s3 : nat) (number : Z) (body : list Z) : cmd bool
  | ListParts (id : DocId) (s3 : nat) : cmd (option (list (Part * nat)))
  | CompleteMultipartUpload (id : DocId) (s3 : nat) (named : list (Z * nat)) : cmd bool
  | AbortMultipartUpload (id : DocId) (s3 : nat) : cmd bool
  | ListObjects (maxKeys : Z) (from : Listing) : cmd (list (DocId * option Z) * option nat)
  | ListMultipartUploads : cmd (list (DocId * nat * option Z)).

(** *** Sums and lists *)

Definition sum_by {A} (f : A -> Z) (m : gmap DocId A) : Z := map_fold (λ _ x total, f x + total) 0 m.

Definition live (now : Z) (m : gmap DocId Upload) : gmap DocId Upload := filter (λ e, now < expiresAt (snd e)) m.

Definition present {A} (m : gmap DocId A) (ids : list DocId) : list DocId := filter (λ id, is_Some (m !! id)) ids.

(** The rows that match, after a cursor, in the order of their identifiers. *)
Definition after_cursor (after : option DocId) (id : DocId) : bool :=
  match after with Some c => (fst c <? fst id)%nat | None => true end.

Definition matching (matches : Document -> bool) (after : option DocId) (m : gmap DocId Document) : list DocId :=
  sort_by (λ id, Z.of_nat (fst id))
    (map fst (List.filter (λ '(id, d), matches d && after_cursor after id) (map_to_list m))).

Definition is_trashed (before : option Z) (d : Document) : bool :=
  match deletedAt d, before with
  | Some t, Some b => t <=? b
  | Some _, None => true
  | None, _ => false
  end.

(** An upload the engine knows under this key. *)
Definition known (id : DocId) (s3 : nat) (m : gmap nat Multipart) : option Multipart :=
  u ← m !! s3; if decide (m_key u = id) then Some u else None.

Definition listed_dates {A} (date : A -> Z) (m : gmap DocId A) (keys : list (DocId * bool)) : list (DocId * option Z) :=
  omap (λ '(id, dated), (λ x, (id, if dated : bool then Some (date x) else None)) <$> m !! id) keys.

Definition listed_uploads (m : gmap nat Multipart) (ids : list (nat * bool)) : list (DocId * nat * option Z) :=
  omap (λ '(s3, dated), (λ u, (m_key u, s3, if dated : bool then Some (initiated u) else None)) <$> m !! s3) ids.

Definition parts_of (m : Multipart) : list (Part * nat) :=
  sort_by (λ e, partNumber (fst e))
    (map (λ '(n, (etag, body)), ({| partNumber := n; bytes := Z.of_nat (length body) |}, etag)) (map_to_list (m_parts m))).

(** The object a completion assembles: every part named must be the one the engine holds. *)
Fixpoint assemble (held : gmap Z (nat * list Z)) (named : list (Z * nat)) : option (list Z) :=
  match named with
  | [] => Some []
  | (n, etag) :: named =>
      match held !! n with
      | Some (e, body) => if (e =? etag)%nat then (rest ← assemble held named; Some (body ++ rest)) else None
      | None => None
      end
  end.

(** *** Updates of rows *)

Definition with_part (entry : Part) (u : Upload) : Upload :=
  let parts := recordPart (parts u) entry in
  {| s3UploadId := s3UploadId u; declaredPlaintextBytes := declaredPlaintextBytes u; declaredChunkCount := declaredChunkCount u;
     u_chunkPlaintextBytes := u_chunkPlaintextBytes u; parts := parts; u_receivedBytes := receivedBytes parts; u_folderId := u_folderId u; expiresAt := expiresAt u |}.

Definition with_state (at_ : option Z) (pending : bool) (d : Document) : Document :=
  {| d_folderId := d_folderId d; d_chunkCount := d_chunkCount d; d_chunkPlaintextBytes := d_chunkPlaintextBytes d; d_ciphertextBytes := d_ciphertextBytes d;
     d_plaintextBytes := d_plaintextBytes d; deletedAt := at_; purgePending := pending |}.

(** A lock that may be taken: none is held, or its time is up. *)
Definition lock_free (name : LockName) (s : Store) : bool :=
  match locks s !! name with Some l => l_expiresAt l <=? clock s | None => true end.

(** *** What a command does and answers *)

(** One row updated if it is there and matches. *)
Definition update_document (id : DocId) (matches : Document -> bool) (f : Document -> Document) (s : Store) : Store * bool :=
  match documents s !! id with
  | Some d => if matches d then (set_documents <[id := f d]> s, true) else (s, false)
  | None => (s, false)
  end.

Definition exec {X} (a : Answer) (c : cmd X) (s : Store) : Store * X :=
  match c in cmd X return Store * X with
  | Now => (s, clock s)
  | External _ => (s, external_answer a)
  | AcquireJobLock name ttlMs =>
      if lock_free name s
      then (tick (set_locks <[name := {| lockedBy := fresh s; l_expiresAt := clock s + ttlMs |}]> s), Some (fresh s))
      else (s, None)
  | ReleaseJobLock name lockId =>
      match locks s !! name with
      | Some l => if (lockedBy l =? lockId)%nat then (set_locks (delete name) s, tt) else (s, tt)
      | None => (s, tt)
      end
  | NewObjectId => (tick s, (fresh s, clock s))
  | CountUploads now => (s, Z.of_nat (size (live now (uploads s))))
  | CountDocuments => (s, Z.of_nat (size (documents s)))
  | SumUploads now => (s, sum_by declaredPlaintextBytes (live now (uploads s)))
  | SumDocuments => (s, sum_by d_plaintextBytes (documents s))
  | CreateUpload id row => (log_opened id row (set_uploads <[id := row]> s), tt)
  | FindUpload id => (s, uploads s !! id)
  | FindUploads ids => (s, present (uploads s) ids)
  | RecordPart id entry =>
      match uploads s !! id with
      | Some u => (set_uploads <[id := with_part entry u]> s, Some (u_receivedBytes (with_part entry u)))
      | None => (s, None)
      end
  | ClaimUpload id received =>
      match uploads s !! id, received with
      | Some u, Some n => if u_receivedBytes u =? n then (set_uploads (delete id) s, true) else (s, false)
      | Some u, None => (log_cancel_claim id (set_uploads (delete id) s), true)
      | None, _ => (s, false)
      end
  | DeleteUpload id => (set_uploads (delete id) s, tt)
  | FindDocument id => (s, documents s !! id)
  | FindDocuments ids => (s, present (documents s) ids)
  | CreateDocument id row =>
      match documents s !! id with
      | Some _ => (s, false)
      | None => (log_made id (set_documents <[id := row]> s), true)
      end
  | DeleteDocument id => (set_documents (delete id) s, bool_decide (is_Some (documents s !! id)))
  | TrashDocument id at_ => update_document id (λ _, true) (λ d, with_state (Some at_) (purgePending d) d) s
  | RestoreDocument id =>
      update_document id (λ d, bool_decide (is_Some (deletedAt d)) && negb (purgePending d)) (λ d, with_state None (purgePending d) d) s
  | MarkPurgePending id before => update_document id (is_trashed before) (λ d, with_state (deletedAt d) true d) s
  | FindTrashed before after limit => (s, take limit (matching (is_trashed (Some before)) after (documents s)))
  | FindPurgePending after limit => (s, take limit (matching purgePending after (documents s)))
  | HeadObject id => (s, (λ o, Z.of_nat (length (content o))) <$> objects s !! id)
  | PutObject id body => (set_objects <[id := {| content := body; lastModified := clock s |}]> s, tt)
  | DeleteObject id => (set_objects (delete id) s, tt)
  | GetObjectRange id start end_ => (s, (λ o, slice (content o) (Z.to_nat start) (Z.to_nat (end_ + 1))) <$> objects s !! id)
  | CreateMultipartUpload id =>
      (tick (set_multiparts <[fresh s := {| m_key := id; initiated := clock s; m_parts := ∅ |}]> s), fresh s)
  | UploadPart id s3 number body =>
      match known id s3 (multiparts s) with
      | Some m => (tick (set_multiparts <[s3 := {| m_key := id; initiated := initiated m;
                                                  m_parts := <[number := (fresh s, body)]> (m_parts m) |}]> s), true)
      | None => (s, false)
      end
  | ListParts id s3 => (s, parts_of <$> known id s3 (multiparts s))
  | CompleteMultipartUpload id s3 named =>
      match known id s3 (multiparts s) with
      | Some m => match assemble (m_parts m) named with
                  | Some body => (set_objects <[id := {| content := body; lastModified := clock s |}]>
                                    (set_multiparts (delete s3) s), true)
                  | None => (s, false)
                  end
      | None => (s, false)
      end
  | AbortMultipartUpload id s3 =>
      match known id s3 (multiparts s) with
      | Some _ => (set_multiparts (delete s3) s, true)
      | None => (s, false)
      end
  | ListObjects _ _ => (s, (listed_dates lastModified (objects s) (page_keys a), page_next a))
  | ListMultipartUploads => (s, listed_uploads (multiparts s) (page_uploads a))
  end.

(** ** Programs *)

(** A refusal, by its status; a database or storage call that failed; a request cut short. *)
Inductive Refused := Http (status : Z) | Failed | Interrupted.

Inductive prog (R : Type) : Type :=
  | Done (r : R)
  | Call {X : Type} (c : cmd X) (k : option X -> prog R).
#[global] Arguments Done {R} _.
#[global] Arguments Call {R X} _ _.

Fixpoint bind {R S} (p : prog R) (f : R -> prog S) : prog S :=
  match p with
  | Done r => f r
  | Call c k => Call c (λ x, bind (k x) f)
  end.

Definition async (R : Type) : Type := prog (result Refused R).
Definition ret {R} (r : R) : async R := Done (Ok r).
Definition throw {R} (e : Refused) : async R := Done (Throw e).
Definition await {R S} (p : async R) (f : R -> async S) : async S :=
  bind p (λ r, match r with Ok x => f x | Throw e => throw e end).

(** A command whose failure propagates, and one whose failure is caught. *)
Definition call {X} (c : cmd X) : async X := Call c (λ r, match r with Some x => ret x | None => throw Failed end).
Definition attempt {X} (c : cmd X) : async (option X) := Call c (λ r, ret r).

(** [try { p } finally { q }] *)
Definition finally {R} (p : async R) (q : async unit) : async R :=
  bind p (λ r, bind q (λ u, match u with Ok _ => Done r | Throw e => throw e end)).

Declare Scope async_scope.
Delimit Scope async_scope with async.
Notation "'let!' x := m 'in' k" := (await m (λ x, k))
  (at level 10, x pattern, m at level 100, k at level 200) : async_scope.
