(* ===== verification/DocumentUploads.v ===== *)
(** The life of a transfer: opening it, storing its parts, completing it and cancelling it, as
    server/src/controllers/documentController.ts does. *)
From stdpp Require Import gmap.
From S2P Require Import Prelude FullBackup DocumentObjects DocumentStore.
Local Open Scope Z_scope.
Local Open Scope async_scope.

Definition COMPLETE_LOCK_TTL_MS : Z := 2 * 60 * 1000.
Definition INIT_LOCK_TTL_MS : Z := 2 * 60 * 1000.
Definition VAULT_ROTATION_LOCK_TTL_MS : Z := 5 * 60 * 1000.
Definition DOCUMENT_PLAINTEXT_CHUNK_BYTES : Z := 8388592.
Definition MAX_DOCUMENTS_PER_USER : Z := 5000.
Definition MAX_CONCURRENT_DOCUMENT_UPLOADS_PER_USER : Z := 3.
Definition BYTES_PER_MB : Z := 1024 * 1024.

(** The operator's settings, and the digest of the platform. *)
Class Deployment := {
  MAX_DOCUMENT_SIZE_MB : Z;
  DOCUMENT_STORAGE_QUOTA_MB_PER_USER : Z;
  DOCUMENT_UPLOAD_TTL_HOURS : Z;
  sha256_hex : list Z -> jsstr;
}.

(** ** Requests and responses *)

Record InitDocumentUploadInput := { declaredPlaintextBytes_ : Z; declaredChunkCount_ : Z; folderId_ : option Z }.

(** The body of a part, if the parser read raw bytes, and its two headers. *)
Record PartRequest := { part_body : option (list Z); content_length : option Z; part_digest : option jsstr }.

Inductive StaleReason := rotated | unreached.

Inductive CompletionOutcome :=
  | document (row : Document)
  | staleVaultKey (vaultKeyVersion : Z) (reason : StaleReason).

Inductive EngineLedger :=
  | object_ (parts : list Part)
  | multipart (s3UploadId : nat) (parts : list (Part * nat)).

Definition engine_parts (engine : EngineLedger) : list Part :=
  match engine with object_ parts => parts | multipart _ parts => map fst parts end.

(** An error of the pure code, as the status it is answered with. *)
Definition refusal (e : DocError) : Refused := match e with BadRequest _ => Http 400 | _ => Http 500 end.
Definition pure_ {A} (r : result DocError A) : async A :=
  match r with Ok x => ret x | Throw e => throw (refusal e) end.

Definition PART_DIGEST_PATTERN (s : jsstr) : bool :=
  (length s =? 64)%nat && forallb (λ c, ((48 <=? c) && (c <=? 57)) || ((97 <=? c) && (c <=? 102))) s.

Definition acquireJobLock (name : LockName) (ttlMs : Z) : async (option nat) := call (AcquireJobLock name ttlMs).
Definition releaseJobLock (name : LockName) (lockId : nat) : async unit := call (ReleaseJobLock name lockId).

(** The account's fence: [0] lowered, [1] raised, or the account is gone. *)
Definition assertVaultNotRotating : async unit :=
  let! fence := call (External vaultRotating) in
  if fence =? 0 then ret tt else if fence =? 1 then throw (Http 409) else throw (Http 401).

Definition acquireVaultRotationLock : async nat :=
  let! lockId := acquireJobLock vaultRotationLockName VAULT_ROTATION_LOCK_TTL_MS in
  match lockId with Some lockId => ret lockId | None => throw (Http 409) end.
Definition releaseVaultRotationLock (lockId : nat) : async unit := releaseJobLock vaultRotationLockName lockId.

(** [createAuditLog] catches what goes wrong. *)
Definition createAuditLog : async unit := let! _ := attempt (External DocumentStore.createAuditLog) in ret tt.

Section uploads.
Context `{Deployment}.

Definition maxDocumentBytes : Z := MAX_DOCUMENT_SIZE_MB * BYTES_PER_MB.
Definition storageQuotaBytes : Z := DOCUMENT_STORAGE_QUOTA_MB_PER_USER * BYTES_PER_MB.
Definition uploadTtlMs : Z := DOCUMENT_UPLOAD_TTL_HOURS * 60 * 60 * 1000.

(** ** Opening *)

Definition new_upload (s3 : option nat) (body : InitDocumentUploadInput) (now : Z) : Upload :=
  {| s3UploadId := s3; declaredPlaintextBytes := declaredPlaintextBytes_ body; declaredChunkCount := declaredChunkCount_ body;
     u_chunkPlaintextBytes := DOCUMENT_PLAINTEXT_CHUNK_BYTES; parts := []; u_receivedBytes := 0; u_folderId := folderId_ body;
     expiresAt := now + uploadTtlMs |}.

Definition openTransferUnderLock (body : InitDocumentUploadInput) : async (DocId * Z) :=
  let! now := call Now in
  let! openUploads := call (CountUploads now) in
  if MAX_CONCURRENT_DOCUMENT_UPLOADS_PER_USER <=? openUploads then throw (Http 400) else
  let! documentCount := call CountDocuments in
  if MAX_DOCUMENTS_PER_USER <=? documentCount then throw (Http 400) else
  let! inFlightBytes := call (SumUploads now) in
  let! committedBytes := call SumDocuments in
  if storageQuotaBytes <? committedBytes + inFlightBytes + declaredPlaintextBytes_ body then throw (Http 400) else
  let! folder := match folderId_ body with Some f => call (External (folderExists f)) | None => ret 1 end in
  if folder =? 0 then throw (Http 404) else
  let! version := call (External vaultKeyVersion) in
  let! uploadId := call NewObjectId in
  let! s3 := if 1 <? declaredChunkCount_ body
             then (let! s3 := call (CreateMultipartUpload uploadId) in ret (Some s3)) else ret None in
  let! created := attempt (CreateUpload uploadId (new_upload s3 body now)) in
  match created with
  | Some _ => ret (uploadId, version)
  | None =>
      let! _ := match s3 with Some s3 => attempt (AbortMultipartUpload uploadId s3) | None => ret None end in
      throw Failed
  end.

(** The schema of the body, and the handler. *)
Definition initDocumentUploadSchema (body : InitDocumentUploadInput) : bool :=
  (0 <=? declaredPlaintextBytes_ body) && (declaredPlaintextBytes_ body <=? MAX_SAFE_INTEGER) &&
  (1 <=? declaredChunkCount_ body) && (declaredChunkCount_ body <=? MAX_DOCUMENT_CHUNK_COUNT) &&
  hasConsistentFraming (declaredPlaintextBytes_ body) DOCUMENT_PLAINTEXT_CHUNK_BYTES (declaredChunkCount_ body).

Definition initUpload (body : InitDocumentUploadInput) : async (DocId * Z) :=
  if negb (initDocumentUploadSchema body) then throw (Http 400) else
  let! _ := assertVaultNotRotating in
  if maxDocumentBytes <? declaredPlaintextBytes_ body then throw (Http 400) else
  let! lockId := acquireJobLock documentInitLockName INIT_LOCK_TTL_MS in
  match lockId with
  | None => throw (Http 409)
  | Some lockId => finally (openTransferUnderLock body) (releaseJobLock documentInitLockName lockId)
  end.

(** ** Parts *)

Definition reclaimUnownedPartObject (uploadId : DocId) : async unit :=
  let! lock := attempt (AcquireJobLock (documentCompleteLockName uploadId) COMPLETE_LOCK_TTL_MS) in
  match lock with
  | Some (Some lockId) =>
      finally
        (let! owned := attempt (FindDocument uploadId) in
         match owned with
         | Some None => let! _ := attempt (DeleteObject uploadId) in ret tt
         | _ => ret tt
         end)
        (releaseJobLock (documentCompleteLockName uploadId) lockId)
  | _ => ret tt
  end.

(** The checks on a part, before a byte is stored. *)
Definition check_part (upload : Upload) (number : Z) (req : PartRequest) (body : list Z) (now : Z) : async unit :=
  let partBytes := Z.of_nat (length body) in
  if expiresAt upload <=? now then throw (Http 404) else
  if declaredChunkCount upload <? number then throw (Http 400) else
  if negb (bool_decide (content_length req = Some partBytes)) then throw (Http 400) else
  let! required := pure_ (requiredBytes number (declaredChunkCount upload) (declaredPlaintextBytes upload) (u_chunkPlaintextBytes upload)) in
  if negb (partBytes =? required) then throw (Http 400) else
  match part_digest req with
  | Some declaredDigest =>
      if negb (PART_DIGEST_PATTERN declaredDigest) then throw (Http 400)
      else if negb (bool_decide (sha256_hex body = declaredDigest)) then throw (Http 400) else ret tt
  | None => throw (Http 400)
  end.

Definition store_part (uploadId : DocId) (upload : Upload) (number : Z) (body : list Z) : async unit :=
  if declaredChunkCount upload =? 1 then call (PutObject uploadId body)
  else match s3UploadId upload with
       | None => throw (Http 500)
       | Some s3 => let! stored := call (UploadPart uploadId s3 number body) in if stored : bool then ret tt else throw (Http 404)
       end.

(** [documentPartParamsSchema]. *)
Definition valid_part_number (number : Z) : bool := (1 <=? number) && (number <=? MAX_DOCUMENT_CHUNK_COUNT).

Definition uploadPart (uploadId : DocId) (number : Z) (req : PartRequest) : async (Z * Z * Z) :=
  if negb (valid_part_number number) then throw (Http 400) else
  match part_body req with
  | None => throw (Http 415)
  | Some body =>
      let partBytes := Z.of_nat (length body) in
      let! found := call (FindUpload uploadId) in
      match found with
      | None => throw (Http 404)
      | Some upload =>
          let! now := call Now in
          let! _ := check_part upload number req body now in
          let! _ := store_part uploadId upload number body in
          let! updated := call (RecordPart uploadId {| partNumber := number; bytes := partBytes |}) in
          match updated with
          | Some received => ret (number, partBytes, received)
          | None =>
              let! _ := if declaredChunkCount upload =? 1 then reclaimUnownedPartObject uploadId else ret tt in
              throw (Http 404)
          end
      end
  end.

(** ** Completion *)

Definition readAssembledLedger (uploadId : DocId) (upload : Upload) : async EngineLedger :=
  let ledgerBytes := sumBytes (parts upload) in
  let! stat := call (HeadObject uploadId) in
  match stat with
  | None => throw (Http 404)
  | Some held => if negb (held =? ledgerBytes) then throw (Http 404) else ret (object_ (sort_by partNumber (parts upload)))
  end.

Definition readEngineLedger (uploadId : DocId) (upload : Upload) : async EngineLedger :=
  if declaredChunkCount upload =? 1 then
    let! stat := call (HeadObject uploadId) in
    match stat with
    | None => throw (Http 404)
    | Some held => ret (object_ [{| partNumber := 1; bytes := held |}])
    end
  else
  match s3UploadId upload with
  | None => throw (Http 500)
  | Some s3 =>
      let! listed := call (ListParts uploadId s3) in
      match listed with Some parts => ret (multipart s3 parts) | None => readAssembledLedger uploadId upload end
  end.

Definition releaseTransfer (uploadId : DocId) (engine : EngineLedger) : async unit :=
  let! _ := match engine with
            | object_ _ => let! _ := attempt (DeleteObject uploadId) in ret tt
            | multipart s3 _ => let! _ := attempt (AbortMultipartUpload uploadId s3) in ret tt
            end in
  call (DeleteUpload uploadId).

Definition discardUnnamedObject (uploadId : DocId) : async unit := let! _ := attempt (DeleteObject uploadId) in ret tt.

Definition new_document (folder : option Z) (upload : Upload) (fr : Framing) : Document :=
  {| d_folderId := folder; d_chunkCount := f_chunkCount fr; d_chunkPlaintextBytes := u_chunkPlaintextBytes upload;
     d_ciphertextBytes := f_ciphertextBytes fr; d_plaintextBytes := f_plaintextBytes fr; deletedAt := None; purgePending := false |}.

(** From [completeMultipartUpload] to the claim of the staging row. *)
Definition claim_transfer (uploadId : DocId) (engine : EngineLedger) (ciphertextBytes : Z) : async unit :=
  match engine with
  | multipart s3 parts =>
      let! done_ := call (CompleteMultipartUpload uploadId s3 (map (λ '(part, etag), (partNumber part, etag)) parts)) in
      if negb done_ then throw Failed else call (DeleteUpload uploadId)
  | object_ _ =>
      let! claimed := call (ClaimUpload uploadId (Some ciphertextBytes)) in
      if negb claimed then throw (Http 409) else ret tt
  end.

(** [Document.create] and its [catch]: the committed row, or the one another attempt committed. *)
Definition insert_document (uploadId : DocId) (row : Document) : async (Document * bool) :=
  let! created := attempt (CreateDocument uploadId row) in
  match created with
  | Some true => ret (row, true)
  | Some false =>
      let! existing := call (FindDocument uploadId) in
      match existing with
      | Some row => ret (row, false)
      | None => let! _ := discardUnnamedObject uploadId in throw Failed
      end
  | None => let! _ := discardUnnamedObject uploadId in throw Failed
  end.

(** After the insert: the row and the object of an erased account are taken back. *)
Definition confirm_document (uploadId : DocId) (row : Document) : async CompletionOutcome :=
  let! live := call (External accountLive) in
  if live =? 0 then
    let! _ := call (DeleteDocument uploadId) in
    let! _ := discardUnnamedObject uploadId in
    throw (Http 401)
  else
    let! _ := createAuditLog in
    ret (document row).

(** The folder the document is filed in, if it is still there. *)
Definition keep_folder (folder : option Z) : async (option Z) :=
  match folder with
  | Some f => let! exists_ := call (External (folderExists f)) in ret (if exists_ =? 0 then None else Some f)
  | None => ret None
  end.

(** What is done while the vault-key exclusion lock is held. *)
Definition commit_under_lock (uploadId : DocId) (upload : Upload) (engine : EngineLedger) (fr : Framing) (version : Z) : async CompletionOutcome :=
  let! committedBytes := call SumDocuments in
  if storageQuotaBytes <? committedBytes + f_plaintextBytes fr then
    let! _ := releaseTransfer uploadId engine in throw (Http 400)
  else
  let! _ := assertVaultNotRotating in
  let! current := call (External vaultKeyVersion) in
  if current <? version then ret (staleVaultKey current unreached) else
  if negb (version =? current) then ret (staleVaultKey current rotated) else
  let! folder := keep_folder (u_folderId upload) in
  let! _ := claim_transfer uploadId engine (f_ciphertextBytes fr) in
  let! inserted := insert_document uploadId (new_document folder upload fr) in
  let '(row, mine) := inserted in
  if mine : bool then confirm_document uploadId row else ret (document row).

Definition completeUnderLock (uploadId : DocId) (version : Z) : async CompletionOutcome :=
  let! committed := call (FindDocument uploadId) in
  match committed with
  | Some row => ret (document row)
  | None =>
      let! found := call (FindUpload uploadId) in
      match found with
      | None => throw (Http 404)
      | Some upload =>
          let! now := call Now in
          if expiresAt upload <=? now then throw (Http 404) else
          if (length (parts upload) =? 0)%nat then throw (Http 400) else
          let! engine := readEngineLedger uploadId upload in
          let! fr := pure_ (verifyLedger (parts upload) (engine_parts engine) (declaredChunkCount upload) (u_chunkPlaintextBytes upload)) in
          if maxDocumentBytes <? f_plaintextBytes fr then
            let! _ := releaseTransfer uploadId engine in throw (Http 400)
          else
          let! rotationLockId := acquireVaultRotationLock in
          finally (commit_under_lock uploadId upload engine fr version) (releaseVaultRotationLock rotationLockId)
      end
  end.

Definition completeUpload (uploadId : DocId) (version : Z) : async CompletionOutcome :=
  let! _ := assertVaultNotRotating in
  let! lockId := acquireJobLock (documentCompleteLockName uploadId) COMPLETE_LOCK_TTL_MS in
  match lockId with
  | None =>
      let! committed := call (FindDocument uploadId) in
      match committed with Some row => ret (document row) | None => throw (Http 409) end
  | Some lockId => finally (completeUnderLock uploadId version) (releaseJobLock (documentCompleteLockName uploadId) lockId)
  end.

(** ** Cancelling *)

Definition abortUpload (uploadId : DocId) : async unit :=
  let! found := call (FindUpload uploadId) in
  match found with
  | None => throw (Http 404)
  | Some upload =>
      match s3UploadId upload with
      | None =>
          let! claimed := call (ClaimUpload uploadId None) in
          if negb claimed then throw (Http 404) else
          let! _ := attempt (DeleteObject uploadId) in ret tt
      | Some s3 =>
          let! _ := call (AbortMultipartUpload uploadId s3) in
          call (DeleteUpload uploadId)
      end
  end.

End uploads.
