(* ===== verification/DocumentRequests.v ===== *)
(** What happens to a document once it is committed (server/src/controllers/documentController.ts),
    and the collector of what nothing names any more (server/src/jobs/documentCleanup.ts with
    server/src/utils/storageBreaker.ts); every request of the component as one program. *)
From stdpp Require Import gmap.
From S2P Require Import Prelude FullBackup DocumentObjects DocumentStore DocumentUploads.
Local Open Scope Z_scope.
Local Open Scope async_scope.

(** ** The circuit breaker *)

Definition MAX_CONSECUTIVE_STORAGE_FAILURES : Z := 5.

Record StorageBreaker := { failures : Z; consecutiveFailures : Z }.

Definition createStorageBreaker : StorageBreaker := {| failures := 0; consecutiveFailures := 0 |}.
Definition isRefusing (b : StorageBreaker) : bool := MAX_CONSECUTIVE_STORAGE_FAILURES <=? consecutiveFailures b.
Definition recordSuccess (b : StorageBreaker) : StorageBreaker := {| failures := failures b; consecutiveFailures := 0 |}.
Definition recordFailure (b : StorageBreaker) : StorageBreaker :=
  {| failures := failures b + 1; consecutiveFailures := consecutiveFailures b + 1 |}.

(** ** One document *)

Definition deleteDocument (id : DocId) : async unit :=
  let! now := call Now in
  let! found := call (TrashDocument id now) in
  if negb found then throw (Http 404) else createAuditLog.

Definition restoreDocument (id : DocId) : async unit :=
  let! found := call (RestoreDocument id) in
  if negb found then throw (Http 404) else createAuditLog.

Definition purgeDocument (id : DocId) : async unit :=
  let! found := call (MarkPurgePending id None) in
  if negb found then throw (Http 404) else
  let! _ := call (DeleteObject id) in
  let! _ := call (DeleteDocument id) in
  createAuditLog.

(** [documentSegmentParamsSchema]. *)
Definition valid_index (index : Z) : bool := (0 <=? index) && (index <? MAX_DOCUMENT_CHUNK_COUNT).

Definition getSegment (id : DocId) (index : Z) : async (list Z) :=
  if negb (valid_index index) then throw (Http 400) else
  let! found := call (FindDocument id) in
  match found with
  | None => throw (Http 404)
  | Some row =>
      if d_chunkCount row <=? index then throw (Http 400) else
      let! range := pure_ (segmentRange index (d_chunkCount row) (d_chunkPlaintextBytes row) (d_ciphertextBytes row)) in
      let! read := call (GetObjectRange id (start range) (end_ range)) in
      match read with
      | None => throw (Http 404)
      | Some body => if negb (Z.of_nat (length body) =? length_ range) then throw (Http 500) else ret body
      end
  end.

(** ** Emptying the trash *)

Definition EMPTY_TRASH_PAGE_SIZE : nat := 500.

Record Walk := { w_deletedCount : Z; w_lastId : option DocId; w_breaker : StorageBreaker }.

Definition fail_row (w : Walk) : Walk :=
  {| w_deletedCount := w_deletedCount w; w_lastId := w_lastId w; w_breaker := recordFailure (w_breaker w) |}.

(** The body of the loop: the claim, the object, the row. *)
Definition empty_row (startTime : Z) (id : DocId) (w : Walk) : async Walk :=
  let w := {| w_deletedCount := w_deletedCount w; w_lastId := Some id; w_breaker := w_breaker w |} in
  let! claim := attempt (MarkPurgePending id (Some startTime)) in
  match claim with
  | None => ret (fail_row w)
  | Some false => ret w
  | Some true =>
      let! object := attempt (DeleteObject id) in
      match object with
      | None => ret (fail_row w)
      | Some _ =>
          let w := {| w_deletedCount := w_deletedCount w; w_lastId := w_lastId w; w_breaker := recordSuccess (w_breaker w) |} in
          let! removed := attempt (DeleteDocument id) in
          match removed with
          | None => ret (fail_row w)
          | Some true => ret {| w_deletedCount := w_deletedCount w + 1; w_lastId := w_lastId w; w_breaker := w_breaker w |}
          | Some false => ret w
          end
      end
  end.

Fixpoint empty_page (startTime : Z) (page : list DocId) (w : Walk) : async Walk :=
  match page with
  | [] => ret w
  | id :: page =>
      if isRefusing (w_breaker w) then ret w else
      let! w := empty_row startTime id w in
      empty_page startTime page w
  end.

(** [fuel] bounds the pages read. *)
Fixpoint empty_loop (fuel : nat) (startTime : Z) (w : Walk) : async Walk :=
  match fuel with
  | O => throw Interrupted
  | S fuel =>
      if isRefusing (w_breaker w) then ret w else
      let! page := call (FindTrashed startTime (w_lastId w) EMPTY_TRASH_PAGE_SIZE) in
      match page with
      | [] => ret w
      | _ => let! w := empty_page startTime page w in empty_loop fuel startTime w
      end
  end.

Definition emptyDocumentTrash (fuel : nat) : async (Z * Z) :=
  let! startTime := call Now in
  let! w := empty_loop fuel startTime {| w_deletedCount := 0; w_lastId := None; w_breaker := createStorageBreaker |} in
  let! _ := createAuditLog in
  ret (w_deletedCount w, failures (w_breaker w)).

(** ** The collector *)

Definition DOCUMENT_CLEANUP_LOCK_TTL_MS : Z := 15 * 60 * 1000.
Definition ABANDONED_UPLOAD_GRACE_MS : Z := 60 * 60 * 1000.
Definition ORPHAN_MIN_AGE_MS : Z := 24 * 60 * 60 * 1000.
Definition ORPHAN_SWEEP_MAX_KEYS_PER_RUN : Z := 1000.
Definition ORPHAN_SWEEP_PAGE_SIZE : Z := 250.
Definition ORPHAN_SWEEP_MAX_PAGES_PER_RUN : nat := 32.
Definition PURGE_PENDING_MAX_PER_RUN : nat := 1000.
Definition PURGE_PENDING_PAGE_SIZE : nat := 500.

Record CleanupTotals := { uploadsAborted : Z; purgesFinished : Z; orphansDeleted : Z; keysExamined : Z; breaker : StorageBreaker }.

Definition no_totals : CleanupTotals :=
  {| uploadsAborted := 0; purgesFinished := 0; orphansDeleted := 0; keysExamined := 0; breaker := createStorageBreaker |}.
Definition count_aborted (t : CleanupTotals) : CleanupTotals :=
  {| uploadsAborted := uploadsAborted t + 1; purgesFinished := purgesFinished t; orphansDeleted := orphansDeleted t;
     keysExamined := keysExamined t; breaker := recordSuccess (breaker t) |}.
Definition count_purged (n : Z) (t : CleanupTotals) : CleanupTotals :=
  {| uploadsAborted := uploadsAborted t; purgesFinished := purgesFinished t + n; orphansDeleted := orphansDeleted t;
     keysExamined := keysExamined t; breaker := breaker t |}.
Definition count_orphan (t : CleanupTotals) : CleanupTotals :=
  {| uploadsAborted := uploadsAborted t; purgesFinished := purgesFinished t; orphansDeleted := orphansDeleted t + 1;
     keysExamined := keysExamined t; breaker := recordSuccess (breaker t) |}.
Definition count_keys (n : Z) (t : CleanupTotals) : CleanupTotals :=
  {| uploadsAborted := uploadsAborted t; purgesFinished := purgesFinished t; orphansDeleted := orphansDeleted t;
     keysExamined := keysExamined t + n; breaker := breaker t |}.
Definition with_breaker (b : StorageBreaker) (t : CleanupTotals) : CleanupTotals :=
  {| uploadsAborted := uploadsAborted t; purgesFinished := purgesFinished t; orphansDeleted := orphansDeleted t;
     keysExamined := keysExamined t; breaker := b |}.
Definition count_failure (t : CleanupTotals) : CleanupTotals := with_breaker (recordFailure (breaker t)) t.
Definition count_success (t : CleanupTotals) : CleanupTotals := with_breaker (recordSuccess (breaker t)) t.

Section requests.
Context `{Deployment}.

(** *** Sweep 1: abandoned engine-side uploads *)

Definition is_before (date : option Z) (limit : Z) : bool := match date with Some t => t <? limit | None => false end.

Fixpoint abort_candidates (candidates : list (DocId * nat)) (claimed : list DocId) (t : CleanupTotals) : async CleanupTotals :=
  match candidates with
  | [] => ret t
  | (id, s3) :: candidates =>
      if bool_decide (id ∈ claimed) then abort_candidates candidates claimed t else
      if isRefusing (breaker t) then ret t else
      let! aborted := attempt (AbortMultipartUpload id s3) in
      match aborted with
      | Some _ => abort_candidates candidates claimed (count_aborted t)
      | None => abort_candidates candidates claimed (count_failure t)
      end
  end.

Definition abortAbandonedUploads (now : Z) (t : CleanupTotals) : async CleanupTotals :=
  let abandonedBefore := now - uploadTtlMs - ABANDONED_UPLOAD_GRACE_MS in
  let! uploads := call ListMultipartUploads in
  let candidates := map fst (List.filter (λ '(_, initiated), is_before initiated abandonedBefore) uploads) in
  match candidates with
  | [] => ret t
  | _ =>
      let! claimed := call (FindUploads (map fst candidates)) in
      abort_candidates candidates claimed t
  end.

(** *** Sweep 2: interrupted purges *)

(** One page; [finished] counts the purges of the page, [examined] the rows of the run. *)
Fixpoint purge_page (page : list DocId) (lastId : option DocId) (examined : nat) (finished : Z) (t : CleanupTotals)
    : async (option DocId * nat * Z * CleanupTotals) :=
  match page with
  | [] => ret (lastId, examined, finished, t)
  | id :: page =>
      if isRefusing (breaker t) then ret (Some id, S examined, finished, t) else
      let! object := attempt (DeleteObject id) in
      match object with
      | None => purge_page page (Some id) (S examined) finished (count_failure t)
      | Some _ =>
          let t := count_success t in
          let! removed := attempt (DeleteDocument id) in
          match removed with
          | None => purge_page page (Some id) (S examined) finished (count_failure t)
          | Some true => purge_page page (Some id) (S examined) (finished + 1) (count_purged 1 t)
          | Some false => purge_page page (Some id) (S examined) finished t
          end
      end
  end.

(** Each page examines a row, so [PURGE_PENDING_MAX_PER_RUN] pages are never exceeded. *)
Fixpoint purge_loop (fuel : nat) (lastId : option DocId) (examined : nat) (t : CleanupTotals) : async CleanupTotals :=
  if negb (examined <? PURGE_PENDING_MAX_PER_RUN)%nat || isRefusing (breaker t) then ret t else
  match fuel with
  | O => throw Interrupted
  | S fuel =>
      let! page := call (FindPurgePending lastId (Nat.min PURGE_PENDING_PAGE_SIZE (PURGE_PENDING_MAX_PER_RUN - examined))) in
      match page with
      | [] => ret t
      | _ =>
          let! walked := purge_page page lastId examined 0 t in
          let '(lastId, examined, finished, t) := walked in
          let! _ := if 0 <? finished then (let! _ := call (External recordJobAuditEntries) in ret tt) else ret tt in
          purge_loop fuel lastId examined t
      end
  end.

Definition finishPendingPurges (t : CleanupTotals) : async CleanupTotals := purge_loop PURGE_PENDING_MAX_PER_RUN None 0 t.

(** *** Sweep 3: orphaned objects *)

Definition is_candidate (orphanedBefore completableBefore : Z) (object : DocId * option Z) : bool :=
  is_before (snd object) orphanedBefore && (getTimestamp (fst object) <? completableBefore).

Fixpoint delete_orphans (candidates named : list DocId) (t : CleanupTotals) : async CleanupTotals :=
  match candidates with
  | [] => ret t
  | id :: candidates =>
      if bool_decide (id ∈ named) then delete_orphans candidates named t else
      if isRefusing (breaker t) then ret t else
      let! removed := attempt (DeleteObject id) in
      match removed with
      | Some _ => delete_orphans candidates named (count_orphan t)
      | None => delete_orphans candidates named (count_failure t)
      end
  end.

Definition page_start (token : option nat) (cursor : option DocId) : Listing :=
  match token, cursor with
  | Some token, _ => ContinuationToken token
  | None, Some key => StartAfter key
  | None, None => FromStart
  end.

Definition last_key (objects : list (DocId * option Z)) (cursor : option DocId) : option DocId :=
  match last objects with Some (key, _) => Some key | None => cursor end.

(** [pages] is what is left of [ORPHAN_SWEEP_MAX_PAGES_PER_RUN]. *)
Fixpoint sweep_loop (pages : nat) (now : Z) (cursor : option DocId) (token : option nat) (t : CleanupTotals)
    : async (option DocId * CleanupTotals) :=
  match pages with
  | O => ret (cursor, t)
  | S pages =>
      if negb (keysExamined t <? ORPHAN_SWEEP_MAX_KEYS_PER_RUN) || isRefusing (breaker t) then ret (cursor, t) else
      let! page := call (ListObjects (Z.min ORPHAN_SWEEP_PAGE_SIZE (ORPHAN_SWEEP_MAX_KEYS_PER_RUN - keysExamined t)) (page_start token cursor)) in
      let '(objects, next) := page in
      let t := count_keys (Z.of_nat (length objects)) t in
      let cursor := last_key objects cursor in
      let candidates := map fst (List.filter (is_candidate (now - ORPHAN_MIN_AGE_MS) (now - uploadTtlMs - ABANDONED_UPLOAD_GRACE_MS)) objects) in
      let! t := match candidates with
                | [] => ret t
                | _ =>
                    let! rows := call (FindDocuments candidates) in
                    let! staged := call (FindUploads candidates) in
                    delete_orphans candidates (rows ++ staged) t
                end in
      match next with
      | None => ret (None, t)
      | Some token => sweep_loop pages now cursor (if (length objects =? 0)%nat then Some token else None) t
      end
  end.

Definition sweepOrphanedObjects (now : Z) (resumeAfter : option DocId) (t : CleanupTotals) : async (option DocId * CleanupTotals) :=
  sweep_loop ORPHAN_SWEEP_MAX_PAGES_PER_RUN now resumeAfter None t.

(** *** One run *)

Definition run_sweeps (carriedCursor : option DocId) : async (option DocId) :=
  let! now := call Now in
  let! t := abortAbandonedUploads now no_totals in
  let! t := finishPendingPurges t in
  let! swept := sweepOrphanedObjects now carriedCursor t in
  ret (fst swept).

(** [catch (error) { log }], the value [d] standing for what was assigned before. *)
Definition caught {R} (p : async R) (d : R) : async R :=
  bind p (λ r, match r with Ok x => ret x | Throw _ => ret d end).

Definition runDocumentCleanup (carriedCursor : option DocId) : async (option DocId) :=
  let! lock := attempt (AcquireJobLock cleanupLockName DOCUMENT_CLEANUP_LOCK_TTL_MS) in
  match lock with
  | Some (Some lockId) =>
      finally (caught (run_sweeps carriedCursor) carriedCursor) (let! _ := attempt (ReleaseJobLock cleanupLockName lockId) in ret tt)
  | _ => ret carriedCursor
  end.

(** ** Every request *)

Inductive Request :=
  | InitUpload (body : InitDocumentUploadInput)
  | UploadPartRequest (uploadId : DocId) (number : Z) (req : PartRequest)
  | CompleteUpload (uploadId : DocId) (version : Z)
  | AbortUpload (uploadId : DocId)
  | DeleteRequest (id : DocId)
  | RestoreRequest (id : DocId)
  | PurgeRequest (id : DocId)
  | EmptyTrash (fuel : nat)
  | GetSegment (id : DocId) (index : Z)
  | Cleanup (carriedCursor : option DocId).

Inductive Response :=
  | Opened (uploadId : DocId) (vaultKeyVersion : Z)
  | PartStored (number stored received : Z)
  | Completed (outcome : CompletionOutcome)
  | Message
  | Emptied (deletedCount failedCount : Z)
  | Segment (body : list Z)
  | Collected (cursor : option DocId).

Definition handle (r : Request) : async Response :=
  match r with
  | InitUpload body => let! opened := initUpload body in ret (Opened (fst opened) (snd opened))
  | UploadPartRequest id n req => let! stored := uploadPart id n req in let '(n, b, received) := stored in ret (PartStored n b received)
  | CompleteUpload id version => let! outcome := completeUpload id version in ret (Completed outcome)
  | AbortUpload id => let! _ := abortUpload id in ret Message
  | DeleteRequest id => let! _ := deleteDocument id in ret Message
  | RestoreRequest id => let! _ := restoreDocument id in ret Message
  | PurgeRequest id => let! _ := purgeDocument id in ret Message
  | EmptyTrash fuel => let! counts := emptyDocumentTrash fuel in ret (Emptied (fst counts) (snd counts))
  | GetSegment id index => let! body := getSegment id index in ret (Segment body)
  | Cleanup cursor => let! cursor := runDocumentCleanup cursor in ret (Collected cursor)
  end.

End requests.
