(* ===== verification/DocumentSystem.v ===== *)
(** Any number of requests on one account's documents, interleaved with time, faults, crashes and the
    expiry of staging rows; what a request may do to the state; and the calculus in which a request
    is checked once for every company it may have.

    A request keeps the identifiers it minted, its object ids and its lock ids.  While a request that
    holds a completion lock or the vault-key exclusion lock is running, time does not pass the expiry
    of that lock: this is the assumption documentController.ts makes of its holders.  A call that
    fails has happened or has not, and [lost_insert] says whether that may be so of the insert of a
    document. *)
From stdpp Require Import gmap.
From S2P Require Import Prelude FullBackup DocumentObjects DocumentStore DocumentUploads DocumentRequests.
Local Open Scope Z_scope.

Section system.
Context `{Deployment}.

(** ** The system *)

Record Thread := { program : async Response; own : gset nat }.
Record System := { store : Store; threads : list Thread }.

Definition own_after {X} (c : cmd X) (x : X) (own : gset nat) : gset nat :=
  match c in cmd X return X -> gset nat with
  | AcquireJobLock _ _ => λ lock, match lock with Some lockId => {[lockId]} ∪ own | None => own end
  | NewObjectId => λ id, {[fst id]} ∪ own
  | _ => λ _, own
  end x.

Definition may_be_lost (lost_insert : bool) {X} (c : cmd X) : bool :=
  match c with CreateDocument _ _ => lost_insert | _ => true end.

(** The locks whose holders are taken to finish in time. *)
Definition protected (name : LockName) : bool :=
  match name with documentCompleteLockName _ | vaultRotationLockName => true | _ => false end.

Definition finished (p : async Response) : bool := match p with Done _ => true | Call _ _ => false end.

Definition in_time (t : Z) (s : System) : Prop :=
  ∀ thread name l, thread ∈ threads s -> finished (program thread) = false -> protected name = true ->
    locks (store s) !! name = Some l -> lockedBy l ∈ own thread -> t < l_expiresAt l.

Inductive step (lost_insert : bool) : System -> System -> Prop :=
  | step_time s t : clock (store s) <= t -> in_time t s ->
      step lost_insert s {| store := set_clock t (store s); threads := threads s |}
  | step_start s r :
      step lost_insert s {| store := store s; threads := threads s ++ [{| program := handle r; own := ∅ |}] |}
  | step_run s i X (c : cmd X) k o answer s' x :
      threads s !! i = Some {| program := Call c k; own := o |} -> exec answer c (store s) = (s', x) ->
      step lost_insert s {| store := s'; threads := <[i := {| program := k (Some x); own := own_after c x o |}]> (threads s) |}
  | step_fail s i X (c : cmd X) k o :
      threads s !! i = Some {| program := Call c k; own := o |} ->
      step lost_insert s {| store := store s; threads := <[i := {| program := k None; own := o |}]> (threads s) |}
  | step_lost s i X (c : cmd X) k o answer s' x :
      threads s !! i = Some {| program := Call c k; own := o |} -> may_be_lost lost_insert c = true ->
      exec answer c (store s) = (s', x) ->
      step lost_insert s {| store := s'; threads := <[i := {| program := k None; own := o |}]> (threads s) |}
  | step_crash s i p o : threads s !! i = Some {| program := p; own := o |} ->
      step lost_insert s {| store := store s; threads := <[i := {| program := Done (Throw Interrupted); own := o |}]> (threads s) |}
  | step_expire s id u : uploads (store s) !! id = Some u -> expiresAt u <= clock (store s) ->
      step lost_insert s {| store := set_uploads (delete id) (store s); threads := threads s |}.

(** An account that never had a document. *)
Definition empty_store (t : Z) : Store :=
  {| uploads := ∅; documents := ∅; objects := ∅; multiparts := ∅; locks := ∅; clock := t; fresh := 0;
     made := ∅; cancel_claims := ∅; opened := ∅ |}.

Definition reachable (lost_insert : bool) (s : System) : Prop :=
  ∃ t, rtc (step lost_insert) {| store := empty_store t; threads := [] |} s.

(** ** The invariant of the store *)

(** What a transfer declared when it was opened, and the size of its object. *)
Definition declared_ciphertext (f : Z * Z * Z) : Z := documentCiphertextBytesFor (fst (fst f)) (snd (fst f)).
Definition declared_part (n : Z) (f : Z * Z * Z) : result DocError Z := requiredBytes n (snd (fst f)) (fst (fst f)) (snd f).

Definition well_framed (f : Z * Z * Z) : Prop :=
  let '(plaintext, count, chunk) := f in
  0 <= plaintext <= MAX_SAFE_INTEGER /\ plaintext <= maxDocumentBytes /\ count <= MAX_DOCUMENT_CHUNK_COUNT /\ chunk = DOCUMENT_PLAINTEXT_CHUNK_BYTES /\
  count = documentChunkCountFor plaintext chunk.

Definition declared_by (u : Upload) : Z * Z * Z := (declaredPlaintextBytes u, declaredChunkCount u, u_chunkPlaintextBytes u).
Definition framed_as (d : Document) (f : Z * Z * Z) : Prop :=
  f = (d_plaintextBytes d, d_chunkCount d, d_chunkPlaintextBytes d) /\ d_ciphertextBytes d = declared_ciphertext f.

(** Past this time no completion of the transfer can be running. *)
Definition late (id : DocId) (s : Store) : Prop := snd id + uploadTtlMs + ABANDONED_UPLOAD_GRACE_MS - 1000 <= clock s.

Definition committed (s : Store) : Z := sum_by d_plaintextBytes (documents s).

Record good (s : Store) : Prop := {
  g_locks name l : locks s !! name = Some l -> (lockedBy l < fresh s)%nat;
  g_opened id f : opened s !! id = Some f -> (fst id < fresh s)%nat /\ snd id <= clock s /\ well_framed f;
  g_made id : id ∈ made s -> is_Some (opened s !! id);
  g_cancel_claims id : id ∈ cancel_claims s -> (id ∉ made s) /\ ∃ f, opened s !! id = Some f /\ snd (fst f) = 1;
  g_rows id u : uploads s !! id = Some u ->
    opened s !! id = Some (declared_by u) /\ (id ∉ made s) /\ (id ∉ cancel_claims s) /\ expiresAt u <= snd id + uploadTtlMs /\
    (s3UploadId u = None -> declaredChunkCount u = 1);
  g_documents id d : documents s !! id = Some d -> id ∈ made s /\ ∃ f, opened s !! id = Some f /\ framed_as d f;
  g_objects id o : objects s !! id = Some o -> ∃ f, opened s !! id = Some f /\ Z.of_nat (length (content o)) = declared_ciphertext f;
  g_parts s3 m n etag body : multiparts s !! s3 = Some m -> m_parts m !! n = Some (etag, body) ->
    ∃ f, opened s !! m_key m = Some f /\ declared_part n f = Ok (Z.of_nat (length body));
  g_present id d : documents s !! id = Some d -> purgePending d = false -> is_Some (objects s !! id);
  g_quota : committed s <= Z.max 0 storageQuotaBytes;
}.

(** ** What others may do around a request *)

Definition holds (o : gset nat) (name : LockName) (s : Store) : Prop := ∃ l, locks s !! name = Some l /\ lockedBy l ∈ o.

(** A document that is gone, or going. *)
Definition dead (id : DocId) (s : Store) : Prop := id ∈ made s /\ ∀ d, documents s !! id = Some d -> purgePending d = true.

Record rely (o : gset nat) (s s' : Store) : Prop := {
  r_clock : clock s <= clock s';
  r_fresh : (fresh s <= fresh s')%nat;
  r_locks name l : protected name = true -> locks s !! name = Some l -> lockedBy l ∈ o -> locks s' !! name = Some l;
  r_made id : id ∈ made s -> id ∈ made s';
  r_cancel_claims id : id ∈ cancel_claims s -> id ∈ cancel_claims s';
  r_opened id f : opened s !! id = Some f -> opened s' !! id = Some f;
  r_minted id : fst id ∈ o -> opened s !! id = None -> opened s' !! id = None;
  r_claimed id f : opened s !! id = Some f -> uploads s !! id = None ->
    uploads s' !! id = None /\ (id ∈ cancel_claims s' -> id ∈ cancel_claims s);
  r_dead id : dead id s -> dead id s';
  r_unmade id : holds o (documentCompleteLockName id) s -> id ∉ made s -> id ∉ made s';
  r_object id : holds o (documentCompleteLockName id) s -> id ∉ made s -> is_Some (objects s !! id) ->
    is_Some (objects s' !! id) \/ id ∈ cancel_claims s' \/ late id s';
  r_late id : late id s -> id ∉ made s -> id ∉ made s';
  r_sum : holds o vaultRotationLockName s -> committed s' <= committed s;
}.

(** The locks a running request holds have not lapsed. *)
Definition alive (o : gset nat) (s : Store) : Prop :=
  ∀ name l, protected name = true -> locks s !! name = Some l -> lockedBy l ∈ o -> clock s < l_expiresAt l.

(** An object a request may delete. *)
Definition may_delete (o : gset nat) (id : DocId) (s : Store) : Prop :=
  (holds o (documentCompleteLockName id) s /\ id ∉ made s) \/ dead id s \/ id ∈ cancel_claims s \/ (late id s /\ id ∉ made s).

(** What a command needs for the rest to rely on it. *)
Definition permitted (o : gset nat) {X} (c : cmd X) (s : Store) : Prop :=
  match c with
  | AcquireJobLock _ ttlMs => 0 < ttlMs
  | ReleaseJobLock _ lockId => lockId ∈ o
  | CreateUpload id row =>
      fst id ∈ o /\ snd id <= clock s /\ opened s !! id = None /\ well_framed (declared_by row) /\ expiresAt row <= snd id + uploadTtlMs /\
      (s3UploadId row = None -> declaredChunkCount row = 1)
  | PutObject id body => ∃ f, opened s !! id = Some f /\ Z.of_nat (length body) = declared_ciphertext f
  | UploadPart id _ number body => ∃ f, opened s !! id = Some f /\ declared_part number f = Ok (Z.of_nat (length body))
  | CompleteMultipartUpload id _ named =>
      ∃ f, opened s !! id = Some f /\ map fst named = map Z.of_nat (seq 1 (Z.to_nat (snd (fst f))))
  | ClaimUpload id None => ∀ f, opened s !! id = Some f -> snd (fst f) = 1
  | DeleteObject id => may_delete o id s
  | CreateDocument id row =>
      holds o (documentCompleteLockName id) s /\ holds o vaultRotationLockName s /\ (id ∉ made s) /\ (id ∉ cancel_claims s) /\
      uploads s !! id = None /\ ~ late id s /\ is_Some (objects s !! id) /\ purgePending row = false /\
      (∃ f, opened s !! id = Some f /\ framed_as row f) /\ committed s + d_plaintextBytes row <= storageQuotaBytes
  | _ => True
  end.

(** ** Checked programs *)

Fixpoint safe {R} (p : prog R) (o : gset nat) (s : Store) (Q : R -> gset nat -> Store -> Prop) : Prop :=
  match p with
  | Done r => Q r o s
  | Call c k =>
      ∀ s1, rely o s s1 -> good s1 -> alive o s1 ->
        permitted o c s1 /\
        (∀ answer s2 x, exec answer c s1 = (s2, x) -> good s2 -> alive (own_after c x o) s2 -> safe (k (Some x)) (own_after c x o) s2 Q) /\
        safe (k None) o s1 Q /\
        (∀ answer s2 x, may_be_lost false c = true -> exec answer c s1 = (s2, x) -> good s2 -> safe (k None) o s2 Q)
  end.

End system.
