(* ===== verification/DocumentInvariant.v ===== *)
(** Every permitted command, the passing of time and the expiry of staging rows keep the invariant of
    the store, and are what the other requests rely on. *)
From stdpp Require Import gmap.
From S2P Require Import Prelude FullBackup DocumentObjects DocumentObjectsSpec DocumentStore DocumentUploads DocumentRequests DocumentSystem.
Local Open Scope Z_scope.

Section sums.
Context {A : Type} (f : A -> Z).

Lemma sum_by_delete (m : gmap DocId A) i x : m !! i = Some x -> sum_by f m = f x + sum_by f (delete i m).
Proof. intros Hi. unfold sum_by. apply (map_fold_delete_L (λ _ x total, f x + total)); [|done]. intros. lia. Qed.

Lemma sum_by_insert_new (m : gmap DocId A) i x : m !! i = None -> sum_by f (<[i := x]> m) = f x + sum_by f m.
Proof. intros Hi. unfold sum_by. apply (map_fold_insert_L (λ _ x total, f x + total)); [|done]. intros. lia. Qed.

Lemma sum_by_update (m : gmap DocId A) i x y : m !! i = Some x -> f y = f x -> sum_by f (<[i := y]> m) = sum_by f m.
Proof.
  intros Hi E. rewrite (sum_by_delete (<[i := y]> m) i y), (sum_by_delete m i x) by (done || apply lookup_insert_eq).
  by rewrite delete_insert_eq, E.
Qed.
End sums.

Section rely.
Context `{Deployment}.

#[export] Instance rely_preorder o : PreOrder (rely o).
Proof.
  split.
  - intros s. constructor; auto; lia.
  - intros s s1 s2 R1 R2. assert (∀ name, protected name = true -> holds o name s -> holds o name s1) as Hh.
    { intros name Hn (l & Hl & Ho). exists l. split; [by eapply r_locks|done]. }
    pose proof (r_clock _ _ _ R1). pose proof (r_clock _ _ _ R2). pose proof (r_fresh _ _ _ R1). pose proof (r_fresh _ _ _ R2).
    constructor; try lia.
    + intros name l Hn Hl Ho. apply (r_locks _ _ _ R2); [done| |done]. by apply (r_locks _ _ _ R1).
    + intros id Hm. by apply (r_made _ _ _ R2), (r_made _ _ _ R1).
    + intros id Hm. by apply (r_cancel_claims _ _ _ R2), (r_cancel_claims _ _ _ R1).
    + intros id f Hf. by apply (r_opened _ _ _ R2), (r_opened _ _ _ R1).
    + intros id Ho Hi. apply (r_minted _ _ _ R2); [done|]. by apply (r_minted _ _ _ R1).
    + intros id f Hf Hu. destruct (r_claimed _ _ _ R1 id f Hf Hu) as [Hu1 Hc1]. apply (r_opened _ _ _ R1) in Hf.
      destruct (r_claimed _ _ _ R2 id f Hf Hu1) as [Hu2 Hc2]. auto.
    + intros id Hd. by apply (r_dead _ _ _ R2), (r_dead _ _ _ R1).
    + intros id Hd Hm. apply (r_unmade _ _ _ R2); [by apply Hh|]. by apply (r_unmade _ _ _ R1).
    + intros id Hh1 Hm Ho. destruct (r_object _ _ _ R1 id Hh1 Hm Ho) as [Ho1|[Hc|Hl]].
      * eapply r_object; [done|by apply Hh|by eapply r_unmade|done].
      * right. left. by eapply r_cancel_claims.
      * right. right. unfold late in *. lia.
    + intros id Hl Hm. eapply r_late; [done|unfold late in *; lia|by eapply r_late].
    + intros Hr. transitivity (committed s1); [eapply r_sum|eapply r_sum]; eauto.
Qed.

Lemma holds_rely o name s s' : protected name = true -> rely o s s' -> holds o name s -> holds o name s'.
Proof. intros Hn R (l & Hl & Ho). exists l. split; [by eapply r_locks|done]. Qed.

Lemma holds_disjoint o o' name s : o ## o' -> holds o name s -> holds o' name s -> False.
Proof. intros Hd (l & Hl & Ho) (l' & Hl' & Ho'). rewrite Hl in Hl'. injection Hl' as <-. set_solver. Qed.

(** A step that leaves rows, documents and objects alone. *)
Lemma rely_quiet o s s' : clock s <= clock s' -> (fresh s <= fresh s')%nat ->
  (∀ name l, protected name = true -> locks s !! name = Some l -> lockedBy l ∈ o -> locks s' !! name = Some l) ->
  uploads s' = uploads s -> documents s' = documents s -> objects s' = objects s ->
  made s' = made s -> cancel_claims s' = cancel_claims s -> opened s' = opened s -> rely o s s'.
Proof.
  intros Hc Hf Hl Eu Ed Eo Em Ek Ep. constructor; unfold committed, late, dead in *; rewrite ?Eu, ?Ed, ?Eo, ?Em, ?Ek, ?Ep; auto; lia.
Qed.

(** A step that only changes staging rows already opened. *)
Lemma rely_rows o s f : (∀ id, uploads s !! id = None -> f (uploads s) !! id = None) -> rely o s (set_uploads f s).
Proof. intros Hf. constructor; unfold late, committed, dead; cbn; auto; lia. Qed.

(** A document updated in place. *)
Lemma rely_update o s id matches g s' b : update_document id matches g s = (s', b) ->
  (∀ d, d_plaintextBytes (g d) = d_plaintextBytes d) -> (∀ d, purgePending d = true -> purgePending (g d) = true) ->
  rely o s s'.
Proof.
  unfold update_document. intros E Hp Hd. destruct (documents s !! id) as [d|] eqn:Ed; [|injection E as <- _; reflexivity].
  destruct (matches d); injection E as <- _; [|reflexivity]. constructor; cbn; auto; [lia| |].
  - intros id' [Hm Hk]. split; [done|]. cbn. intros d'. destruct (decide (id' = id)) as [->|Hne].
    + rewrite lookup_insert_eq. intros [= <-]. by apply Hd, Hk.
    + rewrite lookup_insert_ne by done. apply Hk.
  - intros _. unfold committed. cbn. erewrite sum_by_update; [reflexivity|exact Ed|apply Hp].
Qed.

Lemma rely_lock (o : gset nat) s name l : alive o s -> lock_free name s = true ->
  rely o s (tick (set_locks <[name := l]> s)).
Proof.
  intros Ha Hf. apply rely_quiet; try done; cbn; try lia. intros name' l' Hp Hl Ho. rewrite lookup_insert_ne; [done|].
  intros <-. unfold lock_free in Hf. rewrite Hl in Hf. specialize (Ha _ _ Hp Hl Ho). lia.
Qed.

Lemma rely_unlock (o : gset nat) s name l : locks s !! name = Some l -> lockedBy l ∉ o -> rely o s (set_locks (delete name) s).
Proof.
  intros Hl Hn. apply rely_quiet; try done; cbn; try lia. intros name' l' Hp Hl' Ho. rewrite lookup_delete_ne; [done|].
  intros <-. rewrite Hl in Hl'. by injection Hl' as <-.
Qed.

(** A staging row opened under an identifier of another request. *)
Lemma rely_open (o : gset nat) s id row : opened s !! id = None -> fst id ∉ o ->
  rely o s (log_opened id row (set_uploads <[id := row]> s)).
Proof.
  intros Hn Ho. constructor; unfold late, committed, dead; cbn; auto; try lia.
  - intros id' f Hf. rewrite lookup_insert_ne; [done|]. intros <-. congruence.
  - intros id' Hi Hn'. rewrite lookup_insert_ne; [done|]. by intros <-.
  - intros id' f Hf Hu. split; [|done]. rewrite lookup_insert_ne; [done|]. intros <-. congruence.
Qed.

(** A staging row claimed by a cancellation. *)
Lemma rely_cancel (o : gset nat) s id u : uploads s !! id = Some u -> rely o s (log_cancel_claim id (set_uploads (delete id) s)).
Proof.
  intros Hu. constructor; unfold late, committed, dead; cbn; auto; try lia.
  - intros id' Hc. set_solver.
  - intros id' f Hf Hn. split; [by rewrite lookup_delete_None; right|]. intros [->%elem_of_singleton|Hc]%elem_of_union; [|done].
    by rewrite Hu in Hn.
Qed.

(** A document inserted by the holder of both locks. *)
Lemma rely_insert (o o' : gset nat) s id row : good s -> permitted o (CreateDocument id row) s -> o ## o' ->
  rely o' s (log_made id (set_documents <[id := row]> s)).
Proof.
  intros Hg (Hc & Hr & Hm & Hk & Hu & Hl & Ho & Hp & Hf & Hq) Hd. constructor; unfold late, committed, dead; cbn; auto; try lia.
  - intros id' Hi. set_solver.
  - intros id' [Hi Hx]. split; [set_solver|]. intros d. rewrite lookup_insert_ne; [apply Hx|]. by intros <-.
  - intros id' Hh Hi. intros [->%elem_of_singleton|]%elem_of_union; [|done]. by apply (holds_disjoint o o' _ s Hd Hc Hh).
  - intros id' Hh Hi. intros [->%elem_of_singleton|]%elem_of_union; [|done]. by apply Hl.
  - intros Hh. destruct (holds_disjoint o o' _ s Hd Hr Hh).
Qed.

Lemma committed_delete s id : good s -> committed (set_documents (delete id) s) <= committed s.
Proof.
  intros Hg. unfold committed. cbn. destruct (documents s !! id) as [d|] eqn:Ed; [|by rewrite delete_id].
  rewrite (sum_by_delete _ (documents s) id d) by done. destruct (g_documents s Hg id d Ed) as (_ & f & Hf & Hfr & _).
  destruct (g_opened s Hg id f Hf) as (_ & _ & Hw). subst f. destruct Hw as [Hw _]. lia.
Qed.

Lemma rely_delete_row (o : gset nat) s id : good s -> rely o s (set_documents (delete id) s).
Proof.
  intros Hg. constructor; unfold late, dead; cbn; auto; try lia.
  - intros id' [Hm Hx]. split; [done|]. intros d Hd. apply lookup_delete_Some in Hd as [_ Hd]. by apply Hx.
  - intros _. by apply committed_delete.
Qed.

(** An object written. *)
Lemma rely_put (o : gset nat) s id x : rely o s (set_objects <[id := x]> s).
Proof.
  constructor; unfold late, committed, dead; cbn; auto; try lia. intros id' Hh Hm Hi. left.
  destruct (decide (id' = id)) as [->|Hne]; [rewrite lookup_insert_eq; by eexists|by rewrite lookup_insert_ne].
Qed.

Lemma rely_delete_object (o o' : gset nat) s id : good s -> may_delete o id s -> o ## o' -> rely o' s (set_objects (delete id) s).
Proof.
  intros Hg Hd Ho. constructor; unfold late, committed, dead; cbn; auto; try lia. intros id' Hh Hm Hi.
  destruct (decide (id' = id)) as [->|Hne]; [|left; by rewrite lookup_delete_ne]. right.
  destruct Hd as [[Hh' _]|[[Hm' _]|[Hc|[Hl _]]]]; [destruct (holds_disjoint o o' _ s Ho Hh' Hh)|done|by left|by right].
Qed.

(** What another request does is what this one relies on. *)
Lemma exec_rely {X} (c : cmd X) (o o' : gset nat) s s' x answer : good s -> permitted o c s -> o ## o' -> alive o' s ->
  (∀ i, i ∈ o' -> (i < fresh s)%nat) -> exec answer c s = (s', x) -> rely o' s s'.
Proof.
  intros Hg Hp Hd Ha Hf E. destruct c; cbn [exec permitted] in *;
    try (injection E as <- _; first [reflexivity|by apply rely_quiet; cbn; auto; lia|by apply rely_put]).
  - destruct (lock_free _ s) eqn:El; injection E as <- _; [|reflexivity]. by apply rely_lock.
  - destruct (locks s !! name) as [l|] eqn:El; [|injection E as <- _; reflexivity].
    destruct (_ =? _)%nat eqn:Eq; injection E as <- _; [|reflexivity]. apply Nat.eqb_eq in Eq. eapply rely_unlock; [done|set_solver].
  - injection E as <- _. destruct Hp as (Hi & _ & Hn & _). apply rely_open; [done|set_solver].
  - destruct (uploads s !! id) as [u|] eqn:Eu; injection E as <- _; [|reflexivity]. apply rely_rows. intros id' Hn.
    rewrite lookup_insert_ne; [done|]. intros <-. congruence.
  - assert (∀ id', uploads s !! id' = None -> delete id (uploads s) !! id' = None) as Hdel by (intros; by rewrite lookup_delete_None; right).
    destruct (uploads s !! id) as [u|] eqn:Eu; [|injection E as <- _; reflexivity]. destruct received as [n|].
    + destruct (_ =? n); injection E as <- _; [|reflexivity]. by apply rely_rows.
    + injection E as <- _. by eapply rely_cancel.
  - injection E as <- _. apply rely_rows. intros. by rewrite lookup_delete_None; right.
  - destruct (documents s !! id) as [d|] eqn:Ed; injection E as <- _; [reflexivity|]. by eapply rely_insert.
  - injection E as <- _. by apply rely_delete_row.
  - by eapply rely_update.
  - by eapply rely_update.
  - by eapply rely_update.
  - injection E as <- _. by eapply rely_delete_object.
  - destruct (known _ _ _); injection E as <- _; [|reflexivity]. by apply rely_quiet; cbn; auto; lia.
  - destruct (known _ _ _); [|injection E as <- _; reflexivity]. destruct (assemble _ _); injection E as <- _; [|reflexivity].
    transitivity (set_multiparts (delete s3) s); [by apply rely_quiet; cbn; auto; lia|]. apply rely_put.
  - destruct (known _ _ _); injection E as <- _; [|reflexivity]. by apply rely_quiet; cbn; auto; lia.
Qed.
End rely.

Section invariant.
Context `{Deployment}.

(** ** Sizes *)

Lemma well_framed_describes f : well_framed f -> describes (snd (fst f)) (snd f) (declared_ciphertext f).
Proof.
  destruct f as [[plaintext count] chunk]. intros (Hp & _ & Hc & -> & Hn). unfold declared_ciphertext, documentCiphertextBytesFor in *. cbn in *.
  unfold documentChunkCountFor, ceil_div, DOCUMENT_PLAINTEXT_CHUNK_BYTES, MAX_SAFE_INTEGER, MAX_DOCUMENT_CHUNK_COUNT, DOCUMENT_TAG_BYTES in *.
  pose proof (Z.div_mod (- plaintext) 8388592 ltac:(lia)) as Hd. pose proof (Z.mod_pos_bound (- plaintext) 8388592 ltac:(lia)) as Hm.
  constructor; unfold sealed, MAX_SAFE_INTEGER, DOCUMENT_TAG_BYTES; lia.
Qed.
Lemma well_framed_count f : well_framed f -> 1 <= snd (fst f).
Proof. intros Hw. pose proof (well_framed_describes f Hw) as [Hn _ _ _]. lia. Qed.

Lemma declared_part_size n f z : declared_part n f = Ok z -> z = segment_size (n - 1) (snd (fst f)) (snd f) (declared_ciphertext f).
Proof. intros Hz. by apply expectedPartSize_inv in Hz as (_ & _ & ->). Qed.

Lemma assemble_bytes (size : Z -> Z) held named body : assemble held named = Some body ->
  (∀ n etag b, held !! n = Some (etag, b) -> Z.of_nat (length b) = size n) ->
  Z.of_nat (length body) = sumBytes (map (λ n, {| partNumber := n; bytes := size n |}) (map fst named)).
Proof.
  intros Ha Hs. revert body Ha. induction named as [|[n etag] named IH]; cbn [assemble map fst]; intros body; [by intros [= <-]|].
  destruct (held !! n) as [[e b]|] eqn:Eb; [|done]. destruct (e =? etag)%nat; [|done].
  destruct (assemble held named) as [rest|]; [|done]. cbn [mbind option_bind]. intros [= <-].
  rewrite length_app, sumBytes_cons. cbn [bytes]. rewrite <- (IH rest), <- (Hs n e b) by done. lia.
Qed.

(** What a completion assembles from all the parts has the size declared. *)
Lemma assembled_size f held named body : well_framed f -> assemble held named = Some body ->
  (∀ n etag b, held !! n = Some (etag, b) -> declared_part n f = Ok (Z.of_nat (length b))) ->
  map fst named = map Z.of_nat (seq 1 (Z.to_nat (snd (fst f)))) -> Z.of_nat (length body) = declared_ciphertext f.
Proof.
  intros Hw Ha Hp Hn. pose proof (well_framed_count f Hw) as Hc.
  rewrite (assemble_bytes (λ n, segment_size (n - 1) (snd (fst f)) (snd f) (declared_ciphertext f)) held named body Ha), Hn.
  - pose proof (sum_segments (Z.to_nat (snd (fst f))) (snd f) (declared_ciphertext f) ltac:(lia)) as E.
    by rewrite Z2Nat.id in E by lia.
  - intros n etag b Hb. by apply declared_part_size, (Hp n etag b).
Qed.

(** ** One group of commands after another *)

(** Locks, identifiers and uploads of the engine without their parts. *)
Lemma good_quiet s s' : good s -> clock s' = clock s -> (fresh s <= fresh s')%nat ->
  (∀ name l, locks s' !! name = Some l -> (lockedBy l < fresh s')%nat) ->
  (∀ i m n etag body, multiparts s' !! i = Some m -> m_parts m !! n = Some (etag, body) ->
     ∃ f, opened s !! m_key m = Some f /\ declared_part n f = Ok (Z.of_nat (length body))) ->
  uploads s' = uploads s -> documents s' = documents s -> objects s' = objects s ->
  made s' = made s -> cancel_claims s' = cancel_claims s -> opened s' = opened s -> good s'.
Proof.
  intros Hg Hc Hf Hl Hm Eu Ed Eo Em Ek Ep.
  constructor; unfold committed, late in *; rewrite ?Eu, ?Ed, ?Eo, ?Em, ?Ek, ?Ep; try apply Hg; auto.
  intros id f Hi. destruct (g_opened s Hg id f Hi) as (H1 & H2 & H3). split_and!; [lia|lia|done].
Qed.

Lemma good_open s id row : good s -> (fst id < fresh s)%nat -> snd id <= clock s -> opened s !! id = None -> well_framed (declared_by row) ->
  expiresAt row <= snd id + uploadTtlMs -> (s3UploadId row = None -> declaredChunkCount row = 1) ->
  good (log_opened id row (set_uploads <[id := row]> s)).
Proof.
  intros Hg Hi Ht Hn Hw He Hs.
  assert (∀ id' f, opened s !! id' = Some f -> <[id := declared_by row]> (opened s) !! id' = Some f) as Hold.
  { intros id' f Hf. rewrite lookup_insert_ne; [done|]. intros <-. congruence. }
  assert (id ∉ made s) as Hm. { intros Hm. apply (g_made s Hg) in Hm as [f Hf]. congruence. }
  assert (id ∉ cancel_claims s) as Hk. { intros Hk. apply (g_cancel_claims s Hg) in Hk as (_ & f & Hf & _). congruence. }
  constructor; unfold committed; cbn; fold (declared_by row).
  - apply (g_locks s Hg).
  - intros id' f. destruct (decide (id' = id)) as [->|Hne]; [rewrite lookup_insert_eq|rewrite lookup_insert_ne by done; by apply g_opened].
    by intros [= <-].
  - intros id' Hm'. apply (g_made s Hg) in Hm' as [f Hf]. eexists. by apply Hold.
  - intros id' Hk'. destruct (g_cancel_claims s Hg id' Hk') as (H1 & f & Hf & H2). eauto.
  - intros id' u. destruct (decide (id' = id)) as [->|Hne].
    + rewrite !lookup_insert_eq. by intros [= <-].
    + rewrite !lookup_insert_ne by done. apply (g_rows s Hg).
  - intros id' d Hd. destruct (g_documents s Hg id' d Hd) as (H1 & f & Hf & H2). eauto.
  - intros id' o Ho. destruct (g_objects s Hg id' o Ho) as (f & Hf & H2). eauto.
  - intros i m n etag body H1 H2. destruct (g_parts s Hg i m n etag body H1 H2) as (f & Hf & H3). eauto.
  - apply (g_present s Hg).
  - apply (g_quota s Hg).
Qed.

Lemma good_rows s f : good s -> (∀ id u, f (uploads s) !! id = Some u -> ∃ u', uploads s !! id = Some u' /\
  declared_by u = declared_by u' /\ expiresAt u = expiresAt u' /\ s3UploadId u = s3UploadId u') -> good (set_uploads f s).
Proof.
  intros Hg Hf. constructor; unfold committed; cbn; try apply Hg. intros id u Hu. destruct (Hf id u Hu) as (u' & Hu' & E1 & E2 & E3).
  destruct (g_rows s Hg id u' Hu') as (H1 & H2 & H3 & H4 & H5). rewrite E1, E2, E3. injection E1 as _ E1 _. rewrite E1. auto.
Qed.

Lemma good_delete_row s id : good s -> good (set_uploads (delete id) s).
Proof. intros Hg. apply good_rows; [done|]. intros id' u [_ Hu]%lookup_delete_Some. eauto. Qed.

Lemma good_cancel s id u : good s -> uploads s !! id = Some u -> (∀ f, opened s !! id = Some f -> snd (fst f) = 1) ->
  good (log_cancel_claim id (set_uploads (delete id) s)).
Proof.
  intros Hg Hu Hs. destruct (g_rows s Hg id u Hu) as (Ho & Hm & _). pose proof (good_delete_row s id Hg) as Hg'.
  constructor; unfold committed; cbn; try apply Hg'.
  - intros id' [->%elem_of_singleton|Hk]%elem_of_union; [|by apply (g_cancel_claims s Hg)]. eauto.
  - intros id' u' [Hne Hu']%lookup_delete_Some. destruct (g_rows s Hg id' u' Hu') as (H1 & H2 & H3 & H4). set_solver.
Qed.

Lemma good_update s id matches g s' b : good s -> update_document id matches g s = (s', b) ->
  (∀ d f, framed_as d f -> framed_as (g d) f) -> (∀ d, purgePending (g d) = false -> purgePending d = false) ->
  (∀ d, d_plaintextBytes (g d) = d_plaintextBytes d) -> good s'.
Proof.
  unfold update_document. intros Hg E Hfr Hpp Hp. destruct (documents s !! id) as [d|] eqn:Ed; [|injection E as <- _; done].
  destruct (matches d); injection E as <- _; [|done]. constructor; unfold committed; cbn; try apply Hg.
  - intros id' d'. destruct (decide (id' = id)) as [->|Hne]; [|rewrite lookup_insert_ne by done; apply (g_documents s Hg)].
    rewrite lookup_insert_eq. intros [= <-]. destruct (g_documents s Hg id d Ed) as (H1 & f & H2 & H3). eauto.
  - intros id' d'. destruct (decide (id' = id)) as [->|Hne]; [|rewrite lookup_insert_ne by done; apply (g_present s Hg)].
    rewrite lookup_insert_eq. intros [= <-] Hd. eapply (g_present s Hg); eauto.
  - erewrite sum_by_update; [apply (g_quota s Hg)|exact Ed|apply Hp].
Qed.

Lemma good_put s id body t : good s -> (∃ f, opened s !! id = Some f /\ Z.of_nat (length body) = declared_ciphertext f) ->
  good (set_objects <[id := {| content := body; lastModified := t |}]> s).
Proof.
  intros Hg Hb. constructor; unfold committed; cbn; try apply Hg.
  - intros id' x. destruct (decide (id' = id)) as [->|Hne]; [|rewrite lookup_insert_ne by done; apply (g_objects s Hg)].
    rewrite lookup_insert_eq. by intros [= <-].
  - intros id' d Hd Hp. destruct (decide (id' = id)) as [->|Hne]; [rewrite lookup_insert_eq; by eexists|rewrite lookup_insert_ne by done].
    by eapply (g_present s Hg).
Qed.

Lemma good_delete_object o s id : good s -> may_delete o id s -> good (set_objects (delete id) s).
Proof.
  intros Hg Hd. constructor; unfold committed; cbn; try apply Hg.
  - intros id' x [_ Hx]%lookup_delete_Some. by apply (g_objects s Hg).
  - intros id' d Hx Hp. destruct (decide (id' = id)) as [->|Hne]; [|rewrite lookup_delete_ne by done; by eapply (g_present s Hg)].
    exfalso. destruct (g_documents s Hg id d Hx) as [Hm _].
    destruct Hd as [[_ Hm']|[[_ Hk]|[Hc|[_ Hm']]]]; [done| | |done].
    + apply Hk in Hx. congruence.
    + by apply (g_cancel_claims s Hg) in Hc as [Hc _].
Qed.

Lemma good_delete_document s id : good s -> good (set_documents (delete id) s).
Proof.
  intros Hg. constructor; cbn; try apply Hg.
  - intros id' d [_ Hd]%lookup_delete_Some. by apply (g_documents s Hg).
  - intros id' d [_ Hd]%lookup_delete_Some. by apply (g_present s Hg).
  - transitivity (committed s); [by apply committed_delete|apply (g_quota s Hg)].
Qed.

Lemma good_insert o s id row : good s -> permitted o (CreateDocument id row) s -> documents s !! id = None ->
  good (log_made id (set_documents <[id := row]> s)).
Proof.
  intros Hg (_ & _ & Hm & Hk & Hu & _ & Ho & Hp & (f & Hf & Hw) & Hq) Hn. constructor; unfold committed; cbn; try apply Hg.
  - intros id' [->%elem_of_singleton|Hi]%elem_of_union; [by eexists|by apply (g_made s Hg)].
  - intros id' Hi. destruct (g_cancel_claims s Hg id' Hi) as [H1 H2]. split; [|done]. intros [->%elem_of_singleton|]%elem_of_union; done.
  - intros id' u Hi. destruct (g_rows s Hg id' u Hi) as (H1 & H2 & H3 & H4 & H5). split_and!; [done| |done..].
    intros [->%elem_of_singleton|]%elem_of_union; [congruence|done].
  - intros id' d. destruct (decide (id' = id)) as [->|Hne].
    + rewrite lookup_insert_eq. intros [= <-]. split; [set_solver|eauto].
    + rewrite lookup_insert_ne by done. intros Hd. destruct (g_documents s Hg id' d Hd) as [H1 H2]. split; [set_solver|done].
  - intros id' d. destruct (decide (id' = id)) as [->|Hne]; [done|]. rewrite lookup_insert_ne by done. apply (g_present s Hg).
  - rewrite sum_by_insert_new by done. unfold committed in Hq. lia.
Qed.

Lemma known_Some id s3 m u : known id s3 m = Some u -> m !! s3 = Some u /\ m_key u = id.
Proof. unfold known. destruct (m !! s3) as [v|]; [|done]. cbn. by case_decide; intros [= <-]. Qed.

Lemma good_upload_part s id s3 n body u : good s -> known id s3 (multiparts s) = Some u ->
  (∃ f, opened s !! id = Some f /\ declared_part n f = Ok (Z.of_nat (length body))) ->
  good (tick (set_multiparts <[s3 := {| m_key := id; initiated := initiated u; m_parts := <[n := (fresh s, body)]> (m_parts u) |}]> s)).
Proof.
  intros Hg [Hk <-]%known_Some Hb. apply (good_quiet s); try done; cbn; try lia.
  - intros name l Hl. apply (g_locks s Hg) in Hl. lia.
  - intros i m k etag b. destruct (decide (i = s3)) as [->|Hne]; [|rewrite lookup_insert_ne by done; apply (g_parts s Hg)].
    rewrite lookup_insert_eq. intros [= <-]. cbn. destruct (decide (k = n)) as [->|Hne].
    + rewrite lookup_insert_eq. by intros [= <- <-].
    + rewrite lookup_insert_ne by done. by apply (g_parts s Hg s3).
Qed.

Lemma good_abort_upload s s3 : good s -> good (set_multiparts (delete s3) s).
Proof.
  intros Hg. apply (good_quiet s); try done; cbn; [apply (g_locks s Hg)|]. intros i m n etag b [_ Hm]%lookup_delete_Some. by apply (g_parts s Hg i).
Qed.

Lemma good_complete s id s3 u named body : good s -> known id s3 (multiparts s) = Some u -> assemble (m_parts u) named = Some body ->
  (∃ f, opened s !! id = Some f /\ map fst named = map Z.of_nat (seq 1 (Z.to_nat (snd (fst f))))) ->
  good (set_objects <[id := {| content := body; lastModified := clock s |}]> (set_multiparts (delete s3) s)).
Proof.
  intros Hg [Hk <-]%known_Some Ha (f & Hf & Hn). apply good_put; [by apply good_abort_upload|]. exists f. split; [done|].
  destruct (g_opened s Hg _ f Hf) as (_ & _ & Hw). eapply assembled_size; [done|exact Ha| |done].
  intros n etag b Hb. destruct (g_parts s Hg s3 u n etag b Hk Hb) as (f' & Hf' & Hd). by simplify_eq.
Qed.

Lemma good_locks s f : good s -> (∀ name l, f (locks s) !! name = Some l -> (lockedBy l < fresh s)%nat) -> good (set_locks f s).
Proof. intros Hg Hl. apply (good_quiet s); cbn; auto. apply (g_parts s Hg). Qed.

Lemma good_lock s name ttl : good s ->
  good (tick (set_locks <[name := {| lockedBy := fresh s; l_expiresAt := clock s + ttl |}]> s)).
Proof.
  intros Hg. apply (good_quiet s); cbn; auto; [|apply (g_parts s Hg)].
  intros n l. destruct (decide (n = name)) as [->|Hne]; [rewrite lookup_insert_eq|rewrite lookup_insert_ne by done].
  - intros [= <-]. cbn. lia.
  - intros Hl. apply (g_locks s Hg) in Hl. lia.
Qed.

(** A permitted command keeps the invariant. *)
Lemma exec_good {X} (c : cmd X) (o : gset nat) s s' x answer : good s -> permitted o c s -> (∀ i, i ∈ o -> (i < fresh s)%nat) ->
  exec answer c s = (s', x) -> good s'.
Proof.
  intros Hg Hp Hf E. destruct c; cbn [exec permitted] in *; try (injection E as <- _; done).
  - destruct (lock_free _ s); injection E as <- _; [|done]. by apply good_lock.
  - destruct (locks s !! name) as [l|] eqn:El; [|injection E as <- _; done].
    destruct (_ =? _)%nat; injection E as <- _; [|done]. apply good_locks; [done|].
    intros n l' [_ Hl]%lookup_delete_Some. by apply (g_locks s Hg) in Hl.
  - injection E as <- _. apply (good_quiet s); try done; cbn; [lia| |apply (g_parts s Hg)]. intros n l Hl. apply (g_locks s Hg) in Hl. lia.
  - injection E as <- _. destruct Hp as (Hi & Ht & Hn & Hw & He & Hs). apply good_open; auto.
  - destruct (uploads s !! id) as [u|] eqn:Eu; injection E as <- _; [|done]. apply good_rows; [done|]. intros id' u'.
    destruct (decide (id' = id)) as [->|Hne]; [rewrite lookup_insert_eq|rewrite lookup_insert_ne by done; eauto].
    intros [= <-]. by exists u.
  - destruct (uploads s !! id) as [u|] eqn:Eu; [|injection E as <- _; done]. destruct received as [n|].
    + destruct (_ =? n); injection E as <- _; [|done]. by apply good_delete_row.
    + injection E as <- _. by eapply good_cancel.
  - injection E as <- _. by apply good_delete_row.
  - destruct (documents s !! id) as [d|] eqn:Ed; injection E as <- _; [done|]. by eapply good_insert.
  - injection E as <- _. by apply good_delete_document.
  - eapply good_update; [done|exact E|done..].
  - eapply good_update; [done|exact E|done..].
  - eapply good_update; [done|exact E|done..].
  - injection E as <- _. by apply good_put.
  - injection E as <- _. by eapply good_delete_object.
  - injection E as <- _. apply (good_quiet s); try done; cbn; [lia| |].
    + intros n l Hl. apply (g_locks s Hg) in Hl. lia.
    + intros i m n etag b. destruct (decide (i = fresh s)) as [->|Hne]; [|rewrite lookup_insert_ne by done; apply (g_parts s Hg)].
      rewrite lookup_insert_eq. intros [= <-]. cbn. by rewrite lookup_empty.
  - destruct (known _ _ _) as [u|] eqn:Ek; injection E as <- _; [|done]. by apply good_upload_part.
  - destruct (known _ _ _) as [u|] eqn:Ek; [|injection E as <- _; done]. destruct (assemble _ _) as [body|] eqn:Ea; injection E as <- _; [|done].
    by eapply good_complete.
  - destruct (known _ _ _); injection E as <- _; [|done]. by apply good_abort_upload.
Qed.

(** ** Time and expiry *)

Lemma good_time s t : good s -> clock s <= t -> good (set_clock t s).
Proof.
  intros Hg Ht. constructor; cbn; try apply Hg. intros id f Hf. destruct (g_opened s Hg id f Hf) as (H1 & H2 & H3). split_and!; [done|lia|done].
Qed.

Lemma rely_time o s t : clock s <= t -> rely o s (set_clock t s).
Proof. intros Ht. apply rely_quiet; cbn; auto. Qed.

Lemma good_empty t : good (empty_store t).
Proof. constructor; cbn; try done; try (intros; set_solver). unfold committed, sum_by. cbn. rewrite map_fold_empty. lia. Qed.
End invariant.
