(* ===== verification/DocumentSafety.v ===== *)
(** The calculus of checked requests: a thread that is checked stays so whatever the others do, and the
    rules by which a program is checked, whatever else runs. *)
From stdpp Require Import gmap.
From S2P Require Import Prelude FullBackup DocumentObjects DocumentStore DocumentUploads DocumentRequests DocumentSystem DocumentInvariant.
Local Open Scope Z_scope.

Section induction.
Context `{Deployment}.

Definition anyway {R} : R -> gset nat -> Store -> Prop := λ _ _ _, True.

Lemma safe_rely {R} (p : prog R) o s s' : rely o s s' -> safe p o s anyway -> safe p o s' anyway.
Proof. intros Hr. destruct p as [r|X c k]; [done|]. cbn [safe]. intros Hp s1 Hr1. apply Hp. by transitivity s'. Qed.

(** ** What a command does to the locks and to what its request owns *)

Lemma exec_clock {X} (c : cmd X) s s' x answer : exec answer c s = (s', x) -> clock s' = clock s.
Proof. destruct c; cbn [exec]; unfold update_document; intros E; repeat case_match; by simplify_eq. Qed.

Lemma exec_locks {X} (c : cmd X) o s s' x answer name l : permitted o c s -> exec answer c s = (s', x) ->
  locks s' !! name = Some l -> locks s !! name = Some l \/ (lockedBy l = fresh s /\ clock s < l_expiresAt l).
Proof.
  destruct c; cbn [exec permitted]; unfold update_document; intros Hp E Hl; repeat case_match; simplify_eq; cbn in *; auto.
  - destruct (decide (name = name0)) as [->|Hne]; [rewrite lookup_insert_eq in Hl|rewrite lookup_insert_ne in Hl by done; by left].
    injection Hl as <-. right. cbn. lia.
  - apply lookup_delete_Some in Hl as [_ Hl]. by left.
Qed.

Lemma exec_fresh {X} (c : cmd X) s s' x answer : exec answer c s = (s', x) -> (fresh s <= fresh s')%nat.
Proof. destruct c; cbn [exec]; unfold update_document; intros E; repeat case_match; simplify_eq; cbn; lia. Qed.

Lemma exec_own {X} (c : cmd X) o s s' x answer : exec answer c s = (s', x) ->
  own_after c x o = o \/ (own_after c x o = {[fresh s]} ∪ o /\ fresh s' = S (fresh s)).
Proof. destruct c; cbn [exec own_after]; intros E; repeat case_match; simplify_eq; cbn; auto. Qed.

(** ** The invariant of the system *)

Definition bounded (o : gset nat) (s : Store) : Prop := ∀ i, i ∈ o -> (i < fresh s)%nat.

Record Thread_ok (s : Store) (t : Thread) : Prop := {
  t_bounded : bounded (own t) s;
  t_alive : finished (program t) = false -> alive (own t) s;
  t_safe : safe (program t) (own t) s anyway;
}.

Record System_ok (s : System) : Prop := {
  s_good : good (store s);
  s_threads t : t ∈ threads s -> Thread_ok (store s) t;
  s_apart i j t u : threads s !! i = Some t -> threads s !! j = Some u -> i <> j -> own t ## own u;
}.

(** A thread the step does not run. *)
Lemma bystander {X} (c : cmd X) o s s' x answer u : good s -> permitted o c s -> bounded o s -> exec answer c s = (s', x) ->
  o ## own u -> Thread_ok s u -> Thread_ok s' u.
Proof.
  intros Hg Hp Hb E Hd [Hub Hua Hus]. constructor.
  - intros i Hi. pose proof (exec_fresh c s s' x answer E). specialize (Hub i Hi). lia.
  - intros Hf name l Hn Hl Ho. rewrite (exec_clock c s s' x answer E).
    destruct (exec_locks c o s s' x answer name l Hp E Hl) as [Hl'|[_ Hl']]; [by apply (Hua Hf name)|done].
  - destruct (finished (program u)) eqn:Ef; [by destruct (program u)|]. eapply safe_rely; [|done].
    by apply (exec_rely c o (own u) s s' x answer); auto.
Qed.

(** The thread it runs. *)
Lemma runner {X} (c : cmd X) (k : option X -> async Response) o s s' x answer : good s -> bounded o s -> alive o s ->
  safe (Call c k) o s anyway -> exec answer c s = (s', x) ->
  permitted o c s /\ good s' /\ Thread_ok s' {| program := k (Some x); own := own_after c x o |} /\
  Thread_ok s {| program := k None; own := o |} /\
  (may_be_lost false c = true -> Thread_ok s' {| program := k None; own := o |}).
Proof.
  intros Hg Hb Ha Hs E. cbn [safe] in Hs. destruct (Hs s) as (Hp & Hok & Hfail & Hlost); [reflexivity|done..|].
  pose proof (exec_good c o s s' x answer Hg Hp Hb E) as Hg'. pose proof (exec_fresh c s s' x answer E) as Hf.
  assert (∀ i, i ∈ own_after c x o -> i ∈ o \/ (i = fresh s /\ fresh s' = S (fresh s))) as Hown.
  { intros i. destruct (exec_own c o s s' x answer E) as [->|[-> ->]]; set_solver. }
  assert (alive (own_after c x o) s') as Ha'.
  { intros name l Hn Hl Ho. rewrite (exec_clock c s s' x answer E).
    destruct (exec_locks c o s s' x answer name l Hp E Hl) as [Hl'|[_ Hl']]; [|done]. apply (Ha name); [done..|].
    pose proof (g_locks s Hg name l Hl'). destruct (Hown _ Ho) as [|[? _]]; [done|lia]. }
  assert (alive o s') as Ha''.
  { intros name l Hn Hl Ho. apply (Ha' name); [done..|]. destruct (exec_own c o s s' x answer E) as [->|[-> _]]; set_solver. }
  assert (bounded o s') as Hb'. { intros i Hi. specialize (Hb i Hi). lia. }
  split_and!; [done|done| | |].
  - constructor; cbn; [|done|by eapply Hok]. intros i Hi. destruct (Hown i Hi) as [Hi'|[-> ->]]; [by apply Hb'|lia].
  - by constructor.
  - intros Hc. constructor; cbn; [done..|]. by eapply Hlost.
Qed.
End induction.

Section calculus.
Context `{Deployment}.

(** What a request's own answer is promised, the identifiers it minted being kept. *)
Definition ensures {R} (o : gset nat) (P : R -> gset nat -> Store -> Prop) : result Refused R -> gset nat -> Store -> Prop :=
  λ r o' s, o ⊆ o' /\ ∀ x, r = Ok x -> P x o' s.

Lemma safe_mono {R} (p : prog R) o s (Q Q' : R -> gset nat -> Store -> Prop) :
  safe p o s Q -> (∀ r o' s', Q r o' s' -> Q' r o' s') -> safe p o s Q'.
Proof.
  intros Hp HQ. revert o s Hp. induction p as [r|X c k IH]; intros o s Hp; cbn [safe] in *; [by apply HQ|].
  intros s1 Hr Hg Ha. destruct (Hp s1 Hr Hg Ha) as (H1 & H2 & H3 & H4). split_and!; [done| |by apply IH|].
  - intros. apply IH. by eapply H2.
  - intros. apply IH. by eapply H4.
Qed.

Lemma safe_bind {R S} (p : prog R) (f : R -> prog S) o s Q :
  safe p o s (λ r o' s', safe (f r) o' s' Q) -> safe (bind p f) o s Q.
Proof.
  revert o s. induction p as [r|X c k IH]; intros o s Hp; cbn [safe bind] in *; [done|].
  intros s1 Hr Hg Ha. destruct (Hp s1 Hr Hg Ha) as (H1 & H2 & H3 & H4). split_and!; [done| |by apply IH|].
  - intros. apply IH. by eapply H2.
  - intros. apply IH. by eapply H4.
Qed.

(** The outcomes every program of the component is checked for: a refusal only has to keep what is owned. *)
Definition ok {R} (o : gset nat) (p : async R) (o' : gset nat) (s : Store) (P : R -> gset nat -> Store -> Prop) : Prop :=
  safe p o' s (ensures o P).

Lemma ok_ret {R} (x : R) o o' s (P : R -> gset nat -> Store -> Prop) : o ⊆ o' -> P x o' s -> ok o (ret x) o' s P.
Proof. intros Ho HP. split; [done|]. by intros y [= <-]. Qed.

Lemma ok_throw {R} e o o' s (P : R -> gset nat -> Store -> Prop) : o ⊆ o' -> ok o (throw e) o' s P.
Proof. by intros Ho. Qed.

Lemma ok_await {R S} (p : async R) (f : R -> async S) o o' s P Q :
  ok o p o' s P -> (∀ x o1 s1, o ⊆ o1 -> P x o1 s1 -> ok o (f x) o1 s1 Q) -> ok o (await p f) o' s Q.
Proof.
  intros Hp Hf. apply safe_bind. eapply safe_mono; [exact Hp|]. intros [x|e] o1 s1 [Ho HP]; [by apply Hf; [|apply HP]|done].
Qed.

Lemma ok_mono {R} (p : async R) o o1 o' s P Q : ok o p o' s P -> o1 ⊆ o -> (∀ x o' s', P x o' s' -> Q x o' s') -> ok o1 p o' s Q.
Proof. intros Hp Ho HPQ. eapply safe_mono; [exact Hp|]. intros r o2 s2 [H1 H2]. split; [set_solver|]. eauto. Qed.

Lemma ok_finally {R} (p : async R) (q : async unit) o o' s P Q :
  ok o p o' s P -> (∀ o1 s1, o ⊆ o1 -> ok o q o1 s1 (λ _ _ _, True)) -> (∀ x o1 s1, P x o1 s1 -> Q x) ->
  ok o (finally p q) o' s (λ x _ _, Q x).
Proof.
  intros Hp Hq HQ. apply safe_bind. eapply safe_mono; [exact Hp|]. intros r o1 s1 [Ho HP]. apply safe_bind.
  eapply safe_mono; [by apply Hq|]. intros [u|e] o2 s2 [Ho2 _]; [|done]. split; [done|]. intros x ->. by eapply HQ, HP.
Qed.

(** Time does not go back. *)
Lemma ok_clock {R} (p : async R) o o' s P : ok o p o' s P -> ok o p o' s (λ x o1 s1, P x o1 s1 /\ clock s <= clock s1).
Proof.
  intros Hp. assert (safe p o' s (λ r o1 s1, ensures o P r o1 s1 /\ clock s <= clock s1)) as Hq.
  { unfold ok in Hp. assert (clock s <= clock s) as Hs by lia. revert Hs Hp. generalize (clock s) at 1 3. intros t. revert o' s.
    induction p as [r|X c k IH]; intros o' s Hs Hp; cbn [safe] in *; [done|]. intros s1 Hr Hg Ha.
    pose proof (r_clock _ _ _ Hr). destruct (Hp s1 Hr Hg Ha) as (H1 & H2 & H3 & H4). split_and!; [done| |apply IH; [lia|done]|].
    - intros a s2 x E Hg2 Ha2. pose proof (exec_clock c s1 s2 x a E). apply IH; [lia|by eapply H2].
    - intros a s2 x Hl E Hg2. pose proof (exec_clock c s1 s2 x a E). apply IH; [lia|by eapply H4]. }
  eapply safe_mono; [exact Hq|]. intros r o1 s1 [[H1 H2] H3]. split; [done|]. auto.
Qed.

(** The state a command finds, and what it leaves. *)
Definition found (o : gset nat) (s s1 : Store) : Prop := rely o s s1 /\ good s1 /\ alive o s1.

(** A command whose failure propagates. *)
Lemma ok_call {X} (c : cmd X) o o' s (P : X -> gset nat -> Store -> Prop) : o ⊆ o' ->
  (∀ s1, found o' s s1 -> permitted o' c s1 /\
    ∀ answer s2 x, exec answer c s1 = (s2, x) -> good s2 -> alive (own_after c x o') s2 -> P x (own_after c x o') s2) ->
  ok o (call c) o' s P.
Proof.
  intros Ho Hc. unfold ok, call. cbn [safe]. intros s1 Hr Hg Ha. destruct (Hc s1) as [Hp Hx]; [done|]. split_and!; [done| |by split|by split].
  intros answer s2 x E Hg2 Ha2. cbn. split; [|intros y [= <-]; by eapply Hx].
  destruct (exec_own c o' s1 s2 x answer E) as [->|[-> _]]; set_solver.
Qed.

(** A command whose failure is caught: the state is then the one found, or the one a lost call left. *)
Lemma ok_attempt {X} (c : cmd X) o o' s (P : option X -> gset nat -> Store -> Prop) : o ⊆ o' ->
  (∀ s1, found o' s s1 -> permitted o' c s1 /\ P None o' s1 /\
    ∀ answer s2 x, exec answer c s1 = (s2, x) -> good s2 ->
      (alive (own_after c x o') s2 -> P (Some x) (own_after c x o') s2) /\ (may_be_lost false c = true -> P None o' s2)) ->
  ok o (attempt c) o' s P.
Proof.
  intros Ho Hc. unfold ok, attempt. cbn [safe]. intros s1 Hr Hg Ha. destruct (Hc s1) as (Hp & Hn & Hx); [done|]. split_and!; [done| | |].
  - intros answer s2 x E Hg2 Ha2. cbn. split; [|intros y [= <-]; by eapply Hx].
    destruct (exec_own c o' s1 s2 x answer E) as [->|[-> _]]; set_solver.
  - split; [done|]. by intros y [= <-].
  - intros answer s2 x Hl E Hg2. split; [done|]. intros y [= <-]. by eapply Hx.
Qed.

(** One command, then the rest. *)
Lemma ok_step {X S} (c : cmd X) (f : X -> async S) o o' s Q : o ⊆ o' ->
  (∀ s1, found o' s s1 -> permitted o' c s1 /\
    ∀ answer s2 x, exec answer c s1 = (s2, x) -> good s2 -> alive (own_after c x o') s2 -> ok o (f x) (own_after c x o') s2 Q) ->
  ok o (await (call c) f) o' s Q.
Proof.
  intros Ho Hc. eapply ok_await; [apply (ok_call _ _ _ _ (λ x o1 s1, ok o (f x) o1 s1 Q)); [done|exact Hc]|]. by intros x o1 s1 _ Hx.
Qed.

Lemma found_trans o s s1 s2 : found o s s1 -> found o s1 s2 -> found o s s2.
Proof. intros [R1 _] [R2 H2]. split; [by transitivity s1|done]. Qed.

(** A property no other request can break. *)
Definition stable (o : gset nat) (P : Store -> Prop) : Prop := ∀ s s', found o s s' -> P s -> P s'.

(** A command anyone may give, whose answer does not matter. *)
Lemma ok_free {X} (c : cmd X) o o' s : o ⊆ o' -> (∀ s, permitted o' c s) -> ok o (call c) o' s (λ _ _ _, True).
Proof. intros Ho Hp. by apply ok_call. Qed.

Lemma ok_try {X} (c : cmd X) o o' s : o ⊆ o' -> (∀ s1, found o' s s1 -> permitted o' c s1) -> ok o (attempt c) o' s (λ _ _ _, True).
Proof. intros Ho Hp. apply ok_attempt; [done|]. intros s1 Hs. split_and!; [by apply Hp|done|done]. Qed.

Lemma ok_pure {A} (r : result DocError A) o o' s : o ⊆ o' -> ok o (pure_ r) o' s (λ x o1 s', r = Ok x /\ o1 = o' /\ s' = s).
Proof. intros Ho. destruct r as [x|e]; [by apply ok_ret|by apply ok_throw]. Qed.

Lemma ok_release name lockId o o' s : o ⊆ o' -> lockId ∈ o -> ok o (releaseJobLock name lockId) o' s (λ _ _ _, True).
Proof. intros Ho Hl. apply ok_free; [done|]. intros s1. cbn. set_solver. Qed.

Lemma ok_audit o o' s : o ⊆ o' -> ok o createAuditLog o' s (λ _ _ _, True).
Proof. intros Ho. unfold createAuditLog. eapply ok_await; [by apply ok_try|]. intros. by apply ok_ret. Qed.

Lemma ok_not_rotating o o' s : o ⊆ o' -> ok o assertVaultNotRotating o' s (λ _ o1 s1, o1 = o' /\ found o' s s1).
Proof.
  intros Ho. eapply ok_await; [apply (ok_call _ _ _ _ (λ _ o1 s1, o1 = o' /\ found o' s s1)); [done|]|].
  - intros s1 Hs. split; [done|]. intros answer s2 x [= <- <-] Hg Ha. done.
  - intros x o1 s1 Ho1 [-> Hs]. case_match; [by apply ok_ret|]. case_match; by apply ok_throw.
Qed.
End calculus.

(** Runs one read: the state is the one found. *)
Tactic Notation "read_step" ident(s1) ident(F) ident(x) :=
  apply ok_step; [set_solver|]; intros s1 F; split; [exact I|]; intros ? ? x; cbn [exec own_after];
  let E := fresh "E" in intros E _ _; injection E as <- E; cbn beta.
