(* ===== verification/DocumentRequestSafety.v ===== *)
(** The requests on documents, the collector and the requests of a transfer but its completion are
    checked. *)
From stdpp Require Import gmap.
From S2P Require Import Prelude FullBackup DocumentObjects DocumentObjectsSpec DocumentStore DocumentUploads DocumentRequests DocumentSystem DocumentInvariant DocumentSafety.
Local Open Scope Z_scope.

Section collector.
Context `{Deployment}.

Lemma dead_stable o id : stable o (dead id).
Proof. intros s s' (R & _) Hd. by eapply r_dead. Qed.

Lemma update_dead s id matches b s' : good s -> update_document id matches (λ d, with_state (deletedAt d) true d) s = (s', b) -> b = true -> dead id s'.
Proof.
  unfold update_document. intros Hg. destruct (documents s !! id) as [d|] eqn:Ed; [|by intros [= <- <-]].
  destruct (matches d); intros [= <- <-]; [|done]. intros _. destruct (g_documents s Hg id d Ed) as [Hm _]. split; [done|].
  intros d'. cbn. rewrite lookup_insert_eq. by intros [= <-].
Qed.

Lemma deleteDocument_ok id o o' s : o ⊆ o' -> ok o (deleteDocument id) o' s (λ _ _ _, True).
Proof.
  intros Ho. unfold deleteDocument. read_step s1 F1 now. eapply ok_await; [by apply ok_free|]. intros b o1 s2 Ho1 _.
  destruct b; [by apply ok_audit|by apply ok_throw].
Qed.

Lemma restoreDocument_ok id o o' s : o ⊆ o' -> ok o (restoreDocument id) o' s (λ _ _ _, True).
Proof.
  intros Ho. unfold restoreDocument. eapply ok_await; [by apply ok_free|]. intros b o1 s2 Ho1 _.
  destruct b; [by apply ok_audit|by apply ok_throw].
Qed.

Lemma purgeDocument_ok id o o' s : o ⊆ o' -> ok o (purgeDocument id) o' s (λ _ _ _, True).
Proof.
  intros Ho. unfold purgeDocument. apply ok_step; [done|]. intros s1 F1. split; [done|]. intros a s2 b E _ _. cbn in E.
  destruct b; [|by apply ok_throw]. eapply update_dead in E; [|apply F1|done]. cbn [own_after negb].
  apply ok_step; [done|]. intros s3 F3. split; [right; left; by eapply dead_stable|]. intros a4 s4 u _ _ _.
  eapply ok_await; [by apply ok_free|]. intros. by apply ok_audit.
Qed.

Lemma getSegment_ok id index o o' s : o ⊆ o' -> ok o (getSegment id index) o' s (λ _ _ _, True).
Proof.
  intros Ho. unfold getSegment. destruct (valid_index index); [|by apply ok_throw]. cbn [negb]. read_step s1 F1 row.
  destruct row as [row|]; [|by apply ok_throw]. case_match; [by apply ok_throw|]. eapply ok_await; [by apply ok_pure|].
  intros range o1 s2 Ho1 _. eapply ok_await; [by apply ok_free|]. intros [body|] o2 s3 Ho2 _; [|by apply ok_throw].
  case_match; [by apply ok_throw|by apply ok_ret].
Qed.

(** ** Emptying the trash *)

Lemma empty_row_ok t id w o o' s : o ⊆ o' -> ok o (empty_row t id w) o' s (λ _ _ _, True).
Proof.
  intros Ho. unfold empty_row. eapply ok_await.
  { apply (ok_attempt _ _ _ _ (λ r _ s2, r = Some true -> dead id s2)); [done|]. intros s1 F1. split_and!; [done..|].
    intros a s2 x E _. split; [|done]. intros _ [= ->]. cbn in E. eapply update_dead in E; [done|apply F1|done]. }
  intros [[]|] o1 s1 Ho1 Hd; [|by apply ok_ret..]. specialize (Hd eq_refl). eapply ok_await.
  { apply (ok_try _ o o1 s1); [done|]. intros s2 F2. right. left. by eapply dead_stable. }
  intros [u|] o2 s2 Ho2 _; [|by apply ok_ret]. eapply ok_await; [by apply ok_try|].
  intros [[]|] o3 s3 Ho3 _; by apply ok_ret.
Qed.

Lemma empty_page_ok t page w o o' s : o ⊆ o' -> ok o (empty_page t page w) o' s (λ _ _ _, True).
Proof.
  revert w o' s. induction page as [|id page IH]; intros w o' s Ho; cbn [empty_page]; [by apply ok_ret|].
  case_match; [by apply ok_ret|]. eapply ok_await; [by apply empty_row_ok|]. intros. by apply IH.
Qed.

Lemma empty_loop_ok fuel t w o o' s : o ⊆ o' -> ok o (empty_loop fuel t w) o' s (λ _ _ _, True).
Proof.
  revert w o' s. induction fuel as [|fuel IH]; intros w o' s Ho; cbn [empty_loop]; [by apply ok_throw|].
  case_match; [by apply ok_ret|]. eapply ok_await; [by apply ok_free|]. intros [|id page] o1 s1 Ho1 _; [by apply ok_ret|].
  eapply ok_await; [by apply empty_page_ok|]. intros. by apply IH.
Qed.

Lemma emptyDocumentTrash_ok fuel o o' s : o ⊆ o' -> ok o (emptyDocumentTrash fuel) o' s (λ _ _ _, True).
Proof.
  intros Ho. unfold emptyDocumentTrash. read_step s1 F1 now. eapply ok_await; [by apply empty_loop_ok|]. intros w o1 s2 Ho1 _.
  eapply ok_await; [by apply ok_audit|]. intros. by apply ok_ret.
Qed.

(** ** The sweeps *)

Lemma abort_candidates_ok cs claimed t o o' s : o ⊆ o' -> ok o (abort_candidates cs claimed t) o' s (λ _ _ _, True).
Proof.
  revert t o' s. induction cs as [|[id s3] cs IH]; intros t o' s Ho; cbn [abort_candidates]; [by apply ok_ret|].
  case_match; [by apply IH|]. case_match; [by apply ok_ret|]. eapply ok_await; [by apply ok_try|]. intros [b|] o1 s1 Ho1 _; by apply IH.
Qed.

Lemma abortAbandonedUploads_ok now t o o' s : o ⊆ o' -> ok o (abortAbandonedUploads now t) o' s (λ _ _ _, True).
Proof.
  intros Ho. unfold abortAbandonedUploads. eapply ok_await; [by apply ok_free|]. intros ups o1 s1 Ho1 _.
  case_match; [by apply ok_ret|]. eapply ok_await; [by apply ok_free|]. intros. by apply abort_candidates_ok.
Qed.

(** Rows a purge was interrupted on stay dead. *)
Definition all_dead (ids : list DocId) (s : Store) : Prop := ∀ id, id ∈ ids -> dead id s.

Lemma matching_elem p after m id : id ∈ matching p after m -> ∃ d, m !! id = Some d /\ p d = true.
Proof.
  unfold matching. intros Hi. rewrite (sort_by_perm _ _) in Hi. apply list_elem_of_fmap in Hi as ([i d] & -> & Hi).
  apply list_elem_of_In, filter_In in Hi as [Hi Hp]. apply list_elem_of_In, elem_of_map_to_list in Hi.
  apply andb_true_iff in Hp as [Hp _]. eauto.
Qed.

Lemma pending_dead s after limit : good s -> all_dead (take limit (matching purgePending after (documents s))) s.
Proof.
  intros Hg id Hi. apply elem_of_take in Hi as (k & Hi%list_elem_of_lookup_2 & _). apply matching_elem in Hi as (d & Hd & Hp).
  destruct (g_documents s Hg id d Hd) as [Hm _]. split; [done|]. intros d' Hd'. by simplify_eq.
Qed.

Lemma all_dead_cons id ids s : all_dead (id :: ids) s -> dead id s /\ all_dead ids s.
Proof. intros Hd. split; [by apply Hd; left|]. intros i Hi. by apply Hd; right. Qed.

Lemma all_dead_stable o ids : stable o (all_dead ids).
Proof. intros s s' F Hd id Hi. eapply dead_stable; [done|by apply Hd]. Qed.

(** Deleting an object or a row leaves the dead dead. *)
Lemma all_dead_delete ids id s : all_dead ids s -> all_dead ids (set_documents (delete id) s).
Proof. intros Hd i Hi. destruct (Hd i Hi) as [Hm Hk]. split; [done|]. cbn. intros d [_ Hx]%lookup_delete_Some. by apply Hk. Qed.

Lemma purge_page_ok page lastId n f t o o' s : o ⊆ o' -> all_dead page s -> ok o (purge_page page lastId n f t) o' s (λ _ _ _, True).
Proof.
  revert lastId n f t o' s. induction page as [|id page IH]; intros lastId n f t o' s Ho Hd; cbn [purge_page]; [by apply ok_ret|].
  apply all_dead_cons in Hd as [Hd Hds]. case_match; [by apply ok_ret|]. eapply ok_await.
  { apply (ok_attempt _ _ _ _ (λ _ _ s2, all_dead page s2)); [done|]. intros s1 F1.
    assert (all_dead page s1) as Hds1 by (by eapply all_dead_stable). split_and!; [right; left; by eapply dead_stable|done|].
    intros a s2 x E _. injection E as <- _. done. }
  intros [u|] o1 s2 Ho1 Hds1; [|by apply IH]. eapply ok_await.
  { apply (ok_attempt _ _ _ _ (λ _ _ s3, all_dead page s3)); [done|]. intros s3 F3.
    assert (all_dead page s3) as Hds3 by (by eapply all_dead_stable). split_and!; [done|done|].
    intros a s4 x E _. injection E as <- _. split; intros; by apply all_dead_delete. }
  intros [[]|] o3 s3 Ho3 Hds3; by apply IH.
Qed.

Lemma purge_loop_ok fuel lastId n t o o' s : o ⊆ o' -> ok o (purge_loop fuel lastId n t) o' s (λ _ _ _, True).
Proof.
  revert lastId n t o' s. induction fuel as [|fuel IH]; intros lastId n t o' s Ho; cbn [purge_loop];
    (case_match; [by apply ok_ret|]); [by apply ok_throw|].
  generalize (Nat.min PURGE_PENDING_PAGE_SIZE (PURGE_PENDING_MAX_PER_RUN - n)). intros limit.
  read_step s1 F1 page. pose proof (pending_dead s1 lastId limit (proj1 (proj2 F1))) as Hd.
  rewrite E in Hd. destruct page as [|id page]; [by apply ok_ret|]. eapply ok_await; [by apply purge_page_ok|].
  intros [[[lastId' n'] f'] t'] o2 s2 Ho2 _. eapply ok_await.
  { instantiate (1 := λ _ _ _, True). case_match; [|by apply ok_ret]. eapply ok_await; [by apply ok_free|]. intros. by apply ok_ret. }
  intros. by apply IH.
Qed.

(** What the orphan sweep may delete. *)
Definition orphaned (id : DocId) (s : Store) : Prop := dead id s \/ (late id s /\ id ∉ made s).
Definition all_orphaned (ids named : list DocId) (s : Store) : Prop := ∀ id, id ∈ ids -> id ∉ named -> orphaned id s.

Lemma all_orphaned_stable o ids named : stable o (all_orphaned ids named).
Proof.
  intros s s' F Ho id Hi Hn. pose proof F as (R & _). destruct (Ho id Hi Hn) as [Hd|[Hl Hm]]; [left; by eapply dead_stable|].
  right. split; [|by eapply r_late]. pose proof (r_clock _ _ _ R). unfold late in *. lia.
Qed.

Lemma delete_orphans_ok ids named t o o' s : o ⊆ o' -> all_orphaned ids named s -> ok o (delete_orphans ids named t) o' s (λ _ _ _, True).
Proof.
  revert t o' s. induction ids as [|id ids IH]; intros t o' s Ho Hd; cbn [delete_orphans]; [by apply ok_ret|].
  assert (all_orphaned ids named s) as Hds by (intros i Hi; apply Hd; by right).
  case_bool_decide as Hn; [by apply IH|]. case_match; [by apply ok_ret|]. eapply ok_await.
  { apply (ok_attempt _ _ _ _ (λ _ _ s2, all_orphaned ids named s2)); [done|]. intros s1 F1.
    assert (all_orphaned ids named s1) as Hds1 by (by eapply all_orphaned_stable). split_and!; [|done|].
    - destruct (all_orphaned_stable o' (id :: ids) named s s1 F1 Hd id) as [Hx|Hx]; [by left|done|right; by left|by right; right; right].
    - intros a s2 x E _. by injection E as <- _. }
  intros [u|] o1 s2 Ho1 Hds1; by apply IH.
Qed.

Lemma present_elem {A} (m : gmap DocId A) ids id : id ∈ ids -> is_Some (m !! id) -> id ∈ present m ids.
Proof. intros Hi Hs. unfold present. by apply list_elem_of_filter. Qed.

(** The candidates of a page began too long ago to be completed. *)
Lemma candidate_late now objects id s : now <= clock s ->
  id ∈ map fst (List.filter (is_candidate (now - ORPHAN_MIN_AGE_MS) (now - uploadTtlMs - ABANDONED_UPLOAD_GRACE_MS)) objects) -> late id s.
Proof.
  intros Hn Hi. apply list_elem_of_In, in_map_iff in Hi as ([i t] & <- & Hi). apply filter_In in Hi as [_ Hi].
  unfold is_candidate, getTimestamp, late in *. apply andb_true_iff in Hi as [_ Hi]. cbn [fst snd] in *.
  pose proof (Z.div_mod (snd i) 1000 ltac:(lia)). pose proof (Z.mod_pos_bound (snd i) 1000 ltac:(lia)). lia.
Qed.

Lemma sweep_loop_ok pages now cursor token t o o' s : o ⊆ o' -> now <= clock s -> ok o (sweep_loop pages now cursor token t) o' s (λ _ _ _, True).
Proof.
  revert cursor token t o' s. induction pages as [|pages IH]; intros cursor token t o' s Ho Hn; cbn [sweep_loop]; [by apply ok_ret|].
  case_match; [by apply ok_ret|]. read_step s1 F1 page. clear E. destruct page as [objects next]. pose proof (r_clock _ _ _ (proj1 F1)) as Hc.
  set (cs := map fst _). assert (∀ s', clock s1 <= clock s' -> ∀ id, id ∈ cs -> late id s') as Hl.
  { intros s' Hs id Hi. eapply candidate_late; [|exact Hi]. lia. }
  clearbody cs. eapply (ok_await _ _ _ _ _ (λ _ _ s2, now <= clock s2)).
  { eapply ok_mono; [apply (ok_clock _ o _ _ (λ _ _ _, True))|done|cbn; lia].
    destruct cs as [|c cs]; [by apply ok_ret|]. read_step s2 F2 rows. subst rows. read_step s3 F3 staged. subst staged.
    apply delete_orphans_ok; [done|]. apply (all_orphaned_stable o' _ _ s2 s3 F3). intros id Hi Hn'.
    pose proof (r_clock _ _ _ (proj1 F2)). destruct (decide (id ∈ made s2)) as [Hm|Hm]; [left|right; split; [by apply Hl|done]].
    split; [done|]. intros d Hd. destruct Hn'. apply elem_of_app. left. apply present_elem; [done|by eexists]. }
  intros t2 o2 s2 Ho2 Hn2. destruct next as [token'|]; [by apply IH|by apply ok_ret].
Qed.

Lemma run_sweeps_ok cursor o o' s : o ⊆ o' -> ok o (run_sweeps cursor) o' s (λ _ _ _, True).
Proof.
  intros Ho. unfold run_sweeps. read_step s1 F1 now. subst now. eapply ok_await; [by apply ok_clock, abortAbandonedUploads_ok|].
  intros t o2 s2 Ho2 [_ H2]. eapply ok_await; [by apply ok_clock, purge_loop_ok|]. intros t3 o3 s3 Ho3 [_ H3].
  eapply ok_await; [apply sweep_loop_ok; [done|lia]|]. intros. by apply ok_ret.
Qed.

Lemma runDocumentCleanup_ok cursor o o' s : o ⊆ o' -> ok o (runDocumentCleanup cursor) o' s (λ _ _ _, True).
Proof.
  intros Ho. unfold runDocumentCleanup. eapply ok_await.
  { apply (ok_attempt _ _ _ _ (λ r o2 _, ∀ l, r = Some (Some l) -> l ∈ o2)); [done|]. intros s1 F1. split_and!; [done|done|].
    intros a s2 x E _. split; [|done]. intros _ l [= ->]. cbn. set_solver. }
  intros [[lockId|]|] o2 s2 Ho2 Hl; [|by apply ok_ret..]. specialize (Hl lockId eq_refl).
  eapply ok_mono; [eapply (ok_finally _ _ o2 o2 s2 (λ _ _ _, True) (λ _, True))|done|done].
  - apply safe_bind. eapply safe_mono; [by apply (run_sweeps_ok cursor o2)|]. intros [x|e] o3 s3 [Ho3 _]; by split.
  - intros o3 s3 Ho3. eapply ok_await; [apply ok_try; [done|]|]; [|intros; by apply ok_ret]. intros s4 F4. cbn. set_solver.
  - done.
Qed.
End collector.

Section transfers.
Context `{Deployment}.

(** ** Opening *)

(** An identifier minted here and used by nobody. *)
Definition minted (now : Z) (id : DocId) (o : gset nat) (s : Store) : Prop :=
  fst id ∈ o /\ opened s !! id = None /\ now <= snd id <= clock s.

Lemma minted_rely now id o s s' : minted now id o s -> rely o s s' -> minted now id o s'.
Proof. intros (H1 & H2 & H3) R. split_and!; [done|by eapply r_minted|lia|]. pose proof (r_clock _ _ _ R). lia. Qed.

Lemma schema_framed body s3 now : initDocumentUploadSchema body = true -> declaredPlaintextBytes_ body <= maxDocumentBytes -> well_framed (declared_by (new_upload s3 body now)).
Proof.
  unfold initDocumentUploadSchema, hasConsistentFraming, well_framed, declared_by. cbn -[DOCUMENT_PLAINTEXT_CHUNK_BYTES documentChunkCountFor maxDocumentBytes].
  change (DOCUMENT_PLAINTEXT_CHUNK_BYTES <=? 0) with false. intros Hs Hc. split_and!; lia.
Qed.

Lemma create_upload_ok body s3 now id (version : Z) o o' s : o ⊆ o' -> initDocumentUploadSchema body = true -> declaredPlaintextBytes_ body <= maxDocumentBytes ->
  minted now id o' s ->
  (s3 = None -> declaredChunkCount_ body = 1) ->
  ok o (let! created := attempt (CreateUpload id (new_upload s3 body now)) in
        match created with
        | Some _ => ret (id, version)
        | None => let! _ := match s3 with Some s3 => attempt (AbortMultipartUpload id s3) | None => ret None end in throw Failed
        end)%async o' s (λ _ _ _, True).
Proof.
  intros Ho Hs Hcap Hm H1. eapply ok_await.
  { apply ok_try; [done|]. intros s1 F1. destruct (minted_rely _ _ _ _ _ Hm (proj1 F1)) as (Hi & Hn & Ht). cbn [permitted new_upload expiresAt s3UploadId declaredChunkCount]. split_and!; [done|lia|done| |lia|done].
    by apply schema_framed. }
  intros [u|] o1 s1 Ho1 _; [by apply ok_ret|]. eapply (ok_await _ _ _ _ _ (λ _ _ _, True)).
  - destruct s3; [by apply ok_try|by apply ok_ret].
  - intros. by apply ok_throw.
Qed.

Lemma openTransferUnderLock_ok body o o' s : o ⊆ o' -> initDocumentUploadSchema body = true ->
  declaredPlaintextBytes_ body <= maxDocumentBytes -> ok o (openTransferUnderLock body) o' s (λ _ _ _, True).
Proof.
  intros Ho Hs Hcap. unfold openTransferUnderLock. read_step s1 F1 now. subst now. read_step s2 F2 n. case_match; [by apply ok_throw|].
  read_step s3 F3 n3. case_match; [by apply ok_throw|]. read_step s4 F4 n4. read_step s5 F5 n5. case_match; [by apply ok_throw|].
  assert (rely o' s1 s5) as R5 by (transitivity s2; [apply F2|transitivity s3; [apply F3|transitivity s4; [apply F4|apply F5]]]).
  eapply (ok_await _ _ _ _ _ (λ _ o1 s6, clock s1 <= clock s6)).
  { eapply ok_mono; [apply (ok_clock _ o _ _ (λ _ _ _, True))|done|]; [|intros x o1 s6 [_ Hc]; pose proof (r_clock _ _ _ R5); lia].
    destruct (folderId_ body); [by apply ok_free|by apply ok_ret]. }
  intros folder o6 s6 Ho6 H6. case_match; [by apply ok_throw|]. read_step s7 F7 version.
  apply ok_step; [done|]. intros s8 F8. split; [done|]. intros a9 s9 id [= <- <-] G9 A9. cbn [own_after].
  assert (minted (clock s1) (fresh s8, clock s8) ({[fresh s8]} ∪ o6) (tick s8)) as Hm.
  { split_and!; cbn; [set_solver| | |lia].
    - destruct (opened s8 !! _) as [f|] eqn:Eo; [|done]. destruct (g_opened s8 (proj1 (proj2 F8)) _ f Eo). cbn in *. lia.
    - pose proof (r_clock _ _ _ (proj1 F7)). pose proof (r_clock _ _ _ (proj1 F8)). lia. }
  unfold initDocumentUploadSchema in *. case_match eqn:Ec; cbn [fst].
  - apply ok_await with (P := λ s3 o1 s10, s3 <> None /\ minted (clock s1) (fresh s8, clock s8) o1 s10).
    + apply ok_step; [set_solver|]. intros s10 F10. split; [done|]. intros a11 s11 h [= <- <-] _ _. apply ok_ret; [set_solver|].
      split; [done|]. exact (minted_rely _ _ _ _ _ Hm (proj1 F10)).
    + intros h o11 s11 Ho11 [Hs3 Hm']. by apply create_upload_ok; [set_solver|..].
  - apply ok_await with (P := λ s3 o1 s10, s3 = None /\ minted (clock s1) (fresh s8, clock s8) o1 s10).
    + apply ok_ret; [set_solver|done].
    + intros h o11 s11 Ho11 [-> Hm']. apply create_upload_ok; [set_solver|done|done|done|]. intros _. lia.
Qed.

Lemma initUpload_ok body o o' s : o ⊆ o' -> ok o (initUpload body) o' s (λ _ _ _, True).
Proof.
  intros Ho. unfold initUpload. destruct (initDocumentUploadSchema body) eqn:Es; [|by apply ok_throw]. cbn [negb].
  eapply ok_await; [by apply ok_not_rotating|]. intros _ o1 s1 Ho1 _. case_match; [by apply ok_throw|].
  apply ok_step; [done|]. intros s2 F2. split; [done|]. intros a s3 [lockId|] E3 _ _; [|by apply ok_throw]. cbn [own_after].
  eapply ok_mono; [eapply (ok_finally _ _ ({[lockId]} ∪ o1) _ _ (λ _ _ _, True) (λ _, True))|set_solver|done].
  - apply openTransferUnderLock_ok; [done|done|lia].
  - intros o4 s4 Ho4. apply ok_release; [done|set_solver].
  - done.
Qed.

(** ** Cancelling *)

(** What a row that was read says of its transfer for ever. *)
Lemma row_opened s id u : good s -> uploads s !! id = Some u ->
  opened s !! id = Some (declared_by u) /\ (s3UploadId u = None -> declaredChunkCount u = 1).
Proof. intros Hg Hu. destruct (g_rows s Hg id u Hu) as (H1 & _ & _ & _ & H2). auto. Qed.

Lemma abortUpload_ok id o o' s : o ⊆ o' -> ok o (abortUpload id) o' s (λ _ _ _, True).
Proof.
  intros Ho. unfold abortUpload. read_step s1 F1 row. destruct row as [u|]; [|by apply ok_throw].
  destruct (row_opened s1 id u (proj1 (proj2 F1)) E) as [Hf H1]. destruct (s3UploadId u) as [s3|].
  { eapply ok_await; [by apply ok_free|]. intros. by apply ok_free. }
  apply ok_step; [done|]. intros s2 F2. pose proof (r_opened _ _ _ (proj1 F2) id _ Hf) as Hf2. cbn [permitted]. split.
  { intros f Hf'. rewrite Hf2 in Hf'. injection Hf' as <-. by apply H1. }
  intros a s3 b E3 _ _. cbn [own_after]. destruct b; [|by apply ok_throw]. cbn [negb].
  assert (id ∈ cancel_claims s3) as Hc.
  { cbn [exec] in E3. destruct (uploads s2 !! id); [|done]. injection E3 as <-. cbn. set_solver. }
  eapply ok_await; [|intros; by apply ok_ret]. apply ok_try; [done|]. intros s4 F4. right. right. left. by apply (r_cancel_claims _ _ _ (proj1 F4)).
Qed.

(** ** Parts *)

Lemma acquire_holds name ttl answer s s' lockId o : exec answer (AcquireJobLock name ttl) s = (s', Some lockId) ->
  holds ({[lockId]} ∪ o) name s' /\ locks s' !! name = Some {| lockedBy := lockId; l_expiresAt := clock s + ttl |} /\ clock s' = clock s.
Proof.
  cbn [exec]. destruct (lock_free name s); [|done]. intros [= <- <-]. cbn. rewrite lookup_insert_eq.
  split_and!; [|done|done]. eexists. cbn. rewrite lookup_insert_eq. split; [done|set_solver].
Qed.

Lemma may_delete_unowned o id s s1 : found o s s1 -> holds o (documentCompleteLockName id) s -> documents s !! id = None -> may_delete o id s1.
Proof.
  intros [R _] Hh Hn. destruct (decide (id ∈ made s)) as [Hm|Hm].
  - right. left. apply (r_dead _ _ _ R). split; [done|]. by rewrite Hn.
  - left. split; [by eapply holds_rely|]. by apply (r_unmade _ _ _ R).
Qed.

Lemma reclaim_ok id o o' s : o ⊆ o' -> ok o (reclaimUnownedPartObject id) o' s (λ _ _ _, True).
Proof.
  intros Ho. unfold reclaimUnownedPartObject. eapply ok_await.
  { apply (ok_attempt _ _ _ _ (λ r o2 s2, ∀ l, r = Some (Some l) -> l ∈ o2 /\ holds o2 (documentCompleteLockName id) s2)); [done|].
    intros s1 F1. split_and!; [done|done|]. intros a s2 x E _. split; [|done]. intros _ l [= ->].
    destruct (acquire_holds _ _ _ _ _ _ o' E) as [Hh _]. split; [cbn; set_solver|done]. }
  intros [[lockId|]|] o2 s2 Ho2 Hl; [|by apply ok_ret..]. destruct (Hl lockId eq_refl) as [Hi Hh].
  eapply ok_mono; [eapply (ok_finally _ _ o2 o2 s2 (λ _ _ _, True) (λ _, True))|done|done].
  - eapply ok_await.
    { apply (ok_attempt _ _ _ _ (λ r o3 s3, r = Some None -> holds o3 (documentCompleteLockName id) s3 /\ documents s3 !! id = None)); [done|].
      intros s3 F3. split_and!; [done|done|]. intros a s4 x [= <- <-] _. split; [|done]. intros _ [= Hn]. split; [|done].
      by eapply holds_rely, Hh; [|apply F3]. }
    intros [[row|]|] o4 s4 Ho4 Hn; [by apply ok_ret| |by apply ok_ret]. destruct (Hn eq_refl) as [Hh4 Hd].
    eapply ok_await; [|intros; by apply ok_ret]. apply ok_try; [done|]. intros s5 F5. cbn. by eapply may_delete_unowned.
  - intros o3 s3 Ho3. by apply ok_release.
  - done.
Qed.

Lemma check_part_ok u n req body now o o' s : o ⊆ o' ->
  ok o (check_part u n req body now) o' s
    (λ _ o1 s1, o1 = o' /\ s1 = s /\ n <= declaredChunkCount u /\ declared_part n (declared_by u) = Ok (Z.of_nat (length body))).
Proof.
  intros Ho. unfold check_part. case_match; [by apply ok_throw|]. case_match eqn:En; [by apply ok_throw|]. case_match; [by apply ok_throw|].
  eapply ok_await; [by apply ok_pure|]. intros z o1 s1 Ho1 (Hz & -> & ->). case_match eqn:Ez; [by apply ok_throw|].
  destruct (part_digest req); [|by apply ok_throw]. case_match; [by apply ok_throw|]. case_match; [by apply ok_throw|].
  apply ok_ret; [done|]. split_and!; [done|done|lia|]. unfold declared_part, declared_by. cbn [fst snd]. rewrite Hz. f_equal. lia.
Qed.

Lemma single_part_size n f z : snd (fst f) = 1 -> declared_part n f = Ok z -> z = declared_ciphertext f.
Proof.
  unfold declared_part, requiredBytes, declared_ciphertext. intros H1 Hz. apply expectedPartSize_inv in Hz as (_ & Hn & ->). rewrite H1 in *.
  assert (n = 1) as -> by lia. unfold segment_size. change (1 - 1 =? 1 - 1) with true. cbn match. lia.
Qed.

Lemma uploadPart_ok id n req o o' s : o ⊆ o' -> ok o (uploadPart id n req) o' s (λ _ _ _, True).
Proof.
  intros Ho. unfold uploadPart. case_match; [by apply ok_throw|]. destruct (part_body req) as [body|]; [|by apply ok_throw].
  read_step s1 F1 row. destruct row as [u|]; [|by apply ok_throw]. destruct (row_opened s1 id u (proj1 (proj2 F1)) E) as [Hf H1].
  read_step s2 F2 now. apply (r_opened _ _ _ (proj1 F2)) in Hf. eapply ok_await; [by apply check_part_ok|].
  intros _ o2 s2' Ho2 (-> & -> & Hn & Hp). eapply (ok_await _ _ _ _ _ (λ _ _ _, True)).
  { unfold store_part. case_match.
    - apply ok_call; [done|]. intros s3 F3. split; [|done]. exists (declared_by u). split; [by apply (r_opened _ _ _ (proj1 F3))|].
      eapply single_part_size; [|done]. unfold declared_by. cbn. lia.
    - destruct (s3UploadId u) as [s3|]; [|by apply ok_throw]. apply ok_step; [done|]. intros s4 F4. split.
      + exists (declared_by u). split; [by apply (r_opened _ _ _ (proj1 F4))|done].
      + intros a s5 [] _ _ _; [by apply ok_ret|by apply ok_throw]. }
  intros _ o3 s3 Ho3 _. eapply ok_await; [by apply ok_free|]. intros [received|] o4 s4 Ho4 _; [by apply ok_ret|].
  eapply (ok_await _ _ _ _ _ (λ _ _ _, True)); [case_match; [by apply reclaim_ok|by apply ok_ret]|]. intros. by apply ok_throw.
Qed.
End transfers.
