(* ===== verification/DocumentCompletionSafety.v ===== *)
(** Completion is checked: under its two locks it claims the transfer, finds its object in place and
    inserts a row that fits the quota. *)
From stdpp Require Import gmap.
From S2P Require Import Prelude FullBackup DocumentObjects DocumentObjectsSpec DocumentStore DocumentUploads DocumentRequests DocumentSystem DocumentInvariant DocumentSafety DocumentRequestSafety.
Local Open Scope Z_scope.

Section completion.
Context `{Deployment}.

(** ** What the ledger says *)

Definition framed_engine (f : Z * Z * Z) (engine : EngineLedger) : Prop :=
  match engine with
  | object_ parts => sumBytes parts = declared_ciphertext f
  | multipart _ parts => snd (fst f) <> 1 /\ ∀ part, part ∈ map fst parts -> declared_part (partNumber part) f = Ok (bytes part)
  end.

Lemma numbered_parts (size : Z -> Z) n engine : length engine = n ->
  (∀ i part, engine !! i = Some part -> partNumber part = Z.of_nat i + 1 /\ bytes part = size (partNumber part)) ->
  engine = map (λ k, {| partNumber := k; bytes := size k |}) (map Z.of_nat (seq 1 n)).
Proof.
  intros Hl Hp. apply list_eq. intros i. rewrite !list_lookup_fmap. destruct (engine !! i) as [part|] eqn:Ei.
  - destruct (Hp i part Ei) as [Hn Hb]. pose proof (lookup_lt_Some _ _ _ Ei). rewrite lookup_seq_lt by lia. cbn. f_equal.
    destruct part as [k b]. cbn in *. f_equal; [lia|]. rewrite Hb. f_equal. lia.
  - apply lookup_ge_None in Ei. by rewrite lookup_seq_ge by lia.
Qed.

Lemma verified_numbers staged engine n P fr : verifyLedger staged engine n P = Ok fr ->
  map partNumber engine = map Z.of_nat (seq 1 (Z.to_nat n)).
Proof.
  intros Hv. apply verifyLedger_inv in Hv as (_ & Hl & _ & _ & _ & Hp). apply list_eq. intros i. rewrite !list_lookup_fmap.
  destruct (engine !! i) as [part|] eqn:Ei.
  - destruct (Hp i part Ei) as [Hn _]. pose proof (lookup_lt_Some _ _ _ Ei). rewrite lookup_seq_lt by lia. cbn. f_equal. lia.
  - apply lookup_ge_None in Ei. by rewrite lookup_seq_ge by lia.
Qed.

(** A verified ledger is framed as the transfer was declared. *)
Lemma verified_framing u engine fr folder : well_framed (declared_by u) -> framed_engine (declared_by u) engine ->
  verifyLedger (parts u) (engine_parts engine) (declaredChunkCount u) (u_chunkPlaintextBytes u) = Ok fr ->
  framed_as (new_document folder u fr) (declared_by u).
Proof.
  intros Hw Hf Hv. assert (sumBytes (engine_parts engine) = declared_ciphertext (declared_by u)) as Hs.
  { destruct engine as [ps|s3 ps]; [done|]. destruct Hf as [_ Hf]. apply verifyLedger_inv in Hv as (_ & Hl & _ & _ & _ & Hp).
    cbn [engine_parts] in *. set (f := declared_by u) in *. pose proof (well_framed_count f Hw) as Hc.
    rewrite (numbered_parts (λ k, segment_size (k - 1) (snd (fst f)) (snd f) (declared_ciphertext f)) (length (map fst ps)) (map fst ps)); [|done|].
    - pose proof (sum_segments (length (map fst ps)) (snd f) (declared_ciphertext f)) as E. rewrite Hl in E. apply E.
      unfold f, declared_by in Hc. cbn in Hc. lia.
    - intros i part Hi. split; [by apply Hp|]. by apply declared_part_size, Hf, (list_elem_of_lookup_2 _ i). }
  apply verifyLedger_inv in Hv as (_ & Hl & -> & _ & _ & _). unfold framed_as, new_document, deriveFraming, declared_by in *. cbn in *.
  rewrite Hl, Hs. unfold declared_ciphertext, documentPlaintextBytesFor, documentCiphertextBytesFor. cbn. split; [|done].
  repeat f_equal. lia.
Qed.

(** ** A completion at work *)

(** It holds the lock of the transfer, which lapses before the transfer can be taken for an orphan. *)
Definition completing (id : DocId) (o : gset nat) (s : Store) : Prop :=
  ∃ l, locks s !! documentCompleteLockName id = Some l /\ lockedBy l ∈ o /\
       l_expiresAt l <= snd id + uploadTtlMs + ABANDONED_UPLOAD_GRACE_MS - 1000.

Record owned (u : Upload) (id : DocId) (o : gset nat) (s : Store) : Prop := {
  o_lock : completing id o s;
  o_unmade : id ∉ made s;
  o_opened : opened s !! id = Some (declared_by u);
}.

Lemma owned_holds u id o s : owned u id o s -> holds o (documentCompleteLockName id) s.
Proof. intros [(l & Hl & Ho & _) _ _]. by exists l. Qed.

Lemma owned_found u id o s s' : owned u id o s -> found o s s' -> owned u id o s'.
Proof.
  intros Ho (R & _). pose proof (owned_holds u id o s Ho) as Hh. destruct Ho as [(l & Hl & Hi & He) Hm Hf]. constructor.
  - exists l. split_and!; [|done|done]. by apply (r_locks _ _ _ R).
  - by apply (r_unmade _ _ _ R).
  - by apply (r_opened _ _ _ R).
Qed.

Lemma owned_not_late u id o s : owned u id o s -> alive o s -> ~ late id s.
Proof.
  intros [(l & Hl & Hi & He) _ _] Ha Hlate. specialize (Ha (documentCompleteLockName id) l eq_refl Hl Hi). unfold late in Hlate. lia.
Qed.

(** The object is in place, unless a cancellation took it. *)
Definition stored (id : DocId) (s : Store) : Prop := is_Some (objects s !! id) \/ id ∈ cancel_claims s.

Lemma stored_found u id o s s' : owned u id o s -> stored id s -> found o s s' -> stored id s'.
Proof.
  intros Ho [Hs|Hc] F; [|right; by apply (r_cancel_claims _ _ _ (proj1 F))].
  destruct (r_object _ _ _ (proj1 F) id (owned_holds _ _ _ _ Ho) (o_unmade _ _ _ _ Ho) Hs) as [Hs'|[Hc|Hl]]; [by left|by right|].
  exfalso. eapply owned_not_late; [by eapply owned_found|apply F|done].
Qed.

Definition in_place (engine : EngineLedger) (id : DocId) (s : Store) : Prop :=
  match engine with object_ _ => stored id s | multipart _ _ => True end.

Lemma head_found id s f n : good s -> opened s !! id = Some f -> (λ x, Z.of_nat (length (content x))) <$> objects s !! id = Some n ->
  n = declared_ciphertext f /\ stored id s.
Proof.
  intros Hg Hf. destruct (objects s !! id) as [x|] eqn:Ex; [|done]. intros [= <-].
  destruct (g_objects s Hg id x Ex) as (f' & Hf' & Hx). split; [by simplify_eq|left; by eexists].
Qed.

Lemma sumBytes_sort ps : sumBytes (sort_by partNumber ps) = sumBytes ps.
Proof. apply sumBytes_perm, sort_by_perm. Qed.

Lemma readEngineLedger_ok id u o o' s : o ⊆ o' -> owned u id o' s ->
  ok o (readEngineLedger id u) o' s
    (λ engine o1 s1, o1 = o' /\ owned u id o' s1 /\ framed_engine (declared_by u) engine /\ in_place engine id s1).
Proof.
  intros Ho Hu. unfold readEngineLedger. case_match eqn:E1.
  - read_step s1 F1 stat. pose proof (owned_found _ _ _ _ _ Hu F1) as Hu1. destruct stat as [held|]; [|by apply ok_throw].
    destruct (head_found id s1 (declared_by u) held) as [-> Hs]; [apply F1|apply Hu1|done|]. apply ok_ret; [done|].
    split_and!; [done|done|done|done].
  - destruct (s3UploadId u) as [s3|]; [|by apply ok_throw]. read_step s1 F1 listed. pose proof (owned_found _ _ _ _ _ Hu F1) as Hu1.
    destruct listed as [ps|].
    + apply ok_ret; [done|]. split_and!; [done|done| |done]. split; [unfold declared_by; cbn; lia|]. intros part Hp.
      destruct (known id s3 (multiparts s1)) as [m|] eqn:Ek; [|done]. injection E as <-. apply known_Some in Ek as [Hm <-].
      unfold parts_of in Hp. apply list_elem_of_fmap in Hp as ([q etag] & -> & Hp). rewrite (sort_by_perm _ _) in Hp.
      apply list_elem_of_fmap in Hp as ([n [e b]] & [= -> ->] & Hp%elem_of_map_to_list).
      destruct (g_parts s1 (proj1 (proj2 F1)) s3 m n e b Hm Hp) as (f & Hf & Hd). cbn. rewrite (o_opened _ _ _ _ Hu1) in Hf. by injection Hf as <-.
    + unfold readAssembledLedger. read_step s2 F2 stat. pose proof (owned_found _ _ _ _ _ Hu1 F2) as Hu2. destruct stat as [held|]; [|by apply ok_throw].
      case_match eqn:Eh; [by apply ok_throw|]. destruct (head_found id s2 (declared_by u) held) as [-> Hs]; [apply F2|apply Hu2|done|].
      apply ok_ret; [done|]. split_and!; [done|done|cbn; rewrite sumBytes_sort; lia|done].
Qed.

(** ** Under the exclusion lock *)

Lemma releaseTransfer_ok id u engine o o' s : o ⊆ o' -> owned u id o' s -> ok o (releaseTransfer id engine) o' s (λ _ _ _, True).
Proof.
  intros Ho Hu. unfold releaseTransfer. eapply (ok_await _ _ _ _ _ (λ _ _ _, True)); [|intros; by apply ok_free].
  destruct engine as [ps|s3 ps]; (eapply ok_await; [|intros; by apply ok_ret]); apply ok_try; try done.
  intros s1 F1. pose proof (owned_found _ _ _ _ _ Hu F1) as Hu1. left. split; [by eapply owned_holds|apply Hu1].
Qed.

(** The quota has been measured, and nothing is added to it. *)
Record measured (u : Upload) (id : DocId) (total : Z) (o : gset nat) (s : Store) : Prop := {
  m_owned : owned u id o s;
  m_rotation : holds o vaultRotationLockName s;
  m_total : committed s <= total;
}.

Lemma measured_found u id total o s s' : measured u id total o s -> found o s s' -> measured u id total o s'.
Proof.
  intros [Hu Hr Ht] F. constructor; [by eapply owned_found|by eapply holds_rely; [|apply F|]|].
  pose proof (r_sum _ _ _ (proj1 F) Hr). lia.
Qed.

(** The staging row is gone, no cancellation had it, and the object is there. *)
Record claimed (u : Upload) (id : DocId) (total : Z) (o : gset nat) (s : Store) : Prop := {
  c_measured : measured u id total o s;
  c_row : uploads s !! id = None;
  c_kept : id ∉ cancel_claims s;
  c_object : is_Some (objects s !! id);
}.

Lemma claimed_found u id total o s s' : claimed u id total o s -> found o s s' -> claimed u id total o s'.
Proof.
  intros [Hm Hr Hk Ho] F. pose proof (m_owned _ _ _ _ _ Hm) as Hu.
  destruct (r_claimed _ _ _ (proj1 F) id _ (o_opened _ _ _ _ Hu) Hr) as [Hr' Hk']. constructor; [by eapply measured_found|done|by intros Hc; apply Hk, Hk'|].
  destruct (stored_found u id o s s' Hu (or_introl Ho) F) as [Hs|Hc]; [done|]. by destruct Hk; apply Hk'.
Qed.

(** A multipart transfer is never cancelled by a claim. *)
Lemma multipart_kept u id o s : good s -> owned u id o s -> declaredChunkCount u <> 1 -> id ∉ cancel_claims s.
Proof.
  intros Hg Hu Hn Hc. destruct (g_cancel_claims s Hg id Hc) as (_ & f & Hf & H1). rewrite (o_opened _ _ _ _ Hu) in Hf. by injection Hf as <-.
Qed.

Lemma claim_transfer_ok id u total engine o o' s : o ⊆ o' -> measured u id total o' s -> in_place engine id s ->
  framed_engine (declared_by u) engine ->
  (∀ s3 ps, engine = multipart s3 ps -> map partNumber (map fst ps) = map Z.of_nat (seq 1 (Z.to_nat (declaredChunkCount u)))) ->
  ok o (claim_transfer id engine (declared_ciphertext (declared_by u))) o' s (λ _ o1 s1, o1 = o' /\ claimed u id total o' s1).
Proof.
  intros Ho Hm Hp Hf Hn. unfold claim_transfer. destruct engine as [ps|s3 ps].
  - apply ok_step; [done|]. intros s1 F1. split; [done|]. pose proof (measured_found _ _ _ _ _ _ Hm F1) as Hm1.
    pose proof (stored_found _ _ _ _ _ (m_owned _ _ _ _ _ Hm) Hp F1) as Hs1. intros a s2 b E _ _. cbn [exec own_after] in *.
    destruct b; [|by apply ok_throw]. apply ok_ret; [done|]. split; [done|].
    destruct (uploads s1 !! id) as [row|] eqn:Er; [|done]. destruct (_ =? _); [|done]. injection E as <-.
    destruct (g_rows s1 (proj1 (proj2 F1)) id row Er) as (_ & _ & Hk & _).
    constructor; cbn; [by destruct Hm1 as [[] ? ?]|apply lookup_delete_eq|done|by destruct Hs1].
  - destruct Hf as [H1 Hf]. apply ok_step; [done|]. intros s1 F1. pose proof (measured_found _ _ _ _ _ _ Hm F1) as Hm1. split.
    { exists (declared_by u). split; [by apply (m_owned _ _ _ _ _ Hm1)|]. specialize (Hn s3 ps eq_refl). rewrite map_map in Hn.
      etransitivity; [|exact Hn]. rewrite map_map. by apply map_ext; intros []. }
    intros a s2 b E G2 _. cbn [exec own_after] in *. destruct b; [|by apply ok_throw]. cbn [negb].
    assert (measured u id total o' s2 /\ is_Some (objects s2 !! id)) as [Hm2 Ho2].
    { destruct (known _ _ _); [|done]. destruct (assemble _ _); [|done]. injection E as <-. cbn. rewrite lookup_insert_eq.
      split; [by destruct Hm1 as [[] ? ?]|by eexists]. }
    apply ok_call; [done|]. intros s3' F3. split; [done|]. intros a4 s4 [] [= <-] G4 _. split; [done|].
    pose proof (measured_found _ _ _ _ _ _ Hm2 F3) as Hm3.
    destruct (stored_found _ _ _ _ _ (m_owned _ _ _ _ _ Hm2) (or_introl Ho2) F3) as [Hs|Hc].
    + constructor; cbn; [by destruct Hm3 as [[] ? ?]|apply lookup_delete_eq|eapply multipart_kept; [apply F3|apply Hm3|exact H1]|done].
    + exfalso. by eapply multipart_kept; [apply F3|apply Hm3|exact H1|].
Qed.

Lemma discard_ok id o o' s (P : Store -> Prop) : o ⊆ o' -> P s -> stable o' P -> (∀ s1, found o' s s1 -> P s1 -> may_delete o' id s1) ->
  ok o (discardUnnamedObject id) o' s (λ _ _ _, True).
Proof.
  intros Ho Hp Hs Hd. unfold discardUnnamedObject. eapply ok_await; [|intros; by apply ok_ret].
  apply ok_try; [done|]. intros s1 F1. apply Hd; [done|]. by eapply Hs.
Qed.

Lemma insert_document_ok id u total row o o' s : o ⊆ o' -> claimed u id total o' s ->
  framed_as row (declared_by u) -> purgePending row = false -> total + d_plaintextBytes row <= storageQuotaBytes ->
  ok o (insert_document id row) o' s (λ r o1 s1, snd r = true -> id ∈ made s1).
Proof.
  intros Ho Hc Hf Hp Hq. unfold insert_document.
  apply ok_await with (P := λ r o1 s1, match r with Some true => id ∈ made s1 | Some false => False | None => claimed u id total o1 s1 end).
  { apply ok_attempt; [done|]. intros s1 F1. pose proof (claimed_found _ _ _ _ _ _ Hc F1) as [Hm Hr Hk Hx]. pose proof Hm as [Hu Hrot Ht].
    assert (documents s1 !! id = None) as Hd.
    { destruct (documents s1 !! id) as [d|] eqn:Ed; [|done]. destruct (g_documents s1 (proj1 (proj2 F1)) id d Ed) as [Hi _]. by apply (o_unmade _ _ _ _ Hu) in Hi. }
    split_and!.
    - cbn. split_and!; [by eapply owned_holds|done|apply Hu|done|done|eapply owned_not_late; [done|apply F1]|done|done| |lia].
      exists (declared_by u). split; [apply Hu|done].
    - by eapply claimed_found.
    - intros a s2 x E _. split; [|done]. intros _. cbn in E. rewrite Hd in E. injection E as <- <-. cbn. set_solver. }
  intros [[]|] o1 s1 Ho1 Hx; [by apply ok_ret|done|]. eapply ok_await; [|intros; by apply ok_throw].
  eapply (discard_ok _ _ _ _ (owned u id o1)); [done|apply Hx|by intros s2 s3 F Hu; eapply owned_found|].
  intros s2 F2 Hu. left. split; [by eapply owned_holds|apply Hu].
Qed.

Lemma confirm_document_ok id row o o' s : o ⊆ o' -> id ∈ made s -> ok o (confirm_document id row) o' s (λ _ _ _, True).
Proof.
  intros Ho Hm. unfold confirm_document. read_step s1 F1 live. pose proof (r_made _ _ _ (proj1 F1) id Hm) as Hm1. case_match.
  - apply ok_step; [done|]. intros s2 F2. split; [done|]. intros a s3 b [= <- <-] _ _. cbn [own_after].
    eapply ok_await; [|intros; by apply ok_throw]. eapply (discard_ok _ _ _ _ (dead id)); [done| |apply dead_stable|by intros s4 _ Hd; right; left].
    split; [by apply (r_made _ _ _ (proj1 F2))|]. cbn. intros d. by rewrite lookup_delete_eq.
  - eapply ok_await; [by apply ok_audit|]. intros. by apply ok_ret.
Qed.

(** What is carried to the claim: the quota measured, and an object already written still in place. *)
Definition ready (u : Upload) (id : DocId) (total : Z) (engine : EngineLedger) (o : gset nat) (s : Store) : Prop :=
  measured u id total o s /\ in_place engine id s.

Lemma ready_found u id total engine o s s' : ready u id total engine o s -> found o s s' -> ready u id total engine o s'.
Proof.
  intros [Hm Hp] F. split; [by eapply measured_found|]. destruct engine; [|done]. by eapply stored_found; [apply Hm| |].
Qed.

Lemma ok_not_rotating_ready u id total engine o o' s : o ⊆ o' -> ready u id total engine o' s ->
  ok o assertVaultNotRotating o' s (λ _ o1 s1, o1 = o' /\ ready u id total engine o' s1).
Proof.
  intros Ho Hr. eapply ok_mono; [by apply (ok_not_rotating o)|done|]. intros x o1 s1 [-> F]. split; [done|]. by eapply ready_found.
Qed.

Lemma keep_folder_ok u id total engine folder o o' s : o ⊆ o' -> ready u id total engine o' s ->
  ok o (keep_folder folder) o' s (λ _ o1 s1, o1 = o' /\ ready u id total engine o' s1).
Proof.
  intros Ho Hr. destruct folder as [f|]; cbn [keep_folder]; [|by apply ok_ret]. read_step s1 F1 e. apply ok_ret; [done|]. split; [done|].
  by eapply ready_found.
Qed.

Lemma commit_under_lock_ok id u engine fr version o o' s : o ⊆ o' -> owned u id o' s -> holds o' vaultRotationLockName s -> in_place engine id s ->
  framed_engine (declared_by u) engine -> well_framed (declared_by u) ->
  verifyLedger (parts u) (engine_parts engine) (declaredChunkCount u) (u_chunkPlaintextBytes u) = Ok fr ->
  ok o (commit_under_lock id u engine fr version) o' s (λ _ _ _, True).
Proof.
  intros Ho Hu Hh Hp Hf Hw Hv. unfold commit_under_lock. read_step s1 F1 total. fold (committed s1) in E.
  assert (ready u id total engine o' s1) as Hr.
  { pose proof (owned_found _ _ _ _ _ Hu F1). pose proof (holds_rely _ _ _ _ (eq_refl : protected vaultRotationLockName = true) (proj1 F1) Hh).
    split; [constructor; [done|done|lia]|]. destruct engine; [by apply (stored_found u id o' s s1)|done]. }
  case_match eqn:Eq.
  { eapply ok_await; [eapply releaseTransfer_ok; [done|apply Hr]|]. intros. by apply ok_throw. }
  eapply ok_await; [by apply (ok_not_rotating_ready u id total engine)|]. intros _ o2 s2 Ho2 [-> Hr2].
  read_step s3 F3 current. apply (ready_found _ _ _ _ _ _ _ Hr2) in F3. case_match; [by apply ok_ret|]. case_match; [by apply ok_ret|].
  eapply ok_await; [by apply (keep_folder_ok u id total engine)|]. intros folder o4 s4 Ho4 [-> [Hm4 Hp4]].
  pose proof (verified_framing u engine fr folder Hw Hf Hv) as Hfr. assert (f_ciphertextBytes fr = declared_ciphertext (declared_by u)) as -> by apply Hfr.
  eapply ok_await; [apply (claim_transfer_ok id u total engine); try done|].
  { intros s3' ps ->. eapply verified_numbers. exact Hv. }
  intros _ o5 s5 Ho5 [-> Hc]. eapply ok_await; [apply (insert_document_ok id u total); try done; cbn; lia|].
  intros [row mine] o6 s6 Ho6 Hmade. destruct mine; [apply confirm_document_ok; [done|by apply Hmade]|by apply ok_ret].
Qed.

(** The lock of a completion, by when it was taken. *)
Definition locked_at (t : Z) (id : DocId) (o : gset nat) (s : Store) : Prop :=
  t <= clock s /\ ∃ l, locks s !! documentCompleteLockName id = Some l /\ lockedBy l ∈ o /\ l_expiresAt l <= t + COMPLETE_LOCK_TTL_MS.

Lemma locked_at_found t id o s s' : locked_at t id o s -> found o s s' -> locked_at t id o s'.
Proof.
  intros (Ht & l & Hl & Hi & He) (R & _). pose proof (r_clock _ _ _ R). split; [lia|]. exists l. split_and!; [|done|done]. by apply (r_locks _ _ _ R).
Qed.

Lemma acquireVaultRotationLock_ok u id engine o o' s : o ⊆ o' -> owned u id o' s -> in_place engine id s ->
  ok o acquireVaultRotationLock o' s
    (λ lockId o1 s1, lockId ∈ o1 /\ o' ⊆ o1 /\ owned u id o1 s1 /\ holds o1 vaultRotationLockName s1 /\ in_place engine id s1).
Proof.
  intros Ho Hu Hp. unfold acquireVaultRotationLock, acquireJobLock. apply ok_step; [done|]. intros s1 F1. split; [done|].
  pose proof (owned_found _ _ _ _ _ Hu F1) as [(l & Hl & Hi & He) Hm Hf]. assert (in_place engine id s1) as Hp1.
  { destruct engine; [by apply (stored_found u id o' s s1)|done]. }
  intros a s2 [lockId|] E _ _; [|by apply ok_throw]. cbn [own_after]. destruct (acquire_holds _ _ _ _ _ _ o' E) as [Hh _].
  apply ok_ret; [set_solver|]. split_and!; [set_solver|set_solver| |done|].
  - cbn [exec] in E. destruct (lock_free _ _); [|done]. injection E as <- _. constructor; cbn; [|done|done].
    exists l. cbn. rewrite lookup_insert_ne by done. split_and!; [done|set_solver|done].
  - cbn [exec] in E. destruct (lock_free _ _); [|done]. by injection E as <- _.
Qed.

Lemma completeUnderLock_ok id version t o o' s : o ⊆ o' -> locked_at t id o' s -> ok o (completeUnderLock id version) o' s (λ _ _ _, True).
Proof.
  intros Ho Hl. unfold completeUnderLock. read_step s1 F1 row. apply (locked_at_found _ _ _ _ _ Hl) in F1. destruct row as [row|]; [by apply ok_ret|].
  read_step s2 F2 found_. destruct found_ as [u|]; [|by apply ok_throw]. pose proof (locked_at_found _ _ _ _ _ F1 F2) as Hl2.
  destruct (g_rows s2 (proj1 (proj2 F2)) id u E0) as (Hf & Hm & _ & He & _).
  destruct (g_opened s2 (proj1 (proj2 F2)) id _ Hf) as (_ & _ & Hw).
  read_step s3 F3 now. pose proof (locked_at_found _ _ _ _ _ Hl2 F3) as [Ht (l & Hlk & Hi & Hx)]. case_match eqn:En; [by apply ok_throw|].
  assert (owned u id o' s3) as Hu.
  { constructor; [|eapply r_unmade; [apply F3| |done]|by apply (r_opened _ _ _ (proj1 F3))].
    - exists l. split_and!; [done|done|]. unfold COMPLETE_LOCK_TTL_MS, ABANDONED_UPLOAD_GRACE_MS in *. lia.
    - destruct Hl2 as (_ & l2 & H1 & H2 & _). by exists l2. }
  case_match; [by apply ok_throw|]. eapply ok_await; [by apply (readEngineLedger_ok id u)|].
  intros engine o4 s4 Ho4 (-> & Hu4 & Hf4 & Hp4). eapply ok_await; [by apply ok_pure|]. intros fr o5 s5 Ho5 (Hv & -> & ->).
  case_match.
  { eapply ok_await; [by eapply releaseTransfer_ok|]. intros. by apply ok_throw. }
  eapply ok_await; [by apply (acquireVaultRotationLock_ok u id engine)|]. intros lockId o6 s6 Ho6 (Hi6 & Hsub & Hu6 & Hh6 & Hp6).
  eapply ok_mono; [eapply (ok_finally _ _ o6 o6 s6 (λ _ _ _, True) (λ _, True))|done|done].
  - by apply commit_under_lock_ok.
  - intros o7 s7 Ho7. by apply ok_release.
  - done.
Qed.

Lemma completeUpload_ok id version o o' s : o ⊆ o' -> ok o (completeUpload id version) o' s (λ _ _ _, True).
Proof.
  intros Ho. unfold completeUpload, acquireJobLock. eapply ok_await; [by apply ok_not_rotating|]. intros _ o1 s1 Ho1 _.
  apply ok_step; [done|]. intros s2 F2. split; [done|]. intros a s3 [lockId|] E3 _ _; cbn [own_after].
  2: { read_step s4 F4 row. destruct row; [by apply ok_ret|by apply ok_throw]. }
  eapply ok_mono; [eapply (ok_finally _ _ ({[lockId]} ∪ o1) _ _ (λ _ _ _, True) (λ _, True))|set_solver|done].
  - apply (completeUnderLock_ok _ _ (clock s2)); [done|]. destruct (acquire_holds _ _ _ _ _ _ o1 E3) as (_ & Hl & Hc). split; [lia|].
    eexists. split_and!; [exact Hl|cbn; set_solver|done].
  - intros o4 s4 Ho4. apply ok_release; [done|set_solver].
  - done.
Qed.

(** Every request is checked. *)
Lemma handle_ok r s : safe (handle r) ∅ s anyway.
Proof.
  assert (ok ∅ (handle r) ∅ s (λ _ _ _, True)) as Hok; [|by eapply safe_mono; [exact Hok|]].
  destruct r; cbn [handle];
    (eapply ok_await; [first [by apply initUpload_ok|by apply uploadPart_ok|by apply completeUpload_ok|by apply abortUpload_ok
      |by apply deleteDocument_ok|by apply restoreDocument_ok|by apply purgeDocument_ok|by apply emptyDocumentTrash_ok
      |by apply getSegment_ok|by apply runDocumentCleanup_ok]|]); intros x o1 s1 _ _; repeat case_match; by apply ok_ret.
Qed.
End completion.
