(* ===== verification/DocumentProtocolSpec.v ===== *)
(** What holds of the documents of an account, whatever its requests, the collector, time and faults do:
    every document can be read back, and their sizes fit the caps. *)
From stdpp Require Import gmap.
From S2P Require Import Prelude FullBackup DocumentObjects DocumentObjectsSpec DocumentStore DocumentUploads DocumentRequests DocumentSystem DocumentInvariant DocumentSafety DocumentCompletionSafety.
Local Open Scope Z_scope.

Section reachable.
Context `{Deployment}.

(** ** Every reachable state keeps the invariant *)

Lemma empty_ok t : System_ok {| store := empty_store t; threads := [] |}.
Proof. constructor; cbn; [apply good_empty|by intros u ?%elem_of_nil|done]. Qed.

Lemma insert_elem {A} (l : list A) i x y : y ∈ <[i := x]> l -> y = x \/ ∃ j, j <> i /\ l !! j = Some y.
Proof.
  intros [j Hj]%list_elem_of_lookup. destruct (decide (j = i)) as [->|Hne].
  - apply list_lookup_insert_Some in Hj as [(_ & -> & _)|[Hx _]]; [by left|done].
  - rewrite list_lookup_insert_ne in Hj by done. right. eauto.
Qed.

(** One thread replaced, the others standing by. *)
Lemma replace_ok s s' i t t' : System_ok s -> threads s !! i = Some t -> good s' -> Thread_ok s' t' ->
  (∀ j u, j <> i -> threads s !! j = Some u -> Thread_ok s' u /\ own t' ## own u) ->
  System_ok {| store := s'; threads := <[i := t']> (threads s) |}.
Proof.
  intros Hs Hi Hg Ht Hu. pose proof (lookup_lt_Some _ _ _ Hi) as Hlt. constructor; cbn; [done| |].
  - intros u [->|(j & Hne & Hj)]%insert_elem; [done|]. by apply (Hu j).
  - intros j k u v Hj Hk Hne. destruct (decide (j = i)) as [->|Hji], (decide (k = i)) as [->|Hki]; [done| | |].
    + rewrite list_lookup_insert_eq in Hj by done. injection Hj as <-. rewrite list_lookup_insert_ne in Hk by done. by apply (Hu k).
    + rewrite list_lookup_insert_eq in Hk by done. injection Hk as <-. rewrite list_lookup_insert_ne in Hj by done. symmetry. by apply (Hu j).
    + rewrite list_lookup_insert_ne in Hj, Hk by done. by apply (s_apart s Hs j k).
Qed.

Lemma quiet_ok s i t t' : System_ok s -> threads s !! i = Some t -> own t' = own t -> Thread_ok (store s) t' ->
  System_ok {| store := store s; threads := <[i := t']> (threads s) |}.
Proof.
  intros Hs Hi Ho Ht. apply (replace_ok s (store s) i t t' Hs Hi (s_good s Hs) Ht). intros j u Hne Hj.
  split; [by eapply s_threads, list_elem_of_lookup_2|]. rewrite Ho. by apply (s_apart s Hs i j).
Qed.

Lemma own_apart {X} (c : cmd X) o s s' x answer u : exec answer c s = (s', x) -> o ## own u -> bounded (own u) s -> own_after c x o ## own u.
Proof.
  intros E Hd Hb. destruct (exec_own c o s s' x answer E) as [->|[-> _]]; [done|]. intros i [->%elem_of_singleton|Hi]%elem_of_union Hu; [|by apply (Hd i)].
  specialize (Hb _ Hu). lia.
Qed.

Lemma step_ok s s' : step false s s' -> System_ok s -> System_ok s'.
Proof.
  intros Hstep Hs. pose proof (s_good s Hs) as Hg. destruct Hstep as [s t Ht Hin|s r|s i X c k o a s' x Hi E|s i X c k o Hi|s i X c k o a s' x Hi Hl E|s i p o Hi|s id u Hu Hx].
  - constructor; cbn; [by apply good_time| |by apply s_apart]. intros th Hth. destruct (s_threads s Hs th Hth) as [Hb Ha Hsafe]. constructor; [done| |].
    + intros Hf name l Hn Hk Ho. cbn. by apply (Hin th name l).
    + eapply safe_rely; [by apply rely_time|done].
  - constructor; cbn; [done| |].
    + intros th [Hth| ->%list_elem_of_singleton]%elem_of_app; [by apply s_threads|]. constructor; cbn; [by intros i Hi; set_solver|intros _ name l _ _ Ho; set_solver|apply handle_ok].
    + intros i j t u Hi Hj Hne. apply lookup_app_Some in Hi as [Hi|[Hi Hi']], Hj as [Hj|[Hj Hj']].
      * by apply (s_apart s Hs i j).
      * apply list_lookup_singleton_Some in Hj' as [_ <-]. cbn. set_solver.
      * apply list_lookup_singleton_Some in Hi' as [_ <-]. cbn. set_solver.
      * apply list_lookup_singleton_Some in Hi' as [Hi' _], Hj' as [Hj' _]. lia.
  - destruct (s_threads s Hs _ (list_elem_of_lookup_2 _ _ _ Hi)) as [Hb Ha Hsafe]. cbn in *.
    destruct (runner c k o (store s) s' x a Hg Hb (Ha eq_refl) Hsafe E) as (Hp & Hg' & Ht & _). apply (replace_ok s s' i _ _ Hs Hi Hg' Ht).
    intros j u Hne Hj. pose proof (s_threads s Hs _ (list_elem_of_lookup_2 _ _ _ Hj)) as Hu. pose proof (s_apart s Hs i j _ _ Hi Hj (not_eq_sym Hne)) as Hd.
    split; [by apply (bystander c o (store s) s' x a u)|]. eapply own_apart; [exact E|exact Hd|apply Hu].
  - destruct (s_threads s Hs _ (list_elem_of_lookup_2 _ _ _ Hi)) as [Hb Ha Hsafe]. cbn in *.
    destruct (exec (Build_Answer 0 [] None []) c (store s)) as [s' x] eqn:E.
    destruct (runner c k o (store s) s' x _ Hg Hb (Ha eq_refl) Hsafe E) as (_ & _ & _ & Ht & _). by apply (quiet_ok s i _ {| program := k None; own := o |} Hs Hi).
  - destruct (s_threads s Hs _ (list_elem_of_lookup_2 _ _ _ Hi)) as [Hb Ha Hsafe]. cbn in *.
    destruct (runner c k o (store s) s' x a Hg Hb (Ha eq_refl) Hsafe E) as (Hp & Hg' & _ & _ & Ht).
    apply (replace_ok s s' i _ _ Hs Hi Hg' (Ht Hl)).
    intros j u Hne Hj. pose proof (s_threads s Hs _ (list_elem_of_lookup_2 _ _ _ Hj)) as Hu.
    pose proof (s_apart s Hs i j _ _ Hi Hj (not_eq_sym Hne)) as Hd. split; [by apply (bystander c o (store s) s' x a u)|done].
  - destruct (s_threads s Hs _ (list_elem_of_lookup_2 _ _ _ Hi)) as [Hb Ha Hsafe]. by apply (quiet_ok s i _ {| program := Done (Throw Interrupted); own := o |} Hs Hi).
  - constructor; cbn; [by apply good_delete_row| |by apply s_apart]. intros th Hth.
    destruct (s_threads s Hs th Hth) as [Hb Ha Hsafe]. constructor; [done|done|]. eapply safe_rely; [|done].
    apply rely_rows. intros id' Hn. by rewrite lookup_delete_None; right.
Qed.

Lemma reachable_ok s : reachable false s -> System_ok s.
Proof.
  intros [t Hs]. remember {| store := empty_store t; threads := [] |} as s0 eqn:E0. assert (System_ok s0) as H0 by (subst; apply empty_ok).
  clear E0. induction Hs as [s|s1 s2 s3 Hstep _ IH]; [done|]. apply IH. by eapply step_ok.
Qed.

(** ** What holds of documents *)

(** C2: In every state the requests of an account, the collector, time, crashes, failed calls and lost
    answers can reach, the lost answer of the insert of a document excepted, each document that is not
    being purged has its object in the engine, of exactly the length its row records; the columns of
    the row satisfy the framing identities; its transfer is over; and it is not a single-segment
    transfer whose staging row a cancel claimed.  (Of a multipart transfer a cancel claims nothing:
    [late_cancel_answers_success].) *)
Theorem committed_document_is_stored s id d : reachable false s -> documents (store s) !! id = Some d ->
  (purgePending d = false -> ∃ o, objects (store s) !! id = Some o /\ Z.of_nat (length (content o)) = d_ciphertextBytes d) /\
  (∀ o, objects (store s) !! id = Some o -> Z.of_nat (length (content o)) = d_ciphertextBytes d) /\
  hasConsistentFraming (d_plaintextBytes d) (d_chunkPlaintextBytes d) (d_chunkCount d) = true /\
  d_ciphertextBytes d = documentCiphertextBytesFor (d_plaintextBytes d) (d_chunkCount d) /\
  id ∉ cancel_claims (store s) /\ uploads (store s) !! id = None.
Proof.
  intros Hs Hd. apply reachable_ok in Hs. pose proof (s_good s Hs) as Hg. destruct (g_documents _ Hg id d Hd) as (Hm & f & Hf & -> & Hc).
  destruct (g_opened _ Hg id _ Hf) as (_ & _ & _ & _ & _ & Hch & Hn).
  assert (∀ o, objects (store s) !! id = Some o -> Z.of_nat (length (content o)) = d_ciphertextBytes d) as Ho.
  { intros o Ho. destruct (g_objects _ Hg id o Ho) as (f & Hf' & Hl). rewrite Hf in Hf'. injection Hf' as <-. by rewrite Hl, Hc. }
  split_and!; [|done| |done| |].
  - intros Hp. destruct (g_present _ Hg id d Hd Hp) as [o Hx]. exists o. auto.
  - unfold hasConsistentFraming. case_match; [done|]. rewrite Hn at 1. by rewrite Z.eqb_refl.
  - intros Hk. by apply (g_cancel_claims _ Hg) in Hk as [Hk _].
  - destruct (uploads (store s) !! id) as [u|] eqn:Eu; [|done]. by destruct (g_rows _ Hg id u Eu) as (_ & Hk & _).
Qed.

(** C3: In every such state the documents of the account, those in the trash and those being purged
    included, hold no more plaintext bytes than its quota, however many completions run at once, and
    none is larger than the cap on one document. *)
Theorem committed_within_quota s : 0 <= DOCUMENT_STORAGE_QUOTA_MB_PER_USER -> reachable false s ->
  sum_by d_plaintextBytes (documents (store s)) <= storageQuotaBytes /\
  ∀ id d, documents (store s) !! id = Some d -> 0 <= d_plaintextBytes d <= maxDocumentBytes.
Proof.
  intros Hq Hs. apply reachable_ok in Hs. pose proof (s_good s Hs) as Hg. split.
  - pose proof (g_quota _ Hg) as Hc. unfold committed, storageQuotaBytes, BYTES_PER_MB in *. lia.
  - intros id d Hd. destruct (g_documents _ Hg id d Hd) as (_ & f & Hf & -> & _).
    destruct (g_opened _ Hg id _ Hf) as (_ & _ & H1 & H2 & _). lia.
Qed.
End reachable.

(** ** A request that runs alone *)

Section alone.
Context `{Deployment}.

Fixpoint alone {R} (a : ∀ X, cmd X -> Answer) (p : prog R) (s : Store) : Store * R :=
  match p with
  | Done r => (s, r)
  | Call c k => let '(s, x) := exec (a _ c) c s in alone a (k (Some x)) s
  end.

Lemma run_alone_bind {R S} a (p : prog R) (f : R -> prog S) s : alone a (bind p f) s = let '(s, r) := alone a p s in alone a (f r) s.
Proof.
  revert s. induction p as [r|X c k IH]; intros s; cbn [bind alone]; [done|]. destruct (exec (a X c) c s) as [s1 x]. apply IH.
Qed.

(** What the framing of a document makes of its object. *)
Definition segment (d : Document) (body : list Z) (i : nat) : list Z :=
  slice body (i * Z.to_nat (sealed (d_chunkPlaintextBytes d)))
    (i * Z.to_nat (sealed (d_chunkPlaintextBytes d)) + Z.to_nat (segment_size (Z.of_nat i) (d_chunkCount d) (d_chunkPlaintextBytes d) (d_ciphertextBytes d))).

Lemma framed_describes s id d : System_ok s -> documents (store s) !! id = Some d ->
  describes (d_chunkCount d) (d_chunkPlaintextBytes d) (d_ciphertextBytes d) /\ d_chunkCount d <= MAX_DOCUMENT_CHUNK_COUNT.
Proof.
  intros Hs Hd. pose proof (s_good s Hs) as Hg. destruct (g_documents _ Hg id d Hd) as (_ & f & Hf & -> & Hc).
  destruct (g_opened _ Hg id _ Hf) as (_ & _ & Hw). pose proof (well_framed_describes _ Hw) as Hx. cbn [fst snd] in Hx.
  split; [by rewrite Hc|]. destruct Hw as (_ & _ & Hw & _). done.
Qed.

Lemma segment_body_length d body i : describes (d_chunkCount d) (d_chunkPlaintextBytes d) (d_ciphertextBytes d) ->
  Z.of_nat (length body) = d_ciphertextBytes d -> Z.of_nat i < d_chunkCount d ->
  Z.of_nat (length (segment d body i)) = segment_size (Z.of_nat i) (d_chunkCount d) (d_chunkPlaintextBytes d) (d_ciphertextBytes d).
Proof.
  intros [Hn HP HC Hsafe] Hl Hi. unfold segment, slice. rewrite length_take, length_drop.
  assert (Z.of_nat (i * Z.to_nat (sealed (d_chunkPlaintextBytes d))) = Z.of_nat i * sealed (d_chunkPlaintextBytes d)) as Hm.
  { unfold sealed, DOCUMENT_TAG_BYTES in *. rewrite Nat2Z.inj_mul, Z2Nat.id by lia. done. }
  unfold segment_size, sealed, DOCUMENT_TAG_BYTES in *. case_match; nia.
Qed.

Lemma getSegment_alone a id d o i s : documents s !! id = Some d -> objects s !! id = Some o -> d_chunkCount d <= MAX_DOCUMENT_CHUNK_COUNT ->
  describes (d_chunkCount d) (d_chunkPlaintextBytes d) (d_ciphertextBytes d) -> Z.of_nat (length (content o)) = d_ciphertextBytes d ->
  Z.of_nat i < d_chunkCount d -> alone a (getSegment id (Z.of_nat i)) s = (s, Ok (segment d (content o) i)).
Proof.
  intros Hd Ho Hmax Hds Hl Hi. pose proof (segment_body_length d (content o) i Hds Hl Hi) as Hsl. unfold getSegment, valid_index.
  replace ((0 <=? Z.of_nat i) && (Z.of_nat i <? MAX_DOCUMENT_CHUNK_COUNT)) with true by lia.
  cbn [negb alone await bind call exec]. rewrite Hd. cbn [ret bind]. replace (d_chunkCount d <=? Z.of_nat i) with false by lia.
  rewrite (segmentRange_ok _ _ _ _ Hds) by lia. cbn [pure_ ret bind await alone call exec start end_ length_]. rewrite Ho. cbn [fmap option_fmap option_map bind ret].
  assert (slice (content o) (Z.to_nat (Z.of_nat i * sealed (d_chunkPlaintextBytes d)))
    (Z.to_nat (Z.of_nat i * sealed (d_chunkPlaintextBytes d) + segment_size (Z.of_nat i) (d_chunkCount d) (d_chunkPlaintextBytes d) (d_ciphertextBytes d) - 1 + 1))
    = segment d (content o) i) as ->.
  { unfold segment. pose proof (Zle_0_nat (length (segment d (content o) i))) as H0. rewrite Hsl in H0.
    replace (Z.of_nat i * sealed (d_chunkPlaintextBytes d)) with (Z.of_nat (i * Z.to_nat (sealed (d_chunkPlaintextBytes d)))).
    - rewrite Nat2Z.id. f_equal. lia.
    - destruct Hds. unfold sealed, DOCUMENT_TAG_BYTES in *. rewrite Nat2Z.inj_mul, Z2Nat.id by lia. done. }
  rewrite Hsl, Z.eqb_refl. done.
Qed.

Lemma concat_full {A} (body : list A) c k : concat (map (λ i, slice body (i * c) (i * c + c)) (seq 0 k)) = take (k * c) body.
Proof.
  induction k as [|k IH]; [done|]. rewrite seq_S, map_app, concat_app, IH. cbn [map concat plus]. rewrite app_nil_r.
  unfold slice. replace (k * c + c - k * c)%nat with c by lia. replace (S k * c)%nat with (k * c + c)%nat by lia. by rewrite take_take_drop.
Qed.

Lemma segments_concat d body : describes (d_chunkCount d) (d_chunkPlaintextBytes d) (d_ciphertextBytes d) ->
  Z.of_nat (length body) = d_ciphertextBytes d -> concat (map (segment d body) (seq 0 (Z.to_nat (d_chunkCount d)))) = body.
Proof.
  intros [Hn HP HC Hsafe] Hl. destruct (Z.to_nat (d_chunkCount d)) as [|m] eqn:Em; [lia|]. rewrite seq_S, map_app, concat_app. cbn [map concat plus].
  rewrite app_nil_r. set (c := Z.to_nat (sealed (d_chunkPlaintextBytes d))).
  rewrite (map_ext_in _ (λ i, slice body (i * c) (i * c + c))), concat_full.
  - unfold segment, slice. fold c. rewrite (take_ge (drop _ _)); [by rewrite take_drop|]. rewrite length_drop.
    unfold segment_size. replace (Z.of_nat m =? d_chunkCount d - 1) with true by lia.
    assert (Z.of_nat (m * c) = Z.of_nat m * sealed (d_chunkPlaintextBytes d)) as Hm.
    { unfold c, sealed, DOCUMENT_TAG_BYTES in *. rewrite Nat2Z.inj_mul, Z2Nat.id by lia. done. }
    rewrite <- Hm. lia.
  - intros i Hi%in_seq. unfold segment, segment_size. replace (Z.of_nat i =? d_chunkCount d - 1) with false by lia. done.
Qed.

(** C13: In every state that can be reached, the lost answer of the insert of a document excepted, a
    document that is not being purged can be read back: the segment requests, made alone, each answer the
    bytes their segment has, and put together in order they are the object of the document, of the length
    its row records; asking for a segment past the last is refused. *)
Theorem documents_read_back s id d : reachable false s -> documents (store s) !! id = Some d -> purgePending d = false ->
  ∃ segments, Z.of_nat (length segments) = d_chunkCount d /\
    (λ o, content o) <$> objects (store s) !! id = Some (concat segments) /\
    Z.of_nat (length (concat segments)) = d_ciphertextBytes d /\
    (∀ i body a, segments !! i = Some body -> alone a (handle (GetSegment id (Z.of_nat i))) (store s) = (store s, Ok (Segment body))) /\
    ∀ i a, d_chunkCount d <= i -> alone a (handle (GetSegment id i)) (store s) = (store s, Throw (Http 400)).
Proof.
  intros Hs Hd Hp. apply reachable_ok in Hs. pose proof (s_good s Hs) as Hg. destruct (framed_describes s id d Hs Hd) as [Hds Hmax].
  destruct (g_present _ Hg id d Hd Hp) as [o Ho].
  assert (Z.of_nat (length (content o)) = d_ciphertextBytes d) as Hl.
  { destruct (g_objects _ Hg id o Ho) as (f & Hf & Hl). destruct (g_documents _ Hg id d Hd) as (_ & f' & Hf' & _ & Hc). rewrite Hl, Hc. by simplify_eq. }
  exists (map (segment d (content o)) (seq 0 (Z.to_nat (d_chunkCount d)))). rewrite (segments_concat d _ Hds Hl), Ho.
  pose proof Hds as [Hn _ _ _]. split_and!; [rewrite length_map, length_seq; lia|done|done| |].
  - intros i body a Hi. rewrite list_lookup_fmap in Hi. destruct (seq 0 _ !! i) as [j|] eqn:Ej; [|done]. injection Hi as <-.
    apply lookup_seq in Ej as [-> Hi]. cbn [plus]. unfold handle, await. rewrite run_alone_bind, (getSegment_alone a id d o) by (done || lia). done.
  - intros i a Hi. unfold handle, await. rewrite run_alone_bind. unfold getSegment. destruct (valid_index i); [|done].
    cbn [negb alone await bind call exec]. rewrite Hd. cbn [ret bind]. by replace (d_chunkCount d <=? i) with true by lia.
Qed.
(** ** The late cancel of a multipart transfer *)

(** Once the engine has assembled the object of a transfer, a cancel that still finds the staging row is
    told that the upload is unknown, takes that for done, deletes the row and answers success; the
    completion that assembled it goes on to insert the document. *)
Lemma late_cancel_answers_success a s id u s3 : uploads s !! id = Some u -> s3UploadId u = Some s3 -> known id s3 (multiparts s) = None ->
  alone a (handle (AbortUpload id)) s = (set_uploads (delete id) s, Ok Message).
Proof.
  intros Hu H3 Hk. unfold handle, await. rewrite run_alone_bind. unfold abortUpload. cbn [alone await bind call exec]. rewrite Hu.
  cbn [ret bind alone await call exec]. rewrite H3. cbn [ret bind alone await call exec]. by rewrite Hk.
Qed.

(** ** The lost answer of an insert *)

#[local] Open Scope async_scope.

(** A completion that has made its checks, claimed its transfer and is about to insert the document,
    holding the vault-key exclusion lock and the completion lock. *)
Definition inserting (id : DocId) (row : Document) (rotationLockId lockId : nat) : async Response :=
  let! outcome :=
    finally
      (finally
         (let! inserted := insert_document id row in
          let '(row, mine) := inserted in
          if mine : bool then confirm_document id row else ret (document row))
         (releaseVaultRotationLock rotationLockId))
      (releaseJobLock (documentCompleteLockName id) lockId) in
  ret (Completed outcome).

Lemma release_rows name lockId s : documents (fst (exec (Build_Answer 0 [] None []) (ReleaseJobLock name lockId) s)) = documents s /\
  objects (fst (exec (Build_Answer 0 [] None []) (ReleaseJobLock name lockId) s)) = objects s.
Proof. cbn [exec]. destruct (locks s !! name) as [l|]; [|done]. by destruct (lockedBy l =? lockId)%nat. Qed.

(** The completion after an insert whose answer was lost: it deletes the object, frees its locks and fails. *)
Lemma lost_insert_runs s i id row r c o : threads s !! i = Some {| program := inserting id row r c; own := o |} -> documents (store s) !! id = None ->
  ∃ s', rtc (step true) s s' /\ threads s' = <[i := {| program := Done (Throw Failed); own := o |}]> (threads s) /\
    documents (store s') = <[id := row]> (documents (store s)) /\ objects (store s') = delete id (objects (store s)).
Proof.
  intros Hi Hd. set (a := Build_Answer 0 [] None []). set (s1 := log_made id (set_documents <[id := row]> (store s))). set (s2 := set_objects (delete id) s1).
  set (s3 := fst (exec a (ReleaseJobLock vaultRotationLockName r) s2)). set (s4 := fst (exec a (ReleaseJobLock (documentCompleteLockName id) c) s3)).
  exists {| store := s4; threads := <[i := {| program := Done (Throw Failed); own := o |}]> (threads s) |}. pose proof (lookup_lt_Some _ _ _ Hi) as Hlt. split_and!; [|done| |].
  - eapply rtc_l; [eapply (step_lost true s i _ (CreateDocument id row) _ o a s1 true Hi eq_refl); cbn [exec]; by rewrite Hd|].
    eapply rtc_l; [eapply (step_run true _ i _ (DeleteObject id) _ o a s2 tt); [apply list_lookup_insert_eq, Hlt|reflexivity]|]. cbn [threads store]. rewrite list_insert_insert_eq.
    eapply rtc_l; [eapply (step_run true _ i _ (ReleaseJobLock vaultRotationLockName r) _ o a s3 (snd (exec a (ReleaseJobLock vaultRotationLockName r) s2))); [apply list_lookup_insert_eq, Hlt|apply surjective_pairing]|].
    cbn [threads store]. rewrite list_insert_insert_eq.
    eapply rtc_l; [eapply (step_run true _ i _ (ReleaseJobLock (documentCompleteLockName id) c) _ o a s4 (snd (exec a (ReleaseJobLock (documentCompleteLockName id) c) s3))); [apply list_lookup_insert_eq, Hlt|apply surjective_pairing]|].
    cbn [threads store]. rewrite list_insert_insert_eq. apply rtc_refl.
  - cbn [store]. unfold s4, s3, a. rewrite (proj1 (release_rows _ _ _)), (proj1 (release_rows _ _ _)). done.
  - cbn [store]. unfold s4, s3, a. rewrite (proj2 (release_rows _ _ _)), (proj2 (release_rows _ _ _)). done.
Qed.

(** What the checks before an insert have established. *)
Lemma inserting_checked s i id row r c o : reachable false s -> threads s !! i = Some {| program := inserting id row r c; own := o |} ->
  documents (store s) !! id = None /\ is_Some (objects (store s) !! id) /\ purgePending row = false /\ d_chunkCount row <= MAX_DOCUMENT_CHUNK_COUNT /\
  describes (d_chunkCount row) (d_chunkPlaintextBytes row) (d_ciphertextBytes row).
Proof.
  intros Hs%reachable_ok Hi. pose proof (s_good s Hs) as Hg. destruct (s_threads s Hs _ (list_elem_of_lookup_2 _ _ _ Hi)) as [_ Ha Hsafe]. cbn [program own] in *.
  specialize (Ha eq_refl). destruct (Hsafe (store s)) as ((_ & _ & Hm & _ & _ & _ & Ho & Hp & (f & Hf & -> & Hc) & _) & _); [reflexivity|done..|].
  destruct (g_opened _ Hg id _ Hf) as (_ & _ & Hw). pose proof (well_framed_describes _ Hw) as Hx. cbn [fst snd] in Hx. split_and!; [|done|done| |by rewrite Hc].
  - destruct (documents (store s) !! id) as [d|] eqn:Ed; [|done]. by destruct (g_documents _ Hg id d Ed) as [Hk _].
  - by destruct Hw as (_ & _ & Hw & _).
Qed.

Lemma getSegment_missing a id d i s : documents s !! id = Some d -> objects s !! id = None -> d_chunkCount d <= MAX_DOCUMENT_CHUNK_COUNT ->
  describes (d_chunkCount d) (d_chunkPlaintextBytes d) (d_ciphertextBytes d) -> 0 <= i < d_chunkCount d ->
  alone a (handle (GetSegment id i)) s = (s, Throw (Http 404)).
Proof.
  intros Hd Ho Hmax Hds Hi. unfold handle, await. rewrite run_alone_bind. unfold getSegment, valid_index.
  replace ((0 <=? i) && (i <? MAX_DOCUMENT_CHUNK_COUNT)) with true by lia.
  cbn [negb alone await bind call exec]. rewrite Hd. cbn [ret bind]. replace (d_chunkCount d <=? i) with false by lia.
  rewrite (segmentRange_ok _ _ _ _ Hds) by lia. cbn [pure_ ret bind await alone call exec start end_ length_]. by rewrite Ho.
Qed.

(** C40: In whatever company, when a completion inserts its document, the insert reaches the database and
    its answer is lost, the completion takes it for a failed insert: it deletes the object it had made
    sure of, and fails.  The row is committed, counts against the quota and is not being purged, and
    every request for one of its segments is answered 404. *)
Theorem lost_insert_loses_document s i id row rotationLockId lockId o : reachable false s ->
  threads s !! i = Some {| program := inserting id row rotationLockId lockId; own := o |} ->
  is_Some (objects (store s) !! id) /\
  ∃ s', rtc (step true) s s' /\ threads s' = <[i := {| program := Done (Throw Failed); own := o |}]> (threads s) /\
    documents (store s') = <[id := row]> (documents (store s)) /\ purgePending row = false /\
    committed (store s') = committed (store s) + d_plaintextBytes row /\ objects (store s') = delete id (objects (store s)) /\
    ∀ a n, 0 <= n < d_chunkCount row -> alone a (handle (GetSegment id n)) (store s') = (store s', Throw (Http 404)).
Proof.
  intros Hs Hi. destruct (inserting_checked s i id row _ _ o Hs Hi) as (Hd & Ho & Hp & Hmax & Hds). split; [done|].
  destruct (lost_insert_runs s i id row _ _ o Hi Hd) as (s' & Hrun & Ht & Hd' & Ho'). exists s'. split_and!; [done..| |done|].
  - unfold committed. rewrite Hd', sum_by_insert_new by done. lia.
  - intros a n Hn. apply (getSegment_missing a id row); [by rewrite Hd', lookup_insert_eq|by rewrite Ho', lookup_delete_eq|done..].
Qed.
End alone.
