(* ===== verification/DocumentSample.v ===== *)
(** Runs of the document system on concrete inputs: a transfer opened, sent and completed; the same with
    the answer of the insert lost. *)
From stdpp Require Import gmap.
From S2P Require Import Prelude FullBackup DocumentObjects DocumentStore DocumentUploads DocumentRequests DocumentSystem DocumentProtocolSpec.
Local Open Scope Z_scope.

#[export] Instance sampleDeployment : Deployment :=
  {| MAX_DOCUMENT_SIZE_MB := 100; DOCUMENT_STORAGE_QUOTA_MB_PER_USER := 2048; DOCUMENT_UPLOAD_TTL_HOURS := 24;
     sha256_hex := λ _, repeat 97 64 |}.

(** The account lives, its vault does not rotate, its key is in generation 7, every folder exists. *)
Definition sample_answer {X} (c : cmd X) : Answer :=
  {| external_answer := match c with External vaultRotating => 0 | External vaultKeyVersion => 7 | _ => 1 end;
     page_keys := []; page_next := None; page_uploads := [] |}.

(** ** A scheduler *)

Inductive event := Start (r : Request) | Run (i : nat) | Lose (i : nat) | Fail (i : nat).

Section scheduler.
Context (lost_insert : bool).

Definition play (e : event) (s : System) : option System :=
  match e with
  | Start r => Some {| store := store s; threads := threads s ++ [{| program := handle r; own := ∅ |}] |}
  | Run i =>
      match threads s !! i with
      | Some {| program := Call c k; own := o |} =>
          let '(s', x) := exec (sample_answer c) c (store s) in
          Some {| store := s'; threads := <[i := {| program := k (Some x); own := own_after c x o |}]> (threads s) |}
      | _ => None
      end
  | Lose i =>
      match threads s !! i with
      | Some {| program := Call c k; own := o |} =>
          if may_be_lost lost_insert c
          then Some {| store := fst (exec (sample_answer c) c (store s)); threads := <[i := {| program := k None; own := o |}]> (threads s) |}
          else None
      | _ => None
      end
  | Fail i =>
      match threads s !! i with
      | Some {| program := Call c k; own := o |} => Some {| store := store s; threads := <[i := {| program := k None; own := o |}]> (threads s) |}
      | _ => None
      end
  end.

Lemma play_step e s s' : play e s = Some s' -> step lost_insert s s'.
Proof.
  destruct e as [r|i|i|i]; cbn [play].
  - intros [= <-]. constructor.
  - destruct (threads s !! i) as [[[r|X c k] o]|] eqn:Ei; [done| |done]. destruct (exec _ c (store s)) as [s1 x] eqn:E.
    intros [= <-]. by eapply step_run.
  - destruct (threads s !! i) as [[[r|X c k] o]|] eqn:Ei; [done| |done]. destruct (may_be_lost _ c) eqn:El; [|done]. intros [= <-].
    destruct (exec (sample_answer c) c (store s)) as [s1 x] eqn:E. by eapply step_lost.
  - destruct (threads s !! i) as [[[r|X c k] o]|] eqn:Ei; [done| |done]. intros [= <-]. by eapply step_fail.
Qed.

Definition plays (es : list event) (s : option System) : option System := foldl (λ s e, s ≫= play e) s es.

Lemma plays_reachable t es s : plays es (Some {| store := empty_store t; threads := [] |}) = Some s -> reachable lost_insert s.
Proof.
  intros Hp. exists t. revert s Hp. induction es as [|e es IH] using rev_ind; intros s; unfold plays; [by intros [= <-]|].
  rewrite foldl_app. cbn [foldl]. fold (plays es (Some {| store := empty_store t; threads := [] |})).
  destruct (plays es _) as [s1|] eqn:E1; [|done]. cbn. intros Hp. eapply rtc_r; [by apply IH|]. by eapply play_step.
Qed.
End scheduler.

Definition played (lost_insert : bool) (es : list event) : System :=
  default {| store := empty_store 0; threads := [] |} (plays lost_insert es (Some {| store := empty_store 0; threads := [] |})).

(** ** One small document *)

Definition sample_body : list Z := repeat 5 19.
Definition sample_id : DocId := (1%nat, 0).
Definition sample_row : Document :=
  {| d_folderId := None; d_chunkCount := 1; d_chunkPlaintextBytes := DOCUMENT_PLAINTEXT_CHUNK_BYTES; d_ciphertextBytes := 19;
     d_plaintextBytes := 3; deletedAt := None; purgePending := false |}.

Definition sample_open : Request := InitUpload {| declaredPlaintextBytes_ := 3; declaredChunkCount_ := 1; folderId_ := None |}.
Definition sample_part : Request :=
  UploadPartRequest sample_id 1 {| part_body := Some sample_body; content_length := Some 19; part_digest := Some (repeat 97 64) |}.

(** Opening and sending; completing up to the insert; the rest. *)
Definition sent : list event := Start sample_open :: repeat (Run 0) 11 ++ Start sample_part :: repeat (Run 1) 4.
Definition before_insert : list event := Start (CompleteUpload sample_id 7) :: repeat (Run 2) 11.
Definition completed : list event := sent ++ before_insert ++ repeat (Run 2) 5.
Definition insert_lost : list event := sent ++ before_insert ++ [Lose 2] ++ repeat (Run 2) 3.

(** The state after [es], if every event of it could happen. *)
Lemma played_reachable lost_insert es : is_Some (plays lost_insert es (Some {| store := empty_store 0; threads := [] |})) ->
  reachable lost_insert (played lost_insert es).
Proof. intros [s Hs]. apply (plays_reachable lost_insert 0 es). unfold played. by rewrite Hs. Qed.

Lemma completed_reachable : reachable false (played false completed).
Proof. apply played_reachable. vm_compute. by eexists. Qed.

Lemma committed_document_is_stored_witness :
  let s := played false completed in
  documents (store s) !! sample_id = Some sample_row /\
  (purgePending sample_row = false -> ∃ o, objects (store s) !! sample_id = Some o /\ Z.of_nat (length (content o)) = 19) /\
  sample_id ∉ cancel_claims (store s).
Proof.
  intros s. assert (documents (store s) !! sample_id = Some sample_row) as Hd by (vm_compute; reflexivity).
  destruct (committed_document_is_stored s sample_id sample_row completed_reachable Hd) as (H1 & _ & _ & _ & H2 & _). by split_and!.
Defined.

Lemma committed_within_quota_witness :
  let s := played false completed in
  sum_by d_plaintextBytes (documents (store s)) = 3 /\ sum_by d_plaintextBytes (documents (store s)) <= storageQuotaBytes.
Proof.
  intros s. assert (0 <= DOCUMENT_STORAGE_QUOTA_MB_PER_USER) as Hq by (vm_compute; discriminate).
  destruct (committed_within_quota s Hq completed_reachable) as [Hc _]. split; [vm_compute; reflexivity|exact Hc].
Defined.

Lemma documents_read_back_witness :
  let s := played false completed in
  documents (store s) !! sample_id = Some sample_row /\
  ∃ segments, Z.of_nat (length segments) = 1 /\ (λ o, content o) <$> objects (store s) !! sample_id = Some (concat segments) /\
    ∀ i body a, segments !! i = Some body -> alone a (handle (GetSegment sample_id (Z.of_nat i))) (store s) = (store s, Ok (Segment body)).
Proof.
  intros s. assert (documents (store s) !! sample_id = Some sample_row) as Hd by (vm_compute; reflexivity). split; [done|].
  destruct (documents_read_back s sample_id sample_row completed_reachable Hd eq_refl) as (segments & H1 & H2 & _ & H3 & _). exists segments. split; [exact H1|]. split; [exact H2|exact H3].
Defined.

(** The answer of the insert lost. *)
Lemma lost_insert_loses_document_witness :
  let s := played false (sent ++ before_insert) in
  reachable false s /\ is_Some (objects (store s) !! sample_id) /\
  ∃ s', rtc (step true) s s' /\ documents (store s') !! sample_id = Some sample_row /\ objects (store s') !! sample_id = None /\
    ∀ a, alone a (handle (GetSegment sample_id 0)) (store s') = (store s', Throw (Http 404)).
Proof.
  intros s. assert (reachable false s) as Hs by (apply played_reachable; vm_compute; by eexists). split; [exact Hs|].
  assert (∃ r c o, threads s !! 2%nat = Some {| program := inserting sample_id sample_row r c; own := o |}) as (r & c & o & Hi).
  { vm_compute. by do 3 eexists. }
  destruct (lost_insert_loses_document s 2 sample_id sample_row r c o Hs Hi) as (H1 & s' & H2 & _ & H3 & _ & _ & H4 & H5).
  split; [exact H1|]. exists s'. split; [exact H2|]. split; [by rewrite H3, lookup_insert_eq|]. split; [by rewrite H4, lookup_delete_eq|].
  intros a. apply (H5 a 0). vm_compute. split; [discriminate|reflexivity].
Defined.
