(* ===== verification/DocumentBounds.v ===== *)
(** The collector and the emptying of the trash end, whatever the database and the engine answer; and
    an engine that refuses is left alone. *)
From stdpp Require Import gmap.
From S2P Require Import Prelude FullBackup DocumentObjects DocumentStore DocumentUploads DocumentRequests DocumentSystem.
Local Open Scope Z_scope.

(** ** Commands counted along every execution *)

Section budget.
Context (counted : ∀ X, cmd X -> bool) (refused : bool).

(** Whatever is answered, at most [n] counted commands are given, all of them refused if [refused]; [Q]
    holds of what is left of [n] and of the outcome. *)
Fixpoint budget {R} (n : nat) (p : prog R) (Q : nat -> R -> Prop) : Prop :=
  match p with
  | Done r => Q n r
  | Call c k =>
      if counted _ c then
        match n with
        | O => False
        | S n => if refused then budget n (k None) Q else ∀ x, budget n (k x) Q
        end
      else ∀ x, budget n (k x) Q
  end.

Lemma budget_bind {R S} n (p : prog R) (f : R -> prog S) Q : budget n p (λ m r, budget m (f r) Q) -> budget n (bind p f) Q.
Proof.
  revert n. induction p as [r|X c k IH]; intros n Hp; cbn [budget bind] in *; [done|].
  destruct (counted X c); [destruct n as [|n]; [done|]; destruct refused|]; intros; by apply IH.
Qed.

Lemma budget_mono {R} n (p : prog R) (Q Q' : nat -> R -> Prop) : budget n p Q -> (∀ m r, Q m r -> Q' m r) -> budget n p Q'.
Proof.
  intros Hp HQ. revert n Hp. induction p as [r|X c k IH]; intros n Hp; cbn [budget] in *; [by apply HQ|].
  destruct (counted X c); [destruct n as [|n]; [done|]; destruct refused|]; intros; by apply IH.
Qed.

(** The program is not cut short. *)
Definition whole {R} (P : nat -> R -> Prop) : nat -> result Refused R -> Prop :=
  λ n r, match r with Ok x => P n x | Throw e => e <> Interrupted end.

Lemma budget_await {R S} n (p : async R) (f : R -> async S) P Q :
  budget n p (whole P) -> (∀ m x, P m x -> budget m (f x) (whole Q)) -> budget n (await p f) (whole Q).
Proof.
  intros Hp Hf. apply budget_bind. eapply budget_mono; [exact Hp|]. intros m [x|e] Hr; [by apply Hf|done].
Qed.

Lemma budget_call {X S} (c : cmd X) (f : X -> async S) n Q : counted _ c = false -> (∀ x, budget n (f x) (whole Q)) -> budget n (await (call c) f) (whole Q).
Proof. intros Hc Hf. cbn [await call bind budget]. rewrite Hc. by intros [x|]; cbn; [apply Hf|]. Qed.

Lemma budget_attempt {X S} (c : cmd X) (f : option X -> async S) n Q : counted _ c = false ->
  (∀ x, budget n (f x) (whole Q)) -> budget n (await (attempt c) f) (whole Q).
Proof. intros Hc Hf. cbn [await attempt bind budget]. rewrite Hc. intros x. apply Hf. Qed.
End budget.

Definition is_listing {X} (c : cmd X) : bool := match c with ListObjects _ _ | ListMultipartUploads => true | _ => false end.
Definition is_removal {X} (c : cmd X) : bool := match c with DeleteObject _ | AbortMultipartUpload _ _ => true | _ => false end.

Section bounds.
Context `{Deployment}.

(** ** Listings *)

Abbreviation listings := (budget (@is_listing) false).

Lemma abort_candidates_lists cs claimed t n : listings n (abort_candidates cs claimed t) (whole (λ m _, m = n)).
Proof.
  revert t. induction cs as [|[id s3] cs IH]; intros t; cbn [abort_candidates]; [done|]. case_match; [by apply IH|].
  case_match; [done|]. apply budget_attempt; [done|]. intros [b|]; apply IH.
Qed.

(** A page examines its rows. *)
Definition some_row (page : list DocId) : nat := match page with [] => 0 | _ => 1 end.

Lemma purge_page_lists page lastId k f t n :
  listings n (purge_page page lastId k f t) (whole (λ m '(_, k', _, _), m = n /\ (k + some_row page <= k')%nat)).
Proof.
  revert lastId k f t. induction page as [|id page IH]; intros lastId k f t; cbn [purge_page]; [by split; [|cbn; lia]|].
  assert (∀ lastId f t, listings n (purge_page page lastId (S k) f t)
    (whole (λ m '(_, k', _, _), m = n /\ (k + some_row (id :: page) <= k')%nat))) as Hn.
  { intros l' f' t'. eapply budget_mono; [apply IH|]. intros m [[[[l2 k2] f2] t2]|e]; [|done]. cbn. intros [-> Hr]. split; [done|]. lia. }
  case_match; [split; [done|cbn; lia]|]. apply budget_attempt; [done|]. intros [u|]; [|apply Hn].
  apply budget_attempt; [done|]. intros [[]|]; apply Hn.
Qed.

Lemma purge_loop_lists fuel lastId k t n : (PURGE_PENDING_MAX_PER_RUN <= k + fuel)%nat ->
  listings n (purge_loop fuel lastId k t) (whole (λ m _, m = n)).
Proof.
  revert lastId k t. induction fuel as [|fuel IH]; intros lastId k t Hk; cbn [purge_loop].
  { by replace (k <? PURGE_PENDING_MAX_PER_RUN)%nat with false by (symmetry; apply Nat.ltb_ge; lia). }
  case_match; [done|]. apply budget_call; [done|]. intros [|id page]; [done|].
  eapply budget_await; [apply purge_page_lists|]. intros m [[[l2 k2] f2] t2] [-> Hr]. cbn [some_row] in Hr.
  eapply (budget_await _ _ _ _ _ (λ m _, m = n)).
  - case_match; [|done]. apply budget_call; [done|]. done.
  - intros m _ ->. apply IH. lia.
Qed.

Lemma delete_orphans_lists cs named t n : listings n (delete_orphans cs named t) (whole (λ m _, m = n)).
Proof.
  revert t. induction cs as [|id cs IH]; intros t; cbn [delete_orphans]; [done|]. case_match; [by apply IH|].
  case_match; [done|]. apply budget_attempt; [done|]. intros [b|]; apply IH.
Qed.

Lemma sweep_loop_lists pages now cursor token t : listings pages (sweep_loop pages now cursor token t) (whole (λ _ _, True)).
Proof.
  revert cursor token t. induction pages as [|pages IH]; intros cursor token t; cbn [sweep_loop]; [done|]. case_match; [done|].
  cbn [await call bind budget is_listing]. intros [[objects next]|]; [|done]. cbn [bind ret].
  eapply (budget_await _ _ _ _ _ (λ m _, m = pages)).
  - case_match; [done|]. apply budget_call; [done|]. intros rows. apply budget_call; [done|]. intros staged. apply delete_orphans_lists.
  - intros m t' ->. case_match; [apply IH|done].
Qed.

Lemma run_sweeps_lists cursor : listings (S ORPHAN_SWEEP_MAX_PAGES_PER_RUN) (run_sweeps cursor) (whole (λ _ _, True)).
Proof.
  unfold run_sweeps. apply budget_call; [done|]. intros now. eapply (budget_await _ _ _ _ _ (λ m _, m = ORPHAN_SWEEP_MAX_PAGES_PER_RUN)).
  - unfold abortAbandonedUploads. cbn [await call bind budget is_listing]. intros [ups|]; [|done]. cbn [bind ret].
    case_match; [done|]. apply budget_call; [done|]. intros claimed. apply abort_candidates_lists.
  - intros m t ->. eapply budget_await; [apply purge_loop_lists; cbn; lia|]. intros m t' ->.
    eapply budget_await; [apply sweep_loop_lists|]. done.
Qed.

(** ** Removals an engine refuses *)

Abbreviation removals := (budget (@is_removal) true).

(** What is left before the breaker opens. *)
Definition left_ (b : StorageBreaker) (n : nat) : Prop := MAX_CONSECUTIVE_STORAGE_FAILURES <= consecutiveFailures b + Z.of_nat n.
Definition totals_left (n : nat) (t : CleanupTotals) : Prop := left_ (breaker t) n.
Definition walk_left (n : nat) (w : Walk) : Prop := left_ (w_breaker w) n.

Lemma refused_once {X S} (c : cmd X) (f : option X -> async S) b n Q : is_removal c = true -> left_ b n -> isRefusing b = false ->
  (∀ m, left_ (recordFailure b) m -> removals m (f None) (whole Q)) -> removals n (await (attempt c) f) (whole Q).
Proof.
  intros Hc Hl Hr Hf. cbn [await attempt bind budget]. rewrite Hc. unfold left_, isRefusing, MAX_CONSECUTIVE_STORAGE_FAILURES in *.
  destruct n as [|n]; [lia|]. apply Hf. cbn. lia.
Qed.

Lemma abort_candidates_removals cs claimed t n : totals_left n t -> removals n (abort_candidates cs claimed t) (whole totals_left).
Proof.
  revert t n. induction cs as [|[id s3] cs IH]; intros t n Hn; cbn [abort_candidates]; [done|]. case_match; [by apply IH|].
  case_match; [done|]. eapply refused_once; [done|exact Hn|done|]. intros m Hm. by apply IH.
Qed.

Lemma purge_page_removals page lastId k f t n : totals_left n t ->
  removals n (purge_page page lastId k f t) (whole (λ m '(_, k', _, t), totals_left m t /\ (k + some_row page <= k')%nat)).
Proof.
  revert lastId k f t n. induction page as [|id page IH]; intros lastId k f t n Hn; cbn [purge_page]; [by split; [|cbn; lia]|].
  case_match; [by split; [|cbn; lia]|]. eapply refused_once; [done|exact Hn|done|]. intros m Hm. eapply budget_mono; [by apply IH|].
  intros i [[[[l2 k2] f2] t2]|e]; [|done]. cbn. intros [Ht Hk]. split; [done|]. lia.
Qed.

Lemma purge_loop_removals fuel lastId k t n : (PURGE_PENDING_MAX_PER_RUN <= k + fuel)%nat -> totals_left n t ->
  removals n (purge_loop fuel lastId k t) (whole totals_left).
Proof.
  revert lastId k t n. induction fuel as [|fuel IH]; intros lastId k t n Hk Hn; cbn [purge_loop].
  { by replace (k <? PURGE_PENDING_MAX_PER_RUN)%nat with false by (symmetry; apply Nat.ltb_ge; lia). }
  case_match; [done|]. apply budget_call; [done|]. intros [|id page]; [done|].
  eapply budget_await; [by apply purge_page_removals|]. intros m [[[l2 k2] f2] t2] [Ht Hr]. cbn [some_row] in Hr.
  eapply (budget_await _ _ _ _ _ (λ m _, totals_left m t2)).
  - case_match; [|done]. apply budget_call; [done|]. done.
  - intros m2 _ Ht2. apply IH; [lia|done].
Qed.

Lemma delete_orphans_removals cs named t n : totals_left n t -> removals n (delete_orphans cs named t) (whole totals_left).
Proof.
  revert t n. induction cs as [|id cs IH]; intros t n Hn; cbn [delete_orphans]; [done|]. case_match; [by apply IH|].
  case_match; [done|]. eapply refused_once; [done|exact Hn|done|]. intros m Hm. by apply IH.
Qed.

Lemma sweep_loop_removals pages now cursor token t n : totals_left n t -> removals n (sweep_loop pages now cursor token t) (whole (λ _ _, True)).
Proof.
  revert cursor token t n. induction pages as [|pages IH]; intros cursor token t n Hn; cbn [sweep_loop]; [done|]. case_match; [done|].
  apply budget_call; [done|]. intros [objects next]. eapply (budget_await _ _ _ _ _ totals_left).
  - case_match; [done|]. apply budget_call; [done|]. intros rows. apply budget_call; [done|]. intros staged. by apply delete_orphans_removals.
  - intros m t' Ht. case_match; [by apply IH|done].
Qed.

Lemma run_sweeps_removals cursor : removals 5 (run_sweeps cursor) (whole (λ _ _, True)).
Proof.
  unfold run_sweeps. apply budget_call; [done|]. intros now. eapply (budget_await _ _ _ _ _ totals_left).
  - unfold abortAbandonedUploads. apply budget_call; [done|]. intros ups. case_match; [done|].
    apply budget_call; [done|]. intros claimed. by apply abort_candidates_removals.
  - intros m t Ht. eapply budget_await; [apply purge_loop_removals; [cbn; lia|exact Ht]|]. intros m2 t2 Ht2.
    eapply budget_await; [by apply sweep_loop_removals|]. done.
Qed.

(** The emptying of the trash; [fuel] may cut it short. *)
Definition cut {R} (P : nat -> R -> Prop) : nat -> result Refused R -> Prop := λ n r, match r with Ok x => P n x | Throw _ => True end.

Lemma empty_row_removals t id w n : walk_left n w -> isRefusing (w_breaker w) = false ->
  removals n (empty_row t id w) (whole walk_left).
Proof.
  intros Hn Hr. unfold empty_row. apply budget_attempt; [done|]. intros [[]|]; [|done|].
  - eapply refused_once; [done|exact Hn|done|]. by intros m Hm.
  - unfold whole, walk_left, left_ in *. cbn. lia.
Qed.

Lemma empty_page_removals t page w n : walk_left n w -> removals n (empty_page t page w) (whole walk_left).
Proof.
  revert w n. induction page as [|id page IH]; intros w n Hn; cbn [empty_page]; [done|]. case_match; [done|].
  eapply budget_await; [by apply empty_row_removals|]. intros m w' Hw. by apply IH.
Qed.

Lemma empty_loop_removals fuel t w n : walk_left n w -> removals n (empty_loop fuel t w) (cut walk_left).
Proof.
  revert w n. induction fuel as [|fuel IH]; intros w n Hn; cbn [empty_loop]; [done|]. case_match; [done|].
  cbn [await call bind budget is_removal]. intros [[|id page]|]; [done| |done]. cbn [bind ret]. apply budget_bind.
  eapply budget_mono; [by apply empty_page_removals|]. intros m [w'|e] Hw; [by apply IH|done].
Qed.

Lemma emptyDocumentTrash_removals fuel : removals 5 (emptyDocumentTrash fuel) (λ _ _, True).
Proof.
  unfold emptyDocumentTrash. cbn [await call bind budget is_removal]. intros [now|]; [|done]. cbn [bind ret]. apply budget_bind.
  eapply budget_mono; [by apply empty_loop_removals|]. intros m [w|e] _; [|done]. cbn. done.
Qed.

(** C20: Whatever the database and the engine answer, a run of the collector ends by its own conditions,
    after at most 33 listings; and when the engine refuses every removal, it is asked for no more than
    five of them, as it is by the emptying of a trash of any size. *)
Theorem collector_run_is_bounded cursor fuel :
  budget (@is_listing) false (S ORPHAN_SWEEP_MAX_PAGES_PER_RUN) (run_sweeps cursor) (λ _ r, r <> Throw Interrupted) /\
  budget (@is_removal) true 5 (run_sweeps cursor) (λ _ r, r <> Throw Interrupted) /\
  budget (@is_removal) true 5 (handle (EmptyTrash fuel)) (λ _ _, True).
Proof.
  split_and!.
  - eapply budget_mono; [apply run_sweeps_lists|]. intros m [x|e] Hr; [done|]. by intros [= ->].
  - eapply budget_mono; [apply run_sweeps_removals|]. intros m [x|e] Hr; [done|]. by intros [= ->].
  - apply budget_bind. eapply budget_mono; [apply emptyDocumentTrash_removals|]. by intros m [x|e] _.
Qed.
End bounds.
