(* ===== verification/DocumentRoundTrip.v ===== *)
(** A transfer that nothing disturbs: the requests of a client that opens it, sends its sealed segments
    in order and completes it commit a document that reads back as what was sent. *)
From stdpp Require Import gmap.
From S2P Require Import Prelude FullBackup DocumentObjects DocumentObjectsSpec DocumentStore DocumentUploads DocumentRequests DocumentSystem DocumentInvariant DocumentSafety DocumentRequestSafety DocumentCompletionSafety DocumentProtocolSpec DocumentSample.
Local Open Scope Z_scope.

Section roundtrip.
Context `{Deployment} (a : ∀ X, cmd X -> Answer).

(** ** The client *)

Definition part_request (body : list Z) : PartRequest :=
  {| part_body := Some body; content_length := Some (Z.of_nat (length body)); part_digest := Some (sha256_hex body) |}.

Fixpoint send_parts (id : DocId) (number : Z) (bodies : list (list Z)) (s : Store) : option Store :=
  match bodies with
  | [] => Some s
  | body :: bodies =>
      match alone a (handle (UploadPartRequest id number (part_request body))) s with
      | (s, Ok (PartStored _ _ _)) => send_parts id (number + 1) bodies s
      | _ => None
      end
  end.

Definition transfer (plaintextBytes : Z) (bodies : list (list Z)) (s : Store) : option (Store * DocId) :=
  let body := {| declaredPlaintextBytes_ := plaintextBytes; declaredChunkCount_ := Z.of_nat (length bodies); folderId_ := None |} in
  match alone a (handle (InitUpload body)) s with
  | (s, Ok (Opened id version)) =>
      s ← send_parts id 1 bodies s;
      match alone a (handle (CompleteUpload id version)) s with
      | (s, Ok (Completed (document _))) => Some (s, id)
      | _ => None
      end
  | _ => None
  end.

(** ** Where it succeeds *)

(** The rest of the server agrees: no rotation, a live account. *)
Record agreeable : Prop := {
  a_fence : external_answer (a _ (External vaultRotating)) = 0;
  a_live : external_answer (a _ (External accountLive)) <> 0;
}.

(** Segments as the framing of the declared size has them. *)
Record sealed_as (plaintextBytes : Z) (bodies : list (list Z)) : Prop := {
  s_schema : initDocumentUploadSchema
    {| declaredPlaintextBytes_ := plaintextBytes; declaredChunkCount_ := Z.of_nat (length bodies); folderId_ := None |} = true;
  s_sizes i body : bodies !! i = Some body ->
    requiredBytes (Z.of_nat i + 1) (Z.of_nat (length bodies)) plaintextBytes DOCUMENT_PLAINTEXT_CHUNK_BYTES = Ok (Z.of_nat (length body));
  s_digests body : body ∈ bodies -> PART_DIGEST_PATTERN (sha256_hex body) = true;
}.

(** The account has room, and no other request is under way. *)
Record room (plaintextBytes : Z) (s : Store) : Prop := {
  r_unlocked : locks s = ∅;
  r_slots : Z.of_nat (size (live (clock s) (uploads s))) < MAX_CONCURRENT_DOCUMENT_UPLOADS_PER_USER;
  r_count : Z.of_nat (size (documents s)) < MAX_DOCUMENTS_PER_USER;
  r_cap : plaintextBytes <= maxDocumentBytes;
  r_quota : sum_by d_plaintextBytes (documents s) + sum_by declaredPlaintextBytes (live (clock s) (uploads s)) + plaintextBytes <= storageQuotaBytes;
}.

(** ** One command after another *)

Lemma run_alone_call {X R} (c : cmd X) (f : X -> async R) s :
  alone a (await (call c) f) s = let '(s, x) := exec (a _ c) c s in alone a (f x) s.
Proof. reflexivity. Qed.

Lemma run_alone_attempt {X R} (c : cmd X) (f : option X -> async R) s :
  alone a (await (attempt c) f) s = let '(s, x) := exec (a _ c) c s in alone a (f (Some x)) s.
Proof. reflexivity. Qed.

Lemma run_alone_await {R S} (p : async R) (f : R -> async S) s :
  alone a (await p f) s = let '(s, r) := alone a p s in alone a (match r with Ok x => f x | Throw e => throw e end) s.
Proof. apply run_alone_bind. Qed.

Lemma run_alone_finally {R} (p : async R) q s :
  alone a (finally p q) s = let '(s, r) := alone a p s in
    let '(s, u) := alone a q s in (s, match u with Ok _ => r | Throw e => Throw e end).
Proof.
  unfold finally. rewrite run_alone_bind. destruct (alone a p s) as [s1 r]. rewrite run_alone_bind. destruct (alone a q s1) as [s2 [u|e]]; done.
Qed.

(** The staging row while the client sends. *)
Definition part_at (number : Z) (body : list Z) : Part := {| partNumber := number; bytes := Z.of_nat (length body) |}.

Fixpoint ledger_from (number : Z) (bodies : list (list Z)) : list Part :=
  match bodies with
  | [] => []
  | body :: bodies => part_at number body :: ledger_from (number + 1) bodies
  end.

Definition ledger : list (list Z) -> list Part := ledger_from 1.

Definition row_with (s3 : option nat) (plaintextBytes now : Z) (n : nat) (sent : list (list Z)) : Upload :=
  {| s3UploadId := s3; declaredPlaintextBytes := plaintextBytes; declaredChunkCount := Z.of_nat n;
     u_chunkPlaintextBytes := DOCUMENT_PLAINTEXT_CHUNK_BYTES; parts := ledger sent; u_receivedBytes := sumBytes (ledger sent);
     u_folderId := None; expiresAt := now + uploadTtlMs |}.

(** What the engine holds of it: the object of a single segment, or the parts of an upload. *)
Definition engine_holds (id : DocId) (s3 : option nat) (sent : list (list Z)) (s : Store) : Prop :=
  match s3 with
  | None => ∀ body, sent = [body] -> content <$> objects s !! id = Some body
  | Some s3 => ∃ m stored, known id s3 (multiparts s) = Some m /\ m_parts m = map_seqZ 1 stored /\ map snd stored = sent
  end.

(** The transfer [id] of [n] segments, opened in [s0], has [sent] these. *)
Record sending (s0 : Store) (id : DocId) (s3 : option nat) (plaintextBytes : Z) (n : nat) (sent : list (list Z)) (s : Store) : Prop := {
  k_row : uploads s = <[id := row_with s3 plaintextBytes (clock s0) n sent]> (uploads s0);
  k_documents : documents s = documents s0;
  k_engine : engine_holds id s3 sent s;
  k_locks : locks s = ∅;
  k_clock : clock s = clock s0;
  k_mode : s3 = None <-> n = 1%nat;
}.

(** ** Opening *)

Lemma not_rotating_runs s : agreeable -> alone a assertVaultNotRotating s = (s, Ok tt).
Proof. intros [Hf _]. unfold assertVaultNotRotating. rewrite run_alone_call. cbn [exec]. by rewrite Hf. Qed.

Lemma row_opened_with s3 pt now n : row_with s3 pt now n [] =
  new_upload s3 {| declaredPlaintextBytes_ := pt; declaredChunkCount_ := Z.of_nat n; folderId_ := None |} now.
Proof. reflexivity. Qed.

Lemma known_insert id s3 u m : m_key u = id -> known id s3 (<[s3 := u]> m) = Some u.
Proof. intros Hk. unfold known. rewrite lookup_insert_eq. cbn [mbind option_bind]. by rewrite decide_True. Qed.

Lemma open_under_lock_runs pt n s : (1 <= n)%nat ->
  Z.of_nat (size (live (clock s) (uploads s))) < MAX_CONCURRENT_DOCUMENT_UPLOADS_PER_USER -> Z.of_nat (size (documents s)) < MAX_DOCUMENTS_PER_USER ->
  sum_by d_plaintextBytes (documents s) + sum_by declaredPlaintextBytes (live (clock s) (uploads s)) + pt <= storageQuotaBytes ->
  let body := {| declaredPlaintextBytes_ := pt; declaredChunkCount_ := Z.of_nat n; folderId_ := None |} in
  ∃ s1 s3, alone a (openTransferUnderLock body) s = (s1, Ok ((fresh s, clock s), external_answer (a _ (External vaultKeyVersion)))) /\
    uploads s1 = <[(fresh s, clock s) := row_with s3 pt (clock s) n []]> (uploads s) /\ documents s1 = documents s /\
    engine_holds (fresh s, clock s) s3 [] s1 /\ locks s1 = locks s /\ clock s1 = clock s /\ (s3 = None <-> n = 1%nat).
Proof.
  intros Hn Hs Hc Hq body. unfold openTransferUnderLock. subst body. cbn [declaredPlaintextBytes_ declaredChunkCount_ folderId_].
  rewrite run_alone_call. cbn [exec]. rewrite run_alone_call. cbn [exec].
  replace (MAX_CONCURRENT_DOCUMENT_UPLOADS_PER_USER <=? _) with false by lia. rewrite run_alone_call. cbn [exec].
  replace (MAX_DOCUMENTS_PER_USER <=? _) with false by lia. rewrite run_alone_call. cbn [exec]. rewrite run_alone_call. cbn [exec].
  replace (storageQuotaBytes <? _) with false by lia. rewrite run_alone_await. cbn [alone ret]. change (1 =? 0) with false. cbn match.
  rewrite run_alone_call. cbn [exec]. rewrite run_alone_call. cbn [exec].
  destruct (1 <? Z.of_nat n) eqn:En.
  - rewrite run_alone_await, run_alone_call. cbn [exec alone ret tick fresh clock]. rewrite run_alone_attempt. cbn [exec alone ret].
    eexists _, (Some _). rewrite row_opened_with. split; [reflexivity|]. split_and!; cbn; [reflexivity|done| |done|done|].
    + eexists _, []. split; [by apply known_insert|done].
    + split; [done|lia].
  - rewrite run_alone_await. cbn [alone ret]. rewrite run_alone_attempt. cbn [exec alone ret].
    eexists _, None. rewrite row_opened_with. split; [reflexivity|]. split_and!; cbn; [reflexivity|done|done|done|done|]. split; [lia|done].
Qed.

Lemma open_runs pt n s : (1 <= n)%nat -> agreeable -> room pt s -> good s ->
  let body := {| declaredPlaintextBytes_ := pt; declaredChunkCount_ := Z.of_nat n; folderId_ := None |} in
  initDocumentUploadSchema body = true ->
  ∃ s1 id s3, alone a (handle (InitUpload body)) s = (s1, Ok (Opened id (external_answer (a _ (External vaultKeyVersion))))) /\
    sending s id s3 pt n [] s1 /\ opened s !! id = None.
Proof.
  intros Hn Ha [Hl Hs Hc Hcap Hq] Hg body Hsc. unfold handle, initUpload. rewrite Hsc. cbn [negb]. rewrite run_alone_await, run_alone_await, not_rotating_runs by done.
  subst body. cbn [declaredPlaintextBytes_]. replace (maxDocumentBytes <? pt) with false by lia. unfold acquireJobLock. rewrite run_alone_call. cbn [exec].
  unfold lock_free. rewrite Hl, lookup_empty. rewrite run_alone_finally.
  destruct (open_under_lock_runs pt n (tick (set_locks <[documentInitLockName:={| lockedBy := fresh s; l_expiresAt := clock s + INIT_LOCK_TTL_MS |}]> s)))
    as (s1 & s3 & -> & Hu & Hd & He & Hk & Ht & Hm); [done..|].
  unfold releaseJobLock. cbn [alone call exec]. rewrite Hk. cbn [locks tick set_locks]. rewrite lookup_insert_eq. cbn [lockedBy]. rewrite Nat.eqb_refl.
  cbn [alone ret fst snd]. eexists _, _, s3. split; [reflexivity|]. split.
  - constructor; cbn in *; try done.
    + rewrite Hk, Hl. by rewrite delete_insert_eq, delete_empty.
  - cbn. destruct (opened s !! _) as [f|] eqn:Eo; [|done]. destruct (g_opened s Hg _ f Eo) as [Hlt _]. cbn in Hlt. lia.
Qed.

(** ** Sending *)

Lemma ledger_from_app k l l' : ledger_from k (l ++ l') = ledger_from k l ++ ledger_from (k + Z.of_nat (length l)) l'.
Proof.
  revert k. induction l as [|x l IH]; intros k; cbn [app ledger_from length]; [by rewrite Z.add_0_r|].
  rewrite IH. do 3 f_equal. lia.
Qed.

Lemma ledger_from_elem k bodies p : p ∈ ledger_from k bodies -> ∃ i body, bodies !! i = Some body /\ p = part_at (k + Z.of_nat i) body.
Proof.
  revert k. induction bodies as [|body bodies IH]; intros k; cbn [ledger_from]; [by intros ?%elem_of_nil|].
  intros [->|(i & b & Hi & ->)%IH]%elem_of_cons; [exists 0%nat, body|exists (S i), b]; (split; [done|]); f_equal; lia.
Qed.

Lemma recordPart_next sent body : recordPart (ledger sent) (part_at (Z.of_nat (length sent) + 1) body) = ledger (sent ++ [body]).
Proof.
  unfold ledger. rewrite ledger_from_app, Z.add_comm. unfold recordPart. cbn [ledger_from]. f_equal.
  assert (∀ p, p ∈ ledger_from 1 sent -> negb (partNumber p =? 1 + Z.of_nat (length sent)) = true) as Hall.
  { intros p (i & b & Hi%lookup_lt_Some & ->)%ledger_from_elem. cbn [partNumber part_at]. lia. }
  induction (ledger_from 1 sent) as [|p l IH]; [done|]. cbn [List.filter partNumber part_at]. rewrite (Hall p) by by left.
  f_equal. apply IH. intros q Hq. apply Hall. by right.
Qed.

Lemma with_part_row s3 pt now n sent body :
  with_part (part_at (Z.of_nat (length sent) + 1) body) (row_with s3 pt now n sent) = row_with s3 pt now n (sent ++ [body]).
Proof. unfold with_part, row_with. cbn [parts]. by rewrite recordPart_next. Qed.

Lemma check_part_runs row number body now s : now < expiresAt row -> number <= declaredChunkCount row ->
  requiredBytes number (declaredChunkCount row) (declaredPlaintextBytes row) (u_chunkPlaintextBytes row) = Ok (Z.of_nat (length body)) ->
  PART_DIGEST_PATTERN (sha256_hex body) = true -> alone a (check_part row number (part_request body) body now) s = (s, Ok tt).
Proof.
  intros He Hn Hr Hd. unfold check_part. replace (expiresAt row <=? now) with false by lia. replace (declaredChunkCount row <? number) with false by lia.
  rewrite Hr. cbn [content_length part_request part_digest pure_]. rewrite bool_decide_true by done. cbn [negb]. rewrite run_alone_await. cbn [alone ret].
  rewrite Z.eqb_refl, Hd. cbn [negb]. by rewrite bool_decide_true.
Qed.

Lemma part_runs s0 id s3 pt n sent body s : sending s0 id s3 pt n sent s -> (length sent < n)%nat -> 0 < uploadTtlMs -> Z.of_nat n <= MAX_DOCUMENT_CHUNK_COUNT ->
  requiredBytes (Z.of_nat (length sent) + 1) (Z.of_nat n) pt DOCUMENT_PLAINTEXT_CHUNK_BYTES = Ok (Z.of_nat (length body)) ->
  PART_DIGEST_PATTERN (sha256_hex body) = true ->
  ∃ s' stored received, alone a (handle (UploadPartRequest id (Z.of_nat (length sent) + 1) (part_request body))) s = (s', Ok (PartStored (Z.of_nat (length sent) + 1) stored received)) /\
    sending s0 id s3 pt n (sent ++ [body]) s'.
Proof.
  intros [Hr Hd He Hl Ht Hm] Hlen Httl Hmax Hreq Hdig. unfold handle, uploadPart, valid_part_number.
  replace ((1 <=? Z.of_nat (length sent) + 1) && (Z.of_nat (length sent) + 1 <=? MAX_DOCUMENT_CHUNK_COUNT)) with true by lia.
  cbn [negb part_body part_request]. rewrite run_alone_await, run_alone_call. cbn [exec]. rewrite Hr, lookup_insert_eq, run_alone_call. cbn [exec].
  rewrite run_alone_await. fold (part_request body). rewrite check_part_runs; [|cbn; lia|cbn; lia|done|done].
  rewrite run_alone_await. unfold store_part. cbn [declaredChunkCount row_with s3UploadId].
  destruct s3 as [s3|].
  - assert (n <> 1%nat) as Hn1 by (intros E; by apply Hm in E). replace (Z.of_nat n =? 1) with false by lia.
    destruct He as (m & stored & Hk & Hparts & Hsnd). rewrite run_alone_call. cbn [exec]. rewrite Hk. cbn [alone ret]. rewrite run_alone_call. cbn [exec tick uploads set_multiparts].
    rewrite Hr, lookup_insert_eq. cbn [alone ret]. eexists _, _, _. split; [reflexivity|]. constructor; cbn; [|done| |done|done|done].
    + rewrite Hr. etransitivity; [apply insert_insert_eq|]. f_equal. apply (with_part_row (Some s3) pt (clock s0) n sent body).
    + eexists _, (stored ++ [(fresh s, body)]). split; [by apply known_insert|]. cbn [m_parts]. rewrite Hparts, map_seqZ_snoc, map_app, Hsnd.
      split; [|done]. f_equal. rewrite <- Hsnd, length_map. lia.
  - assert (n = 1%nat) as -> by by apply Hm. destruct sent as [|x sent]; [|cbn in Hlen; lia]. change (Z.of_nat 1 =? 1) with true. cbn [alone call exec].
    cbn [alone ret]. rewrite run_alone_call. cbn [exec uploads set_objects]. rewrite Hr, lookup_insert_eq. cbn [alone ret]. eexists _, _, _. split; [reflexivity|].
    constructor; cbn; [|done| |done|done|done].
    + rewrite Hr. etransitivity; [apply insert_insert_eq|]. done.
    + intros b [= <-]. by rewrite lookup_insert_eq.
Qed.

Lemma send_parts_runs s0 id s3 pt n bodies sent s : sending s0 id s3 pt n sent s -> length (sent ++ bodies) = n -> 0 < uploadTtlMs -> Z.of_nat n <= MAX_DOCUMENT_CHUNK_COUNT ->
  (∀ i body, (sent ++ bodies) !! i = Some body -> requiredBytes (Z.of_nat i + 1) (Z.of_nat n) pt DOCUMENT_PLAINTEXT_CHUNK_BYTES = Ok (Z.of_nat (length body))) ->
  (∀ body, body ∈ bodies -> PART_DIGEST_PATTERN (sha256_hex body) = true) ->
  ∃ s', send_parts id (Z.of_nat (length sent) + 1) bodies s = Some s' /\ sending s0 id s3 pt n (sent ++ bodies) s'.
Proof.
  revert sent s. induction bodies as [|body bodies IH]; intros sent s Hs Hlen Httl Hmax Hreq Hdig; cbn [send_parts].
  { rewrite app_nil_r. by exists s. }
  rewrite length_app in Hlen. cbn in Hlen.
  destruct (part_runs s0 id s3 pt n sent body s Hs) as (s1 & st & rc & -> & Hs1); [lia|done|done| |apply Hdig; by left|].
  { apply Hreq. rewrite lookup_app_r by lia. by rewrite Nat.sub_diag. }
  destruct (IH (sent ++ [body]) s1 Hs1) as (s2 & E2 & Hs2); [rewrite !length_app; cbn; lia|done|done|by rewrite <- app_assoc|intros b Hb; apply Hdig; by right|].
  exists s2. rewrite <- app_assoc in Hs2. split; [|done]. rewrite length_app in E2. cbn in E2.
  by replace (Z.of_nat (length sent) + 1 + 1) with (Z.of_nat (length sent + 1) + 1) by lia.
Qed.

(** ** Completing *)

(** What the engine lists of parts numbered from [k]. *)
Fixpoint entries_from (k : Z) (stored : list (nat * list Z)) : list (Part * nat) :=
  match stored with
  | [] => []
  | (etag, body) :: stored => (part_at k body, etag) :: entries_from (k + 1) stored
  end.

Lemma numbered_sorted {A} (key : A -> Z) l k : map key l = seqZ k (Z.of_nat (length l)) -> StronglySorted (key_le key) l /\ NoDup (map key l).
Proof.
  intros Hl. split; [|rewrite Hl; apply NoDup_seqZ]. revert k Hl. induction l as [|x l IH]; intros k; [constructor|].
  cbn [map length]. rewrite Nat2Z.inj_succ, seqZ_cons, Z.pred_succ by lia. intros [= <- Hl]. constructor; [by apply (IH (Z.succ (key x)))|].
  apply Forall_forall. intros y Hy. unfold key_le. assert (key y ∈ seqZ (Z.succ (key x)) (Z.of_nat (length l))) as Hin%elem_of_seqZ; [|lia].
  rewrite <- Hl. apply list_elem_of_In, in_map, list_elem_of_In, Hy.
Qed.

Lemma ledger_numbers k bodies : map partNumber (ledger_from k bodies) = seqZ k (Z.of_nat (length (ledger_from k bodies))).
Proof.
  revert k. induction bodies as [|body bodies IH]; intros k; [done|]. cbn [ledger_from map length]. rewrite Nat2Z.inj_succ, seqZ_cons, Z.pred_succ by lia.
  f_equal. apply IH.
Qed.

Lemma entries_ledger k stored : map fst (entries_from k stored) = ledger_from k (map snd stored).
Proof. revert k. induction stored as [|[etag body] stored IH]; intros k; [done|]. cbn. by rewrite IH. Qed.

Lemma ledger_sorted bodies : sort_by partNumber (ledger bodies) = ledger bodies.
Proof. apply sort_by_id. apply (numbered_sorted _ _ 1). apply ledger_numbers. Qed.

Lemma parts_of_entries m stored : m_parts m = map_seqZ 1 stored -> parts_of m = entries_from 1 stored.
Proof.
  intros Hm. unfold parts_of. rewrite Hm. destruct (numbered_sorted (λ e, partNumber (fst e)) (entries_from 1 stored) 1) as [Hs Hd].
  { rewrite <- (map_map fst partNumber), entries_ledger, ledger_numbers, <- entries_ledger, length_map. done. }
  apply sort_by_unique; [done| |done]. rewrite (Permutation_map _ (map_to_list_seqZ 1 stored)). clear. generalize 1 as k.
  induction stored as [|[etag body] stored IH]; intros k; [done|]. cbn [length]. rewrite Nat2Z.inj_succ, seqZ_cons, Z.pred_succ by lia.
  cbn. apply Permutation_skip, IH.
Qed.

Lemma assemble_entries held k stored : (∀ i x, stored !! i = Some x -> held !! (k + Z.of_nat i) = Some x) ->
  assemble held (map (λ '(part, etag), (partNumber part, etag)) (entries_from k stored)) = Some (concat (map snd stored)).
Proof.
  revert k. induction stored as [|[etag body] stored IH]; intros k Hh; [done|]. cbn. pose proof (Hh 0%nat _ eq_refl) as H0. rewrite Z.add_0_r in H0.
  rewrite H0, Nat.eqb_refl, IH; [done|]. intros i x Hi. rewrite <- (Hh (S i) x Hi). f_equal. lia.
Qed.

(** The engine can give the object of the segments. *)
Definition holding (id : DocId) (engine : EngineLedger) (bodies : list (list Z)) (s : Store) : Prop :=
  match engine with
  | object_ _ => content <$> objects s !! id = Some (concat bodies)
  | multipart s3 named => ∃ m, known id s3 (multiparts s) = Some m /\
      assemble (m_parts m) (map (λ '(part, etag), (partNumber part, etag)) named) = Some (concat bodies)
  end.

Lemma read_engine_runs id s3 pt now bodies s : engine_holds id s3 bodies s -> (s3 = None <-> length bodies = 1%nat) ->
  ∃ engine, alone a (readEngineLedger id (row_with s3 pt now (length bodies) bodies)) s = (s, Ok engine) /\
    engine_parts engine = ledger bodies /\ holding id engine bodies s.
Proof.
  intros He Hm. unfold readEngineLedger. cbn [declaredChunkCount row_with s3UploadId]. destruct s3 as [s3|].
  - assert (length bodies <> 1%nat) by (intros E; by apply Hm in E). replace (Z.of_nat (length bodies) =? 1) with false by lia.
    destruct He as (m & stored & Hk & Hp & Hs). rewrite run_alone_call. cbn [exec]. rewrite Hk. cbn [fmap option_fmap option_map alone ret].
    eexists. split; [reflexivity|]. cbn [engine_parts holding]. rewrite (parts_of_entries m stored Hp), entries_ledger, Hs. split; [done|].
    exists m. split; [done|]. rewrite <- Hs, Hp. apply assemble_entries. intros i x Hi. rewrite lookup_map_seqZ, option_guard_True by lia.
    by replace (Z.to_nat (1 + Z.of_nat i - 1)) with i by lia.
  - assert (length bodies = 1%nat) as E1 by by apply Hm. destruct bodies as [|body [|? ?]]; [done| |done]. change (Z.of_nat (length [body]) =? 1) with true.
    cbn match. specialize (He body eq_refl). rewrite run_alone_call. cbn [exec]. destruct (objects s !! id) as [o|] eqn:Eo; [|done]. injection He as He.
    cbn [fmap option_fmap option_map alone ret]. rewrite He. eexists. split; [reflexivity|]. cbn [engine_parts holding]. split; [done|].
    rewrite Eo. cbn. by rewrite He, app_nil_r.
Qed.

Lemma sealed_framed pt bodies : sealed_as pt bodies -> pt <= maxDocumentBytes ->
  well_framed (pt, Z.of_nat (length bodies), DOCUMENT_PLAINTEXT_CHUNK_BYTES).
Proof. intros [Hs _ _] Hc. apply (schema_framed _ None 0 Hs Hc). Qed.

Definition declared_framing (pt n : Z) : Framing :=
  {| f_chunkCount := n; f_ciphertextBytes := documentCiphertextBytesFor pt n; f_plaintextBytes := pt |}.

Lemma sealed_verifies pt bodies : sealed_as pt bodies -> pt <= maxDocumentBytes ->
  verifyLedger (ledger bodies) (ledger bodies) (Z.of_nat (length bodies)) DOCUMENT_PLAINTEXT_CHUNK_BYTES =
    Ok (declared_framing pt (Z.of_nat (length bodies))) /\
  receivedBytes (ledger bodies) = documentCiphertextBytesFor pt (Z.of_nat (length bodies)).
Proof.
  intros Hs Hc. destruct (sealed_framed pt bodies Hs Hc) as (Hp & _ & _ & _ & Hn). rewrite <- (ledger_sorted bodies) at 2.
  apply ledger_verifies; [exact Hn|lia|apply (numbered_sorted _ _ 1), ledger_numbers| |].
  - intros p (i & body & Hi & ->)%ledger_from_elem. cbn [partNumber bytes part_at]. rewrite (Z.add_comm 1). by apply (s_sizes _ _ Hs).
  - intros k Hk. unfold ledger. rewrite ledger_numbers. apply elem_of_seqZ. assert (length (ledger_from 1 bodies) = length bodies) as ->; [|lia].
    clear. generalize 1. induction bodies as [|b bodies IH]; intros k; [done|]. cbn. by rewrite IH.
Qed.

Lemma claim_runs id engine bodies C row s : holding id engine bodies s -> uploads s !! id = Some row -> u_receivedBytes row = C ->
  ∃ s', alone a (claim_transfer id engine C) s = (s', Ok tt) /\ uploads s' = delete id (uploads s) /\ documents s' = documents s /\
    locks s' = locks s /\ content <$> objects s' !! id = Some (concat bodies).
Proof.
  intros Hh Hu <-. destruct engine as [ps|s3 named]; cbn [holding claim_transfer] in *.
  - rewrite run_alone_call. cbn [exec]. rewrite Hu, Z.eqb_refl. eexists. by split.
  - destruct Hh as (m & Hk & Ha). rewrite run_alone_call. cbn [exec]. rewrite Hk, Ha. cbn [negb alone call exec ret].
    eexists. split; [reflexivity|]. cbn. by rewrite lookup_insert_eq.
Qed.

Lemma commit_runs id engine bodies pt n row s : agreeable -> holding id engine bodies s -> uploads s !! id = Some row -> documents s !! id = None ->
  u_receivedBytes row = documentCiphertextBytesFor pt n -> u_folderId row = None -> sum_by d_plaintextBytes (documents s) + pt <= storageQuotaBytes ->
  ∃ s', alone a (commit_under_lock id row engine (declared_framing pt n) (external_answer (a _ (External vaultKeyVersion)))) s =
      (s', Ok (document (new_document None row (declared_framing pt n)))) /\
    uploads s' = delete id (uploads s) /\ documents s' = <[id := new_document None row (declared_framing pt n)]> (documents s) /\
    locks s' = locks s /\ content <$> objects s' !! id = Some (concat bodies).
Proof.
  intros Ha Hh Hu Hd HC Hf Hq. unfold commit_under_lock. cbn [f_plaintextBytes f_ciphertextBytes declared_framing]. rewrite run_alone_call. cbn [exec].
  replace (storageQuotaBytes <? _) with false by lia. rewrite run_alone_await, not_rotating_runs by done. rewrite run_alone_call. cbn [exec].
  rewrite Z.ltb_irrefl, Z.eqb_refl. cbn [negb]. rewrite Hf. cbn [keep_folder]. rewrite run_alone_await. cbn [alone ret].
  rewrite run_alone_await. destruct (claim_runs id engine bodies _ row s Hh Hu HC) as (s1 & -> & Hu1 & Hd1 & Hl1 & Ho1).
  rewrite run_alone_await. unfold insert_document. rewrite run_alone_attempt. cbn [exec]. rewrite Hd1, Hd. cbn [alone ret].
  unfold confirm_document. rewrite run_alone_call. cbn [exec]. replace (_ =? 0) with false by (destruct Ha as [_ Hl]; symmetry; by apply Z.eqb_neq).
  rewrite run_alone_await. unfold createAuditLog. rewrite run_alone_attempt. cbn [exec alone ret].
  eexists. split; [reflexivity|]. cbn. by rewrite Hd1.
Qed.

Lemma under_lock_runs id s3 pt now bodies s : agreeable -> sealed_as pt bodies -> bodies <> [] -> 0 < uploadTtlMs ->
  pt <= maxDocumentBytes -> sum_by d_plaintextBytes (documents s) + pt <= storageQuotaBytes -> now = clock s ->
  uploads s !! id = Some (row_with s3 pt now (length bodies) bodies) -> documents s !! id = None -> locks s !! vaultRotationLockName = None ->
  engine_holds id s3 bodies s -> (s3 = None <-> length bodies = 1%nat) ->
  let d := new_document None (row_with s3 pt now (length bodies) bodies) (declared_framing pt (Z.of_nat (length bodies))) in
  ∃ s', alone a (completeUnderLock id (external_answer (a _ (External vaultKeyVersion)))) s = (s', Ok (document d)) /\
    uploads s' = delete id (uploads s) /\ documents s' = <[id := d]> (documents s) /\ locks s' = locks s /\ content <$> objects s' !! id = Some (concat bodies).
Proof.
  intros Ha Hb Hne Httl Hcap Hq -> Hu Hd Hl He Hm d. destruct (sealed_verifies pt bodies Hb Hcap) as [Hv HC].
  unfold completeUnderLock. rewrite run_alone_call. cbn [exec]. rewrite Hd, run_alone_call. cbn [exec]. rewrite Hu, run_alone_call. cbn [exec].
  cbn [expiresAt row_with]. replace (clock s + uploadTtlMs <=? clock s) with false by lia.
  destruct bodies as [|b0 bodies']; [done|]. set (bodies := b0 :: bodies') in *. replace (length (parts _) =? 0)%nat with false by done.
  fold (row_with s3 pt (clock s) (length bodies) bodies). rewrite run_alone_await.
  destruct (read_engine_runs id s3 pt (clock s) bodies s He Hm) as (engine & -> & Hparts & Hh).
  rewrite run_alone_await. cbn [parts row_with declaredChunkCount u_chunkPlaintextBytes]. rewrite Hparts, Hv. cbn [pure_ alone ret f_plaintextBytes declared_framing].
  replace (maxDocumentBytes <? pt) with false by lia. rewrite run_alone_await. unfold acquireVaultRotationLock, acquireJobLock. rewrite run_alone_call. cbn [exec].
  unfold lock_free. rewrite Hl. cbn [alone ret]. rewrite run_alone_finally. set (s1 := tick _).
  destruct (commit_runs id engine bodies pt (Z.of_nat (length bodies)) (row_with s3 pt (clock s) (length bodies) bodies) s1)
    as (s2 & -> & Hu2 & Hd2 & Hl2 & Ho2); [done..|].
  unfold releaseVaultRotationLock, releaseJobLock. cbn [alone call exec]. rewrite Hl2. cbn [locks s1 tick set_locks]. rewrite lookup_insert_eq.
  cbn [lockedBy]. rewrite Nat.eqb_refl. cbn [alone ret]. eexists. split; [reflexivity|]. cbn. rewrite Hl2, Hu2, Hd2. cbn. split_and!; [done|done| |done].
  by rewrite delete_insert_id.
Qed.

Lemma complete_runs s0 id s3 pt bodies s : sending s0 id s3 pt (length bodies) bodies s -> agreeable -> sealed_as pt bodies -> bodies <> [] -> 0 < uploadTtlMs ->
  pt <= maxDocumentBytes -> sum_by d_plaintextBytes (documents s0) + pt <= storageQuotaBytes -> uploads s0 !! id = None -> documents s0 !! id = None ->
  let d := new_document None (row_with s3 pt (clock s0) (length bodies) bodies) (declared_framing pt (Z.of_nat (length bodies))) in
  ∃ s', alone a (handle (CompleteUpload id (external_answer (a _ (External vaultKeyVersion))))) s = (s', Ok (Completed (document d))) /\
    uploads s' = uploads s0 /\ documents s' = <[id := d]> (documents s0) /\ locks s' = ∅ /\ content <$> objects s' !! id = Some (concat bodies).
Proof.
  intros [Hr Hd He Hl Ht Hm] Ha Hb Hne Httl Hcap Hq Hu0 Hd0 d.
  unfold handle, completeUpload. rewrite run_alone_await, run_alone_await, not_rotating_runs by done. unfold acquireJobLock. rewrite run_alone_call. cbn [exec].
  unfold lock_free at 1. rewrite Hl, lookup_empty. rewrite run_alone_finally. set (s1 := tick _).
  destruct (under_lock_runs id s3 pt (clock s0) bodies s1) as (s2 & -> & Hu2 & Hd2 & Hl2 & Ho2); [done..| | | | | |done|done|];
    [cbn; by rewrite Hd|cbn; by rewrite Ht|cbn; rewrite Hr; apply lookup_insert_eq|cbn; by rewrite Hd|cbn; by rewrite Hl, lookup_insert_ne|].
  unfold releaseJobLock. cbn [alone call exec]. rewrite Hl2. cbn [locks s1 tick set_locks]. rewrite lookup_insert_eq. cbn [lockedBy]. rewrite Nat.eqb_refl.
  cbn [alone ret]. eexists. split; [reflexivity|]. cbn. rewrite Hl2, Hu2, Hd2. cbn. rewrite Hl, Hr, Hd. split_and!; [|done| |done].
  - by apply delete_insert_id.
  - by rewrite delete_insert_eq, delete_empty.
Qed.
(** ** What was sent is read back *)

Lemma segment_of_body d bodies i body : describes (d_chunkCount d) (d_chunkPlaintextBytes d) (d_ciphertextBytes d) ->
  (∀ j b, bodies !! j = Some b -> Z.of_nat (length b) = segment_size (Z.of_nat j) (d_chunkCount d) (d_chunkPlaintextBytes d) (d_ciphertextBytes d)) ->
  Z.of_nat (length bodies) = d_chunkCount d -> bodies !! i = Some body -> segment d (concat bodies) i = body.
Proof.
  intros [Hn HP _ _] Hsize Hl Hi. unfold segment. rewrite <- (Hsize i body Hi), Nat2Z.id.
  apply slice_concat; [done|]. intros j b Hj Hlt. apply lookup_lt_Some in Hi. specialize (Hsize j b Hj). unfold segment_size in Hsize.
  replace (Z.of_nat j =? d_chunkCount d - 1) with false in Hsize by lia. lia.
Qed.

(** The document a transfer commits. *)
Definition sent_document (pt n : Z) : Document :=
  {| d_folderId := None; d_chunkCount := n; d_chunkPlaintextBytes := DOCUMENT_PLAINTEXT_CHUNK_BYTES;
     d_ciphertextBytes := documentCiphertextBytesFor pt n; d_plaintextBytes := pt; deletedAt := None; purgePending := false |}.

Lemma bodies_length pt bodies : sealed_as pt bodies -> pt <= maxDocumentBytes ->
  Z.of_nat (length (concat bodies)) = documentCiphertextBytesFor pt (Z.of_nat (length bodies)).
Proof.
  intros Hs Hc. destruct (sealed_verifies pt bodies Hs Hc) as [_ <-]. unfold receivedBytes, ledger. clear. generalize 1.
  induction bodies as [|b bodies IH]; intros k; [done|]. cbn [concat ledger_from]. rewrite sumBytes_cons, length_app. cbn [bytes part_at]. rewrite <- (IH (k + 1)). lia.
Qed.

Lemma sent_segments a' pt bodies id s i body : sealed_as pt bodies -> pt <= maxDocumentBytes ->
  documents s !! id = Some (sent_document pt (Z.of_nat (length bodies))) -> content <$> objects s !! id = Some (concat bodies) ->
  bodies !! i = Some body -> alone a' (handle (GetSegment id (Z.of_nat i))) s = (s, Ok (Segment body)).
Proof.
  intros Hs Hc Hd Ho Hi. pose proof (sealed_framed pt bodies Hs Hc) as Hw. pose proof (well_framed_describes _ Hw) as Hds. cbn [fst snd] in Hds.
  destruct (objects s !! id) as [o|] eqn:Eo; [|done]. injection Ho as Ho. unfold handle, await. rewrite run_alone_bind.
  rewrite (getSegment_alone a' id _ o i s Hd Eo); cbn [sent_document d_chunkCount d_chunkPlaintextBytes d_ciphertextBytes].
  - rewrite Ho, (segment_of_body _ bodies i body); [done|done| |done|done]. intros j b Hj. pose proof (s_sizes _ _ Hs j b Hj) as Hr.
    unfold requiredBytes in Hr. apply expectedPartSize_inv in Hr as (_ & _ & ->). cbn. f_equal. lia.
  - by destruct Hw as (_ & _ & Hw & _).
  - exact Hds.
  - rewrite Ho. by apply bodies_length.
  - apply lookup_lt_Some in Hi. lia.
Qed.

Lemma sum_by_nonneg {A} (f : A -> Z) (m : gmap DocId A) : (∀ i x, m !! i = Some x -> 0 <= f x) -> 0 <= sum_by f m.
Proof.
  induction m as [|i x m Hi _ IH] using map_first_key_ind; intros Hf; [done|]. rewrite sum_by_insert_new by done.
  pose proof (Hf i x (lookup_insert_eq _ _ _)). assert (0 <= sum_by f m); [|lia]. apply IH. intros j y Hj. apply (Hf j). rewrite lookup_insert_ne; [done|congruence].
Qed.

Lemma in_flight_nonneg s t : good s -> 0 <= sum_by declaredPlaintextBytes (live t (uploads s)).
Proof.
  intros Hg. apply sum_by_nonneg. intros i u [Hu _]%map_lookup_filter_Some. destruct (g_rows s Hg i u Hu) as (Ho & _).
  destruct (g_opened s Hg _ _ Ho) as (_ & _ & [Hp _] & _). done.
Qed.

(** An identifier nobody minted has no row. *)
Lemma unopened_rows s id : good s -> opened s !! id = None -> uploads s !! id = None /\ documents s !! id = None.
Proof.
  intros Hg Hf. split.
  - destruct (uploads s !! id) as [u|] eqn:Eu; [|done]. destruct (g_rows s Hg id u Eu) as (Ho & _). by rewrite Hf in Ho.
  - destruct (documents s !! id) as [d|] eqn:Ed; [|done]. destruct (g_documents s Hg id d Ed) as (_ & f & Ho & _). by rewrite Hf in Ho.
Qed.

(** C12: A document that nothing disturbs is what was sent.  From any reachable state in which no request
    is under way and the account has room, opening a transfer of sealed segments, sending them in order
    and completing it succeeds: it adds one document, of the size and the number of segments declared,
    leaves no transfer and no lock behind, and each segment asked for afterwards is the one sent. *)
Theorem undisturbed_transfer_reads_back s pt bodies : reachable false s -> agreeable -> 0 < DOCUMENT_UPLOAD_TTL_HOURS ->
  sealed_as pt bodies -> room pt (store s) ->
  ∃ s' id, transfer pt bodies (store s) = Some (s', id) /\
    documents (store s) !! id = None /\ documents s' = <[id := sent_document pt (Z.of_nat (length bodies))]> (documents (store s)) /\
    uploads s' = uploads (store s) /\ locks s' = ∅ /\
    ∀ a' i body, bodies !! i = Some body -> alone a' (handle (GetSegment id (Z.of_nat i))) s' = (s', Ok (Segment body)).
Proof.
  intros Hs Ha Httl Hb Hr. apply reachable_ok, s_good in Hs. pose proof (r_cap _ _ Hr) as Hcap. pose proof (sealed_framed pt bodies Hb Hcap) as Hw.
  pose proof (well_framed_count _ Hw) as Hn. cbn [fst snd] in Hn. assert (0 < uploadTtlMs) as Httl' by (unfold uploadTtlMs; lia).
  destruct (open_runs pt (length bodies) (store s)) as (s1 & id & s3 & E1 & Hs1 & Hfresh); [lia|done|done|done|apply (s_schema _ _ Hb)|].
  destruct (unopened_rows (store s) id Hs Hfresh) as [Hu0 Hd0].
  destruct (send_parts_runs (store s) id s3 pt (length bodies) bodies [] s1) as (s2 & E2 & Hs2); [done|done|done|by destruct Hw as (_ & _ & Hw & _)| |apply Hb|].
  { apply (s_sizes _ _ Hb). }
  destruct (complete_runs (store s) id s3 pt bodies s2) as (s4 & E3 & Hu & Hd & Hl & Ho); [done|done|done|by destruct bodies|done|done| |done|done|].
  { pose proof (r_quota _ _ Hr). pose proof (in_flight_nonneg (store s) (clock (store s)) Hs). lia. }
  exists s4, id. split_and!; [|done|done|done|done|].
  - unfold transfer. rewrite E1. change (Z.of_nat (length []) + 1) with 1 in E2. rewrite E2. cbn [mbind option_bind]. by rewrite E3.
  - intros a' i body. apply (sent_segments a' pt bodies); [done|done| |done]. rewrite Hd. apply lookup_insert_eq.
Qed.
End roundtrip.

(** Two segments: a full one, and a last one of three bytes and its tag. *)
Definition full_segment : list Z := repeat 5 (Z.to_nat 8388608).

Lemma full_segment_length : Z.of_nat (length full_segment) = 8388608.
Proof. unfold full_segment. rewrite repeat_length. by apply Z2Nat.id. Qed.

Definition sample_segments : list (list Z) := [full_segment; repeat 6 19].

Definition sample_answers (X : Type) (c : cmd X) : Answer := sample_answer c.

Lemma two_sealed first last : Z.of_nat (length first) = 8388608 -> Z.of_nat (length last) = 19 -> sealed_as 8388595 [first; last].
Proof.
  intros H1 H2. constructor; [vm_compute; reflexivity| |].
  - intros [|[|i]] body [= <-]; [rewrite H1|rewrite H2]; vm_compute; reflexivity.
  - intros body _. change (sha256_hex body) with (repeat 97 64). vm_compute. reflexivity.
Qed.

Lemma sample_sealed : sealed_as 8388595 sample_segments.
Proof. apply two_sealed; [exact full_segment_length|reflexivity]. Qed.

Lemma sample_room : room 8388595 (empty_store 0).
Proof. constructor; [done|vm_compute; reflexivity..|vm_compute; discriminate|vm_compute; discriminate]. Qed.

Lemma undisturbed_transfer_reads_back_witness :
  let s := empty_store 0 in
  ∃ s' id, transfer sample_answers 8388595 sample_segments s = Some (s', id) /\
    documents s' = {[id := sent_document 8388595 2]} /\ uploads s' = ∅ /\ locks s' = ∅ /\
    ∀ a' i body, sample_segments !! i = Some body -> alone a' (handle (GetSegment id (Z.of_nat i))) s' = (s', Ok (Segment body)).
Proof.
  intros s. assert (reachable false {| store := s; threads := [] |}) as Hs by (exists 0; apply rtc_refl).
  destruct (undisturbed_transfer_reads_back sample_answers _ 8388595 sample_segments Hs) as (s' & id & H1 & _ & H2 & H3 & H4 & H5);
    [constructor; [reflexivity|discriminate]|reflexivity|exact sample_sealed|exact sample_room|].
  exists s', id. split; [exact H1|]. split; [exact H2|]. split; [exact H3|]. split; [exact H4|exact H5].
Defined.
