(* ===== verification/DocumentCipher.v ===== *)
(** The envelope and the segments of an encrypted document, in the browser:
    client/src/services/crypto/documentCryptoService.ts, the schema of the sealed metadata
    (shared/src/schemas/document.ts), the one verified read path
    (client/src/services/documents/download.ts) and the rename of documentsStore.ts.

    WebCrypto is a parameter ([Subtle]).  HKDF gives distinct keys on distinct inputs and AES-GCM
    opens what it sealed ([SubtleLaws]); that nothing else opens is not a law of a function, and is
    asked of each read where it is used.  A vault key is its raw bytes.  The bytes of the random
    generator are arguments.  Keys are dropped, not zeroed: the erasure of a transfer's keys is in
    UploadSession.v. *)
From S2P Require Import Prelude MigrationUri FullBackup DocumentObjects.
Local Open Scope Z_scope.
Local Open Scope result_scope.

(** ** The platform *)

Class Subtle := {
  CryptoKey : Type;
  hkdf : list Z -> list Z -> list Z -> CryptoKey;        (* key material, salt, info; imported for AES-GCM *)
  gcm_encrypt : CryptoKey -> list Z -> list Z -> list Z;  (* key, iv, plaintext *)
  gcm_decrypt : CryptoKey -> list Z -> list Z -> option (list Z);
  sha256 : list Z -> list Z;
}.

Definition is_octet (b : Z) : Prop := 0 <= b < 256.

Class SubtleLaws `{Subtle} := {
  gcm_opens k iv p : gcm_decrypt k iv (gcm_encrypt k iv p) = Some p;
  gcm_length k iv p : Z.of_nat (length (gcm_encrypt k iv p)) = Z.of_nat (length p) + DOCUMENT_TAG_BYTES;
  gcm_octets k iv p : Forall is_octet p -> Forall is_octet (gcm_encrypt k iv p);
  hkdf_distinct ikm salt info ikm' salt' info' :
    hkdf ikm salt info = hkdf ikm' salt' info' -> ikm = ikm' /\ salt = salt' /\ info = info';
  sha256_octets bytes : length (sha256 bytes) = 32%nat /\ Forall is_octet (sha256 bytes);
}.

(** Case mapping of arbitrary text is Unicode's table; so are the two facts used of UTF-8. *)
Class CaseMapping := { unicodeLower : jsstr -> jsstr }.

Definition plain_ascii (s : jsstr) : Prop := Forall (λ c, 1 <= c < 128) s.

Class Utf8Laws `{TextCodec} := {
  utf8_ascii s : plain_ascii s -> encodeUtf8 s = s;
  utf8_octets s : Forall is_octet (encodeUtf8 s);
}.

(** ** Constants *)

Definition DEK_BYTES : nat := 32.
Definition IV_BYTES : nat := 12.
Definition MAX_SEGMENT_INDEX : Z := 0xffffffff.
Definition LAST_SEGMENT_FLAG : Z := 1.
Definition NOT_LAST_SEGMENT_FLAG : Z := 0.
Definition DOCUMENT_STREAM_INFO_PREFIX : jsstr := js "hvault/doc/stream/v1|".
Definition DOCUMENT_META_INFO_PREFIX : jsstr := js "hvault/doc/meta/v1|".
Definition DOCUMENT_DEK_WRAP_INFO_PREFIX : jsstr := js "hvault/doc/dek-wrap/v1|".

Definition MAX_DOCUMENT_NAME_LENGTH : Z := 255.
Definition MAX_DOCUMENT_MIME_LENGTH : Z := 255.
Definition MAX_DOCUMENT_EXT_LENGTH : Z := 32.
Definition MAX_DOCUMENT_NOTE_LENGTH : Z := 10000.
Definition MAX_DOCUMENT_TAGS : Z := 20.
Definition MAX_TAG_LENGTH : Z := 50.
Definition MAX_DOCUMENT_TRANSFORM_LABEL_LENGTH : Z := 64.
Definition MAX_DOCUMENT_TIMESTAMP_LENGTH : Z := 40.
Definition MAX_DOCUMENT_META_JSON_BYTES : Z := 38400.

(** ** The metadata *)

Record Transform := {
  formatted : bool;
  repaired : bool;
  tool : jsstr;
  toolVersion : jsstr;
  originalSha256 : jsstr;
}.

Record DocumentMeta := {
  meta_name : jsstr;
  originalName : option jsstr;
  restoredFrom : option jsstr;
  mime : jsstr;
  ext : jsstr;
  meta_plaintextBytes : Z;
  meta_sha256 : jsstr;
  meta_chunkPlaintextBytes : Z;
  meta_chunkCount : Z;
  tags : list jsstr;
  note : option jsstr;
  transform : option Transform;
  capturedAt : jsstr;
}.

Definition present {A} (key : jsstr) (f : A -> Json) (value : option A) : list (jsstr * Json) :=
  match value with Some x => [(key, f x)] | None => [] end.

Definition transformJson (t : Transform) : Json :=
  JObj [(js "formatted", JBool (formatted t)); (js "repaired", JBool (repaired t)); (js "tool", JStr (tool t));
        (js "toolVersion", JStr (toolVersion t)); (js "originalSha256", JStr (originalSha256 t))].

(** The object as [JSON.stringify] writes it, absent members left out. *)
Definition metaMembers (m : DocumentMeta) : list (jsstr * Json) :=
  [(js "name", JStr (meta_name m))] ++ present (js "originalName") JStr (originalName m)
  ++ present (js "restoredFrom") JStr (restoredFrom m)
  ++ [(js "mime", JStr (mime m)); (js "ext", JStr (ext m)); (js "plaintextBytes", JNum (meta_plaintextBytes m));
      (js "sha256", JStr (meta_sha256 m)); (js "chunkPlaintextBytes", JNum (meta_chunkPlaintextBytes m));
      (js "chunkCount", JNum (meta_chunkCount m)); (js "tags", JArr (map JStr (tags m)))]
  ++ present (js "note") JStr (note m) ++ present (js "transform") transformJson (transform m)
  ++ [(js "capturedAt", JStr (capturedAt m))].

Definition metaJson (m : DocumentMeta) : Json := JObj (metaMembers m).

Definition bounded (lo hi : Z) (s : jsstr) : bool := (lo <=? Z.of_nat (length s)) && (Z.of_nat (length s) <=? hi).

(** [z.string().trim()] with bounds. *)
Definition z_trimmed (lo hi : Z) : Schema jsstr :=
  λ j, match j with Some (JStr s) => if bounded lo hi (trim s) then Ok (trim s) else Throw [] | _ => Throw [] end.

Definition z_array_max {A} (hi : Z) (s : Schema A) : Schema (list A) :=
  λ j, let? xs := z_array s j in if Z.of_nat (length xs) <=? hi then Ok xs else Throw [].

Section metadata.
Context `{TextCodec} `{Zod} `{CaseMapping}.

Definition documentMetaJsonByteLength (meta : DocumentMeta) : Z := Z.of_nat (length (encodeUtf8 (stringify (metaJson meta)))).

Definition documentTransformSchema : Schema Transform :=
  z_object (λ m,
    let? f_formatted := member m (js "formatted") z_boolean in
    let? f_repaired := member m (js "repaired") z_boolean in
    let? f_tool := member m (js "tool") (z_string (bounded 1 MAX_DOCUMENT_TRANSFORM_LABEL_LENGTH)) in
    let? f_toolVersion := member m (js "toolVersion") (z_string (bounded 1 MAX_DOCUMENT_TRANSFORM_LABEL_LENGTH)) in
    let? f_originalSha256 := member m (js "originalSha256") (z_string (lower_hex 64)) in
    Ok {| formatted := f_formatted; repaired := f_repaired; tool := f_tool; toolVersion := f_toolVersion; originalSha256 := f_originalSha256 |}).

Definition documentMetaFields (m : list (jsstr * Json)) : result Path DocumentMeta :=
  let? f_name := member m (js "name") (z_string (bounded 1 MAX_DOCUMENT_NAME_LENGTH)) in
  let? f_originalName := member m (js "originalName") (z_optional (z_string (bounded 1 MAX_DOCUMENT_NAME_LENGTH))) in
  let? f_restoredFrom := member m (js "restoredFrom") (z_optional (z_string documentId)) in
  let? f_mime := member m (js "mime") (z_string (bounded 0 MAX_DOCUMENT_MIME_LENGTH)) in
  let? f_ext := member m (js "ext") (z_string (bounded 0 MAX_DOCUMENT_EXT_LENGTH)) in
  let? f_plaintextBytes := member m (js "plaintextBytes") (z_int (λ n, 0 <=? n)) in
  let? f_sha256 := member m (js "sha256") (z_string (lower_hex 64)) in
  let? f_chunkPlaintextBytes := member m (js "chunkPlaintextBytes") (z_int (λ n, 0 <? n)) in
  let? f_chunkCount := member m (js "chunkCount") (z_int (λ n, (1 <=? n) && (n <=? MAX_DOCUMENT_CHUNK_COUNT))) in
  let? f_tags := member m (js "tags") (z_array_max MAX_DOCUMENT_TAGS (z_trimmed 1 MAX_TAG_LENGTH)) in
  let? f_note := member m (js "note") (z_optional (z_string (bounded 0 MAX_DOCUMENT_NOTE_LENGTH))) in
  let? f_transform := member m (js "transform") (z_optional documentTransformSchema) in
  let? f_capturedAt := member m (js "capturedAt") (z_string (λ s, isDatetime s && bounded 0 MAX_DOCUMENT_TIMESTAMP_LENGTH s)) in
  Ok {| meta_name := f_name; originalName := f_originalName; restoredFrom := f_restoredFrom; mime := f_mime; ext := f_ext;
        meta_plaintextBytes := f_plaintextBytes; meta_sha256 := f_sha256; meta_chunkPlaintextBytes := f_chunkPlaintextBytes;
        meta_chunkCount := f_chunkCount; tags := f_tags; note := f_note; transform := f_transform; capturedAt := f_capturedAt |}.

Definition documentMetaSchema : Schema DocumentMeta :=
  z_object (λ members,
    let? m := documentMetaFields members in
    if negb (hasConsistentFraming (meta_plaintextBytes m) (meta_chunkPlaintextBytes m) (meta_chunkCount m)) then Throw [js "chunkCount"]
    else if MAX_DOCUMENT_META_JSON_BYTES <? documentMetaJsonByteLength m then Throw []
    else Ok m).

(** [documentExtension]: what follows the last dot, unless that is the first character. *)
Definition documentExtension (name : jsstr) : jsstr :=
  match indexOf 46 (rev name) 0 with
  | None => []
  | Some back => let lastDot := (length name - 1 - back)%nat in
                 if (lastDot =? 0)%nat then [] else unicodeLower (drop (S lastDot) name)
  end.

End metadata.

(** ** The envelope *)

Inductive CipherError :=
  | BadDocumentId | BadDekLength | BadNoncePrefix | BadSegmentIndex | ShortSegment
  | OperationError | InvalidCharacterError | EncodingError | SyntaxError | ZodError (path : Path).

(** A value sealed, in the base64 the row stores. *)
Record SealedFields := { encrypted : jsstr; iv_ : jsstr; tag : jsstr }.

Record SegmentFraming := { fr_noncePrefix : list Z; fr_index : Z; isLast : bool }.

Definition arrayBufferToBase64 (bytes : list Z) : jsstr := btoa bytes.
Definition base64ToArrayBuffer (s : jsstr) : result CipherError (list Z) :=
  match atob s with Some bytes => Ok bytes | None => Throw InvalidCharacterError end.

Definition normalizeDocumentId (documentId : jsstr) : result CipherError jsstr :=
  if OBJECT_ID_PATTERN documentId then Ok (toLowerCase documentId) else Throw BadDocumentId.

Definition assertDekLength (dek : list Z) : result CipherError unit :=
  if (length dek =? DEK_BYTES)%nat then Ok tt else Throw BadDekLength.

Definition segmentIv (framing : SegmentFraming) : result CipherError (list Z) :=
  if negb (Z.of_nat (length (fr_noncePrefix framing)) =? DOCUMENT_NONCE_PREFIX_BYTES) then Throw BadNoncePrefix
  else if (fr_index framing <? 0) || (MAX_SEGMENT_INDEX <? fr_index framing) then Throw BadSegmentIndex
  else Ok (fr_noncePrefix framing ++ toBytes 4 (fr_index framing)
           ++ [if isLast framing then LAST_SEGMENT_FLAG else NOT_LAST_SEGMENT_FLAG]).

Section envelope.
Context `{Subtle} `{TextCodec} `{Zod}.

Definition deriveDocumentKey (ikm salt : list Z) (infoPrefix documentId : jsstr) : CryptoKey :=
  hkdf ikm salt (encodeUtf8 (infoPrefix ++ documentId)).

Definition deriveWrapKey (vaultKey : list Z) (documentId : jsstr) : result CipherError CryptoKey :=
  let? id := normalizeDocumentId documentId in
  Ok (deriveDocumentKey vaultKey [] DOCUMENT_DEK_WRAP_INFO_PREFIX id).

Definition deriveStreamKey (dek streamSalt : list Z) (documentId : jsstr) : result CipherError CryptoKey :=
  let? _ := assertDekLength dek in
  let? id := normalizeDocumentId documentId in
  Ok (deriveDocumentKey dek streamSalt DOCUMENT_STREAM_INFO_PREFIX id).

Definition deriveMetaKey (dek streamSalt : list Z) (documentId : jsstr) : result CipherError CryptoKey :=
  let? _ := assertDekLength dek in
  let? id := normalizeDocumentId documentId in
  Ok (deriveDocumentKey dek streamSalt DOCUMENT_META_INFO_PREFIX id).

(** [random] is the IV drawn. *)
Definition sealToFields (random : list Z) (key : CryptoKey) (plaintext : list Z) : SealedFields :=
  let sealed := gcm_encrypt key random plaintext in
  let cut := (length sealed - Z.to_nat DOCUMENT_TAG_BYTES)%nat in
  {| encrypted := arrayBufferToBase64 (take cut sealed); iv_ := arrayBufferToBase64 random; tag := arrayBufferToBase64 (drop cut sealed) |}.

Definition openFromFields (key : CryptoKey) (fields : SealedFields) : result CipherError (list Z) :=
  let? ciphertext := base64ToArrayBuffer (encrypted fields) in
  let? iv := base64ToArrayBuffer (iv_ fields) in
  let? tag := base64ToArrayBuffer (tag fields) in
  match gcm_decrypt key iv (ciphertext ++ tag) with Some bytes => Ok bytes | None => Throw OperationError end.

Definition wrapDek (random : list Z) (dek : list Z) (wrapKey : CryptoKey) : result CipherError SealedFields :=
  let? _ := assertDekLength dek in
  Ok (sealToFields random wrapKey dek).

Definition unwrapDek (wrapped : SealedFields) (wrapKey : CryptoKey) : result CipherError (list Z) :=
  let? dek := openFromFields wrapKey wrapped in
  let? _ := assertDekLength dek in
  Ok dek.

Definition encryptSegment (streamKey : CryptoKey) (framing : SegmentFraming) (plaintext : list Z) : result CipherError (list Z) :=
  let? iv := segmentIv framing in
  Ok (gcm_encrypt streamKey iv plaintext).

Definition decryptSegment (streamKey : CryptoKey) (framing : SegmentFraming) (ciphertext : list Z) : result CipherError (list Z) :=
  if Z.of_nat (length ciphertext) <? DOCUMENT_TAG_BYTES then Throw ShortSegment else
  let? iv := segmentIv framing in
  match gcm_decrypt streamKey iv ciphertext with Some bytes => Ok bytes | None => Throw OperationError end.

Definition metaBytes (meta : DocumentMeta) : list Z := encodeUtf8 (stringify (metaJson meta)).

Definition encryptMeta (random : list Z) (metaKey : CryptoKey) (meta : DocumentMeta) : result CipherError SealedFields :=
  match documentMetaSchema (Some (metaJson meta)) with
  | Ok validated => Ok (sealToFields random metaKey (metaBytes validated))
  | Throw path => Throw (ZodError path)
  end.

Definition decryptMeta (metaKey : CryptoKey) (sealed : SealedFields) : result CipherError DocumentMeta :=
  let? bytes := openFromFields metaKey sealed in
  match decodeUtf8 bytes with
  | None => Throw EncodingError
  | Some json =>
      match parse json with
      | None => Throw SyntaxError
      | Some value => match documentMetaSchema (Some value) with Ok meta => Ok meta | Throw path => Throw (ZodError path) end
      end
  end.

End envelope.

(** ** Reading a document *)

Inductive DownloadError :=
  | Refused (e : CipherError)
  | VaultLocked | NoRowGiven | RequestFailed
  | RowRefused (path : Path)
  | IdentityFailure | FramingFailure (fields : list jsstr) | DigestFailure
  | DownloadCancelled.

(** What comes of asking for a segment: the signal was raised before or while it was asked for, the
    request failed, or bytes came. *)
Inductive Fetched := Stopped | Unanswered | Sealed (bytes : list Z).

(** What a read has done to its sink, and its end. *)
Record Reading := { written : list (list Z); discarded : bool; outcome : result DownloadError DocumentMeta }.

Definition lift {A} (r : result CipherError A) : result DownloadError A :=
  match r with Ok x => Ok x | Throw e => Throw (Refused e) end.

Definition hex_digit (v : Z) : Z := if v <? 10 then v + 48 else v + 87.
Definition toHex (bytes : list Z) : jsstr := concat (map (λ b, [hex_digit (b / 16); hex_digit (b mod 16)]) bytes).

Definition AUTHENTICATED_FRAMING_FIELDS : list (jsstr * (DocumentResponse -> Z) * (DocumentMeta -> Z)) :=
  [(js "chunkPlaintextBytes", chunkPlaintextBytes, meta_chunkPlaintextBytes); (js "chunkCount", chunkCount, meta_chunkCount);
   (js "plaintextBytes", plaintextBytes, meta_plaintextBytes)].

Definition framing_disagreements (row : DocumentResponse) (meta : DocumentMeta) : list jsstr :=
  map (λ f, fst (fst f)) (List.filter (λ '(_, of_row, of_meta), negb (of_row row =? of_meta meta)) AUTHENTICATED_FRAMING_FIELDS).

Definition wrappedKeyOf (row : DocumentResponse) : SealedFields := {| encrypted := encryptedDek row; iv_ := dekIv row; tag := dekTag row |}.
Definition sealedMetaOf (row : DocumentResponse) : SealedFields := {| encrypted := encryptedMeta row; iv_ := metaIv row; tag := metaTag row |}.

(** Where the row and the segments come from.  [held] is the unlocked vault key; [given] a row the
    caller holds; [other] another source and its vault key; [fetchedRow] what the server answers, if it
    answers; [stopped] whether the signal is raised once the row is there. *)
Record ReadOptions := {
  held : option (list Z);
  given : option DocumentResponse;
  other : option (list Z);
  fetchedRow : option Json;
  stopped : bool;
}.

Section reading.
Context `{Subtle} `{TextCodec} `{Zod} `{CaseMapping}.

(** The loop from segment [index], [remaining] segments to go. *)
Fixpoint read_segments (segments : nat -> Fetched) (streamKey : CryptoKey) (noncePrefix : list Z) (chunkCount : Z) (index remaining : nat)
    : list (list Z) * result DownloadError unit :=
  match remaining with
  | O => ([], Ok tt)
  | S remaining =>
      match segments index with
      | Stopped => ([], Throw DownloadCancelled)
      | Unanswered => ([], Throw RequestFailed)
      | Sealed sealed =>
          let framing := {| fr_noncePrefix := noncePrefix; fr_index := Z.of_nat index; isLast := Z.of_nat index =? chunkCount - 1 |} in
          match decryptSegment streamKey framing sealed with
          | Throw e => ([], Throw (Refused e))
          | Ok segment =>
              let (written, r) := read_segments segments streamKey noncePrefix chunkCount (S index) remaining in (segment :: written, r)
          end
      end
  end.

(** The vault key and the row that are used. *)
Definition key_of (options : ReadOptions) : result DownloadError (list Z) :=
  match other options, given options with
  | Some _, None => Throw NoRowGiven
  | Some vaultKey, Some _ => Ok vaultKey
  | None, _ => match held options with Some vaultKey => Ok vaultKey | None => Throw VaultLocked end
  end.

Definition row_of (options : ReadOptions) : result DownloadError DocumentResponse :=
  match given options with
  | Some row => Ok row
  | None =>
      match fetchedRow options with
      | None => Throw RequestFailed
      | Some body => match documentResponseSchema (Some body) with Ok row => Ok row | Throw path => Throw (RowRefused path) end
      end
  end.

(** What precedes the segments: the key and the nonce prefix they open with, and the metadata. *)
Definition open_document (id : jsstr) (options : ReadOptions) : result DownloadError (DocumentMeta * CryptoKey * list Z) :=
  let documentId := unicodeLower id in
  let? vaultKey := key_of options in
  let? row := row_of options in
  if negb (bool_decide (r_id row = documentId)) then Throw IdentityFailure else
  if stopped options then Throw DownloadCancelled else
  let? wrapKey := lift (deriveWrapKey vaultKey documentId) in
  let? dek := lift (unwrapDek (wrappedKeyOf row) wrapKey) in
  let? streamSalt := lift (base64ToArrayBuffer (streamSalt row)) in
  let? metaKey := lift (deriveMetaKey dek streamSalt documentId) in
  let? meta := lift (decryptMeta metaKey (sealedMetaOf row)) in
  match framing_disagreements row meta with
  | _ :: _ => Throw (FramingFailure (framing_disagreements row meta))
  | [] =>
      let? streamKey := lift (deriveStreamKey dek streamSalt documentId) in
      let? noncePrefix := lift (base64ToArrayBuffer (noncePrefix row)) in
      Ok (meta, streamKey, noncePrefix)
  end.

Definition streamDocumentPlaintext (id : jsstr) (options : ReadOptions) (segments : nat -> Fetched) : Reading :=
  match open_document id options with
  | Throw e => {| written := []; discarded := false; outcome := Throw e |}
  | Ok (meta, streamKey, noncePrefix) =>
      let '(written, r) := read_segments segments streamKey noncePrefix (meta_chunkCount meta) 0 (Z.to_nat (meta_chunkCount meta)) in
      match r with
      | Throw e => {| written := written; discarded := false; outcome := Throw e |}
      | Ok _ =>
          if bool_decide (toHex (sha256 (concat written)) = meta_sha256 meta)
          then {| written := written; discarded := false; outcome := Ok meta |}
          else {| written := written; discarded := true; outcome := Throw DigestFailure |}
      end
  end.

Definition readDocumentPlaintext (id : jsstr) (options : ReadOptions) (segments : nat -> Fetched) : result DownloadError (DocumentMeta * list Z) :=
  let r := streamDocumentPlaintext id options segments in
  let? meta := outcome r in
  Ok (meta, concat (written r)).

(** The chosen file after a save: the swap file replaces it when it is closed. *)
Definition saveThroughPicker (id : jsstr) (options : ReadOptions) (segments : nat -> Fetched) (file : list Z)
    : list Z * result DownloadError DocumentMeta :=
  let r := streamDocumentPlaintext id options segments in
  match outcome r with
  | Ok meta => (concat (written r), Ok meta)
  | Throw e => (if discarded r then [] else file, Throw e)
  end.

(** ** Changing the metadata *)

(** [note] is absent, removed ([Some None]) or rewritten. *)
Record DocumentMetaUpdate := { new_name : option jsstr; new_tags : option (list jsstr); new_note : option (option jsstr) }.

Inductive RenameError := NotReadable | TypeLocked | RenameRefused (e : CipherError).

Definition updated_meta (current : DocumentMeta) (changes : DocumentMetaUpdate) : DocumentMeta :=
  {| meta_name := default (meta_name current) (new_name changes); originalName := originalName current; restoredFrom := restoredFrom current;
     mime := mime current; ext := ext current; meta_plaintextBytes := meta_plaintextBytes current; meta_sha256 := meta_sha256 current;
     meta_chunkPlaintextBytes := meta_chunkPlaintextBytes current; meta_chunkCount := meta_chunkCount current;
     tags := default (tags current) (new_tags changes);
     note := match new_note changes with Some note => note | None => note current end;
     transform := transform current; capturedAt := capturedAt current |}.

(** The blob sent for a row whose metadata is open, up to the request. *)
Definition updateDocumentMeta (random vaultKey : list Z) (row : DocumentResponse) (current : option DocumentMeta) (changes : DocumentMetaUpdate)
    : result RenameError SealedFields :=
  match current with
  | None => Throw NotReadable
  | Some current =>
      if match new_name changes with
         | Some name => negb (bool_decide (documentExtension name = documentExtension (meta_name current)))
         | None => false
         end
      then Throw TypeLocked
      else
      let sealed :=
        let? wrapKey := deriveWrapKey vaultKey (r_id row) in
        let? dek := unwrapDek (wrappedKeyOf row) wrapKey in
        let? streamSalt := base64ToArrayBuffer (streamSalt row) in
        let? metaKey := deriveMetaKey dek streamSalt (r_id row) in
        encryptMeta random metaKey (updated_meta current changes) in
      match sealed with Ok fields => Ok fields | Throw e => Throw (RenameRefused e) end
  end.

End reading.
