(* ===== verification/DocumentCipherSpec.v ===== *)
(** What the document cipher promises: what is sealed opens to what was sealed, metadata survives its
    own schema, and one nonce belongs to one place in one document. *)
From S2P Require Import Prelude MigrationUri MigrationUriSpec FullBackup FullBackupSpec FullBackupRoundTrip DocumentObjects DocumentObjectsSpec DocumentCipher.
Local Open Scope Z_scope.
Local Open Scope result_scope.

(** ** Base64 *)

Lemma base64_roundtrip bs : Forall is_octet bs -> base64ToArrayBuffer (arrayBufferToBase64 bs) = Ok bs.
Proof. intros Hb. unfold base64ToArrayBuffer, arrayBufferToBase64, btoa. by rewrite atob_base64. Qed.

(** ** Nonces *)

Lemma app_inj_tail3 {A} (a b c d : list A) x y : length a = length c -> length b = length d -> a ++ b ++ [x] = c ++ d ++ [y] -> a = c /\ b = d /\ x = y.
Proof. intros Ha Hb E. apply app_inj_1 in E as [-> E]; [|done]. apply app_inj_1 in E as [-> E]; [|done]. by injection E. Qed.

(** The place a segment is sealed for is read off its nonce. *)
Lemma segmentIv_injective f f' iv : segmentIv f = Ok iv -> segmentIv f' = Ok iv -> f = f'.
Proof.
  unfold segmentIv. destruct (Z.of_nat (length (fr_noncePrefix f)) =? _) eqn:E1; [|done]. destruct (Z.of_nat (length (fr_noncePrefix f')) =? _) eqn:E2; [|done].
  cbn [negb]. destruct ((fr_index f <? 0) || _) eqn:E3; [done|]. destruct ((fr_index f' <? 0) || _) eqn:E4; [done|].
  intros E5 E6. assert (E := eq_trans E6 (eq_sym E5)). apply Ok_inj in E. apply app_inj_tail3 in E as (Ep & Ei & El); [|lia|by rewrite !toBytes_length].
  assert (fr_index f' = fr_index f) as Ei'.
  { unfold MAX_SEGMENT_INDEX in *. rewrite <- (fromBytes_toBytes 4 (fr_index f)) by (cbn; lia). rewrite <- Ei. symmetry. apply fromBytes_toBytes. cbn. lia. }
  destruct f as [p i b], f' as [p' i' b']. cbn [fr_noncePrefix fr_index isLast] in *. subst p' i'. f_equal. by destruct b, b'.
Qed.

Lemma segmentIv_ok prefix i last : length prefix = 7%nat -> 0 <= i <= MAX_SEGMENT_INDEX ->
  ∃ iv, segmentIv {| fr_noncePrefix := prefix; fr_index := i; isLast := last |} = Ok iv.
Proof.
  intros Hp Hi. unfold segmentIv. cbn [fr_noncePrefix fr_index isLast]. rewrite Hp. change (Z.of_nat 7 =? DOCUMENT_NONCE_PREFIX_BYTES) with true. cbn [negb].
  destruct ((i <? 0) || _) eqn:E; [lia|]. by eexists.
Qed.

(** ** Metadata *)

Lemma trimStart_fixed s : trimStart (trimStart s) = trimStart s.
Proof.
  unfold trimStart at 2. destruct (drop (span_len is_ws s) s) as [|c r] eqn:E; [unfold trimStart; by rewrite E|].
  pose proof (span_len_next is_ws s c r E) as Hc. unfold trimStart at 2. rewrite E. by apply trimStart_stop.
Qed.

Lemma trimEnd_head c s : is_ws c = false -> ∃ s', trimEnd (c :: s) = c :: s'.
Proof.
  intros Hc. destruct (trimEnd_prefix (c :: s)) as [post Hp]. destruct (trimEnd (c :: s)) as [|d t] eqn:E; [|injection Hp as <- _; by exists t].
  exfalso. cbn [app] in Hp. unfold trimEnd in E. apply (f_equal (@rev Z)) in E. rewrite rev_involutive in E. cbn [rev] in E.
  unfold trimStart in E. apply (f_equal length) in E. rewrite length_drop in E. cbn [length] in E.
  pose proof (span_len_le is_ws (rev s ++ [c])) as Hl. assert (span_len is_ws (rev s ++ [c]) = length (rev s ++ [c])) as Hs by lia.
  pose proof (span_len_take is_ws (rev s ++ [c])) as Ht. rewrite Hs, firstn_all in Ht. rewrite forallb_app in Ht. cbn in Ht. rewrite Hc in Ht.
  apply andb_true_iff in Ht as [_ Ht]. done.
Qed.

Lemma trim_fixed s : trim (trim s) = trim s.
Proof.
  unfold trim. assert (∀ t, trimEnd (trimEnd t) = trimEnd t) as He by (intros t; unfold trimEnd; by rewrite rev_involutive, trimStart_fixed).
  destruct (trimStart s) as [|c r] eqn:E; [done|].
  assert (is_ws c = false) as Hc by (unfold trimStart in E; by apply span_len_next in E).
  destruct (trimEnd_head c r Hc) as [r' Hr]. rewrite Hr, trimStart_stop by done. by rewrite <- Hr, He.
Qed.

Section metadata.
Context `{Subtle} `{!SubtleLaws} `{TextCodec} `{!TextLaws} `{!Utf8Laws} `{Zod} `{CaseMapping}.

Definition all {A} (p : A -> bool) (o : option A) : bool := match o with Some x => p x | None => true end.

Definition transform_ok (t : Transform) : bool :=
  bounded 1 MAX_DOCUMENT_TRANSFORM_LABEL_LENGTH (tool t) && bounded 1 MAX_DOCUMENT_TRANSFORM_LABEL_LENGTH (toolVersion t) && FullBackup.lower_hex 64 (originalSha256 t).

Definition tag_ok (t : jsstr) : bool := bounded 1 MAX_TAG_LENGTH t && bool_decide (trim t = t).

(** What the schema promises of what it returns. *)
Record meta_ok (m : DocumentMeta) : Prop := {
  mo_name : bounded 1 MAX_DOCUMENT_NAME_LENGTH (meta_name m) = true;
  mo_original : all (bounded 1 MAX_DOCUMENT_NAME_LENGTH) (originalName m) = true;
  mo_restored : all documentId (restoredFrom m) = true;
  mo_mime : bounded 0 MAX_DOCUMENT_MIME_LENGTH (mime m) = true;
  mo_ext : bounded 0 MAX_DOCUMENT_EXT_LENGTH (ext m) = true;
  mo_plaintext : 0 <= meta_plaintextBytes m <= MAX_SAFE_INTEGER;
  mo_sha : FullBackup.lower_hex 64 (meta_sha256 m) = true;
  mo_chunk : 0 < meta_chunkPlaintextBytes m <= MAX_SAFE_INTEGER;
  mo_count : 1 <= meta_chunkCount m <= MAX_DOCUMENT_CHUNK_COUNT;
  mo_tags : forallb tag_ok (tags m) = true /\ Z.of_nat (length (tags m)) <= MAX_DOCUMENT_TAGS;
  mo_note : all (bounded 0 MAX_DOCUMENT_NOTE_LENGTH) (note m) = true;
  mo_transform : all transform_ok (transform m) = true;
  mo_captured : isDatetime (capturedAt m) && bounded 0 MAX_DOCUMENT_TIMESTAMP_LENGTH (capturedAt m) = true;
  mo_framing : hasConsistentFraming (meta_plaintextBytes m) (meta_chunkPlaintextBytes m) (meta_chunkCount m) = true;
  mo_bytes : documentMetaJsonByteLength m <= MAX_DOCUMENT_META_JSON_BYTES;
}.

Lemma let_inv {E A B} (m : result E A) (f : A -> result E B) y : result_bind m f = Ok y -> ∃ x, m = Ok x /\ f x = Ok y.
Proof. destruct m as [x|e]; [|done]. intros Hf. by exists x. Qed.

Lemma member_inv {A} members name (s : Schema A) x : member members name s = Ok x -> s (assoc name members) = Ok x.
Proof. unfold member. by destruct (s _). Qed.

Lemma z_string_inv ok j s : z_string ok j = Ok s -> ok s = true.
Proof. destruct j as [[]|]; cbn; try done. destruct (ok _) eqn:E; [|done]. by intros [= <-]. Qed.

Lemma z_int_inv ok j n : z_int ok j = Ok n -> Z.abs n <= MAX_SAFE_INTEGER /\ ok n = true.
Proof. destruct j as [[]|]; cbn; try done. destruct (_ && _) eqn:E; [|done]. intros [= <-]. apply andb_true_iff in E as [E1 E2]. split; [lia|done]. Qed.

Lemma z_natural_inv j n : z_int (λ n, 0 <=? n) j = Ok n -> 0 <= n <= MAX_SAFE_INTEGER.
Proof. intros [Hn Hp]%z_int_inv. lia. Qed.

Lemma z_positive_inv j n : z_int (λ n, 0 <? n) j = Ok n -> 0 < n <= MAX_SAFE_INTEGER.
Proof. intros [Hn Hp]%z_int_inv. lia. Qed.

Lemma z_count_inv j n : z_int (λ n, (1 <=? n) && (n <=? MAX_DOCUMENT_CHUNK_COUNT)) j = Ok n -> 1 <= n <= MAX_DOCUMENT_CHUNK_COUNT.
Proof. intros [_ Hp]%z_int_inv. lia. Qed.

Lemma z_natural_ok n : 0 <= n <= MAX_SAFE_INTEGER -> z_int (λ n, 0 <=? n) (Some (JNum n)) = Ok n.
Proof. intros Hn. apply z_int_ok; lia. Qed.

Lemma z_positive_ok n : 0 < n <= MAX_SAFE_INTEGER -> z_int (λ n, 0 <? n) (Some (JNum n)) = Ok n.
Proof. intros Hn. apply z_int_ok; lia. Qed.

Lemma z_count_ok n : 1 <= n <= MAX_DOCUMENT_CHUNK_COUNT -> z_int (λ n, (1 <=? n) && (n <=? MAX_DOCUMENT_CHUNK_COUNT)) (Some (JNum n)) = Ok n.
Proof. unfold MAX_DOCUMENT_CHUNK_COUNT. intros Hn. apply z_int_ok; unfold MAX_SAFE_INTEGER; lia. Qed.

Lemma z_optional_inv {A} (s : Schema A) (p : A -> bool) j o : (∀ k x, s k = Ok x -> p x = true) -> z_optional s j = Ok o -> all p o = true.
Proof. intros Hp. destruct j as [j|]; cbn; [|by intros [= <-]]. destruct (s (Some j)) as [x|] eqn:E; [|done]. intros [= <-]. by apply (Hp (Some j)). Qed.

Lemma z_items_inv {A} (s : Schema A) (p : A -> bool) items : (∀ k x, s k = Ok x -> p x = true) -> ∀ i xs, z_items s i items = Ok xs -> forallb p xs = true.
Proof.
  intros Hp. induction items as [|j items IH]; intros i xs; cbn; [by intros [= <-]|]. destruct (s (Some j)) as [x|] eqn:E; [|done].
  intros (ys & Hys & [= <-])%let_inv. cbn. by rewrite (Hp (Some j) x E), (IH (S i) ys Hys).
Qed.

Lemma z_trimmed_inv lo hi j t : z_trimmed lo hi j = Ok t -> bounded lo hi t && bool_decide (trim t = t) = true.
Proof.
  destruct j as [[]|]; cbn; try done. destruct (bounded _ _ _) eqn:E; [|done]. intros [= <-]. by rewrite E, trim_fixed, bool_decide_true.
Qed.

Lemma transform_inv j t : documentTransformSchema j = Ok t -> transform_ok t = true.
Proof.
  destruct j as [[]|]; cbn; try done. unfold documentTransformSchema, z_object. 
  intros (f & _ & (r & _ & (a & Ha%member_inv%z_string_inv & (b & Hb%member_inv%z_string_inv & (c & Hc%member_inv%z_string_inv & [= <-])%let_inv)%let_inv)%let_inv)%let_inv)%let_inv.
  unfold transform_ok. cbn [tool toolVersion originalSha256]. by rewrite Ha, Hb, Hc.
Qed.

(** One member out of the chain of a schema. *)
Ltac take_member x Hx Hr := apply let_inv in Hr as (x & Hx%member_inv & Hr).

Lemma meta_schema_inv j m : documentMetaSchema j = Ok m -> meta_ok m.
Proof.
  destruct j as [[]|]; try done. unfold documentMetaSchema, z_object. intros (m' & Hm & Hr)%let_inv.
  destruct (hasConsistentFraming _ _ _) eqn:Ef; [|done]. cbn [negb] in Hr. destruct (_ <? _) eqn:Eb; [done|]. injection Hr as ->.
  unfold documentMetaFields in Hm.
  take_member f1 M1 Hm. take_member f2 M2 Hm. take_member f3 M3 Hm. take_member f4 M4 Hm. take_member f5 M5 Hm. take_member f6 M6 Hm.
  take_member f7 M7 Hm. take_member f8 M8 Hm. take_member f9 M9 Hm. take_member f10 M10 Hm. take_member f11 M11 Hm. take_member f12 M12 Hm.
  take_member f13 M13 Hm. injection Hm as <-.
  apply z_string_inv in M1, M4, M5, M7, M13. apply z_natural_inv in M6. apply z_positive_inv in M8. apply z_count_inv in M9.
  apply (z_optional_inv _ (bounded 1 MAX_DOCUMENT_NAME_LENGTH)) in M2; [|intros k x; apply z_string_inv].
  apply (z_optional_inv _ documentId) in M3; [|intros k x; apply z_string_inv].
  apply (z_optional_inv _ (bounded 0 MAX_DOCUMENT_NOTE_LENGTH)) in M11; [|intros k x; apply z_string_inv].
  apply (z_optional_inv _ transform_ok) in M12; [|apply transform_inv].
  unfold z_array_max in M10. apply let_inv in M10 as (ts & Ht & M10). destruct (Z.of_nat _ <=? _) eqn:El in M10; [|done]. injection M10 as ->.
  assert (forallb tag_ok f10 = true) as Htags.
  { destruct (assoc (js "tags") members) as [[]|]; try done. eapply z_items_inv; [|exact Ht]. intros k x. apply z_trimmed_inv. }
  constructor; cbn [meta_name originalName restoredFrom mime ext meta_plaintextBytes meta_sha256 meta_chunkPlaintextBytes meta_chunkCount tags note transform capturedAt]; try assumption.
  - split; [assumption|]. by apply Z.leb_le.
  - by apply Z.ltb_ge.
Qed.

(** A written member, read by its schema. *)
Ltac read_field := eapply let_ok; [eapply member_of; [reflexivity|]|].

Lemma optional_string_ok ok o : all ok o = true -> z_optional (z_string ok) (JStr <$> o) = Ok o.
Proof. destruct o as [s|]; [|done]. cbn [all fmap option_fmap option_map z_optional]. intros Hs. by rewrite z_string_ok. Qed.

Lemma transform_schema t : transform_ok t = true -> documentTransformSchema (Some (transformJson t)) = Ok t.
Proof.
  unfold transform_ok. intros [[Ht Hv]%andb_true_iff Hs]%andb_true_iff. destruct t as [f r t v s]. cbn [tool toolVersion originalSha256] in *.
  unfold documentTransformSchema, z_object, transformJson. do 2 (read_field; [reflexivity|]).
  read_field; [by apply z_string_ok|]. read_field; [by apply z_string_ok|]. read_field; [by apply z_string_ok|]. done.
Qed.

Lemma optional_transform_ok o : all transform_ok o = true -> z_optional documentTransformSchema (transformJson <$> o) = Ok o.
Proof. destruct o as [t|]; [|done]. cbn [all fmap option_fmap option_map z_optional]. intros Ht. by rewrite transform_schema. Qed.

Lemma tags_schema ts : forallb tag_ok ts = true -> Z.of_nat (length ts) <= MAX_DOCUMENT_TAGS ->
  z_array_max MAX_DOCUMENT_TAGS (z_trimmed 1 MAX_TAG_LENGTH) (Some (JArr (map JStr ts))) = Ok ts.
Proof.
  intros Ht Hl. unfold z_array_max, z_array. rewrite (items_schema _ JStr).
  - cbn [result_bind]. by replace (Z.of_nat (length ts) <=? MAX_DOCUMENT_TAGS) with true by lia.
  - apply Forall_forall. intros t Hin%list_elem_of_In. rewrite forallb_forall in Ht. apply Ht in Hin. unfold tag_ok in Hin.
    apply andb_true_iff in Hin as [Hb He%bool_decide_eq_true]. unfold z_trimmed. by rewrite He, Hb.
Qed.

(** What an object holds under a key, whichever of its optional members are there. *)
Lemma assoc_meta m :
  assoc (js "name") (metaMembers m) = Some (JStr (meta_name m)) /\
  assoc (js "originalName") (metaMembers m) = JStr <$> originalName m /\
  assoc (js "restoredFrom") (metaMembers m) = JStr <$> restoredFrom m /\
  assoc (js "mime") (metaMembers m) = Some (JStr (mime m)) /\
  assoc (js "ext") (metaMembers m) = Some (JStr (ext m)) /\
  assoc (js "plaintextBytes") (metaMembers m) = Some (JNum (meta_plaintextBytes m)) /\
  assoc (js "sha256") (metaMembers m) = Some (JStr (meta_sha256 m)) /\
  assoc (js "chunkPlaintextBytes") (metaMembers m) = Some (JNum (meta_chunkPlaintextBytes m)) /\
  assoc (js "chunkCount") (metaMembers m) = Some (JNum (meta_chunkCount m)) /\
  assoc (js "tags") (metaMembers m) = Some (JArr (map JStr (tags m))) /\
  assoc (js "note") (metaMembers m) = JStr <$> note m /\
  assoc (js "transform") (metaMembers m) = transformJson <$> transform m /\
  assoc (js "capturedAt") (metaMembers m) = Some (JStr (capturedAt m)).
Proof. destruct m as [a [b|] [c|] d e f g h i j [k|] [l|] n]; split_and!; vm_compute; reflexivity. Qed.

Lemma meta_fields m : meta_ok m -> documentMetaFields (metaMembers m) = Ok m.
Proof.
  intros [M1 M2 M3 M4 M5 M6 M7 M8 M9 [M10 M10'] M11 M12 M13 _ _]. pose proof (assoc_meta m) as (A1 & A2 & A3 & A4 & A5 & A6 & A7 & A8 & A9 & A10 & A11 & A12 & A13).
  unfold documentMetaFields.
  eapply let_ok; [eapply member_of; [exact A1|exact (z_string_ok _ _ M1)]|].
  eapply let_ok; [eapply member_of; [exact A2|exact (optional_string_ok _ _ M2)]|].
  eapply let_ok; [eapply member_of; [exact A3|exact (optional_string_ok _ _ M3)]|].
  eapply let_ok; [eapply member_of; [exact A4|exact (z_string_ok _ _ M4)]|].
  eapply let_ok; [eapply member_of; [exact A5|exact (z_string_ok _ _ M5)]|].
  eapply let_ok; [eapply member_of; [exact A6|exact (z_natural_ok _ M6)]|].
  eapply let_ok; [eapply member_of; [exact A7|exact (z_string_ok _ _ M7)]|].
  eapply let_ok; [eapply member_of; [exact A8|exact (z_positive_ok _ M8)]|].
  eapply let_ok; [eapply member_of; [exact A9|exact (z_count_ok _ M9)]|].
  eapply let_ok; [eapply member_of; [exact A10|exact (tags_schema _ M10 M10')]|].
  eapply let_ok; [eapply member_of; [exact A11|exact (optional_string_ok _ _ M11)]|].
  eapply let_ok; [eapply member_of; [exact A12|exact (optional_transform_ok _ M12)]|].
  eapply let_ok; [eapply member_of; [exact A13|exact (z_string_ok _ _ M13)]|]. by destruct m.
Qed.

Lemma meta_schema m : meta_ok m -> documentMetaSchema (Some (metaJson m)) = Ok m.
Proof.
  intros Hm. unfold documentMetaSchema, z_object, metaJson. rewrite (meta_fields m Hm). cbn [result_bind].
  rewrite (mo_framing m Hm). cbn [negb]. by rewrite (proj2 (Z.ltb_ge _ _) (mo_bytes m Hm)).
Qed.

(** ** What the schema changes: tags are trimmed *)

Definition trimmed (m : DocumentMeta) : DocumentMeta :=
  {| meta_name := meta_name m; originalName := originalName m; restoredFrom := restoredFrom m; mime := mime m; ext := ext m;
     meta_plaintextBytes := meta_plaintextBytes m; meta_sha256 := meta_sha256 m; meta_chunkPlaintextBytes := meta_chunkPlaintextBytes m;
     meta_chunkCount := meta_chunkCount m; tags := map trim (tags m); note := note m; transform := transform m; capturedAt := capturedAt m |}.

Lemma z_string_same ok s x : z_string ok (Some (JStr s)) = Ok x -> x = s.
Proof. cbn. destruct (ok s); [|done]. by intros [= <-]. Qed.

Lemma z_optional_string_same ok o x : z_optional (z_string ok) (JStr <$> o) = Ok x -> x = o.
Proof. destruct o as [s|]; cbn; [|by intros [= <-]]. destruct (ok s); [|done]. by intros [= <-]. Qed.

Lemma z_int_same ok n x : z_int ok (Some (JNum n)) = Ok x -> x = n.
Proof. cbn. destruct (_ && _); [|done]. by intros [= <-]. Qed.

Lemma z_items_trim lo hi ts : ∀ i xs, z_items (z_trimmed lo hi) i (map JStr ts) = Ok xs -> xs = map trim ts.
Proof.
  induction ts as [|t ts IH]; intros i xs; cbn; [by intros [= <-]|]. destruct (bounded _ _ _); [|done]. cbn. intros (ys & Hys & [= <-])%let_inv.
  by rewrite (IH (S i) ys Hys).
Qed.

Lemma tags_trim ts xs : z_array_max MAX_DOCUMENT_TAGS (z_trimmed 1 MAX_TAG_LENGTH) (Some (JArr (map JStr ts))) = Ok xs -> xs = map trim ts.
Proof.
  unfold z_array_max, z_array. intros (ys & Hys & Hx)%let_inv. destruct (_ <=? _); [|done]. injection Hx as <-. by apply z_items_trim in Hys.
Qed.

Lemma z_boolean_same b x : z_boolean (Some (JBool b)) = Ok x -> x = b.
Proof. by intros [= <-]. Qed.

Lemma transform_same t x : documentTransformSchema (Some (transformJson t)) = Ok x -> x = t.
Proof.
  unfold documentTransformSchema, z_object, transformJson. intros Ho. destruct t as [f r t v s].
  take_member f1 M1 Ho. take_member f2 M2 Ho. take_member f3 M3 Ho. take_member f4 M4 Ho. take_member f5 M5 Ho. injection Ho as <-.
  apply z_boolean_same in M1 as ->. apply z_boolean_same in M2 as ->. apply z_string_same in M3 as ->, M4 as ->, M5 as ->. done.
Qed.

Lemma optional_transform_same o x : z_optional documentTransformSchema (transformJson <$> o) = Ok x -> x = o.
Proof.
  destruct o as [t|]; cbn [fmap option_fmap option_map z_optional]; [|by intros [= <-]]. destruct (documentTransformSchema _) as [y|] eqn:E; [|done].
  apply transform_same in E as ->. by intros [= <-].
Qed.

Lemma meta_schema_trims m v : documentMetaSchema (Some (metaJson m)) = Ok v -> v = trimmed m.
Proof.
  unfold documentMetaSchema, z_object, metaJson. intros (v' & Hm & Hr)%let_inv.
  destruct (hasConsistentFraming _ _ _); [|done]. cbn [negb] in Hr. destruct (_ <? _); [done|]. injection Hr as ->.
  pose proof (assoc_meta m) as (A1 & A2 & A3 & A4 & A5 & A6 & A7 & A8 & A9 & A10 & A11 & A12 & A13). unfold documentMetaFields in Hm.
  take_member f1 M1 Hm. take_member f2 M2 Hm. take_member f3 M3 Hm. take_member f4 M4 Hm. take_member f5 M5 Hm. take_member f6 M6 Hm.
  take_member f7 M7 Hm. take_member f8 M8 Hm. take_member f9 M9 Hm. take_member f10 M10 Hm. take_member f11 M11 Hm. take_member f12 M12 Hm.
  take_member f13 M13 Hm. injection Hm as <-.
  rewrite A1 in M1; rewrite A2 in M2; rewrite A3 in M3; rewrite A4 in M4; rewrite A5 in M5; rewrite A6 in M6; rewrite A7 in M7;
    rewrite A8 in M8; rewrite A9 in M9; rewrite A10 in M10; rewrite A11 in M11; rewrite A12 in M12; rewrite A13 in M13.
  apply z_string_same in M1 as ->, M4 as ->, M5 as ->, M7 as ->, M13 as ->. apply z_optional_string_same in M2 as ->, M3 as ->, M11 as ->.
  apply z_int_same in M6 as ->, M8 as ->, M9 as ->. apply tags_trim in M10 as ->. by apply optional_transform_same in M12 as ->.
Qed.

Lemma members_plain l : NoDup (map fst l) -> Forall (λ m, index_like (fst m) = false /\ plain_json (snd m) = true) l -> plain_json (JObj l) = true.
Proof.
  intros Hd Hl. change (bool_decide (NoDup (map fst l)) && forallb (λ '(k, v), negb (index_like k) && plain_json v) l = true).
  rewrite bool_decide_true by done. apply forallb_forall. intros [k v] Hin%list_elem_of_In. rewrite Forall_forall in Hl.
  destruct (Hl _ Hin) as [Hk Hv]. cbn [fst snd] in *. by rewrite Hk, Hv.
Qed.

Lemma metaJson_plain m : plain_json (metaJson m) = true.
Proof.
  apply members_plain.
  - destruct m as [a [b|] [c|] d e f g h i ts [k|] [l|] n]; eapply bool_decide_eq_true_1; vm_compute; reflexivity.
  - unfold metaMembers. rewrite !Forall_app. assert (plain_json (JArr (map JStr (tags m))) = true) as Ht by by apply forallb_map_true.
    assert (∀ t, plain_json (transformJson t) = true) as Hj by (intros []; vm_compute; reflexivity).
    split_and!; [|destruct (originalName m)|destruct (restoredFrom m)| |destruct (note m)|destruct (transform m)|];
      repeat constructor; try (vm_compute; reflexivity); try apply Ht; apply Hj.
Qed.

(** Sealed fields open under their key. *)
Lemma seal_opens random key plaintext : Forall is_octet random -> Forall is_octet plaintext ->
  openFromFields key (sealToFields random key plaintext) = Ok plaintext.
Proof.
  intros Hr Hp. unfold openFromFields, sealToFields. cbn [encrypted iv_ tag]. pose proof (gcm_octets key random plaintext Hp) as Ho.
  rewrite !base64_roundtrip by auto using Forall_take, Forall_drop. cbn [result_bind]. rewrite take_drop. by rewrite gcm_opens.
Qed.

Lemma wrap_unwraps random dek key fields : Forall is_octet random -> Forall is_octet dek -> wrapDek random dek key = Ok fields -> unwrapDek fields key = Ok dek.
Proof.
  intros Hr Hd (u & Hl & [= <-])%let_inv. unfold unwrapDek. rewrite seal_opens by done. cbn [result_bind]. by rewrite Hl.
Qed.

(** Metadata opens to what its schema made of it, and the schema changes it once at most. *)
Lemma meta_opens random key m fields : Forall is_octet random -> encryptMeta random key m = Ok fields ->
  ∃ validated, documentMetaSchema (Some (metaJson m)) = Ok validated /\ meta_ok validated /\ decryptMeta key fields = Ok validated.
Proof.
  intros Hr. unfold encryptMeta. destruct (documentMetaSchema _) as [v|] eqn:Ev; [|done]. intros [= <-]. exists v. split; [done|].
  pose proof (meta_schema_inv _ _ Ev) as Hv. split; [done|]. unfold decryptMeta. rewrite seal_opens by (done || apply utf8_octets).
  destruct (text_roundtrip (metaJson v) (metaJson_plain v)) as [Hd Hp]. cbn [result_bind]. unfold metaBytes. by rewrite Hd, Hp, (meta_schema v Hv).
Qed.
End metadata.
