(* ===== verification/DocumentReadSpec.v ===== *)
(** The verified read against the server it distrusts.  What the browser of an account sealed is a
    relation ([sealed]); that nothing else opens under the account's keys is asked of the ciphertexts
    a read tries ([unforged]), which is what authenticated encryption is relied on for. *)
From S2P Require Import Prelude FullBackup FullBackupSpec FullBackupRoundTrip DocumentObjects DocumentObjectsSpec DocumentCipher DocumentCipherSpec.
Local Open Scope Z_scope.
Local Open Scope result_scope.

(** A document as the browser sealed it: the identifier of its first, discarded wrap, its key and
    framing, its plaintext slices, and its metadata at every time. *)
Record SentDocument := {
  h_id : jsstr;
  h_provisional : jsstr;
  h_dek : list Z;
  h_salt : list Z;
  h_prefix : list Z;
  h_slices : list (list Z);
  h_metas : list DocumentMeta;
}.

Definition lower_object_id (id : jsstr) : Prop := OBJECT_ID_PATTERN id = true /\ toLowerCase id = id.

Section read.
Context `{Subtle} `{!SubtleLaws} `{TextCodec} `{!TextLaws} `{!Utf8Laws} `{Zod} `{CaseMapping}.
Context (vaultKey : list Z).

Definition framing_at (h : SentDocument) (i : nat) : SegmentFraming :=
  {| fr_noncePrefix := h_prefix h; fr_index := Z.of_nat i; isLast := Z.of_nat i =? Z.of_nat (length (h_slices h)) - 1 |}.

(** Every seal under a key of the account. *)
Inductive sealed (hs : list SentDocument) : CryptoKey -> list Z -> list Z -> Prop :=
  | sealed_provisional h iv : h ∈ hs ->
      sealed hs (deriveDocumentKey vaultKey [] DOCUMENT_DEK_WRAP_INFO_PREFIX (h_provisional h)) iv (h_dek h)
  | sealed_key h iv : h ∈ hs ->
      sealed hs (deriveDocumentKey vaultKey [] DOCUMENT_DEK_WRAP_INFO_PREFIX (h_id h)) iv (h_dek h)
  | sealed_meta h iv m : h ∈ hs -> m ∈ h_metas h ->
      sealed hs (deriveDocumentKey (h_dek h) (h_salt h) DOCUMENT_META_INFO_PREFIX (h_id h)) iv (metaBytes m)
  | sealed_segment h i slice iv : h ∈ hs -> h_slices h !! i = Some slice -> segmentIv (framing_at h i) = Ok iv ->
      sealed hs (deriveDocumentKey (h_dek h) (h_salt h) DOCUMENT_STREAM_INFO_PREFIX (h_id h)) iv slice.

Record sent_well (h : SentDocument) : Prop := {
  sw_id : lower_object_id (h_id h);
  sw_provisional : lower_object_id (h_provisional h);
  sw_metas m : m ∈ h_metas h -> meta_ok m /\ meta_chunkCount m = Z.of_nat (length (h_slices h)) /\ meta_sha256 m = toHex (sha256 (concat (h_slices h)));
}.

(** Identifiers are used once. *)
Definition distinct_ids (hs : list SentDocument) : Prop := NoDup (map h_id hs) /\ ∀ h h', h ∈ hs -> h' ∈ hs -> h_provisional h <> h_id h'.

(** ** What a read tries to open *)

Inductive tried (row : DocumentResponse) (segments : nat -> Fetched) : CryptoKey -> list Z -> list Z -> Prop :=
  | tried_key k c iv tag_ : deriveWrapKey vaultKey (r_id row) = Ok k ->
      base64ToArrayBuffer (encryptedDek row) = Ok c -> base64ToArrayBuffer (dekIv row) = Ok iv -> base64ToArrayBuffer (dekTag row) = Ok tag_ ->
      tried row segments k iv (c ++ tag_)
  | tried_meta w dek salt k c iv tag_ : deriveWrapKey vaultKey (r_id row) = Ok w -> unwrapDek (wrappedKeyOf row) w = Ok dek ->
      base64ToArrayBuffer (streamSalt row) = Ok salt -> deriveMetaKey dek salt (r_id row) = Ok k ->
      base64ToArrayBuffer (encryptedMeta row) = Ok c -> base64ToArrayBuffer (metaIv row) = Ok iv -> base64ToArrayBuffer (metaTag row) = Ok tag_ ->
      tried row segments k iv (c ++ tag_)
  | tried_segment w dek salt prefix k i iv bytes : deriveWrapKey vaultKey (r_id row) = Ok w -> unwrapDek (wrappedKeyOf row) w = Ok dek ->
      base64ToArrayBuffer (streamSalt row) = Ok salt -> base64ToArrayBuffer (noncePrefix row) = Ok prefix -> deriveStreamKey dek salt (r_id row) = Ok k ->
      segmentIv {| fr_noncePrefix := prefix; fr_index := Z.of_nat i; isLast := Z.of_nat i =? chunkCount row - 1 |} = Ok iv ->
      segments i = Sealed bytes -> tried row segments k iv bytes.

(** Of what the server served, only what the account sealed opens. *)
Definition unforged (hs : list SentDocument) (row : DocumentResponse) (segments : nat -> Fetched) : Prop :=
  ∀ k iv c p, tried row segments k iv c -> gcm_decrypt k iv c = Some p -> sealed hs k iv p.

(** ** Keys of different purposes and documents are different *)

Lemma object_id_ascii id : OBJECT_ID_PATTERN id = true -> plain_ascii id.
Proof.
  unfold OBJECT_ID_PATTERN. intros [_ Hs]%andb_true_iff. rewrite forallb_forall in Hs. apply Forall_forall. intros c Hc%list_elem_of_In.
  apply Hs in Hc. unfold hex_char in Hc. lia.
Qed.

Definition is_info (prefix : jsstr) : Prop := prefix = DOCUMENT_DEK_WRAP_INFO_PREFIX \/ prefix = DOCUMENT_META_INFO_PREFIX \/ prefix = DOCUMENT_STREAM_INFO_PREFIX.

Lemma info_ascii prefix : is_info prefix -> plain_ascii prefix.
Proof.
  intros Hp. assert (forallb (λ c, (1 <=? c) && (c <? 128)) prefix = true) as Hs by (destruct Hp as [-> | [-> | ->]]; vm_compute; reflexivity).
  rewrite forallb_forall in Hs. apply Forall_forall. intros c Hc%list_elem_of_In. apply Hs in Hc. lia.
Qed.

Lemma info_distinct prefix prefix' id id' : is_info prefix -> is_info prefix' -> lower_object_id id -> lower_object_id id' ->
  encodeUtf8 (prefix ++ id) = encodeUtf8 (prefix' ++ id') -> prefix = prefix' /\ id = id'.
Proof.
  intros Hp Hp' [Hi _] [Hi' _]. rewrite !utf8_ascii by (apply Forall_app; split; (by apply info_ascii) || (by apply object_id_ascii)).
  intros E. apply app_inj_2 in E; [done|]. by rewrite (object_id_length id), (object_id_length id').
Qed.

Lemma key_distinct ikm salt prefix id ikm' salt' prefix' id' : is_info prefix -> is_info prefix' -> lower_object_id id -> lower_object_id id' ->
  deriveDocumentKey ikm salt prefix id = deriveDocumentKey ikm' salt' prefix' id' -> ikm = ikm' /\ salt = salt' /\ prefix = prefix' /\ id = id'.
Proof.
  intros Hp Hp' Hi Hi' (-> & -> & E)%hkdf_distinct. apply info_distinct in E as [-> ->]; done.
Qed.

Lemma same_document hs h h' : distinct_ids hs -> h ∈ hs -> h' ∈ hs -> h_id h = h_id h' -> h = h'.
Proof.
  intros [Hd _] [i Hi]%list_elem_of_lookup [j Hj]%list_elem_of_lookup E.
  assert (i = j) as ->; [|congruence]. eapply (NoDup_lookup _ _ _ (h_id h) Hd); rewrite list_lookup_fmap; [by rewrite Hi|by rewrite Hj, E].
Qed.

#[local] Hint Unfold is_info : core.

(** The seals under one of the keys of a document, by what they were for. *)
Ltac sealed_cases Hw Hin Hs :=
  rewrite Forall_forall in Hw; pose proof (Hw _ Hin);
  inversion Hs as [h' iv' Hin' Ek|h' iv' Hin' Ek|h' iv' m Hin' Hm Ek|h' j slice iv' Hin' Hj Hv Ek]; subst;
  pose proof (Hw h' Hin'); symmetry in Ek; apply key_distinct in Ek as (E1 & E2 & E3 & E4); try (by apply sw_id || by apply sw_provisional || by auto).

(** Under the wrapping key of a document, only its key was sealed. *)
Lemma sealed_under_wrap hs h iv p : distinct_ids hs -> Forall sent_well hs -> h ∈ hs ->
  sealed hs (deriveDocumentKey vaultKey [] DOCUMENT_DEK_WRAP_INFO_PREFIX (h_id h)) iv p -> p = h_dek h.
Proof.
  intros Hd Hw Hin Hs. sealed_cases Hw Hin Hs.
  - exfalso. by apply (proj2 Hd h' h Hin' Hin).
  - by rewrite (same_document hs h h').
Qed.

Lemma sealed_under_meta hs h salt iv p : distinct_ids hs -> Forall sent_well hs -> h ∈ hs ->
  sealed hs (deriveDocumentKey (h_dek h) salt DOCUMENT_META_INFO_PREFIX (h_id h)) iv p -> salt = h_salt h /\ ∃ m, m ∈ h_metas h /\ p = metaBytes m.
Proof.
  intros Hd Hw Hin Hs. sealed_cases Hw Hin Hs; try done.
  rewrite (same_document hs h h') in * by done. eauto.
Qed.

Lemma sealed_under_stream hs h salt iv p : distinct_ids hs -> Forall sent_well hs -> h ∈ hs ->
  sealed hs (deriveDocumentKey (h_dek h) salt DOCUMENT_STREAM_INFO_PREFIX (h_id h)) iv p ->
  salt = h_salt h /\ ∃ i, h_slices h !! i = Some p /\ segmentIv (framing_at h i) = Ok iv.
Proof.
  intros Hd Hw Hin Hs. sealed_cases Hw Hin Hs; try done.
  rewrite (same_document hs h h') in * by done. eauto.
Qed.

(** ** What a read returns *)

Lemma open_fields k fields p : openFromFields k fields = Ok p ->
  ∃ c iv tag_, base64ToArrayBuffer (encrypted fields) = Ok c /\ base64ToArrayBuffer (iv_ fields) = Ok iv /\ base64ToArrayBuffer (tag fields) = Ok tag_ /\
    gcm_decrypt k iv (c ++ tag_) = Some p.
Proof.
  unfold openFromFields. intros (c & Hc & (iv & Hi & (t & Ht & Hp)%let_inv)%let_inv)%let_inv. exists c, iv, t.
  destruct (gcm_decrypt _ _ _) as [q|]; [|done]. by injection Hp as ->.
Qed.

Lemma unwrap_inv fields k dek : unwrapDek fields k = Ok dek -> openFromFields k fields = Ok dek.
Proof. by intros (d & Hd & (u & _ & [= ->])%let_inv)%let_inv. Qed.

Lemma meta_of_bytes k fields meta m : meta_ok m -> openFromFields k fields = Ok (metaBytes m) -> decryptMeta k fields = Ok meta -> meta = m.
Proof.
  intros Hm Ho. unfold decryptMeta. rewrite Ho. cbn [result_bind]. destruct (text_roundtrip (metaJson m) (metaJson_plain m)) as [Hd Hp].
  unfold metaBytes. rewrite Hd, Hp, (meta_schema m Hm). by intros [= <-].
Qed.

Lemma lift_inv {A} (r : result CipherError A) x : lift r = Ok x -> r = Ok x.
Proof. destruct r; [|done]. by intros [= ->]. Qed.

Lemma framing_agrees row meta : framing_disagreements row meta = [] -> chunkCount row = meta_chunkCount meta.
Proof.
  unfold framing_disagreements, AUTHENTICATED_FRAMING_FIELDS. cbn [List.filter]. destruct (chunkPlaintextBytes row =? _); [|done]. cbn [negb].
  destruct (chunkCount row =? _) eqn:E; [|done]. intros _. by apply Z.eqb_eq.
Qed.

(** An account that opens one of its documents has its own metadata, key and framing of it. *)
Lemma opened_as_sent hs h id options row segments meta k prefix : distinct_ids hs -> Forall sent_well hs -> h ∈ hs -> unicodeLower id = h_id h ->
  key_of options = Ok vaultKey -> row_of options = Ok row -> unforged hs row segments ->
  open_document id options = Ok (meta, k, prefix) ->
  meta ∈ h_metas h /\ chunkCount row = Z.of_nat (length (h_slices h)) /\ meta_chunkCount meta = chunkCount row /\
  k = deriveDocumentKey (h_dek h) (h_salt h) DOCUMENT_STREAM_INFO_PREFIX (h_id h) /\
  ∀ i iv bytes, segments i = Sealed bytes ->
    segmentIv {| fr_noncePrefix := prefix; fr_index := Z.of_nat i; isLast := Z.of_nat i =? chunkCount row - 1 |} = Ok iv -> tried row segments k iv bytes.
Proof.
  intros Hd Hw Hin Hid Hk Hr Hu. unfold open_document. rewrite Hk, Hr, Hid. cbn [result_bind].
  destruct (bool_decide (r_id row = h_id h)) eqn:Er; [|done]. apply bool_decide_eq_true in Er. cbn [negb]. destruct (stopped options); [done|].
  pose proof Hw as Hw'. rewrite Forall_forall in Hw'. pose proof (Hw' h Hin) as [[Hp Hl] _ Hmetas].
  assert (normalizeDocumentId (h_id h) = Ok (h_id h)) as Hn by (unfold normalizeDocumentId; by rewrite Hp, Hl).
  assert (deriveWrapKey vaultKey (r_id row) = Ok (deriveDocumentKey vaultKey [] DOCUMENT_DEK_WRAP_INFO_PREFIX (h_id h))) as Hwk.
  { unfold deriveWrapKey. by rewrite Er, Hn. }
  rewrite <- Er at 1. rewrite Hwk. cbn [lift result_bind]. intros (dek & Hdek%lift_inv & Ho)%let_inv.
  assert (dek = h_dek h) as ->.
  { pose proof (unwrap_inv _ _ _ Hdek) as (c & iv & t & H1' & H2' & H3' & H4')%open_fields. eapply sealed_under_wrap; [done..|].
    eapply Hu; [|exact H4']. by eapply tried_key. }
  apply let_inv in Ho as (salt & Hsalt%lift_inv & Ho). apply let_inv in Ho as (mk & Hmk%lift_inv & Ho). apply let_inv in Ho as (m & Hm%lift_inv & Ho).
  pose proof Hmk as (u & Hlen & Hmk')%let_inv. rewrite Hn in Hmk'. injection Hmk' as <-.
  pose proof Hm as (bytes & Hb & _)%let_inv. pose proof Hb as (c & iv & t & H1' & H2' & H3' & H4')%open_fields.
  assert (sealed hs (deriveDocumentKey (h_dek h) salt DOCUMENT_META_INFO_PREFIX (h_id h)) iv bytes) as Hs.
  { eapply Hu; [|exact H4']. eapply tried_meta; [exact Hwk|exact Hdek|exact Hsalt|by rewrite Er|done..]. }
  apply sealed_under_meta in Hs as (-> & m' & Hm' & ->); [|done..]. destruct (Hmetas m' Hm') as (Hok & Hc & _).
  apply (meta_of_bytes _ _ m m' Hok Hb) in Hm as ->.
  destruct (framing_disagreements row m') eqn:Ef; [|done]. apply framing_agrees in Ef.
  apply let_inv in Ho as (sk & Hsk%lift_inv & Ho). apply let_inv in Ho as (np & Hnp%lift_inv & Ho). injection Ho as <- <- <-.
  pose proof Hsk as (u' & _ & Hsk')%let_inv. rewrite Hn in Hsk'. injection Hsk' as <-.
  split_and!; [done|congruence|done|done|]. intros i iv' bytes' Hi Hiv. eapply tried_segment; [exact Hwk|exact Hdek|exact Hsalt|exact Hnp|by rewrite Er|done|done].
Qed.

(** The loop writes the slices from its index on, all of them when it ends well. *)
Lemma read_segments_slices segments k prefix count slices :
  (∀ i bytes p, segments i = Sealed bytes ->
     decryptSegment k {| fr_noncePrefix := prefix; fr_index := Z.of_nat i; isLast := Z.of_nat i =? count - 1 |} bytes = Ok p -> slices !! i = Some p) ->
  ∀ remaining index w r, read_segments segments k prefix count index remaining = (w, r) -> (index + remaining = length slices)%nat ->
  ∃ rest, drop index slices = w ++ rest /\ (r = Ok tt -> rest = []).
Proof.
  intros Hs remaining. induction remaining as [|n IH]; intros index w r; cbn [read_segments].
  - intros [= <- <-] Hl. exists []. split; [|done]. rewrite drop_ge by lia. done.
  - destruct (segments index) as [| |bytes] eqn:Ei; [by intros [= <- <-]; eexists|by intros [= <- <-]; eexists|].
    destruct (decryptSegment _ _ _) as [p|e] eqn:Ed; [|by intros [= <- <-]; eexists].
    destruct (read_segments segments k prefix count (S index) n) as [w' r'] eqn:Er. intros [= <- <-] Hl.
    destruct (IH _ _ _ Er ltac:(lia)) as (rest & Hrest & Hend). exists rest. split; [|done].
    pose proof (Hs index bytes p Ei Ed) as Hp. by rewrite (drop_S slices p index Hp), Hrest.
Qed.

Lemma decrypt_inv k framing bytes p : decryptSegment k framing bytes = Ok p -> ∃ iv, segmentIv framing = Ok iv /\ gcm_decrypt k iv bytes = Some p.
Proof.
  unfold decryptSegment. destruct (_ <? _); [done|]. intros (iv & Hiv & Hp)%let_inv. exists iv. split; [done|]. destruct (gcm_decrypt _ _ _); [|done]. congruence.
Qed.

(** A segment that opens at a place is the slice of that place. *)
Lemma opened_slice hs h k count prefix segments row i bytes p : distinct_ids hs -> Forall sent_well hs -> h ∈ hs -> unforged hs row segments ->
  k = deriveDocumentKey (h_dek h) (h_salt h) DOCUMENT_STREAM_INFO_PREFIX (h_id h) ->
  (∀ iv, segmentIv {| fr_noncePrefix := prefix; fr_index := Z.of_nat i; isLast := Z.of_nat i =? count |} = Ok iv -> tried row segments k iv bytes) ->
  decryptSegment k {| fr_noncePrefix := prefix; fr_index := Z.of_nat i; isLast := Z.of_nat i =? count |} bytes = Ok p ->
  h_slices h !! i = Some p.
Proof.
  intros Hd Hw Hin Hu -> Ht (iv & Hiv & Hp)%decrypt_inv. pose proof (Hu _ _ _ _ (Ht iv Hiv) Hp) as Hs.
  apply sealed_under_stream in Hs as (_ & j & Hj & Hjv); [|done..]. pose proof (segmentIv_injective _ _ _ Hjv Hiv) as E.
  apply (f_equal fr_index) in E. cbn [framing_at fr_index] in E. apply Nat2Z.inj in E as ->. done.
Qed.

(** Everything a verified read does, whatever the server answered. *)
Lemma stream_of_sent hs h id options row segments : distinct_ids hs -> Forall sent_well hs -> h ∈ hs -> unicodeLower id = h_id h ->
  key_of options = Ok vaultKey -> row_of options = Ok row -> unforged hs row segments ->
  ∃ w rest r, streamDocumentPlaintext id options segments = {| written := w; discarded := false; outcome := r |} /\
    h_slices h = w ++ rest /\ ∀ meta, r = Ok meta -> meta ∈ h_metas h /\ rest = [].
Proof.
  intros Hd Hw Hin Hid Hk Hr Hu. unfold streamDocumentPlaintext.
  destruct (open_document id options) as [[[meta k] prefix]|e] eqn:Eo; [|by exists [], (h_slices h), (Throw e)].
  pose proof (opened_as_sent hs h id options row segments meta k prefix Hd Hw Hin Hid Hk Hr Hu Eo) as (Hm & Hc & Hmc & Ek & Ht).
  destruct (read_segments _ _ _ _ _ _) as [w r] eqn:Es. assert (meta_chunkCount meta = Z.of_nat (length (h_slices h))) as Hn by congruence.
  eapply read_segments_slices with (slices := h_slices h) in Es as (rest & Hrest & Hend); [| |rewrite Hn; lia].
  - rewrite drop_0 in Hrest. exists w, rest. destruct r as [[]|e]; [|by exists (Throw e)].
    rewrite (Hend eq_refl), app_nil_r in Hrest. pose proof Hw as Hw'. rewrite Forall_forall in Hw'. destruct (sw_metas h (Hw' h Hin) meta Hm) as (_ & _ & Hsha).
    rewrite <- Hrest, Hsha, bool_decide_true by done. exists (Ok meta). split_and!; [done|by rewrite (Hend eq_refl), app_nil_r|].
    intros m [= <-]. split; [done|by apply Hend].
  - intros i bytes p Hi Hp. rewrite Hmc in Hp. eapply opened_slice; [exact Hd|exact Hw|exact Hin|exact Hu|exact Ek| |exact Hp]. intros iv Hiv. by apply (Ht i iv bytes).
Qed.
End read.
