(* ===== verification/DocumentReadSafety.v ===== *)
(** The verified read of a document, end to end: whatever the server answers the reader gets what was
    sent or an error, what the browser seals reads back, and a rename changes nothing but the names.
    A platform for evaluations, on which a wrong nonce or key does not open. *)
From S2P Require Import Prelude MigrationUri MigrationUriSpec FullBackup FullBackupSpec FullBackupRoundTrip DocumentObjects DocumentObjectsSpec DocumentCipher DocumentCipherSpec DocumentReadSpec.
Local Open Scope Z_scope.
Local Open Scope result_scope.

Section theorems.
Context `{Subtle} `{!SubtleLaws} `{TextCodec} `{!TextLaws} `{!Utf8Laws} `{Zod} `{CaseMapping}.


(** ** Sealing and reading *)

Fixpoint seal_segments (streamKey : CryptoKey) (h : SentDocument) (index : nat) (slices : list (list Z)) : result CipherError (list (list Z)) :=
  match slices with
  | [] => Ok []
  | slice :: slices =>
      let? body := encryptSegment streamKey (framing_at h index) slice in
      let? bodies := seal_segments streamKey h (S index) slices in
      Ok (body :: bodies)
  end.

(** What a transfer seals of a document: its key, its metadata and its segments. *)
Definition seal_document (vaultKey : list Z) (h : SentDocument) (meta : DocumentMeta) (iv iv' : list Z)
    : result CipherError (SealedFields * SealedFields * list (list Z)) :=
  let? streamKey := deriveStreamKey (h_dek h) (h_salt h) (h_id h) in
  let? bodies := seal_segments streamKey h 0 (h_slices h) in
  let? metaKey := deriveMetaKey (h_dek h) (h_salt h) (h_id h) in
  let? sealedMeta := encryptMeta iv' metaKey meta in
  let? wrapKey := deriveWrapKey vaultKey (h_id h) in
  let? wrapped := wrapDek iv (h_dek h) wrapKey in
  Ok (wrapped, sealedMeta, bodies).

(** The row the server keeps of it. *)
Record row_of_sent (h : SentDocument) (meta : DocumentMeta) (wrapped sealedMeta : SealedFields) (row : DocumentResponse) : Prop := {
  rs_id : r_id row = h_id h;
  rs_wrapped : wrappedKeyOf row = wrapped;
  rs_meta : sealedMetaOf row = sealedMeta;
  rs_salt : streamSalt row = arrayBufferToBase64 (h_salt h);
  rs_prefix : noncePrefix row = arrayBufferToBase64 (h_prefix h);
  rs_chunk : chunkPlaintextBytes row = meta_chunkPlaintextBytes meta;
  rs_count : chunkCount row = meta_chunkCount meta;
  rs_bytes : plaintextBytes row = meta_plaintextBytes meta;
}.

(** Metadata that describes the slices; the bytes drawn and kept are bytes. *)
Record described (h : SentDocument) (meta : DocumentMeta) : Prop := {
  ds_count : meta_chunkCount meta = Z.of_nat (length (h_slices h));
  ds_sha : meta_sha256 meta = toHex (sha256 (concat (h_slices h)));
  ds_octets : Forall is_octet (h_dek h) /\ Forall is_octet (h_salt h) /\ Forall is_octet (h_prefix h);
}.

Lemma seal_segments_at k h bodies : ∀ slices index, seal_segments k h index slices = Ok bodies ->
  length bodies = length slices /\ ∀ i slice, slices !! i = Some slice -> ∃ body, bodies !! i = Some body /\ encryptSegment k (framing_at h (index + i)) slice = Ok body.
Proof.
  revert bodies. induction bodies as [|b bodies IH]; intros [|slice slices] index; cbn [seal_segments]; try done.
  - intros (x & _ & (y & _ & [=])%let_inv)%let_inv.
  - intros (x & Hx & (y & Hy & [= -> ->])%let_inv)%let_inv. destruct (IH slices (S index) Hy) as [Hl Hi]. split; [cbn; by rewrite Hl|].
    intros [|i] s; cbn; [intros [= <-]; exists b; by rewrite Nat.add_0_r|]. intros Hs. destruct (Hi i s Hs) as (body & Hb & He). exists body.
    by rewrite Nat.add_succ_r.
Qed.

Lemma segment_opens k framing slice body : encryptSegment k framing slice = Ok body -> decryptSegment k framing body = Ok slice.
Proof.
  unfold encryptSegment, decryptSegment. intros (iv & Hiv & [= <-])%let_inv. rewrite gcm_length.
  replace (Z.of_nat (length slice) + DOCUMENT_TAG_BYTES <? DOCUMENT_TAG_BYTES) with false by lia. rewrite Hiv. cbn [result_bind]. by rewrite gcm_opens.
Qed.

Lemma read_sent k h segments : (∀ i slice, h_slices h !! i = Some slice -> ∃ body, segments i = Sealed body /\ encryptSegment k (framing_at h i) slice = Ok body) ->
  ∀ remaining index, (index + remaining = length (h_slices h))%nat ->
  read_segments segments k (h_prefix h) (Z.of_nat (length (h_slices h))) index remaining = (drop index (h_slices h), Ok tt).
Proof.
  intros Hs remaining. induction remaining as [|n IH]; intros index Hl; cbn [read_segments].
  - by rewrite drop_ge by lia.
  - destruct (h_slices h !! index) as [slice|] eqn:Ei; [|apply lookup_ge_None in Ei; lia]. destruct (Hs index slice Ei) as (body & -> & He).
    pose proof (segment_opens _ _ _ _ He) as Ho. unfold framing_at in Ho. rewrite Ho, IH by lia. by rewrite (drop_S _ _ _ Ei).
Qed.
(** Rows that agree with the sealed metadata pass the check of their framing. *)
Lemma framing_sent h meta wrapped sealedMeta row : row_of_sent h meta wrapped sealedMeta row -> framing_disagreements row meta = [].
Proof.
  intros Hr. unfold framing_disagreements, AUTHENTICATED_FRAMING_FIELDS. cbn [List.filter].
  by rewrite (rs_chunk _ _ _ _ _ Hr), (rs_count _ _ _ _ _ Hr), (rs_bytes _ _ _ _ _ Hr), !Z.eqb_refl.
Qed.

Lemma lift_ok {A} (r : result CipherError A) x : r = Ok x -> lift r = Ok x.
Proof. by intros ->. Qed.

(** What a read finds of a row that holds what was sealed. *)
Lemma open_sent vaultKey h meta iv iv' wrapped sealedMeta bodies id options row : seal_document vaultKey h meta iv iv' = Ok (wrapped, sealedMeta, bodies) ->
  Forall is_octet iv -> Forall is_octet iv' -> described h meta -> row_of_sent h meta wrapped sealedMeta row ->
  unicodeLower id = h_id h -> key_of options = Ok vaultKey -> row_of options = Ok row -> stopped options = false ->
  ∃ k, deriveStreamKey (h_dek h) (h_salt h) (h_id h) = Ok k /\ seal_segments k h 0 (h_slices h) = Ok bodies /\
    open_document id options = Ok (trimmed meta, k, h_prefix h) /\ meta_chunkCount meta = Z.of_nat (length (h_slices h)).
Proof.
  intros (k & Hk & (bs & Hb & (mk & Hmk & (sm & Hsm & (wk & Hwk & (wf & Hwf & [= -> -> ->])%let_inv)%let_inv)%let_inv)%let_inv)%let_inv)%let_inv.
  intros Hiv Hiv' [Hc Hsha (Od & Os & Op)] Hrow Hid Hkey Hr Hst. exists k. split_and!; [done|done| |done].
  unfold open_document. rewrite Hkey, Hr, Hid. cbn [result_bind]. rewrite bool_decide_true by apply Hrow. cbn [negb]. rewrite Hst.
  rewrite (lift_ok _ _ Hwk). cbn [result_bind]. rewrite (rs_wrapped _ _ _ _ _ Hrow), (lift_ok _ _ (wrap_unwraps _ _ _ _ Hiv Od Hwf)). cbn [result_bind].
  rewrite (rs_salt _ _ _ _ _ Hrow), (lift_ok _ _ (base64_roundtrip _ Os)). cbn [result_bind]. rewrite (lift_ok _ _ Hmk). cbn [result_bind].
  destruct (meta_opens _ _ _ _ Hiv' Hsm) as (v & Hv & _ & Hopen). apply meta_schema_trims in Hv as ->.
  rewrite (rs_meta _ _ _ _ _ Hrow), (lift_ok _ _ Hopen). cbn [result_bind].
  rewrite (framing_sent h (trimmed meta) wrapped sealedMeta row) by (destruct Hrow; by constructor).
  rewrite (lift_ok _ _ Hk). cbn [result_bind]. by rewrite (rs_prefix _ _ _ _ _ Hrow), (lift_ok _ _ (base64_roundtrip _ Op)).
Qed.

(** C17: What the browser seals reads back.  When a document's key, metadata and segments are sealed under a
    vault key and nonces of its own, the row keeps what was sealed and the server answers each segment,
    the read of the document by its holder writes exactly its slices and answers its metadata, the tags
    trimmed as the schema trims them; the saved file is the document. *)
Theorem sealed_document_reads_back vaultKey h meta iv iv' wrapped sealedMeta bodies id options row segments file :
  seal_document vaultKey h meta iv iv' = Ok (wrapped, sealedMeta, bodies) -> Forall is_octet iv -> Forall is_octet iv' ->
  described h meta -> row_of_sent h meta wrapped sealedMeta row -> unicodeLower id = h_id h ->
  key_of options = Ok vaultKey -> row_of options = Ok row -> stopped options = false ->
  (∀ i body, bodies !! i = Some body -> segments i = Sealed body) ->
  streamDocumentPlaintext id options segments = {| written := h_slices h; discarded := false; outcome := Ok (trimmed meta) |} /\
  readDocumentPlaintext id options segments = Ok (trimmed meta, concat (h_slices h)) /\
  saveThroughPicker id options segments file = (concat (h_slices h), Ok (trimmed meta)).
Proof.
  intros Hseal Hiv Hiv' Hd Hrow Hid Hkey Hr Hst Hseg.
  destruct (open_sent _ _ _ _ _ _ _ _ _ _ _ Hseal Hiv Hiv' Hd Hrow Hid Hkey Hr Hst) as (k & Hk & Hb & Ho & Hn).
  apply seal_segments_at in Hb as [_ Hb].
  assert (streamDocumentPlaintext id options segments = {| written := h_slices h; discarded := false; outcome := Ok (trimmed meta) |}) as E.
  { unfold streamDocumentPlaintext. rewrite Ho. change (meta_chunkCount (trimmed meta)) with (meta_chunkCount meta). rewrite Hn, Nat2Z.id.
    rewrite (read_sent k h segments) by (done || (intros i slice Hi; destruct (Hb i slice Hi) as (body & Hbi & He); exists body; split; [by apply Hseg|done])).
    rewrite drop_0. change (meta_sha256 (trimmed meta)) with (meta_sha256 meta). by rewrite (ds_sha _ _ Hd), bool_decide_true. }
  split; [exact E|]. unfold readDocumentPlaintext, saveThroughPicker. by rewrite E.
Qed.

(** ** A rename *)

(** The row once the server has stored the new blob. *)
Definition with_meta (row : DocumentResponse) (fields : SealedFields) : DocumentResponse :=
  {| r_id := r_id row; folderId := folderId row; favorite := favorite row; encryptedDek := encryptedDek row; dekIv := dekIv row; dekTag := dekTag row;
     streamSalt := streamSalt row; noncePrefix := noncePrefix row; encryptedMeta := encrypted fields; metaIv := iv_ fields; metaTag := tag fields;
     chunkPlaintextBytes := chunkPlaintextBytes row; chunkCount := chunkCount row; ciphertextBytes := ciphertextBytes row; plaintextBytes := plaintextBytes row;
     purgePending := purgePending row; deletedAt := deletedAt row; createdAt := createdAt row; updatedAt := updatedAt row |}.

Definition given_row (options : ReadOptions) (row : DocumentResponse) : ReadOptions :=
  {| held := held options; given := Some row; other := other options; fetchedRow := fetchedRow options; stopped := stopped options |}.

Lemma key_given options row vaultKey : key_of options = Ok vaultKey -> key_of (given_row options row) = Ok vaultKey.
Proof. unfold key_of. cbn. by destruct (other options), (given options). Qed.

Lemma wrapped_with_meta row fields : wrappedKeyOf (with_meta row fields) = wrappedKeyOf row /\ sealedMetaOf (with_meta row fields) = fields.
Proof. by destruct fields. Qed.

(** What a rename sealed, beside the key it sealed it under. *)
Lemma rename_inv random vaultKey row meta changes fields : updateDocumentMeta random vaultKey row (Some meta) changes = Ok fields ->
  (∀ name, new_name changes = Some name -> documentExtension name = documentExtension (meta_name meta)) /\
  ∃ wrapKey dek salt metaKey, deriveWrapKey vaultKey (r_id row) = Ok wrapKey /\ unwrapDek (wrappedKeyOf row) wrapKey = Ok dek /\
    base64ToArrayBuffer (streamSalt row) = Ok salt /\ deriveMetaKey dek salt (r_id row) = Ok metaKey /\
    encryptMeta random metaKey (updated_meta meta changes) = Ok fields.
Proof.
  unfold updateDocumentMeta. destruct (match new_name changes with Some _ => _ | None => _ end) eqn:En; [done|].
  intros Hs. split.
  - intros name Hn. rewrite Hn in En. destruct (bool_decide _) eqn:Eb; [|done]. by apply bool_decide_eq_true in Eb.
  - destruct (let? wrapKey := _ in _) as [f|e] eqn:E in Hs; [|done]. injection Hs as ->.
    destruct (let_inv _ _ _ E) as (w & Hw & E1). destruct (let_inv _ _ _ E1) as (d & Hd & E2). destruct (let_inv _ _ _ E2) as (s & Hs & E3).
    destruct (let_inv _ _ _ E3) as (m & Hm & E4). by exists w, d, s, m.
Qed.

Lemma disagreements_updated row fields meta changes : framing_disagreements row meta = [] ->
  framing_disagreements (with_meta row fields) (trimmed (updated_meta meta changes)) = [].
Proof. done. Qed.

(** A read of the row after a rename opens it under the same keys. *)
Lemma open_renamed id options vaultKey row meta k prefix random changes fields : key_of options = Ok vaultKey -> row_of options = Ok row ->
  Forall is_octet random -> updateDocumentMeta random vaultKey row (Some meta) changes = Ok fields ->
  open_document id options = Ok (meta, k, prefix) ->
  open_document id (given_row options (with_meta row fields)) = Ok (trimmed (updated_meta meta changes), k, prefix).
Proof.
  intros Hkey Hr Ho Hup. destruct (rename_inv _ _ _ _ _ _ Hup) as (_ & w & dek & salt & mk & Hw & Hdek & Hsalt & Hmk & Hsm).
  destruct (meta_opens _ _ _ _ Ho Hsm) as (v & Hv & _ & Hopen). apply meta_schema_trims in Hv as ->.
  unfold open_document. rewrite Hkey, (key_given _ _ _ Hkey), Hr. cbn [result_bind row_of given_row given].
  change (r_id (with_meta row fields)) with (r_id row). change (stopped (given_row options (with_meta row fields))) with (stopped options).
  destruct (wrapped_with_meta row fields) as [-> ->]. destruct (bool_decide _) eqn:Eid; [|done]. apply bool_decide_eq_true in Eid. cbn [negb].
  destruct (stopped options); [done|]. rewrite <- Eid, (lift_ok _ _ Hw). cbn [result_bind]. rewrite (lift_ok _ _ Hdek). cbn [result_bind].
  change (streamSalt (with_meta row fields)) with (streamSalt row). rewrite (lift_ok _ _ Hsalt). cbn [result_bind]. rewrite (lift_ok _ _ Hmk). cbn [result_bind].
  rewrite (lift_ok _ _ Hopen). cbn [result_bind]. intros (m & Hm & Hrest)%let_inv.
  destruct (framing_disagreements row m) eqn:Ef; [|done].
  destruct (let_inv _ _ _ Hrest) as (sk & Hsk & Hrest'). destruct (let_inv _ _ _ Hrest') as (np & Hnp & [= -> -> ->]).
  rewrite (disagreements_updated row fields meta changes Ef), Hsk. cbn [result_bind]. change (noncePrefix (with_meta row fields)) with (noncePrefix row). by rewrite Hnp.
Qed.

(** C18: A rename changes what the metadata say and nothing else.  When a document reads, and its metadata are
    rewritten from what was read, the row with the new blob reads again: the same bytes, with the metadata
    as they were but for the chosen name, tags (trimmed) and note; and the extension of the name, which
    decides how the document opens, is the one it had. *)
Theorem renamed_document_reads_the_same id options vaultKey row segments w meta random changes fields :
  key_of options = Ok vaultKey -> row_of options = Ok row ->
  streamDocumentPlaintext id options segments = {| written := w; discarded := false; outcome := Ok meta |} ->
  Forall is_octet random -> updateDocumentMeta random vaultKey row (Some meta) changes = Ok fields ->
  streamDocumentPlaintext id (given_row options (with_meta row fields)) segments =
    {| written := w; discarded := false; outcome := Ok (trimmed (updated_meta meta changes)) |} /\
  documentExtension (meta_name (updated_meta meta changes)) = documentExtension (meta_name meta).
Proof.
  intros Hkey Hr Hread Ho Hup. split.
  - unfold streamDocumentPlaintext in Hread. destruct (open_document id options) as [[[m k] prefix]|e] eqn:Eo; [|done].
    destruct (read_segments _ _ _ _ _ _) as [ws [u|e]] eqn:Es; [|done]. destruct (bool_decide _) eqn:Eb; [|done]. injection Hread as -> ->.
    unfold streamDocumentPlaintext. rewrite (open_renamed id options vaultKey row meta k prefix random changes fields); [|done..].
    change (meta_chunkCount (trimmed (updated_meta meta changes))) with (meta_chunkCount meta).
    change (meta_sha256 (trimmed (updated_meta meta changes))) with (meta_sha256 meta). by rewrite Es, Eb.
  - destruct (rename_inv _ _ _ _ _ _ Hup) as [Hext _]. cbn [updated_meta meta_name]. destruct (new_name changes) as [name|]; [|done]. by apply Hext.
Qed.
End theorems.

(** ** A platform for evaluations *)

Definition sampleTag (k : list Z * list Z * list Z) (iv : list Z) : list Z :=
  take 15 (map (λ x, x mod 256) (iv ++ repeat 0 15)) ++ [foldr Z.add 0 (fst (fst k) ++ snd (fst k) ++ snd k) mod 256].

#[local] Instance sampleSubtle : Subtle :=
  {| CryptoKey := list Z * list Z * list Z;
     hkdf := λ ikm salt info, (ikm, salt, info);
     gcm_encrypt := λ k iv p, p ++ sampleTag k iv;
     gcm_decrypt := λ k iv c, let n := (length c - 16)%nat in if bool_decide (drop n c = sampleTag k iv) then Some (take n c) else None;
     sha256 := λ bytes, repeat (foldr Z.add 0 bytes mod 256) 32 |}.

Lemma sampleTag_length k iv : length (sampleTag k iv) = 16%nat.
Proof. unfold sampleTag. rewrite length_app, length_take, length_map, length_app, repeat_length. cbn [length]. lia. Qed.

#[local] Instance sampleSubtleLaws : SubtleLaws.
Proof.
  split.
  - intros k iv p. cbn [gcm_decrypt gcm_encrypt sampleSubtle]. rewrite length_app, sampleTag_length, Nat.add_sub.
    by rewrite drop_app_length, take_app_length, bool_decide_true.
  - intros k iv p. cbn [gcm_encrypt sampleSubtle]. rewrite length_app, sampleTag_length. unfold DOCUMENT_TAG_BYTES. lia.
  - intros k iv p Hp. cbn [gcm_encrypt sampleSubtle]. apply Forall_app. split; [done|]. unfold sampleTag. apply Forall_app. split.
    + apply Forall_take, Forall_forall. intros x (y & -> & _)%list_elem_of_fmap. apply Z.mod_pos_bound. done.
    + apply Forall_singleton, Z.mod_pos_bound. done.
  - by intros ikm salt info ikm' salt' info' [= -> -> ->].
  - intros bytes. cbn [sha256 sampleSubtle]. split; [apply repeat_length|]. apply Forall_forall. intros x Hx%list_elem_of_In%repeat_spec. subst x.
    by apply Z.mod_pos_bound.
Qed.

(** The text codec of the full backups, on which every text is bytes. *)
#[local] Instance sampleText : TextCodec :=
  {| stringify := @stringify sampleCodec; parse := @parse sampleCodec; decodeUtf8 := @decodeUtf8 sampleCodec;
     encodeUtf8 := λ s, match s with [0; z] => 0 :: toBytes (Z.to_nat (Z.log2 z / 8 + 1)) z | _ => map (λ c, c mod 256) s end |}.

#[local] Instance sampleTextLaws : TextLaws.
Proof.
  split.
  - intros j Hj. exact (@text_roundtrip sampleCodec sampleCodecLaws j Hj).
  - intros members. exact (@object_text sampleCodec sampleCodecLaws members).
Qed.

Lemma toBytes_octets n v : Forall is_octet (toBytes n v).
Proof. revert v. induction n as [|n IH]; intros v; cbn [toBytes]; [constructor|]. constructor; [|apply IH]. change 255 with (Z.ones 8). rewrite Z.land_ones by done. by apply Z.mod_pos_bound. Qed.

Lemma mod_octets s : Forall is_octet (map (λ c, c mod 256) s).
Proof. apply Forall_forall. intros x (y & -> & _)%list_elem_of_fmap. by apply Z.mod_pos_bound. Qed.

#[local] Instance sampleUtf8Laws : Utf8Laws.
Proof.
  split.
  - intros s Hs. cbn [encodeUtf8 sampleText]. assert (map (λ c, c mod 256) s = s) as E.
    { induction Hs as [|c s Hc _ IH]; [done|]. cbn [map]. rewrite IH, Z.mod_small; [done|lia]. }
    destruct s as [|[] [|? []]]; try exact E. apply Forall_cons in Hs as [[Hc _] _]. lia.
  - intros s. cbn [encodeUtf8 sampleText]. destruct s as [|[] [|? []]]; try apply mod_octets. constructor; [split; done|]. apply toBytes_octets.
Qed.

#[local] Existing Instance sampleZod.
#[local] Instance sampleCase : CaseMapping := {| unicodeLower := toLowerCase |}.

Definition sample_key : list Z := repeat 7 32.

Definition sample_meta : DocumentMeta :=
  {| meta_name := js "a.txt"; originalName := None; restoredFrom := None; mime := []; ext := js "txt"; meta_plaintextBytes := 6;
     meta_sha256 := toHex (sha256 [1; 2; 3; 4; 5; 6]); meta_chunkPlaintextBytes := 4; meta_chunkCount := 2; tags := [js "x"]; note := None;
     transform := None; capturedAt := js "now" |}.

Definition sample_sent : SentDocument :=
  {| h_id := js "0123456789abcdef01234567"; h_provisional := repeat 48 24; h_dek := repeat 1 32; h_salt := repeat 2 32; h_prefix := repeat 3 7;
     h_slices := [[1; 2; 3; 4]; [5; 6]]; h_metas := [sample_meta] |}.

Definition sample_fields : SealedFields := {| encrypted := []; iv_ := []; tag := [] |}.
Definition sample_sealed : SealedFields * SealedFields * list (list Z) :=
  match seal_document sample_key sample_sent sample_meta (repeat 9 12) (repeat 8 12) with Ok x => x | Throw _ => (sample_fields, sample_fields, []) end.

Definition sample_row_of (wrapped sealedMeta : SealedFields) : DocumentResponse :=
  {| r_id := h_id sample_sent; folderId := None; favorite := false; encryptedDek := encrypted wrapped; dekIv := iv_ wrapped; dekTag := tag wrapped;
     streamSalt := arrayBufferToBase64 (h_salt sample_sent); noncePrefix := arrayBufferToBase64 (h_prefix sample_sent);
     encryptedMeta := encrypted sealedMeta; metaIv := iv_ sealedMeta; metaTag := tag sealedMeta;
     chunkPlaintextBytes := 4; chunkCount := 2; ciphertextBytes := 38; plaintextBytes := 6; purgePending := None; deletedAt := None;
     createdAt := js "now"; updatedAt := js "now" |}.

Definition sample_row : DocumentResponse := sample_row_of (fst (fst sample_sealed)) (snd (fst sample_sealed)).
Definition sample_options : ReadOptions := {| held := Some sample_key; given := Some sample_row; other := None; fetchedRow := None; stopped := false |}.

(** A server that answers the segments in order, and one that answers the first for each. *)
Definition honest (i : nat) : Fetched := match snd sample_sealed !! i with Some body => Sealed body | None => Stopped end.

Lemma sample_seals : seal_document sample_key sample_sent sample_meta (repeat 9 12) (repeat 8 12) = Ok sample_sealed.
Proof. vm_compute. reflexivity. Qed.







Lemma sample_octets : Forall is_octet (repeat 9 12) /\ Forall is_octet (repeat 8 12).
Proof. split; apply Forall_forall; intros x Hx%list_elem_of_In%repeat_spec; subst x; split; done. Qed.

Lemma sample_described : described sample_sent sample_meta.
Proof.
  constructor; [reflexivity|vm_compute; reflexivity|].
  split_and!; apply Forall_forall; intros x Hx%list_elem_of_In%repeat_spec; subst x; split; done.
Qed.

Lemma sample_row_sent : row_of_sent sample_sent sample_meta (fst (fst sample_sealed)) (snd (fst sample_sealed)) sample_row.
Proof. by constructor. Qed.

Lemma sample_unicode : unicodeLower (h_id sample_sent) = h_id sample_sent.
Proof. vm_compute. reflexivity. Qed.

Lemma sample_parts : seal_document sample_key sample_sent sample_meta (repeat 9 12) (repeat 8 12) = Ok (fst (fst sample_sealed), snd (fst sample_sealed), snd sample_sealed).
Proof. rewrite sample_seals. by destruct sample_sealed as [[? ?] ?]. Qed.

Lemma honest_answers i body : snd sample_sealed !! i = Some body -> honest i = Sealed body.
Proof. unfold honest. by intros ->. Qed.

Lemma sealed_document_reads_back_witness :
  streamDocumentPlaintext (h_id sample_sent) sample_options honest = {| written := [[1; 2; 3; 4]; [5; 6]]; discarded := false; outcome := Ok sample_meta |} /\
  saveThroughPicker (h_id sample_sent) sample_options honest [42] = ([1; 2; 3; 4; 5; 6], Ok sample_meta).
Proof.
  destruct sample_octets as [Hiv Hiv'].
  destruct (sealed_document_reads_back sample_key sample_sent sample_meta (repeat 9 12) (repeat 8 12) _ _ _ (h_id sample_sent) sample_options sample_row honest [42]
    sample_parts Hiv Hiv' sample_described sample_row_sent sample_unicode eq_refl eq_refl eq_refl honest_answers)
    as (H1 & _ & H3).
  assert (trimmed sample_meta = sample_meta) as E by (vm_compute; reflexivity). rewrite E in H1, H3. split; [exact H1|exact H3].
Defined.

Definition sample_changes : DocumentMetaUpdate := {| new_name := Some (js "b.TXT"); new_tags := Some [js " y "]; new_note := None |}.
Definition sample_renamed : SealedFields :=
  match updateDocumentMeta (repeat 9 12) sample_key sample_row (Some sample_meta) sample_changes with Ok fields => fields | Throw _ => sample_fields end.

Lemma sample_rename : updateDocumentMeta (repeat 9 12) sample_key sample_row (Some sample_meta) sample_changes = Ok sample_renamed.
Proof. vm_compute. reflexivity. Qed.

Lemma renamed_document_reads_the_same_witness :
  streamDocumentPlaintext (h_id sample_sent) (given_row sample_options (with_meta sample_row sample_renamed)) honest =
    {| written := [[1; 2; 3; 4]; [5; 6]]; discarded := false; outcome := Ok (trimmed (updated_meta sample_meta sample_changes)) |} /\
  tags (trimmed (updated_meta sample_meta sample_changes)) = [js "y"] /\ documentExtension (js "b.TXT") = documentExtension (js "a.txt").
Proof.
  assert (streamDocumentPlaintext (h_id sample_sent) sample_options honest = {| written := [[1; 2; 3; 4]; [5; 6]]; discarded := false; outcome := Ok sample_meta |}) as Hr
    by (vm_compute; reflexivity).
  destruct (renamed_document_reads_the_same (h_id sample_sent) sample_options sample_key sample_row honest _ sample_meta (repeat 9 12) sample_changes sample_renamed
    eq_refl eq_refl Hr (proj1 sample_octets) sample_rename) as [H1 H2].
  split; [exact H1|]. split; [vm_compute; reflexivity|exact H2].
Defined.
